(* ===== verification/_CoqProject ===== *)
-Q . S2P
Prelude.v
Hash.v
Table.v
RecencyList.v
TableInv.v
TableSpec.v
TableSweep.v
TableClaims.v
Store.v
StoreSpec.v
StoreBulk.v
StoreSweep.v
StoreClaims.v
Text.v
Protocol.v
Parser.v
ParserSpec.v
Snapshot.v
SnapshotSpec.v
SaveLoad.v
SaveLoadSpec.v
SnapshotClaims.v
Executor.v
ExecutorSpec.v
ExecutorClaims.v
Trace.v
Pool.v
PoolClaims.v
Connection.v
ConnectionClaims.v
Numbers.v
Client.v
ClientSpec.v
ClientProgram.v
Conversation.v
ClientClaims.v
Config.v
ServerOptions.v
Startup.v
ServerProgram.v
ProgramClaims.v
Timer.v
Sweeper.v
SweepSession.v
Scheduler.v
TimerClaims.v
Accept.v
AcceptClaims.v
Locking.v
LockingInv.v
LockingSpec.v
LockingRuns.v
Linearizability.v
Walks.v
LockingAlone.v
LockingClaims.v
Workers.v
WorkersClaims.v
Saving.v
SavingClaims.v
Connections.v
ConnectionsSpec.v
ConnectionsClaims.v
Doubles.v
Bench.v
BenchSpec.v
BenchClaims.v
