(* ===== verification/Prelude.v ===== *)
(** * VCache: a verification development

    VCache is an in-memory key-value server in C++17.  A request line travels
    through these parts, each of which is modelled by the files named with it.

    - [CommandParser] (src/src/CommandParser.cpp) turns a line of text into a
      command or an error.  [Parser] holds the tokenizer, the command table and
      [parse]; [Text] the characters and the decimal numbers of the standard
      library it uses; [ParserSpec] the lemmas.
    - [CommandExecutor] (src/src/CommandExecutor.cpp) runs the command and words
      the reply in the format of src/include/Protocol.h.  [Protocol] holds the
      format and the escaping, [Executor] the whole of [execute], [ExecutorSpec]
      an ideal server ([serves], [answers], [session]) and the simulation;
      [Workers] the requests of several workers at a time, on top of [Locking].
    - [Database] (src/src/Database.cpp) routes a key to a shard, keeps deadlines
      and the memory limit, and takes and restores snapshots.  [Store] holds the
      state and one definition per method; [StoreSpec] (single keys, eviction),
      [StoreBulk] (whole keyspace) and [StoreSweep] (expiry) the lemmas.
      [Locking] is the same class between threads: a mutex per shard, calls in
      progress, and steps that take a lock, do the work under it, promote a key,
      release the lock and return.  [LockingInv] holds mutual exclusion and the
      isolation of critical sections, [LockingSpec] the meaning of every section on
      the keyspace ([effect]), [LockingRuns] the invariant of runs and progress,
      [Linearizability] the simulation by an ideal map, [Walks] the interface of
      KEYS and snapshots and what they gather among writers, [LockingAlone] the
      agreement with [Store].
    - [HashTable] (src/src/HashTable.cpp), one per shard, is a chained hash table
      whose nodes are also threaded on a recency list.  [Hash] holds the hash
      function and the power-of-two arithmetic; [Table] the table: buckets are
      lists of pointers, nodes live in a finite map from pointers to records, and
      every pointer write of the source is a write to that map, so a null or
      dangling pointer is a visible failure.  [RecencyList] treats the doubly
      linked list, [TableInv] the representation invariant, [TableSpec] the
      abstract view [Rep] (a finite map and a recency order) with one lemma per
      operation, [TableSweep] the sweep over a range of buckets.
    - [SnapshotStore] and the snapshot codec (src/src/Persistence.cpp) write the
      keyspace to a file and read it back.  [Snapshot] holds the codec and the
      conversion between the two clocks, [SnapshotSpec] its lemmas; [SaveLoad]
      the store over an interface to the operating system ([FileSystem]),
      [SaveLoadSpec] the laws of that interface ([PosixLaws]), a file system in
      memory that satisfies them, and the behaviour of [save] and [load];
      [Saving] the saves of several threads, a step per system call, with the mutex
      that serialises them.
    - [Server] (src/src/Server.cpp) listens and gives every connection to a
      worker.  [Startup] holds [start], [closeSockets] and the destructor, with
      the answers of the socket calls as an argument and the descriptors obtained
      and closed on record.  [Accept] is a labelled transition system of [run],
      [stop], [serveConnection] and [shutdownActiveConnections], one step per
      critical section or system call, with the kernel's table of descriptors and
      a flag that is raised when a descriptor that is not open is used.
      [Connection] holds the handling of one connection ([handleConnection],
      [sendLine], [sendAll]): the bytes [recv] delivers and the results of [send]
      are its inputs, and it reaches the executor through the class
      [RequestHandler], of which [ConnectionClaims] has the server's instance.
      [Connections] is the same function as all workers run it at once, with a step
      per system call and per step of [Workers]; [ConnectionsSpec] has its invariant.
    - [ThreadPool] (src/src/ThreadPool.cpp) runs the connections.  [Pool] is a
      labelled transition system with one step per critical section, an explicit
      condition variable and spurious wakeups; its invariant and a measure give
      safety and progress.  [Trace] holds the runs of such systems.
    - [ExpirationSweeper] and [SnapshotScheduler] (src/src/ExpirationSweeper.cpp,
      src/src/SnapshotScheduler.cpp) are threads that work on a timer.  [Timer]
      holds what they share, with the pass and the activity of other threads as
      parameters; [Sweeper] and [Scheduler] instantiate it; [SweepSession] mixes
      passes of the sweeper into a session of requests.
    - [VCacheClient] (src/src/VCacheClient.cpp) is the other end of a connection.
      [Client] holds its methods, [ClientSpec] the lemmas about the byte stream,
      [Conversation] the client and the server with a network between them.
    - The programs: [Config] holds [ServerConfig], [ServerOptions] the options of
      src/server/main.cpp, [ServerProgram] its [main] before and after [run],
      [ClientProgram] the whole of src/client/main.cpp, [Numbers] the conversions
      of the standard library both use.
    - The benchmarks (src/bench): [Bench] holds the statistics, the key generator and
      the workloads on the table and the database, [Doubles] the IEEE arithmetic they
      use, [BenchSpec] the lemmas.

    The theorems are in [TableClaims], [StoreClaims], [SnapshotClaims],
    [ExecutorClaims], [PoolClaims], [ConnectionClaims], [ClientClaims],
    [ProgramClaims], [TimerClaims], [AcceptClaims], [LockingClaims],
    [WorkersClaims], [ConnectionsClaims], [SavingClaims] and [BenchClaims], each with a
    concrete instance.  [Prelude]
    (this file) holds what the others share.

    ** Conventions

    Machine integers are [Z]; arithmetic on [std::size_t] and [std::uint64_t] is
    reduced modulo 2^64 ([u64]), and signed arithmetic that would overflow is
    undefined.  Strings are lists of bytes.  A function of the source that can
    meet undefined behaviour, or loop, returns an [option] whose [None] is that
    case; the theorems show it does not occur, or say when it does.  Readings of
    a clock are arguments: the source makes them inside, the theorems quantify
    over them.  [sizeof(Node)] and the tick of the system clock are parameters
    ([Platform], [SystemClock]) with the instances of common platforms.

    Loops that are not structural run on fuel, with enough of it: the number of
    entries for the eviction loop (each iteration removes one), the length of the
    line for the tokenizer and of the file for the decoder (each iteration
    consumes a byte), 64 for the doublings of a 64-bit number, and for system
    calls the length of the data plus the interruptions still to come.  In each
    case a theorem shows that the result is reached.

    ** What the theorems show

    - [table_refines_map]: any sequence of table operations is defined and acts
      as on a finite map with a recency order; [table_put], [table_lookup],
      [table_remove], [table_evictOldest], [table_removeIf] and [table_resize]
      say what each returns.  [roundUp_equivalent], [roundUp_beyond] and
      [hashKey_single_byte] are about the arithmetic underneath.
    - [set_evicts_least_recent], [setMaxMemory_trims] and [set_rejected_iff]
      describe the memory limit: what is evicted is a minimal suffix of the
      recency order of one shard, and the key just written stays.
      [restore_exceeds_limit] shows where the limit is not enforced.
    - [get_visible], [del_removes], [ttl_rounds_up], [setEx_deadline],
      [keys_exact] and [size_counts] give each command its meaning on the visible
      part of the keyspace; [sweep_complete] shows that passes of the sweeper
      remove only what has expired and in the end all of it.
    - [shard_exclusion], [sections_isolated] and [calls_complete] are about the shard
      locks over every interleaving of calls: who is inside a shard, that nobody
      else disturbs it, that nothing is undefined, that no deadlock arises and every
      call ends.  [linearizable] shows that single-key calls act as on one map in one
      order; [keys_concurrent] and [concurrent_save_restores] what KEYS and a saved
      and reloaded snapshot contain when others write meanwhile; [call_alone] and
      [execute_is_one_call] that the steps add up to the sequential definitions;
      [concurrent_clients] carries linearizability over to request lines and replies,
      [connections_served] on to the bytes of all connections at once.
    - [snapshot_restore], [restore_replaces], [decode_encode] and
      [save_then_load] are the round trips of persistence;
      [altered_byte_refused], [decode_answers] and [decode_expiry_overflow] are
      about damaged or hostile files; [save_atomic] and [load_all_or_nothing]
      about failures and crashes; [saves_serialised] about saves at the same time.
    - [parse_print_roundtrip], [parse_answers], [accepted_expiry_fits] and
      [get_reply_feeds_set] are about the text of requests; [reply_framed] about
      replies; [session_refines_ideal_server] ties everything together, and
      [connection_refines_ideal_server] carries it over to the bytes on a socket,
      however they are cut; [connection_limit] is about lines without an end.
    - [pool_keeps_work] and [pool_quiesces] show that over every interleaving no
      accepted task is lost, repeated or reordered, no wakeup is lost, all accepted
      work is done after a bounded number of steps, and a shutdown ends.
    - [descriptors_closed_once] and [stop_ends_server] show the same of the accept
      loop: every connection is closed once, none is used after it was closed, and
      [stop] ends the server from every state.  [start_no_leak] and
      [damaged_snapshot_refused] are about starting it.
    - [sweeper_lifecycle] and [scheduler_lifecycle] show that the timer threads can
      be started and stopped at any time and what their counters mean;
      [sweeper_invisible] that no client can tell whether a sweeper runs.
    - [client_sees_ideal_server] carries the ideal server over to the replies a
      client decodes, through any network that loses nothing; [client_reads_reply]
      and [client_failure] say what a command leaves behind when it succeeds and
      when it fails.
    - [oneShot_program], [options_roundtrip], [accepted_options_usable] and
      [byteSize_exact] are about the command lines of the two programs,
      [oneShot_line_break] and [saveInterval_overflow] about where they fall
      short; [restart_keeps_keyspace] composes a clean exit with a restart.
    - [summarise_ranks] and [timeMedian_median] show that the figures of a benchmark are
      the ranks they are called; [lookup_benchmarks], [insertion_deletion],
      [preSized_no_rehash], [roomy_limit_evicts_nothing] and [worker_mix] that the
      workloads are the ones their titles name.

    The table theorems assume at most 2^50 entries ([maxEntries]), far beyond any
    address space, so that the load-factor comparison in [double] is exact.

    ** What is not modelled

    [Database::setMaxMemory] between threads: the program changes the limit before it
    starts one.  Inside a critical section the source is one step, which
    [sections_isolated] justifies; the mutex of the recency list is not a
    state of its own.  In [SweepSession], [Sweeper] and
    [Scheduler] a pass of the sweeper and the snapshot of a save are one step, in
    [Locking] they are walks over the locks.  The memory model of the processor is
    taken to be sequentially consistent, as the locks and the default atomics of the
    source guarantee.  Socket options that tune the transport, and the signal handler,
    which only calls [stop], have no definition.  The diagnostic [loadFactor] of the
    table is left out.  Of the benchmarks the printing, the containers and locks that
    are only there for comparison, and the load generator of bench_server.cpp are left
    out.  The tests are not modelled. *)
From stdpp Require Export base tactics option list gmap numbers countable strings.
From Stdlib Require Export ZArith Lia.
From Stdlib Require Export Strings.Byte.

#[local] Open Scope Z_scope.

Abbreviation byte := Init.Byte.byte (only parsing).
Abbreviation bytes := (list Init.Byte.byte).

(** ** Bytes and machine integers *)

(** [static_cast<unsigned char>(c)], as an integer. *)
Definition byteZ (b : byte) : Z := Z.of_N (Byte.to_N b).

(** [static_cast<char>(z)]: the low eight bits. *)
Definition byte_of_Z (z : Z) : byte :=
  match Byte.of_N (Z.to_N (z mod 256)) with Some b => b | None => x00 end.

(** A string literal as bytes. *)
Definition bs (s : String.string) : bytes := String.list_byte_of_string s.

(** Arithmetic on [std::uint64_t] and [std::size_t] wraps modulo 2^64. *)
Definition u64 (z : Z) : Z := z mod 2 ^ 64.

(** [s.size()] of a string or of a vector. *)
Definition len {A} (l : list A) : Z := Z.of_nat (length l).

(** Running a fallible step over every element, left to right. *)
Fixpoint foldM {A S} (f : S -> A -> option S) (s : S) (l : list A) : option S :=
  match l with
  | [] => Some s
  | x :: l' => match f s x with Some s' => foldM f s' l' | None => None end
  end.

(** Sum of an integer measure over a list. *)
Fixpoint sumZ {A} (f : A -> Z) (l : list A) : Z :=
  match l with [] => 0 | x :: l' => f x + sumZ f l' end.

#[global] Instance byte_eq_dec : EqDecision byte := Byte.byte_eq_dec.
#[global] Program Instance byte_countable : Countable byte :=
  inj_countable Byte.to_N Byte.of_N _.
Next Obligation. intros b. apply Byte.of_to_N. Qed.

(** ** Automation *)

Create HintDb vcache.
Create Rewrite HintDb vcache.

(** Case analysis on the boolean tests of the code, turned into
    propositions about integers. *)
Ltac ztests :=
  repeat match goal with
  | H : context [Z.eqb ?a ?b] |- _ => destruct (Z.eqb_spec a b)
  | |- context [Z.eqb ?a ?b] => destruct (Z.eqb_spec a b)
  | H : context [Z.ltb ?a ?b] |- _ => destruct (Z.ltb_spec a b)
  | |- context [Z.ltb ?a ?b] => destruct (Z.ltb_spec a b)
  | H : context [Z.leb ?a ?b] |- _ => destruct (Z.leb_spec a b)
  | |- context [Z.leb ?a ?b] => destruct (Z.leb_spec a b)
  end.

(** ** Generic lemmas *)

Lemma byteZ_range b : 0 <= byteZ b < 256.
Proof. unfold byteZ. pose proof (Byte.to_N_bounded b). lia. Qed.

Lemma byteZ_inj b c : byteZ b = byteZ c -> b = c.
Proof.
  unfold byteZ. intros H%N2Z.inj.
  pose proof (Byte.of_to_N b) as Hb. pose proof (Byte.of_to_N c) as Hc.
  rewrite H in Hb. congruence.
Qed.

Lemma byteZ_of_Z z : byteZ (byte_of_Z z) = z mod 256.
Proof.
  unfold byte_of_Z, byteZ.
  pose proof (Z.mod_pos_bound z 256 ltac:(lia)).
  destruct (Byte.of_N (Z.to_N (z mod 256))) eqn:E.
  - apply Byte.to_of_N in E. rewrite E. lia.
  - apply Byte.of_N_None_iff in E. lia.
Qed.

Lemma u64_range z : 0 <= u64 z < 2 ^ 64.
Proof. apply Z.mod_pos_bound. lia. Qed.

Lemma u64_small z : 0 <= z < 2 ^ 64 -> u64 z = z.
Proof. apply Z.mod_small. Qed.

Lemma u64_idemp_add_l a b : u64 (u64 a + b) = u64 (a + b).
Proof. unfold u64. apply Zplus_mod_idemp_l. Qed.

Lemma u64_idemp_add a b : u64 (u64 a + u64 b) = u64 (a + b).
Proof. rewrite u64_idemp_add_l, (Z.add_comm a). by rewrite u64_idemp_add_l, Z.add_comm. Qed.
Lemma u64_idemp_sub_l a b : u64 (u64 a - b) = u64 (a - b).
Proof. unfold u64. apply Zminus_mod_idemp_l. Qed.

Lemma len_nonneg {A} (l : list A) : 0 <= len l.
Proof. unfold len. lia. Qed.

Lemma len_app {A} (l k : list A) : len (l ++ k) = len l + len k.
Proof. unfold len. rewrite length_app. lia. Qed.

Lemma len_cons {A} (x : A) l : len (x :: l) = 1 + len l.
Proof. unfold len. simpl. lia. Qed.

Lemma foldM_app {A S} (f : S -> A -> option S) s l k :
  foldM f s (l ++ k) = match foldM f s l with Some s' => foldM f s' k | None => None end.
Proof. revert s. induction l as [|x l IH]; intros s; simpl; [done|]. by destruct (f s x). Qed.

Lemma sumZ_app {A} (f : A -> Z) l k : sumZ f (l ++ k) = sumZ f l + sumZ f k.
Proof. induction l; simpl; lia. Qed.

#[global] Instance sumZ_proper {A} (f : A -> Z) : Proper ((≡ₚ) ==> (=)) (sumZ f).
Proof. intros l k H. induction H; simpl; lia. Qed.

Lemma sumZ_ext {A} (f g : A -> Z) l : (forall x, x ∈ l -> f x = g x) -> sumZ f l = sumZ g l.
Proof.
  induction l as [|x l IH]; intros H; simpl; [done|].
  rewrite (H x) by set_solver. rewrite IH; [done|]. set_solver.
Qed.

Lemma sumZ_nonneg {A} (f : A -> Z) l : (forall x, x ∈ l -> 0 <= f x) -> 0 <= sumZ f l.
Proof.
  induction l as [|x l IH]; intros H; simpl; [done|].
  pose proof (H x ltac:(set_solver)). pose proof (IH ltac:(set_solver)). lia.
Qed.

#[export] Hint Resolve byteZ_range u64_range len_nonneg : vcache.
(** ** Replacing one element of a list *)

Lemma insert_perm {A} (i : nat) (x y : A) (l : list A) :
  l !! i = Some x -> exists rest, l ≡ₚ x :: rest /\ <[i := y]> l ≡ₚ y :: rest.
Proof.
  intros Hi. exists (take i l ++ drop (S i) l). split.
  - rewrite <- (take_drop_middle l i x Hi) at 1. by rewrite Permutation_middle.
  - rewrite insert_take_drop by (by eapply lookup_lt_Some). by rewrite Permutation_middle.
Qed.

Lemma elem_of_insert_new {A} (i : nat) (w x : A) (l : list A) : x ∈ <[i := w]> l -> x = w \/ x ∈ l.
Proof.
  intros [j H]%list_elem_of_lookup. apply list_lookup_insert_Some in H as [(_ & <- & _)|[_ H]].
  - by left.
  - right. by eapply list_elem_of_lookup_2.
Qed.

#[global] Instance omap_perm {A B} (f : A -> option B) : Proper ((≡ₚ) ==> (≡ₚ)) (omap (M := list) f).
Proof.
  induction 1 as [|x l k _ IH|x y l|l k m _ IH1 _ IH2]; cbn; [done| | |by etransitivity].
  - destruct (f x); by rewrite IH.
  - destruct (f x), (f y); auto using perm_swap.
Qed.

#[export] Hint Rewrite @len_app @len_cons @sumZ_app : vcache.

Lemma foldM_concat {A S} (f : S -> A -> option S) s (ls : list (list A)) :
  foldM (foldM f) s ls = foldM f s (concat ls).
Proof.
  revert s. induction ls as [|l ls IH]; intros s; simpl; [done|].
  rewrite foldM_app. by destruct (foldM f s l).
Qed.

(** Replacing one chain of a bucket array, up to order. *)
Lemma concat_insert {A} (ls : list (list A)) i c c' :
  ls !! i = Some c -> concat (<[i := c']> ls) ++ c ≡ₚ concat ls ++ c'.
Proof.
  intros Hi. pose proof (lookup_lt_Some _ _ _ Hi).
  rewrite insert_take_drop by done.
  rewrite <- (take_drop_middle ls i c Hi) at 3.
  rewrite !concat_app. simpl. solve_Permutation.
Qed.

Lemma concat_elem_of {A} (ls : list (list A)) x :
  x ∈ concat ls <-> exists i c, ls !! i = Some c /\ x ∈ c.
Proof.
  rewrite list_elem_of_In, in_concat. split.
  - intros (c & Hc & Hx). apply list_elem_of_In in Hc. apply list_elem_of_lookup in Hc as [i Hi].
    exists i, c. by rewrite list_elem_of_In.
  - intros (i & c & Hi & Hx). exists c. split; [|by apply list_elem_of_In].
    apply list_elem_of_In. by eapply list_elem_of_lookup_2.
Qed.

Lemma concat_replicate_nil {A} n : concat (replicate n (@nil A)) = [].
Proof. by induction n. Qed.

(** A filter that every element passes. *)
Lemma filter_id {A} (P : A -> Prop) `{forall x, Decision (P x)} (l : list A) :
  (forall x, x ∈ l -> P x) -> filter P l = l.
Proof.
  induction l as [|x l IH]; intros Hall; [done|].
  rewrite filter_cons_True by (apply Hall; by left).
  f_equal. apply IH. intros y Hy. apply Hall. by right.
Qed.

Lemma sumZ_zero {A} (l : list A) : sumZ (fun _ => 0) l = 0.
Proof. induction l; simpl; lia. Qed.

(** ** Sums over a finite map *)

Definition total {A} (f : A -> Z) (m : gmap nat A) : Z := sumZ (fun kv => f kv.2) (map_to_list m).

Lemma total_empty {A} (f : A -> Z) : total f ∅ = 0.
Proof. unfold total. by rewrite map_to_list_empty. Qed.

Lemma total_new {A} (f : A -> Z) m i x : m !! i = None -> total f (<[i := x]> m) = f x + total f m.
Proof. intros Hi. unfold total. by rewrite map_to_list_insert. Qed.

Lemma total_delete {A} (f : A -> Z) m i x : m !! i = Some x -> total f (delete i m) = total f m - f x.
Proof. intros Hi. unfold total. rewrite <- (map_to_list_delete m i x) by done. simpl. lia. Qed.

Lemma total_insert {A} (f : A -> Z) m i x y :
  m !! i = Some x -> total f (<[i := y]> m) = total f m - f x + f y.
Proof.
  intros Hi. rewrite <- insert_delete_eq, total_new by (by rewrite lookup_delete_eq).
  rewrite (total_delete f m i x) by done. lia.
Qed.

Lemma total_nonneg {A} (f : A -> Z) m : (forall x, 0 <= f x) -> 0 <= total f m.
Proof. intros Hf. apply sumZ_nonneg. auto. Qed.

Lemma total_ge {A} (f : A -> Z) m i x : (forall x, 0 <= f x) -> m !! i = Some x -> f x <= total f m.
Proof. intros Hf Hi. pose proof (total_delete f m i x Hi). pose proof (total_nonneg f (delete i m) Hf). lia. Qed.
