(* ===== verification/Hash.v ===== *)
(** * Hashing and power-of-two arithmetic

    [HashTable::hashKey] (64-bit FNV-1a followed by the avalanche step),
    [HashTable::roundUpToPowerOfTwo] (bit smearing), the loop versions of the
    same arithmetic in [Database.cpp], and the [double] comparison against
    [kMaxLoadFactor].  All integers are [Z] reduced modulo 2^64 where the C++
    type wraps. *)
From S2P Require Import Prelude.

#[local] Open Scope Z_scope.

(** ** hashKey *)

Definition kFnvOffsetBasis : Z := 0xcbf29ce484222325.
Definition kFnvPrime : Z := 0x100000001b3.

(** One iteration of the FNV-1a loop. *)
Definition fnvStep (hash : Z) (ch : byte) : Z :=
  u64 (Z.lxor hash (byteZ ch) * kFnvPrime).

(** [hash ^= hash >> 33]. *)
Definition xorShift33 (hash : Z) : Z := Z.lxor hash (Z.shiftr hash 33).

(** The splitmix64 finalizer. *)
Definition avalanche (hash : Z) : Z :=
  let hash := xorShift33 hash in
  let hash := u64 (hash * 0xff51afd7ed558ccd) in
  let hash := xorShift33 hash in
  let hash := u64 (hash * 0xc4ceb9fe1a85ec53) in
  xorShift33 hash.

Definition hashKey (key : bytes) : Z :=
  avalanche (fold_left fnvStep key kFnvOffsetBasis).

(** ** Rounding to powers of two *)

(** [n |= n >> k]. *)
Definition smear (k n : Z) : Z := Z.lor n (Z.shiftr n k).

(** [HashTable::roundUpToPowerOfTwo] with a 64-bit [std::size_t]. *)
Definition roundUpToPowerOfTwo (n : Z) : Z :=
  if n <=? 1 then 1
  else
    let n := n - 1 in
    let n := smear 1 n in
    let n := smear 2 n in
    let n := smear 4 n in
    let n := smear 8 n in
    let n := smear 16 n in
    let n := smear 32 n in
    u64 (n + 1).

(** The anonymous-namespace version of [Database.cpp]: a doubling loop.  [None]
    is a loop that has not ended within [fuel] iterations. *)
Fixpoint doubleUntil (fuel : nat) (result n : Z) : option Z :=
  if result <? n then
    match fuel with
    | O => None
    | S fuel' => doubleUntil fuel' (u64 (result * 2)) n
    end
  else Some result.

(** Sixty-four doublings carry 1 past every 64-bit value. *)
Definition loopFuel : nat := 64.

Definition dbRoundUpToPowerOfTwo (n : Z) : option Z := doubleUntil loopFuel 1 n.

(** [while ((std::size_t{1} << bits) < n) ++bits;] -- a shift by 64 or more is
    undefined, which is [None] here as well. *)
Fixpoint countBits (fuel : nat) (bits n : Z) : option Z :=
  if 64 <=? bits then None
  else if Z.shiftl 1 bits <? n then
    match fuel with
    | O => None
    | S fuel' => countBits fuel' (bits + 1) n
    end
  else Some bits.

Definition log2OfPowerOfTwo (n : Z) : option Z := countBits loopFuel 0 n.

(** ** Load factor *)

(** [static_cast<double>(z)] for a [std::size_t]: exact below 2^53, otherwise
    rounded to 53 significant bits, ties to even.  Doubles of that size are
    integers, so the value is again a [Z]. *)
Definition doubleOf (z : Z) : Z :=
  if z <? 2 ^ 53 then z
  else
    let e := Z.log2 z - 52 in
    let q := Z.shiftr z e in
    let r := z - Z.shiftl q e in
    let half := Z.shiftl 1 (e - 1) in
    let up := (half <? r) || ((r =? half) && Z.odd q) in
    Z.shiftl (if up then q + 1 else q) e.

(** [static_cast<double>(size) > static_cast<double>(buckets) * kMaxLoadFactor]
    with [kMaxLoadFactor] = 3/4.  Bucket counts are zero or powers of two, for
    which the product with 0.75 is exact. *)
Definition overLoaded (size buckets : Z) : bool :=
  3 * doubleOf buckets <? 4 * doubleOf size.

(** ** Bit-level lemmas *)

Lemma bits_above z n i : 0 <= n <= i -> 0 <= z < 2 ^ n -> Z.testbit z i = false.
Proof.
  intros Hn Hz. destruct (Z.eq_dec z 0) as [->|]; [apply Z.bits_0|].
  apply Z.bits_above_log2; [lia|].
  apply Z.log2_lt_pow2; [lia|]. eapply Z.lt_le_trans; [apply Hz|].
  apply Z.pow_le_mono_r; lia.
Qed.

Lemma range_of_bits z n :
  0 <= n -> 0 <= z -> (forall i, n <= i -> Z.testbit z i = false) -> z < 2 ^ n.
Proof.
  intros Hn Hz Hbits. destruct (Z.eq_dec z 0) as [->|]; [lia|].
  apply Z.log2_lt_pow2; [lia|].
  destruct (Z.lt_ge_cases (Z.log2 z) n) as [|Hge]; [done|].
  specialize (Hbits _ Hge). rewrite Z.bit_log2 in Hbits by lia. done.
Qed.

Lemma lxor_range a b n :
  0 <= n -> 0 <= a < 2 ^ n -> 0 <= b < 2 ^ n -> 0 <= Z.lxor a b < 2 ^ n.
Proof.
  intros Hn Ha Hb.
  assert (0 <= Z.lxor a b) by (apply Z.lxor_nonneg; lia).
  split; [done|]. apply range_of_bits; [done|done|].
  intros i Hi. rewrite Z.lxor_spec, (bits_above a n), (bits_above b n) by lia. done.
Qed.

Lemma shiftr_range a n k : 0 <= k -> 0 <= a < 2 ^ n -> 0 <= Z.shiftr a k < 2 ^ n.
Proof.
  intros Hk Ha. rewrite Z.shiftr_div_pow2 by lia.
  assert (0 < 2 ^ k) by (apply Z.pow_pos_nonneg; lia).
  split; [apply Z.div_pos; lia|]. apply Z.div_lt_upper_bound; [lia|]. nia.
Qed.

Lemma xorShift33_range h : 0 <= h < 2 ^ 64 -> 0 <= xorShift33 h < 2 ^ 64.
Proof. intros. apply lxor_range; [lia|done|]. by apply shiftr_range. Qed.

(** Shifting by more than half the width makes the step its own inverse. *)
Lemma xorShift33_involutive h : 0 <= h < 2 ^ 64 -> xorShift33 (xorShift33 h) = h.
Proof.
  intros Hh. unfold xorShift33.
  rewrite Z.shiftr_lxor, Z.shiftr_shiftr by lia.
  rewrite (Z.lxor_assoc h), <- (Z.lxor_assoc (Z.shiftr h 33)), Z.lxor_nilpotent, Z.lxor_0_l.
  replace (Z.shiftr h (33 + 33)) with 0; [apply Z.lxor_0_r|].
  symmetry. rewrite Z.shiftr_div_pow2 by lia. apply Z.div_small. lia.
Qed.

(** Multiplication by a constant with an inverse modulo 2^64 loses nothing. *)
Lemma u64_mul_inj c inv a b :
  u64 (c * inv) = 1 -> 0 <= a < 2 ^ 64 -> 0 <= b < 2 ^ 64 ->
  u64 (a * c) = u64 (b * c) -> a = b.
Proof.
  intros Hinv Ha Hb Heq.
  assert (forall x, 0 <= x < 2 ^ 64 -> u64 (u64 (x * c) * inv) = x) as Hback.
  { intros x Hx. unfold u64 in *. rewrite Zmult_mod_idemp_l, <- Z.mul_assoc.
    rewrite <- Zmult_mod_idemp_r, Hinv, Z.mul_1_r. by apply Z.mod_small. }
  rewrite <- (Hback a Ha), <- (Hback b Hb). congruence.
Qed.

Lemma fnvStep_range h c : 0 <= fnvStep h c < 2 ^ 64.
Proof. apply u64_range. Qed.

Lemma fold_fnvStep_range l h :
  0 <= h < 2 ^ 64 -> 0 <= fold_left fnvStep l h < 2 ^ 64.
Proof. revert h. induction l; intros; simpl; [done|]. apply IHl, fnvStep_range. Qed.

Lemma byteZ_range64 c : 0 <= byteZ c < 2 ^ 64.
Proof. pose proof (byteZ_range c). lia. Qed.

Lemma kFnvPrime_invertible : u64 (kFnvPrime * 0xce965057aff6957b) = 1.
Proof. reflexivity. Qed.

Lemma lxor_cancel_l a b c : Z.lxor a b = Z.lxor a c -> b = c.
Proof.
  intros H. rewrite <- (Z.lxor_0_l b), <- (Z.lxor_0_l c), <- (Z.lxor_nilpotent a).
  rewrite !Z.lxor_assoc. congruence.
Qed.

(** Two distinct running hashes stay distinct under the same byte. *)
Lemma fnvStep_inj_hash h1 h2 c :
  0 <= h1 < 2 ^ 64 -> 0 <= h2 < 2 ^ 64 -> fnvStep h1 c = fnvStep h2 c -> h1 = h2.
Proof.
  intros H1 H2 Heq.
  eapply u64_mul_inj in Heq;
    [|apply kFnvPrime_invertible|apply lxor_range; [lia|done|apply byteZ_range64]..].
  rewrite !(Z.lxor_comm _ (byteZ c)) in Heq. by apply lxor_cancel_l in Heq.
Qed.

(** Two distinct bytes lead the same running hash to distinct values. *)
Lemma fnvStep_inj_byte h c1 c2 :
  0 <= h < 2 ^ 64 -> fnvStep h c1 = fnvStep h c2 -> c1 = c2.
Proof.
  intros H Heq.
  eapply u64_mul_inj in Heq;
    [|apply kFnvPrime_invertible|apply lxor_range; [lia|done|apply byteZ_range64]..].
  apply lxor_cancel_l in Heq. by apply byteZ_inj.
Qed.

Lemma fold_fnvStep_inj l h1 h2 :
  0 <= h1 < 2 ^ 64 -> 0 <= h2 < 2 ^ 64 ->
  fold_left fnvStep l h1 = fold_left fnvStep l h2 -> h1 = h2.
Proof.
  revert h1 h2. induction l as [|c l IH]; intros h1 h2 H1 H2 Heq; simpl in *; [done|].
  apply IH in Heq; [|apply fnvStep_range..]. by apply fnvStep_inj_hash in Heq.
Qed.

Lemma avalanche_range h : 0 <= h < 2 ^ 64 -> 0 <= avalanche h < 2 ^ 64.
Proof. intros. unfold avalanche. apply xorShift33_range, u64_range. Qed.

Lemma xorShift33_inj a b :
  0 <= a < 2 ^ 64 -> 0 <= b < 2 ^ 64 -> xorShift33 a = xorShift33 b -> a = b.
Proof.
  intros Ha Hb H. rewrite <- (xorShift33_involutive a), <- (xorShift33_involutive b) by done.
  congruence.
Qed.

Lemma avalanche_injective a b :
  0 <= a < 2 ^ 64 -> 0 <= b < 2 ^ 64 -> avalanche a = avalanche b -> a = b.
Proof.
  intros Ha Hb H. unfold avalanche in H.
  apply xorShift33_inj in H; [|apply u64_range..].
  apply (u64_mul_inj _ 0x9cb4b2f8129337db) in H;
    [|reflexivity|apply xorShift33_range, u64_range..].
  apply xorShift33_inj in H; [|apply u64_range..].
  apply (u64_mul_inj _ 0x4f74430c22a54005) in H;
    [|reflexivity|by apply xorShift33_range..].
  by apply xorShift33_inj in H.
Qed.

Lemma hashKey_range key : 0 <= hashKey key < 2 ^ 64.
Proof. apply avalanche_range, fold_fnvStep_range. unfold kFnvOffsetBasis. lia. Qed.
#[export] Hint Resolve hashKey_range : vcache.

(** ** Rounding up *)

(** [topBits w n]: the [w] highest bits of [n], counted from its leading bit,
    are all set. *)
Definition topBits (w n : Z) : Prop :=
  forall i, 0 <= i <= Z.log2 n -> Z.log2 n - w < i -> Z.testbit n i = true.

Lemma smear_log2 k n : 0 < n -> 0 <= k -> Z.log2 (smear k n) = Z.log2 n.
Proof.
  intros Hn Hk. unfold smear.
  assert (0 <= Z.shiftr n k) by (apply Z.shiftr_nonneg; lia).
  rewrite Z.log2_lor by lia. apply Z.max_l. apply Z.log2_le_mono.
  rewrite Z.shiftr_div_pow2 by lia.
  assert (0 < 2 ^ k) by (apply Z.pow_pos_nonneg; lia).
  apply Z.div_le_upper_bound; [lia|]. nia.
Qed.

Lemma smear_pos k n : 0 < n -> 0 < smear k n.
Proof.
  intros Hn. unfold smear.
  assert (0 <= Z.lor n (Z.shiftr n k)) by (apply Z.lor_nonneg; split; [|apply Z.shiftr_nonneg]; lia).
  assert (Z.lor n (Z.shiftr n k) <> 0); [|lia].
  intros H0. apply Z.lor_eq_0_iff in H0. lia.
Qed.

(** Smearing by the number of bits already set doubles that number. *)
Lemma smear_topBits w n : 0 < n -> 0 < w -> topBits w n -> topBits (2 * w) (smear w n).
Proof.
  intros Hn Hw Htop i Hi Hlow. rewrite smear_log2 in * by lia.
  unfold smear. rewrite Z.lor_spec, Z.shiftr_spec by lia.
  destruct (Z.lt_ge_cases (Z.log2 n - w) i).
  - rewrite (Htop i) by lia. done.
  - rewrite (Htop (i + w)) by lia. apply orb_true_r.
Qed.

Lemma topBits_ones w n :
  0 < n -> Z.log2 n < w -> topBits w n -> n + 1 = 2 ^ (Z.log2 n + 1).
Proof.
  intros Hn Hw Htop. pose proof (Z.log2_nonneg n).
  assert (n = Z.ones (Z.log2 n + 1)) as Hones.
  { apply Z.bits_inj'. intros i Hi. destruct (Z.lt_ge_cases (Z.log2 n) i).
    - rewrite Z.bits_above_log2, Z.ones_spec_high by lia. done.
    - rewrite Htop, Z.ones_spec_low by lia. done. }
  rewrite Hones at 1. rewrite Z.ones_equiv. lia.
Qed.

Lemma log2_pred_log2_up n : 1 < n -> Z.log2 (n - 1) + 1 = Z.log2_up n.
Proof. intros. rewrite Z.log2_up_eqn by lia. rewrite <- Z.sub_1_r. lia. Qed.

Lemma roundUpToPowerOfTwo_value n :
  1 < n < 2 ^ 64 -> roundUpToPowerOfTwo n = u64 (2 ^ Z.log2_up n).
Proof.
  intros Hn. unfold roundUpToPowerOfTwo. ztests; [lia|].
  assert (topBits 1 (n - 1)) as Htop.
  { intros i Hi Hl. replace i with (Z.log2 (n - 1)) by lia. apply Z.bit_log2. lia. }
  assert (0 < n - 1) as Hpos by lia.
  assert (Z.log2 (n - 1) < 64) as Hlog by (apply Z.log2_lt_pow2; lia).
  rewrite <- log2_pred_log2_up by lia.
  set (m := n - 1) in *. clearbody m. clear dependent n.
  assert (forall k x, 0 < k -> 0 < x -> topBits k x -> Z.log2 x = Z.log2 m ->
    0 < smear k x /\ topBits (2 * k) (smear k x) /\ Z.log2 (smear k x) = Z.log2 m) as Hstep.
  { intros k x Hk Hx Ht Hl. split_and!; [by apply smear_pos|by apply smear_topBits|].
    rewrite smear_log2; lia. }
  destruct (Hstep 1 m) as (P1 & T1 & L1); [done..|].
  destruct (Hstep 2 (smear 1 m)) as (P2 & T2 & L2); [done..|].
  destruct (Hstep 4 (smear 2 (smear 1 m))) as (P3 & T3 & L3); [done..|].
  destruct (Hstep 8 (smear 4 (smear 2 (smear 1 m)))) as (P4 & T4 & L4); [done..|].
  destruct (Hstep 16 (smear 8 (smear 4 (smear 2 (smear 1 m))))) as (P5 & T5 & L5); [done..|].
  destruct (Hstep 32 (smear 16 (smear 8 (smear 4 (smear 2 (smear 1 m)))))) as (P6 & T6 & L6); [done..|].
  f_equal. rewrite <- L6. apply topBits_ones with (w := 64); [done|lia|done].
Qed.

Lemma doubleUntil_spec fuel k n :
  0 <= k -> k <= Z.log2_up n -> Z.log2_up n <= 63 -> 1 <= n ->
  (Z.to_nat (Z.log2_up n - k) <= fuel)%nat ->
  doubleUntil fuel (2 ^ k) n = Some (2 ^ Z.log2_up n).
Proof.
  revert k. induction fuel as [|fuel IH]; intros k Hk Hkn H63 Hn Hf.
  - assert (k = Z.log2_up n) by lia. subst k. simpl.
    ztests; [|done]. pose proof (Z.log2_up_le_pow2 n (Z.log2_up n)). lia.
  - simpl. destruct (Z.ltb_spec (2 ^ k) n) as [Hlt|Hge].
    + assert (k < Z.log2_up n) by (apply Z.log2_up_lt_pow2 in Hlt; lia).
      rewrite u64_small, Z.mul_comm, <- Z.pow_succ_r by
        (try lia; assert (2 ^ (k + 1) <= 2 ^ 63) by (apply Z.pow_le_mono_r; lia);
         rewrite Z.pow_add_r in *; lia).
      apply IH; lia.
    + f_equal. f_equal. apply Z.log2_up_le_pow2 in Hge; lia.
Qed.

Lemma log2_up_le_63 n : 1 <= n <= 2 ^ 63 -> Z.log2_up n <= 63.
Proof. intros. apply Z.log2_up_le_pow2; lia. Qed.

Lemma dbRoundUp_value n :
  1 <= n <= 2 ^ 63 -> dbRoundUpToPowerOfTwo n = Some (2 ^ Z.log2_up n).
Proof.
  intros Hn. pose proof (log2_up_le_63 n Hn). pose proof (Z.log2_up_nonneg n).
  unfold dbRoundUpToPowerOfTwo. rewrite <- (doubleUntil_spec loopFuel 0); try lia; [done|].
  unfold loopFuel. lia.
Qed.

(** The two routines agree wherever the loop ends. *)
Lemma roundUp_agree n :
  1 <= n <= 2 ^ 63 -> dbRoundUpToPowerOfTwo n = Some (roundUpToPowerOfTwo n).
Proof.
  intros Hn. rewrite dbRoundUp_value by done. f_equal.
  destruct (Z.eq_dec n 1) as [->|]; [reflexivity|].
  rewrite roundUpToPowerOfTwo_value by lia. pose proof (log2_up_le_63 n Hn).
  pose proof (Z.log2_up_nonneg n).
  symmetry. apply u64_small. split; [apply Z.pow_nonneg; lia|].
  apply Z.pow_lt_mono_r; lia.
Qed.

Lemma countBits_spec fuel b k :
  0 <= b <= k -> k <= 63 -> (Z.to_nat (k - b) <= fuel)%nat ->
  countBits fuel b (2 ^ k) = Some k.
Proof.
  revert b. induction fuel as [|fuel IH]; intros b Hb Hk Hf; simpl;
    rewrite Z.shiftl_1_l; ztests; try lia.
  - assert (b = k) by lia. subst. lia.
  - f_equal. lia.
  - apply IH; try lia. assert (b <> k) by (intros ->; lia). lia.
  - assert (~ b < k) by (intros ?%(Z.pow_lt_mono_r 2); lia). f_equal. lia.
Qed.

Lemma log2OfPowerOfTwo_spec k : 0 <= k <= 63 -> log2OfPowerOfTwo (2 ^ k) = Some k.
Proof. intros. apply countBits_spec; unfold loopFuel; lia. Qed.

(** ** Load factor *)

Lemma doubleOf_small z : z < 2 ^ 53 -> doubleOf z = z.
Proof. intros. unfold doubleOf. destruct (Z.ltb_spec z (2 ^ 53)); [done|lia]. Qed.

Lemma overLoaded_small size buckets :
  size < 2 ^ 53 -> buckets < 2 ^ 53 ->
  overLoaded size buckets = (3 * buckets <? 4 * size).
Proof. intros. unfold overLoaded. by rewrite !doubleOf_small. Qed.

(** ** Masking by a power of two *)

Lemma land_mask_range h k : 0 <= k -> 0 <= Z.land h (2 ^ k - 1) < 2 ^ k.
Proof.
  intros. replace (2 ^ k - 1) with (Z.ones k) by (rewrite Z.ones_equiv; lia).
  rewrite Z.land_ones by lia. apply Z.mod_pos_bound. lia.
Qed.
