(* ===== verification/Table.v ===== *)
(** * The hash table: data and operations

    [Entry.h], [HashTable.h] and [HashTable.cpp].  Ownership and aliasing are
    kept apart the way the C++ keeps them apart:

    - a bucket owns its nodes through a chain of [std::unique_ptr]s, which is a
      list of node addresses (the successor of a node is the next element);
    - the recency list is made of raw pointers, which are the [lruPrev] and
      [lruNext] fields of the nodes in the store [nodes].

    Every dereference goes through [nodes]: a null or dangling pointer, or a
    bucket index out of range, is undefined behaviour and the operation returns
    [None].  The mutex of the recency list is not part of this sequential
    model. *)
From S2P Require Import Prelude.
From S2P Require Import Hash.

#[local] Open Scope Z_scope.

(** ** Entry.h *)

(** [Clock::time_point]: nanoseconds of [std::chrono::steady_clock]. *)
Abbreviation time_point := Z (only parsing).

Record Entry := mkEntry {
  ekey : bytes;
  evalue : bytes;
  expiration : option time_point
}.

Definition hasExpiration (e : Entry) : bool :=
  match expiration e with Some _ => true | None => false end.

Definition isExpiredAt (e : Entry) (now : time_point) : bool :=
  match expiration e with Some t => t <=? now | None => false end.

(** ** Platform constants

    [sizeof] of two class types depends on the standard library the program is
    built with. *)
Class Platform := {
  sizeofNode : Z;
  sizeofUniquePtr : Z;
  sizeofNode_range : 0 < sizeofNode < 2 ^ 16;
  sizeofUniquePtr_range : 0 < sizeofUniquePtr < 2 ^ 16
}.

(** The LP64 layout with libstdc++: two 32-byte strings, a 16-byte optional,
    three pointers and a size. *)
#[export] Program Instance lp64 : Platform := {|
  sizeofNode := 112;
  sizeofUniquePtr := 8
|}.
Next Obligation. lia. Qed.
Next Obligation. lia. Qed.

(** The address of a heap-allocated [Node]. *)
Abbreviation ptr := positive (only parsing).

Module HashTable.

(** ** State *)

Record Node := mkNode {
  entry : Entry;
  lruPrev : option ptr;
  lruNext : option ptr;
  footprint : Z
}.

Record t := mk {
  buckets_ : list (list ptr);
  nodes : gmap ptr Node;
  size_ : Z;
  entryBytes_ : Z;
  lruHead_ : option ptr;
  lruTail_ : option ptr
}.

Definition kDefaultBucketCount : Z := 16.
Definition kAllocationSlack : Z := 48.

(** *** Field assignments *)

Definition withEntry (e : Entry) (n : Node) : Node :=
  mkNode e (lruPrev n) (lruNext n) (footprint n).
Definition withPrev (p : option ptr) (n : Node) : Node :=
  mkNode (entry n) p (lruNext n) (footprint n).
Definition withNext (p : option ptr) (n : Node) : Node :=
  mkNode (entry n) (lruPrev n) p (footprint n).
Definition withFootprint (f : Z) (n : Node) : Node :=
  mkNode (entry n) (lruPrev n) (lruNext n) f.

Definition withBuckets (b : list (list ptr)) (ht : t) : t :=
  mk b (nodes ht) (size_ ht) (entryBytes_ ht) (lruHead_ ht) (lruTail_ ht).
Definition withNodes (h : gmap ptr Node) (ht : t) : t :=
  mk (buckets_ ht) h (size_ ht) (entryBytes_ ht) (lruHead_ ht) (lruTail_ ht).
Definition withSize (z : Z) (ht : t) : t :=
  mk (buckets_ ht) (nodes ht) z (entryBytes_ ht) (lruHead_ ht) (lruTail_ ht).
Definition withBytes (z : Z) (ht : t) : t :=
  mk (buckets_ ht) (nodes ht) (size_ ht) z (lruHead_ ht) (lruTail_ ht).
Definition withHead (p : option ptr) (ht : t) : t :=
  mk (buckets_ ht) (nodes ht) (size_ ht) (entryBytes_ ht) p (lruTail_ ht).
Definition withTail (p : option ptr) (ht : t) : t :=
  mk (buckets_ ht) (nodes ht) (size_ ht) (entryBytes_ ht) (lruHead_ ht) p.

(** A write through a pointer. *)
Definition store (p : ptr) (f : Node -> Node) (ht : t) : option t :=
  match nodes ht !! p with
  | Some n => Some (withNodes (<[p := f n]> (nodes ht)) ht)
  | None => None
  end.

(** ** Construction, sizes and accounting *)

Definition new (initialBucketCount : Z) : t :=
  mk (replicate (Z.to_nat (roundUpToPowerOfTwo initialBucketCount)) [])
    ∅ 0 0 None None.

Definition bucketCount (ht : t) : Z := len (buckets_ ht).
Definition size (ht : t) : Z := size_ ht.
Definition isEmpty (ht : t) : bool := size_ ht =? 0.
Definition entryBytes (ht : t) : Z := entryBytes_ ht.

Definition footprintEstimate `{Platform} (key value : bytes) : Z :=
  u64 (sizeofNode + kAllocationSlack + len key + len value).

Definition memoryUsage `{Platform} (ht : t) : Z :=
  u64 (entryBytes_ ht + u64 (bucketCount ht * sizeofUniquePtr)).

(** [hashKey(key) & (n - 1)] for a table of [n] buckets. *)
Definition bucketIndex (n : Z) (key : bytes) : nat :=
  Z.to_nat (Z.land (hashKey key) (n - 1)).

Definition bucketIndexFor (ht : t) (key : bytes) : nat :=
  bucketIndex (bucketCount ht) key.

(** ** Lookup *)

(** The walk over one chain; the inner [None] is [nullptr]. *)
Fixpoint findInChain (h : gmap ptr Node) (key : bytes) (chain : list ptr)
    : option (option ptr) :=
  match chain with
  | [] => Some None
  | p :: rest =>
      match h !! p with
      | None => None
      | Some n =>
          if decide (ekey (entry n) = key) then Some (Some p)
          else findInChain h key rest
      end
  end.

Definition findNode (ht : t) (key : bytes) : option (option ptr) :=
  match buckets_ ht with
  | [] => Some None
  | _ =>
      chain ← buckets_ ht !! bucketIndexFor ht key;
      findInChain (nodes ht) key chain
  end.

(** The pointer [find] returns, dereferenced. *)
Definition find (ht : t) (key : bytes) : option (option Entry) :=
  found ← findNode ht key;
  match found with
  | None => Some None
  | Some p => n ← nodes ht !! p; Some (Some (entry n))
  end.

Definition get (ht : t) (key : bytes) : option (option bytes) :=
  found ← find ht key; Some (option_map evalue found).

Definition contains (ht : t) (key : bytes) : option bool :=
  found ← find ht key; Some (match found with Some _ => true | None => false end).

(** [find(key)->expiration = t]: assignment through the pointer, which must not
    be null. *)
Definition setExpiration (ht : t) (key : bytes) (at_ : option time_point)
    : option t :=
  found ← findNode ht key;
  match found with
  | None => None
  | Some p =>
      store p (fun n => withEntry (mkEntry (ekey (entry n)) (evalue (entry n)) at_) n) ht
  end.

(** ** The recency list *)

Definition lruPushFront (p : ptr) (ht : t) : option t :=
  ht ← store p (withPrev None) ht;
  ht ← store p (withNext (lruHead_ ht)) ht;
  ht ← match lruHead_ ht with
       | Some q => store q (withPrev (Some p)) ht
       | None => Some ht
       end;
  let ht := withHead (Some p) ht in
  Some (match lruTail_ ht with None => withTail (Some p) ht | Some _ => ht end).

Definition lruUnlink (p : ptr) (ht : t) : option t :=
  n ← nodes ht !! p;
  ht ← match lruPrev n with
       | Some q => store q (withNext (lruNext n)) ht
       | None => Some (if decide (lruHead_ ht = Some p) then withHead (lruNext n) ht else ht)
       end;
  n ← nodes ht !! p;
  ht ← match lruNext n with
       | Some q => store q (withPrev (lruPrev n)) ht
       | None => Some (if decide (lruTail_ ht = Some p) then withTail (lruPrev n) ht else ht)
       end;
  ht ← store p (withPrev None) ht;
  store p (withNext None) ht.

Definition lruClear (ht : t) : t := withTail None (withHead None ht).

Definition touch (ht : t) (key : bytes) : option (t * bool) :=
  found ← findNode ht key;
  match found with
  | None => Some (ht, false)
  | Some p =>
      if decide (lruHead_ ht = Some p) then Some (ht, true)
      else
        ht ← lruUnlink p ht;
        ht ← lruPushFront p ht;
        Some (ht, true)
  end.

Definition mostRecentKey (ht : t) : option (option bytes) :=
  match lruHead_ ht with
  | None => Some None
  | Some p => n ← nodes ht !! p; Some (Some (ekey (entry n)))
  end.

Definition leastRecentKey (ht : t) : option (option bytes) :=
  match lruTail_ ht with
  | None => Some None
  | Some p => n ← nodes ht !! p; Some (Some (ekey (entry n)))
  end.

(** ** Resizing *)

(** [while (size_ > target * kMaxLoadFactor) target *= 2;] *)
Fixpoint raiseTarget (fuel : nat) (size target : Z) : option Z :=
  if overLoaded size target then
    match fuel with
    | O => None
    | S fuel' => raiseTarget fuel' size (u64 (target * 2))
    end
  else Some target.

(** Moving one node onto the front of its bucket in the fresh table. *)
Definition relink (h : gmap ptr Node) (mask : Z) (bks : list (list ptr)) (p : ptr)
    : option (list (list ptr)) :=
  n ← h !! p;
  let index := Z.to_nat (Z.land (hashKey (ekey (entry n))) mask) in
  chain ← bks !! index;
  Some (<[index := p :: chain]> bks).

Definition resize (ht : t) (newBucketCount : Z) : option t :=
  target ← raiseTarget loopFuel (size_ ht) (roundUpToPowerOfTwo newBucketCount);
  if target =? bucketCount ht then Some ht
  else
    bks ← foldM (foldM (relink (nodes ht) (target - 1)))
            (replicate (Z.to_nat target) []) (buckets_ ht);
    Some (withBuckets bks ht).

Definition growIfNeeded (ht : t) : option t :=
  if overLoaded (size_ ht) (bucketCount ht) then resize ht (u64 (bucketCount ht * 2))
  else Some ht.

(** ** Insertion *)

(** The key is already stored at [p]: new value, no expiration, running total
    adjusted by the difference, and the node becomes the most recent one. *)
Definition overwrite `{Platform} (ht : t) (p : ptr) (key value : bytes) : option t :=
  n ← nodes ht !! p;
  let updated := footprintEstimate key value in
  ht ← store p (withEntry (mkEntry (ekey (entry n)) value None)) ht;
  let ht := withBytes (u64 (u64 (entryBytes_ ht - footprint n) + updated)) ht in
  ht ← store p (withFootprint updated) ht;
  ht ← lruUnlink p ht;
  lruPushFront p ht.

(** A new node on the front of the chain of bucket [index]. *)
Definition linkNew `{Platform} (ht : t) (index : nat) (chain : list ptr) (key value : bytes)
    : option t :=
  let raw := fresh (dom (nodes ht)) in
  let fp := footprintEstimate key value in
  let ht := withNodes (<[raw := mkNode (mkEntry key value None) None None fp]> (nodes ht)) ht in
  let ht := withBytes (u64 (entryBytes_ ht + fp)) ht in
  let ht := withBuckets (<[index := raw :: chain]> (buckets_ ht)) ht in
  let ht := withSize (u64 (size_ ht + 1)) ht in
  lruPushFront raw ht.

(** [if (buckets_.empty()) buckets_.resize(kDefaultBucketCount);] *)
Definition ensureBuckets (ht : t) : t :=
  match buckets_ ht with
  | [] => withBuckets (replicate (Z.to_nat kDefaultBucketCount) []) ht
  | _ => ht
  end.

Definition put `{Platform} (ht : t) (key value : bytes) : option (t * bool) :=
  let ht := ensureBuckets ht in
  let index := bucketIndexFor ht key in
  chain ← buckets_ ht !! index;
  found ← findInChain (nodes ht) key chain;
  match found with
  | Some p => ht ← overwrite ht p key value; Some (ht, false)
  | None =>
      ht ← linkNew ht index chain key value;
      ht ← growIfNeeded ht;
      Some (ht, true)
  end.

(** ** Removal *)

(** The body shared by [remove] and [removeIf]: bucket [index] becomes
    [spliced], the victim leaves the counters and the recency list and is then
    destroyed. *)
Definition detach (index : nat) (spliced : list ptr) (victim : ptr) (ht : t)
    : option t :=
  n ← nodes ht !! victim;
  let ht := withBuckets (<[index := spliced]> (buckets_ ht)) ht in
  let ht := withSize (u64 (size_ ht - 1)) ht in
  let ht := withBytes (u64 (entryBytes_ ht - footprint n)) ht in
  ht ← lruUnlink victim ht;
  Some (withNodes (delete victim (nodes ht)) ht).

(** The pointer-to-pointer walk of [remove]: [before] is what [link] has passed. *)
Fixpoint removeInChain (index : nat) (key : bytes) (before rest : list ptr) (ht : t)
    : option (t * bool) :=
  match rest with
  | [] => Some (ht, false)
  | p :: rest' =>
      n ← nodes ht !! p;
      if decide (ekey (entry n) = key) then
        ht ← detach index (before ++ rest') p ht; Some (ht, true)
      else removeInChain index key (before ++ [p]) rest' ht
  end.

Definition remove (ht : t) (key : bytes) : option (t * bool) :=
  match buckets_ ht with
  | [] => Some (ht, false)
  | _ =>
      let index := bucketIndexFor ht key in
      chain ← buckets_ ht !! index;
      removeInChain index key [] chain ht
  end.

(** One bucket of [removeIf]; [link] does not advance past a removed node. *)
Fixpoint removeIfInChain (predicate : Entry -> bool) (index : nat)
    (before rest : list ptr) (ht : t) (removed : Z) : option (t * Z) :=
  match rest with
  | [] => Some (ht, removed)
  | p :: rest' =>
      n ← nodes ht !! p;
      if predicate (entry n) then
        ht ← detach index (before ++ rest') p ht;
        removeIfInChain predicate index before rest' ht (u64 (removed + 1))
      else removeIfInChain predicate index (before ++ [p]) rest' ht removed
  end.

Definition removeIfBucket (firstBucket total : Z) (predicate : Entry -> bool)
    (st : t * Z) (offset : nat) : option (t * Z) :=
  let index := Z.to_nat (u64 (firstBucket + Z.of_nat offset) mod total) in
  chain ← buckets_ (fst st) !! index;
  removeIfInChain predicate index [] chain (fst st) (snd st).

Definition removeIf (ht : t) (firstBucket bucketsToScan : Z)
    (predicate : Entry -> bool) : option (t * Z) :=
  if (bucketCount ht =? 0) || (bucketsToScan =? 0) then Some (ht, 0)
  else
    let total := bucketCount ht in
    let toScan := Z.min bucketsToScan total in
    foldM (removeIfBucket firstBucket total predicate) (ht, 0) (seq 0 (Z.to_nat toScan)).

Definition evictOldest (ht : t) : option (t * option bytes) :=
  match lruTail_ ht with
  | None => Some (ht, None)
  | Some p =>
      n ← nodes ht !! p;
      let victimKey := ekey (entry n) in
      r ← remove ht victimKey;
      Some (fst r, Some victimKey)
  end.

(** Destroying a node that is not allocated is undefined. *)
Definition freeNode (h : gmap ptr Node) (p : ptr) : option (gmap ptr Node) :=
  n ← h !! p; Some (delete p h).

Definition destroyChain (h : gmap ptr Node) (head : list ptr) : option (gmap ptr Node) :=
  foldM freeNode h head.

Definition clear (ht : t) : option t :=
  let ht := lruClear ht in
  h ← foldM destroyChain (nodes ht) (buckets_ ht);
  Some (mk (replicate (length (buckets_ ht)) []) h 0 0 (lruHead_ ht) (lruTail_ ht)).

(** ** Enumeration *)

(** The nodes in bucket order, each chain front to back. *)
Definition entriesOf (ht : t) : option (list Entry) :=
  mapM (fun p => n ← nodes ht !! p; Some (entry n)) (concat (buckets_ ht)).

Definition keys (ht : t) : option (list bytes) :=
  es ← entriesOf ht; Some (map ekey es).

Definition entriesWhere (ht : t) (predicate : Entry -> bool) : option (list Entry) :=
  es ← entriesOf ht; Some (List.filter predicate es).

Definition keysWhere (ht : t) (predicate : Entry -> bool) : option (list bytes) :=
  es ← entriesWhere ht predicate; Some (map ekey es).

Definition longestChain (ht : t) : Z :=
  fold_left (fun longest chain => Z.max longest (len chain)) (buckets_ ht) 0.

(** ** Moving *)

(** What a table looks like after its contents have been moved out. *)
Definition movedFrom : t := mk [] ∅ 0 0 None None.

(** The move constructor: the new table and what is left of [other]. *)
Definition moveConstruct (other : t) : t * t := (other, movedFrom).

(** Move assignment from a different object. *)
Definition moveAssign (this other : t) : option (t * t) :=
  this ← clear this; Some (other, movedFrom).

End HashTable.
