(* ===== verification/RecencyList.v ===== *)
(** * The recency list

    The intrusive doubly linked list of [HashTable]: a representation predicate
    for the raw [lruPrev]/[lruNext] pointers, and the proof that [lruPushFront]
    and [lruUnlink] are the list operations they stand for, never follow a
    dangling pointer and leave everything but the recency pointers alone. *)
From S2P Require Import Prelude.
From S2P Require Import Hash.
From S2P Require Import Table.
Import HashTable.

#[local] Open Scope Z_scope.

(** ** Representation *)

(** The first and the last element, or a default. *)
Definition hd_or {A} (d : option A) (l : list A) : option A :=
  match l with [] => d | x :: _ => Some x end.

Fixpoint last_or {A} (d : option A) (l : list A) : option A :=
  match l with [] => d | x :: l' => last_or (Some x) l' end.

(** [dseg h prev l next]: the nodes [l] form a doubly linked segment in [h],
    preceded by [prev] and followed by [next]. *)
Fixpoint dseg (h : gmap ptr Node) (prev : option ptr) (l : list ptr) (next : option ptr) : Prop :=
  match l with
  | [] => True
  | p :: l' =>
      (exists n, h !! p = Some n /\ lruPrev n = prev /\ lruNext n = hd_or next l')
      /\ dseg h (Some p) l' next
  end.

(** The table's recency list is exactly [l], most recently used first. *)
Record recency (ht : t) (l : list ptr) : Prop := mkRecency {
  rec_dseg : dseg (nodes ht) None l None;
  rec_head : lruHead_ ht = hd_or None l;
  rec_tail : lruTail_ ht = last_or None l;
  rec_nodup : NoDup l
}.

(** What a node holds apart from its recency pointers. *)
Definition content (h : gmap ptr Node) : gmap ptr (Entry * Z) :=
  (fun n => (entry n, footprint n)) <$> h.

(** Two tables that differ in their recency pointers only. *)
Record sameTable (ht ht' : t) : Prop := mkSame {
  same_buckets : buckets_ ht' = buckets_ ht;
  same_size : size_ ht' = size_ ht;
  same_bytes : entryBytes_ ht' = entryBytes_ ht;
  same_content : content (nodes ht') = content (nodes ht)
}.

(** ** Segments *)

Lemma last_or_app {A} (d : option A) l k : last_or d (l ++ k) = last_or (last_or d l) k.
Proof. revert d. induction l; intros; simpl; auto. Qed.

Lemma last_or_snoc {A} (d : option A) l x : last_or d (l ++ [x]) = Some x.
Proof. by rewrite last_or_app. Qed.

Lemma hd_or_app {A} (d : option A) l k : hd_or d (l ++ k) = hd_or (hd_or d k) l.
Proof. by destruct l. Qed.

Lemma dseg_app h prev l k next :
  dseg h prev (l ++ k) next <->
  dseg h prev l (hd_or next k) /\ dseg h (last_or prev l) k next.
Proof.
  revert prev. induction l as [|p l IH]; intros prev; simpl; [tauto|].
  rewrite IH, hd_or_app. tauto.
Qed.

Lemma dseg_in h prev l next p : dseg h prev l next -> p ∈ l -> is_Some (h !! p).
Proof.
  revert prev. induction l as [|q l IH]; intros prev H Hp; [by apply not_elem_of_nil in Hp|].
  destruct H as [(n & Hn & _) H]. apply elem_of_cons in Hp as [->|Hp]; eauto.
Qed.

(** Nodes outside a segment may change freely. *)
Lemma dseg_frame h h' prev l next :
  (forall p, p ∈ l -> h' !! p = h !! p) -> dseg h prev l next -> dseg h' prev l next.
Proof.
  revert prev. induction l as [|p l IH]; intros prev Heq H; simpl in *; [done|].
  destruct H as [(n & Hn & Hnp & Hnn) H]. split.
  - exists n. rewrite Heq by set_solver. done.
  - apply IH; [|done]. intros q Hq. apply Heq. set_solver.
Qed.

Lemma dseg_insert_ne h prev l next p n :
  p ∉ l -> dseg h prev l next -> dseg (<[p := n]> h) prev l next.
Proof.
  intros Hp. apply dseg_frame. intros q Hq. apply lookup_insert_ne. by intros ->.
Qed.

(** Rewriting the back pointer of the first node. *)
Lemma dseg_set_prev h prev prev' p l next n :
  p ∉ l -> h !! p = Some n -> dseg h prev (p :: l) next ->
  dseg (<[p := withPrev prev' n]> h) prev' (p :: l) next.
Proof.
  intros Hp Hn [(n' & Hn' & _ & Hnx) H]. simplify_eq. split.
  - exists (withPrev prev' n). rewrite lookup_insert_eq. done.
  - by apply dseg_insert_ne.
Qed.

(** Rewriting the forward pointer of the last node. *)
Lemma dseg_set_next h prev p l next next' n :
  p ∉ l -> h !! p = Some n -> dseg h prev (l ++ [p]) next ->
  dseg (<[p := withNext next' n]> h) prev (l ++ [p]) next'.
Proof.
  intros Hp Hn H. apply dseg_app in H as [H1 [(n' & Hn' & Hpv & _) _]]. simplify_eq.
  apply dseg_app. split.
  - by apply dseg_insert_ne.
  - split; [|done]. exists (withNext next' n). rewrite lookup_insert_eq. done.
Qed.

Lemma dseg_mid h l1 p l2 :
  dseg h None (l1 ++ p :: l2) None ->
  exists n, h !! p = Some n /\ lruPrev n = last_or None l1 /\ lruNext n = hd_or None l2.
Proof. intros [_ [H _]]%dseg_app. done. Qed.

(** ** Stores *)

Lemma store_spec ht p f n :
  nodes ht !! p = Some n -> store p f ht = Some (withNodes (<[p := f n]> (nodes ht)) ht).
Proof. intros H. unfold store. by rewrite H. Qed.

Lemma content_insert_same h p n n' :
  h !! p = Some n -> entry n' = entry n -> footprint n' = footprint n ->
  content (<[p := n']> h) = content h.
Proof.
  intros H He Hf. unfold content. rewrite fmap_insert, insert_id; [done|].
  rewrite lookup_fmap, H. simpl. congruence.
Qed.

Lemma content_lookup h p : content h !! p = (fun n => (entry n, footprint n)) <$> h !! p.
Proof. apply lookup_fmap. Qed.

Lemma sameTable_refl ht : sameTable ht ht.
Proof. done. Qed.

Lemma sameTable_trans a b c : sameTable a b -> sameTable b c -> sameTable a c.
Proof. intros [] []. constructor; congruence. Qed.

#[export] Hint Resolve sameTable_refl sameTable_trans : vcache.

(** ** Push front *)

Lemma lruPushFront_spec ht p l n :
  recency ht l -> p ∉ l -> nodes ht !! p = Some n ->
  exists ht', lruPushFront p ht = Some ht' /\ recency ht' (p :: l) /\ sameTable ht ht'.
Proof.
  intros [Hd Hh Ht Hnd] Hp Hn. unfold lruPushFront.
  rewrite (store_spec _ _ _ n) by done. simpl.
  rewrite (store_spec _ _ _ (withPrev None n)) by apply lookup_insert_eq. simpl.
  rewrite insert_insert_eq, Hh.
  destruct l as [|q l]; simpl.
  - eexists. split; [done|]. rewrite Ht. simpl. split.
    + constructor; simpl; [|done..|by apply NoDup_singleton].
      split; [|done]. eexists. rewrite lookup_insert_eq. done.
    + constructor; simpl; [done..|]. by apply (content_insert_same _ _ n).
  - assert (p <> q) by (by intros ->; apply Hp; left).
    destruct (proj1 Hd) as (m & Hm & Hmp & Hmn).
    rewrite (store_spec _ _ _ m) by (simpl; by rewrite lookup_insert_ne). simpl.
    eexists. split; [done|]. rewrite Ht. simpl.
    replace (last_or (Some q) l) with (last_or None (q :: l)) by done.
    destruct (last_or None (q :: l)) as [z|] eqn:Hl.
    2:{ destruct l as [|? ? _] using rev_ind; [done|]. rewrite app_comm_cons, last_or_snoc in Hl. done. }
    split.
    + constructor; simpl in *; [|done|congruence|by apply NoDup_cons].
      split.
      * eexists. rewrite lookup_insert_ne, lookup_insert_eq by done. done.
      * change (dseg (<[q := withPrev (Some p) m]> (<[p := withNext (Some q) (withPrev None n)]> (nodes ht)))
          (Some p) (q :: l) None).
        apply dseg_set_prev with (prev := None); [by apply NoDup_cons in Hnd as []|by rewrite lookup_insert_ne|].
        by apply dseg_insert_ne.
    + constructor; simpl; [done..|].
      rewrite (content_insert_same _ q m) by (try done; by rewrite lookup_insert_ne).
      by apply (content_insert_same _ _ n).
Qed.

(** ** Unlink *)

Lemma NoDup_mid {A} (l1 l2 : list A) p :
  NoDup (l1 ++ p :: l2) ->
  (p ∉ l1) /\ (p ∉ l2) /\ (forall q, q ∈ l1 -> q ∉ l2) /\ NoDup (l1 ++ l2).
Proof.
  intros (H1 & H2 & [H3 H4]%NoDup_cons)%NoDup_app. split_and!; [|done|..].
  - intros Hp. apply (H2 p Hp). by left.
  - intros q Hq Hq2. apply (H2 q Hq). by right.
  - apply NoDup_app. split_and!; [done|..|done]. intros q Hq Hq2. apply (H2 q Hq). by right.
Qed.

(** The first half of [lruUnlink]: the predecessor, or the head, skips [p]. *)
Lemma unlink_prev_side ht l1 p l2 n :
  recency ht (l1 ++ p :: l2) -> nodes ht !! p = Some n ->
  lruPrev n = last_or None l1 -> lruNext n = hd_or None l2 ->
  exists ht',
    match lruPrev n with
    | Some q => store q (withNext (lruNext n)) ht
    | None => Some (if decide (lruHead_ ht = Some p) then withHead (lruNext n) ht else ht)
    end = Some ht' /\ sameTable ht ht' /\ nodes ht' !! p = Some n /\
    dseg (nodes ht') None l1 (hd_or None l2) /\ dseg (nodes ht') (Some p) l2 None /\
    lruHead_ ht' = hd_or None (l1 ++ l2) /\ lruTail_ ht' = lruTail_ ht.
Proof.
  intros [Hd Hh Ht Hnd] Hn Hpv Hnx. rewrite Hpv, Hnx, Hh.
  apply NoDup_mid in Hnd as (Hp1 & Hp2 & Hdis & Hnd).
  apply dseg_app in Hd as [Hd1 [_ Hd2]]. simpl in Hd1.
  destruct l1 as [|q l1 _] using rev_ind; simpl.
  - rewrite decide_True by done. eexists. split_and!; done.
  - rewrite last_or_snoc.
    destruct (dseg_in _ _ _ _ q Hd1 ltac:(set_solver)) as [m Hm].
    rewrite (store_spec _ _ _ m) by done. eexists. split; [done|].
    assert (p <> q) by set_solver.
    split_and!; simpl; [constructor; simpl; try done|..|done].
    + by apply (content_insert_same _ _ m).
    + by rewrite lookup_insert_ne.
    + eapply dseg_set_next; [|done|done].
      apply NoDup_app in Hnd as ((?&H2&_)%NoDup_app & _). set_solver.
    + apply dseg_insert_ne; [|done]. apply Hdis. set_solver.
    + rewrite Hh, !hd_or_app. by destruct l1.
Qed.

(** The second half: the successor, or the tail, skips [p]. *)
Lemma unlink_next_side ht l1 p l2 n :
  nodes ht !! p = Some n -> lruPrev n = last_or None l1 -> lruNext n = hd_or None l2 ->
  dseg (nodes ht) None l1 (hd_or None l2) -> dseg (nodes ht) (Some p) l2 None ->
  lruTail_ ht = last_or None (l1 ++ p :: l2) -> NoDup (l1 ++ p :: l2) ->
  exists ht',
    match lruNext n with
    | Some q => store q (withPrev (lruPrev n)) ht
    | None => Some (if decide (lruTail_ ht = Some p) then withTail (lruPrev n) ht else ht)
    end = Some ht' /\ sameTable ht ht' /\ nodes ht' !! p = Some n /\
    dseg (nodes ht') None (l1 ++ l2) None /\
    lruTail_ ht' = last_or None (l1 ++ l2) /\ lruHead_ ht' = lruHead_ ht.
Proof.
  intros Hn Hpv Hnx Hd1 Hd2 Ht Hnd. rewrite Hpv, Hnx, Ht.
  apply NoDup_mid in Hnd as (Hp1 & Hp2 & Hdis & Hnd).
  destruct l2 as [|q l2]; simpl.
  - rewrite last_or_snoc, decide_True by done. rewrite app_nil_r.
    eexists. split_and!; try done.
  - destruct (dseg_in _ _ _ _ q Hd2 ltac:(by left)) as [m Hm].
    rewrite (store_spec _ _ _ m) by done. eexists. split; [done|].
    assert (p <> q) by (intros ->; apply Hp2; by left).
    split_and!; simpl; [constructor; simpl; try done|..|done].
    + by apply (content_insert_same _ _ m).
    + by rewrite lookup_insert_ne.
    + apply dseg_app. split.
      * apply dseg_insert_ne; [|done]. intros Hq. apply (Hdis q); [done|by left].
      * eapply dseg_set_prev; [|done|done].
        apply NoDup_app in Hnd as (_ & _ & [? _]%NoDup_cons). done.
    + rewrite Ht, !last_or_app. done.
Qed.

Lemma lruUnlink_spec ht l1 p l2 :
  recency ht (l1 ++ p :: l2) ->
  exists ht', lruUnlink p ht = Some ht' /\ recency ht' (l1 ++ l2) /\ sameTable ht ht' /\
    is_Some (nodes ht' !! p).
Proof.
  intros Hrec. pose proof Hrec as [Hd Hh Ht Hnd].
  destruct (dseg_mid _ _ _ _ Hd) as (n & Hn & Hpv & Hnx).
  destruct (unlink_prev_side _ _ _ _ _ Hrec Hn Hpv Hnx)
    as (ht1 & Hs1 & Same1 & Hn1 & Hd1 & Hd2 & Hh1 & Ht1).
  destruct (unlink_next_side ht1 l1 p l2 n) as (ht2 & Hs2 & Same2 & Hn2 & Hd3 & Ht2 & Hh2);
    try done; [congruence|].
  unfold lruUnlink. rewrite Hn. simpl. rewrite Hs1. simpl. rewrite Hn1. simpl. rewrite Hs2. simpl.
  rewrite (store_spec _ _ _ n) by done. simpl.
  rewrite (store_spec _ _ _ (withPrev None n)) by apply lookup_insert_eq. simpl.
  rewrite insert_insert_eq. eexists. split; [done|].
  apply NoDup_mid in Hnd as (Hp1 & Hp2 & Hdis & Hnd). split_and!.
  - constructor; simpl; [|congruence|done|done].
    apply dseg_insert_ne; [|done]. rewrite elem_of_app. tauto.
  - apply (sameTable_trans _ ht1); [done|]. apply (sameTable_trans _ ht2); [done|].
    constructor; simpl; [done..|]. by apply (content_insert_same _ _ n).
  - simpl. rewrite lookup_insert_eq. eauto.
Qed.

(** Moving a node of the list to its front. *)
Lemma lru_promote ht l1 p l2 :
  recency ht (l1 ++ p :: l2) ->
  exists ht1 ht', lruUnlink p ht = Some ht1 /\ lruPushFront p ht1 = Some ht' /\
    recency ht' (p :: l1 ++ l2) /\ sameTable ht ht'.
Proof.
  intros Hrec. pose proof (rec_nodup _ _ Hrec) as Hnd.
  destruct (lruUnlink_spec _ _ _ _ Hrec) as (ht1 & Hu & Hrec1 & Hs1 & n & Hn).
  apply NoDup_mid in Hnd as (Hp1 & Hp2 & _).
  destruct (lruPushFront_spec ht1 p (l1 ++ l2) n) as (ht2 & Hp & Hrec2 & Hs2);
    [done|by rewrite elem_of_app; tauto|done|].
  exists ht1, ht2. eauto with vcache.
Qed.
