(* ===== verification/TableInv.v ===== *)
(** * The hash table's invariant

    The representation invariant of [HashTable] and its preservation by the
    pointer-level building blocks: rehashing, linking in a new node, rewriting a
    node and detaching one. *)
From S2P Require Import Prelude.
From S2P Require Import Hash.
From S2P Require Import Table.
From S2P Require Import RecencyList.
Import HashTable.

#[local] Open Scope Z_scope.

(** The number of entries a table is assumed to stay below.  A node is larger
    than 2^6 bytes, so 2^50 of them exceed a 56-bit address space; below the
    bound the [double] comparisons of the load factor are exact. *)
Definition maxEntries : Z := 2 ^ 50.

(** Footprint and key of the node at an address. *)
Definition footprintAt (C : gmap ptr (Entry * Z)) (p : ptr) : Z :=
  match C !! p with Some (_, f) => f | None => 0 end.

Definition keyAt (C : gmap ptr (Entry * Z)) (p : ptr) : bytes :=
  match C !! p with Some (e, _) => ekey e | None => [] end.

(** A bucket array is empty or has a power-of-two length. *)
Definition pow2Count (n : Z) : Prop := n = 0 \/ exists k, 0 <= k <= 63 /\ n = 2 ^ k.

(** Every node sits in the bucket its key hashes to. *)
Definition placed (bks : list (list ptr)) (C : gmap ptr (Entry * Z)) : Prop :=
  forall i c p e f, bks !! i = Some c -> p ∈ c -> C !! p = Some (e, f) ->
    bucketIndex (len bks) (ekey e) = i.

(** The invariant, with the recency order as a ghost list of addresses. *)
Record tableInv `{Platform} (ht : t) (order : list ptr) : Prop := mkInv {
  ti_rec : recency ht order;
  ti_perm : concat (buckets_ ht) ≡ₚ order;
  ti_dom : forall p, is_Some (content (nodes ht) !! p) -> p ∈ order;
  ti_place : placed (buckets_ ht) (content (nodes ht));
  ti_uniq : forall p q e f e' f', content (nodes ht) !! p = Some (e, f) ->
    content (nodes ht) !! q = Some (e', f') -> ekey e = ekey e' -> p = q;
  ti_fp : forall p e f, content (nodes ht) !! p = Some (e, f) ->
    f = footprintEstimate (ekey e) (evalue e);
  ti_size : size_ ht = len order;
  ti_max : len order <= maxEntries;
  ti_bytes : entryBytes_ ht = u64 (sumZ (footprintAt (content (nodes ht))) order);
  ti_count : pow2Count (bucketCount ht)
}.

Section Invariant.
Context `{Platform}.

Lemma ti_in ht order p : tableInv ht order -> p ∈ order -> is_Some (content (nodes ht) !! p).
Proof.
  intros HI Hp. rewrite content_lookup.
  destruct (dseg_in _ _ _ _ p (rec_dseg _ _ (ti_rec _ _ HI)) Hp) as [n ->]. eauto.
Qed.

(** Changing recency pointers only keeps the invariant, for the new order. *)
Lemma tableInv_same ht ht' order order' :
  tableInv ht order -> sameTable ht ht' -> recency ht' order' -> order' ≡ₚ order ->
  tableInv ht' order'.
Proof.
  intros [R P D Pl U F S Mx B Cn] [Hb Hs Hy Hc] R' Hperm.
  constructor; unfold bucketCount in *; rewrite ?Hb, ?Hs, ?Hy, ?Hc; try done.
  - by rewrite Hperm.
  - intros p Hp. rewrite Hperm. auto.
  - unfold len. by rewrite Hperm.
  - unfold len in *. by rewrite Hperm.
  - by rewrite Hperm.
Qed.

(** *** Bucket indices *)

Lemma bucketIndex_lt n key : n <> 0 -> pow2Count n -> (bucketIndex n key < Z.to_nat n)%nat.
Proof.
  intros Hn [|(k & Hk & ->)]; [done|]. unfold bucketIndex.
  pose proof (land_mask_range (hashKey key) k ltac:(lia)). lia.
Qed.

Lemma bucket_exists ht key :
  buckets_ ht <> [] -> pow2Count (bucketCount ht) ->
  exists chain, buckets_ ht !! bucketIndexFor ht key = Some chain.
Proof.
  intros Hne Hp. apply lookup_lt_is_Some.
  unfold bucketIndexFor. eapply Nat.lt_le_trans; [apply bucketIndex_lt; [|done]|].
  - unfold bucketCount, len. destruct (buckets_ ht); [done|]. simpl. lia.
  - unfold bucketCount, len. lia.
Qed.

(** *** The chain walk *)

Lemma findInChain_spec h key chain :
  (forall p, p ∈ chain -> is_Some (h !! p)) ->
  exists found, findInChain h key chain = Some found /\
    match found with
    | Some p => p ∈ chain /\ keyAt (content h) p = key
    | None => forall p, p ∈ chain -> keyAt (content h) p <> key
    end.
Proof.
  induction chain as [|p chain IH]; intros Hin; simpl.
  - eexists; split; [done|]. intros p Hp. by apply not_elem_of_nil in Hp.
  - destruct (Hin p) as [n Hn]; [by left|]. rewrite Hn.
    assert (keyAt (content h) p = ekey (entry n)) as Hk
      by (unfold keyAt; by rewrite content_lookup, Hn).
    case_decide as Hd.
    + eexists; split; [done|]. split; [by left|congruence].
    + destruct IH as (found & Hf & Hres); [intros; apply Hin; by right|].
      exists found. split; [done|]. destruct found as [q|].
      * destruct Hres. split; [by right|done].
      * intros q [->|Hq]%elem_of_cons; [congruence|]. by apply Hres.
Qed.

(** *** Rehashing *)

Lemma foldM_relink h k ps bks :
  0 <= k -> (forall p, p ∈ ps -> is_Some (h !! p)) ->
  len bks = 2 ^ k -> placed bks (content h) ->
  exists bks', foldM (relink h (2 ^ k - 1)) bks ps = Some bks' /\
    len bks' = 2 ^ k /\ concat bks' ≡ₚ ps ++ concat bks /\ placed bks' (content h).
Proof.
  intros Hk. revert bks. induction ps as [|p ps IH]; intros bks Hin Hlen Hpl; simpl.
  - by exists bks.
  - destruct (Hin p) as [n Hn]; [by left|].
    set (i := bucketIndex (2 ^ k) (ekey (entry n))).
    assert (exists c, bks !! i = Some c) as [c Hc].
    { apply lookup_lt_is_Some. unfold i, bucketIndex.
      pose proof (land_mask_range (hashKey (ekey (entry n))) k Hk). unfold len in Hlen. lia. }
    assert (relink h (2 ^ k - 1) bks p = Some (<[i := p :: c]> bks)) as ->.
    { unfold relink. rewrite Hn. simpl. fold (bucketIndex (2 ^ k) (ekey (entry n))). fold i.
      by rewrite Hc. }
    assert (len (<[i := p :: c]> bks) = 2 ^ k) as Hlen'
      by (unfold len in *; by rewrite length_insert).
    destruct (IH (<[i := p :: c]> bks)) as (bks' & Hf & Hl & Hperm & Hpl');
      [intros; apply Hin; by right|done|..].
    + intros j d q e f Hj Hq He. rewrite Hlen'. destruct (decide (i = j)) as [<-|Hne].
      * rewrite list_lookup_insert_eq in Hj by by apply lookup_lt_Some in Hc. simplify_eq.
        apply elem_of_cons in Hq as [->|Hq].
        -- rewrite content_lookup, Hn in He. by simplify_eq/=.
        -- rewrite <- Hlen. by eapply Hpl.
      * rewrite list_lookup_insert_ne in Hj by done. rewrite <- Hlen. by eapply Hpl.
    + exists bks'. split_and!; [done..| |done].
      rewrite Hperm. pose proof (concat_insert bks i c (p :: c) Hc) as Hci.
      apply (Permutation_app_inv_r c). rewrite <- app_assoc, Hci.
      solve_Permutation.
Qed.

Lemma doubleOf_pow2 k : 0 <= k -> doubleOf (2 ^ k) = 2 ^ k.
Proof.
  intros Hk. unfold doubleOf. destruct (Z.ltb_spec (2 ^ k) (2 ^ 53)) as [|Hge]; [done|].
  apply Z.pow_le_mono_r_iff in Hge; [|lia..].
  rewrite Z.log2_pow2 by done.
  assert (Z.shiftr (2 ^ k) (k - 52) = 2 ^ 52) as ->.
  { rewrite Z.shiftr_div_pow2, <- Z.pow_sub_r by lia. f_equal. lia. }
  rewrite !Z.shiftl_mul_pow2 by lia. rewrite <- Z.pow_add_r by lia.
  replace (52 + (k - 52)) with k by lia. rewrite Z.sub_diag.
  assert (0 < 2 ^ (k - 52 - 1)) by (apply Z.pow_pos_nonneg; lia).
  destruct (Z.ltb_spec (1 * 2 ^ (k - 52 - 1)) 0); [lia|].
  destruct (Z.eqb_spec 0 (1 * 2 ^ (k - 52 - 1))); [lia|].
  simpl orb. cbv iota. rewrite <- Z.pow_add_r by lia. f_equal. lia.
Qed.

Lemma overLoaded_pow2 s k :
  0 <= k -> s < 2 ^ 53 -> overLoaded s (2 ^ k) = (3 * 2 ^ k <? 4 * s).
Proof. intros. unfold overLoaded. by rewrite doubleOf_pow2, doubleOf_small. Qed.

Lemma u64_double k : 0 <= k < 63 -> u64 (2 ^ k * 2) = 2 ^ (k + 1).
Proof.
  intros Hk. rewrite Z.pow_add_r by lia. apply u64_small.
  assert (2 ^ k < 2 ^ 63) by (apply Z.pow_lt_mono_r; lia).
  pose proof (Z.pow_nonneg 2 k). lia.
Qed.

Lemma raiseTarget_spec s fuel k :
  0 <= s <= maxEntries -> 0 <= k <= 63 -> (Z.to_nat (52 - k) < fuel)%nat ->
  exists k', raiseTarget fuel s (2 ^ k) = Some (2 ^ k') /\
    k <= k' <= 63 /\ 4 * s <= 3 * 2 ^ k' /\ (k' = k \/ 3 * 2 ^ k' < 8 * s).
Proof.
  intros Hs. unfold maxEntries in Hs. revert k.
  induction fuel as [|fuel IH]; intros k Hk Hf; [lia|]. simpl.
  rewrite overLoaded_pow2 by lia. destruct (Z.ltb_spec (3 * 2 ^ k) (4 * s)) as [Hlt|Hge].
  - assert (k < 51).
    { apply Z.nle_gt. intros Hle. apply (Z.pow_le_mono_r 2) in Hle; lia. }
    assert (u64 (2 ^ k * 2) = 2 ^ (k + 1)) as ->.
    { apply u64_double. lia. }
    destruct (IH (k + 1)) as (k' & -> & Hk' & Hload & Hmin); [lia..|]. exists k'. split_and!; [done|lia..|].
    right. destruct Hmin as [->|]; [|lia]. rewrite Z.pow_add_r by lia. lia.
  - exists k. split_and!; [done|lia..|by left].
Qed.

Lemma roundUp_pow2 k : 0 <= k <= 63 -> roundUpToPowerOfTwo (2 ^ k) = 2 ^ k.
Proof.
  intros Hk. destruct (Z.eq_dec k 0) as [->|]; [reflexivity|].
  assert (2 ^ 1 <= 2 ^ k) by (apply Z.pow_le_mono_r; lia).
  assert (2 ^ k <= 2 ^ 63) by (apply Z.pow_le_mono_r; lia).
  rewrite roundUpToPowerOfTwo_value, Z.log2_up_pow2 by lia. apply u64_small. lia.
Qed.

(** Rehashing into [2^k] buckets keeps every node and the recency list. *)
Lemma resize_inv ht order n k :
  tableInv ht order ->
  0 <= k <= 63 -> roundUpToPowerOfTwo n = 2 ^ k ->
  exists ht', resize ht n = Some ht' /\ tableInv ht' order /\
    content (nodes ht') = content (nodes ht) /\
    (exists k', k <= k' /\ bucketCount ht' = 2 ^ k' /\ 4 * len order <= 3 * 2 ^ k' /\
      (k' = k \/ 3 * 2 ^ k' < 8 * len order)).
Proof.
  intros HI Hk Hround. pose proof HI as [R P D Pl U F S Mx B Cn].
  unfold resize. rewrite Hround.
  destruct (raiseTarget_spec (size_ ht) loopFuel k) as (k' & -> & Hk' & Hload & Hmin);
    [rewrite S; pose proof (len_nonneg order); lia|done|unfold loopFuel; lia|].
  simpl. destruct (Z.eqb_spec (2 ^ k') (bucketCount ht)) as [Heq|Hne].
  - exists ht. split_and!; try done. exists k'. rewrite <- S. split_and!; done || lia.
  - rewrite foldM_concat.
    destruct (foldM_relink (nodes ht) k' (concat (buckets_ ht)) (replicate (Z.to_nat (2 ^ k')) []))
      as (bks' & -> & Hlen & Hperm & Hpl); [lia|..].
    + intros p Hp. rewrite P in Hp. by eapply dseg_in, Hp; apply R.
    + unfold len. rewrite length_replicate. pose proof (Z.pow_nonneg 2 k'). lia.
    + intros i c p e f Hi Hp. apply lookup_replicate in Hi as [-> _].
      by apply not_elem_of_nil in Hp.
    + simpl. eexists. split; [done|].
      rewrite concat_replicate_nil, app_nil_r in Hperm.
      split_and!; [|done|exists k'; rewrite <- S; split_and!; [lia|done|lia|done]].
      constructor; simpl; try done.
      * destruct R. by constructor.
      * by rewrite Hperm.
      * right. exists k'. unfold bucketCount. simpl. split; [lia|done].
Qed.

Lemma growIfNeeded_inv ht order :
  tableInv ht order -> buckets_ ht <> [] ->
  exists ht', growIfNeeded ht = Some ht' /\ tableInv ht' order /\
    content (nodes ht') = content (nodes ht) /\ buckets_ ht' <> [] /\
    bucketCount ht <= bucketCount ht' /\ 4 * len order <= 3 * bucketCount ht' /\
    (bucketCount ht' = bucketCount ht \/
      3 * bucketCount ht < 4 * len order /\ 3 * bucketCount ht' < 8 * len order).
Proof.
  intros HI Hne. pose proof HI as [R P D Pl U F S Mx B Cn]. unfold growIfNeeded.
  destruct Cn as [H0|(k & Hk & Hcount)].
  { destruct (buckets_ ht) eqn:E; [done|]. unfold bucketCount, len in H0.
    rewrite E in H0. simpl in H0. lia. }
  unfold maxEntries in Mx. pose proof (len_nonneg order).
  rewrite S, Hcount, overLoaded_pow2 by lia.
  destruct (Z.ltb_spec (3 * 2 ^ k) (4 * len order)) as [Hlt|Hge].
  - assert (k < 51).
    { apply Z.nle_gt. intros Hle. apply (Z.pow_le_mono_r 2) in Hle; lia. }
    assert (u64 (2 ^ k * 2) = 2 ^ (k + 1)) as ->.
    { apply u64_double. lia. }
    destruct (resize_inv ht order (2 ^ (k + 1)) (k + 1))
      as (ht' & Hr & HI' & Hc & k' & Hk' & Hcount' & Hl' & Hmin); [done|lia|apply roundUp_pow2; lia|].
    exists ht'. split_and!; try done.
    + intros E. unfold bucketCount, len in Hcount'. rewrite E in Hcount'. simpl in Hcount'.
      pose proof (Z.pow_pos_nonneg 2 k'). lia.
    + rewrite Hcount'. apply Z.pow_le_mono_r; lia.
    + by rewrite Hcount'.
    + right. rewrite Hcount'. destruct Hmin as [->|]; [rewrite Z.pow_add_r by lia|]; lia.
  - exists ht. split_and!; try done; [lia..|by left].
Qed.

(** *** A new node *)

Lemma ti_node ht order p :
  tableInv ht order -> p ∈ order ->
  exists n, nodes ht !! p = Some n /\ content (nodes ht) !! p = Some (entry n, footprint n).
Proof.
  intros HI Hp. destruct (dseg_in _ _ _ _ p (rec_dseg _ _ (ti_rec _ _ HI)) Hp) as [n Hn].
  exists n. by rewrite content_lookup, Hn.
Qed.

Lemma content_insert h p n :
  content (<[p := n]> h) = <[p := (entry n, footprint n)]> (content h).
Proof. unfold content. by rewrite fmap_insert. Qed.

Lemma content_delete h p : content (delete p h) = delete p (content h).
Proof. unfold content. by rewrite fmap_delete. Qed.

Lemma footprintAt_insert_ne C p q x : p <> q -> footprintAt (<[p := x]> C) q = footprintAt C q.
Proof. intros. unfold footprintAt. by rewrite lookup_insert_ne. Qed.

Lemma sum_footprint_insert C p x l :
  p ∉ l -> sumZ (footprintAt (<[p := x]> C)) l = sumZ (footprintAt C) l.
Proof. intros Hp. apply sumZ_ext. intros q Hq. apply footprintAt_insert_ne. by intros ->. Qed.

(** Placement survives adding a node to the front of its own bucket. *)
Lemma placed_push bks C i chain p e f :
  bks !! i = Some chain -> C !! p = None -> bucketIndex (len bks) (ekey e) = i ->
  (forall q, q ∈ concat bks -> q <> p) ->
  placed bks C -> placed (<[i := p :: chain]> bks) (<[p := (e, f)]> C).
Proof.
  intros Hi Hp Hidx Hne Hpl j c q e' f' Hj Hq He.
  assert (len (<[i := p :: chain]> bks) = len bks) as -> by (unfold len; by rewrite length_insert).
  destruct (decide (p = q)) as [<-|Hpq].
  - rewrite lookup_insert_eq in He. simplify_eq.
    destruct (decide (bucketIndex (len bks) (ekey e') = j)) as [|Hij]; [done|].
    rewrite list_lookup_insert_ne in Hj by done.
    exfalso. apply (Hne p); [|done]. apply concat_elem_of. eauto.
  - rewrite lookup_insert_ne in He by done. destruct (decide (i = j)) as [<-|Hij].
    + rewrite list_lookup_insert_eq in Hj by by apply lookup_lt_Some in Hi. simplify_eq.
      apply elem_of_cons in Hq as [->|Hq]; [done|]. by eapply Hpl.
    + rewrite list_lookup_insert_ne in Hj by done. by eapply Hpl.
Qed.

Lemma linkNew_inv ht order chain key value :
  tableInv ht order -> buckets_ ht !! bucketIndexFor ht key = Some chain ->
  (forall p, p ∈ order -> keyAt (content (nodes ht)) p <> key) -> len order < maxEntries ->
  exists p ht', linkNew ht (bucketIndexFor ht key) chain key value = Some ht' /\
    (p ∉ order) /\ tableInv ht' (p :: order) /\
    content (nodes ht') =
      <[p := (mkEntry key value None, footprintEstimate key value)]> (content (nodes ht)) /\
    bucketCount ht' = bucketCount ht.
Proof.
  intros HI Hchain Hnew Hmax. pose proof HI as [R P D Pl U F S Mx B Cn]. unfold linkNew.
  set (raw := fresh (dom (nodes ht))).
  assert (nodes ht !! raw = None) as Hraw by apply not_elem_of_dom, is_fresh.
  assert (content (nodes ht) !! raw = None) as HrawC by (by rewrite content_lookup, Hraw).
  assert (raw ∉ order) as Hnotin.
  { intros Hin. destruct (ti_in _ _ _ HI Hin) as [x Hx]. congruence. }
  match goal with |- context [lruPushFront raw ?h] => set (ht1 := h) end.
  assert (recency ht1 order) as R1.
  { destruct R as [Hd Hh Ht Hnd]. constructor; simpl; [by apply dseg_insert_ne|done..]. }
  destruct (lruPushFront_spec ht1 raw order (mkNode (mkEntry key value None) None None (footprintEstimate key value)))
    as (ht2 & -> & R2 & [Hb Hs Hy Hc]); [done|done|apply lookup_insert_eq|].
  simpl in Hb, Hs, Hy, Hc. rewrite content_insert in Hc. simpl in Hc.
  exists raw, ht2. split_and!; [done|done| |done|].
  2:{ unfold bucketCount, len. by rewrite Hb, length_insert. }
  constructor; rewrite ?Hc; [done|..].
  - rewrite Hb. pose proof (concat_insert _ _ _ (raw :: chain) Hchain) as Hci.
    apply (Permutation_app_inv_r chain). rewrite Hci, P. solve_Permutation.
  - intros p [x Hx]. apply lookup_insert_Some in Hx as [[-> _]|[_ Hx]]; [by left|].
    right. apply D. eauto.
  - rewrite Hb. apply placed_push; [done|done|done| |done].
    intros q Hq ->. rewrite P in Hq. done.
  - intros p q e f e' f' Hp Hq Hk.
    apply lookup_insert_Some in Hp as [[<- He]|[Hne Hp]];
      apply lookup_insert_Some in Hq as [[<- He']|[Hne' Hq]]; simplify_eq/=; try done.
    + exfalso. apply (Hnew q); [apply D; eauto|]. unfold keyAt. by rewrite Hq.
    + exfalso. apply (Hnew p); [apply D; eauto|]. unfold keyAt. by rewrite Hp.
    + by eapply U.
  - intros p e f Hp. apply lookup_insert_Some in Hp as [[_ He]|[_ Hp]]; [by simplify_eq|eauto].
  - rewrite Hs, S, len_cons, Z.add_comm. apply u64_small. pose proof (len_nonneg order).
    unfold maxEntries in Hmax. lia.
  - rewrite len_cons. lia.
  - rewrite Hy, B. simpl. rewrite sum_footprint_insert by done.
    unfold footprintAt at 2. rewrite lookup_insert_eq, u64_idemp_add_l. f_equal. lia.
  - unfold bucketCount, len in *. by rewrite Hb, length_insert.
Qed.

(** *** Rewriting a node in place *)

(** Changing the entry of one node, its key kept, together with its footprint
    and the running total. *)
Lemma tableInv_rewrite ht order p n v x :
  tableInv ht order -> p ∈ order -> nodes ht !! p = Some n ->
  let e' := mkEntry (ekey (entry n)) v x in
  let f' := footprintEstimate (ekey (entry n)) v in
  tableInv (withBytes (u64 (u64 (entryBytes_ ht - footprint n) + f'))
    (withNodes (<[p := withFootprint f' (withEntry e' n)]> (nodes ht)) ht)) order.
Proof.
  intros HI Hin Hn e' f'. pose proof HI as [R P D Pl U F S Mx B Cn].
  assert (content (nodes ht) !! p = Some (entry n, footprint n)) as Hp
    by (by rewrite content_lookup, Hn).
  constructor; simpl; rewrite ?content_insert; simpl; try done.
  - destruct R as [Hd Hh Ht Hnd]. constructor; simpl; [|done..].
    apply list_elem_of_split in Hin as (l1 & l2 & ->).
    apply NoDup_mid in Hnd as (Hp1 & Hp2 & _).
    apply dseg_app in Hd as [Hd1 [(n' & Hn' & Hpv & Hnx) Hd2]]. simplify_eq.
    apply dseg_app. split; [by apply dseg_insert_ne|]. split; [|by apply dseg_insert_ne].
    eexists. rewrite lookup_insert_eq. done.
  - intros q [y Hy]. apply lookup_insert_Some in Hy as [[<- _]|[_ Hy]]; eauto.
  - intros i c q e f Hi Hq He. apply lookup_insert_Some in He as [[<- He]|[_ He]]; simplify_eq/=.
    + exact (Pl _ _ _ _ _ Hi Hq Hp).
    + by eapply Pl.
  - intros q r e f e1 f1 Hq Hr Hk.
    apply lookup_insert_Some in Hq as [[<- He]|[_ Hq]];
      apply lookup_insert_Some in Hr as [[<- He1]|[_ Hr]]; simplify_eq/=; eauto.
  - intros q e f Hq. apply lookup_insert_Some in Hq as [[<- He]|[_ Hq]]; [by simplify_eq|eauto].
  - rewrite B, u64_idemp_sub_l, u64_idemp_add_l.
    apply list_elem_of_split in Hin as (l1 & l2 & ->).
    pose proof (rec_nodup _ _ R) as (Hp1 & Hp2 & _)%NoDup_mid.
    rewrite !sumZ_app. simpl. rewrite !sum_footprint_insert by done.
    unfold footprintAt at 2 5. rewrite lookup_insert_eq, Hp. f_equal. lia.
Qed.

Lemma overwrite_inv ht l1 p l2 n key value :
  tableInv ht (l1 ++ p :: l2) -> nodes ht !! p = Some n -> ekey (entry n) = key ->
  exists ht', overwrite ht p key value = Some ht' /\ tableInv ht' (p :: l1 ++ l2) /\
    content (nodes ht') =
      <[p := (mkEntry key value None, footprintEstimate key value)]> (content (nodes ht)) /\
    buckets_ ht' = buckets_ ht.
Proof.
  intros HI Hn Hk. unfold overwrite. rewrite Hn. simpl.
  rewrite (store_spec _ _ _ n) by done. simpl.
  rewrite (store_spec _ _ _ (withEntry (mkEntry (ekey (entry n)) value None) n))
    by apply lookup_insert_eq.
  simpl. rewrite insert_insert_eq.
  match goal with |- context [lruUnlink p ?h] => set (ht1 := h) end.
  assert (tableInv ht1 (l1 ++ p :: l2)) as HI1.
  { subst key. apply (tableInv_rewrite ht (l1 ++ p :: l2) p n value None); [done| |done].
    rewrite elem_of_app, elem_of_cons. tauto. }
  destruct (lru_promote ht1 l1 p l2 (ti_rec _ _ HI1)) as (ht2 & ht3 & -> & Hpf & R3 & Hs).
  simpl. exists ht3. split_and!; [done| | |by destruct Hs].
  - eapply tableInv_same; [done..|]. solve_Permutation.
  - rewrite (same_content _ _ Hs). simpl. rewrite content_insert. simpl. by rewrite Hk.
Qed.

Lemma withExpiration_inv ht order p n x :
  tableInv ht order -> nodes ht !! p = Some n ->
  tableInv (withNodes (<[p := withEntry (mkEntry (ekey (entry n)) (evalue (entry n)) x) n]>
    (nodes ht)) ht) order.
Proof.
  intros HI Hn. pose proof HI as [R P D Pl U F S Mx B Cn].
  assert (content (nodes ht) !! p = Some (entry n, footprint n)) as Hp
    by (by rewrite content_lookup, Hn).
  assert (p ∈ order) as Hin by eauto.
  pose proof (tableInv_rewrite ht order p n (evalue (entry n)) x HI Hin Hn) as Hrw.
  simpl in Hrw. rewrite <- (F _ _ _ Hp) in Hrw.
  replace (u64 (u64 (entryBytes_ ht - footprint n) + footprint n)) with (entryBytes_ ht) in Hrw;
    [exact Hrw|].
  rewrite u64_idemp_add_l, Z.sub_add. rewrite B at 1. rewrite B. symmetry.
  apply u64_small, u64_range.
Qed.

(** *** Detaching a node *)

Lemma sum_footprint_delete C p (l : list ptr) :
  p ∉ l -> sumZ (footprintAt (delete p C)) l = sumZ (footprintAt C) l.
Proof.
  intros Hp. apply sumZ_ext. intros q Hq. unfold footprintAt.
  rewrite lookup_delete_ne; [done|]. by intros ->.
Qed.

Lemma detach_inv ht order i c1 p c2 :
  tableInv ht order -> buckets_ ht !! i = Some (c1 ++ p :: c2) ->
  exists ht' l1 l2, detach i (c1 ++ c2) p ht = Some ht' /\ order = l1 ++ p :: l2 /\
    tableInv ht' (l1 ++ l2) /\
    content (nodes ht') = delete p (content (nodes ht)) /\
    buckets_ ht' = <[i := c1 ++ c2]> (buckets_ ht).
Proof.
  intros HI Hi. pose proof HI as [R P D Pl U F S Mx B Cn].
  assert (p ∈ order) as Hin.
  { rewrite <- P. apply concat_elem_of. exists i, (c1 ++ p :: c2). split; [done|].
    rewrite elem_of_app, elem_of_cons. tauto. }
  destruct (ti_node _ _ _ HI Hin) as (n & Hn & Hp).
  apply list_elem_of_split in Hin as (l1 & l2 & ->).
  pose proof (rec_nodup _ _ R) as (Hp1 & Hp2 & _ & Hnd)%NoDup_mid.
  unfold detach. rewrite Hn. simpl.
  match goal with |- context [lruUnlink p ?h] => set (ht1 := h) end.
  assert (recency ht1 (l1 ++ p :: l2)) as R1 by (destruct R; by constructor).
  destruct (lruUnlink_spec ht1 l1 p l2 R1) as (ht2 & -> & R2 & [Hb Hs Hy Hc] & _).
  simpl in *. eexists _, l1, l2. split_and!; [done|done| |simpl; by rewrite content_delete, Hc|done].
  assert (content (nodes ht2) = content (nodes ht)) as Hc' by done.
  constructor; simpl; rewrite ?content_delete, ?Hc'; try done.
  - destruct R2 as [Hd Hh Ht _]. constructor; simpl; [|done..].
    eapply dseg_frame, Hd. intros q Hq. apply lookup_delete_ne.
    intros <-. apply elem_of_app in Hq. tauto.
  - rewrite Hb. pose proof (concat_insert _ _ _ (c1 ++ c2) Hi) as Hci.
    apply (Permutation_app_inv_r (c1 ++ p :: c2)). rewrite Hci, P. solve_Permutation.
  - intros q [x Hx]. apply lookup_delete_Some in Hx as [Hne Hx].
    assert (q ∈ l1 ++ p :: l2) as Hq by eauto.
    rewrite !elem_of_app, ?elem_of_cons in *. destruct Hq as [|[->|]]; tauto.
  - intros j c q e f Hj Hq He. apply lookup_delete_Some in He as [Hne He].
    rewrite Hb in *. replace (len (<[i := c1 ++ c2]> (buckets_ ht))) with (len (buckets_ ht))
      by (unfold len; by rewrite length_insert).
    destruct (decide (i = j)) as [<-|Hij].
    + rewrite list_lookup_insert_eq in Hj by by apply lookup_lt_Some in Hi. simplify_eq.
      eapply Pl; [done| |done]. rewrite elem_of_app, elem_of_cons in *. tauto.
    + rewrite list_lookup_insert_ne in Hj by done. by eapply Pl.
  - intros q r e f e' f' Hq Hr. apply lookup_delete_Some in Hq as [_ Hq].
    apply lookup_delete_Some in Hr as [_ Hr]. by eapply U.
  - intros q e f Hq. apply lookup_delete_Some in Hq as [_ Hq]. eauto.
  - rewrite Hs, S, !len_app, len_cons. rewrite !len_app, len_cons in Mx.
    pose proof (len_nonneg l1). pose proof (len_nonneg l2). unfold maxEntries in Mx.
    rewrite u64_small by lia. lia.
  - rewrite !len_app, ?len_cons in *. lia.
  - rewrite Hy, B, u64_idemp_sub_l. rewrite sum_footprint_delete
      by (rewrite elem_of_app; tauto).
    rewrite !sumZ_app. simpl. unfold footprintAt at 2. rewrite Hp. f_equal. lia.
  - unfold bucketCount, len in *. simpl. by rewrite Hb, length_insert.
Qed.

End Invariant.
