(* ===== verification/TableSpec.v ===== *)
(** * What the hash table promises

    The abstract view of a [HashTable]: a finite map from keys to entries and
    the keys in recency order, most recent first.  Every operation of the class
    is a function on that view, never runs into undefined behaviour and keeps
    the invariant. *)
From S2P Require Import Prelude.
From S2P Require Import Hash.
From S2P Require Import Table.
From S2P Require Import RecencyList.
From S2P Require Import TableInv.
Import HashTable.

#[local] Open Scope Z_scope.

(** ** The abstract view *)

Definition represents (C : gmap ptr (Entry * Z)) (m : gmap bytes Entry) : Prop :=
  forall k e, m !! k = Some e <-> exists p f, C !! p = Some (e, f) /\ ekey e = k.

(** [Rep ht m r]: table [ht] holds the map [m], and [r] is its recency order. *)
Definition Rep `{Platform} (ht : t) (m : gmap bytes Entry) (r : list bytes) : Prop :=
  exists order, tableInv ht order /\ represents (content (nodes ht)) m /\
    r = keyAt (content (nodes ht)) <$> order.

(** Recency order without a key, and with a key moved or added to the front. *)
Definition dropKey (k : bytes) (r : list bytes) : list bytes := filter (fun x => x <> k) r.
Definition toFront (k : bytes) (r : list bytes) : list bytes := k :: dropKey k r.

Lemma dropKey_notin k r : k ∉ r -> dropKey k r = r.
Proof.
  intros H. apply filter_id. intros x Hx ->. done.
Qed.

Lemma dropKey_mid k l1 l2 : NoDup (l1 ++ k :: l2) -> dropKey k (l1 ++ k :: l2) = l1 ++ l2.
Proof.
  intros (H1 & H2 & _)%NoDup_mid. unfold dropKey.
  rewrite filter_app, filter_cons_False by tauto.
  fold (dropKey k l1) (dropKey k l2). by rewrite !dropKey_notin.
Qed.

Lemma elem_of_dropKey k x r : x ∈ dropKey k r <-> x <> k /\ x ∈ r.
Proof. unfold dropKey. by rewrite list_elem_of_filter. Qed.

Section View.
Context `{Platform}.

Lemma keyAt_lookup C p e f : C !! p = Some (e, f) -> keyAt C p = ekey e.
Proof. intros Hp. unfold keyAt. by rewrite Hp. Qed.

Lemma keyAt_inj ht order p q :
  tableInv ht order -> p ∈ order -> q ∈ order ->
  keyAt (content (nodes ht)) p = keyAt (content (nodes ht)) q -> p = q.
Proof.
  intros HI Hp Hq. destruct (ti_in _ _ _ HI Hp) as [[e f] He].
  destruct (ti_in _ _ _ HI Hq) as [[e' f'] He'].
  rewrite (keyAt_lookup _ _ _ _ He), (keyAt_lookup _ _ _ _ He'). by eapply ti_uniq.
Qed.

Lemma keys_NoDup ht order :
  tableInv ht order -> NoDup (keyAt (content (nodes ht)) <$> order).
Proof.
  intros HI. apply NoDup_fmap_2_strong; [|apply (ti_rec _ _ HI)].
  intros p q Hp Hq. by apply (keyAt_inj ht order).
Qed.

Lemma represents_key C m p e f : represents C m -> C !! p = Some (e, f) -> m !! ekey e = Some e.
Proof. intros HC Hp. apply HC. eauto. Qed.

Lemma represents_none C m k :
  represents C m -> m !! k = None -> forall p e f, C !! p = Some (e, f) -> ekey e <> k.
Proof. intros HC Hm p e f Hp <-. rewrite (represents_key _ _ _ _ _ HC Hp) in Hm. done. Qed.

(** Adding a node for a key that is not stored, or replacing the node of a
    stored key. *)
Lemma represents_insert C m p e f :
  represents C m ->
  (forall q e' f', C !! q = Some (e', f') -> ekey e' = ekey e -> q = p) ->
  (forall e' f', C !! p = Some (e', f') -> ekey e' = ekey e) ->
  represents (<[p := (e, f)]> C) (<[ekey e := e]> m).
Proof.
  intros HC Hq Hp k x. rewrite lookup_insert_Some. split.
  - intros [[<- <-]|[Hne Hx]].
    + exists p, f. by rewrite lookup_insert_eq.
    + apply HC in Hx as (q & g & Hqx & Hk). exists q, g. split; [|done].
      rewrite lookup_insert_ne; [done|]. intros <-. apply Hp in Hqx. congruence.
  - intros (q & g & Hqx & Hk). apply lookup_insert_Some in Hqx as [[<- He]|[Hne Hqx]].
    + simplify_eq. by left.
    + right. split; [|by apply HC; eauto]. intros Heq. apply Hne. symmetry. eapply Hq; [done|congruence].
Qed.

Lemma represents_delete C m p e f :
  represents C m -> C !! p = Some (e, f) ->
  (forall q e' f', C !! q = Some (e', f') -> ekey e' = ekey e -> q = p) ->
  represents (delete p C) (delete (ekey e) m).
Proof.
  intros HC Hp Hu k x. rewrite lookup_delete_Some, (HC k x). split.
  - intros (Hne & q & g & Hq & Hk). exists q, g. rewrite lookup_delete_ne; [done|].
    intros <-. congruence.
  - intros (q & g & Hq & Hk). apply lookup_delete_Some in Hq as [Hne Hq]. split; [|eauto].
    intros Heq. apply Hne. symmetry. eapply Hu; [done|congruence].
Qed.

Lemma keyAt_fmap_insert C p e f (l : list ptr) :
  p ∉ l -> keyAt (<[p := (e, f)]> C) <$> l = keyAt C <$> l.
Proof.
  intros Hp. apply list_fmap_ext. intros i q Hq. unfold keyAt.
  rewrite lookup_insert_ne; [done|]. intros ->. apply Hp. by eapply list_elem_of_lookup_2.
Qed.

Lemma keyAt_fmap_delete C p (l : list ptr) : p ∉ l -> keyAt (delete p C) <$> l = keyAt C <$> l.
Proof.
  intros Hp. apply list_fmap_ext. intros i q Hq. unfold keyAt.
  rewrite lookup_delete_ne; [done|]. intros ->. apply Hp. by eapply list_elem_of_lookup_2.
Qed.

(** *** Facts about any represented table *)

Lemma Rep_NoDup ht m r : Rep ht m r -> NoDup r.
Proof. intros (order & HI & _ & ->). by apply keys_NoDup. Qed.

Lemma Rep_mem ht m r k : Rep ht m r -> k ∈ r <-> is_Some (m !! k).
Proof.
  intros (order & HI & HC & ->). rewrite list_elem_of_fmap. split.
  - intros (p & -> & Hp). destruct (ti_in _ _ _ HI Hp) as [[e f] He].
    rewrite (keyAt_lookup _ _ _ _ He). exists e. by eapply represents_key.
  - intros [e He]. apply HC in He as (p & f & Hp & Hk). exists p.
    rewrite (keyAt_lookup _ _ _ _ Hp). split; [done|]. apply (ti_dom _ _ HI). eauto.
Qed.

Lemma Rep_key ht m r k e : Rep ht m r -> m !! k = Some e -> ekey e = k.
Proof. intros (order & HI & HC & ->) He. apply HC in He as (? & ? & ? & ?). done. Qed.

Lemma Rep_size ht m r : Rep ht m r -> size_ ht = len r /\ len r <= maxEntries.
Proof.
  intros (order & HI & _ & ->). unfold len. rewrite length_fmap. split; apply HI.
Qed.

Lemma Rep_dom ht m r : Rep ht m r -> list_to_set r = dom m.
Proof.
  intros HR. apply set_eq. intros k.
  rewrite elem_of_list_to_set, elem_of_dom. by eapply Rep_mem.
Qed.

(** [size()] is the number of keys. *)
Lemma Rep_map_size ht m r : Rep ht m r -> HashTable.size ht = Z.of_nat (base.size m).
Proof.
  intros HR. destruct (Rep_size _ _ _ HR) as [Hs _]. unfold HashTable.size. rewrite Hs.
  unfold len. rewrite <- size_dom, <- (Rep_dom _ _ _ HR).
  by rewrite size_list_to_set by by eapply Rep_NoDup.
Qed.

(** The running byte total is the sum of the estimates of the stored entries. *)
Definition entryFootprint (m : gmap bytes Entry) (k : bytes) : Z :=
  match m !! k with Some e => footprintEstimate (ekey e) (evalue e) | None => 0 end.

Lemma Rep_bytes ht m r : Rep ht m r -> entryBytes_ ht = u64 (sumZ (entryFootprint m) r).
Proof.
  intros (order & HI & HC & ->). rewrite (ti_bytes _ _ HI). f_equal.
  assert (forall p, p ∈ order -> footprintAt (content (nodes ht)) p =
    entryFootprint m (keyAt (content (nodes ht)) p)) as Hf.
  { intros p Hp. destruct (ti_in _ _ _ HI Hp) as [[e f] He].
    unfold footprintAt, entryFootprint. rewrite (keyAt_lookup _ _ _ _ He), He.
    rewrite (represents_key _ _ _ _ _ HC He). by eapply ti_fp. }
  clear -Hf. induction order as [|p l IH]; simpl; [done|].
  rewrite Hf by by left. f_equal. apply IH. intros. apply Hf. by right.
Qed.

Lemma Rep_count ht m r : Rep ht m r -> pow2Count (bucketCount ht).
Proof. intros (order & HI & _). apply HI. Qed.

Lemma Rep_empty ht m r : Rep ht m r -> HashTable.isEmpty ht = true <-> m = ∅.
Proof.
  intros HR. pose proof (Rep_map_size _ _ _ HR) as Hs. unfold isEmpty, HashTable.size in *.
  rewrite Z.eqb_eq, Hs, <- map_size_empty_iff. lia.
Qed.

End View.

(** ** Operations on the view *)

Section Operations.
Context `{Platform}.

Lemma findNode_inv ht order key :
  tableInv ht order ->
  exists found, findNode ht key = Some found /\
    match found with
    | Some p => p ∈ order /\ keyAt (content (nodes ht)) p = key
    | None => forall p, p ∈ order -> keyAt (content (nodes ht)) p <> key
    end.
Proof.
  intros HI. pose proof HI as [R P D Pl U F S Mx B Cn]. unfold findNode.
  destruct (buckets_ ht) as [|b0 bs0] eqn:Hb.
  - eexists. split; [done|]. intros p Hp. rewrite <- P in Hp. by apply not_elem_of_nil in Hp.
  - rewrite <- Hb in *. destruct (bucket_exists ht key) as [chain Hc]; [congruence|done|].
    rewrite Hc. simpl.
    assert (forall p, p ∈ chain -> p ∈ order) as Hsub.
    { intros p Hp. rewrite <- P. apply concat_elem_of. eauto. }
    destruct (findInChain_spec (nodes ht) key chain) as (found & Hf & Hres).
    { intros p Hp. by eapply dseg_in, Hsub, Hp; apply R. }
    exists found. split; [done|]. destruct found as [p|]; [destruct Hres; eauto|].
    intros p Hp Hk. apply (Hres p); [|done].
    pose proof Hp as Hp'. rewrite <- P in Hp'. apply concat_elem_of in Hp' as (i & c & Hi & Hin).
    destruct (ti_in _ _ _ HI Hp) as [[e f] He]. rewrite (keyAt_lookup _ _ _ _ He) in Hk.
    pose proof (Pl _ _ _ _ _ Hi Hin He) as Hidx. rewrite Hk in Hidx.
    fold (bucketCount ht) in Hidx. fold (bucketIndexFor ht key) in Hidx. congruence.
Qed.

(** What [findNode] finds is what the map holds. *)
Lemma findNode_rep ht m order key found :
  tableInv ht order -> represents (content (nodes ht)) m -> findNode ht key = Some found ->
  match found with
  | Some p => p ∈ order /\ exists e f, content (nodes ht) !! p = Some (e, f) /\
      ekey e = key /\ m !! key = Some e
  | None => m !! key = None
  end.
Proof.
  intros HI HC Hfind. destruct (findNode_inv ht order key HI) as (found' & Hf & Hres).
  rewrite Hfind in Hf. simplify_eq. destruct found' as [p|].
  - destruct Hres as [Hp Hk]. split; [done|]. destruct (ti_in _ _ _ HI Hp) as [[e f] He].
    rewrite (keyAt_lookup _ _ _ _ He) in Hk. exists e, f. subst key. split_and!; [done..|].
    by eapply represents_key.
  - destruct (m !! key) as [e|] eqn:Hm; [|done]. apply HC in Hm as (p & f & Hp & Hk).
    exfalso. apply (Hres p); [apply (ti_dom _ _ HI); eauto|].
    by rewrite (keyAt_lookup _ _ _ _ Hp).
Qed.

Lemma find_rep ht m r key : Rep ht m r -> find ht key = Some (m !! key).
Proof.
  intros (order & HI & HC & ->). destruct (findNode_inv ht order key HI) as (found & Hf & _).
  pose proof (findNode_rep _ _ _ _ _ HI HC Hf) as Hres. unfold find. rewrite Hf. simpl.
  destruct found as [p|].
  - destruct Hres as (Hp & e & f & He & _ & ->). rewrite content_lookup in He.
    destruct (nodes ht !! p) as [n|]; simplify_eq/=. done.
  - by rewrite Hres.
Qed.

Lemma content_empty : content ∅ = ∅.
Proof. unfold content. apply fmap_empty. Qed.

Lemma represents_empty : represents (content ∅) ∅.
Proof.
  intros k e. rewrite content_empty. split; [by rewrite lookup_empty|].
  intros (p & f & Hp & _). by rewrite lookup_empty in Hp.
Qed.

(** A fresh table of any size. *)
Lemma new_rep n : 0 <= n < 2 ^ 64 -> Rep (new n) ∅ [].
Proof.
  intros Hn. exists []. split_and!; [|apply represents_empty|done].
  assert (pow2Count (bucketCount (new n))) as Hp.
  { unfold bucketCount, new, len. simpl. rewrite length_replicate.
    destruct (Z.le_gt_cases n 1) as [|Hn1].
    - right. exists 0. unfold roundUpToPowerOfTwo. destruct (Z.leb_spec n 1); [|lia]. done.
    - rewrite roundUpToPowerOfTwo_value by lia. pose proof (Z.log2_up_nonneg n).
      destruct (Z.le_gt_cases n (2 ^ 63)) as [H63|H63].
      + pose proof (log2_up_le_63 n ltac:(lia)). right. exists (Z.log2_up n). split; [lia|].
        assert (2 ^ Z.log2_up n <= 2 ^ 63) by (apply Z.pow_le_mono_r; lia).
        pose proof (Z.pow_nonneg 2 (Z.log2_up n)). rewrite u64_small by lia. lia.
      + left. replace (Z.log2_up n) with 64; [done|].
        symmetry. apply Z.log2_up_unique; lia. }
  constructor; simpl; try done.
  - constructor; simpl; [done..|constructor].
  - by rewrite concat_replicate_nil.
  - intros p [x Hx]. by rewrite content_empty in Hx.
Qed.

Lemma movedFrom_rep : Rep movedFrom ∅ [].
Proof.
  exists []. split_and!; [|apply represents_empty|done].
  constructor; simpl; try done.
  - constructor; simpl; [done..|constructor].
  - intros p [x Hx]. by rewrite content_empty in Hx.
  - left. done.
Qed.

Lemma ensureBuckets_inv ht order :
  tableInv ht order -> tableInv (ensureBuckets ht) order /\
    content (nodes (ensureBuckets ht)) = content (nodes ht) /\ buckets_ (ensureBuckets ht) <> [] /\
    bucketCount (ensureBuckets ht) = (if bucketCount ht =? 0 then 16 else bucketCount ht).
Proof.
  intros HI. unfold ensureBuckets, bucketCount. destruct (buckets_ ht) as [|b0 bs0] eqn:Hb; simpl.
  - pose proof HI as [R P D Pl U F S Mx B Cn]. split_and!; try done.
    rewrite Hb in P. constructor; simpl; try done.
    + destruct R. by constructor.
    + assert (order = []) as -> by (by apply Permutation_nil).
      intros i c p e f Hi Hin He. exfalso. apply (not_elem_of_nil p). apply D. eauto.
    + right. exists 4. done.
  - split_and!; try done; rewrite Hb; [done|]. rewrite len_cons. pose proof (len_nonneg bs0).
    destruct (Z.eqb_spec (1 + len bs0) 0); [lia|done].
Qed.

(** *** put *)

(** The key is there: its node is overwritten and becomes the most recent one. *)
Lemma overwrite_rep ht m order p n value :
  tableInv ht order -> represents (content (nodes ht)) m -> p ∈ order -> nodes ht !! p = Some n ->
  exists ht', overwrite ht p (ekey (entry n)) value = Some ht' /\ bucketCount ht' = bucketCount ht /\
    Rep ht' (<[ekey (entry n) := mkEntry (ekey (entry n)) value None]> m)
      (toFront (ekey (entry n)) (keyAt (content (nodes ht)) <$> order)).
Proof.
  intros HI HC Hp Hn. assert (content (nodes ht) !! p = Some (entry n, footprint n)) as He by (by rewrite content_lookup, Hn).
  apply list_elem_of_split in Hp as (l1 & l2 & ->).
  destruct (overwrite_inv ht l1 p l2 n (ekey (entry n)) value) as (ht2 & -> & HI2 & Hc2 & Hb2); [done..|].
  exists ht2. split_and!; [done|unfold bucketCount; by rewrite Hb2|].
  exists (p :: l1 ++ l2). split_and!; [done|..].
  - rewrite Hc2. apply (represents_insert _ _ _ (mkEntry (ekey (entry n)) value None)); [done|..].
    + intros q e' f' Hq Hk'. by eapply (ti_uniq _ _ HI).
    + intros e' f' He'. by simplify_eq.
  - pose proof (keys_NoDup _ _ HI) as Hnd. rewrite fmap_app, fmap_cons in *.
    rewrite (keyAt_lookup _ _ _ _ He) in *. unfold toFront. rewrite dropKey_mid by done.
    pose proof (rec_nodup _ _ (ti_rec _ _ HI)) as (Hp1 & Hp2 & _)%NoDup_mid.
    rewrite Hc2, fmap_cons, keyAt_fmap_insert, fmap_app by (rewrite elem_of_app; tauto).
    f_equal. unfold keyAt. by rewrite lookup_insert_eq.
Qed.

(** The key is new: a node is linked, and the table grows when it has become too full. *)
Lemma link_rep ht m order chain key value :
  tableInv ht order -> represents (content (nodes ht)) m -> 0 < bucketCount ht -> len order < maxEntries ->
  buckets_ ht !! bucketIndexFor ht key = Some chain -> m !! key = None ->
  (forall p, p ∈ order -> keyAt (content (nodes ht)) p <> key) ->
  exists ht2 ht', linkNew ht (bucketIndexFor ht key) chain key value = Some ht2 /\ growIfNeeded ht2 = Some ht' /\
    Rep ht' (<[key := mkEntry key value None]> m) (toFront key (keyAt (content (nodes ht)) <$> order)) /\
    bucketCount ht <= bucketCount ht' /\
    (bucketCount ht' = bucketCount ht \/
      3 * bucketCount ht < 4 * (len order + 1) /\ 3 * bucketCount ht' < 8 * (len order + 1)).
Proof.
  intros HI HC Hpos Hmax Hchain Hm Hnew.
  destruct (linkNew_inv ht order chain key value) as (p & ht2 & Hl & Hp & HI2 & Hc2 & Hb2); [done..|].
  destruct (growIfNeeded_inv ht2 (p :: order)) as (ht3 & Hg & HI3 & Hc3 & _ & Hb3 & _ & Hmin); [done|..].
  { intros E. unfold bucketCount, len in *. rewrite E in Hb2. simpl in Hb2. lia. }
  exists ht2, ht3. rewrite len_cons, Z.add_comm, Hb2 in Hmin. split_and!; [done|done| |lia|done].
  exists (p :: order). split_and!; [done|..].
  - rewrite Hc3, Hc2. apply (represents_insert _ _ _ (mkEntry key value None)); [done|..].
    + intros q e' f' Hq Hk'. exfalso. by eapply represents_none.
    + intros e' f' He'. exfalso. apply Hp. apply (ti_dom _ _ HI). eauto.
  - rewrite Hc3, Hc2, fmap_cons, keyAt_fmap_insert by done. unfold toFront. rewrite dropKey_notin.
    + f_equal. unfold keyAt. by rewrite lookup_insert_eq.
    + intros Hin. apply list_elem_of_fmap in Hin as (q & Hq & Hqo). by apply (Hnew q).
Qed.

Lemma put_rep ht m r key value :
  Rep ht m r -> len r < maxEntries ->
  exists ht', put ht key value = Some (ht', bool_decide (m !! key = None)) /\
    Rep ht' (<[key := mkEntry key value None]> m) (toFront key r) /\
    bucketCount ht <= bucketCount ht' /\ 0 < bucketCount ht' /\
    let start := if bucketCount ht =? 0 then 16 else bucketCount ht in
    (bucketCount ht' = start \/
      3 * start < 4 * (len r + 1) /\ 3 * bucketCount ht' < 8 * (len r + 1)).
Proof.
  intros (order & HI & HC & ->) Hmax.
  destruct (ensureBuckets_inv ht order HI) as (HI1 & Hc1 & Hne1 & Hcount).
  assert (len (keyAt (content (nodes ht)) <$> order) = len order) as El by (unfold len; by rewrite length_fmap).
  rewrite El in *. unfold put. set (ht1 := ensureBuckets ht) in *. clearbody ht1. rewrite <- Hc1 in *.
  assert (bucketCount ht <= bucketCount ht1 /\ 0 < bucketCount ht1) as Hgrow.
  { rewrite Hcount. unfold bucketCount. pose proof (len_nonneg (buckets_ ht)).
    destruct (Z.eqb_spec (len (buckets_ ht)) 0); lia. }
  cbn zeta. rewrite <- Hcount. clear Hc1 Hcount.
  destruct (bucket_exists ht1 key Hne1 (ti_count _ _ HI1)) as [chain Hchain].
  destruct (findNode_inv ht1 order key HI1) as (found & Hf & Hres).
  pose proof (findNode_rep _ _ _ _ _ HI1 HC Hf) as Hm.
  assert (findInChain (nodes ht1) key chain = Some found) as Hfc.
  { unfold findNode in Hf. destruct (buckets_ ht1) eqn:E; [done|]. rewrite <- E in *. by rewrite Hchain in Hf. }
  rewrite Hchain. simpl. rewrite Hfc. simpl. destruct found as [p|].
  - destruct Hm as (Hp & e & f & He & Hk & Hme). destruct (ti_node _ _ _ HI1 Hp) as (n & Hn & Hcn).
    rewrite He in Hcn. simplify_eq. destruct (overwrite_rep ht1 m order p n value) as (ht2 & -> & Hb & HR); [done..|].
    exists ht2. rewrite bool_decide_false, Hb by congruence. split_and!; [done|done|lia|lia|by left].
  - destruct (link_rep ht1 m order chain key value) as (ht2 & ht3 & -> & Hg & HR & Hb & Hmin); [done|done|lia|done..|].
    simpl. rewrite Hg. simpl. exists ht3. rewrite bool_decide_true by done. split_and!; [done|done|lia|lia|done].
Qed.

(** *** touch, recency ends, assignment through [find] *)

Lemma Rep_head ht m r : Rep ht m r -> mostRecentKey ht = Some (head r).
Proof.
  intros (order & HI & HC & ->). unfold mostRecentKey. rewrite (rec_head _ _ (ti_rec _ _ HI)).
  destruct order as [|p l]; simpl; [done|].
  destruct (ti_node _ _ p HI ltac:(by left)) as (n & Hn & Hc). rewrite Hn. simpl.
  by rewrite (keyAt_lookup _ _ _ _ Hc).
Qed.

Lemma Rep_last ht m r : Rep ht m r -> leastRecentKey ht = Some (last r).
Proof.
  intros (order & HI & HC & ->). unfold leastRecentKey. rewrite (rec_tail _ _ (ti_rec _ _ HI)).
  destruct order as [|p l _] using rev_ind; simpl; [done|].
  rewrite last_or_snoc, fmap_app. simpl. rewrite last_snoc.
  destruct (ti_node _ _ p HI) as (n & Hn & Hc); [rewrite elem_of_app, list_elem_of_singleton; tauto|].
  rewrite Hn. simpl. by rewrite (keyAt_lookup _ _ _ _ Hc).
Qed.

(** A stored key is promoted, an absent one changes nothing; the map is the same. *)
Lemma touch_rep ht m r key :
  Rep ht m r ->
  exists ht', touch ht key = Some (ht', bool_decide (is_Some (m !! key))) /\
    Rep ht' m (if bool_decide (is_Some (m !! key)) then toFront key r else r) /\
    bucketCount ht' = bucketCount ht.
Proof.
  intros HR. pose proof HR as (order & HI & HC & Hr).
  destruct (findNode_inv ht order key HI) as (found & Hf & _).
  pose proof (findNode_rep _ _ _ _ _ HI HC Hf) as Hm. unfold touch. rewrite Hf. simpl.
  destruct found as [p|].
  2:{ exists ht. rewrite bool_decide_false by (rewrite Hm; by intros []). done. }
  destruct Hm as (Hp & e & f & He & Hk & Hme).
  rewrite bool_decide_true by (rewrite Hme; eauto).
  pose proof (keys_NoDup _ _ HI) as Hnd.
  apply list_elem_of_split in Hp as (l1 & l2 & ->).
  pose proof (rec_nodup _ _ (ti_rec _ _ HI)) as (Hp1 & Hp2 & _)%NoDup_mid.
  assert (toFront key r = keyAt (content (nodes ht)) <$> (p :: l1 ++ l2)) as Hfront.
  { rewrite Hr, fmap_cons, !fmap_app, fmap_cons. rewrite fmap_app, fmap_cons in Hnd.
    rewrite (keyAt_lookup _ _ _ _ He), Hk in *. unfold toFront. by rewrite dropKey_mid. }
  case_decide as Hhead.
  - exists ht. split_and!; [done| |done]. rewrite (rec_head _ _ (ti_rec _ _ HI)) in Hhead.
    destruct l1 as [|q l1]; simpl in Hhead; simplify_eq.
    + exists (p :: l2). by rewrite Hfront.
    + exfalso. apply Hp1. by left.
  - destruct (lru_promote ht l1 p l2 (ti_rec _ _ HI)) as (ht1 & ht2 & -> & Hpf & R2 & Hs).
    simpl. rewrite Hpf. simpl. exists ht2. split_and!; [done| |].
    + exists (p :: l1 ++ l2). rewrite (same_content _ _ Hs). split_and!; [|done|done].
      eapply tableInv_same; [done..|]. solve_Permutation.
    + unfold bucketCount. by rewrite (same_buckets _ _ Hs).
Qed.

Lemma setExpiration_rep ht m r key e x :
  Rep ht m r -> m !! key = Some e ->
  exists ht', setExpiration ht key x = Some ht' /\
    Rep ht' (<[key := mkEntry key (evalue e) x]> m) r /\ bucketCount ht' = bucketCount ht.
Proof.
  intros (order & HI & HC & Hr) Hme.
  destruct (findNode_inv ht order key HI) as (found & Hf & _).
  pose proof (findNode_rep _ _ _ _ _ HI HC Hf) as Hm. unfold setExpiration. rewrite Hf. simpl.
  destruct found as [p|]; [|congruence].
  destruct Hm as (Hp & e' & f & He & Hk & Hme'). simplify_eq.
  destruct (ti_node _ _ _ HI Hp) as (n & Hn & Hcn). simplify_eq.
  rewrite (store_spec _ _ _ n) by done. eexists. split; [done|]. split; [|done].
  exists order. simpl. rewrite content_insert. simpl. split_and!.
  - by apply withExpiration_inv.
  - apply (represents_insert _ _ _ (mkEntry (ekey (entry n)) (evalue (entry n)) x)); [done|..].
    + intros q e' f' Hq Hk'. by eapply (ti_uniq _ _ HI).
    + intros e' f' He'. by simplify_eq.
  - apply list_fmap_ext. intros i q Hq. unfold keyAt. destruct (decide (p = q)) as [<-|].
    + by rewrite lookup_insert_eq, He.
    + by rewrite lookup_insert_ne.
Qed.

(** *** remove and eviction *)

(** Detaching the node of a key removes that key from the view. *)
Lemma detach_rep ht m r order i c1 p c2 e f :
  tableInv ht order -> represents (content (nodes ht)) m ->
  r = keyAt (content (nodes ht)) <$> order ->
  buckets_ ht !! i = Some (c1 ++ p :: c2) -> content (nodes ht) !! p = Some (e, f) ->
  exists ht', detach i (c1 ++ c2) p ht = Some ht' /\
    Rep ht' (delete (ekey e) m) (dropKey (ekey e) r) /\
    content (nodes ht') = delete p (content (nodes ht)) /\
    buckets_ ht' = <[i := c1 ++ c2]> (buckets_ ht).
Proof.
  intros HI HC Hr Hi He. destruct (detach_inv ht order i c1 p c2 HI Hi)
    as (ht' & l1 & l2 & -> & -> & HI' & Hc' & Hb'). exists ht'. split_and!; try done.
  exists (l1 ++ l2). split_and!; [done|..].
  - rewrite Hc'. eapply represents_delete; [done..|].
    intros q e' f' Hq Hk. by eapply (ti_uniq _ _ HI).
  - pose proof (keys_NoDup _ _ HI) as Hnd.
    pose proof (rec_nodup _ _ (ti_rec _ _ HI)) as (Hp1 & Hp2 & _)%NoDup_mid.
    rewrite Hc', keyAt_fmap_delete by (rewrite elem_of_app; tauto).
    rewrite Hr, !fmap_app, fmap_cons. rewrite fmap_app, fmap_cons in Hnd.
    rewrite (keyAt_lookup _ _ _ _ He) in *. by rewrite dropKey_mid.
Qed.

Lemma removeInChain_rep ht m r order i key before rest :
  tableInv ht order -> represents (content (nodes ht)) m ->
  r = keyAt (content (nodes ht)) <$> order ->
  buckets_ ht !! i = Some (before ++ rest) ->
  (forall p, p ∈ order -> keyAt (content (nodes ht)) p = key -> p ∈ rest) ->
  exists ht', removeInChain i key before rest ht = Some (ht', bool_decide (is_Some (m !! key))) /\
    Rep ht' (delete key m) (dropKey key r) /\ bucketCount ht' = bucketCount ht.
Proof.
  intros HI HC Hr. revert before. induction rest as [|p rest IH]; intros before Hi Hall; simpl.
  - assert (m !! key = None) as Hnone.
    { destruct (m !! key) as [e|] eqn:Hm; [|done]. apply HC in Hm as (p & f & Hp & Hk).
      exfalso. apply (not_elem_of_nil p), Hall; [apply (ti_dom _ _ HI); eauto|].
      by rewrite (keyAt_lookup _ _ _ _ Hp). }
    exists ht. rewrite bool_decide_false by (rewrite Hnone; by intros []).
    split_and!; [done| |done]. rewrite delete_id by done.
    rewrite dropKey_notin; [by exists order|].
    assert (Rep ht m r) as HR by (by exists order).
    rewrite (Rep_mem _ _ _ _ HR), Hnone. by intros [].
  - assert (p ∈ order) as Hp.
    { rewrite <- (ti_perm _ _ HI). apply concat_elem_of. exists i, (before ++ p :: rest).
      rewrite elem_of_app, elem_of_cons. tauto. }
    destruct (ti_node _ _ _ HI Hp) as (n & Hn & Hcn). rewrite Hn. simpl. case_decide as Hk.
    + destruct (detach_rep ht m r order i before p rest (entry n) (footprint n))
        as (ht' & -> & HR' & _ & Hb'); [done..|]. simpl. exists ht'. subst key.
      rewrite bool_decide_true by (rewrite (represents_key _ _ _ _ _ HC Hcn); eauto).
      split_and!; [done..|]. unfold bucketCount, len. by rewrite Hb', length_insert.
    + apply IH; [by rewrite <- app_assoc|]. intros q Hq Hqk.
      specialize (Hall q Hq Hqk). apply elem_of_cons in Hall as [->|]; [|done].
      rewrite (keyAt_lookup _ _ _ _ Hcn) in Hqk. done.
Qed.

Lemma remove_rep ht m r key :
  Rep ht m r ->
  exists ht', remove ht key = Some (ht', bool_decide (is_Some (m !! key))) /\
    Rep ht' (delete key m) (dropKey key r) /\ bucketCount ht' = bucketCount ht.
Proof.
  intros HR. pose proof HR as (order & HI & HC & Hr). unfold remove.
  destruct (buckets_ ht) as [|b0 bs0] eqn:Hb.
  - assert (order = []) as ->.
    { pose proof (ti_perm _ _ HI) as P. rewrite Hb in P. by apply Permutation_nil in P. }
    assert (m !! key = None) as Hnone.
    { apply eq_None_not_Some. rewrite <- (Rep_mem _ _ _ _ HR), Hr. apply not_elem_of_nil. }
    exists ht. rewrite bool_decide_false by (rewrite Hnone; by intros []).
    rewrite delete_id by done. by rewrite Hr in *.
  - rewrite <- Hb in *. destruct (bucket_exists ht key) as [chain Hchain];
      [congruence|apply HI|]. rewrite Hchain. simpl.
    eapply removeInChain_rep; [done..|]. intros p Hp Hk.
    pose proof Hp as Hp'. rewrite <- (ti_perm _ _ HI) in Hp'.
    apply concat_elem_of in Hp' as (j & c & Hj & Hin).
    destruct (ti_in _ _ _ HI Hp) as [[e f] He]. rewrite (keyAt_lookup _ _ _ _ He) in Hk.
    pose proof (ti_place _ _ HI _ _ _ _ _ Hj Hin He) as Hidx. rewrite Hk in Hidx.
    fold (bucketCount ht) in Hidx. fold (bucketIndexFor ht key) in Hidx. congruence.
Qed.

(** The victim is the last key of the recency order. *)
Lemma evictOldest_rep ht m r :
  Rep ht m r ->
  exists ht', evictOldest ht = Some (ht', last r) /\ bucketCount ht' = bucketCount ht /\
    match last r with
    | None => ht' = ht
    | Some k => Rep ht' (delete k m) (dropKey k r)
    end.
Proof.
  intros HR. pose proof (Rep_last _ _ _ HR) as Hlast. unfold leastRecentKey in Hlast.
  unfold evictOldest. destruct (lruTail_ ht) as [p|].
  - destruct (nodes ht !! p) as [n|]; simplify_eq/=. rewrite <- Hlast.
    destruct (remove_rep ht m r (ekey (entry n)) HR) as (ht' & -> & HR' & Hc). simpl.
    by exists ht'.
  - simplify_eq. rewrite <- Hlast. by exists ht.
Qed.

(** *** clear *)

Lemma foldM_freeNode h (l : list ptr) :
  NoDup l -> (forall p, p ∈ l -> is_Some (h !! p)) ->
  exists h', foldM freeNode h l = Some h' /\
    (forall p, p ∈ l -> h' !! p = None) /\ (forall p, p ∉ l -> h' !! p = h !! p).
Proof.
  revert h. induction l as [|p l IH]; intros h Hnd Hin; simpl.
  - exists h. split_and!; [done| |done]. intros p Hp. by apply not_elem_of_nil in Hp.
  - apply NoDup_cons in Hnd as [Hp Hnd]. destruct (Hin p) as [n Hn]; [by left|].
    unfold freeNode at 1. rewrite Hn. simpl.
    destruct (IH (delete p h)) as (h' & -> & Hgone & Hkept); [done|..].
    { intros q Hq. rewrite lookup_delete_ne by (by intros ->). apply Hin. by right. }
    exists h'. split_and!; [done|..].
    + intros q [->|Hq]%elem_of_cons; [|by apply Hgone].
      rewrite Hkept by done. apply lookup_delete_eq.
    + intros q Hq. rewrite elem_of_cons in Hq. rewrite Hkept by tauto.
      apply lookup_delete_ne. intros ->. tauto.
Qed.

Lemma clear_rep ht m r :
  Rep ht m r ->
  exists ht', clear ht = Some ht' /\ Rep ht' ∅ [] /\ bucketCount ht' = bucketCount ht.
Proof.
  intros (order & HI & HC & Hr). pose proof HI as [R P D Pl U F S Mx B Cn].
  unfold clear. simpl. unfold destroyChain. rewrite foldM_concat.
  destruct (foldM_freeNode (nodes ht) (concat (buckets_ ht))) as (h' & -> & Hgone & Hkept).
  - rewrite P. apply R.
  - intros p Hp. rewrite P in Hp. by eapply dseg_in, Hp; apply R.
  - assert (h' = ∅) as ->.
    { apply map_empty. intros p. destruct (decide (p ∈ concat (buckets_ ht))) as [Hp|Hp];
        [by apply Hgone|]. rewrite Hkept by done. destruct (nodes ht !! p) as [n|] eqn:Hn; [|done].
      exfalso. apply Hp. rewrite P. apply D. rewrite content_lookup, Hn. eauto. }
    simpl. eexists. split; [done|]. split.
    + exists []. split_and!; [|apply represents_empty|done]. constructor; simpl; try done.
      * constructor; simpl; [done..|constructor].
      * by rewrite concat_replicate_nil.
      * intros p [x Hx]. by rewrite content_empty in Hx.
      * unfold bucketCount, len in *. simpl. by rewrite length_replicate.
    + unfold bucketCount, len. simpl. by rewrite length_replicate.
Qed.

(** *** Enumeration *)

Lemma mapM_total {A B} (f : A -> option B) (g : A -> B) (l : list A) :
  (forall x, x ∈ l -> f x = Some (g x)) -> mapM f l = Some (g <$> l).
Proof.
  induction l as [|x l IH]; intros Hf; simpl; [done|].
  rewrite Hf by by left. simpl. rewrite IH; [done|]. intros y Hy. apply Hf. by right.
Qed.

(** Every stored entry exactly once. *)
Lemma entriesOf_rep ht m r :
  Rep ht m r ->
  exists es, entriesOf ht = Some es /\ NoDup (ekey <$> es) /\
    (forall e, e ∈ es <-> m !! ekey e = Some e) /\ (ekey <$> es) ≡ₚ r.
Proof.
  intros (order & HI & HC & Hr). pose proof HI as [R P D Pl U F S Mx B Cn].
  set (g := fun p => match nodes ht !! p with Some n => entry n | None => mkEntry [] [] None end).
  assert (forall p, p ∈ concat (buckets_ ht) ->
    exists n, nodes ht !! p = Some n /\ content (nodes ht) !! p = Some (entry n, footprint n) /\
      g p = entry n) as Hg.
  { intros p Hp. rewrite P in Hp. destruct (ti_node _ _ _ HI Hp) as (n & Hn & Hc).
    exists n. unfold g. by rewrite Hn. }
  exists (g <$> concat (buckets_ ht)).
  assert ((ekey <$> (g <$> concat (buckets_ ht))) ≡ₚ r) as Hperm.
  { rewrite <- list_fmap_compose, Hr, <- P.
    match goal with |- ?a ≡ₚ ?b => enough (a = b) as -> by done end.
    apply list_fmap_ext. intros i p Hp. destruct (Hg p) as (n & Hn & Hc & Hgp).
    { by eapply list_elem_of_lookup_2. }
    simpl. by rewrite Hgp, (keyAt_lookup _ _ _ _ Hc). }
  split_and!; [..|done].
  - apply mapM_total. intros p Hp. destruct (Hg p Hp) as (n & Hn & _ & ->). by rewrite Hn.
  - rewrite Hperm, Hr. by apply keys_NoDup.
  - intros e. rewrite list_elem_of_fmap. split.
    + intros (p & -> & Hp). destruct (Hg p Hp) as (n & Hn & Hc & ->). by eapply represents_key.
    + intros He. apply HC in He as (p & f & Hp & _). exists p.
      assert (p ∈ concat (buckets_ ht)) as Hin by (rewrite P; apply D; eauto).
      destruct (Hg p Hin) as (n & Hn & Hc & ->). by simplify_eq.
Qed.

Lemma filter_bool_elem {A} (f : A -> bool) l x : x ∈ List.filter f l <-> x ∈ l /\ f x = true.
Proof. rewrite !list_elem_of_In. apply filter_In. Qed.

Lemma NoDup_fmap_filter {A B} (g : A -> B) (f : A -> bool) l :
  NoDup (g <$> l) -> NoDup (g <$> List.filter f l).
Proof.
  induction l as [|x l IH]; simpl; [done|]. intros [Hx Hnd]%NoDup_cons.
  destruct (f x); simpl; [|auto]. apply NoDup_cons. split; [|auto].
  rewrite list_elem_of_fmap in *. intros (y & Hy & Hin%filter_bool_elem). naive_solver.
Qed.

Lemma entriesWhere_rep ht m r pred :
  Rep ht m r ->
  exists es, entriesWhere ht pred = Some es /\ NoDup (ekey <$> es) /\
    (forall e, e ∈ es <-> m !! ekey e = Some e /\ pred e = true).
Proof.
  intros HR. destruct (entriesOf_rep _ _ _ HR) as (es & Hes & Hnd & Hin & _).
  exists (List.filter pred es). unfold entriesWhere. rewrite Hes. simpl. split_and!; [done|..].
  - by apply NoDup_fmap_filter.
  - intros e. by rewrite filter_bool_elem, Hin.
Qed.

Lemma keysWhere_rep ht m r pred :
  Rep ht m r ->
  exists ks, keysWhere ht pred = Some ks /\ NoDup ks /\
    (forall k, k ∈ ks <-> exists e, m !! k = Some e /\ pred e = true).
Proof.
  intros HR. destruct (entriesWhere_rep ht m r pred HR) as (es & Hes & Hnd & Hin).
  exists (ekey <$> es). unfold keysWhere. rewrite Hes. simpl. split_and!; [done..|].
  intros k. rewrite list_elem_of_fmap. split.
  - intros (e & -> & He). apply Hin in He. naive_solver.
  - intros (e & He & Hp). pose proof (Rep_key _ _ _ _ _ HR He) as <-. exists e.
    by rewrite Hin.
Qed.

(** *** resize *)

(** Any requested size keeps the map and the recency order, and the load factor
    stays within three quarters. *)
Lemma resize_rep ht m r n :
  Rep ht m r -> 0 <= n <= 2 ^ 63 ->
  exists ht', resize ht n = Some ht' /\ Rep ht' m r /\
    4 * HashTable.size ht' <= 3 * bucketCount ht' /\ n <= bucketCount ht'.
Proof.
  intros (order & HI & HC & Hr) Hn.
  assert (exists k, 0 <= k <= 63 /\ roundUpToPowerOfTwo n = 2 ^ k /\ n <= 2 ^ k) as (k & Hk & Hround & Hle).
  { destruct (Z.le_gt_cases n 1) as [|Hn1].
    - exists 0. unfold roundUpToPowerOfTwo. destruct (Z.leb_spec n 1); [|lia]. done.
    - exists (Z.log2_up n). pose proof (log2_up_le_63 n ltac:(lia)). pose proof (Z.log2_up_nonneg n).
      assert (2 ^ Z.log2_up n <= 2 ^ 63) by (apply Z.pow_le_mono_r; lia).
      pose proof (Z.pow_nonneg 2 (Z.log2_up n)).
      rewrite roundUpToPowerOfTwo_value, u64_small by lia. split_and!; [lia..|].
      apply Z.log2_up_le_pow2; lia. }
  destruct (resize_inv ht order n k HI Hk Hround) as (ht' & -> & HI' & Hc & k' & Hk' & Hcount & Hload & _).
  exists ht'. split_and!; [done|exists order; by rewrite Hc|..].
  - unfold HashTable.size. rewrite (ti_size _ _ HI'), Hcount. done.
  - rewrite Hcount. assert (2 ^ k <= 2 ^ k') by (apply Z.pow_le_mono_r; lia). lia.
Qed.

End Operations.
