(* ===== verification/TableSweep.v ===== *)
(** * Bulk removal

    [HashTable::removeIf]: what one pass over a range of buckets removes. *)
From S2P Require Import Prelude.
From S2P Require Import Hash.
From S2P Require Import Table.
From S2P Require Import RecencyList.
From S2P Require Import TableInv.
From S2P Require Import TableSpec.
Import HashTable.

#[local] Open Scope Z_scope.

(** The view without a list of keys. *)
Definition dropKeys (ks : list bytes) (m : gmap bytes Entry) : gmap bytes Entry :=
  foldr delete m ks.
Definition dropAll (ks : list bytes) (r : list bytes) : list bytes := foldr dropKey r ks.

(** The buckets a pass visits. *)
Definition scannedBuckets (firstBucket total : Z) (n : nat) : list nat :=
  (fun offset : nat => Z.to_nat (u64 (firstBucket + Z.of_nat offset) mod total)) <$> seq 0 n.

Lemma dropKeys_lookup ks m k : dropKeys ks m !! k = if decide (k ∈ ks) then None else m !! k.
Proof.
  unfold dropKeys. induction ks as [|x ks IH]; cbn [foldr].
  - case_decide as Hd; [by apply not_elem_of_nil in Hd|done].
  - destruct (decide (x = k)) as [->|Hne].
    + rewrite lookup_delete_eq, decide_True; [done|by left].
    + rewrite lookup_delete_ne, IH by done. apply decide_ext.
      rewrite elem_of_cons. intuition congruence.
Qed.

Lemma dropKeys_app ks ks' m : dropKeys (ks ++ ks') m = dropKeys ks (dropKeys ks' m).
Proof. apply foldr_app. Qed.

Lemma dropAll_app ks ks' r : dropAll (ks ++ ks') r = dropAll ks (dropAll ks' r).
Proof. apply foldr_app. Qed.

Section Sweep.
Context `{Platform}.

(** The chain of a bucket has no node twice. *)
Lemma chain_NoDup ht order i c :
  tableInv ht order -> buckets_ ht !! i = Some c -> NoDup c.
Proof.
  intros HI Hi. assert (NoDup (concat (buckets_ ht))) as Hnd.
  { rewrite (ti_perm _ _ HI). apply (ti_rec _ _ HI). }
  rewrite <- (take_drop_middle _ _ _ Hi), concat_app in Hnd. simpl in Hnd.
  apply NoDup_app in Hnd as (_ & _ & Hnd). by apply NoDup_app in Hnd as (Hnd & _).
Qed.

(** One bucket: exactly the entries of the remaining chain that satisfy the
    predicate leave the view. *)
Lemma removeIfInChain_rep pred i before rest ht m r n :
  Rep ht m r -> buckets_ ht !! i = Some (before ++ rest) -> 0 <= n < 2 ^ 64 ->
  exists ht' ks, removeIfInChain pred i before rest ht n = Some (ht', u64 (n + len ks)) /\
    Rep ht' (dropKeys ks m) (dropAll ks r) /\ bucketCount ht' = bucketCount ht /\ NoDup ks /\
    (forall k, k ∈ ks <-> exists p e f, p ∈ rest /\ content (nodes ht) !! p = Some (e, f) /\
      pred e = true /\ ekey e = k).
Proof.
  revert before ht m r n. induction rest as [|p rest IH]; intros before ht m r n HR Hi Hn; simpl.
  - exists ht, []. rewrite Z.add_0_r, u64_small by done. split_and!; try done; [constructor|].
    intros k. split; [by intros ?%not_elem_of_nil|].
    by intros (? & ? & ? & ?%not_elem_of_nil & _).
  - pose proof HR as (order & HI & HC & Hr).
    pose proof (chain_NoDup _ _ _ _ HI Hi) as (_ & _ & [Hp _]%NoDup_cons)%NoDup_app.
    assert (p ∈ order) as Hpo.
    { rewrite <- (ti_perm _ _ HI). apply concat_elem_of. exists i, (before ++ p :: rest).
      rewrite elem_of_app, elem_of_cons. tauto. }
    destruct (ti_node _ _ _ HI Hpo) as (nd & Hnd & Hcn). rewrite Hnd. simpl.
    destruct (pred (entry nd)) eqn:Hpred.
    + destruct (detach_rep ht m r order i before p rest (entry nd) (footprint nd))
        as (ht1 & -> & HR1 & Hc1 & Hb1); [done..|]. simpl.
      destruct (IH before ht1 _ _ (u64 (n + 1)) HR1) as (ht2 & ks & -> & HR2 & Hb2 & Hndk & Hks);
        [by rewrite Hb1, list_lookup_insert_eq by (by apply lookup_lt_Some in Hi)
        |apply u64_range|].
      assert (ekey (entry nd) ∉ ks) as Hnew.
      { rewrite Hks. intros (q & e & f & Hq & He & _ & Hk). rewrite Hc1 in He.
        apply lookup_delete_Some in He as [Hne He]. apply Hne. by eapply (ti_uniq _ _ HI). }
      exists ht2, (ks ++ [ekey (entry nd)]). split_and!.
      * rewrite len_app, u64_idemp_add_l, len_cons. do 3 f_equal. unfold len. simpl. lia.
      * by rewrite dropKeys_app, dropAll_app.
      * rewrite Hb2. unfold bucketCount, len. by rewrite Hb1, length_insert.
      * apply NoDup_app. split_and!; [done| |apply NoDup_singleton].
        by intros x Hx ->%list_elem_of_singleton.
      * intros k. rewrite elem_of_app, list_elem_of_singleton, Hks. rewrite Hc1. split.
        -- intros [(q & e & f & Hq & He & Hpe & Hk)| -> ].
           ++ apply lookup_delete_Some in He as [_ He]. exists q, e, f.
              split_and!; [by right|done..].
           ++ exists p, (entry nd), (footprint nd). split_and!; [by left|done..].
        -- intros (q & e & f & [->|Hq]%elem_of_cons & He & Hpe & Hk).
           ++ right. by simplify_eq.
           ++ left. exists q, e, f. rewrite lookup_delete_ne by (by intros ->). done.
    + destruct (IH (before ++ [p]) ht m r n HR) as (ht2 & ks & -> & HR2 & Hb2 & Hndk & Hks);
        [by rewrite <- app_assoc|done|].
      exists ht2, ks. split_and!; [done..|]. intros k. rewrite Hks. split.
      * intros (q & e & f & Hq & He). exists q, e, f. split; [by right|done].
      * intros (q & e & f & [->|Hq]%elem_of_cons & He & Hpe & Hk).
        -- exfalso. simplify_eq. congruence.
        -- exists q, e, f. done.
Qed.

(** In terms of the map: the keys of bucket [i] whose entry satisfies the
    predicate. *)
Lemma removeIf_bucket_rep pred i chain ht m r n :
  Rep ht m r -> buckets_ ht !! i = Some chain -> 0 <= n < 2 ^ 64 ->
  exists ht' ks, removeIfInChain pred i [] chain ht n = Some (ht', u64 (n + len ks)) /\
    Rep ht' (dropKeys ks m) (dropAll ks r) /\ bucketCount ht' = bucketCount ht /\ NoDup ks /\
    (forall k, k ∈ ks <-> exists e, m !! k = Some e /\ pred e = true /\ bucketIndexFor ht k = i).
Proof.
  intros HR Hi Hn. destruct (removeIfInChain_rep pred i [] chain ht m r n HR Hi Hn)
    as (ht' & ks & Hrun & HR' & Hc & Hnd & Hks).
  exists ht', ks. split_and!; [done..|]. intros k. rewrite Hks.
  destruct HR as (order & HI & HC & Hr). split.
  - intros (p & e & f & Hp & He & Hpe & <-). exists e.
    split_and!; [by eapply represents_key|done|]. by eapply (ti_place _ _ HI).
  - intros (e & He & Hpe & Hidx). apply HC in He as (p & f & He & <-).
    exists p, e, f. split_and!; try done.
    assert (p ∈ concat (buckets_ ht)) as Hp.
    { rewrite (ti_perm _ _ HI). apply (ti_dom _ _ HI). eauto. }
    apply concat_elem_of in Hp as (j & c & Hj & Hp).
    pose proof (ti_place _ _ HI _ _ _ _ _ Hj Hp He) as Hjdx.
    unfold bucketIndexFor, bucketCount in Hidx. congruence.
Qed.

Lemma foldM_removeIf_rep pred first total offsets ht m r n :
  Rep ht m r -> 0 < total -> total = bucketCount ht -> 0 <= n < 2 ^ 64 ->
  exists ht' ks, foldM (removeIfBucket first total pred) (ht, n) offsets
      = Some (ht', u64 (n + len ks)) /\
    Rep ht' (dropKeys ks m) (dropAll ks r) /\ bucketCount ht' = bucketCount ht /\ NoDup ks /\
    (forall k, k ∈ ks <-> exists e, m !! k = Some e /\ pred e = true /\
      bucketIndexFor ht k ∈
        ((fun o : nat => Z.to_nat (u64 (first + Z.of_nat o) mod total)) <$> offsets)).
Proof.
  intros HR Ht. revert ht m r n HR. induction offsets as [|o offsets IH];
    intros ht m r n HR Hcount Hn; simpl.
  - exists ht, []. rewrite Z.add_0_r, u64_small by done. split_and!; try done; [constructor|].
    intros k. split; [by intros ?%not_elem_of_nil|].
    by intros (? & ? & ? & ?%not_elem_of_nil).
  - unfold removeIfBucket at 1. simpl.
    set (i := Z.to_nat (u64 (first + Z.of_nat o) mod total)).
    assert (exists c, buckets_ ht !! i = Some c) as [c Hc].
    { apply lookup_lt_is_Some. pose proof (Z.mod_pos_bound (u64 (first + Z.of_nat o)) total Ht).
      unfold bucketCount, len in Hcount. lia. }
    rewrite Hc. simpl.
    destruct (removeIf_bucket_rep pred i c ht m r n HR Hc Hn)
      as (ht1 & ks1 & -> & HR1 & Hb1 & Hnd1 & Hks1).
    destruct (IH ht1 _ _ (u64 (n + len ks1)) HR1) as (ht2 & ks2 & -> & HR2 & Hb2 & Hnd2 & Hks2);
      [by rewrite Hb1|apply u64_range|].
    exists ht2, (ks2 ++ ks1). split_and!.
    + rewrite u64_idemp_add_l, len_app. do 3 f_equal. lia.
    + by rewrite dropKeys_app, dropAll_app.
    + congruence.
    + apply NoDup_app. split_and!; [done| |done]. intros k Hk Hk1.
      apply Hks2 in Hk as (e & He & _). rewrite dropKeys_lookup, decide_True in He; done.
    + intros k. rewrite elem_of_app, Hks2, Hks1. setoid_rewrite dropKeys_lookup.
      unfold bucketIndexFor. rewrite Hb1. setoid_rewrite elem_of_cons. split.
      * intros [(e & He & Hpe & Hin)|(e & He & Hpe & Hin)]; exists e.
        -- destruct (decide (k ∈ ks1)); [done|]. auto.
        -- auto.
      * intros (e & He & Hpe & Hin). destruct (decide (k ∈ ks1)) as [Hk1|Hk1].
        -- right. by apply Hks1.
        -- destruct Hin as [Hin|Hin]; [|left; by exists e].
           right. by exists e.
Qed.

(** [removeIf] removes exactly the entries that satisfy the predicate and sit in
    a scanned bucket, and returns their number. *)
Lemma removeIf_rep ht m r first toScan pred :
  Rep ht m r -> 0 <= toScan ->
  exists ht' ks, removeIf ht first toScan pred = Some (ht', len ks) /\
    Rep ht' (dropKeys ks m) (dropAll ks r) /\ bucketCount ht' = bucketCount ht /\ NoDup ks /\
    (forall k, k ∈ ks <-> exists e, m !! k = Some e /\ pred e = true /\
      bucketIndexFor ht k ∈ scannedBuckets first (bucketCount ht)
        (Z.to_nat (Z.min toScan (bucketCount ht)))).
Proof.
  intros HR Hscan. unfold removeIf. pose proof (len_nonneg (buckets_ ht)) as Hnn.
  destruct (Z.eqb_spec (bucketCount ht) 0) as [H0|H0]; simpl.
  { exists ht, []. split_and!; try done; [constructor|]. intros k.
    split; [by intros ?%not_elem_of_nil|]. intros (e & _ & _ & Hin). rewrite H0 in Hin.
    replace (Z.to_nat (Z.min toScan 0)) with 0%nat in Hin by lia.
    by apply not_elem_of_nil in Hin. }
  destruct (Z.eqb_spec toScan 0) as [->|Hs].
  { exists ht, []. split_and!; try done; [constructor|]. intros k.
    split; [by intros ?%not_elem_of_nil|]. intros (e & _ & _ & Hin).
    replace (Z.to_nat (Z.min 0 (bucketCount ht))) with 0%nat in Hin by (unfold bucketCount; lia).
    by apply not_elem_of_nil in Hin. }
  destruct (foldM_removeIf_rep pred first (bucketCount ht)
    (seq 0 (Z.to_nat (Z.min toScan (bucketCount ht)))) ht m r 0 HR)
    as (ht' & ks & -> & HR' & Hc & Hnd & Hks); [unfold bucketCount in *; lia|done|lia|].
  exists ht', ks. split_and!; [|done..].
  do 2 f_equal. rewrite Z.add_0_l. apply u64_small. split; [apply len_nonneg|].
  assert (ks ⊆+ r) as Hsub.
  { apply NoDup_submseteq; [done|]. intros k Hk. rewrite (Rep_mem _ _ _ _ HR).
    apply Hks in Hk as (e & He & _). eauto. }
  apply submseteq_length in Hsub. destruct (Rep_size _ _ _ HR) as [_ Hmax].
  unfold len, maxEntries in *. lia.
Qed.

End Sweep.
