(* ===== verification/TableClaims.v ===== *)
(** * The hash table: theorems

    The table against its specification, a finite map with a recency order:
    whole sequences of operations, then each operation on its own; the hash and
    the power-of-two arithmetic it rests on. *)
From S2P Require Import Prelude.
From S2P Require Import Hash.
From S2P Require Import Table.
From S2P Require Import RecencyList.
From S2P Require Import TableInv.
From S2P Require Import TableSpec.
From S2P Require Import TableSweep.
Import HashTable.

#[local] Open Scope Z_scope.

(** ** Sequences of operations *)

(** The operations a client applies to a table. *)
Inductive Op :=
| PutOp (k v : bytes)
| PutExOp (k v : bytes) (deadline : time_point)
| RemoveOp (k : bytes)
| TouchOp (k : bytes)
| EvictOp
| SweepOp (now : time_point)
| ResizeOp (n : Z)
| ClearOp.

(** An operation on the table. *)
Definition applyOp `{Platform} (ht : t) (op : Op) : option t :=
  match op with
  | PutOp k v => fst <$> put ht k v
  | PutExOp k v d => r ← put ht k v; setExpiration (fst r) k (Some d)
  | RemoveOp k => fst <$> remove ht k
  | TouchOp k => fst <$> touch ht k
  | EvictOp => fst <$> evictOldest ht
  | SweepOp now => fst <$> removeIf ht 0 (bucketCount ht) (fun e => isExpiredAt e now)
  | ResizeOp n => resize ht n
  | ClearOp => clear ht
  end.

(** The same operation on the map and the recency order. *)
Definition specOp (st : gmap bytes Entry * list bytes) (op : Op) : gmap bytes Entry * list bytes :=
  let '(m, r) := st in
  match op with
  | PutOp k v => (<[k := mkEntry k v None]> m, toFront k r)
  | PutExOp k v d => (<[k := mkEntry k v (Some d)]> m, toFront k r)
  | RemoveOp k => (delete k m, dropKey k r)
  | TouchOp k => (m, if bool_decide (is_Some (m !! k)) then toFront k r else r)
  | EvictOp => match last r with Some k => (delete k m, dropKey k r) | None => (m, r) end
  | SweepOp now =>
      (filter (fun kv => isExpiredAt kv.2 now = false) m,
       filter (fun k => from_option (fun e => isExpiredAt e now) false (m !! k) = false) r)
  | ResizeOp n => (m, r)
  | ClearOp => (∅, [])
  end.

Definition sizeInRange (op : Op) : bool :=
  match op with ResizeOp n => (0 <=? n) && (n <=? 2 ^ 63) | _ => true end.

(** ** Lemmas on sweeps of the whole table *)

Lemma dropAll_filter ks r : dropAll ks r = filter (fun k => k ∉ ks) r.
Proof.
  induction ks as [|x ks IH]; cbn [dropAll foldr].
  - symmetry. apply filter_id. intros y _. apply not_elem_of_nil.
  - fold (dropAll ks r). rewrite IH. unfold dropKey. rewrite list_filter_filter.
    apply list_filter_iff. intros y. rewrite not_elem_of_cons. done.
Qed.

Section Simulation.
Context `{Platform}.

Lemma scanned_all ht m r k : Rep ht m r -> is_Some (m !! k) ->
  bucketIndexFor ht k ∈ scannedBuckets 0 (bucketCount ht) (Z.to_nat (Z.min (bucketCount ht) (bucketCount ht))).
Proof.
  intros HR [e He]. pose proof (Rep_count _ _ _ HR) as Hp.
  assert (0 < bucketCount ht) as Hpos.
  { pose proof (len_nonneg (buckets_ ht)) as Hn. fold (bucketCount ht) in Hn.
    destruct (Z.eq_dec (bucketCount ht) 0) as [H0|]; [|lia]. exfalso.
    assert (k ∈ r) as Hk by (eapply Rep_mem; eauto).
    destruct HR as (order & HI & _ & ->). pose proof (ti_perm _ _ HI) as Hperm.
    unfold bucketCount, len in H0. destruct (buckets_ ht); [|simpl in H0; lia].
    apply Permutation_nil in Hperm. subst order. by apply not_elem_of_nil in Hk. }
  pose proof (bucketIndex_lt (bucketCount ht) k ltac:(lia) Hp) as Hlt.
  assert (bucketCount ht <= 2 ^ 63) as H63.
  { destruct Hp as [->|(j & Hj & ->)]; [lia|]. apply Z.pow_le_mono_r; lia. }
  unfold scannedBuckets, bucketIndexFor. apply list_elem_of_fmap.
  set (i := bucketIndex (bucketCount ht) k) in *. exists i. split.
  - rewrite Z.add_0_l, u64_small, Z.mod_small by lia. lia.
  - apply elem_of_seq. lia.
Qed.

Lemma sweep_rep ht m r now : Rep ht m r ->
  exists ht', fst <$> removeIf ht 0 (bucketCount ht) (fun e => isExpiredAt e now) = Some ht' /\
    Rep ht' (specOp (m, r) (SweepOp now)).1 (specOp (m, r) (SweepOp now)).2.
Proof.
  intros HR. pose proof (len_nonneg (buckets_ ht)) as Hn. fold (bucketCount ht) in Hn.
  destruct (removeIf_rep ht m r 0 (bucketCount ht) (fun e => isExpiredAt e now) HR Hn)
    as (ht' & ks & -> & HR' & _ & _ & Hks).
  exists ht'. split; [done|]. cbn [specOp fst snd].
  assert (forall k, k ∈ ks <-> exists e, m !! k = Some e /\ isExpiredAt e now = true) as Hks'.
  { intros k. rewrite Hks. split; [intros (e & He & Hx & _); eauto|].
    intros (e & He & Hx). exists e. split_and!; [done..|]. eapply scanned_all; eauto. }
  replace (filter _ m) with (dropKeys ks m).
  - replace (filter _ r) with (dropAll ks r); [done|]. rewrite dropAll_filter.
    apply list_filter_iff. intros k. rewrite Hks'. destruct (m !! k) as [e|]; cbn.
    + rewrite <- not_true_iff_false. split; intros Hne; [intros Hx; apply Hne; eauto|].
      intros (e' & [= <-] & Hx). done.
    + split; [done|]. intros _ (e & He & _). done.
  - apply map_eq. intros k. rewrite dropKeys_lookup, map_lookup_filter.
    destruct (m !! k) as [e|] eqn:He; cbn.
    + case_decide as Hk; case_guard as Hx; cbn; try done.
      * apply Hks' in Hk as (e' & He' & Hx'). simplify_eq. cbn in Hx. congruence.
      * exfalso. apply Hk, Hks'. exists e. split; [done|]. cbn in Hx. by destruct (isExpiredAt e now).
    + by case_decide.
Qed.

Lemma applyOp_rep ht m r op : Rep ht m r -> len r < maxEntries -> sizeInRange op = true ->
  exists ht', applyOp ht op = Some ht' /\ Rep ht' (specOp (m, r) op).1 (specOp (m, r) op).2.
Proof.
  intros HR Hroom Hsize. destruct op; cbn [applyOp specOp fst snd].
  - destruct (put_rep ht m r k v HR Hroom) as (ht' & -> & HR' & _). eauto.
  - destruct (put_rep ht m r k v HR Hroom) as (ht' & -> & HR' & _). cbn.
    destruct (setExpiration_rep ht' _ _ k (mkEntry k v None) (Some deadline) HR') as (ht2 & -> & HR2 & _);
      [apply lookup_insert_eq|]. cbn in HR2. rewrite insert_insert_eq in HR2. eauto.
  - destruct (remove_rep ht m r k HR) as (ht' & -> & HR' & _). eauto.
  - destruct (touch_rep ht m r k HR) as (ht' & -> & HR' & _). eauto.
  - destruct (evictOldest_rep ht m r HR) as (ht' & -> & _ & HR'). exists ht'. split; [done|].
    destruct (last r); [done|]. by subst ht'.
  - apply sweep_rep. done.
  - cbn in Hsize. destruct (resize_rep ht m r n HR ltac:(lia)) as (ht' & -> & HR' & _). eauto.
  - destruct (clear_rep ht m r HR) as (ht' & -> & HR' & _). eauto.
Qed.

Lemma specOp_length st op : (length (specOp st op).2 <= S (length st.2))%nat.
Proof.
  assert (forall k r, (length (dropKey k r) <= length r)%nat) as Hd
    by (intros; apply length_filter).
  destruct st as [m r], op; cbn; try lia.
  - pose proof (Hd k r). lia.
  - pose proof (Hd k r). lia.
  - pose proof (Hd k r). lia.
  - destruct (bool_decide _); cbn; [|lia]. pose proof (Hd k r). lia.
  - destruct (last r) as [k|]; cbn; [|lia]. pose proof (Hd k r). lia.
  - pose proof (length_filter (fun k => from_option (fun e => isExpiredAt e now) false (m !! k) = false) r). lia.
Qed.

Lemma applyOps_rep ops ht m r : Rep ht m r -> len r + len ops <= maxEntries ->
  forallb sizeInRange ops = true ->
  exists ht', foldM applyOp ht ops = Some ht' /\
    Rep ht' (fold_left specOp ops (m, r)).1 (fold_left specOp ops (m, r)).2.
Proof.
  revert ht m r. induction ops as [|op ops IH]; intros ht m r HR Hroom Hsize; [eauto|].
  rewrite len_cons in Hroom. pose proof (len_nonneg ops). cbn in Hsize.
  apply andb_prop in Hsize as [Hs1 Hs2].
  destruct (applyOp_rep ht m r op HR ltac:(lia) Hs1) as (ht1 & Hop & HR1).
  cbn [foldM fold_left]. rewrite Hop. pose proof (specOp_length (m, r) op) as Hl. cbn [snd] in Hl.
  destruct (specOp (m, r) op) as [m1 r1]. cbn [fst snd] in *. apply IH; [done| |done].
  unfold len in *. lia.
Qed.

End Simulation.

(** ** A concrete table *)

Definition sampleOps : list Op :=
  [PutOp (bs "a") (bs "1"); PutOp (bs "b") (bs "2"); PutExOp (bs "c") (bs "3") 100;
   TouchOp (bs "a"); PutOp (bs "d") (bs "4")].
Definition sampleTable : t := default movedFrom (foldM (applyOp (H := lp64)) (new 2) sampleOps).
Definition sampleMap : gmap bytes Entry := (fold_left specOp sampleOps (∅, [])).1.
Definition sampleOrder : list bytes := (fold_left specOp sampleOps (∅, [])).2.

Lemma sampleTable_rep : Rep (H := lp64) sampleTable sampleMap sampleOrder.
Proof.
  destruct (applyOps_rep (H := lp64) sampleOps (new 2) ∅ []) as (ht & Hrun & HR);
    [by apply new_rep|done|done|].
  unfold sampleTable. by rewrite Hrun.
Qed.

Section Properties.
Context `{Platform}.

(** C6: every sequence of puts, puts with a deadline, removals, touches,
    evictions, full sweeps, resizes and clears on a fresh table is defined (no
    dangling or null pointer is followed), and leaves a table that answers every
    lookup, its size and its most and least recent keys like a finite map with a
    recency order on which the same sequence was run. *)
Theorem table_refines_map n ops :
  0 <= n < 2 ^ 64 -> len ops <= maxEntries -> forallb sizeInRange ops = true ->
  let '(m, r) := fold_left specOp ops (∅, []) in
  exists ht', foldM applyOp (new n) ops = Some ht' /\
    (forall k, get ht' k = Some (evalue <$> m !! k) /\ contains ht' k = Some (bool_decide (is_Some (m !! k)))) /\
    HashTable.size ht' = Z.of_nat (base.size m) /\ isEmpty ht' = bool_decide (m = ∅) /\
    mostRecentKey ht' = Some (head r) /\ leastRecentKey ht' = Some (last r) /\
    NoDup r /\ (forall k, k ∈ r <-> is_Some (m !! k)) /\
    entryBytes ht' = u64 (sumZ (entryFootprint m) r).
Proof.
  intros Hn Hlen Hsize.
  destruct (applyOps_rep ops (new n) ∅ [] (new_rep n Hn)) as (ht & Hrun & HR); [unfold len at 1; simpl; lia|done|].
  destruct (fold_left specOp ops (∅, [])) as [m r]. cbn [fst snd] in HR. exists ht. split_and!.
  - done.
  - intros k. unfold get, contains. rewrite (find_rep _ _ _ k HR). cbn. split; [done|].
    by destruct (m !! k).
  - by eapply Rep_map_size.
  - apply eq_bool_prop_intro. rewrite !Is_true_true, bool_decide_eq_true. by eapply Rep_empty.
  - by eapply Rep_head.
  - by eapply Rep_last.
  - by eapply Rep_NoDup.
  - intros k. by eapply Rep_mem.
  - by eapply Rep_bytes.
Qed.

(** [put] returns whether the key was new, stores the value without a
    deadline, makes the key the most recent one, and never shrinks the bucket
    array. *)
Theorem table_put ht m r key value :
  Rep ht m r -> len r < maxEntries ->
  exists ht', put ht key value = Some (ht', bool_decide (m !! key = None)) /\
    Rep ht' (<[key := mkEntry key value None]> m) (toFront key r) /\
    find ht' key = Some (Some (mkEntry key value None)) /\
    mostRecentKey ht' = Some (Some key) /\ bucketCount ht <= bucketCount ht'.
Proof.
  intros HR Hlen. destruct (put_rep ht m r key value HR Hlen) as (ht' & -> & HR' & Hb & _).
  exists ht'. split_and!; try done.
  - rewrite (find_rep _ _ _ key HR'). by rewrite lookup_insert_eq.
  - by rewrite (Rep_head _ _ _ HR').
Qed.

(** [find], [get] and [contains] follow no bad pointer and answer exactly
    what is stored. *)
Theorem table_lookup ht m r key :
  Rep ht m r ->
  find ht key = Some (m !! key) /\ get ht key = Some (evalue <$> m !! key) /\
  contains ht key = Some (bool_decide (is_Some (m !! key))).
Proof.
  intros HR. unfold get, contains. rewrite (find_rep _ _ _ key HR). cbn. split_and!; [done..|].
  by destruct (m !! key).
Qed.

(** [remove] returns whether the key was stored, unlinks exactly that entry
    from its chain and from the recency list, and leaves the bucket array as it
    was. *)
Theorem table_remove ht m r key :
  Rep ht m r ->
  exists ht', remove ht key = Some (ht', bool_decide (is_Some (m !! key))) /\
    Rep ht' (delete key m) (dropKey key r) /\ find ht' key = Some None /\
    bucketCount ht' = bucketCount ht.
Proof.
  intros HR. destruct (remove_rep ht m r key HR) as (ht' & -> & HR' & Hb).
  exists ht'. split_and!; try done. rewrite (find_rep _ _ _ key HR'). by rewrite lookup_delete_eq.
Qed.

(** [evictOldest] removes the least recently used entry, returns its key,
    and keeps the order of the others. *)
Theorem table_evictOldest ht m k r0 :
  Rep ht m (r0 ++ [k]) ->
  exists ht', evictOldest ht = Some (ht', Some k) /\ Rep ht' (delete k m) r0 /\
    HashTable.size ht' = HashTable.size ht - 1.
Proof.
  intros HR. destruct (evictOldest_rep ht m _ HR) as (ht' & -> & _ & HR').
  rewrite last_snoc in *. exists ht'. split; [done|].
  pose proof (Rep_NoDup _ _ _ HR) as Hnd. rewrite dropKey_mid, app_nil_r in HR' by done.
  split; [done|]. destruct (Rep_size _ _ _ HR) as [Hs _], (Rep_size _ _ _ HR') as [Hs' _].
  unfold HashTable.size. rewrite Hs, Hs'. unfold len. rewrite length_app. simpl. lia.
Qed.

(** One pass of [removeIf] removes exactly the entries that satisfy the
    predicate and lie in the buckets it scans, counts them, and leaves the rest
    in order. *)
Theorem table_removeIf ht m r first toScan pred :
  Rep ht m r -> 0 <= toScan ->
  exists ht' ks, removeIf ht first toScan pred = Some (ht', len ks) /\
    Rep ht' (dropKeys ks m) (dropAll ks r) /\ NoDup ks /\
    (forall k, k ∈ ks <-> exists e, m !! k = Some e /\ pred e = true /\
      bucketIndexFor ht k ∈ scannedBuckets first (bucketCount ht)
        (Z.to_nat (Z.min toScan (bucketCount ht)))).
Proof.
  intros HR Hn. destruct (removeIf_rep ht m r first toScan pred HR Hn)
    as (ht' & ks & -> & HR' & _ & Hnd & Hks). eauto 10.
Qed.

(** [resize] moves every node to its new bucket without losing, duplicating
    or reordering an entry, and brings the load factor to at most 0.75. *)
Theorem table_resize ht m r n :
  Rep ht m r -> 0 <= n <= 2 ^ 63 ->
  exists ht', resize ht n = Some ht' /\ Rep ht' m r /\ n <= bucketCount ht' /\
    4 * HashTable.size ht' <= 3 * bucketCount ht'.
Proof.
  intros HR Hn. destruct (resize_rep ht m r n HR Hn) as (ht' & -> & HR' & Hload & Hle). eauto.
Qed.

End Properties.

(** The bit-smearing [HashTable::roundUpToPowerOfTwo] and the doubling loop
    of Database.cpp compute the same power of two, the least one not below the
    argument, for every argument up to 2^63. *)
Theorem roundUp_equivalent n :
  1 <= n <= 2 ^ 63 ->
  exists k, 0 <= k <= 63 /\ roundUpToPowerOfTwo n = 2 ^ k /\
    dbRoundUpToPowerOfTwo n = Some (2 ^ k) /\ n <= 2 ^ k /\ (forall j, 0 <= j < k -> 2 ^ j < n).
Proof.
  intros Hn. exists (Z.log2_up n). pose proof (log2_up_le_63 n Hn). pose proof (Z.log2_up_nonneg n).
  pose proof (dbRoundUp_value n Hn) as Hdb. pose proof (roundUp_agree n Hn) as Hag.
  rewrite Hdb in Hag. injection Hag as Hag. split_and!; try done; try lia.
  - destruct (Z.eq_dec n 1) as [->|]; [done|]. apply Z.log2_up_spec. lia.
  - intros j Hj. apply Z.log2_up_lt_pow2; lia.
Qed.

(** Above 2^63 the doubling loop never ends, however long it runs, and the
    bit-smearing version wraps around to zero. *)
Theorem roundUp_beyond n fuel :
  2 ^ 63 < n < 2 ^ 64 -> doubleUntil fuel 1 n = None /\ roundUpToPowerOfTwo n = 0.
Proof.
  intros Hn. split.
  - assert (forall f r, r = 0 \/ (exists k, 0 <= k <= 63 /\ r = 2 ^ k) -> doubleUntil f r n = None) as Hloop.
    { induction f as [|f IH]; intros r Hr; cbn [doubleUntil];
        (assert (r < n) as Hlt by (destruct Hr as [->|(k & Hk & ->)]; [lia|];
           assert (2 ^ k <= 2 ^ 63) by (apply Z.pow_le_mono_r; lia); lia));
        (destruct (Z.ltb_spec r n); [|lia]); [done|]. apply IH.
      destruct Hr as [->|(k & Hk & ->)]; [by left|].
      destruct (Z.eq_dec k 63) as [->|]; [by left|]. right. exists (k + 1). split; [lia|].
      rewrite Z.pow_add_r by lia. change (2 ^ 1) with 2. apply u64_small.
      assert (2 ^ k <= 2 ^ 62) by (apply Z.pow_le_mono_r; lia). lia. }
    apply Hloop. right. exists 0. done.
  - rewrite roundUpToPowerOfTwo_value by lia.
    assert (Z.log2_up n = 64) as ->; [|done]. apply Z.le_antisymm.
    + apply Z.log2_up_le_pow2; lia.
    + assert (63 < Z.log2_up n); [|lia]. apply Z.log2_up_lt_pow2; lia.
Qed.

(** The finalizer of [hashKey] loses nothing: the whole 64-bit hash, not
    only the FNV-1a state, separates two keys of which one differs from the other
    in a single byte. *)
Theorem hashKey_single_byte p c c' s :
  c <> c' -> hashKey (p ++ c :: s) <> hashKey (p ++ c' :: s).
Proof.
  intros Hne Heq. unfold hashKey in Heq.
  assert (forall l, 0 <= fold_left fnvStep l kFnvOffsetBasis < 2 ^ 64) as Hr
    by (intros l; apply fold_fnvStep_range; unfold kFnvOffsetBasis; lia).
  apply avalanche_injective in Heq; [|apply Hr..]. rewrite !fold_left_app in Heq. cbn [fold_left] in Heq.
  apply fold_fnvStep_inj in Heq; [|apply fnvStep_range..]. apply Hne.
  eapply fnvStep_inj_byte; [apply (Hr p)|done].
Qed.

(** ** Witnesses *)

Lemma table_refines_map_witness : exists ht',
  foldM (applyOp (H := lp64)) (new 2) sampleOps = Some ht' /\
    get ht' (bs "c") = Some (Some (bs "3")) /\ leastRecentKey ht' = Some (Some (bs "b")).
Proof.
  destruct (table_refines_map (H := lp64) 2 sampleOps) as (ht & Hrun & Hget & _ & _ & _ & Hlast & _);
    [lia|done|done|].
  exists ht. split_and!; [done|apply Hget|done].
Defined.

Lemma table_put_witness : exists ht', put (H := lp64) sampleTable (bs "e") (bs "5") = Some (ht', true) /\
  find ht' (bs "e") = Some (Some (mkEntry (bs "e") (bs "5") None)).
Proof.
  destruct (table_put (H := lp64) sampleTable sampleMap sampleOrder (bs "e") (bs "5") sampleTable_rep)
    as (ht' & Hput & _ & Hfind & _); [done|].
  exists ht'. exact (conj Hput Hfind).
Defined.

Lemma table_lookup_witness : find sampleTable (bs "a") = Some (Some (mkEntry (bs "a") (bs "1") None)).
Proof. exact (proj1 (table_lookup (H := lp64) sampleTable sampleMap sampleOrder (bs "a") sampleTable_rep)). Defined.

Lemma table_remove_witness : exists ht', remove sampleTable (bs "b") = Some (ht', true) /\
  find ht' (bs "b") = Some None.
Proof.
  destruct (table_remove (H := lp64) sampleTable sampleMap sampleOrder (bs "b") sampleTable_rep)
    as (ht' & Hrun & _ & Hfind & _).
  exists ht'. exact (conj Hrun Hfind).
Defined.

Lemma table_evictOldest_witness : exists ht', evictOldest sampleTable = Some (ht', Some (bs "b")).
Proof.
  destruct (table_evictOldest (H := lp64) sampleTable sampleMap (bs "b")
    [bs "d"; bs "a"; bs "c"] sampleTable_rep) as (ht' & Hrun & _).
  exists ht'. exact Hrun.
Defined.

Lemma table_removeIf_witness : exists ht' (ks : list bytes),
  removeIf sampleTable 0 8 (fun e => isExpiredAt e 200) = Some (ht', len ks).
Proof.
  destruct (table_removeIf (H := lp64) sampleTable sampleMap sampleOrder 0 8 (fun e => isExpiredAt e 200)
    sampleTable_rep) as (ht' & ks & Hrun & _); [lia|].
  exists ht', ks. exact Hrun.
Defined.

Lemma table_resize_witness : exists ht', resize sampleTable 32 = Some ht' /\ 32 <= bucketCount ht'.
Proof.
  destruct (table_resize (H := lp64) sampleTable sampleMap sampleOrder 32 sampleTable_rep)
    as (ht' & Hrun & _ & Hle & _); [lia|].
  exists ht'. exact (conj Hrun Hle).
Defined.

Lemma roundUp_equivalent_witness : dbRoundUpToPowerOfTwo 1000 = Some 1024.
Proof.
  destruct (roundUp_equivalent 1000) as (k & _ & Hr & Hd & _); [lia|].
  rewrite Hd, <- Hr. reflexivity.
Defined.

Lemma roundUp_beyond_witness : doubleUntil 1000 1 (2 ^ 63 + 1) = None.
Proof. exact (proj1 (roundUp_beyond (2 ^ 63 + 1) 1000 ltac:(lia))). Defined.

Lemma hashKey_single_byte_witness : hashKey (bs "user:1") <> hashKey (bs "user:2").
Proof. exact (hashKey_single_byte (bs "user:") x31 x32 [] ltac:(done)). Defined.
