(* ===== verification/Store.v ===== *)
(** * The database: data and operations

    [Database.h] and [Database.cpp].  A database is a vector of shards, each a
    hash table with its sweep cursor, eviction counter and slice of the memory
    budget.  Every method runs here as one step; the readings of [Clock::now()]
    it makes are arguments ([now], or [clock i] for the reading made while
    shard [i] is locked).  [None] is undefined behaviour (a bad pointer, a
    signed overflow of a time point) or a loop that does not end. *)
From S2P Require Import Prelude.
From S2P Require Import Hash.
From S2P Require Import Table.

#[local] Open Scope Z_scope.

(** ** Time arithmetic *)

Definition int64Range (z : Z) : bool := (- 2 ^ 63 <=? z) && (z <? 2 ^ 63).

Definition nanosPerSecond : Z := 1000000000.

(** A signed 64-bit result; overflow is undefined. *)
Definition i64 (z : Z) : option Z := if int64Range z then Some z else None.

(** [Clock::now() + ttl]: seconds are converted to nanoseconds first. *)
Definition timeAfter (now ttl : Z) : option time_point :=
  nanos ← i64 (ttl * nanosPerSecond); i64 (now + nanos).

(** [std::chrono::ceil<std::chrono::seconds>(d)]. *)
Definition ceilSeconds (d : Z) : Z :=
  let s := Z.quot d nanosPerSecond in
  if s * nanosPerSecond <? d then s + 1 else s.

Module Database.

(** ** State *)

Inductive SetOutcome := Inserted | Updated | Rejected.

Record Shard := mkShard {
  table : HashTable.t;
  sweepCursor : Z;
  evicted : Z;
  maxMemoryBytes : Z
}.

Record t := mk {
  shards_ : list Shard;
  shardMask_ : Z;
  shardShift_ : Z;
  maxMemoryBytes_ : Z
}.

Definition withTable (ht : HashTable.t) (sh : Shard) : Shard :=
  mkShard ht (sweepCursor sh) (evicted sh) (maxMemoryBytes sh).
Definition withShards (l : list Shard) (db : t) : t :=
  mk l (shardMask_ db) (shardShift_ db) (maxMemoryBytes_ db).

Definition shardCount (db : t) : Z := len (shards_ db).
Definition maxMemory (db : t) : Z := maxMemoryBytes_ db.

(** ** Construction *)

Definition new (initialBucketCount shardCount : Z) : option t :=
  shards ← dbRoundUpToPowerOfTwo (Z.max shardCount 1);
  let bucketsPerShard := Z.max (initialBucketCount / shards) 1 in
  let l := replicate (Z.to_nat shards) (mkShard (HashTable.new bucketsPerShard) 0 0 0) in
  if 1 <? shards then
    bits ← log2OfPowerOfTwo shards;
    Some (mk l (shards - 1) (64 - bits) 0)
  else Some (mk l 0 0 0).

(** ** Routing *)

Definition shardIndexFor (db : t) (key : bytes) : nat :=
  if shardMask_ db =? 0 then 0%nat
  else Z.to_nat (Z.land (Z.shiftr (hashKey key) (shardShift_ db)) (shardMask_ db)).

Definition shardFor (db : t) (key : bytes) : option Shard :=
  shards_ db !! shardIndexFor db key.

Definition storeShard (db : t) (key : bytes) (sh : Shard) : t :=
  withShards (<[shardIndexFor db key := sh]> (shards_ db)) db.

(** ** Memory limit *)

Definition fitsWithinLimit `{Platform} (db : t) (key value : bytes) : bool :=
  let limit := maxMemoryBytes_ db in
  if limit =? 0 then true
  else HashTable.footprintEstimate key value <=? limit.

(** The eviction loop; [fuel] bounds the iterations. *)
Fixpoint evictLoop `{Platform} (fuel : nat) (sh : Shard) : option Shard :=
  if (maxMemoryBytes sh <? HashTable.memoryUsage (table sh)) && (1 <? HashTable.size (table sh))
  then
    match fuel with
    | O => None
    | S fuel' =>
        r ← HashTable.evictOldest (table sh);
        match snd r with
        | None => Some (withTable (fst r) sh)
        | Some _ =>
            evictLoop fuel'
              (mkShard (fst r) (sweepCursor sh) (u64 (evicted sh + 1)) (maxMemoryBytes sh))
        end
    end
  else Some sh.

(** Each iteration removes an entry, so as many iterations as there are entries
    are enough. *)
Definition evictToFit `{Platform} (sh : Shard) : option Shard :=
  if maxMemoryBytes sh =? 0 then Some sh
  else evictLoop (Z.to_nat (HashTable.size (table sh))) sh.

(** ** Single-key operations *)

Definition set `{Platform} (db : t) (key value : bytes) : option (t * SetOutcome) :=
  sh ← shardFor db key;
  if negb (fitsWithinLimit db key value) then Some (db, Rejected)
  else
    r ← HashTable.put (table sh) key value;
    sh ← evictToFit (withTable (fst r) sh);
    Some (storeShard db key sh, if snd r : bool then Inserted else Updated).

(** [set] with a time to live, in seconds. *)
Definition setEx `{Platform} (db : t) (key value : bytes) (ttl : Z) (now : time_point)
    : option (t * SetOutcome) :=
  sh ← shardFor db key;
  if negb (fitsWithinLimit db key value) then Some (db, Rejected)
  else
    r ← HashTable.put (table sh) key value;
    deadline ← timeAfter now ttl;
    ht ← HashTable.setExpiration (fst r) key (Some deadline);
    sh ← evictToFit (withTable ht sh);
    Some (storeShard db key sh, if snd r : bool then Inserted else Updated).

Definition get `{Platform} (db : t) (key : bytes) (now : time_point)
    : option (t * option bytes) :=
  sh ← shardFor db key;
  found ← HashTable.find (table sh) key;
  match found with
  | None => Some (db, None)
  | Some e =>
      if isExpiredAt e now then Some (db, None)
      else if negb (maxMemoryBytes sh =? 0) then
        r ← HashTable.touch (table sh) key;
        Some (storeShard db key (withTable (fst r) sh), Some (evalue e))
      else Some (db, Some (evalue e))
  end.

Definition ttl (db : t) (key : bytes) (now : time_point) : option (option Z) :=
  sh ← shardFor db key;
  found ← HashTable.find (table sh) key;
  match found with
  | None => Some None
  | Some e =>
      match expiration e with
      | None => Some None
      | Some deadline =>
          remaining ← i64 (deadline - now);
          if remaining <=? 0 then Some None else Some (Some (ceilSeconds remaining))
      end
  end.

Definition del (db : t) (key : bytes) (now : time_point) : option (t * bool) :=
  sh ← shardFor db key;
  found ← HashTable.find (table sh) key;
  match found with
  | None => Some (db, false)
  | Some e =>
      let wasLive := negb (isExpiredAt e now) in
      r ← HashTable.remove (table sh) key;
      Some (storeShard db key (withTable (fst r) sh), wasLive)
  end.

Definition exists_ (db : t) (key : bytes) (now : time_point) : option bool :=
  sh ← shardFor db key;
  found ← HashTable.find (table sh) key;
  Some (match found with None => false | Some e => negb (isExpiredAt e now) end).

(** ** Whole-keyspace operations, one shard at a time *)

Fixpoint keysFrom (clock : nat -> time_point) (i : nat) (l : list Shard) : option (list bytes) :=
  match l with
  | [] => Some []
  | sh :: l' =>
      let now := clock i in
      fromShard ← HashTable.keysWhere (table sh) (fun e => negb (isExpiredAt e now));
      rest ← keysFrom clock (S i) l';
      Some (fromShard ++ rest)
  end.

Definition keys (db : t) (clock : nat -> time_point) : option (list bytes) :=
  keysFrom clock 0 (shards_ db).

(** [total += f(shard)] over the shards, in [std::size_t]. *)
Definition sumShards (f : Shard -> Z) (db : t) : Z :=
  fold_left (fun total sh => u64 (total + f sh)) (shards_ db) 0.

Definition size (db : t) : Z := sumShards (fun sh => HashTable.size (table sh)) db.
Definition bucketCount (db : t) : Z := sumShards (fun sh => HashTable.bucketCount (table sh)) db.
Definition memoryUsage `{Platform} (db : t) : Z :=
  sumShards (fun sh => HashTable.memoryUsage (table sh)) db.
Definition evictedCount (db : t) : Z := sumShards evicted db.

Definition isEmpty (db : t) : bool :=
  forallb (fun sh => HashTable.isEmpty (table sh)) (shards_ db).

(** One shard of [removeExpired]. *)
Definition sweepShard (perShard : Z) (now : time_point) (sh : Shard) : option (Shard * Z) :=
  let buckets := HashTable.bucketCount (table sh) in
  if buckets =? 0 then Some (sh, 0)
  else
    let cursor := if buckets <=? sweepCursor sh then 0 else sweepCursor sh in
    let scanned := Z.min perShard buckets in
    r ← HashTable.removeIf (table sh) cursor scanned (fun e => isExpiredAt e now);
    Some (mkShard (fst r) (u64 (cursor + scanned) mod buckets) (evicted sh) (maxMemoryBytes sh),
          snd r).

Fixpoint sweepFrom (perShard : Z) (clock : nat -> time_point) (i : nat) (l : list Shard)
    (removed : Z) : option (list Shard * Z) :=
  match l with
  | [] => Some ([], removed)
  | sh :: l' =>
      r ← sweepShard perShard (clock i) sh;
      rest ← sweepFrom perShard clock (S i) l' (u64 (removed + snd r));
      Some (fst r :: fst rest, snd rest)
  end.

Definition removeExpired (db : t) (maxBuckets : Z) (clock : nat -> time_point)
    : option (t * Z) :=
  if maxBuckets =? 0 then Some (db, 0)
  else
    let perShard := Z.max (maxBuckets / shardCount db) 1 in
    r ← sweepFrom perShard clock 0 (shards_ db) 0;
    Some (withShards (fst r) db, snd r).

Fixpoint snapshotFrom (clock : nat -> time_point) (i : nat) (l : list Shard)
    : option (list Entry) :=
  match l with
  | [] => Some []
  | sh :: l' =>
      let now := clock i in
      fromShard ← HashTable.entriesWhere (table sh) (fun e => negb (isExpiredAt e now));
      rest ← snapshotFrom clock (S i) l';
      Some (fromShard ++ rest)
  end.

Definition snapshot (db : t) (clock : nat -> time_point) : option (list Entry) :=
  snapshotFrom clock 0 (shards_ db).

(** [shard->table.clear(); shard->sweepCursor = 0;] *)
Definition clearShard (sh : Shard) : option Shard :=
  ht ← HashTable.clear (table sh);
  Some (mkShard ht 0 (evicted sh) (maxMemoryBytes sh)).

Definition clear (db : t) : option t :=
  l ← mapM clearShard (shards_ db); Some (withShards l db).

(** One iteration of the loop of [restore]. *)
Definition restoreEntry `{Platform} (now : time_point) (st : t * Z) (e : Entry)
    : option (t * Z) :=
  let '(db, stored) := st in
  if isExpiredAt e now then Some (db, stored)
  else
    sh ← shardFor db (ekey e);
    r ← HashTable.put (table sh) (ekey e) (evalue e);
    ht ← (if hasExpiration e then HashTable.setExpiration (fst r) (ekey e) (expiration e)
          else Some (fst r));
    Some (storeShard db (ekey e) (withTable ht sh), u64 (stored + 1)).

Definition restore `{Platform} (db : t) (entries : list Entry) (now : time_point)
    : option (t * Z) :=
  db ← clear db;
  foldM (restoreEntry now) (db, 0) entries.

Definition limitShard `{Platform} (perShard : Z) (sh : Shard) : option Shard :=
  evictToFit (mkShard (table sh) (sweepCursor sh) (evicted sh) perShard).

Definition setMaxMemory `{Platform} (db : t) (bytes : Z) : option t :=
  let perShard := if bytes =? 0 then 0 else Z.max (bytes / shardCount db) 1 in
  l ← mapM (limitShard perShard) (shards_ db);
  Some (mk l (shardMask_ db) (shardShift_ db) bytes).

End Database.
