(* ===== verification/StoreSpec.v ===== *)
(** * What the database promises: routing, limits and single-key operations

    The abstract view of a [Database]: one finite map for the whole keyspace and
    a recency order per shard.  Shard [i] holds the part of the map whose keys
    route to it.  Expired entries stay in the map until they are reclaimed; what
    a client may see of the map at an instant is [visible]. *)
From S2P Require Import Prelude.
From S2P Require Import Hash.
From S2P Require Import Table.
From S2P Require Import RecencyList.
From S2P Require Import TableInv.
From S2P Require Import TableSpec.
From S2P Require Import TableSweep.
From S2P Require Import Store.
Import Database.

#[local] Open Scope Z_scope.

(** ** The abstract view *)

(** The part of the keyspace that belongs to shard [i]. *)
Definition shardMap (db : t) (m : gmap bytes Entry) (i : nat) : gmap bytes Entry :=
  filter (fun kv => shardIndexFor db kv.1 = i) m.

(** The shard vector has 2^s elements and the routing fields match. *)
Definition geometry (db : t) : Prop :=
  exists s, 0 <= s <= 63 /\ len (shards_ db) = 2 ^ s /\
    ((s = 0 /\ shardMask_ db = 0) \/
     (0 < s /\ shardMask_ db = 2 ^ s - 1 /\ shardShift_ db = 64 - s)).

(** A shard's slice of a global limit. *)
Definition sliceOf (limit shards : Z) : Z := if limit =? 0 then 0 else Z.max (limit / shards) 1.

(** [dbRep db m rs]: the database holds the keyspace [m]; [rs] lists the recency
    order of each shard. *)
Record dbRep `{Platform} (db : t) (m : gmap bytes Entry) (rs : list (list bytes)) : Prop := {
  dr_geometry : geometry db;
  dr_length : length rs = length (shards_ db);
  dr_shard : forall i sh r, shards_ db !! i = Some sh -> rs !! i = Some r ->
    Rep (table sh) (shardMap db m i) r;
  dr_limit : 0 <= maxMemoryBytes_ db;
  dr_slice : forall sh, sh ∈ shards_ db ->
    maxMemoryBytes sh = sliceOf (maxMemoryBytes_ db) (len (shards_ db));
  dr_cursor : forall sh, sh ∈ shards_ db -> 0 <= sweepCursor sh < 2 ^ 64
}.

(** The bytes a shard accounts for when it holds the keys [r] in [n] buckets. *)
Definition usage `{Platform} (m : gmap bytes Entry) (r : list bytes) (n : Z) : Z :=
  u64 (u64 (sumZ (entryFootprint m) r) + u64 (n * sizeofUniquePtr)).

(** What trimming a shard to [limit] does to its recency order: the least recent
    keys go, no more of them than necessary, and the most recent key stays. *)
Record evicts `{Platform} (limit n : Z) (m : gmap bytes Entry) (r r' victims : list bytes)
    : Prop := {
  ev_split : r = r' ++ victims;
  ev_unlimited : limit = 0 -> victims = [];
  ev_fits : limit <> 0 -> usage m r' n <= limit \/ len r' <= 1;
  ev_needed : forall j : nat, (length r' < j <= length r)%nat -> limit < usage m (take j r) n;
  ev_head : forall k r0, r = k :: r0 -> exists r1, r' = k :: r1
}.

(** The keys a client may see at an instant. *)
Definition visible (m : gmap bytes Entry) (now : time_point) : gmap bytes Entry :=
  filter (fun kv => isExpiredAt kv.2 now = false) m.

(** ** Routing *)

Lemma elem_of_take_l {A} (x : A) n l : x ∈ take n l -> x ∈ l.
Proof. intros Hx. rewrite <- (take_drop n l), elem_of_app. by left. Qed.

Lemma shardMap_lookup db m i k :
  shardMap db m i !! k = if decide (shardIndexFor db k = i) then m !! k else None.
Proof.
  unfold shardMap. rewrite map_lookup_filter. destruct (m !! k) as [e|]; simpl.
  - case_decide as Hd; case_guard; done.
  - by case_decide.
Qed.

Lemma shardMap_own db m k : shardMap db m (shardIndexFor db k) !! k = m !! k.
Proof. rewrite shardMap_lookup. by rewrite decide_True. Qed.

Lemma shardMap_insert db m k e :
  shardMap db (<[k := e]> m) (shardIndexFor db k) = <[k := e]> (shardMap db m (shardIndexFor db k)).
Proof.
  apply map_eq. intros x. rewrite shardMap_lookup, !lookup_insert, shardMap_lookup.
  destruct (decide (k = x)) as [->|]; [by rewrite decide_True|done].
Qed.

Lemma shardMap_dropKeys db m i ks : shardMap db (dropKeys ks m) i = dropKeys ks (shardMap db m i).
Proof.
  apply map_eq. intros x. rewrite dropKeys_lookup, !shardMap_lookup, dropKeys_lookup.
  by repeat case_decide.
Qed.

Lemma shardMap_delete db m i k : shardMap db (delete k m) i = delete k (shardMap db m i).
Proof. apply (shardMap_dropKeys db m i [k]). Qed.

Lemma shardMap_size db m i : (base.size (shardMap db m i) <= base.size m)%nat.
Proof. apply map_size_filter. Qed.

Lemma shardIndexFor_lt db key : geometry db -> (shardIndexFor db key < length (shards_ db))%nat.
Proof.
  intros (s & Hs & Hlen & Hcase). unfold shardIndexFor, len in *.
  destruct Hcase as [[-> ->]|(Hpos & -> & ->)].
  - simpl. lia.
  - assert (2 ^ 1 <= 2 ^ s) by (apply Z.pow_le_mono_r; lia).
    destruct (Z.eqb_spec (2 ^ s - 1) 0); [lia|].
    pose proof (land_mask_range (Z.shiftr (hashKey key) (64 - s)) s). lia.
Qed.

Section Single.
Context `{Platform}.

(** The shard of a key, with its recency order. *)
Lemma shardFor_rep db m rs key :
  dbRep db m rs ->
  exists sh r, shardFor db key = Some sh /\ rs !! shardIndexFor db key = Some r /\
    Rep (table sh) (shardMap db m (shardIndexFor db key)) r /\
    maxMemoryBytes sh = sliceOf (maxMemoryBytes_ db) (len (shards_ db)).
Proof.
  intros HD. pose proof (shardIndexFor_lt db key (dr_geometry _ _ _ HD)) as Hlt.
  destruct (lookup_lt_is_Some_2 _ _ Hlt) as [sh Hsh].
  rewrite <- (dr_length _ _ _ HD) in Hlt. destruct (lookup_lt_is_Some_2 _ _ Hlt) as [r Hr].
  exists sh, r. split_and!; [done|done|by eapply dr_shard|].
  eapply dr_slice; [done|]. by eapply list_elem_of_lookup_2.
Qed.

Lemma dbRep_key db m rs k e : dbRep db m rs -> m !! k = Some e -> ekey e = k.
Proof.
  intros HD Hk. destruct (shardFor_rep db m rs k HD) as (sh & r & _ & _ & HR & _).
  eapply Rep_key; [exact HR|]. by rewrite shardMap_own.
Qed.

(** Replacing one shard. *)
Lemma dbRep_put db m rs i sh sh' m' r' :
  dbRep db m rs -> shards_ db !! i = Some sh -> Rep (table sh') (shardMap db m' i) r' ->
  (forall k, shardIndexFor db k <> i -> m' !! k = m !! k) ->
  maxMemoryBytes sh' = maxMemoryBytes sh -> 0 <= sweepCursor sh' < 2 ^ 64 ->
  dbRep (withShards (<[i := sh']> (shards_ db)) db) m' (<[i := r']> rs).
Proof.
  intros [G L S Hl Sl Cu] Hsh HR' Hm' Hmax Hcur.
  pose proof (lookup_lt_Some _ _ _ Hsh) as Hlt.
  assert (sh ∈ shards_ db) as Hshin by by eapply list_elem_of_lookup_2.
  constructor; simpl.
  - destruct G as (s & Hs & Hlen & Hcase). exists s. simpl. unfold len in *.
    by rewrite length_insert.
  - by rewrite !length_insert.
  - intros j x r Hj Hr. destruct (decide (i = j)) as [<-|Hne].
    + rewrite list_lookup_insert_eq in Hj by done.
      rewrite list_lookup_insert_eq in Hr by (by rewrite L). by simplify_eq.
    + rewrite list_lookup_insert_ne in Hj by done. rewrite list_lookup_insert_ne in Hr by done.
      enough (shardMap db m' j = shardMap db m j) as Heq by (change (Rep (table x) (shardMap db m' j) r); rewrite Heq; by eapply S).
      apply map_eq. intros k. rewrite !shardMap_lookup. case_decide as Hk; [|done].
      apply Hm'. congruence.
  - done.
  - intros x Hx. unfold len in *. rewrite length_insert.
    apply elem_of_insert_new in Hx as [->|Hx]; [|by apply Sl]. rewrite Hmax. by apply Sl.
  - intros x Hx. apply elem_of_insert_new in Hx as [->|Hx]; [done|by apply Cu].
Qed.

(** Storing the shard of a key back. *)
Lemma dbRep_store db m rs key sh sh' m' r' :
  dbRep db m rs -> shardFor db key = Some sh ->
  Rep (table sh') (shardMap db m' (shardIndexFor db key)) r' ->
  (forall k, shardIndexFor db k <> shardIndexFor db key -> m' !! k = m !! k) ->
  maxMemoryBytes sh' = maxMemoryBytes sh -> sweepCursor sh' = sweepCursor sh ->
  dbRep (storeShard db key sh') m' (<[shardIndexFor db key := r']> rs).
Proof.
  intros HD Hsh HR Hm' Hmax Hcur. eapply dbRep_put; try done. rewrite Hcur.
  eapply dr_cursor; [exact HD|]. by eapply list_elem_of_lookup_2.
Qed.

(** ** Eviction *)

Lemma Rep_usage ht m r : Rep ht m r -> HashTable.memoryUsage ht = usage m r (HashTable.bucketCount ht).
Proof. intros HR. unfold HashTable.memoryUsage, usage. by rewrite (Rep_bytes _ _ _ HR). Qed.

Lemma usage_ext m m' r n :
  (forall k, k ∈ r -> m !! k = m' !! k) -> usage m r n = usage m' r n.
Proof.
  intros Hext. unfold usage. do 3 f_equal. apply sumZ_ext. intros k Hk.
  unfold entryFootprint. by rewrite Hext.
Qed.

(** One more victim behind those of the rest of the loop. *)
Lemma evicts_snoc limit n m r r' vs v :
  NoDup (r ++ [v]) -> r <> [] -> limit <> 0 -> limit < usage m (r ++ [v]) n ->
  evicts limit n (delete v m) r r' vs -> evicts limit n m (r ++ [v]) r' (vs ++ [v]).
Proof.
  intros Hnd Hne Hlim Hover [-> _ E3 E4 E5].
  assert (forall j : nat, (j <= length (r' ++ vs))%nat ->
    usage (delete v m) (take j (r' ++ vs)) n = usage m (take j ((r' ++ vs) ++ [v])) n) as Husage.
  { intros j Hj. rewrite (take_app_le (r' ++ vs)) by done. apply usage_ext. intros k Hk.
    apply lookup_delete_ne. intros <-. apply NoDup_app in Hnd as (_ & Hnd & _).
    apply (Hnd v); [|by apply list_elem_of_singleton]. by eapply elem_of_take_l. }
  constructor.
  - by rewrite app_assoc.
  - done.
  - intros _. destruct (E3 Hlim) as [Hu|]; [left|by right].
    specialize (Husage (length r')). rewrite <- app_assoc in Husage.
    rewrite !take_app_length in Husage. rewrite <- Husage; [done|]. rewrite length_app. lia.
  - intros j Hj. destruct (decide (j = length ((r' ++ vs) ++ [v]))) as [->|Hj'].
    + rewrite firstn_all. lia.
    + rewrite length_app in Hj, Hj'. simpl in Hj, Hj'. rewrite <- Husage by lia. apply E4. lia.
  - intros k r0 Heq. destruct (r' ++ vs) as [|x l] eqn:Hrv; [done|]. simplify_eq/=. by eapply E5.
Qed.

Lemma evictLoop_rep fuel sh m r :
  Rep (table sh) m r -> (length r <= fuel)%nat -> maxMemoryBytes sh <> 0 ->
  exists sh' r' victims, evictLoop fuel sh = Some sh' /\
    evicts (maxMemoryBytes sh) (HashTable.bucketCount (table sh)) m r r' victims /\
    Rep (table sh') (dropKeys victims m) r' /\
    evicted sh' = (if decide (victims = []) then evicted sh else u64 (evicted sh + len victims)) /\
    maxMemoryBytes sh' = maxMemoryBytes sh /\ sweepCursor sh' = sweepCursor sh /\
    HashTable.bucketCount (table sh') = HashTable.bucketCount (table sh).
Proof.
  revert sh m r. induction fuel as [|fuel IH]; intros sh m r HR Hf Hlim; simpl;
    destruct (Rep_size _ _ _ HR) as [Hsize _]; rewrite (Rep_usage _ _ _ HR);
    unfold HashTable.size; rewrite Hsize;
    destruct (Z.ltb_spec (maxMemoryBytes sh) (usage m r (HashTable.bucketCount (table sh)))) as [Hover|Hfits];
    destruct (Z.ltb_spec 1 (len r)) as [Hbig|Hone]; simpl;
    try (exists sh, r, []; split_and!; try done; constructor;
         [by rewrite app_nil_r|done|intros _; lia|lia|intros k r0 ->; eauto]).
  - unfold len in Hbig. lia.
  - destruct (evictOldest_rep (table sh) m r HR) as (ht1 & -> & Hcount1 & Hlast). simpl.
    destruct (last r) as [v|] eqn:Hv.
    2:{ apply last_None in Hv as ->. unfold len in Hbig. simpl in Hbig. lia. }
    apply last_Some in Hv as [r1 ->].
    pose proof (Rep_NoDup _ _ _ HR) as Hnd.
    assert (dropKey v (r1 ++ [v]) = r1) as Hdrop by (rewrite dropKey_mid by done; apply app_nil_r).
    rewrite Hdrop in Hlast.
    set (sh1 := mkShard ht1 (sweepCursor sh) (u64 (evicted sh + 1)) (maxMemoryBytes sh)).
    destruct (IH sh1 (delete v m) r1) as (sh' & r' & vs & -> & HE & HR' & Hev & Hm & Hc & Hb);
      [done|rewrite length_app in Hf; simpl in Hf; lia|done|].
    exists sh', r', (vs ++ [v]). simpl in *. rewrite Hcount1 in HE. split_and!; [done| | |..].
    + apply evicts_snoc; try done. intros ->. unfold len in Hbig. simpl in Hbig. lia.
    + by rewrite dropKeys_app.
    + rewrite Hev. destruct (decide (vs ++ [v] = [])) as [Hn|_]; [by destruct vs|].
      rewrite len_app. case_decide as Hvs; [by subst vs|].
      rewrite u64_idemp_add_l. f_equal. unfold len. simpl. lia.
    + done.
    + done.
    + congruence.
Qed.

Lemma evictToFit_rep sh m r :
  Rep (table sh) m r ->
  exists sh' r' victims, evictToFit sh = Some sh' /\
    evicts (maxMemoryBytes sh) (HashTable.bucketCount (table sh)) m r r' victims /\
    Rep (table sh') (dropKeys victims m) r' /\
    evicted sh' = (if decide (victims = []) then evicted sh else u64 (evicted sh + len victims)) /\
    maxMemoryBytes sh' = maxMemoryBytes sh /\ sweepCursor sh' = sweepCursor sh /\
    HashTable.bucketCount (table sh') = HashTable.bucketCount (table sh).
Proof.
  intros HR. unfold evictToFit. destruct (Z.eqb_spec (maxMemoryBytes sh) 0) as [H0|H0].
  - exists sh, r, []. split_and!; try done. constructor;
      [by rewrite app_nil_r|done|lia|lia|intros k r0 ->; eauto].
  - apply evictLoop_rep; [done| |done]. destruct (Rep_size _ _ _ HR) as [Hs _].
    unfold HashTable.size. rewrite Hs. unfold len. lia.
Qed.

Lemma evicts_ext limit n m m' r r' vs :
  (forall k, k ∈ r -> m !! k = m' !! k) -> evicts limit n m r r' vs -> evicts limit n m' r r' vs.
Proof.
  intros Hext [E1 E2 E3 E4 E5]. constructor; try done.
  - intros Hl. rewrite <- (usage_ext m m'); [auto|]. intros k Hk. apply Hext.
    rewrite E1, elem_of_app. by left.
  - intros j Hj. rewrite <- (usage_ext m m'); [auto|]. intros k Hk. apply Hext.
    by eapply elem_of_take_l.
Qed.

Lemma Rep_shard_mem ht db m i r k :
  Rep ht (shardMap db m i) r -> k ∈ r -> shardIndexFor db k = i /\ is_Some (m !! k).
Proof.
  intros HR Hk. rewrite (Rep_mem _ _ _ _ HR), shardMap_lookup in Hk.
  by case_decide; [|destruct Hk].
Qed.

(** Writing an entry into its shard and trimming the shard. *)
Lemma write_and_evict db m rs key sh ht e r :
  dbRep db m rs -> shardFor db key = Some sh ->
  Rep ht (<[key := e]> (shardMap db m (shardIndexFor db key))) (toFront key r) ->
  exists sh' r' victims, evictToFit (withTable ht sh) = Some sh' /\
    evicts (maxMemoryBytes sh) (HashTable.bucketCount ht) (<[key := e]> m) (toFront key r) r' victims /\
    dbRep (storeShard db key sh') (dropKeys victims (<[key := e]> m))
      (<[shardIndexFor db key := r']> rs) /\
    (key ∉ victims) /\ (forall k, k ∈ victims -> shardIndexFor db k = shardIndexFor db key) /\
    shardFor (storeShard db key sh') key = Some sh' /\
    HashTable.bucketCount (table sh') = HashTable.bucketCount ht.
Proof.
  intros HD Hsh HR. rewrite <- shardMap_insert in HR.
  destruct (evictToFit_rep (withTable ht sh) _ _ HR)
    as (sh' & r' & vs & -> & HE & HR' & _ & Hm & Hc & Hb). simpl in *.
  pose proof (Rep_NoDup _ _ _ HR) as Hnd.
  assert (forall k, k ∈ vs -> shardIndexFor db k = shardIndexFor db key) as Hvs.
  { intros k Hk. eapply Rep_shard_mem; [exact HR|]. rewrite (ev_split _ _ _ _ _ _ HE), elem_of_app. by right. }
  assert (key ∉ vs) as Hkey.
  { intros Hk. destruct (ev_head _ _ _ _ _ _ HE key (dropKey key r) eq_refl) as [r1 ->].
    rewrite (ev_split _ _ _ _ _ _ HE) in Hnd. simpl in Hnd. apply NoDup_cons in Hnd as [Hnd _].
    apply Hnd. rewrite elem_of_app. by right. }
  exists sh', r', vs. split_and!; try done.
  - eapply evicts_ext; [|exact HE]. intros k Hk.
    destruct (Rep_shard_mem _ _ _ _ _ _ HR Hk) as [<- _]. apply shardMap_own.
  - eapply dbRep_store; [done|done| | |done|done].
    + by rewrite shardMap_dropKeys.
    + intros k Hk. rewrite dropKeys_lookup, decide_False by (by intros ?%Hvs).
      apply lookup_insert_ne. by intros <-.
  - unfold shardFor, storeShard in *. simpl. apply list_lookup_insert_eq.
    by eapply lookup_lt_Some.
Qed.

(** The room a write needs. *)
Lemma shard_room db m i ht r :
  Rep ht (shardMap db m i) r -> Z.of_nat (base.size m) < maxEntries -> len r < maxEntries.
Proof.
  intros HR Hroom. pose proof (Rep_map_size _ _ _ HR) as Hs. destruct (Rep_size _ _ _ HR) as [Hz _].
  unfold HashTable.size in Hs. pose proof (shardMap_size db m i). lia.
Qed.

(** ** SET *)

Lemma set_rep db m rs key value :
  dbRep db m rs -> Z.of_nat (base.size m) < maxEntries -> fitsWithinLimit db key value = true ->
  exists db' sh' r r' victims,
    set db key value = Some (db', if m !! key is Some _ then Updated else Inserted) /\
    rs !! shardIndexFor db key = Some r /\ shardFor db' key = Some sh' /\
    dbRep db' (dropKeys victims (<[key := mkEntry key value None]> m))
      (<[shardIndexFor db key := r']> rs) /\
    evicts (sliceOf (maxMemoryBytes_ db) (len (shards_ db))) (HashTable.bucketCount (table sh'))
      (<[key := mkEntry key value None]> m) (toFront key r) r' victims /\
    (key ∉ victims) /\ maxMemoryBytes_ db' = maxMemoryBytes_ db.
Proof.
  intros HD Hroom Hfit. destruct (shardFor_rep db m rs key HD) as (sh & r & Hsh & Hr & HR & Hslice).
  unfold set. rewrite Hsh. simpl. rewrite Hfit. simpl.
  destruct (put_rep (table sh) _ r key value HR) as (ht & -> & HR1 & _); [by eapply shard_room|].
  simpl. destruct (write_and_evict db m rs key sh ht _ r HD Hsh HR1)
    as (sh' & r' & vs & -> & HE & HD' & Hk & _ & Hsh' & Hb). simpl.
  exists (storeShard db key sh'), sh', r, r', vs.
  rewrite <- Hslice, shardMap_own, Hb. split_and!; try done.
  by destruct (m !! key).
Qed.

Lemma set_rejected db m rs key value :
  dbRep db m rs -> fitsWithinLimit db key value = false ->
  set db key value = Some (db, Rejected).
Proof.
  intros HD Hfit. destruct (shardFor_rep db m rs key HD) as (sh & r & Hsh & _).
  unfold set. rewrite Hsh. simpl. by rewrite Hfit.
Qed.

Lemma setEx_rep db m rs key value ttl now deadline :
  dbRep db m rs -> Z.of_nat (base.size m) < maxEntries -> fitsWithinLimit db key value = true ->
  timeAfter now ttl = Some deadline ->
  exists db' sh' r r' victims,
    setEx db key value ttl now = Some (db', if m !! key is Some _ then Updated else Inserted) /\
    rs !! shardIndexFor db key = Some r /\ shardFor db' key = Some sh' /\
    dbRep db' (dropKeys victims (<[key := mkEntry key value (Some deadline)]> m))
      (<[shardIndexFor db key := r']> rs) /\
    evicts (sliceOf (maxMemoryBytes_ db) (len (shards_ db))) (HashTable.bucketCount (table sh'))
      (<[key := mkEntry key value (Some deadline)]> m) (toFront key r) r' victims /\
    (key ∉ victims) /\ maxMemoryBytes_ db' = maxMemoryBytes_ db.
Proof.
  intros HD Hroom Hfit Htime.
  destruct (shardFor_rep db m rs key HD) as (sh & r & Hsh & Hr & HR & Hslice).
  unfold setEx. rewrite Hsh. simpl. rewrite Hfit. simpl.
  destruct (put_rep (table sh) _ r key value HR) as (ht & -> & HR1 & _); [by eapply shard_room|].
  simpl. rewrite Htime. simpl.
  destruct (setExpiration_rep ht _ _ key (mkEntry key value None) (Some deadline) HR1)
    as (ht2 & -> & HR2 & _); [apply lookup_insert_eq|]. simpl in HR2 |- *.
  rewrite insert_insert_eq in HR2.
  destruct (write_and_evict db m rs key sh ht2 _ r HD Hsh HR2)
    as (sh' & r' & vs & -> & HE & HD' & Hk & _ & Hsh' & Hb). simpl.
  exists (storeShard db key sh'), sh', r, r', vs.
  rewrite <- Hslice, shardMap_own, Hb. split_and!; try done.
  by destruct (m !! key).
Qed.

Lemma setEx_rejected db m rs key value ttl now :
  dbRep db m rs -> fitsWithinLimit db key value = false ->
  setEx db key value ttl now = Some (db, Rejected).
Proof.
  intros HD Hfit. destruct (shardFor_rep db m rs key HD) as (sh & r & Hsh & _).
  unfold setEx. rewrite Hsh. simpl. by rewrite Hfit.
Qed.

(** ** GET, EXISTS, DEL, TTL *)

Lemma visible_lookup m now k :
  visible m now !! k =
    match m !! k with Some e => if isExpiredAt e now then None else Some e | None => None end.
Proof.
  unfold visible. rewrite map_lookup_filter. destruct (m !! k) as [e|]; simpl; [|done].
  destruct (isExpiredAt e now) eqn:E; case_guard; simpl; congruence.
Qed.

(** There is no slice exactly when there is no limit. *)
Lemma slice_zero limit shards : (sliceOf limit shards =? 0) = (limit =? 0).
Proof.
  unfold sliceOf. destruct (Z.eqb_spec limit 0); [done|].
  destruct (Z.eqb_spec (Z.max (limit / shards) 1) 0); [lia|done].
Qed.

Lemma get_rep db m rs key now :
  dbRep db m rs ->
  exists db' rs', get db key now = Some (db', evalue <$> visible m now !! key) /\
    dbRep db' m rs' /\ maxMemoryBytes_ db' = maxMemoryBytes_ db /\
    (forall r, rs !! shardIndexFor db key = Some r ->
      rs' = if bool_decide (is_Some (visible m now !! key)) && negb (maxMemoryBytes_ db =? 0)
            then <[shardIndexFor db key := toFront key r]> rs else rs).
Proof.
  intros HD. destruct (shardFor_rep db m rs key HD) as (sh & r & Hsh & Hr & HR & Hslice).
  unfold get. rewrite Hsh. simpl. rewrite (find_rep _ _ _ _ HR). simpl.
  rewrite shardMap_own, visible_lookup. destruct (m !! key) as [e|] eqn:Hm; simpl.
  2:{ by exists db, rs. }
  destruct (isExpiredAt e now); simpl.
  { by exists db, rs. }
  rewrite Hslice, slice_zero.
  destruct (maxMemoryBytes_ db =? 0) eqn:H0; simpl.
  { exists db, rs. split_and!; try done. }
  destruct (touch_rep (table sh) _ r key HR) as (ht & -> & HR' & _). simpl.
  rewrite shardMap_own, Hm, bool_decide_true in HR' by eauto.
  eexists _, _. split_and!; [done| |done|].
  - eapply dbRep_store; [done|done|exact HR'|done|done|done].
  - intros r0 Hr0. rewrite Hr in Hr0. by simplify_eq.
Qed.

Lemma exists_rep db m rs key now :
  dbRep db m rs -> exists_ db key now = Some (bool_decide (is_Some (visible m now !! key))).
Proof.
  intros HD. destruct (shardFor_rep db m rs key HD) as (sh & r & Hsh & Hr & HR & Hslice).
  unfold exists_. rewrite Hsh. simpl. rewrite (find_rep _ _ _ _ HR). simpl.
  rewrite shardMap_own, visible_lookup. destruct (m !! key) as [e|]; simpl; [|done].
  by destruct (isExpiredAt e now).
Qed.

Lemma del_rep db m rs key now :
  dbRep db m rs ->
  exists db' rs', del db key now = Some (db', bool_decide (is_Some (visible m now !! key))) /\
    dbRep db' (delete key m) rs' /\ maxMemoryBytes_ db' = maxMemoryBytes_ db.
Proof.
  intros HD. destruct (shardFor_rep db m rs key HD) as (sh & r & Hsh & Hr & HR & Hslice).
  unfold del. rewrite Hsh. simpl. rewrite (find_rep _ _ _ _ HR). simpl.
  rewrite shardMap_own, visible_lookup. destruct (m !! key) as [e|] eqn:Hm; simpl.
  - destruct (remove_rep (table sh) _ r key HR) as (ht & -> & HR' & _). simpl.
    eexists _, _. split_and!; [by destruct (isExpiredAt e now)| |done].
    eapply dbRep_store; [done|done| | |done|done].
    + rewrite shardMap_delete. exact HR'.
    + intros k Hk. apply lookup_delete_ne. by intros <-.
  - exists db, rs. split_and!; try done. by rewrite delete_id.
Qed.

Lemma ceilSeconds_spec d : 0 < d ->
  (ceilSeconds d - 1) * nanosPerSecond < d <= ceilSeconds d * nanosPerSecond.
Proof.
  intros Hd. unfold ceilSeconds, nanosPerSecond.
  pose proof (Z.quot_rem' d 1000000000). pose proof (Z.rem_bound_pos d 1000000000 ltac:(lia) ltac:(lia)).
  destruct (Z.ltb_spec (Z.quot d 1000000000 * 1000000000) d); lia.
Qed.

(** TTL reports a live entry's remaining time in whole seconds, rounded up. *)
Lemma ttl_rep db m rs key now :
  dbRep db m rs ->
  (forall e d, m !! key = Some e -> expiration e = Some d -> int64Range (d - now) = true) ->
  ttl db key now = Some (e ← visible m now !! key; d ← expiration e; Some (ceilSeconds (d - now))).
Proof.
  intros HD Hrange. destruct (shardFor_rep db m rs key HD) as (sh & r & Hsh & Hr & HR & Hslice).
  unfold ttl. rewrite Hsh. simpl. rewrite (find_rep _ _ _ _ HR). simpl.
  rewrite shardMap_own, visible_lookup. destruct (m !! key) as [e|] eqn:He; simpl; [|done].
  unfold isExpiredAt. destruct (expiration e) as [d|] eqn:Hx; simpl; [|by rewrite Hx].
  unfold i64. rewrite (Hrange e d) by done. simpl.
  destruct (Z.leb_spec (d - now) 0), (Z.leb_spec d now); try lia; [done|].
  simpl. by rewrite Hx.
Qed.

End Single.
