(* ===== verification/StoreBulk.v ===== *)
(** * What the database promises: whole-keyspace operations

    Construction, [keys], the counters, [clear], [setMaxMemory], [snapshot],
    [restore] and [removeExpired], on the abstract view of the database. *)
From S2P Require Import Prelude.
From S2P Require Import Hash.
From S2P Require Import Table.
From S2P Require Import RecencyList.
From S2P Require Import TableInv.
From S2P Require Import TableSpec.
From S2P Require Import TableSweep.
From S2P Require Import Store.
From S2P Require Import StoreSpec.
Import Database.

#[local] Open Scope Z_scope.

(** The keyspace a list of entries loads as: later entries win, entries already
    expired are skipped. *)
Definition loadEntry (now : time_point) (m : gmap bytes Entry) (e : Entry) : gmap bytes Entry :=
  if isExpiredAt e now then m else <[ekey e := e]> m.
Definition loadAll (now : time_point) (es : list Entry) : gmap bytes Entry :=
  fold_left (loadEntry now) es ∅.

Section Bulk.
Context `{Platform}.

(** ** Construction *)

Lemma dbRep_replace db m' l' rs' limit :
  geometry db -> length l' = length (shards_ db) -> length rs' = length (shards_ db) ->
  (forall i sh r, l' !! i = Some sh -> rs' !! i = Some r -> Rep (table sh) (shardMap db m' i) r) ->
  0 <= limit ->
  (forall sh, sh ∈ l' -> maxMemoryBytes sh = sliceOf limit (len (shards_ db))) ->
  (forall sh, sh ∈ l' -> 0 <= sweepCursor sh < 2 ^ 64) ->
  dbRep (mk l' (shardMask_ db) (shardShift_ db) limit) m' rs'.
Proof.
  intros (s & Hs & Hlen & Hcase) Hl Hr HR Hlim Hsl Hcu. unfold len in *.
  constructor; simpl; try done.
  - exists s. simpl. unfold len. by rewrite Hl.
  - by rewrite Hl.
  - intros sh Hsh. unfold len. rewrite Hl. auto.
Qed.

Lemma shardMap_empty db i : shardMap db ∅ i = ∅.
Proof. apply map_eq. intros k. rewrite shardMap_lookup, !lookup_empty. by case_decide. Qed.

Lemma new_db_rep initialBucketCount shardCount :
  0 <= initialBucketCount < 2 ^ 64 -> 0 <= shardCount <= 2 ^ 63 ->
  exists db, new initialBucketCount shardCount = Some db /\
    dbRep db ∅ (replicate (length (shards_ db)) []) /\ maxMemoryBytes_ db = 0 /\
    len (shards_ db) = 2 ^ Z.log2_up (Z.max shardCount 1).
Proof.
  intros Hi Hc. unfold new. rewrite dbRoundUp_value by lia. simpl.
  set (s := Z.log2_up (Z.max shardCount 1)).
  assert (0 <= s <= 63) as Hs by (split; [apply Z.log2_up_nonneg|apply log2_up_le_63; lia]).
  set (b := Z.max (initialBucketCount / 2 ^ s) 1).
  assert (0 < 2 ^ s) as Hp by (apply Z.pow_pos_nonneg; lia).
  assert (0 <= b < 2 ^ 64) as Hb.
  { unfold b. assert (initialBucketCount / 2 ^ s <= initialBucketCount); [|lia].
    apply Z.div_le_upper_bound; [lia|]. nia. }
  set (l := replicate (Z.to_nat (2 ^ s)) (mkShard (HashTable.new b) 0 0 0)).
  assert (length l = Z.to_nat (2 ^ s)) as Hl by apply length_replicate.
  assert (forall db, shards_ db = l -> maxMemoryBytes_ db = 0 -> geometry db ->
    dbRep db ∅ (replicate (length (shards_ db)) [])) as Hrep.
  { intros db Hsh Hm Hg. destruct db as [sl mask shift lim]. simpl in *. subst sl lim.
    apply (dbRep_replace (mk l mask shift 0)); try done; simpl; rewrite ?length_replicate; try done.
    - intros i sh r (-> & _)%lookup_replicate (-> & _)%lookup_replicate. simpl.
      rewrite shardMap_empty. by apply new_rep.
    - intros sh [-> _]%elem_of_replicate. done.
    - intros sh [-> _]%elem_of_replicate. simpl. lia. }
  destruct (Z.ltb_spec 1 (2 ^ s)) as [Hgt|Hle].
  - rewrite log2OfPowerOfTwo_spec by done. simpl. eexists. split; [done|]. split_and!; simpl.
    + apply Hrep; [done..|]. exists s. simpl. unfold len. rewrite Hl. split_and!; [lia..|].
      right. assert (s <> 0) by (intros E; rewrite E in Hgt; simpl in Hgt; lia). split_and!; [lia|done|done].
    + done.
    + unfold len. rewrite Hl. lia.
  - assert (s = 0) as E.
    { destruct (Z.eq_dec s 0); [done|]. assert (2 ^ 1 <= 2 ^ s) by (apply Z.pow_le_mono_r; lia). lia. }
    eexists. split; [done|]. split_and!; simpl.
    + apply Hrep; [done..|]. exists 0. simpl. unfold len. rewrite Hl, E. split_and!; [lia..|]. by left.
    + done.
    + unfold len. rewrite Hl. lia.
Qed.

(** ** KEYS and snapshot *)

(** A list of shards, numbered from [i], and the maps they represent. *)
Definition shardsRep (l : list Shard) (i : nat) (M : nat -> gmap bytes Entry) : Prop :=
  forall j sh, l !! j = Some sh -> exists r, Rep (table sh) (M (i + j)%nat) r.

Lemma shardsRep_tail sh l i M : shardsRep (sh :: l) i M -> shardsRep l (S i) M.
Proof.
  intros HS j x Hj. replace (S i + j)%nat with (i + S j)%nat by lia. by apply HS.
Qed.

Lemma snapshotFrom_rep clock l i M :
  shardsRep l i M ->
  (forall a b k, is_Some (M a !! k) -> is_Some (M b !! k) -> a = b) ->
  exists es, snapshotFrom clock i l = Some es /\ NoDup (ekey <$> es) /\
    forall e, e ∈ es <-> exists j, (i <= j < i + length l)%nat /\
      M j !! ekey e = Some e /\ isExpiredAt e (clock j) = false.
Proof.
  intros HS Hdis. revert i HS. induction l as [|sh l IH]; intros i HS; simpl.
  - exists []. split_and!; [done|constructor|]. intros e. split; [by intros ?%not_elem_of_nil|].
    intros (j & Hj & _). lia.
  - destruct (HS 0%nat sh eq_refl) as [r HR]. rewrite Nat.add_0_r in HR.
    destruct (entriesWhere_rep (table sh) _ r (fun e => negb (isExpiredAt e (clock i))) HR)
      as (es & -> & Hnd & Hin). simpl.
    destruct (IH (S i)) as (rest & -> & Hnd' & Hin'); [by eapply shardsRep_tail|]. simpl.
    exists (es ++ rest). split_and!; [done|..].
    + rewrite fmap_app. apply NoDup_app. split_and!; [done| |done].
      intros k (e & -> & He)%list_elem_of_fmap (e' & Hk & He')%list_elem_of_fmap.
      apply Hin in He as [He _]. apply Hin' in He' as (j & Hj & He' & _). rewrite <- Hk in He'.
      assert (i = j) by (eapply Hdis; eauto). lia.
    + intros e. rewrite elem_of_app, Hin, Hin', negb_true_iff. split.
      * intros [[He Hx]|(j & Hj & He)]; [exists i|exists j]; (split; [lia|done]).
      * intros (j & Hj & He & Hx). destruct (decide (j = i)) as [->|]; [by left|].
        right. exists j. split; [lia|done].
Qed.

Lemma keysFrom_snapshotFrom clock l i :
  keysFrom clock i l = (fun es => map ekey es) <$> snapshotFrom clock i l.
Proof.
  revert i. induction l as [|sh l IH]; intros i; simpl; [done|].
  unfold HashTable.keysWhere.
  destruct (HashTable.entriesWhere (table sh) (fun e => negb (isExpiredAt e (clock i)))); simpl; [|done].
  rewrite IH. destruct (snapshotFrom clock (S i) l); simpl; [|done]. by rewrite map_app.
Qed.

Lemma dbRep_shardsRep db m rs : dbRep db m rs -> shardsRep (shards_ db) 0 (shardMap db m).
Proof.
  intros HD j sh Hj. simpl.
  assert (exists r, rs !! j = Some r) as [r Hr].
  { apply lookup_lt_is_Some. rewrite (dr_length _ _ _ HD). by eapply lookup_lt_Some. }
  exists r. by eapply dr_shard.
Qed.

Lemma shardMap_disjoint db m a b k :
  is_Some (shardMap db m a !! k) -> is_Some (shardMap db m b !! k) -> a = b.
Proof.
  rewrite !shardMap_lookup. intros [? Ha] [? Hb]. repeat case_decide; congruence.
Qed.

(** A snapshot lists every live entry exactly once; an entry is judged at the
    instant its shard was read. *)
Lemma snapshot_rep db m rs clock :
  dbRep db m rs ->
  exists es, snapshot db clock = Some es /\ NoDup (ekey <$> es) /\
    forall e, e ∈ es <->
      m !! ekey e = Some e /\ isExpiredAt e (clock (shardIndexFor db (ekey e))) = false.
Proof.
  intros HD. destruct (snapshotFrom_rep clock (shards_ db) 0 (shardMap db m))
    as (es & Hes & Hnd & Hin); [by eapply dbRep_shardsRep|intros; by eapply shardMap_disjoint|].
  exists es. split_and!; [done..|]. intros e. rewrite Hin. split.
  - intros (j & _ & He & Hx). rewrite shardMap_lookup in He. case_decide; [|done]. by subst j.
  - intros [He Hx]. exists (shardIndexFor db (ekey e)). rewrite shardMap_own. split_and!; try done.
    + lia.
    + simpl. apply shardIndexFor_lt, HD.
Qed.

Lemma keys_rep db m rs clock :
  dbRep db m rs ->
  exists ks, keys db clock = Some ks /\ NoDup ks /\
    forall k, k ∈ ks <->
      exists e, m !! k = Some e /\ isExpiredAt e (clock (shardIndexFor db k)) = false.
Proof.
  intros HD. destruct (snapshot_rep db m rs clock HD) as (es & Hes & Hnd & Hin).
  unfold keys. rewrite keysFrom_snapshotFrom. unfold snapshot in Hes. rewrite Hes. simpl.
  exists (ekey <$> es). split_and!; [done..|]. intros k. rewrite list_elem_of_fmap. split.
  - intros (e & -> & He). apply Hin in He. eauto.
  - intros (e & He & Hx). exists e.
    pose proof (shardFor_rep db m rs k HD) as (sh & r & _ & _ & HR & _).
    assert (ekey e = k) as <- by (eapply Rep_key; [exact HR|by rewrite shardMap_own]).
    by rewrite Hin.
Qed.

(** ** Clearing *)

Lemma mapM_shards (f : Shard -> option Shard) (Q : nat -> Shard -> Shard -> Prop) l i :
  (forall j sh, l !! j = Some sh -> exists sh', f sh = Some sh' /\ Q (i + j)%nat sh sh') ->
  exists l', mapM f l = Some l' /\ length l' = length l /\
    forall j sh sh', l !! j = Some sh -> l' !! j = Some sh' -> Q (i + j)%nat sh sh'.
Proof.
  revert i. induction l as [|sh l IH]; intros i Hf; simpl.
  - exists []. done.
  - destruct (Hf 0%nat sh eq_refl) as (sh' & -> & HQ). simpl.
    destruct (IH (S i)) as (l' & -> & Hlen & HQ').
    { intros j x Hj. replace (S i + j)%nat with (i + S j)%nat by lia. by apply Hf. }
    simpl. exists (sh' :: l'). split_and!; [done|simpl; lia|].
    intros [|j] x x' Hx Hx'; simplify_eq/=; [done|].
    replace (i + S j)%nat with (S i + j)%nat by lia. by eapply HQ'.
Qed.

Lemma same_length_lookup {A B} (l : list A) (k : list B) j y :
  length k = length l -> k !! j = Some y -> exists x, l !! j = Some x.
Proof. intros Hl Hj. apply lookup_lt_is_Some. rewrite <- Hl. by eapply lookup_lt_Some. Qed.

Lemma clear_db_rep db m rs :
  dbRep db m rs ->
  exists db', clear db = Some db' /\ dbRep db' ∅ (replicate (length (shards_ db')) []) /\
    maxMemoryBytes_ db' = maxMemoryBytes_ db /\ length (shards_ db') = length (shards_ db).
Proof.
  intros HD. unfold clear.
  destruct (mapM_shards clearShard (fun _ sh sh' => Rep (table sh') ∅ [] /\
    maxMemoryBytes sh' = maxMemoryBytes sh /\ sweepCursor sh' = 0) (shards_ db) 0)
    as (l' & -> & Hlen & HQ).
  { intros j sh Hj. destruct (dbRep_shardsRep _ _ _ HD j sh Hj) as [r HR].
    unfold clearShard. destruct (clear_rep _ _ _ HR) as (ht & -> & HR' & _). simpl. eauto. }
  simpl. eexists. split; [done|]. simpl. split_and!; [|done|done].
  assert (forall sh', sh' ∈ l' -> exists sh j, shards_ db !! j = Some sh /\ l' !! j = Some sh') as Hfrom.
  { intros sh' [j Hj]%list_elem_of_lookup.
    destruct (same_length_lookup _ _ _ _ Hlen Hj) as [sh Hsh]. eauto. }
  apply dbRep_replace; try apply HD; try done.
  - by rewrite length_replicate.
  - intros i sh r Hi (-> & _)%lookup_replicate. rewrite shardMap_empty.
    destruct (same_length_lookup _ _ _ _ Hlen Hi) as [sh0 H0]. by eapply HQ.
  - intros sh' Hin. destruct (Hfrom sh' Hin) as (sh & j & Hj & Hj').
    destruct (HQ _ _ _ Hj Hj') as (_ & -> & _). eapply dr_slice; [done|].
    by eapply list_elem_of_lookup_2.
  - intros sh' Hin. destruct (Hfrom sh' Hin) as (sh & j & Hj & Hj').
    destruct (HQ _ _ _ Hj Hj') as (_ & _ & ->). lia.
Qed.

(** ** restore *)

Lemma Entry_eta e : mkEntry (ekey e) (evalue e) (expiration e) = e.
Proof. by destruct e. Qed.

Lemma restoreEntry_rep now db m rs n e :
  dbRep db m rs -> Z.of_nat (base.size m) < maxEntries ->
  exists db' rs', restoreEntry now (db, n) e =
      Some (db', if isExpiredAt e now then n else u64 (n + 1)) /\
    dbRep db' (loadEntry now m e) rs' /\ maxMemoryBytes_ db' = maxMemoryBytes_ db.
Proof.
  intros HD Hroom. unfold restoreEntry, loadEntry. destruct (isExpiredAt e now); [eauto|].
  destruct (shardFor_rep db m rs (ekey e) HD) as (sh & r & Hsh & Hr & HR & Hslice).
  rewrite Hsh. simpl.
  destruct (put_rep (table sh) _ r (ekey e) (evalue e) HR) as (ht & -> & HR1 & _); [by eapply shard_room|].
  simpl.
  assert (exists ht2, (if hasExpiration e then HashTable.setExpiration ht (ekey e) (expiration e)
      else Some ht) = Some ht2 /\
    Rep ht2 (<[ekey e := e]> (shardMap db m (shardIndexFor db (ekey e)))) (toFront (ekey e) r))
    as (ht2 & -> & HR2).
  { unfold hasExpiration. destruct (expiration e) as [x|] eqn:Hx.
    - destruct (setExpiration_rep ht _ _ (ekey e) (mkEntry (ekey e) (evalue e) None) (Some x) HR1)
        as (ht2 & Hset & HR2 & _); [apply lookup_insert_eq|].
      exists ht2. split; [done|]. simpl in HR2. by rewrite insert_insert_eq, <- Hx, Entry_eta in HR2.
    - exists ht. split; [done|]. by rewrite <- Hx, Entry_eta in HR1. }
  simpl. eexists _, _. split_and!; [done| |done].
  eapply dbRep_store; [done|done| | |done|done].
  - rewrite shardMap_insert. exact HR2.
  - intros k Hk. apply lookup_insert_ne. by intros <-.
Qed.

Lemma loadEntry_size now m e :
  (base.size (loadEntry now m e) <= S (base.size m))%nat.
Proof.
  unfold loadEntry. destruct (isExpiredAt e now); [lia|].
  rewrite map_size_insert. destruct (m !! ekey e); simpl; lia.
Qed.

Lemma foldM_restore_rep now db m rs n es :
  dbRep db m rs -> Z.of_nat (base.size m) + len es <= maxEntries -> 0 <= n < 2 ^ 64 ->
  exists db' rs', foldM (restoreEntry now) (db, n) es =
      Some (db', u64 (n + len (List.filter (fun e => negb (isExpiredAt e now)) es))) /\
    dbRep db' (fold_left (loadEntry now) es m) rs' /\ maxMemoryBytes_ db' = maxMemoryBytes_ db.
Proof.
  revert db m rs n. induction es as [|e es IH]; intros db m rs n HD Hroom Hn;
    cbn [foldM fold_left List.filter].
  - exists db, rs. rewrite Z.add_0_r, u64_small by done. done.
  - rewrite len_cons in Hroom. pose proof (len_nonneg es).
    destruct (restoreEntry_rep now db m rs n e HD) as (db1 & rs1 & Hstep & HD1 & Hm1); [lia|].
    rewrite Hstep. pose proof (loadEntry_size now m e).
    destruct (IH db1 _ rs1 (if isExpiredAt e now then n else u64 (n + 1)) HD1)
      as (db2 & rs2 & -> & HD2 & Hm2); [lia|destruct (isExpiredAt e now); [done|apply u64_range]|].
    exists db2, rs2. split_and!; [|done|congruence].
    do 2 f_equal. destruct (isExpiredAt e now); simpl; [done|].
    rewrite len_cons, u64_idemp_add_l. f_equal. lia.
Qed.

Lemma restore_rep db m rs es now :
  dbRep db m rs -> len es <= maxEntries ->
  exists db' rs', restore db es now =
      Some (db', len (List.filter (fun e => negb (isExpiredAt e now)) es)) /\
    dbRep db' (loadAll now es) rs' /\ maxMemoryBytes_ db' = maxMemoryBytes_ db.
Proof.
  intros HD Hlen. unfold restore.
  destruct (clear_db_rep db m rs HD) as (db1 & -> & HD1 & Hm1 & _). simpl.
  destruct (foldM_restore_rep now db1 ∅ _ 0 es HD1) as (db2 & rs2 & -> & HD2 & Hm2);
    [rewrite map_size_empty; lia|lia|].
  exists db2, rs2. split_and!; [|done|congruence]. do 2 f_equal. rewrite Z.add_0_l.
  apply u64_small. split; [apply len_nonneg|]. unfold len, maxEntries in *.
  pose proof (filter_length_le (fun e => negb (isExpiredAt e now)) es). lia.
Qed.

(** Entries with distinct keys load as the map they list. *)
Lemma fold_load_lookup now es m k e :
  NoDup (ekey <$> es) ->
  fold_left (loadEntry now) es m !! k = Some e <->
    (e ∈ es /\ ekey e = k /\ isExpiredAt e now = false) \/
    (m !! k = Some e /\ forall x, x ∈ es -> isExpiredAt x now = false -> ekey x <> k).
Proof.
  revert m. induction es as [|x es IH]; intros m Hnd; simpl.
  - split; [intros Hm; right; split; [done|by intros ? ?%not_elem_of_nil]|].
    intros [(?%not_elem_of_nil & _)|[Hm _]]; done.
  - apply NoDup_cons in Hnd as [Hx Hnd]. rewrite IH by done.
    assert (forall y, y ∈ es -> ekey y <> ekey x) as Hne.
    { intros y Hy Heq. apply Hx. rewrite <- Heq. by apply list_elem_of_fmap_2. }
    unfold loadEntry. destruct (isExpiredAt x now) eqn:Hxx; [|rewrite lookup_insert_Some];
      setoid_rewrite elem_of_cons; split.
    + intros [(He & Hk & Hl)|[Hm Hall]]; [by left; auto|right]. split; [done|].
      intros y [->|Hy] Hyl; [congruence|auto].
    + intros [([->|He] & Hk & Hl)|[Hm Hall]]; [congruence|by left|right; auto].
    + intros [(He & Hk & Hl)|[[[Hk ->]|[Hk Hm]] Hall]]; [by left; auto|by left; auto|right].
      split; [done|]. intros y [->|Hy] Hyl; auto.
    + intros [([->|He] & Hk & Hl)|[Hm Hall]]; [right|by left|right; split; [right|]; auto].
      split; [by left|]. intros y Hy _. rewrite <- Hk. auto.
Qed.

Lemma loadAll_lookup now es k e :
  NoDup (ekey <$> es) ->
  loadAll now es !! k = Some e <-> e ∈ es /\ ekey e = k /\ isExpiredAt e now = false.
Proof.
  intros Hnd. unfold loadAll. rewrite fold_load_lookup by done.
  rewrite lookup_empty. split; [intros [|[? _]]; done|by left].
Qed.

(** ** Changing the memory limit *)

Lemma dropKeys_foreign db m i ks ks' :
  (forall k, k ∈ ks' -> shardIndexFor db k = i -> k ∈ ks) ->
  (forall k, k ∈ ks -> k ∈ ks') ->
  dropKeys ks' (shardMap db m i) = dropKeys ks (shardMap db m i).
Proof.
  intros H1 H2. apply map_eq. intros k. rewrite !dropKeys_lookup, shardMap_lookup.
  destruct (decide (k ∈ ks')), (decide (k ∈ ks)), (decide (shardIndexFor db k = i)); try done;
    exfalso; eauto.
Qed.

(** Shards transformed one by one, each losing some of its own keys. *)
Record shardStep (db : t) (m : gmap bytes Entry) (i : nat) (r : list bytes) (sh' : Shard)
    (ks r' : list bytes) : Prop := {
  ss_rep : Rep (table sh') (dropKeys ks (shardMap db m i)) r';
  ss_own : forall k, k ∈ ks -> shardIndexFor db k = i
}.

Lemma dbRep_steps db m rs l' rs' kss limit :
  dbRep db m rs -> length l' = length (shards_ db) -> length rs' = length (shards_ db) ->
  length kss = length (shards_ db) ->
  (forall i r sh' ks r', rs !! i = Some r -> l' !! i = Some sh' -> kss !! i = Some ks ->
    rs' !! i = Some r' -> shardStep db m i r sh' ks r') ->
  0 <= limit ->
  (forall sh, sh ∈ l' -> maxMemoryBytes sh = sliceOf limit (len (shards_ db))) ->
  (forall sh, sh ∈ l' -> 0 <= sweepCursor sh < 2 ^ 64) ->
  dbRep (mk l' (shardMask_ db) (shardShift_ db) limit) (dropKeys (concat kss) m) rs'.
Proof.
  intros HD Hl Hrs Hk Hstep Hlim Hsl Hcu. apply dbRep_replace; try done; [apply HD|].
  intros i sh' r' Hi Hr'.
  destruct (same_length_lookup kss l' i sh') as [ks Hks]; [congruence|done|].
  destruct (same_length_lookup rs l' i sh') as [r Hr]; [by rewrite (dr_length _ _ _ HD)|done|].
  destruct (Hstep i r sh' ks r') as [HR Hown]; [done..|].
  rewrite shardMap_dropKeys, (dropKeys_foreign db m i ks); [done|..].
  - intros k (j & c & Hj & Hc)%concat_elem_of Hidx.
    destruct (same_length_lookup l' kss j c) as [shj Hshj]; [congruence|done|].
    destruct (same_length_lookup rs kss j c) as [rj Hrj]; [by rewrite (dr_length _ _ _ HD)|done|].
    destruct (same_length_lookup rs' kss j c) as [rj' Hrj']; [congruence|done|].
    destruct (Hstep j rj shj c rj') as [_ Hownj]; [done..|].
    specialize (Hownj k Hc). congruence.
  - intros k Hk'. apply concat_elem_of. eauto.
Qed.

(** Choosing the per-shard results of a list of shards. *)
Lemma choose_lists {B C} (l : list B) (P : nat -> B -> C -> Prop) :
  (forall j x, l !! j = Some x -> exists c, P j x c) ->
  exists cs, length cs = length l /\ forall j x c, l !! j = Some x -> cs !! j = Some c -> P j x c.
Proof.
  revert P. induction l as [|x l IH]; intros P HP.
  - exists []. done.
  - destruct (HP 0%nat x eq_refl) as [c Hc].
    destruct (IH (fun j => P (S j))) as (cs & Hlen & Hcs); [intros j y Hj; by apply HP|].
    exists (c :: cs). split; [simpl; lia|]. intros [|j] y d Hy Hd; simplify_eq/=; [done|].
    by eapply Hcs.
Qed.

(** One shard is given its slice and trimmed to it. *)
Lemma limitShard_rep slice db m rs i sh r :
  dbRep db m rs -> shards_ db !! i = Some sh -> rs !! i = Some r ->
  exists sh' r' vs, limitShard slice sh = Some sh' /\
    evicts slice (HashTable.bucketCount (table sh')) m r r' vs /\
    shardStep db m i r sh' vs r' /\ maxMemoryBytes sh' = slice /\ sweepCursor sh' = sweepCursor sh.
Proof.
  intros HD Hi Hr. pose proof (dr_shard _ _ _ HD _ _ _ Hi Hr) as HR. unfold limitShard.
  destruct (evictToFit_rep (mkShard (table sh) (sweepCursor sh) (evicted sh) slice) _ _ HR)
    as (sh' & r' & vs & -> & HE & HR' & _ & Hm & Hc & Hb). simpl in *.
  exists sh', r', vs. rewrite Hb. split_and!; [done| |split; [done|]|done|done].
  - eapply evicts_ext; [|exact HE]. intros k Hk.
    destruct (Rep_shard_mem _ _ _ _ _ _ HR Hk) as [<- _]. apply shardMap_own.
  - intros k Hk. eapply Rep_shard_mem; [exact HR|].
    rewrite (ev_split _ _ _ _ _ _ HE), elem_of_app. by right.
Qed.

(** After [setMaxMemory] every shard is within its slice, or down to one entry;
    only the least recent keys of a shard were evicted, and no key that fits. *)
Lemma setMaxMemory_rep db m rs limit :
  dbRep db m rs -> 0 <= limit ->
  exists db' rs' vss, setMaxMemory db limit = Some db' /\
    dbRep db' (dropKeys (concat vss) m) rs' /\ maxMemoryBytes_ db' = limit /\
    length vss = length (shards_ db) /\
    (forall i r r' vs, rs !! i = Some r -> rs' !! i = Some r' -> vss !! i = Some vs ->
      exists sh', shards_ db' !! i = Some sh' /\
        evicts (sliceOf limit (len (shards_ db))) (HashTable.bucketCount (table sh')) m r r' vs).
Proof.
  intros HD Hlim. unfold setMaxMemory.
  set (slice := if limit =? 0 then 0 else Z.max (limit / shardCount db) 1).
  set (R := fun (i : nat) (sh sh' : Shard) => forall r, rs !! i = Some r ->
    exists r' vs, evicts slice (HashTable.bucketCount (table sh')) m r r' vs /\
      shardStep db m i r sh' vs r' /\ maxMemoryBytes sh' = slice /\
      sweepCursor sh' = sweepCursor sh).
  destruct (mapM_shards (limitShard slice) R (shards_ db) 0) as (l' & -> & Hlen & HQ).
  { intros j sh Hj. destruct (same_length_lookup rs (shards_ db) j sh) as [r Hr];
      [by rewrite (dr_length _ _ _ HD)|done|].
    destruct (limitShard_rep slice db m rs j sh r HD Hj Hr) as (sh' & r' & vs & Hl & Hst). exists sh'. split; [done|].
    intros r0 Hr0. simpl in *. simplify_eq. eauto. }
  simpl.
  set (P := fun (i : nat) (sh' : Shard) (c : list bytes * list bytes) =>
    forall sh r, shards_ db !! i = Some sh -> rs !! i = Some r ->
      evicts slice (HashTable.bucketCount (table sh')) m r c.1 c.2 /\
      shardStep db m i r sh' c.2 c.1 /\ maxMemoryBytes sh' = slice /\
      sweepCursor sh' = sweepCursor sh).
  destruct (choose_lists l' P) as (cs & Hcs & HP).
  { intros j sh' Hj. destruct (same_length_lookup (shards_ db) l' j sh') as [sh Hsh]; [done..|].
    destruct (same_length_lookup rs l' j sh') as [r Hr]; [by rewrite (dr_length _ _ _ HD)|done|].
    destruct (HQ j sh sh' Hsh Hj r Hr) as (r' & vs & HE). exists (r', vs).
    intros sh0 r0 Hsh0 Hr0. by simplify_eq. }
  assert (forall i sh', l' !! i = Some sh' -> exists sh r c, shards_ db !! i = Some sh /\
    rs !! i = Some r /\ cs !! i = Some c) as Hall.
  { intros i sh' Hi. destruct (same_length_lookup (shards_ db) l' i sh') as [sh Hsh]; [done..|].
    destruct (same_length_lookup rs l' i sh') as [r Hr]; [by rewrite (dr_length _ _ _ HD)|done|].
    destruct (same_length_lookup cs l' i sh') as [c Hc]; [done..|]. eauto 10. }
  eexists _, (cs.*1), (cs.*2). split; [done|]. simpl. split_and!; [|done|by rewrite length_fmap, Hcs|].
  - apply dbRep_steps with (rs := rs); try done.
    + by rewrite length_fmap, Hcs.
    + by rewrite length_fmap, Hcs.
    + intros i r sh' ks r' Hr Hi Hks Hr'. rewrite list_lookup_fmap in Hks, Hr'.
      destruct (Hall i sh' Hi) as (sh & r0 & c & Hsh & _ & Hc). rewrite Hc in Hks, Hr'.
      simplify_eq/=. by destruct (HP i sh' c Hi Hc sh r Hsh Hr) as (_ & ? & _).
    + intros sh' [i Hi]%list_elem_of_lookup. destruct (Hall i sh' Hi) as (sh & r & c & Hsh & Hr & Hc).
      by destruct (HP i sh' c Hi Hc sh r Hsh Hr) as (_ & _ & ? & _).
    + intros sh' [i Hi]%list_elem_of_lookup. destruct (Hall i sh' Hi) as (sh & r & c & Hsh & Hr & Hc).
      destruct (HP i sh' c Hi Hc sh r Hsh Hr) as (_ & _ & _ & ->).
      eapply dr_cursor; [done|]. by eapply list_elem_of_lookup_2.
  - intros i r r' vs Hr Hr' Hvs. rewrite list_lookup_fmap in Hr', Hvs.
    destruct (cs !! i) as [c|] eqn:Hc; simplify_eq/=.
    destruct (same_length_lookup l' cs i c) as [sh' Hi]; [by rewrite Hcs|done|].
    destruct (Hall i sh' Hi) as (sh & r0 & c0 & Hsh & _ & _).
    destruct (HP i sh' c Hi Hc sh r Hsh Hr) as (HE & _). eauto.
Qed.

End Bulk.
