(* ===== verification/StoreSweep.v ===== *)
(** * What the database promises: expiry

    [removeExpired] removes expired entries only, never changes what a client
    can see, and reclaims everything once its passes have gone round the table. *)
From S2P Require Import Prelude.
From S2P Require Import Hash.
From S2P Require Import Table.
From S2P Require Import RecencyList.
From S2P Require Import TableInv.
From S2P Require Import TableSpec.
From S2P Require Import TableSweep.
From S2P Require Import Store.
From S2P Require Import StoreSpec.
From S2P Require Import StoreBulk.
Import Database.

#[local] Open Scope Z_scope.

(** Where the next pass over a shard starts. *)
Definition startCursor (sh : Shard) : Z :=
  if HashTable.bucketCount (table sh) <=? sweepCursor sh then 0 else sweepCursor sh.

(** Several passes in a row, the clock readings of each given. *)
Definition sweepPasses (db : t) (maxBuckets : Z) (clocks : list (nat -> time_point))
    : option (t * Z) :=
  foldM (fun st clock =>
    r ← removeExpired (fst st) maxBuckets clock; Some (fst r, u64 (snd st + snd r)))
    (db, 0) clocks.

(** [progress T sh M d]: starting from some bucket, the [d] buckets before the
    cursor hold no entry that had expired at [T]. *)
Definition progress (T : time_point) (sh : Shard) (M : gmap bytes Entry) (d : Z) : Prop :=
  exists c, 0 <= c /\
    startCursor sh = (c + d) mod HashTable.bucketCount (table sh) /\
    forall k e o, M !! k = Some e -> isExpiredAt e T = true -> 0 <= o < d ->
      HashTable.bucketIndexFor (table sh) k <>
        Z.to_nat ((c + o) mod HashTable.bucketCount (table sh)).

(** What one pass does to one shard. *)
Record swept `{Platform} (perShard : Z) (now : time_point) (M : gmap bytes Entry)
    (r : list bytes) (sh sh' : Shard) (ks : list bytes) : Prop := {
  sw_rep : Rep (table sh') (dropKeys ks M) (dropAll ks r);
  sw_nodup : NoDup ks;
  sw_expired : forall k, k ∈ ks -> exists e, M !! k = Some e /\ isExpiredAt e now = true;
  sw_limit : maxMemoryBytes sh' = maxMemoryBytes sh;
  sw_evicted : evicted sh' = evicted sh;
  sw_cursor : 0 <= sweepCursor sh' < 2 ^ 64;
  sw_count : HashTable.bucketCount (table sh') = HashTable.bucketCount (table sh);
  sw_progress : forall T d, T <= now -> 0 <= d -> progress T sh M d ->
    progress T sh' (dropKeys ks M) (d + Z.min perShard (HashTable.bucketCount (table sh)))
}.

(** What a pass did to every shard, by position. *)
Definition sweptAll `{Platform} (perShard : Z) (clock : nat -> time_point) (db db' : t)
    (m : gmap bytes Entry) (kss : list (list bytes)) : Prop :=
  length (shards_ db) = length kss /\ length (shards_ db') = length kss /\
  forall i ks, kss !! i = Some ks -> exists sh sh' r, shards_ db !! i = Some sh /\
    shards_ db' !! i = Some sh' /\ swept perShard (clock i) (shardMap db m i) r sh sh' ks.

(** Every shard has come [d] passes round since it was known to be clean from
    some bucket on. *)
Definition cleaned (T : time_point) (perShard d : Z) (db : t) (m : gmap bytes Entry) : Prop :=
  forall i sh, shards_ db !! i = Some sh ->
    HashTable.bucketCount (table sh) = 0 \/
    progress T sh (shardMap db m i) (d * Z.min perShard (HashTable.bucketCount (table sh))).

(** The bucket count of every shard. *)
Definition bucketCounts (db : t) : list Z :=
  (fun sh => HashTable.bucketCount (table sh)) <$> shards_ db.

Section Expiry.
Context `{Platform}.

Lemma isExpiredAt_mono e now now' :
  now <= now' -> isExpiredAt e now = true -> isExpiredAt e now' = true.
Proof.
  unfold isExpiredAt. destruct (expiration e); [|done]. rewrite !Z.leb_le. lia.
Qed.

Lemma progress_start T sh M : 0 <= startCursor sh ->
  0 < HashTable.bucketCount (table sh) -> progress T sh M 0.
Proof.
  intros H0 Hb. exists (startCursor sh). split_and!; [done| |lia].
  rewrite Z.add_0_r. symmetry. apply Z.mod_small. unfold startCursor in *.
  destruct (Z.leb_spec (HashTable.bucketCount (table sh)) (sweepCursor sh)); lia.
Qed.

(** Once every bucket has been visited nothing that had expired is left. *)
Lemma progress_done T sh M r d :
  Rep (table sh) M r -> progress T sh M d ->
  0 < HashTable.bucketCount (table sh) <= d ->
  forall k e, M !! k = Some e -> isExpiredAt e T = false.
Proof.
  intros HR (c & Hc & _ & Hclean) Hd k e He.
  destruct (isExpiredAt e T) eqn:Hx; [|done]. exfalso.
  set (b := HashTable.bucketCount (table sh)) in *.
  pose proof (bucketIndex_lt b k ltac:(lia) (Rep_count _ _ _ HR)) as Hidx.
  set (x := HashTable.bucketIndex b k) in *.
  pose proof (Z.mod_pos_bound (Z.of_nat x - c) b ltac:(lia)).
  apply (Hclean k e ((Z.of_nat x - c) mod b) He Hx); [lia|].
  rewrite Zplus_mod_idemp_r. replace (c + (Z.of_nat x - c)) with (Z.of_nat x) by lia.
  rewrite Z.mod_small by lia. unfold HashTable.bucketIndexFor. fold b. fold x. lia.
Qed.

Lemma pow2Count_le n : pow2Count n -> n <= 2 ^ 63.
Proof. intros [->|(k & Hk & ->)]; [lia|]. apply Z.pow_le_mono_r; lia. Qed.

Lemma sweepShard_rep perShard now sh M r :
  Rep (table sh) M r -> 0 <= sweepCursor sh < 2 ^ 64 -> 1 <= perShard ->
  exists sh' ks, sweepShard perShard now sh = Some (sh', len ks) /\
    swept perShard now M r sh sh' ks.
Proof.
  intros HR Hcur Hps. unfold sweepShard.
  pose proof (Rep_count _ _ _ HR) as Hpow. pose proof (pow2Count_le _ Hpow) as H63.
  pose proof (len_nonneg (HashTable.buckets_ (table sh))) as Hnn.
  fold (HashTable.bucketCount (table sh)) in Hnn.
  set (b := HashTable.bucketCount (table sh)) in *.
  destruct (Z.eqb_spec b 0) as [H0|H0].
  { exists sh, []. split; [done|]. constructor; simpl; try done; [constructor|by intros ? ?%not_elem_of_nil|].
    intros T d _ _ Hp. fold b. rewrite H0. by replace (d + Z.min perShard 0) with d by lia. }
  set (c0 := if b <=? sweepCursor sh then 0 else sweepCursor sh).
  assert (0 <= c0 < b) as Hc0 by (unfold c0; destruct (Z.leb_spec b (sweepCursor sh)); lia).
  set (s := Z.min perShard b).
  destruct (removeIf_rep (table sh) M r c0 s (fun e => isExpiredAt e now) HR)
    as (ht & ks & -> & HR' & Hcount & Hnd & Hks); [unfold s; lia|]. simpl.
  fold b in Hcount, Hks.
  assert (u64 (c0 + s) = c0 + s) as Hu by (apply u64_small; unfold s; lia).
  eexists _, ks. split; [done|]. constructor; simpl; try done.
  - intros k Hk. apply Hks in Hk as (e & He & Hx & _). eauto.
  - pose proof (Z.mod_pos_bound (u64 (c0 + s)) b ltac:(lia)). lia.
  - intros T d HT Hd (c & Hc & Hstart & Hclean). fold b in Hstart, Hclean. fold b s.
    unfold startCursor in Hstart. fold b in Hstart. fold c0 in Hstart.
    exists c. split_and!; [done|..]; unfold startCursor; simpl; rewrite Hcount.
    + pose proof (Z.mod_pos_bound (u64 (c0 + s)) b ltac:(lia)).
      destruct (Z.leb_spec b (u64 (c0 + s) mod b)); [lia|].
      rewrite Hu, Hstart, Zplus_mod_idemp_l. f_equal. lia.
    + intros k e o He Hx Ho Heq. rewrite dropKeys_lookup in He. case_decide as Hk; [done|].
      unfold HashTable.bucketIndexFor in Heq. rewrite Hcount in Heq.
      destruct (Z.lt_ge_cases o d) as [Hlt|Hge].
      { apply (Hclean k e o He Hx); [lia|]. by unfold HashTable.bucketIndexFor; fold b. }
      apply Hk, Hks. exists e. split_and!; [done|by eapply isExpiredAt_mono|].
      unfold scannedBuckets. apply list_elem_of_fmap. exists (Z.to_nat (o - d)). split.
      * unfold HashTable.bucketIndexFor. fold b. rewrite Heq, Z2Nat.id by lia. f_equal.
        rewrite u64_small by (unfold s in Ho; lia).
        rewrite Hstart, Zplus_mod_idemp_l. f_equal. lia.
      * apply elem_of_seq. unfold s in Ho. lia.
Qed.

Lemma sweepFrom_spec perShard clock (Q : nat -> Shard -> Shard -> Z -> Prop) l i removed :
  (forall j sh, l !! j = Some sh -> exists sh' n,
    sweepShard perShard (clock (i + j)%nat) sh = Some (sh', n) /\ Q (i + j)%nat sh sh' n) ->
  0 <= removed < 2 ^ 64 ->
  exists l' ns, sweepFrom perShard clock i l removed = Some (l', u64 (removed + sumZ id ns)) /\
    length l' = length l /\ length ns = length l /\
    forall j sh sh' n, l !! j = Some sh -> l' !! j = Some sh' -> ns !! j = Some n ->
      Q (i + j)%nat sh sh' n.
Proof.
  revert i removed. induction l as [|sh l IH]; intros i removed Hf Hr; simpl.
  - exists [], []. simpl. rewrite Z.add_0_r, u64_small by done. done.
  - destruct (Hf 0%nat sh eq_refl) as (sh' & n & Hs & HQ). rewrite Nat.add_0_r in Hs.
    rewrite Hs. simpl.
    destruct (IH (S i) (u64 (removed + n))) as (l' & ns & -> & Hl & Hns & HQ'); [|apply u64_range|].
    { intros j x Hj. replace (S i + j)%nat with (i + S j)%nat by lia. by apply Hf. }
    simpl. exists (sh' :: l'), (n :: ns). simpl. split_and!; [|lia..|].
    + rewrite u64_idemp_add_l. do 3 f_equal. unfold id. lia.
    + intros [|j] x x' y Hx Hx' Hy; simplify_eq/=; [done|].
      replace (i + S j)%nat with (S i + j)%nat by lia. by eapply HQ'.
Qed.

Lemma sum_lens (ns : list Z) (kss : list (list bytes)) :
  length ns = length kss ->
  (forall i n ks, ns !! i = Some n -> kss !! i = Some ks -> n = len ks) ->
  sumZ id ns = sumZ len kss.
Proof.
  revert kss. induction ns as [|n ns IH]; intros [|ks kss] Hlen Hall; simpl in *; try lia.
  rewrite (IH kss); [|lia|intros i; apply (Hall (S i))].
  unfold id. by rewrite (Hall 0%nat n ks eq_refl eq_refl).
Qed.

Lemma shardCount_pos db : geometry db -> 0 < len (shards_ db).
Proof. intros (s & Hs & -> & _). apply Z.pow_pos_nonneg; lia. Qed.

(** The walk over the shards. *)
Lemma sweepFrom_rep db m rs perShard clock :
  dbRep db m rs -> 0 < perShard ->
  exists l' kss, sweepFrom perShard clock 0 (shards_ db) 0 = Some (l', u64 (sumZ len kss)) /\
    length l' = length (shards_ db) /\ length kss = length (shards_ db) /\
    (forall i sh sh' ks r, shards_ db !! i = Some sh -> l' !! i = Some sh' ->
      kss !! i = Some ks -> rs !! i = Some r -> swept perShard (clock i) (shardMap db m i) r sh sh' ks).
Proof.
  intros HD Hper.
  destruct (sweepFrom_spec perShard clock (fun i sh sh' n => exists ks, n = len ks /\
      forall r, rs !! i = Some r -> swept perShard (clock i) (shardMap db m i) r sh sh' ks)
    (shards_ db) 0 0) as (l' & ns & -> & Hl & Hns & HQ); [|lia|].
  { intros j sh Hj. destruct (same_length_lookup rs (shards_ db) j sh) as [r Hr];
      [by rewrite (dr_length _ _ _ HD)|done|].
    destruct (sweepShard_rep perShard (clock j) sh (shardMap db m j) r) as (sh' & ks & Hs & Hsw).
    - by eapply dr_shard.
    - eapply dr_cursor; [done|]. by eapply list_elem_of_lookup_2.
    - lia.
    - exists sh', (len ks). split; [done|]. exists ks. split; [done|]. simpl.
      intros r0 Hr0. by simplify_eq. }
  destruct (choose_lists ns (fun j n ks => n = len ks /\ forall sh sh' r, shards_ db !! j = Some sh ->
      l' !! j = Some sh' -> rs !! j = Some r ->
      swept perShard (clock j) (shardMap db m j) r sh sh' ks)) as (kss & Hk & HP).
  { intros j n Hn. destruct (same_length_lookup (shards_ db) ns j n) as [sh Hsh]; [congruence|done|].
    destruct (same_length_lookup l' ns j n) as [sh' Hsh']; [congruence|done|].
    destruct (HQ j sh sh' n Hsh Hsh' Hn) as (ks & Hlen & Hks). exists ks. split; [done|].
    intros x x' r Hx Hx' Hr. simplify_eq. by apply Hks. }
  exists l', kss. split_and!; [|done|congruence|].
  - do 3 f_equal. simpl. apply sum_lens; [congruence|]. intros i x y Hx Hy. by destruct (HP i x y Hx Hy).
  - intros i sh sh' ks r Hsh Hsh' Hks Hr.
    destruct (same_length_lookup ns kss i ks) as [n' Hn']; [congruence|done|].
    destruct (HP i n' ks Hn' Hks) as [_ Hsw]. by apply Hsw.
Qed.

(** One pass over the whole database. *)
Lemma removeExpired_rep db m rs maxBuckets clock :
  dbRep db m rs -> 0 < maxBuckets ->
  let perShard := Z.max (maxBuckets / shardCount db) 1 in
  exists db' n rs' kss, removeExpired db maxBuckets clock = Some (db', n) /\
    dbRep db' (dropKeys (concat kss) m) rs' /\
    maxMemoryBytes_ db' = maxMemoryBytes_ db /\ length kss = length (shards_ db) /\
    length (shards_ db') = length (shards_ db) /\
    n = u64 (sumZ len kss) /\
    (forall i sh sh' ks r, shards_ db !! i = Some sh -> shards_ db' !! i = Some sh' ->
      kss !! i = Some ks -> rs !! i = Some r ->
      swept perShard (clock i) (shardMap db m i) r sh sh' ks) /\
    (forall k, shardIndexFor db' k = shardIndexFor db k).
Proof.
  intros HD Hmax perShard. unfold removeExpired. destruct (Z.eqb_spec maxBuckets 0) as [?|_]; [lia|].
  fold perShard. destruct (sweepFrom_rep db m rs perShard clock HD) as (l' & kss & -> & Hl & Hk & Hswept);
    [unfold perShard; lia|].
  assert (forall sh', sh' ∈ l' -> exists i sh ks r, shards_ db !! i = Some sh /\
    swept perShard (clock i) (shardMap db m i) r sh sh' ks) as Hback.
  { intros sh' [i Hi]%list_elem_of_lookup.
    destruct (same_length_lookup (shards_ db) l' i sh') as [sh Hsh]; [done..|].
    destruct (same_length_lookup kss l' i sh') as [ks Hks]; [congruence|done|].
    destruct (same_length_lookup rs l' i sh') as [r Hr]; [by rewrite (dr_length _ _ _ HD)|done|].
    exists i, sh, ks, r. split; [done|]. by apply Hswept. }
  eexists _, _, (imap (fun i ks => dropAll ks (default [] (rs !! i))) kss), kss.
  split; [done|]. simpl. split_and!; try done.
  - apply dbRep_steps with (rs := rs); try done; try apply HD.
    + by rewrite length_imap, Hk.
    + intros i r sh' ks r' Hr Hi Hks Hr'. rewrite list_lookup_imap, Hks in Hr'. simpl in Hr'.
      rewrite Hr in Hr'. simplify_eq/=.
      destruct (same_length_lookup (shards_ db) l' i sh') as [sh Hsh]; [done..|].
      destruct (Hswept i sh sh' ks r Hsh Hi Hks Hr) as [HR _ He _ _ _ _ _].
      split; [done|]. intros k Hkk. destruct (He k Hkk) as (e & Hek & _).
      rewrite shardMap_lookup in Hek. by case_decide.
    + intros sh' (i & sh & ks & r & Hsh & Hsw)%Hback. rewrite (sw_limit _ _ _ _ _ _ _ Hsw).
      eapply dr_slice; [done|]. by eapply list_elem_of_lookup_2.
    + intros sh' (i & sh & ks & r & Hsh & Hsw)%Hback. apply (sw_cursor _ _ _ _ _ _ _ Hsw).
Qed.

Lemma NoDup_concat_separate {A} (kss : list (list A)) :
  (forall i ks, kss !! i = Some ks -> NoDup ks) ->
  (forall i j ks ks' k, kss !! i = Some ks -> kss !! j = Some ks' -> k ∈ ks -> k ∈ ks' -> i = j) ->
  NoDup (concat kss).
Proof.
  induction kss as [|ks kss IH]; intros Hnd Hsep; simpl; [constructor|].
  apply NoDup_app. split_and!.
  - by apply (Hnd 0%nat).
  - intros k Hk (j & ks' & Hj & Hk')%concat_elem_of.
    by pose proof (Hsep 0%nat (S j) ks ks' k eq_refl Hj Hk Hk').
  - apply IH; [intros i; apply (Hnd (S i))|]. intros i j x y k Hi Hj Hx Hy.
    by pose proof (Hsep (S i) (S j) x y k Hi Hj Hx Hy) as [= ->].
Qed.

Lemma len_concat {A} (kss : list (list A)) : len (concat kss) = sumZ len kss.
Proof. induction kss; simpl; [done|]. rewrite len_app. lia. Qed.

Lemma Rep_no_buckets ht M r : Rep ht M r -> HashTable.bucketCount ht = 0 -> M = ∅.
Proof.
  intros HR H0. apply map_eq. intros k. rewrite lookup_empty.
  destruct (M !! k) as [e|] eqn:He; [|done].
  assert (k ∈ r) as Hk by (eapply Rep_mem; eauto).
  destruct HR as (order & HI & _ & ->). pose proof (ti_perm _ _ HI) as Hp.
  unfold HashTable.bucketCount, len in H0. destruct (HashTable.buckets_ ht); [|simpl in H0; lia].
  apply Permutation_nil in Hp. subst order. by apply not_elem_of_nil in Hk.
Qed.

Lemma cleaned_start T perShard db m rs : dbRep db m rs -> cleaned T perShard 0 db m.
Proof.
  intros HD i sh Hsh.
  pose proof (len_nonneg (HashTable.buckets_ (table sh))) as Hnn.
  pose proof (dr_cursor _ _ _ HD sh ltac:(by eapply list_elem_of_lookup_2)).
  fold (HashTable.bucketCount (table sh)) in Hnn.
  destruct (Z.eq_dec (HashTable.bucketCount (table sh)) 0); [by left|right].
  apply progress_start; [|lia]. unfold startCursor. case_match; lia.
Qed.

Lemma cleaned_done T perShard d db m rs :
  dbRep db m rs -> cleaned T perShard d db m -> 0 < d ->
  (forall sh, sh ∈ shards_ db -> HashTable.bucketCount (table sh) <= d * perShard) ->
  forall k e, m !! k = Some e -> isExpiredAt e T = false.
Proof.
  intros HD Hcl Hd Hb k e He. destruct (shardFor_rep db m rs k HD) as (sh & r & Hsh & _ & HR & _).
  unfold shardFor in Hsh. specialize (Hb sh ltac:(by eapply list_elem_of_lookup_2)).
  pose proof (len_nonneg (HashTable.buckets_ (table sh))) as Hnn.
  fold (HashTable.bucketCount (table sh)) in Hnn. rewrite <- (shardMap_own db) in He.
  destruct (Hcl _ _ Hsh) as [H0|Hp].
  { rewrite (Rep_no_buckets _ _ _ HR H0) in He. done. }
  destruct (Z.eq_dec (HashTable.bucketCount (table sh)) 0) as [H0|Hne].
  { rewrite (Rep_no_buckets _ _ _ HR H0) in He. done. }
  eapply progress_done; [exact HR|exact Hp| |exact He]. nia.
Qed.

Lemma sweptAll_key perShard clock db db' m kss i ks k :
  sweptAll perShard clock db db' m kss -> kss !! i = Some ks -> k ∈ ks ->
  shardIndexFor db k = i /\ exists e, m !! k = Some e /\ isExpiredAt e (clock i) = true.
Proof.
  intros (_ & _ & Hall) Hks Hk. destruct (Hall i ks Hks) as (sh & sh' & r & _ & _ & Hs).
  destruct (sw_expired _ _ _ _ _ _ _ Hs k Hk) as (e & He & Hx).
  rewrite shardMap_lookup in He. case_decide; [|done]. eauto.
Qed.

Lemma sweptAll_nodup perShard clock db db' m kss :
  sweptAll perShard clock db db' m kss -> NoDup (concat kss).
Proof.
  intros HA. apply NoDup_concat_separate.
  - intros i ks Hks. destruct HA as (_ & _ & Hall).
    destruct (Hall i ks Hks) as (sh & sh' & r & _ & _ & Hs). apply (sw_nodup _ _ _ _ _ _ _ Hs).
  - intros i j ks ks' k Hi Hj Hk Hk'.
    destruct (sweptAll_key _ _ _ _ _ _ i ks k HA Hi Hk) as [<- _].
    by destruct (sweptAll_key _ _ _ _ _ _ j ks' k HA Hj Hk') as [<- _].
Qed.

Lemma sweptAll_shardMap perShard clock db db' m kss i ks :
  sweptAll perShard clock db db' m kss -> kss !! i = Some ks ->
  (forall k, shardIndexFor db' k = shardIndexFor db k) ->
  shardMap db' (dropKeys (concat kss) m) i = dropKeys ks (shardMap db m i).
Proof.
  intros HA Hks Hidx. apply map_eq. intros k.
  rewrite dropKeys_lookup, !shardMap_lookup, dropKeys_lookup, Hidx.
  destruct (decide (shardIndexFor db k = i)) as [He|]; [|by repeat case_decide].
  assert (k ∈ ks <-> k ∈ concat kss) as Hiff.
  { rewrite concat_elem_of. split; [eauto|]. intros (j & ks' & Hj & Hk).
    destruct (sweptAll_key _ _ _ _ _ _ j ks' k HA Hj Hk) as [Hj' _].
    rewrite He in Hj'. by simplify_eq. }
  by repeat case_decide; tauto.
Qed.

Lemma sweptAll_cleaned T perShard d clock db db' m kss :
  sweptAll perShard clock db db' m kss -> (forall i, T <= clock i) -> 0 <= d -> 1 <= perShard ->
  (forall k, shardIndexFor db' k = shardIndexFor db k) ->
  cleaned T perShard d db m -> cleaned T perShard (d + 1) db' (dropKeys (concat kss) m).
Proof.
  intros HA HT Hd Hps Hidx Hcl i sh' Hsh'. pose proof HA as (_ & Hlen & Hall).
  destruct (same_length_lookup kss (shards_ db') i sh') as [ks Hks]; [done..|].
  destruct (Hall i ks Hks) as (sh & x & r & Hsh & Hx & Hs). simplify_eq.
  rewrite (sw_count _ _ _ _ _ _ _ Hs), (sweptAll_shardMap _ _ _ _ _ _ _ _ HA Hks Hidx).
  destruct (Hcl i sh Hsh) as [H0|Hp]; [by left|right].
  pose proof (len_nonneg (HashTable.buckets_ (table sh))) as Hnn.
  fold (HashTable.bucketCount (table sh)) in Hnn.
  apply (sw_progress _ _ _ _ _ _ _ Hs) in Hp; [|apply HT|nia].
  by rewrite Z.mul_add_distr_r, Z.mul_1_l.
Qed.

Lemma sweptAll_counts perShard clock db db' m kss :
  sweptAll perShard clock db db' m kss -> bucketCounts db' = bucketCounts db.
Proof.
  intros (Hl & Hl' & Hall). unfold bucketCounts. apply list_eq. intros i.
  rewrite !list_lookup_fmap. destruct (kss !! i) as [ks|] eqn:Hks.
  - destruct (Hall i ks Hks) as (sh & sh' & r & -> & -> & Hs). simpl.
    f_equal. apply (sw_count _ _ _ _ _ _ _ Hs).
  - apply lookup_ge_None in Hks. by rewrite !(proj2 (lookup_ge_None _ _)) by lia.
Qed.

(** One pass, seen from the keyspace: the keys removed, and the ground gained. *)
Lemma removeExpired_pass T db m rs maxBuckets clock d :
  dbRep db m rs -> 0 < maxBuckets -> (forall i, T <= clock i) -> 0 <= d ->
  let perShard := Z.max (maxBuckets / shardCount db) 1 in
  cleaned T perShard d db m ->
  exists db' rs' ks, removeExpired db maxBuckets clock = Some (db', u64 (len ks)) /\
    dbRep db' (dropKeys ks m) rs' /\ NoDup ks /\
    (forall k, k ∈ ks -> exists e i, m !! k = Some e /\ isExpiredAt e (clock i) = true) /\
    cleaned T perShard (d + 1) db' (dropKeys ks m) /\
    maxMemoryBytes_ db' = maxMemoryBytes_ db /\ bucketCounts db' = bucketCounts db.
Proof.
  intros HD Hmax HT Hd perShard Hcl.
  destruct (removeExpired_rep db m rs maxBuckets clock HD Hmax)
    as (db' & n & rs' & kss & Hrun & HD' & Hlim & Hkss & Hlen & -> & Hsw & Hidx).
  fold perShard in Hsw.
  assert (sweptAll perShard clock db db' m kss) as HA.
  { split_and!; [congruence..|]. intros i ks Hks.
    destruct (same_length_lookup (shards_ db) kss i ks) as [sh Hsh]; [done..|].
    destruct (same_length_lookup (shards_ db') kss i ks) as [sh' Hsh']; [congruence|done|].
    destruct (same_length_lookup rs kss i ks) as [r Hr]; [by rewrite (dr_length _ _ _ HD)|done|].
    exists sh, sh', r. eauto 10. }
  exists db', rs', (concat kss). rewrite len_concat. split_and!; [done..| | | |done|].
  - by eapply sweptAll_nodup.
  - intros k (i & ks & Hi & Hk)%concat_elem_of.
    destruct (sweptAll_key _ _ _ _ _ _ i ks k HA Hi Hk) as (_ & e & He). eauto.
  - eapply sweptAll_cleaned; try done. unfold perShard. lia.
  - by eapply sweptAll_counts.
Qed.

(** Any number of passes. *)
Lemma sweepPasses_rep T maxBuckets clocks db m rs d n :
  dbRep db m rs -> 0 < maxBuckets -> (forall clock, clock ∈ clocks -> forall i, T <= clock i) ->
  0 <= d -> let perShard := Z.max (maxBuckets / shardCount db) 1 in
  cleaned T perShard d db m ->
  exists db' rs' ks,
    foldM (fun st clock => r ← removeExpired (fst st) maxBuckets clock;
                           Some (fst r, u64 (snd st + snd r))) (db, u64 n) clocks
      = Some (db', u64 (n + len ks)) /\
    dbRep db' (dropKeys ks m) rs' /\ NoDup ks /\
    (forall k, k ∈ ks -> exists e clock i, clock ∈ clocks /\ m !! k = Some e /\
      isExpiredAt e (clock i) = true) /\
    cleaned T perShard (d + len clocks) db' (dropKeys ks m) /\
    maxMemoryBytes_ db' = maxMemoryBytes_ db /\ bucketCounts db' = bucketCounts db.
Proof.
  intros HD Hmax. revert db m rs d n HD.
  induction clocks as [|clock clocks IH]; intros db m rs d n HD HT Hd perShard Hcl; cbn [foldM].
  { exists db, rs, []. rewrite !Z.add_0_r. split_and!; try done; [constructor|].
    by intros k ?%not_elem_of_nil. }
  destruct (removeExpired_pass T db m rs maxBuckets clock d)
    as (db1 & rs1 & ks1 & Hrun1 & HD1 & Hnd1 & Hks1 & Hcl1 & Hlim1 & Hbc1); try done.
  { apply HT. by left. }
  assert (shardCount db1 = shardCount db) as Hsc.
  { apply (f_equal len) in Hbc1. unfold bucketCounts, len in Hbc1.
    by rewrite !length_fmap in Hbc1. }
  cbn [fst snd]. rewrite Hrun1. cbn [mbind option_bind fst snd]. rewrite u64_idemp_add.
  destruct (IH db1 (dropKeys ks1 m) rs1 (d + 1) (n + len ks1))
    as (db2 & rs2 & ks2 & -> & HD2 & Hnd2 & Hks2 & Hcl2 & Hlim2 & Hbc2); try done; try lia.
  { intros c Hc. apply HT. by right. }
  { by rewrite Hsc. }
  exists db2, rs2, (ks2 ++ ks1). rewrite dropKeys_app, len_app, len_cons.
  rewrite Hsc in Hcl2. split_and!; try congruence; try done.
  - do 3 f_equal. lia.
  - apply NoDup_app. split_and!; [done| |done]. intros k Hk Hk'.
    destruct (Hks2 k Hk) as (e & _ & _ & _ & He & _).
    by rewrite dropKeys_lookup, decide_True in He.
  - intros k [Hk|Hk]%elem_of_app.
    + destruct (Hks2 k Hk) as (e & c & i & Hc & He & Hx). rewrite dropKeys_lookup in He.
      case_decide; [done|]. exists e, c, i. split_and!; [by right|done..].
    + destruct (Hks1 k Hk) as (e & i & He & Hx). exists e, clock, i. split_and!; [by left|done..].
  - by replace (d + (1 + len clocks)) with (d + 1 + len clocks) by lia.
Qed.

End Expiry.
