(* ===== verification/StoreClaims.v ===== *)
(** * The database: theorems

    Every operation of [Database] against the keyspace it represents: values and
    deadlines, the memory limit with its least-recently-used eviction, expiry,
    snapshot and restore. *)
From S2P Require Import Prelude.
From S2P Require Import Hash.
From S2P Require Import Table.
From S2P Require Import RecencyList.
From S2P Require Import TableInv.
From S2P Require Import TableSpec.
From S2P Require Import TableSweep.
From S2P Require Import Store.
From S2P Require Import StoreSpec.
From S2P Require Import StoreBulk.
From S2P Require Import StoreSweep.
Import Database.

#[local] Open Scope Z_scope.

(** ** A concrete database *)

Definition sampleClock : nat -> time_point := fun _ => 5000000000.

(** Two shards; three keys, one of them with ten seconds to live. *)
Definition sampleDb : t :=
  default (mk [] 0 0 0)
    (db ← new 8 2;
     r ← set (H := lp64) db (bs "a") (bs "1");
     r ← setEx (H := lp64) (fst r) (bs "b") (bs "2") 10 0;
     r ← set (H := lp64) (fst r) (bs "c") (bs "3");
     Some (fst r)).

Definition sampleKeyspace : gmap bytes Entry :=
  <[bs "c" := mkEntry (bs "c") (bs "3") None]>
  (<[bs "b" := mkEntry (bs "b") (bs "2") (Some 10000000000)]>
  (<[bs "a" := mkEntry (bs "a") (bs "1") None]> ∅)).

(** The same database limited to 400 bytes. *)
Definition limitedDb : t := default (mk [] 0 0 0) (setMaxMemory (H := lp64) sampleDb 400).

(** The entries of a map, in some order. *)
Definition listing (m : gmap bytes Entry) (es : list Entry) : Prop :=
  NoDup (ekey <$> es) /\ forall e, e ∈ es <-> m !! ekey e = Some e.

(** What the last section loads. *)
Definition sampleEntries : list Entry :=
  [mkEntry (bs "a") (bs "1") None; mkEntry (bs "b") (bs "2") None;
   mkEntry (bs "c") (bs "3") None; mkEntry (bs "d") (bs "4") None].

Section Helpers.
Context `{Platform}.

Lemma loadAll_live now es k e : loadAll now es !! k = Some e -> isExpiredAt e now = false.
Proof.
  unfold loadAll. assert (forall l m, (forall x y, m !! x = Some y -> isExpiredAt y now = false) ->
    forall x y, fold_left (loadEntry now) l m !! x = Some y -> isExpiredAt y now = false) as Hinv.
  { induction l as [|a l IH]; intros m0 Hm0; [done|]. cbn. apply IH. unfold loadEntry.
    destruct (isExpiredAt a now) eqn:Ha; [done|]. intros x y.
    rewrite lookup_insert_Some. intros [[_ <-]|[_ Hy]]; [done|by eapply Hm0]. }
  apply Hinv. intros x y. by rewrite lookup_empty.
Qed.

Lemma set_unlimited db m rs k v :
  dbRep db m rs -> maxMemoryBytes_ db = 0 -> Z.of_nat (base.size m) < maxEntries ->
  exists db' out rs', set db k v = Some (db', out) /\
    dbRep db' (<[k := mkEntry k v None]> m) rs' /\ maxMemoryBytes_ db' = 0.
Proof.
  intros HD Hmax Hroom. destruct (set_rep db m rs k v HD Hroom) as (db' & sh' & r & r' & vs & -> & _ & _ & HD' & HE & _ & Hm');
    [unfold fitsWithinLimit; by rewrite Hmax|].
  rewrite Hmax in *. rewrite (ev_unlimited _ _ _ _ _ _ HE) in HD' by done. eauto 10.
Qed.

Lemma setEx_unlimited db m rs k v s now d :
  dbRep db m rs -> maxMemoryBytes_ db = 0 -> Z.of_nat (base.size m) < maxEntries ->
  timeAfter now s = Some d ->
  exists db' out rs', setEx db k v s now = Some (db', out) /\
    dbRep db' (<[k := mkEntry k v (Some d)]> m) rs' /\ maxMemoryBytes_ db' = 0.
Proof.
  intros HD Hmax Hroom Ht. destruct (setEx_rep db m rs k v s now d HD Hroom) as (db' & sh' & r & r' & vs & -> & _ & _ & HD' & HE & _ & Hm');
    [unfold fitsWithinLimit; by rewrite Hmax|done|].
  rewrite Hmax in *. rewrite (ev_unlimited _ _ _ _ _ _ HE) in HD' by done. eauto 10.
Qed.

(** All recency orders together list the keyspace once. *)
Lemma orders_list db m rs : dbRep db m rs -> NoDup (concat rs) /\ (forall k, k ∈ concat rs <-> is_Some (m !! k)).
Proof.
  intros HD. assert (forall i r, rs !! i = Some r -> exists ht, Rep ht (shardMap db m i) r) as Hall.
  { intros i r Hr. destruct (same_length_lookup (shards_ db) rs i r) as [sh Hsh];
      [by rewrite (dr_length _ _ _ HD)|done|]. eexists. by eapply dr_shard. }
  split.
  - apply NoDup_concat_separate.
    + intros i r Hr. destruct (Hall i r Hr) as [ht HR]. by eapply Rep_NoDup.
    + intros i j r r' k Hi Hj Hk Hk'. destruct (Hall i r Hi) as [ht HR], (Hall j r' Hj) as [ht' HR'].
      destruct (Rep_shard_mem _ _ _ _ _ _ HR Hk) as [<- _]. by destruct (Rep_shard_mem _ _ _ _ _ _ HR' Hk') as [<- _].
  - intros k. rewrite concat_elem_of. split.
    + intros (i & r & Hr & Hk). destruct (Hall i r Hr) as [ht HR]. by eapply Rep_shard_mem.
    + intros Hk. destruct (shardFor_rep db m rs k HD) as (sh & r & _ & Hr & HR & _).
      exists (shardIndexFor db k), r. split; [done|]. rewrite (Rep_mem _ _ _ _ HR). by rewrite shardMap_own.
Qed.

Lemma orders_size db m rs : dbRep db m rs -> len (concat rs) = Z.of_nat (base.size m).
Proof.
  intros HD. destruct (orders_list db m rs HD) as [Hnd Hin]. unfold len. f_equal.
  assert (list_to_set (C := gset bytes) (concat rs) = dom m) as Hdom.
  { apply set_eq. intros k. by rewrite elem_of_list_to_set, elem_of_dom, Hin. }
  rewrite <- size_dom, <- Hdom. by rewrite size_list_to_set.
Qed.

Lemma sumShards_sumZ f db : (forall sh, sh ∈ shards_ db -> 0 <= f sh) ->
  sumShards f db = u64 (sumZ f (shards_ db)).
Proof.
  unfold sumShards. intros Hf. replace 0 with (u64 0) at 1 by done.
  replace (sumZ f (shards_ db)) with (0 + sumZ f (shards_ db)) by lia.
  generalize 0 as z. induction (shards_ db) as [|sh l IH]; intros z; cbn; [by rewrite Z.add_0_r|].
  rewrite u64_idemp_add_l, IH; [f_equal; lia|]. intros x Hx. apply Hf. by right.
Qed.

Lemma sizes_sum db m rs : dbRep db m rs ->
  sumZ (fun sh => HashTable.size (table sh)) (shards_ db) = len (concat rs).
Proof.
  intros HD. rewrite len_concat. pose proof (dr_length _ _ _ HD) as Hlen.
  assert (forall i sh r, shards_ db !! i = Some sh -> rs !! i = Some r -> HashTable.size (table sh) = len r) as Hall.
  { intros i sh r Hsh Hr. destruct (Rep_size _ _ _ (dr_shard _ _ _ HD _ _ _ Hsh Hr)) as [Hs _]. done. }
  revert rs Hlen Hall HD. intros rs Hlen Hall _. revert rs Hlen Hall.
  induction (shards_ db) as [|sh l IH]; intros [|r rs] Hlen Hall; cbn in *; try lia.
  rewrite (Hall 0%nat sh r eq_refl eq_refl), (IH rs); [done|lia|]. intros i. apply (Hall (S i)).
Qed.

End Helpers.

Lemma sampleDb_rep : exists rs, dbRep (H := lp64) sampleDb sampleKeyspace rs /\ maxMemoryBytes_ sampleDb = 0.
Proof.
  unfold sampleDb.
  destruct (new_db_rep (H := lp64) 8 2) as (db0 & -> & HD0 & Hm0 & _); [lia..|]. cbn [mbind option_bind].
  destruct (set_unlimited (H := lp64) db0 ∅ _ (bs "a") (bs "1") HD0 Hm0 ltac:(done)) as (db1 & o1 & rs1 & -> & HD1 & Hm1).
  cbn [mbind option_bind fst].
  destruct (setEx_unlimited (H := lp64) db1 _ _ (bs "b") (bs "2") 10 0 _ HD1 Hm1 ltac:(done) eq_refl)
    as (db2 & o2 & rs2 & -> & HD2 & Hm2). cbn [mbind option_bind fst].
  destruct (set_unlimited (H := lp64) db2 _ _ (bs "c") (bs "3") HD2 Hm2 ltac:(done)) as (db3 & o3 & rs3 & -> & HD3 & Hm3).
  eexists. split; [exact HD3|exact Hm3].
Qed.

Lemma limitedDb_rep : exists m rs, dbRep (H := lp64) limitedDb m rs /\ maxMemoryBytes_ limitedDb = 400 /\
  Z.of_nat (base.size m) < maxEntries.
Proof.
  destruct sampleDb_rep as (rs & HD & _).
  destruct (setMaxMemory_rep (H := lp64) sampleDb _ rs 400 HD) as (db' & rs' & vss & Hrun & HD' & Hm & _); [lia|].
  unfold limitedDb. rewrite Hrun. eexists _, _. split_and!; [exact HD'|exact Hm|].
  assert (base.size (dropKeys (concat vss) sampleKeyspace) <= base.size sampleKeyspace)%nat as Hle.
  { apply map_subseteq_size. intros k. rewrite dropKeys_lookup.
    case_decide; by destruct (sampleKeyspace !! k). }
  change (base.size sampleKeyspace) with 3%nat in Hle. unfold maxEntries. lia.
Qed.

Section Properties.
Context `{Platform}.

(** C9: a SET that fits always stores the value and can read it back at any
    instant; when the shard is over its slice of the memory limit it evicts
    keys of that shard only, from the least recently used end, no more than
    needed, and never the key just written; every other key is untouched. *)
Theorem set_evicts_least_recent db m rs key value :
  dbRep db m rs -> Z.of_nat (base.size m) < maxEntries -> fitsWithinLimit db key value = true ->
  exists db' sh' r r' victims,
    set db key value = Some (db', if m !! key is Some _ then Updated else Inserted) /\
    rs !! shardIndexFor db key = Some r /\ shardFor db' key = Some sh' /\
    dbRep db' (dropKeys victims (<[key := mkEntry key value None]> m))
      (<[shardIndexFor db key := r']> rs) /\
    evicts (sliceOf (maxMemoryBytes_ db) (len (shards_ db))) (HashTable.bucketCount (table sh'))
      (<[key := mkEntry key value None]> m) (toFront key r) r' victims /\
    (key ∉ victims) /\ (forall now, exists db2, get db' key now = Some (db2, Some value)).
Proof.
  intros HD Hroom Hfit.
  destruct (set_rep db m rs key value HD Hroom Hfit)
    as (db' & sh' & r & r' & vs & -> & Hr & Hsh' & HD' & HE & Hk & Hm').
  exists db', sh', r, r', vs. split_and!; try done. intros now.
  destruct (get_rep db' _ _ key now HD') as (db2 & rs2 & -> & _). exists db2.
  by rewrite visible_lookup, dropKeys_lookup, decide_False, lookup_insert_eq by done.
Qed.

(** A write is rejected exactly when a limit is set and the entry alone is
    larger than the whole limit, and a rejected write changes nothing. *)
Theorem set_rejected_iff db m rs key value :
  dbRep db m rs -> Z.of_nat (base.size m) < maxEntries ->
  ((exists db', set db key value = Some (db', Rejected)) <->
    maxMemoryBytes_ db <> 0 /\ maxMemoryBytes_ db < HashTable.footprintEstimate key value) /\
  (forall db', set db key value = Some (db', Rejected) -> db' = db).
Proof.
  intros HD Hroom.
  assert (fitsWithinLimit db key value = false <->
    maxMemoryBytes_ db <> 0 /\ maxMemoryBytes_ db < HashTable.footprintEstimate key value) as Hiff.
  { unfold fitsWithinLimit. ztests; split; try done; lia. }
  destruct (fitsWithinLimit db key value) eqn:Hfit.
  - destruct (set_rep db m rs key value HD Hroom Hfit) as (db' & sh' & r & r' & vs & -> & _).
    destruct (m !! key); (split; [split; [intros [? ?]; done|intros ?%Hiff; done]|done]).
  - rewrite (set_rejected db m rs key value HD Hfit). split; [|by intros db' [= <-]].
    split; [intros _; by apply Hiff|eauto].
Qed.

(** SET with a time to live stores the deadline [now + ttl] under the same
    eviction rules; the key is served before the deadline and gone from it on. *)
Theorem setEx_deadline db m rs key value ttl now deadline :
  dbRep db m rs -> Z.of_nat (base.size m) < maxEntries -> fitsWithinLimit db key value = true ->
  timeAfter now ttl = Some deadline ->
  exists db' sh' r r' victims,
    setEx db key value ttl now = Some (db', if m !! key is Some _ then Updated else Inserted) /\
    rs !! shardIndexFor db key = Some r /\ shardFor db' key = Some sh' /\
    dbRep db' (dropKeys victims (<[key := mkEntry key value (Some deadline)]> m))
      (<[shardIndexFor db key := r']> rs) /\
    evicts (sliceOf (maxMemoryBytes_ db) (len (shards_ db))) (HashTable.bucketCount (table sh'))
      (<[key := mkEntry key value (Some deadline)]> m) (toFront key r) r' victims /\
    (forall t, exists db2, get db' key t = Some (db2, if t <? deadline then Some value else None)).
Proof.
  intros HD Hroom Hfit Ht.
  destruct (setEx_rep db m rs key value ttl now deadline HD Hroom Hfit Ht)
    as (db' & sh' & r & r' & vs & -> & Hr & Hsh' & HD' & HE & Hk & Hm').
  exists db', sh', r, r', vs. split_and!; try done. intros t.
  destruct (get_rep db' _ _ key t HD') as (db2 & rs2 & -> & _). exists db2.
  rewrite visible_lookup, dropKeys_lookup, decide_False, lookup_insert_eq by done.
  unfold isExpiredAt. cbn [expiration]. ztests; try lia; done.
Qed.

(** GET returns the stored value of a key that has not expired and nothing
    otherwise; it never changes the keyspace, and moves the key to the front of
    its shard's recency order exactly when it was found and a limit is set. *)
Theorem get_visible db m rs key now r :
  dbRep db m rs -> rs !! shardIndexFor db key = Some r ->
  exists db' rs', get db key now = Some (db', evalue <$> visible m now !! key) /\
    dbRep db' m rs' /\ maxMemoryBytes_ db' = maxMemoryBytes_ db /\
    rs' = if bool_decide (is_Some (visible m now !! key)) && negb (maxMemoryBytes_ db =? 0)
          then <[shardIndexFor db key := toFront key r]> rs else rs.
Proof.
  intros HD Hr. destruct (get_rep db m rs key now HD) as (db' & rs' & -> & HD' & Hm & Hrs).
  exists db', rs'. split_and!; try done. by apply Hrs.
Qed.

(** DEL reports whether the key was visible, removes it whether or not it
    had expired, and leaves every other key. *)
Theorem del_removes db m rs key now :
  dbRep db m rs ->
  exists db' rs', del db key now = Some (db', bool_decide (is_Some (visible m now !! key))) /\
    dbRep db' (delete key m) rs' /\ (forall t, exists_ db' key t = Some false).
Proof.
  intros HD. destruct (del_rep db m rs key now HD) as (db' & rs' & -> & HD' & _).
  exists db', rs'. split_and!; try done. intros t.
  rewrite (exists_rep _ _ _ key t HD'), visible_lookup, lookup_delete_eq. done.
Qed.

(** TTL reports, for a visible key with a deadline, the remaining time
    rounded up to whole seconds (so never zero), and nothing for any other key. *)
Theorem ttl_rounds_up db m rs key now :
  dbRep db m rs ->
  (forall e d, m !! key = Some e -> expiration e = Some d -> int64Range (d - now) = true) ->
  exists res, ttl db key now = Some res /\
    match res with
    | Some s => exists e d, visible m now !! key = Some e /\ expiration e = Some d /\
        0 < s /\ (s - 1) * nanosPerSecond < d - now <= s * nanosPerSecond
    | None => forall e, visible m now !! key = Some e -> expiration e = None
    end.
Proof.
  intros HD Hr. rewrite (ttl_rep db m rs key now HD Hr). eexists. split; [done|].
  destruct (visible m now !! key) as [e|] eqn:Hv; cbn; [|done].
  destruct (expiration e) as [d|] eqn:Hd; cbn; [|by intros e' [= <-]].
  exists e, d. split_and!; try done.
  all: rewrite visible_lookup in Hv; destruct (m !! key) as [e'|]; [|done];
    destruct (isExpiredAt e' now) eqn:Hx; [done|]; simplify_eq; unfold isExpiredAt in Hx; rewrite Hd in Hx;
    apply Z.leb_gt in Hx; pose proof (ceilSeconds_spec (d - now) ltac:(lia)) as Hc;
    unfold nanosPerSecond in *; lia.
Qed.

(** KEYS lists every key that is visible when its shard is read, once, and
    no other. *)
Theorem keys_exact db m rs clock :
  dbRep db m rs ->
  exists ks, keys db clock = Some ks /\ NoDup ks /\
    forall k, k ∈ ks <-> is_Some (visible m (clock (shardIndexFor db k)) !! k).
Proof.
  intros HD. destruct (keys_rep db m rs clock HD) as (ks & -> & Hnd & Hks). exists ks.
  split_and!; try done. intros k. rewrite Hks, visible_lookup. split.
  - intros (e & -> & ->). eauto.
  - destruct (m !! k) as [e|]; [|by intros []]. destruct (isExpiredAt e _) eqn:Hx; [by intros []|]. eauto.
Qed.

(** C38: changing the memory limit trims every shard to its new slice, from the
    least recently used end and no more than needed, and changes no entry that
    stays. *)
Theorem setMaxMemory_trims db m rs limit :
  dbRep db m rs -> 0 <= limit ->
  exists db' rs' vss, setMaxMemory db limit = Some db' /\
    dbRep db' (dropKeys (concat vss) m) rs' /\ maxMemoryBytes_ db' = limit /\
    length vss = length (shards_ db) /\
    (forall i r r' vs, rs !! i = Some r -> rs' !! i = Some r' -> vss !! i = Some vs ->
      exists sh', shards_ db' !! i = Some sh' /\
        evicts (sliceOf limit (len (shards_ db))) (HashTable.bucketCount (table sh')) m r r' vs).
Proof. apply setMaxMemory_rep. Qed.

(** Loading a snapshot of one database into another, whatever the second one
    held, leaves exactly the entries that were visible when the snapshot was taken
    and still are when it is loaded, with their values and deadlines. *)
Theorem snapshot_restore db m rs db2 m2 rs2 now now' :
  dbRep db m rs -> dbRep db2 m2 rs2 -> Z.of_nat (base.size m) <= maxEntries ->
  exists es db' rs', snapshot db (fun _ => now) = Some es /\
    restore db2 es now' =
      Some (db', len (List.filter (fun e => negb (isExpiredAt e now')) es)) /\
    dbRep db' (visible (visible m now) now') rs' /\ maxMemoryBytes_ db' = maxMemoryBytes_ db2.
Proof.
  intros HD HD2 Hsize. destruct (snapshot_rep db m rs (fun _ => now) HD) as (es & Hsnap & Hnd & Hes).
  assert (len es <= maxEntries) as Hlen.
  { destruct (orders_list db m rs HD) as [_ Hin]. rewrite <- (orders_size db m rs HD) in Hsize.
    etransitivity; [|exact Hsize]. unfold len. apply inj_le.
    rewrite <- (length_fmap ekey es). apply submseteq_length, NoDup_submseteq; [done|].
    intros k (e & -> & He)%list_elem_of_fmap. apply Hin. apply Hes in He as [He _]. eauto. }
  destruct (restore_rep db2 m2 rs2 es now' HD2 Hlen) as (db' & rs' & Hres & HD' & Hm').
  exists es, db', rs'. split_and!; try done.
  replace (visible (visible m now) now') with (loadAll now' es); [done|].
  apply map_eq. intros k. apply option_eq. intros e. rewrite loadAll_lookup by done. rewrite Hes.
  rewrite !visible_lookup. split.
  - intros ((He & Hx) & <- & Hx'). by rewrite He, Hx, Hx'.
  - destruct (m !! k) as [e0|] eqn:He0; [|done]. destruct (isExpiredAt e0 now) eqn:Hx; [done|].
    destruct (isExpiredAt e0 now') eqn:Hx'; [done|]. intros [= <-].
    assert (ekey e0 = k) as Hk.
    { destruct (shardFor_rep db m rs k HD) as (sh & r & _ & _ & HR & _).
      eapply Rep_key; [exact HR|]. by rewrite shardMap_own. }
    rewrite Hk. done.
Qed.

(** [restore] replaces the whole keyspace by the listed entries, later ones
    winning and expired ones skipped, and returns how many it stored. *)
Theorem restore_replaces db m rs es now :
  dbRep db m rs -> len es <= maxEntries ->
  exists db' rs', restore db es now =
      Some (db', len (List.filter (fun e => negb (isExpiredAt e now)) es)) /\
    dbRep db' (loadAll now es) rs' /\
    (forall k, exists db2, get db' k now = Some (db2, evalue <$> loadAll now es !! k)).
Proof.
  intros HD Hlen. destruct (restore_rep db m rs es now HD Hlen) as (db' & rs' & -> & HD' & Hm).
  exists db', rs'. split_and!; try done. intros k.
  destruct (get_rep db' _ _ k now HD') as (db2 & rs2 & -> & _). exists db2. do 2 f_equal.
  rewrite visible_lookup. destruct (loadAll now es !! k) as [e|] eqn:He; [|done].
  by rewrite (loadAll_live now es k e He).
Qed.

(** [size] counts the stored entries, expired ones included, and [empty]
    says whether there are none. *)
Theorem size_counts db m rs :
  dbRep db m rs -> Z.of_nat (base.size m) < 2 ^ 64 ->
  size db = Z.of_nat (base.size m) /\ isEmpty db = bool_decide (m = ∅).
Proof.
  intros HD Hsize. unfold size. rewrite sumShards_sumZ.
  2:{ intros sh [i Hi]%list_elem_of_lookup.
      destruct (same_length_lookup rs (shards_ db) i sh) as [r Hr]; [by rewrite (dr_length _ _ _ HD)|done|].
      rewrite (Rep_map_size _ _ _ (dr_shard _ _ _ HD _ _ _ Hi Hr)). lia. }
  rewrite (sizes_sum db m rs HD), (orders_size db m rs HD), u64_small by lia. split; [done|].
  apply eq_bool_prop_intro. rewrite !Is_true_true, bool_decide_eq_true. unfold isEmpty.
  rewrite forallb_forall. split.
  - intros Hall. apply map_eq. intros k. rewrite lookup_empty, <- (shardMap_own db m).
    destruct (shardFor_rep db m rs k HD) as (sh & r & Hsh & _ & HR & _).
    unfold shardFor in Hsh. assert (HashTable.isEmpty (table sh) = true) as He.
    { apply Hall, list_elem_of_In. by eapply list_elem_of_lookup_2. }
    apply (Rep_empty _ _ _ HR) in He. by rewrite He.
  - intros -> sh [i Hi]%list_elem_of_In%list_elem_of_lookup.
    destruct (dbRep_shardsRep _ _ _ HD i sh Hi) as [r HR]. rewrite shardMap_empty in HR.
    by apply (Rep_empty _ _ _ HR).
Qed.

(** C15: passes of the sweeper always return; they remove only entries that had
    expired when their shard was visited, so nothing a client can see later
    changes; and once the passes have covered every bucket, no entry that had
    expired before they began is left. *)
Theorem sweep_complete db m rs maxBuckets clocks T T' :
  dbRep db m rs -> 0 < maxBuckets ->
  (forall clock, clock ∈ clocks -> forall i, T <= clock i <= T') ->
  0 < len clocks ->
  (forall sh, sh ∈ shards_ db -> HashTable.bucketCount (table sh) <=
     len clocks * Z.max (maxBuckets / shardCount db) 1) ->
  exists db' rs' ks, sweepPasses db maxBuckets clocks = Some (db', u64 (len ks)) /\
    dbRep db' (dropKeys ks m) rs' /\ NoDup ks /\
    (forall k, k ∈ ks -> exists e, m !! k = Some e /\ isExpiredAt e T' = true) /\
    (forall t, T' <= t -> visible (dropKeys ks m) t = visible m t) /\
    (forall k e, dropKeys ks m !! k = Some e -> isExpiredAt e T = false).
Proof.
  intros HD Hmax HT Hlen Hcover. unfold sweepPasses.
  destruct (sweepPasses_rep T maxBuckets clocks db m rs 0 0 HD Hmax)
    as (db' & rs' & ks & Hrun & HD' & Hnd & Hks & Hcl & _ & Hbc); [|lia|by eapply cleaned_start|].
  { intros c Hc i. by apply HT. }
  exists db', rs', ks. rewrite Z.add_0_l in Hrun, Hcl.
  assert (forall k, k ∈ ks -> exists e, m !! k = Some e /\ isExpiredAt e T' = true) as Hexp.
  { intros k Hk. destruct (Hks k Hk) as (e & c & i & Hc & He & Hx). exists e. split; [done|].
    eapply isExpiredAt_mono; [|exact Hx]. by apply HT. }
  split_and!; try done.
  - intros t Ht. apply map_eq. intros k. rewrite !visible_lookup, dropKeys_lookup.
    case_decide as Hk; [|done]. destruct (Hexp k Hk) as (e & -> & Hx).
    by rewrite (isExpiredAt_mono e T' t Ht Hx).
  - eapply cleaned_done; [exact HD'|exact Hcl|lia|]. intros sh' Hsh'.
    assert (HashTable.bucketCount (table sh') ∈ bucketCounts db') as Hin
      by (apply list_elem_of_fmap; eauto).
    rewrite Hbc in Hin. apply list_elem_of_fmap in Hin as (sh & -> & Hsh). by apply Hcover.
Qed.

End Properties.


(** ** Witnesses *)

Lemma set_evicts_witness : exists db', set (H := lp64) sampleDb (bs "a") (bs "9") = Some (db', Updated).
Proof.
  destruct sampleDb_rep as (rs & HD & _).
  destruct (set_evicts_least_recent (H := lp64) sampleDb sampleKeyspace rs (bs "a") (bs "9") HD)
    as (db' & _ & _ & _ & _ & Hrun & _); [vm_compute; done|vm_compute; done|].
  exists db'. exact Hrun.
Defined.

Lemma set_rejected_witness : exists db',
  set (H := lp64) limitedDb (bs "key") (replicate 500 x41) = Some (db', Rejected).
Proof.
  destruct limitedDb_rep as (m & rs & HD & Hmax & Hsize).
  apply (proj1 (set_rejected_iff (H := lp64) limitedDb m rs (bs "key") (replicate 500 x41) HD Hsize)).
  rewrite Hmax. split; [lia|]. vm_compute. done.
Defined.

Lemma setEx_deadline_witness : exists db', setEx (H := lp64) sampleDb (bs "d") (bs "4") 60 0 = Some (db', Inserted).
Proof.
  destruct sampleDb_rep as (rs & HD & _).
  destruct (setEx_deadline (H := lp64) sampleDb sampleKeyspace rs (bs "d") (bs "4") 60 0 60000000000 HD)
    as (db' & _ & _ & _ & _ & Hrun & _); [vm_compute; done|vm_compute; done|vm_compute; done|].
  exists db'. exact Hrun.
Defined.

Lemma get_visible_witness : exists db', get (H := lp64) sampleDb (bs "b") 5 = Some (db', Some (bs "2")).
Proof.
  destruct sampleDb_rep as (rs & HD & _).
  destruct (lookup_lt_is_Some_2 rs (shardIndexFor sampleDb (bs "b"))) as [r Hr].
  { rewrite (dr_length _ _ _ HD). apply shardIndexFor_lt, HD. }
  destruct (get_visible (H := lp64) sampleDb sampleKeyspace rs (bs "b") 5 r HD Hr) as (db' & _ & Hrun & _).
  exists db'. exact Hrun.
Defined.

Lemma del_removes_witness : exists db', del sampleDb (bs "b") 20000000000 = Some (db', false) /\
  exists_ db' (bs "b") 0 = Some false.
Proof.
  destruct sampleDb_rep as (rs & HD & _).
  destruct (del_removes (H := lp64) sampleDb sampleKeyspace rs (bs "b") 20000000000 HD)
    as (db' & _ & Hrun & _ & Hgone).
  exists db'. exact (conj Hrun (Hgone 0)).
Defined.

Lemma ttl_rounds_up_witness : exists res, ttl sampleDb (bs "b") 500 = Some res.
Proof.
  destruct sampleDb_rep as (rs & HD & _).
  destruct (ttl_rounds_up (H := lp64) sampleDb sampleKeyspace rs (bs "b") 500 HD) as (res & Hrun & _).
  { intros e d He Hd. vm_compute in He. injection He as <-. vm_compute in Hd. by injection Hd as <-. }
  exists res. exact Hrun.
Defined.

Lemma keys_exact_witness : exists ks, keys sampleDb sampleClock = Some ks /\ NoDup ks.
Proof.
  destruct sampleDb_rep as (rs & HD & _).
  destruct (keys_exact (H := lp64) sampleDb sampleKeyspace rs sampleClock HD) as (ks & Hrun & Hnd & _).
  exists ks. exact (conj Hrun Hnd).
Defined.

Lemma setMaxMemory_trims_witness : exists db', setMaxMemory (H := lp64) sampleDb 300 = Some db' /\
  maxMemoryBytes_ db' = 300.
Proof.
  destruct sampleDb_rep as (rs & HD & _).
  destruct (setMaxMemory_trims (H := lp64) sampleDb sampleKeyspace rs 300 HD) as (db' & _ & _ & Hrun & _ & Hm & _);
    [lia|].
  exists db'. exact (conj Hrun Hm).
Defined.

Lemma snapshot_restore_witness : exists es db' n,
  snapshot sampleDb sampleClock = Some es /\ restore (H := lp64) limitedDb es 6000000000 = Some (db', n).
Proof.
  destruct sampleDb_rep as (rs & HD & _). destruct limitedDb_rep as (m2 & rs2 & HD2 & _).
  destruct (snapshot_restore (H := lp64) sampleDb sampleKeyspace rs limitedDb m2 rs2 5000000000 6000000000 HD HD2)
    as (es & db' & _ & Hsnap & Hres & _); [vm_compute; done|].
  eexists es, db', _. exact (conj Hsnap Hres).
Defined.

Lemma restore_replaces_witness : exists db' n, restore (H := lp64) sampleDb sampleEntries 0 = Some (db', n).
Proof.
  destruct sampleDb_rep as (rs & HD & _).
  destruct (restore_replaces (H := lp64) sampleDb sampleKeyspace rs sampleEntries 0 HD) as (db' & _ & Hrun & _);
    [vm_compute; done|].
  eexists db', _. exact Hrun.
Defined.

Lemma size_counts_witness : size sampleDb = 3.
Proof.
  destruct sampleDb_rep as (rs & HD & _).
  exact (proj1 (size_counts (H := lp64) sampleDb sampleKeyspace rs HD ltac:(vm_compute; done))).
Defined.

Lemma sweep_complete_witness : exists db' (ks : list bytes),
  sweepPasses sampleDb 4 [(fun _ => 11000000000); (fun _ => 12000000000); (fun _ => 13000000000)]
    = Some (db', u64 (len ks)).
Proof.
  destruct sampleDb_rep as (rs & HD & _).
  destruct (sweep_complete (H := lp64) sampleDb sampleKeyspace rs 4
    [(fun _ => 11000000000); (fun _ => 12000000000); (fun _ => 13000000000)] 11000000000 13000000000 HD)
    as (db' & _ & ks & Hrun & _).
  - lia.
  - clear. intros c Hc i. rewrite !elem_of_cons, elem_of_nil in Hc.
    destruct Hc as [->|[->|[->|[]]]]; lia.
  - vm_compute. done.
  - intros sh Hsh. assert (forallb (fun sh => HashTable.bucketCount (table sh) <=? 6) (shards_ sampleDb) = true)
      as Hall by (vm_compute; done).
    pose proof (proj1 (forallb_forall _ _) Hall sh (proj1 (list_elem_of_In _ _) Hsh)) as Hle.
    apply Z.leb_le in Hle. etransitivity; [exact Hle|vm_compute; done].
  - exists db', ks. exact Hrun.
Defined.
