(* ===== verification/Text.v ===== *)
(** * Text: characters and decimal numbers

    The characters the protocol gives a meaning to, and what the program uses
    of the standard library for numbers in text: [std::to_string] and
    [std::from_chars] in base ten.  A [char] is an octet; none of the
    comparisons of the program depends on whether [char] is signed, since every
    one of them tests for a range of ASCII characters. *)
From S2P Require Import Prelude.

#[local] Open Scope Z_scope.

(** ** Characters *)

Definition chTab : byte := x09.
Definition chLF : byte := x0a.
Definition chCR : byte := x0d.
Definition chSpace : byte := x20.
Definition chQuote : byte := x22.
Definition chMinus : byte := x2d.
Definition chBackslash : byte := x5c.

(** [lo <= c && c <= hi] for characters. *)
Definition inRange (lo hi c : byte) : bool := (byteZ lo <=? byteZ c) && (byteZ c <=? byteZ hi).

(** [c >= '0' && c <= '9'] *)
Definition isDigit (c : byte) : bool := inRange x30 x39 c.

(** [c - '0'] *)
Definition digitValue (c : byte) : Z := byteZ c - byteZ x30.

(** A byte that prints on one line of an ASCII terminal. *)
Definition printable (c : byte) : bool := (32 <=? byteZ c) && (byteZ c <? 127).

(** ** Decimal numbers *)

(** The value of a run of digits. *)
Definition decimalValue (ds : bytes) : Z := fold_left (fun v c => v * 10 + digitValue c) ds 0.

(** [std::to_string] of a non-negative number; the digits of [n] come before
    [acc].  Each step divides by ten, so [Z.log2 n] steps are enough. *)
Fixpoint decimalDigits (fuel : nat) (n : Z) (acc : bytes) : bytes :=
  let acc' := byte_of_Z (byteZ x30 + n mod 10) :: acc in
  match fuel with
  | O => acc'
  | S fuel' => if n <? 10 then acc' else decimalDigits fuel' (n / 10) acc'
  end.

Definition to_string (n : Z) : bytes :=
  if n <? 0 then chMinus :: decimalDigits (Z.to_nat (Z.log2 (- n))) (- n) []
  else decimalDigits (Z.to_nat (Z.log2 n)) n [].

(** The longest prefix of characters that pass a test, and the rest. *)
Fixpoint spanBytes (p : byte -> bool) (s : bytes) : bytes * bytes :=
  match s with
  | [] => ([], [])
  | c :: s' => if p c then let '(a, b) := spanBytes p s' in (c :: a, b) else ([], s)
  end.

Inductive errc := noError | invalid_argument | result_out_of_range.

(** [std::from_chars(first, last, value)] for a signed integer in [lo, hi]:
    the error code, the characters left at [ptr], and the value stored. *)
Definition from_chars (lo hi : Z) (s : bytes) : errc * bytes * option Z :=
  let '(negative, t) :=
    match s with c :: s' => if decide (c = chMinus) then (true, s') else (false, s) | [] => (false, s) end in
  let '(ds, rest) := spanBytes isDigit t in
  match ds with
  | [] => (invalid_argument, s, None)
  | _ :: _ =>
      let v := if negative : bool then - decimalValue ds else decimalValue ds in
      if (lo <=? v) && (v <=? hi) then (noError, rest, Some v)
      else (result_out_of_range, rest, None)
  end.

(** ** Lemmas *)

Lemma spanBytes_spec p s a b :
  spanBytes p s = (a, b) ->
  s = a ++ b /\ Forall (fun c => p c = true) a /\ (forall c b', b = c :: b' -> p c = false).
Proof.
  revert a b. induction s as [|c s IH]; intros a b; simpl.
  - intros [= <- <-]. split_and!; [done|constructor|done].
  - destruct (p c) eqn:Hc.
    + destruct (spanBytes p s) as [a' b'] eqn:Hs. intros [= <- <-].
      destruct (IH a' b' eq_refl) as (-> & Ha & Hb). split_and!; [done|by constructor|done].
    + intros [= <- <-]. split_and!; [done|constructor|]. by intros c' b' [= <- <-].
Qed.

Lemma spanBytes_all p a b :
  Forall (fun c => p c = true) a -> (forall c b', b = c :: b' -> p c = false) ->
  spanBytes p (a ++ b) = (a, b).
Proof.
  intros Ha Hb. induction Ha as [|c a Hc Ha IH]; simpl.
  - destruct b as [|c b]; simpl; [done|]. by rewrite (Hb c b).
  - by rewrite Hc, IH.
Qed.

Lemma digit_of n : 0 <= n < 10 ->
  isDigit (byte_of_Z (byteZ x30 + n)) = true /\ digitValue (byte_of_Z (byteZ x30 + n)) = n.
Proof.
  intros Hn. unfold isDigit, inRange, digitValue. rewrite byteZ_of_Z.
  change (byteZ x30) with 48. change (byteZ x39) with 57.
  rewrite Z.mod_small by lia. split; [|lia]. apply andb_true_intro. lia.
Qed.

Lemma decimalDigits_digits fuel n acc :
  Forall (fun c => isDigit c = true) acc ->
  Forall (fun c => isDigit c = true) (decimalDigits fuel n acc).
Proof.
  revert n acc. induction fuel as [|fuel IH]; intros n acc Hacc; simpl;
    (assert (isDigit (byte_of_Z (byteZ x30 + n mod 10)) = true) as Hd
      by (apply digit_of, Z.mod_pos_bound; lia)).
  - by constructor.
  - destruct (n <? 10); [by constructor|]. apply IH. by constructor.
Qed.

Lemma decimalDigits_nonempty fuel n acc : decimalDigits fuel n acc <> [].
Proof. revert n acc. induction fuel; intros n acc; simpl; [done|]. by destruct (n <? 10). Qed.

Lemma decimalDigits_value fuel n acc v :
  0 <= n < 2 ^ (Z.of_nat fuel + 1) ->
  fold_left (fun v c => v * 10 + digitValue c) (decimalDigits fuel n acc) v =
  fold_left (fun v c => v * 10 + digitValue c) acc
    (fold_left (fun v c => v * 10 + digitValue c) (decimalDigits fuel n []) v).
Proof.
  revert n acc v. induction fuel as [|fuel IH]; intros n acc v Hn; cbn [decimalDigits]; [done|].
  destruct (n <? 10) eqn:E; [done|]. apply Z.ltb_ge in E.
  assert (0 <= n / 10 < 2 ^ (Z.of_nat fuel + 1)).
  { replace (Z.of_nat (S fuel) + 1) with (Z.succ (Z.of_nat fuel + 1)) in Hn by lia.
    rewrite Z.pow_succ_r in Hn by lia. split; [apply Z.div_pos; lia|].
    apply Z.div_lt_upper_bound; lia. }
  rewrite IH by done. rewrite (IH _ [_]) by done. done.
Qed.

Lemma decimalDigits_correct fuel n :
  0 <= n < 2 ^ (Z.of_nat fuel + 1) -> decimalValue (decimalDigits fuel n []) = n.
Proof.
  unfold decimalValue. revert n. induction fuel as [|fuel IH]; intros n Hn; cbn [decimalDigits].
  - assert (n < 10) by (simpl in Hn; lia). cbn [fold_left].
    destruct (digit_of (n mod 10)) as [_ ->]; [apply Z.mod_pos_bound; lia|].
    rewrite Z.mod_small; lia.
  - destruct (digit_of (n mod 10)) as [_ Hd]; [apply Z.mod_pos_bound; lia|].
    destruct (n <? 10) eqn:E; [apply Z.ltb_lt in E|apply Z.ltb_ge in E].
    + cbn [fold_left]. rewrite Hd, Z.mod_small; lia.
    + assert (0 <= n / 10 < 2 ^ (Z.of_nat fuel + 1)).
      { replace (Z.of_nat (S fuel) + 1) with (Z.succ (Z.of_nat fuel + 1)) in Hn by lia.
        rewrite Z.pow_succ_r in Hn by lia. split; [apply Z.div_pos; lia|].
        apply Z.div_lt_upper_bound; lia. }
      rewrite decimalDigits_value by done. rewrite IH by done. cbn [fold_left]. rewrite Hd.
      pose proof (Z.div_mod n 10). lia.
Qed.

(** What [std::to_string] writes for a non-negative number. *)
Lemma to_string_digits n : 0 <= n ->
  to_string n <> [] /\ Forall (fun c => isDigit c = true) (to_string n) /\
  decimalValue (to_string n) = n.
Proof.
  intros Hn. unfold to_string. destruct (Z.ltb_spec n 0); [lia|]. split_and!.
  - apply decimalDigits_nonempty.
  - apply decimalDigits_digits. constructor.
  - apply decimalDigits_correct. pose proof (Z.log2_nonneg n). rewrite Z2Nat.id by done.
    destruct (Z.eq_dec n 0) as [->|]; [done|]. pose proof (Z.log2_spec n). lia.
Qed.

Lemma isDigit_range c : isDigit c = true <-> 48 <= byteZ c <= 57.
Proof. unfold isDigit, inRange. change (byteZ x30) with 48. change (byteZ x39) with 57. lia. Qed.

Lemma printable_range c : printable c = true <-> 32 <= byteZ c < 127.
Proof. unfold printable. lia. Qed.

Lemma isDigit_printable c : isDigit c = true -> printable c = true.
Proof. rewrite isDigit_range, printable_range. lia. Qed.

(** Reading back what was written. *)
Lemma from_chars_to_string lo hi n :
  0 <= n -> lo <= n <= hi -> from_chars lo hi (to_string n) = (noError, [], Some n).
Proof.
  intros Hn Hr. destruct (to_string_digits n Hn) as (Hne & Hds & Hv). unfold from_chars.
  destruct (to_string n) as [|c s] eqn:Hs; [done|].
  assert (c <> chMinus) by (intros ->; by inversion Hds).
  rewrite decide_False by done.
  rewrite <- (app_nil_r (c :: s)), (spanBytes_all isDigit (c :: s) []) by done.
  rewrite Hv. replace ((lo <=? n) && (n <=? hi)) with true; [done|].
  symmetry. apply andb_true_intro. lia.
Qed.
