(* ===== verification/Protocol.v ===== *)
(** * The reply format

    [Protocol.h], and the escaping of [CommandExecutor.cpp] that every value and
    key goes through on its way out. *)
From S2P Require Import Prelude.
From S2P Require Import Text.

#[local] Open Scope Z_scope.

Module protocol.

(** ** Reply types and their tags *)

Inductive ReplyType := Status | Error | Value | Nil | Integer | Array | Unknown.

#[global] Instance ReplyType_eq_dec : EqDecision ReplyType.
Proof. solve_decision. Defined.

(** [static_cast<char>(type)] *)
Definition tagOf (t : ReplyType) : byte :=
  match t with
  | Status => x2b | Error => x2d | Value => x24 | Nil => x5f
  | Integer => x3a | Array => x2a | Unknown => x3f
  end.

(** ** Encoding *)

Definition status (text : bytes) : bytes := [tagOf Status] ++ text.
Definition error (text : bytes) : bytes := [tagOf Error] ++ text.
Definition value (escaped : bytes) : bytes := [tagOf Value] ++ escaped.
Definition nil : bytes := [tagOf Nil].
Definition integer (number : Z) : bytes := [tagOf Integer] ++ to_string number.
Definition arrayHeader (count : Z) : bytes := [tagOf Array] ++ to_string count.

(** ** Decoding *)

Record TaggedLine := mkLine { ltype : ReplyType; payload : bytes }.

Definition parse (line : bytes) : TaggedLine :=
  match line with
  | [] => mkLine Unknown []
  | c :: rest =>
      match c with
      | x2b => mkLine Status rest
      | x2d => mkLine Error rest
      | x24 => mkLine Value rest
      | x5f => mkLine Nil rest
      | x3a => mkLine Integer rest
      | x2a => mkLine Array rest
      | _ => mkLine Unknown []
      end
  end.

(** The loop of [parseCount]; [None] is a refused payload. *)
Fixpoint countLoop (payload : bytes) (value : Z) : option Z :=
  match payload with
  | [] => Some value
  | c :: rest =>
      if negb (isDigit c) then None
      else
        let value' := u64 (u64 (value * 10) + digitValue c) in
        if 100000000 <? value' then None else countLoop rest value'
  end.

Definition parseCount (payload : bytes) : option Z :=
  match payload with [] => None | _ :: _ => countLoop payload 0 end.

End protocol.

(** ** Escaping *)

(** [kDigits[n]] *)
Definition hexDigit (n : Z) : byte :=
  if n <? 10 then byte_of_Z (byteZ x30 + n) else byte_of_Z (byteZ x61 + (n - 10)).

Definition appendHexByte (out : bytes) (c : byte) : bytes :=
  out ++ [chBackslash; x78; hexDigit (Z.shiftr (byteZ c) 4); hexDigit (Z.land (byteZ c) 15)].

(** One iteration of [escapeForWire]. *)
Definition escapeStep (result : bytes) (c : byte) : bytes :=
  match c with
  | x5c => result ++ [chBackslash; chBackslash]
  | x0a => result ++ [chBackslash; x6e]
  | x0d => result ++ [chBackslash; x72]
  | x09 => result ++ [chBackslash; x74]
  | x22 => result ++ [chBackslash; chQuote]
  | _ =>
      if (byteZ c <? 32) || (127 <=? byteZ c) then appendHexByte result c
      else result ++ [c]
  end.

Definition escapeForWire (raw : bytes) : bytes := fold_left escapeStep raw [].

(** ** Lemmas *)

Lemma escapeStep_app result c : escapeStep result c = result ++ escapeStep [] c.
Proof. by destruct c. Qed.

Lemma escapeForWire_cons c raw : escapeForWire (c :: raw) = escapeStep [] c ++ escapeForWire raw.
Proof.
  unfold escapeForWire. simpl. generalize (escapeStep [] c) as acc.
  assert (forall l acc acc', fold_left escapeStep l (acc ++ acc') = acc ++ fold_left escapeStep l acc') as Hacc.
  { induction l as [|x l IH]; intros acc acc'; simpl; [done|].
    rewrite (escapeStep_app (acc ++ acc')), (escapeStep_app acc'). by rewrite <- app_assoc, IH. }
  intros acc. rewrite <- (app_nil_r acc) at 1. apply Hacc.
Qed.

Lemma escapeStep_printable c : Forall (fun x => printable x = true) (escapeStep [] c).
Proof. destruct c; repeat constructor. Qed.

(** Whatever the value, its escaped form is printable ASCII. *)
Lemma escapeForWire_printable raw : Forall (fun c => printable c = true) (escapeForWire raw).
Proof.
  induction raw as [|c raw IH]; [constructor|]. rewrite escapeForWire_cons.
  apply Forall_app. split; [apply escapeStep_printable|done].
Qed.

Lemma escapeForWire_app a b : escapeForWire (a ++ b) = escapeForWire a ++ escapeForWire b.
Proof.
  induction a as [|c a IH]; [done|]. simpl. by rewrite !escapeForWire_cons, IH, app_assoc.
Qed.

(** Every tag is recognised. *)
Lemma parse_tagged t text :
  t <> protocol.Unknown -> protocol.parse (protocol.tagOf t :: text) = protocol.mkLine t text.
Proof. by destruct t. Qed.

Lemma countLoop_spec ds v :
  Forall (fun c => isDigit c = true) ds -> 0 <= v ->
  fold_left (fun v c => v * 10 + digitValue c) ds v <= 100000000 ->
  protocol.countLoop ds v = Some (fold_left (fun v c => v * 10 + digitValue c) ds v).
Proof.
  intros Hds. revert v. induction Hds as [|c ds Hc Hds IH]; intros v Hv Hle; simpl in *; [done|].
  rewrite Hc. simpl. apply isDigit_range in Hc as Hr.
  assert (0 <= digitValue c <= 9) by (unfold digitValue; change (byteZ x30) with 48; lia).
  assert (forall l w, Forall (fun c => isDigit c = true) l -> 0 <= w ->
    w <= fold_left (fun v c => v * 10 + digitValue c) l w) as Hmono.
  { clear. intros l w Hl. revert w. induction Hl as [|c l Hc Hl IH]; intros w Hw; simpl; [lia|].
    apply isDigit_range in Hc. unfold digitValue at 2. change (byteZ x30) with 48.
    etransitivity; [|apply IH; lia]. lia. }
  pose proof (Hmono ds (v * 10 + digitValue c) Hds ltac:(lia)).
  rewrite (u64_small (v * 10)), u64_small by lia.
  destruct (Z.ltb_spec 100000000 (v * 10 + digitValue c)); [lia|]. apply IH; lia.
Qed.

(** The client reads back every array header up to its own limit. *)
Lemma parseCount_to_string n :
  0 <= n <= 100000000 -> protocol.parseCount (to_string n) = Some n.
Proof.
  intros Hn. destruct (to_string_digits n ltac:(lia)) as (Hne & Hds & Hv).
  unfold decimalValue in Hv. unfold protocol.parseCount.
  destruct (to_string n) as [|c s] eqn:Hs; [done|].
  rewrite countLoop_spec; [by rewrite Hv|done|lia|rewrite Hv; lia].
Qed.
