(* ===== verification/Parser.v ===== *)
(** * The command parser

    [CommandParser.h] and [CommandParser.cpp].  The tokenizer's index [i] into
    [line[0, end)] is the suffix that is still to be read, so [i < end] is
    "the suffix is not empty" and [line[i + 1]] is its second byte.  [None] is a
    loop that does not end or a read outside a vector. *)
From S2P Require Import Prelude.
From S2P Require Import Text.

#[local] Open Scope Z_scope.

Module CommandParser.

(** ** Data *)

Inductive CommandType := Empty | Set_ | Get | Del | Exists | Keys | Save.

#[global] Instance CommandType_eq_dec : EqDecision CommandType.
Proof. solve_decision. Defined.

Record Command := mkCommand {
  type : CommandType;
  key : bytes;
  value : bytes;
  expireSeconds : option Z
}.

(** [Command{}] *)
Definition defaultCommand : Command := mkCommand Empty [] [] None.

Inductive ParseResult :=
| success (command : Command)
| failure (error : bytes).

Record CommandSpec := mkSpec {
  sname : bytes;
  stype : CommandType;
  minArgs : Z;
  maxArgs : Z
}.

Definition kMaxEchoedVerbLength : Z := 32.
Definition kMaxExpireSeconds : Z := 100 * 365 * 24 * 60 * 60.

Definition kCommands : list CommandSpec :=
  [ mkSpec (bs "SET") Set_ 2 4;
    mkSpec (bs "GET") Get 1 1;
    mkSpec (bs "DEL") Del 1 1;
    mkSpec (bs "EXISTS") Exists 1 1;
    mkSpec (bs "KEYS") Keys 0 0;
    mkSpec (bs "SAVE") Save 0 0 ].

(** ** Characters *)

Definition isSpace (c : byte) : bool := bool_decide (c = chSpace) || bool_decide (c = chTab).

Definition isHexDigit (c : byte) : bool :=
  inRange x30 x39 c || inRange x61 x66 c || inRange x41 x46 c.

Definition hexValue (c : byte) : Z :=
  if inRange x30 x39 c then byteZ c - byteZ x30
  else if inRange x61 x66 c then byteZ c - byteZ x61 + 10
  else byteZ c - byteZ x41 + 10.

Definition toUpperChar (c : byte) : byte :=
  if inRange x61 x7a c then byte_of_Z (byteZ c - byteZ x61 + byteZ x41) else c.

Definition toUpperAscii (text : bytes) : bytes := map toUpperChar text.

(** ** Helpers *)

Definition findCommand (verbUpper : bytes) : option CommandSpec :=
  List.find (fun spec => bool_decide (verbUpper = sname spec)) kCommands.

(** The value, when [parseInt64] returns true. *)
Definition parseInt64 (text : bytes) : option Z :=
  match text with
  | [] => None
  | _ :: _ =>
      match from_chars (- 2 ^ 63) (2 ^ 63 - 1) text with
      | (noError, [], value) => value
      | _ => None
      end
  end.

Definition sanitizeForEcho (verb : bytes) : bytes :=
  let limit := Z.min (len verb) kMaxEchoedVerbLength in
  let result := map (fun c => if printable c then c else x3f) (take (Z.to_nat limit) verb) in
  if limit <? len verb then result ++ bs "..." else result.

(** ** The tokenizer *)

(** [while (end > 0 && (line[end - 1] == '\n' || line[end - 1] == '\r')) --end] *)
Fixpoint dropNewlines (reversed : bytes) : bytes :=
  match reversed with
  | c :: l => if decide (c = chLF \/ c = chCR) then dropNewlines l else reversed
  | [] => []
  end.
Definition stripLineEnd (line : bytes) : bytes := reverse (dropNewlines (reverse line)).

Fixpoint skipSpaces (rest : bytes) : bytes :=
  match rest with
  | c :: rest' => if isSpace c then skipSpaces rest' else rest
  | [] => []
  end.

(** The [switch] on the byte after a backslash, [\x] apart. *)
Definition unescape (escaped : byte) : byte :=
  match escaped with
  | x6e => x0a
  | x72 => x0d
  | x74 => x09
  | x62 => x08
  | x61 => x07
  | _ => escaped
  end.

(** The loop over a quoted token: the token and what follows the closing quote,
    or [None] when there is no closing quote. *)
Fixpoint readQuoted (token rest : bytes) {struct rest} : option (bytes * bytes) :=
  match rest with
  | [] => None
  | c :: rest1 =>
      if decide (c = chBackslash) then
        match rest1 with
        | [] => readQuoted (token ++ [c]) rest1
        | escaped :: rest2 =>
            if decide (escaped = x78) then
              match rest2 with
              | h :: l :: rest3 =>
                  if isHexDigit h && isHexDigit l
                  then readQuoted (token ++ [byte_of_Z (hexValue h * 16 + hexValue l)]) rest3
                  else readQuoted (token ++ [x78]) rest2
              | _ => readQuoted (token ++ [x78]) rest2
              end
            else readQuoted (token ++ [unescape escaped]) rest2
        end
      else if decide (c = chQuote) then Some (token, rest1)
      else readQuoted (token ++ [c]) rest1
  end.

(** The loop over a bare token. *)
Fixpoint readBare (token rest : bytes) : bytes * bytes :=
  match rest with
  | c :: rest' => if isSpace c then (token, rest) else readBare (token ++ [c]) rest'
  | [] => (token, [])
  end.

Definition unbalancedQuotes : bytes := bs "ERR unbalanced quotes in request".

(** The outer loop, from a given suffix and with the tokens read so far; [inl]
    is the error.  Every iteration that continues has consumed a byte, so the
    length of the line is enough [fuel]. *)
Fixpoint tokenizeFrom (fuel : nat) (rest : bytes) (tokens : list bytes)
    : option (bytes + list bytes) :=
  match skipSpaces rest with
  | [] => Some (inr tokens)
  | c :: rest1 =>
      match fuel with
      | O => None
      | S fuel' =>
          if decide (c = chQuote) then
            match readQuoted [] rest1 with
            | None => Some (inl unbalancedQuotes)
            | Some (token, rest2) =>
                match rest2 with
                | d :: _ =>
                    if negb (isSpace d) then Some (inl unbalancedQuotes)
                    else tokenizeFrom fuel' rest2 (tokens ++ [token])
                | [] => tokenizeFrom fuel' rest2 (tokens ++ [token])
                end
            end
          else
            let '(token, rest2) := readBare [] (c :: rest1) in
            tokenizeFrom fuel' rest2 (tokens ++ [token])
      end
  end.

Definition tokenize (line : bytes) : option (bytes + list bytes) :=
  let body := stripLineEnd line in tokenizeFrom (length body) body [].

(** ** Commands *)

Definition name (t : CommandType) : bytes :=
  match t with
  | Set_ => bs "SET" | Get => bs "GET" | Del => bs "DEL" | Exists => bs "EXISTS"
  | Keys => bs "KEYS" | Save => bs "SAVE" | Empty => []
  end.

(** The optional [EX seconds] tail of SET: the seconds, or the error. *)
Definition parseExpire (tokens : list bytes) (argumentCount : Z) : option (bytes + Z) :=
  if negb (argumentCount =? 4) then Some (inl (bs "ERR syntax error"))
  else
    keyword ← tokens !! 3%nat;
    if negb (bool_decide (toUpperAscii keyword = bs "EX")) then Some (inl (bs "ERR syntax error"))
    else
      text ← tokens !! 4%nat;
      match parseInt64 text with
      | None => Some (inl (bs "ERR value is not an integer or out of range"))
      | Some seconds =>
          if (seconds <=? 0) || (kMaxExpireSeconds <? seconds)
          then Some (inl (bs "ERR invalid expire time in 'SET' command"))
          else Some (inr seconds)
      end.

(** What [parse] makes of the tokens. *)
Definition parseTokens (tokens : list bytes) : option ParseResult :=
  match tokens with
  | [] => Some (success defaultCommand)
  | verb :: _ =>
      match findCommand (toUpperAscii verb) with
      | None => Some (failure (bs "ERR unknown command '" ++ sanitizeForEcho verb ++ bs "'"))
      | Some spec =>
          let argumentCount := len tokens - 1 in
          if (argumentCount <? minArgs spec) || (maxArgs spec <? argumentCount)
          then Some (failure (bs "ERR wrong number of arguments for '" ++ sname spec ++ bs "' command"))
          else
            k ← (if 1 <=? argumentCount then tokens !! 1%nat else Some []);
            v ← (if 2 <=? argumentCount then tokens !! 2%nat else Some []);
            if bool_decide (stype spec = Set_) && (2 <? argumentCount) then
              r ← parseExpire tokens argumentCount;
              match r with
              | inl error => Some (failure error)
              | inr seconds => Some (success (mkCommand (stype spec) k v (Some seconds)))
              end
            else Some (success (mkCommand (stype spec) k v None))
      end
  end.

Definition parse (line : bytes) : option ParseResult :=
  r ← tokenize line;
  match r with
  | inl error => Some (failure error)
  | inr tokens => parseTokens tokens
  end.

End CommandParser.
