(* ===== verification/ParserSpec.v ===== *)
(** * What the parser promises

    It always answers; what it accepts is well formed, in particular any expiry
    is short enough to be added to a clock reading; an error message is one
    short printable line; and quoting makes every byte string expressible. *)
From S2P Require Import Prelude.
From S2P Require Import Text.
From S2P Require Import Protocol.
From S2P Require Import Parser.
From S2P Require Import Store.
Import CommandParser.

#[local] Open Scope Z_scope.

(** ** Writing a command down *)

(** A token between quotes, escaped the way replies are. *)
Definition quoted (raw : bytes) : bytes := [chQuote] ++ escapeForWire raw ++ [chQuote].

(** The request line of a list of tokens: a bare verb, the rest quoted. *)
Definition requestLine (verb : bytes) (args : list bytes) : bytes :=
  verb ++ concat (map (fun a => chSpace :: quoted a) args).

(** The tokens of a command after its verb. *)
Definition argumentsOf (c : Command) : list bytes :=
  match type c with
  | Empty | Keys | Save => []
  | Get | Del | Exists => [key c]
  | Set_ => [key c; value c] ++
      match expireSeconds c with Some s => [bs "EX"; to_string s] | None => [] end
  end.

Definition printCommand (c : Command) : bytes := requestLine (name (type c)) (argumentsOf c).

(** A command as the parser builds it: unused fields are empty, and the expiry is
    in the accepted range. *)
Definition wellFormed (c : Command) : bool :=
  match type c with
  | Empty | Keys | Save =>
      bool_decide (key c = []) && bool_decide (value c = []) && bool_decide (expireSeconds c = None)
  | Get | Del | Exists => bool_decide (value c = []) && bool_decide (expireSeconds c = None)
  | Set_ =>
      match expireSeconds c with
      | Some s => (0 <? s) && (s <=? kMaxExpireSeconds)
      | None => true
      end
  end.

(** The longest error the parser produces. *)
Definition maxErrorLength : Z := 64.

Definition oneLine (e : bytes) : Prop :=
  Forall (fun c => printable c = true) e /\ len e <= maxErrorLength.

(** What may follow a token. *)
Definition endsToken (rest : bytes) : Prop := forall c rest', rest = c :: rest' -> isSpace c = true.

(** A verb: a word that is not taken for a quoted token. *)
Definition bareWord (verb : bytes) : Prop :=
  verb <> [] /\ Forall (fun c => printable c = true /\ isSpace c = false /\ c <> chQuote) verb.

(** ** Termination *)

Lemma skipSpaces_length rest : (length (skipSpaces rest) <= length rest)%nat.
Proof. induction rest as [|c rest IH]; simpl; [lia|]. destruct (isSpace c); simpl; lia. Qed.

Lemma skipSpaces_head rest c rest1 : skipSpaces rest = c :: rest1 -> isSpace c = false.
Proof.
  induction rest as [|d rest IH]; simpl; [done|]. destruct (isSpace d) eqn:Hd; [done|].
  by intros [= <- <-].
Qed.

Lemma readQuoted_length fuel token rest token' rest' :
  (length rest <= fuel)%nat -> readQuoted token rest = Some (token', rest') ->
  (length rest' < length rest)%nat.
Proof.
  revert token rest. induction fuel as [|fuel IH]; intros token rest Hf.
  { destruct rest; [done|simpl in Hf; lia]. }
  destruct rest as [|c rest1]; simpl; [done|]. simpl in Hf.
  assert (forall tk r, (length r <= length rest1)%nat -> readQuoted tk r = Some (token', rest') ->
    (length rest' < S (length rest1))%nat) as Hrec.
  { intros tk r Hr Hq. apply IH in Hq; lia. }
  destruct (decide (c = chBackslash)).
  - destruct rest1 as [|esc rest2]; [by apply Hrec|].
    destruct (decide (esc = x78)); [|apply Hrec; simpl; lia].
    destruct rest2 as [|h [|l rest3]]; [apply Hrec; simpl; lia..|].
    destruct (isHexDigit h && isHexDigit l); apply Hrec; simpl; lia.
  - destruct (decide (c = chQuote)); [|by apply Hrec]. intros [= _ ->]. lia.
Qed.

Lemma readBare_length token rest :
  (length (snd (readBare token rest)) <= length rest)%nat.
Proof.
  revert token. induction rest as [|c rest IH]; intros token; simpl; [lia|].
  destruct (isSpace c); simpl; [lia|]. pose proof (IH (token ++ [c])). lia.
Qed.

Lemma tokenizeFrom_total fuel rest tokens :
  (length rest <= fuel)%nat -> exists r, tokenizeFrom fuel rest tokens = Some r.
Proof.
  revert rest tokens. induction fuel as [|fuel IH]; intros rest tokens Hf; cbn [tokenizeFrom];
    pose proof (skipSpaces_length rest) as Hs;
    destruct (skipSpaces rest) as [|c rest1] eqn:Hrest; simpl in Hs; eauto.
  { lia. }
  destruct (decide (c = chQuote)).
  - destruct (readQuoted [] rest1) as [[token rest2]|] eqn:Hq; [|eauto].
    apply (readQuoted_length (length rest1)) in Hq; [|done].
    destruct rest2 as [|d rest2]; [apply IH; simpl in *; lia|].
    destruct (negb (isSpace d)); [eauto|]. apply IH. simpl in *. lia.
  - assert (isSpace c = false) as Hc by (eapply skipSpaces_head; exact Hrest).
    cbn [readBare]. rewrite Hc.
    pose proof (readBare_length ([] ++ [c]) rest1) as Hb.
    destruct (readBare ([] ++ [c]) rest1) as [token rest2]. simpl in Hb. apply IH. lia.
Qed.

Lemma tokenize_total line : exists r, tokenize line = Some r.
Proof. by apply tokenizeFrom_total. Qed.

(** ** Errors and results *)

(** Every row of the command table, once. *)
Lemma findCommand_cases verb spec : findCommand verb = Some spec ->
  verb = sname spec /\ spec ∈ kCommands.
Proof.
  intros H. apply List.find_some in H as [Hin Heq]. rewrite bool_decide_eq_true in Heq.
  split; [done|]. by apply list_elem_of_In.
Qed.

Lemma oneLine_bs s : forallb printable (bs s) = true -> len (bs s) <= maxErrorLength -> oneLine (bs s).
Proof.
  intros Hp Hl. split; [|done]. apply Forall_forall. intros c Hc.
  rewrite forallb_forall in Hp. apply Hp. by apply list_elem_of_In.
Qed.

Lemma sanitize_oneLine verb :
  Forall (fun c => printable c = true) (sanitizeForEcho verb) /\ len (sanitizeForEcho verb) <= 35.
Proof.
  unfold sanitizeForEcho, kMaxEchoedVerbLength. pose proof (len_nonneg verb).
  set (n := Z.to_nat (Z.min (len verb) 32)). set (l := map _ (take n verb)).
  assert (Forall (fun c => printable c = true) l) as Hp.
  { apply Forall_forall. intros c (d & <- & _)%list_elem_of_In%in_map_iff.
    by destruct (printable d) eqn:Hd. }
  assert (len l <= 32) as Hl.
  { unfold l, len. rewrite length_map, length_take. lia. }
  destruct (_ <? _); [|split; [done|lia]]. split.
  - apply Forall_app. split; [done|]. repeat constructor.
  - rewrite len_app. change (len (bs "...")) with 3. lia.
Qed.

Lemma kCommands_oneLine spec : spec ∈ kCommands ->
  oneLine (bs "ERR wrong number of arguments for '" ++ sname spec ++ bs "' command").
Proof.
  intros Hs. assert (forall x, x ∈ kCommands ->
    forallb printable (sname x) = true /\ len (sname x) <= 6) as Hall.
  { apply Forall_forall. repeat constructor; done. }
  destruct (Hall spec Hs) as [Hp Hl]. split.
  - rewrite !Forall_app. split_and!; [|apply Forall_forall; intros c Hc|];
      [repeat constructor| |repeat constructor].
    rewrite forallb_forall in Hp. apply Hp. by apply list_elem_of_In.
  - rewrite !len_app. change (len (bs "ERR wrong number of arguments for '")) with 35.
    change (len (bs "' command")) with 9. unfold maxErrorLength. lia.
Qed.

Lemma parseExpire_spec tokens (verb k v o s : bytes) :
  tokens = [verb; k; v; o; s] ->
  exists r, parseExpire tokens 4 = Some r /\
    match r with inl e => oneLine e | inr n => (0 <? n) && (n <=? kMaxExpireSeconds) = true end.
Proof.
  intros ->. unfold parseExpire. simpl. destruct (bool_decide (toUpperAscii o = bs "EX")); simpl.
  2:{ eexists. split; [done|]. by apply oneLine_bs. }
  destruct (parseInt64 s) as [n|].
  2:{ eexists. split; [done|]. by apply oneLine_bs. }
  destruct ((n <=? 0) || (kMaxExpireSeconds <? n)) eqn:Hn; eexists; (split; [done|]).
  - by apply oneLine_bs.
  - simpl. lia.
Qed.

(** Every list of tokens is a well-formed command or a one-line error. *)
Lemma parseTokens_result tokens : exists r, parseTokens tokens = Some r /\
  match r with success c => wellFormed c = true | failure e => oneLine e end.
Proof.
  unfold parseTokens. destruct tokens as [|verb rest]; [by eexists|].
  destruct (findCommand (toUpperAscii verb)) as [spec|] eqn:Hf.
  2:{ eexists. split; [done|]. destruct (sanitize_oneLine verb) as [Hp Hl]. split.
      - rewrite !Forall_app. split_and!; [repeat constructor|done|repeat constructor].
      - rewrite !len_app. change (len (bs "ERR unknown command '")) with 21.
        change (len (bs "'")) with 1. unfold maxErrorLength. lia. }
  apply findCommand_cases in Hf as [_ Hin]. rewrite len_cons.
  replace (1 + len rest - 1) with (len rest) by lia. cbn zeta.
  destruct (_ || _) eqn:Harity.
  { eexists. split; [done|]. by apply kCommands_oneLine. }
  apply orb_false_elim in Harity as [Hmin%Z.ltb_ge Hmax%Z.ltb_ge].
  pose proof (len_nonneg rest).
  unfold kCommands in Hin. repeat (apply elem_of_cons in Hin as [->|Hin]);
    [..|by apply not_elem_of_nil in Hin]; cbn [minArgs maxArgs stype] in *;
    destruct rest as [|k [|v [|o [|s [|? ?]]]]]; rewrite ?len_cons in *; change (len (@nil bytes)) with 0 in *;
    try lia; try (match goal with l : list bytes |- _ => pose proof (len_nonneg l); lia end);
    try (eexists; split; [reflexivity|]; done).
  - eexists; split; [reflexivity|]. by apply oneLine_bs.
  - destruct (parseExpire_spec _ verb k v o s eq_refl) as ([e|n] & He & Hr).
    + exists (failure e). split; [|done].
      change (1 + (1 + (1 + (1 + 0)))) with 4. cbn -[parseExpire]. by rewrite He.
    + exists (success (mkCommand Set_ k v (Some n))). split; [|done].
      change (1 + (1 + (1 + (1 + 0)))) with 4. cbn -[parseExpire]. by rewrite He.
Qed.

Lemma parse_result line : exists r, parse line = Some r /\
  match r with success c => wellFormed c = true | failure e => oneLine e end.
Proof.
  unfold parse. destruct (tokenize_total line) as [[e|tokens] Ht]; rewrite Ht; simpl.
  - exists (failure e). split; [done|]. unfold tokenize in Ht.
    assert (forall fuel rest tks, tokenizeFrom fuel rest tks = Some (inl e) -> e = unbalancedQuotes) as He.
    { induction fuel as [|fuel IH]; intros rest tks; cbn [tokenizeFrom];
        destruct (skipSpaces rest) as [|c r]; try done.
      destruct (decide (c = chQuote)).
      - destruct (readQuoted [] r) as [[tk [|d r2]]|]; [apply IH| |by intros [= <-]].
        destruct (negb (isSpace d)); [by intros [= <-]|apply IH].
      - destruct (readBare [] (c :: r)). apply IH. }
    rewrite (He _ _ _ Ht). by apply oneLine_bs.
  - apply parseTokens_result.
Qed.

(** ** Quoting *)

Lemma readQuoted_step token c rest :
  readQuoted token (escapeStep [] c ++ rest) = readQuoted (token ++ [c]) rest.
Proof. destruct c; reflexivity. Qed.

Lemma readQuoted_escape token raw rest :
  readQuoted token (escapeForWire raw ++ chQuote :: rest) = Some (token ++ raw, rest).
Proof.
  revert token. induction raw as [|c raw IH]; intros token.
  - simpl. by rewrite app_nil_r.
  - rewrite escapeForWire_cons, <- app_assoc, readQuoted_step, IH. by rewrite <- app_assoc.
Qed.

Lemma tokenizeFrom_quoted fuel raw rest tokens :
  endsToken rest ->
  tokenizeFrom (S fuel) (chSpace :: quoted raw ++ rest) tokens =
  tokenizeFrom fuel rest (tokens ++ [raw]).
Proof.
  intros Hend. cbn [tokenizeFrom skipSpaces]. unfold quoted.
  change (isSpace chSpace) with true. cbn iota. rewrite <- !app_assoc.
  change ([chQuote] ++ escapeForWire raw ++ [chQuote] ++ rest)
    with (chQuote :: (escapeForWire raw ++ chQuote :: rest)).
  cbn [skipSpaces]. change (isSpace chQuote) with false. cbn iota.
  rewrite decide_True by done. rewrite readQuoted_escape. simpl.
  destruct rest as [|c rest]; [done|]. by rewrite (Hend c rest).
Qed.

Lemma endsToken_args args : endsToken (concat (map (fun a => chSpace :: quoted a) args)).
Proof. intros c rest. destruct args; simpl; [done|]. by intros [= <- _]. Qed.

Lemma tokenizeFrom_args fuel args tokens :
  (length args <= fuel)%nat ->
  tokenizeFrom fuel (concat (map (fun a => chSpace :: quoted a) args)) tokens =
  Some (inr (tokens ++ args)).
Proof.
  revert fuel tokens. induction args as [|a args IH]; intros fuel tokens Hf.
  - simpl. rewrite app_nil_r. by destruct fuel.
  - destruct fuel as [|fuel]; simpl in Hf; [lia|]. cbn [map concat].
    change ((chSpace :: quoted a) ++ ?r) with (chSpace :: quoted a ++ r).
    rewrite tokenizeFrom_quoted by apply endsToken_args.
    rewrite IH by lia. by rewrite <- app_assoc.
Qed.

Lemma readBare_word token word rest :
  Forall (fun c => isSpace c = false) word -> endsToken rest ->
  readBare token (word ++ rest) = (token ++ word, rest).
Proof.
  intros Hw Hend. revert token. induction Hw as [|c word Hc Hw IH]; intros token; simpl.
  - rewrite app_nil_r. destruct rest as [|c rest]; simpl; [done|]. by rewrite (Hend c rest).
  - rewrite Hc, IH. by rewrite <- app_assoc.
Qed.

Lemma stripLineEnd_line line ending :
  Forall (fun c => printable c = true) line -> Forall (fun c => c = chLF \/ c = chCR) ending ->
  stripLineEnd (line ++ ending) = line.
Proof.
  intros Hl He. unfold stripLineEnd. rewrite reverse_app.
  assert (forall a b, Forall (fun c => c = chLF \/ c = chCR) a -> dropNewlines (a ++ b) = dropNewlines b) as Hdrop.
  { intros a b Ha. induction Ha as [|c a Hc Ha IH]; simpl; [done|]. by rewrite decide_True. }
  rewrite Hdrop by (by apply Forall_reverse).
  destruct (reverse line) as [|c l] eqn:Hr.
  - simpl. apply (f_equal reverse) in Hr. by rewrite reverse_involutive in Hr.
  - assert (printable c = true) as Hc.
    { eapply Forall_forall in Hl; [exact Hl|]. apply elem_of_reverse. rewrite Hr. by left. }
    simpl. rewrite decide_False by (intros [-> | ->]; done).
    by rewrite <- Hr, reverse_involutive.
Qed.

Lemma requestLine_printable verb args : bareWord verb ->
  Forall (fun c => printable c = true) (requestLine verb args).
Proof.
  intros [_ Hv]. apply Forall_app. split; [by eapply Forall_impl; [exact Hv|]; intros c []|].
  induction args as [|a args IH]; cbn [map concat]; [constructor|].
  apply Forall_app. split; [|done]. constructor; [done|]. unfold quoted.
  rewrite !Forall_app. split_and!; [by repeat constructor|apply escapeForWire_printable|by repeat constructor].
Qed.

Lemma tokenize_requestLine verb args ending :
  bareWord verb -> Forall (fun c => c = chLF \/ c = chCR) ending ->
  tokenize (requestLine verb args ++ ending) = Some (inr (verb :: args)).
Proof.
  intros Hv He. unfold tokenize.
  rewrite stripLineEnd_line by (by try apply requestLine_printable).
  destruct Hv as [Hne Hv]. destruct verb as [|c verb]; [done|].
  apply Forall_cons in Hv as Hc. destruct Hc as [(_ & Hcs & Hcq) _].
  unfold requestLine. set (A := concat (map (fun a => chSpace :: quoted a) args)).
  change (length ((c :: verb) ++ A)) with (S (length (verb ++ A))).
  cbn [app tokenizeFrom skipSpaces]. rewrite Hcs. rewrite decide_False by done.
  change (c :: verb ++ A) with ((c :: verb) ++ A).
  rewrite readBare_word; [|eapply Forall_impl; [exact Hv|]; by intros ? (? & ? & ?)|apply endsToken_args].
  cbn [app]. unfold A. rewrite tokenizeFrom_args; [done|].
  rewrite length_app. assert (forall l, length l <= length (concat (map (fun a => chSpace :: quoted a) l)))%nat as Hl.
  { induction l as [|a l IH]; simpl; [lia|]. rewrite length_app. lia. }
  specialize (Hl args). lia.
Qed.

Lemma toUpperChar_letter c : inRange x41 x5a (toUpperChar c) = true ->
  printable c = true /\ isSpace c = false /\ c <> chQuote.
Proof. destruct c; vm_compute; intros H; try discriminate H; done. Qed.

Lemma bareWord_verb verb t : toUpperAscii verb = name t -> t <> Empty -> bareWord verb.
Proof.
  intros Hu Ht. assert (Forall (fun c => inRange x41 x5a c = true) (name t) /\ name t <> []) as [Hn Hne].
  { destruct t; [done|..]; (split; [by repeat constructor|done]). }
  rewrite <- Hu in Hn, Hne. split; [by intros ->|].
  unfold toUpperAscii in Hn. apply Forall_forall. intros c Hc.
  apply toUpperChar_letter. rewrite Forall_forall in Hn. apply Hn.
  apply list_elem_of_In, in_map. by apply list_elem_of_In.
Qed.

Lemma parseInt64_to_string n : 0 <= n < 2 ^ 63 -> parseInt64 (to_string n) = Some n.
Proof.
  intros Hn. unfold parseInt64. rewrite from_chars_to_string by lia.
  destruct (to_string_digits n ltac:(lia)) as [Hne _]. by destruct (to_string n).
Qed.

Lemma findCommand_name t : t <> Empty -> exists spec,
  findCommand (name t) = Some spec /\ stype spec = t /\
  forall c, type c = t -> minArgs spec <= len (argumentsOf c) <= maxArgs spec.
Proof.
  intros Ht. destruct t; [done|..]; eexists; (split_and!; [reflexivity|reflexivity|]);
    intros c Hc; unfold argumentsOf; rewrite Hc; try (split; done).
  destruct (expireSeconds c); split; done.
Qed.

(** The tokens of a well-formed command, in any spelling of the verb, give the
    command back. *)
Lemma parseTokens_command verb c :
  wellFormed c = true -> toUpperAscii verb = name (type c) -> type c <> Empty ->
  parseTokens (verb :: argumentsOf c) = Some (success c).
Proof.
  intros Hwf Hu Hne. destruct (findCommand_name (type c) Hne) as (spec & Hf & Hs & Har).
  specialize (Har c eq_refl). unfold parseTokens. rewrite Hu, Hf, len_cons.
  replace (1 + len (argumentsOf c) - 1) with (len (argumentsOf c)) by lia. cbn zeta.
  destruct (Z.ltb_spec (len (argumentsOf c)) (minArgs spec)), (Z.ltb_spec (maxArgs spec) (len (argumentsOf c)));
    try lia. cbn [orb]. rewrite Hs. clear Hf Hs Har Hu H H0.
  destruct c as [ty k v ex]. unfold wellFormed, argumentsOf in *. cbn [type key value expireSeconds] in *.
  destruct ty; [done|..];
    repeat match goal with H : _ && _ = true |- _ => apply andb_prop in H as [? ?] end;
    repeat match goal with H : bool_decide _ = true |- _ => apply bool_decide_eq_true in H as -> end;
    try reflexivity.
  destruct ex as [s|]; [|reflexivity].
  apply andb_prop in Hwf as [Hs0%Z.ltb_lt Hs1%Z.leb_le].
  change (len ([k; v] ++ [bs "EX"; to_string s])) with 4.
  cbn -[parseExpire to_string]. unfold parseExpire. cbn -[to_string parseInt64].
  rewrite parseInt64_to_string by (unfold kMaxExpireSeconds in Hs1; lia).
  destruct (Z.leb_spec s 0), (Z.ltb_spec kMaxExpireSeconds s); try lia. done.
Qed.

Lemma parse_requestLine verb c ending :
  wellFormed c = true -> toUpperAscii verb = name (type c) -> type c <> Empty ->
  Forall (fun c => c = chLF \/ c = chCR) ending ->
  parse (requestLine verb (argumentsOf c) ++ ending) = Some (success c).
Proof.
  intros Hwf Hu Hne He. unfold parse.
  rewrite tokenize_requestLine by (done || by eapply bareWord_verb). simpl.
  by apply parseTokens_command.
Qed.

(** An accepted expiry can be added to any clock reading of the next 146 years. *)
Lemma timeAfter_defined now s :
  0 <= now < 2 ^ 62 -> 0 < s <= kMaxExpireSeconds ->
  timeAfter now s = Some (now + s * nanosPerSecond).
Proof.
  unfold timeAfter, i64, int64Range, kMaxExpireSeconds, nanosPerSecond. intros Hn Hs.
  destruct (Z.leb_spec (- 2 ^ 63) (s * 1000000000)), (Z.ltb_spec (s * 1000000000) (2 ^ 63)); try lia.
  simpl. destruct (Z.leb_spec (- 2 ^ 63) (now + s * 1000000000)),
    (Z.ltb_spec (now + s * 1000000000) (2 ^ 63)); try lia. done.
Qed.
