(* ===== verification/Snapshot.v ===== *)
(** * The snapshot format

    The codec of [Persistence.h] and [Persistence.cpp]: the checksum, the
    little-endian fields, the conversion between the two clocks, [encode] and
    [decode].  Strings are lists of bytes and [offset] an index into them, as in
    the source.  [None] is undefined behaviour: signed overflow in a clock
    conversion. *)
From S2P Require Import Prelude.
From S2P Require Import Hash.
From S2P Require Import Text.
From S2P Require Import Table.
From S2P Require Import Store.

#[local] Open Scope Z_scope.

(** ** Clocks *)

(** The tick of [std::chrono::system_clock]; the library chooses it (one
    nanosecond in libstdc++, one microsecond in libc++).  [steady_clock] counts
    nanoseconds in both. *)
Class SystemClock := {
  tickNanos : Z;
  tickNanos_pos : 0 < tickNanos;
  tickNanos_divides : tickNanos * (1000000 / tickNanos) = 1000000
}.

#[global] Program Instance libstdcxx : SystemClock := {| tickNanos := 1 |}.
Solve All Obligations with done.

Definition libcxx : SystemClock.
Proof. refine {| tickNanos := 1000 |}; done. Defined.

(** Ticks of the system clock in a millisecond. *)
Definition ticksPerMilli `{SystemClock} : Z := 1000000 / tickNanos.

(** The readings of [Clock::now()] and [SystemClock::now()] made for the entry
    with a given index, and the reading [now] made before the loop. *)
Record Readings := mkReadings {
  now : time_point;
  steady : nat -> time_point;
  system : nat -> Z
}.

(** [expiry - Clock::now()], its conversion to system ticks, the wall time, and
    the wall time in milliseconds. *)
Definition toWallClockMillis `{SystemClock} (steadyNow systemNow : Z) (expiry : time_point)
    : option Z :=
  remaining ← i64 (expiry - steadyNow);
  wall ← i64 (systemNow + Z.quot remaining tickNanos);
  Some (Z.quot wall ticksPerMilli).

(** The deadline, or [Some None] when the moment has passed. *)
Definition fromWallClockMillis `{SystemClock} (steadyNow systemNow millis : Z)
    : option (option time_point) :=
  wall ← i64 (millis * ticksPerMilli);
  remaining ← i64 (wall - systemNow);
  if remaining <=? 0 then Some None
  else
    nanos ← i64 (remaining * tickNanos);
    expiry ← i64 (steadyNow + nanos);
    Some (Some expiry).

Module snapshot.

(** ** Constants *)

Definition kMagic : bytes := bs "VCACHE".
Definition kMagicLength : Z := 6.
Definition kFormatVersion : Z := 1.
Definition kMaxFieldLength : Z := 512 * 1024 * 1024.
Definition kHeaderLength : Z := kMagicLength + 2 + 8.
Definition kChecksumLength : Z := 8.

(** ** Fields *)

(** [checksumOf(data, length)] with [data] cut at [length]. *)
Definition checksumOf (data : bytes) : Z :=
  fold_left (fun hash b => u64 (Z.lxor hash (byteZ b) * 0x100000001b3)) data 0xcbf29ce484222325.

Definition appendLE (out : bytes) (value : Z) (byteCount : nat) : bytes :=
  out ++ map (fun i => byte_of_Z (Z.land (Z.shiftr value (8 * Z.of_nat i)) 255)) (seq 0 byteCount).

(** The loop of [readLE] over the bytes of the field. *)
Fixpoint readLoop (field : bytes) (i : Z) (value : Z) : Z :=
  match field with
  | [] => value
  | b :: rest => readLoop rest (i + 1) (Z.lor value (u64 (Z.shiftl (byteZ b) (8 * i))))
  end.

(** [data.substr(offset, count)] *)
Definition substr (data : bytes) (offset count : Z) : bytes :=
  take (Z.to_nat count) (drop (Z.to_nat offset) data).

(** The value and the offset after it, or [None] when [readLE] returns false. *)
Definition readLE (data : bytes) (offset byteCount : Z) : option (Z * Z) :=
  let stop := u64 (offset + byteCount) in
  if len data <? stop then None
  else Some (readLoop (substr data offset byteCount) 0 0, stop).

(** ** Encoding *)

(** [static_cast<std::uint64_t>] and [static_cast<std::int64_t>]. *)
Definition toUnsigned (z : Z) : Z := u64 z.
Definition toSigned (z : Z) : Z := if z <? 2 ^ 63 then z else z - 2 ^ 64.

Definition appendEntry `{SystemClock} (steadyNow systemNow : Z) (out : bytes) (e : Entry)
    : option bytes :=
  let out := appendLE out (len (ekey e)) 4 in
  let out := out ++ ekey e in
  let out := appendLE out (len (evalue e)) 4 in
  let out := out ++ evalue e in
  expiresAt ← match expiration e with
              | Some expiry => toWallClockMillis steadyNow systemNow expiry
              | None => Some 0
              end;
  Some (appendLE out (toUnsigned expiresAt) 8).

Fixpoint appendEntries `{SystemClock} (r : Readings) (i : nat) (out : bytes) (live : list Entry)
    : option bytes :=
  match live with
  | [] => Some out
  | e :: live' =>
      out ← appendEntry (steady r i) (system r i) out e;
      appendEntries r (S i) out live'
  end.

Definition encode `{SystemClock} (r : Readings) (entries : list Entry) : option bytes :=
  let out := appendLE kMagic kFormatVersion 2 in
  let live := List.filter (fun e => negb (isExpiredAt e (now r))) entries in
  let out := appendLE out (len live) 8 in
  out ← appendEntries r 0 out live;
  Some (appendLE out (checksumOf out) 8).

(** ** Decoding *)

Definition entryError (i : Z) (what : bytes) : bytes :=
  bs "snapshot entry " ++ to_string i ++ what.

(** A length field and the bytes it announces; [inl] is the error. *)
Definition readField (data : bytes) (payloadLength offset i : Z) (badLength : bytes)
    : bytes + (bytes * Z) :=
  match readLE data offset 4 with
  | None => inl (entryError i badLength)
  | Some (fieldLength, offset) =>
      if kMaxFieldLength <? fieldLength then inl (entryError i badLength)
      else
        let stop := u64 (offset + fieldLength) in
        if payloadLength <? stop then inl (entryError i (bs " is truncated"))
        else inr (substr data offset fieldLength, stop)
  end.

(** The loop over the entries: the entries read and the final offset.  An
    iteration that continues has consumed at least sixteen bytes, so the length
    of the data is enough [fuel]. *)
Fixpoint decodeEntries `{SystemClock} (fuel : nat) (r : Readings) (data : bytes)
    (payloadLength entryCount i offset : Z) (entries : list Entry)
    : option (bytes + (list Entry * Z)) :=
  if i <? entryCount then
    match fuel with
    | O => None
    | S fuel' =>
        match readField data payloadLength offset i (bs " has an invalid key length") with
        | inl e => Some (inl e)
        | inr (key, offset) =>
            match readField data payloadLength offset i (bs " has an invalid value length") with
            | inl e => Some (inl e)
            | inr (value, offset) =>
                match readLE data offset 8 with
                | None => Some (inl (entryError i (bs " is missing its expiry")))
                | Some (rawExpiry, offset) =>
                    let next := decodeEntries fuel' r data payloadLength entryCount (i + 1) offset in
                    let expiresAtMillis := toSigned rawExpiry in
                    if expiresAtMillis =? 0 then next (entries ++ [mkEntry key value None])
                    else
                      let j := Z.to_nat i in
                      lapsed ← fromWallClockMillis (steady r j) (system r j) expiresAtMillis;
                      match lapsed with
                      | None => next entries
                      | Some expiry =>
                          let entry := mkEntry key value (Some expiry) in
                          next (if isExpiredAt entry (now r) then entries else entries ++ [entry])
                      end
                end
            end
        end
    end
  else Some (inr (entries, offset)).

Definition decode `{SystemClock} (r : Readings) (data : bytes) : option (bytes + list Entry) :=
  if len data <? kHeaderLength + kChecksumLength
  then Some (inl (bs "snapshot is too short to be valid"))
  else if negb (bool_decide (take (Z.to_nat kMagicLength) data = kMagic))
  then Some (inl (bs "snapshot has the wrong magic bytes -- not a VCache snapshot"))
  else
    let payloadLength := len data - kChecksumLength in
    match readLE data payloadLength 8 with
    | None => Some (inl (bs "snapshot is missing its checksum"))
    | Some (storedChecksum, _) =>
        if negb (storedChecksum =? checksumOf (take (Z.to_nat payloadLength) data))
        then Some (inl (bs "snapshot checksum mismatch -- the file is corrupt"))
        else
          match readLE data kMagicLength 2 with
          | None => Some (inl (bs "snapshot is truncated in its header"))
          | Some (version, offset) =>
              if negb (version =? kFormatVersion)
              then Some (inl (bs "snapshot format version " ++ to_string version ++
                     bs " is not supported (expected " ++ to_string kFormatVersion ++ bs ")"))
              else
                match readLE data offset 8 with
                | None => Some (inl (bs "snapshot is truncated in its header"))
                | Some (entryCount, offset) =>
                    res ← decodeEntries (length data) r data payloadLength entryCount 0 offset [];
                    match res with
                    | inl e => Some (inl e)
                    | inr (entries, offset) =>
                        if negb (offset =? payloadLength)
                        then Some (inl (bs "snapshot has trailing bytes after the last entry"))
                        else Some (inr entries)
                    end
                end
          end
    end.

End snapshot.
