(* ===== verification/SnapshotSpec.v ===== *)
(** * What the snapshot format promises

    Little-endian fields read back what was written; [decode] inverts [encode]
    up to the millisecond the format keeps of an expiry; a single altered byte is
    always noticed; and the loop over the entries ends on any input. *)
From S2P Require Import Prelude.
From S2P Require Import Hash.
From S2P Require Import Text.
From S2P Require Import Table.
From S2P Require Import Store.
From S2P Require Import Snapshot.
Import snapshot.

#[local] Open Scope Z_scope.

(** ** The abstract format *)

(** The number a little-endian field stands for. *)
Fixpoint leValue (field : bytes) : Z :=
  match field with [] => 0 | b :: rest => byteZ b + 256 * leValue rest end.

Definition leBytes (v : Z) (n : nat) : bytes := appendLE [] v n.

(** An entry on disk: the entry and its wall-clock expiry in milliseconds. *)
Definition recordBytes (rec : Entry * Z) : bytes :=
  leBytes (len (ekey rec.1)) 4 ++ ekey rec.1 ++ leBytes (len (evalue rec.1)) 4 ++ evalue rec.1 ++
  leBytes (toUnsigned rec.2) 8.

Definition headerBytes (count : Z) : bytes := kMagic ++ leBytes kFormatVersion 2 ++ leBytes count 8.

Definition payloadBytes (recs : list (Entry * Z)) : bytes :=
  headerBytes (len recs) ++ concat (map recordBytes recs).

Definition fileBytes (recs : list (Entry * Z)) : bytes :=
  payloadBytes recs ++ leBytes (checksumOf (payloadBytes recs)) 8.

(** The wall-clock expiry [encode] computes for each entry. *)
Fixpoint recordsOf `{SystemClock} (r : Readings) (i : nat) (live : list Entry)
    : option (list (Entry * Z)) :=
  match live with
  | [] => Some []
  | e :: live' =>
      ms ← match expiration e with
           | Some expiry => toWallClockMillis (steady r i) (system r i) expiry
           | None => Some 0
           end;
      rest ← recordsOf r (S i) live';
      Some ((e, ms) :: rest)
  end.

(** What becomes of a record when it is read back. *)
Definition reloadEntry `{SystemClock} (r : Readings) (i : nat) (rec : Entry * Z)
    : option (list Entry) :=
  if rec.2 =? 0 then Some [mkEntry (ekey rec.1) (evalue rec.1) None]
  else
    lapsed ← fromWallClockMillis (steady r i) (system r i) rec.2;
    Some match lapsed with
         | None => []
         | Some expiry =>
             let entry := mkEntry (ekey rec.1) (evalue rec.1) (Some expiry) in
             if isExpiredAt entry (now r) then [] else [entry]
         end.

Fixpoint reloadAll `{SystemClock} (r : Readings) (i : nat) (recs : list (Entry * Z))
    : option (list Entry) :=
  match recs with
  | [] => Some []
  | rec :: recs' =>
      es ← reloadEntry r i rec; rest ← reloadAll r (S i) recs'; Some (es ++ rest)
  end.

(** Keys and values short enough for [decode] to accept. *)
Definition fieldsFit (e : Entry) : Prop :=
  len (ekey e) <= kMaxFieldLength /\ len (evalue e) <= kMaxFieldLength.

Definition recordFits (rec : Entry * Z) : Prop :=
  fieldsFit rec.1 /\ - 2 ^ 63 <= rec.2 < 2 ^ 63.

(** The two clocks differ by [delta] nanoseconds at every reading, and show
    plausible times. *)
Definition synced `{SystemClock} (delta : Z) (r : Readings) : Prop :=
  forall j, system r j * tickNanos = steady r j + delta /\ 0 <= steady r j < 2 ^ 61 /\
    1000000 <= system r j * tickNanos < 2 ^ 62.

(** A deadline, moved back to a whole millisecond of the wall clock. *)
Definition wholeMilli (delta deadline : Z) : Z := (deadline + delta) / 1000000 * 1000000 - delta.

(** What a snapshot brings back: entries without a deadline as they were, the
    others with the deadline moved back to a whole millisecond, unless it has
    passed. *)
Fixpoint survivors (delta : Z) (r : Readings) (i : nat) (live : list Entry) : list Entry :=
  match live with
  | [] => []
  | e :: live' =>
      match expiration e with
      | None => [e]
      | Some d =>
          let d' := wholeMilli delta d in
          if (d' <=? steady r i) || (d' <=? now r) then []
          else [mkEntry (ekey e) (evalue e) (Some d')]
      end ++ survivors delta r (S i) live'
  end.

(** Deadlines still ahead when they are written down, and of a plausible size. *)
Definition deadlinesAhead (delta : Z) (r : Readings) (live : list Entry) : Prop :=
  forall j e d, live !! j = Some e -> expiration e = Some d ->
    steady r j < d < 2 ^ 62 /\ d + delta < 2 ^ 62.

(** The two parts of a file. *)
Definition storedChecksum (data : bytes) : Z := leValue (drop (length data - 8) data).
Definition payloadOf (data : bytes) : bytes := take (length data - 8) data.

(** ** Little-endian fields *)

Lemma appendLE_app out v n : appendLE out v n = out ++ leBytes v n.
Proof. done. Qed.

Lemma leBytes_length v n : length (leBytes v n) = n.
Proof. unfold leBytes, appendLE. simpl. by rewrite length_map, length_seq. Qed.

Lemma leBytes_len v n : len (leBytes v n) = Z.of_nat n.
Proof. unfold len. by rewrite leBytes_length. Qed.

Lemma leBytes_S v n : leBytes v (S n) = byte_of_Z v :: leBytes (Z.shiftr v 8) n.
Proof.
  unfold leBytes, appendLE. cbn [app seq map]. f_equal.
  - rewrite Z.mul_0_r, Z.shiftr_0_r. apply byteZ_inj. rewrite !byteZ_of_Z.
    change 255 with (Z.ones 8). rewrite Z.land_ones by lia. by rewrite Zmod_mod.
  - rewrite <- seq_shift, map_map. apply map_ext. intros i. do 2 f_equal.
    rewrite Z.shiftr_shiftr by lia. f_equal. lia.
Qed.

Lemma leValue_range field : 0 <= leValue field < 2 ^ (8 * len field).
Proof.
  induction field as [|b field IH]; [by unfold len|]. rewrite len_cons. cbn [leValue].
  pose proof (byteZ_range b). pose proof (len_nonneg field).
  replace (8 * (1 + len field)) with (8 + 8 * len field) by lia.
  rewrite Z.pow_add_r by lia. lia.
Qed.

Lemma leValue_leBytes v n : leValue (leBytes v n) = v mod 2 ^ (8 * Z.of_nat n).
Proof.
  revert v. induction n as [|n IH]; intros v.
  - simpl. by rewrite Z.mod_1_r.
  - rewrite leBytes_S. cbn [leValue]. rewrite byteZ_of_Z, IH.
    rewrite Z.shiftr_div_pow2 by lia. change (2 ^ 8) with 256.
    replace (8 * Z.of_nat (S n)) with (8 + 8 * Z.of_nat n) by lia.
    rewrite Z.pow_add_r by lia. change (2 ^ 8) with 256.
    rewrite Z.rem_mul_r; [done|lia|]. apply Z.pow_pos_nonneg; lia.
Qed.

Lemma leValue_inj f g : length f = length g -> leValue f = leValue g -> f = g.
Proof.
  revert g. induction f as [|b f IH]; intros [|c g] Hlen Heq; simpl in *; try done.
  pose proof (byteZ_range b). pose proof (byteZ_range c).
  assert (byteZ b = byteZ c /\ leValue f = leValue g) as [Hb Hv] by lia.
  f_equal; [by apply byteZ_inj|]. apply IH; [lia|done].
Qed.

Lemma lor_disjoint v x i : 0 <= v < 2 ^ i -> 0 <= i -> 0 <= x -> Z.lor v (Z.shiftl x i) = v + x * 2 ^ i.
Proof.
  intros Hv Hi Hx. rewrite <- Z.shiftl_mul_pow2 by done. symmetry. apply Z.add_nocarry_lor.
  apply Z.bits_inj'. intros j Hj. rewrite Z.land_spec, Z.bits_0, Z.shiftl_spec by done.
  destruct (Z.lt_ge_cases j i).
  - rewrite (Z.testbit_neg_r x) by lia. apply andb_false_r.
  - destruct (Z.eq_dec v 0) as [->|]; [by rewrite Z.bits_0|].
    rewrite Z.bits_above_log2; [done|lia|]. assert (Z.log2 v < i) by (apply Z.log2_lt_pow2; lia). lia.
Qed.

(** The loop of [readLE]. *)
Lemma readLoop_spec field i v :
  0 <= i -> i + len field <= 8 -> 0 <= v < 2 ^ (8 * i) ->
  readLoop field i v = v + 2 ^ (8 * i) * leValue field.
Proof.
  revert i v. induction field as [|b field IH]; intros i v Hi Hlen Hv; cbn [readLoop leValue]; [lia|].
  rewrite len_cons in Hlen. pose proof (len_nonneg field). pose proof (byteZ_range b).
  assert (2 ^ (8 * (i + 1)) = 256 * 2 ^ (8 * i)) as Hpow.
  { replace (8 * (i + 1)) with (8 + 8 * i) by lia. rewrite Z.pow_add_r by lia. done. }
  assert (0 < 2 ^ (8 * i)) by (apply Z.pow_pos_nonneg; lia).
  assert (2 ^ (8 * (i + 1)) <= 2 ^ 64) by (apply Z.pow_le_mono_r; lia).
  rewrite u64_small by (rewrite Z.shiftl_mul_pow2 by lia; nia).
  rewrite lor_disjoint by lia. rewrite IH; [rewrite Hpow; ring|lia|lia|nia].
Qed.

Lemma substr_app pre mid post :
  substr (pre ++ mid ++ post) (len pre) (len mid) = mid.
Proof.
  unfold substr, len. rewrite !Nat2Z.id, drop_app_length. apply take_app_length.
Qed.

(** Reading a field in place. *)
Lemma readLE_field pre field post :
  len field <= 8 -> len (pre ++ field ++ post) < 2 ^ 64 ->
  readLE (pre ++ field ++ post) (len pre) (len field) = Some (leValue field, len pre + len field).
Proof.
  intros Hf Hbig. unfold readLE. rewrite !len_app in *.
  pose proof (len_nonneg pre). pose proof (len_nonneg field). pose proof (len_nonneg post).
  rewrite u64_small by lia. destruct (Z.ltb_spec (len pre + (len field + len post)) (len pre + len field)); [lia|].
  rewrite substr_app, readLoop_spec by (simpl; lia). do 2 f_equal. lia.
Qed.

Lemma readLE_append pre v n post :
  (n <= 8)%nat -> 0 <= v < 2 ^ (8 * Z.of_nat n) -> len (pre ++ leBytes v n ++ post) < 2 ^ 64 ->
  readLE (pre ++ leBytes v n ++ post) (len pre) (Z.of_nat n) = Some (v, len pre + Z.of_nat n).
Proof.
  intros Hn Hv Hbig. pose proof (leBytes_length v n) as Hl.
  replace (Z.of_nat n) with (len (leBytes v n)) by (unfold len; by rewrite Hl).
  rewrite readLE_field; [|unfold len; lia|done].
  rewrite leValue_leBytes, Z.mod_small by done. done.
Qed.

(** ** Entries *)

Lemma readField_ok pre s post pl i bad :
  len s <= kMaxFieldLength -> len (pre ++ leBytes (len s) 4 ++ s ++ post) < 2 ^ 64 ->
  len pre + 4 + len s <= pl ->
  readField (pre ++ leBytes (len s) 4 ++ s ++ post) pl (len pre) i bad =
  inr (s, len pre + 4 + len s).
Proof.
  intros Hs Hbig Hpl. unfold readField. pose proof (len_nonneg s). pose proof (len_nonneg pre).
  change 4 with (Z.of_nat 4) at 1. unfold kMaxFieldLength in *.
  rewrite readLE_append by (try done; simpl; lia).
  destruct (Z.ltb_spec (512 * 1024 * 1024) (len s)); [lia|].
  pose proof (leBytes_len (len s) 4) as Hl4. change (Z.of_nat 4) with 4 in Hl4.
  pose proof (len_nonneg post). rewrite !len_app, Hl4 in Hbig. change (Z.of_nat 4) with 4.
  rewrite u64_small by lia. cbn zeta. destruct (Z.ltb_spec pl (len pre + 4 + len s)); [lia|].
  rewrite app_assoc. replace (len pre + 4) with (len (pre ++ leBytes (len s) 4)) at 1
    by (rewrite len_app; lia). by rewrite substr_app.
Qed.

Lemma toSigned_toUnsigned z : - 2 ^ 63 <= z < 2 ^ 63 -> toSigned (toUnsigned z) = z.
Proof.
  intros Hz. unfold toSigned, toUnsigned, u64. destruct (Z.lt_ge_cases z 0).
  - assert (z mod 2 ^ 64 = z + 2 ^ 64) as -> by (symmetry; apply (Z.mod_unique_pos z (2 ^ 64) (-1)); lia).
    destruct (Z.ltb_spec (z + 2 ^ 64) (2 ^ 63)); lia.
  - rewrite Z.mod_small by lia. destruct (Z.ltb_spec z (2 ^ 63)); lia.
Qed.

Lemma recordBytes_len rec : len (recordBytes rec) = 16 + len (ekey rec.1) + len (evalue rec.1).
Proof.
  unfold recordBytes. rewrite !len_app, !leBytes_len. lia.
Qed.

(** One record, read field by field. *)
Lemma readRecord pre rec post pl i bad bad' :
  recordFits rec -> len (pre ++ recordBytes rec ++ post) < 2 ^ 64 ->
  len (pre ++ recordBytes rec) <= pl ->
  exists o1 o2,
    readField (pre ++ recordBytes rec ++ post) pl (len pre) i bad = inr (ekey rec.1, o1) /\
    readField (pre ++ recordBytes rec ++ post) pl o1 i bad' = inr (evalue rec.1, o2) /\
    readLE (pre ++ recordBytes rec ++ post) o2 8 =
      Some (toUnsigned rec.2, len (pre ++ recordBytes rec)).
Proof.
  intros [[Hk Hv] Hms] Hbig Hpl. destruct rec as [e ms]. cbn [fst snd] in *.
  rewrite len_app, recordBytes_len in Hpl. cbn [fst] in Hpl.
  pose proof (len_nonneg (ekey e)). pose proof (len_nonneg (evalue e)).
  set (D := pre ++ recordBytes (e, ms) ++ post) in *.
  set (L4k := leBytes (len (ekey e)) 4). set (L4v := leBytes (len (evalue e)) 4).
  set (L8 := leBytes (toUnsigned ms) 8).
  set (pre2 := pre ++ L4k ++ ekey e). set (pre3 := pre2 ++ L4v ++ evalue e).
  assert (len pre2 = len pre + 4 + len (ekey e)) as Hp2.
  { unfold pre2. rewrite !len_app. unfold L4k. rewrite leBytes_len. lia. }
  assert (len pre3 = len pre2 + 4 + len (evalue e)) as Hp3.
  { unfold pre3. rewrite !len_app. unfold L4v. rewrite leBytes_len. lia. }
  assert (D = pre ++ L4k ++ ekey e ++ (L4v ++ evalue e ++ L8 ++ post)) as HD1.
  { unfold D, recordBytes, L4k, L4v, L8. cbn [fst snd]. by rewrite <- !app_assoc. }
  assert (D = pre2 ++ L4v ++ evalue e ++ (L8 ++ post)) as HD2.
  { rewrite HD1. unfold pre2. by rewrite <- !app_assoc. }
  assert (D = pre3 ++ L8 ++ post) as HD3.
  { rewrite HD2. unfold pre3. by rewrite <- !app_assoc. }
  exists (len pre2), (len pre3). split_and!.
  - unfold L4k in HD1. rewrite HD1. rewrite readField_ok; [by rewrite Hp2|done|by rewrite <- HD1|lia].
  - unfold L4v in HD2. rewrite HD2. rewrite readField_ok; [by rewrite Hp3|done|by rewrite <- HD2|lia].
  - unfold L8 in HD3. rewrite HD3. change 8 with (Z.of_nat 8).
    rewrite readLE_append; [|lia|apply u64_range|by rewrite <- HD3].
    do 2 f_equal. rewrite len_app, recordBytes_len. cbn [fst]. lia.
Qed.

(** The loop over records that were written by [encode]. *)
Lemma decodeEntries_records `{SystemClock} r recs fuel pre post i acc es :
  Forall recordFits recs ->
  len (pre ++ concat (map recordBytes recs) ++ post) < 2 ^ 64 ->
  (length recs <= fuel)%nat -> 0 <= i -> reloadAll r (Z.to_nat i) recs = Some es ->
  decodeEntries fuel r (pre ++ concat (map recordBytes recs) ++ post)
    (len (pre ++ concat (map recordBytes recs))) (i + len recs) i (len pre) acc =
  Some (inr (acc ++ es, len (pre ++ concat (map recordBytes recs)))).
Proof.
  intros Hfit. revert fuel pre i acc es.
  induction Hfit as [|rec recs Hrec Hfit IH]; intros fuel pre i acc es Hbig Hf Hi Hre.
  { simpl in Hre. simplify_eq. rewrite !app_nil_r in *. change (len (@nil (Entry * Z))) with 0.
    destruct fuel; simpl; destruct (Z.ltb_spec i (i + 0)); try lia; done. }
  destruct fuel as [|fuel]; simpl in Hf; [lia|]. cbn [map concat] in *. cbn [reloadAll] in Hre.
  destruct (reloadEntry r (Z.to_nat i) rec) as [es1|] eqn:Hre1; [|done]. cbn in Hre.
  destruct (reloadAll r (S (Z.to_nat i)) recs) as [es2|] eqn:Hre2; [|done]. cbn in Hre. simplify_eq.
  rewrite len_cons. pose proof (len_nonneg recs).
  set (C := concat (map recordBytes recs)) in *. pose proof (len_nonneg C).
  rewrite <- (app_assoc (recordBytes rec)) in *.
  cbn [decodeEntries]. destruct (Z.ltb_spec i (i + (1 + len recs))); [|lia].
  destruct (readRecord pre rec (C ++ post) (len (pre ++ recordBytes rec ++ C)) i
    (bs " has an invalid key length") (bs " has an invalid value length") Hrec Hbig)
    as (o1 & o2 & -> & -> & ->); [rewrite !len_app; lia|].
  rewrite toSigned_toUnsigned by apply Hrec.
  rewrite !(app_assoc pre (recordBytes rec)) in *. set (pre' := pre ++ recordBytes rec) in *.
  assert (forall acc', decodeEntries fuel r (pre' ++ C ++ post) (len (pre' ++ C))
    (i + (1 + len recs)) (i + 1) (len pre') acc' = Some (inr (acc' ++ es2, len (pre' ++ C)))) as Hnext.
  { intros acc'. replace (i + (1 + len recs)) with (i + 1 + len recs) by lia.
    apply IH; [done|lia|lia|]. by replace (Z.to_nat (i + 1)) with (S (Z.to_nat i)) by lia. }
  unfold reloadEntry in Hre1. destruct (rec.2 =? 0).
  { injection Hre1 as <-. rewrite Hnext. by rewrite <- app_assoc. }
  destruct (fromWallClockMillis _ _ rec.2) as [[d|]|]; cbn in Hre1 |- *; [| |done];
    injection Hre1 as <-; [|by rewrite Hnext].
  rewrite Hnext. unfold isExpiredAt. cbn [expiration].
  destruct (d <=? now r); cbn; [done|]. by rewrite <- app_assoc.
Qed.

(** ** Whole files *)

Lemma checksumOf_fnv data : checksumOf data = fold_left fnvStep data kFnvOffsetBasis.
Proof. done. Qed.

Lemma checksumOf_range data : 0 <= checksumOf data < 2 ^ 64.
Proof. rewrite checksumOf_fnv. apply fold_fnvStep_range. unfold kFnvOffsetBasis. lia. Qed.

Lemma appendEntries_records `{SystemClock} r i out live :
  appendEntries r i out live =
  (recs ← recordsOf r i live; Some (out ++ concat (map recordBytes recs))).
Proof.
  revert i out. induction live as [|e live IH]; intros i out; cbn [appendEntries recordsOf].
  { cbn. by rewrite app_nil_r. }
  unfold appendEntry. destruct (match expiration e with Some _ => _ | None => _ end) as [ms|];
    cbn [mbind option_bind]; [|done].
  rewrite IH. destruct (recordsOf r (S i) live) as [recs|]; cbn [mbind option_bind map concat]; [|done].
  rewrite !appendLE_app. unfold recordBytes. cbn [fst snd]. by rewrite <- !app_assoc.
Qed.

Lemma recordsOf_length `{SystemClock} r i live recs :
  recordsOf r i live = Some recs -> map fst recs = live.
Proof.
  revert i recs. induction live as [|e live IH]; intros i recs; cbn [recordsOf]; [by intros [= <-]|].
  destruct (match expiration e with Some _ => _ | None => _ end) as [ms|]; cbn; [|done].
  destruct (recordsOf r (S i) live) as [recs'|] eqn:Hr; cbn; [|done].
  intros [= <-]. cbn. f_equal. by eapply IH.
Qed.

(** [encode] writes the abstract format. *)
Lemma encode_file `{SystemClock} r es :
  encode r es =
  (recs ← recordsOf r 0 (List.filter (fun e => negb (isExpiredAt e (now r))) es);
   Some (fileBytes recs)).
Proof.
  unfold encode. cbn zeta. rewrite appendEntries_records.
  destruct (recordsOf r 0 _) as [recs|] eqn:Hr; cbn [mbind option_bind]; [|done].
  apply recordsOf_length in Hr. rewrite <- Hr. unfold fileBytes.
  assert (len (map fst recs) = len recs) as -> by (unfold len; by rewrite length_map).
  assert (appendLE (appendLE kMagic kFormatVersion 2) (len recs) 8 ++ concat (map recordBytes recs)
    = payloadBytes recs) as -> by (rewrite !appendLE_app; unfold payloadBytes, headerBytes; by rewrite <- !app_assoc).
  done.
Qed.

Lemma len_concat_records recs : 16 * len recs <= len (concat (map recordBytes recs)).
Proof.
  induction recs as [|rec recs IH]; cbn [map concat]; [done|].
  rewrite len_cons, len_app, recordBytes_len.
  pose proof (len_nonneg (ekey rec.1)). pose proof (len_nonneg (evalue rec.1)). lia.
Qed.

Lemma headerBytes_len count : len (headerBytes count) = kHeaderLength.
Proof. unfold headerBytes. by rewrite !len_app, !leBytes_len. Qed.

(** [decode] accepts the abstract format. *)
Lemma decode_file `{SystemClock} r recs es :
  Forall recordFits recs -> len (fileBytes recs) < 2 ^ 64 ->
  reloadAll r 0 recs = Some es -> decode r (fileBytes recs) = Some (inr es).
Proof.
  intros Hfit Hbig Hre. unfold decode.
  assert (len (fileBytes recs) = len (payloadBytes recs) + 8) as Hlen
    by (unfold fileBytes; by rewrite len_app, leBytes_len).
  assert (len (payloadBytes recs) = kHeaderLength + len (concat (map recordBytes recs))) as Hpl
    by (unfold payloadBytes; by rewrite len_app, headerBytes_len).
  pose proof (len_concat_records recs) as Hrecs. pose proof (len_nonneg recs).
  unfold kHeaderLength, kChecksumLength, kMagicLength in *.
  destruct (Z.ltb_spec (len (fileBytes recs)) (6 + 2 + 8 + 8)); [lia|].
  replace (len (fileBytes recs) - 8) with (len (payloadBytes recs)) by lia.
  assert (fileBytes recs = payloadBytes recs ++ leBytes (checksumOf (payloadBytes recs)) 8 ++ []) as HF1
    by (by rewrite app_nil_r).
  assert (fileBytes recs = kMagic ++ leBytes kFormatVersion 2 ++ leBytes (len recs) 8 ++
    concat (map recordBytes recs) ++ leBytes (checksumOf (payloadBytes recs)) 8) as HF2.
  { unfold fileBytes. unfold payloadBytes at 1. unfold headerBytes. by rewrite <- !app_assoc. }
  rewrite bool_decide_true by (rewrite HF2; apply (take_app_length kMagic)). cbn [negb].
  rewrite HF1 at 1. change 8 with (Z.of_nat 8) at 1.
  rewrite readLE_append; [|lia|apply checksumOf_range|by rewrite <- HF1].
  replace (take (Z.to_nat (len (payloadBytes recs))) (fileBytes recs)) with (payloadBytes recs)
    by (unfold fileBytes, len; by rewrite Nat2Z.id, take_app_length).
  rewrite Z.eqb_refl. cbn [negb].
  rewrite HF2 at 1. change 6 with (len kMagic) at 1. change 2 with (Z.of_nat 2) at 1.
  rewrite readLE_append; [|lia|done|by rewrite <- HF2]. rewrite Z.eqb_refl. cbn [negb].
  rewrite HF2 at 1. rewrite (app_assoc kMagic). change 8 with (Z.of_nat 8) at 1.
  change (len kMagic + Z.of_nat 2) with (len (kMagic ++ leBytes kFormatVersion 2)).
  rewrite readLE_append; [|lia|simpl; lia|rewrite <- app_assoc; by rewrite <- HF2].
  change (len (kMagic ++ leBytes kFormatVersion 2) + Z.of_nat 8) with (len (headerBytes 0)).
  rewrite headerBytes_len, <- (headerBytes_len (len recs)).
  pose proof (decodeEntries_records r recs (length (fileBytes recs)) (headerBytes (len recs))
    (leBytes (checksumOf (payloadBytes recs)) 8) 0 [] es Hfit) as Hdec.
  rewrite app_assoc in Hdec. fold (payloadBytes recs) in Hdec. fold (fileBytes recs) in Hdec.
  rewrite Z.add_0_l in Hdec. rewrite Hdec; [cbn; by rewrite Z.eqb_refl|done| |lia|done].
  unfold len in *. lia.
Qed.

(** ** Deadlines *)

Lemma i64_some z : - 2 ^ 63 <= z < 2 ^ 63 -> i64 z = Some z.
Proof.
  intros Hz. unfold i64, int64Range.
  destruct (Z.leb_spec (- 2 ^ 63) z), (Z.ltb_spec z (2 ^ 63)); try lia. done.
Qed.

Section Deadlines.
Context `{SystemClock}.

Lemma ticksPerMilli_pos : 0 < ticksPerMilli.
Proof.
  pose proof tickNanos_pos. pose proof tickNanos_divides as Hd. unfold ticksPerMilli. nia.
Qed.

Lemma toWall_synced s sys delta d :
  sys * tickNanos = s + delta -> 0 <= s < 2 ^ 61 -> 1000000 <= sys * tickNanos < 2 ^ 62 ->
  s < d < 2 ^ 62 -> d + delta < 2 ^ 62 ->
  toWallClockMillis s sys d = Some ((d + delta) / 1000000) /\ 0 < (d + delta) / 1000000 < 2 ^ 62.
Proof.
  intros Hsync Hs Hsys Hd Hdelta. pose proof tickNanos_pos. pose proof ticksPerMilli_pos.
  pose proof tickNanos_divides as Hdiv. fold ticksPerMilli in Hdiv.
  assert ((d - s) / tickNanos = (d + delta) / tickNanos - sys) as Hq.
  { replace (d + delta) with (d - s + sys * tickNanos) by lia. rewrite Z.div_add by lia. lia. }
  assert (0 <= (d + delta) / tickNanos < 2 ^ 62) as Hw.
  { split; [apply Z.div_pos; lia|]. apply Z.div_lt_upper_bound; nia. }
  unfold toWallClockMillis. rewrite i64_some by lia. cbn [mbind option_bind].
  rewrite Z.quot_div_nonneg by lia. rewrite Hq, Zplus_minus, i64_some by lia. cbn [mbind option_bind].
  rewrite Z.quot_div_nonneg, Z.div_div, Hdiv by lia. split; [done|].
  split; [apply Z.div_str_pos; lia|]. apply Z.div_lt_upper_bound; lia.
Qed.

Lemma fromWall_synced s sys delta d :
  sys * tickNanos = s + delta -> 0 <= s < 2 ^ 61 -> 1000000 <= sys * tickNanos < 2 ^ 62 ->
  0 < d + delta < 2 ^ 62 -> d < 2 ^ 62 ->
  fromWallClockMillis s sys ((d + delta) / 1000000) =
  Some (if wholeMilli delta d <=? s then None else Some (wholeMilli delta d)).
Proof.
  intros Hsync Hs Hsys Hd Hd62. pose proof tickNanos_pos. pose proof ticksPerMilli_pos.
  pose proof tickNanos_divides as Hdiv. fold ticksPerMilli in Hdiv.
  set (ms := (d + delta) / 1000000).
  assert (0 <= ms * 1000000 <= d + delta) as Hms.
  { pose proof (Z.mul_div_le (d + delta) 1000000 ltac:(lia)).
    pose proof (Z.div_pos (d + delta) 1000000). unfold ms. lia. }
  assert (wholeMilli delta d = (ms * ticksPerMilli - sys) * tickNanos + s) as Hwhole.
  { unfold wholeMilli. fold ms. rewrite Z.mul_sub_distr_r, <- Z.mul_assoc, (Z.mul_comm ticksPerMilli), Hdiv. lia. }
  assert (0 < ticksPerMilli <= 1000000) by nia. assert (0 < sys <= sys * tickNanos) by nia.
  assert (0 <= ms) by lia. assert (0 <= ms * ticksPerMilli <= ms * 1000000) by nia.
  assert (wholeMilli delta d <= d) by (unfold wholeMilli; fold ms; lia).
  unfold fromWallClockMillis. rewrite i64_some by lia. cbn [mbind option_bind].
  rewrite i64_some by lia. cbn [mbind option_bind].
  set (x := ms * ticksPerMilli - sys) in *.
  assert (x <= 0 -> x * tickNanos <= 0) by nia. assert (0 < x -> 0 < x * tickNanos) by nia.
  destruct (Z.leb_spec x 0), (Z.leb_spec (wholeMilli delta d) s); try lia; [done|].
  rewrite i64_some by lia. cbn [mbind option_bind].
  rewrite i64_some by lia. cbn [mbind option_bind]. do 2 f_equal. lia.
Qed.

(** Writing and reading back the records of live entries. *)
Lemma reload_survivors delta r r' i live :
  synced delta r -> synced delta r' ->
  (forall j e d, live !! j = Some e -> expiration e = Some d ->
    steady r (i + j) < d < 2 ^ 62 /\ d + delta < 2 ^ 62) ->
  Forall fieldsFit live ->
  exists recs, recordsOf r i live = Some recs /\ Forall recordFits recs /\
    reloadAll r' i recs = Some (survivors delta r' i live).
Proof.
  intros Hr Hr'. revert i. induction live as [|e live IH]; intros i Hd Hfit.
  { exists []. done. }
  apply Forall_cons in Hfit as [He Hfit].
  destruct (IH (S i)) as (recs & Hrecs & Hrf & Hre); [|done|].
  { intros j x d Hx Hxd. replace (S i + j)%nat with (i + S j)%nat by lia. by eapply Hd. }
  cbn [recordsOf survivors].
  destruct (expiration e) as [d|] eqn:Hexp; cbn [mbind option_bind].
  - specialize (Hd 0%nat e d eq_refl Hexp) as [Hd1 Hd2]. rewrite Nat.add_0_r in Hd1.
    destruct (Hr i) as (Hs1 & Hs2 & Hs3). destruct (Hr' i) as (Hs1' & Hs2' & Hs3').
    destruct (toWall_synced _ _ _ _ Hs1 Hs2 Hs3 Hd1 Hd2) as [Hto Hms].
    rewrite Hto. cbn [mbind option_bind]. rewrite Hrecs. cbn [mbind option_bind].
    eexists. split; [done|]. split.
    { constructor; [|done]. split; [done|]. cbn. lia. }
    cbn [reloadAll]. unfold reloadEntry. cbn [fst snd].
    destruct (Z.eqb_spec ((d + delta) / 1000000) 0); [lia|].
    rewrite (fromWall_synced _ _ delta) by (done || lia). cbn [mbind option_bind]. rewrite Hre. cbn [mbind option_bind].
    destruct (wholeMilli delta d <=? steady r' i); cbn; [done|].
    by destruct (wholeMilli delta d <=? now r').
  - rewrite Hrecs. cbn [mbind option_bind]. eexists. split; [done|]. split.
    { constructor; [|done]. split; [done|]. cbn. lia. }
    cbn [reloadAll]. unfold reloadEntry. cbn [fst snd]. cbn. rewrite Hre. cbn.
    do 2 f_equal. rewrite <- Hexp. by destruct e.
Qed.

Lemma wholeMilli_close delta d : d - 1000000 < wholeMilli delta d <= d.
Proof. unfold wholeMilli. pose proof (Z.div_mod (d + delta) 1000000). pose proof (Z.mod_pos_bound (d + delta) 1000000). lia. Qed.

End Deadlines.

(** ** Corruption *)

(** Two payloads that differ in one byte have different checksums. *)
Lemma checksumOf_byte p c c' s : checksumOf (p ++ c :: s) = checksumOf (p ++ c' :: s) -> c = c'.
Proof.
  rewrite !checksumOf_fnv, !fold_left_app. cbn [fold_left]. intros Heq.
  assert (0 <= fold_left fnvStep p kFnvOffsetBasis < 2 ^ 64) as Hr
    by (apply fold_fnvStep_range; unfold kFnvOffsetBasis; lia).
  apply fold_fnvStep_inj in Heq; [|apply fnvStep_range|apply fnvStep_range].
  by eapply fnvStep_inj_byte.
Qed.

Lemma readLE_checksum data : 8 <= len data < 2 ^ 64 ->
  readLE data (len data - 8) 8 = Some (storedChecksum data, len data).
Proof.
  intros Hlen. unfold storedChecksum. set (n := (length data - 8)%nat).
  assert (length (take n data) = n) as Ht by (rewrite length_take; unfold len in *; lia).
  assert (len (drop n data) = 8) as Hd by (unfold len in *; rewrite length_drop; lia).
  pose proof (readLE_field (take n data) (drop n data) []) as Hr.
  rewrite app_nil_r, take_drop in Hr. rewrite Hd in Hr.
  replace (len (take n data)) with (len data - 8) in Hr by (unfold len in *; lia).
  rewrite Hr by lia. do 2 f_equal. lia.
Qed.

Section Integrity.
Context `{SystemClock}.

Lemma decode_checksum_bad r data :
  24 <= len data < 2 ^ 64 -> storedChecksum data <> checksumOf (payloadOf data) ->
  exists e, decode r data = Some (inl e).
Proof.
  intros Hlen Hbad. unfold decode, kHeaderLength, kChecksumLength, kMagicLength.
  destruct (Z.ltb_spec (len data) (6 + 2 + 8 + 8)); [lia|].
  destruct (negb (bool_decide _)); [by eexists|]. rewrite readLE_checksum by lia.
  replace (Z.to_nat (len data - 8)) with (length data - 8)%nat by (unfold len; lia).
  fold (payloadOf data). destruct (Z.eqb_spec (storedChecksum data) (checksumOf (payloadOf data))); [done|].
  by eexists.
Qed.

Lemma decode_accepts r data es :
  len data < 2 ^ 64 -> decode r data = Some (inr es) ->
  24 <= len data /\ storedChecksum data = checksumOf (payloadOf data).
Proof.
  intros Hbig Hdec.
  destruct (Z.lt_ge_cases (len data) 24).
  { unfold decode, kHeaderLength, kChecksumLength, kMagicLength in Hdec.
    destruct (Z.ltb_spec (len data) (6 + 2 + 8 + 8)); [done|lia]. }
  split; [done|]. destruct (Z.eq_dec (storedChecksum data) (checksumOf (payloadOf data))); [done|].
  destruct (decode_checksum_bad r data) as [e He]; [lia|done|]. congruence.
Qed.

(** A file that was accepted is refused once any one byte of it has changed. *)
Lemma decode_altered r r' data es i c :
  len data < 2 ^ 64 -> decode r data = Some (inr es) ->
  (i < length data)%nat -> data !! i <> Some c ->
  exists e, decode r' (<[i := c]> data) = Some (inl e).
Proof.
  intros Hbig Hdec Hi Hc. destruct (decode_accepts _ _ _ Hbig Hdec) as [Hlen Hsum].
  apply decode_checksum_bad; [unfold len in *; rewrite length_insert; lia|].
  destruct (lookup_lt_is_Some_2 data i Hi) as [b Hb]. rewrite Hb in Hc.
  unfold storedChecksum, payloadOf in *. rewrite length_insert. set (n := (length data - 8)%nat) in *.
  assert (n = length data - 8)%nat as Hn by done.
  destruct (Nat.lt_ge_cases i n) as [Hin|Hin].
  - rewrite drop_insert_lt by done. rewrite Hsum. rewrite take_insert_lt by done.
    rewrite <- (take_drop_middle (take n data) i b) at 1 by (by rewrite lookup_take_lt).
    rewrite insert_take_drop by (rewrite length_take; lia).
    intros Heq. apply checksumOf_byte in Heq. congruence.
  - rewrite drop_insert_ge, take_insert_ge by done. rewrite <- Hsum. intros Heq.
    apply leValue_inj in Heq; [|by rewrite length_insert].
    apply (f_equal (fun l => l !! (i - n)%nat)) in Heq.
    rewrite list_lookup_insert_eq in Heq by (rewrite length_drop; lia).
    rewrite lookup_drop in Heq. replace (n + (i - n))%nat with i in Heq by lia. congruence.
Qed.

(** ** Termination *)

Lemma readLE_advance data offset n v o :
  0 <= offset <= len data -> 0 <= n <= 8 -> len data < 2 ^ 63 ->
  readLE data offset n = Some (v, o) -> o = offset + n /\ o <= len data.
Proof.
  intros Ho Hn Hbig. unfold readLE. rewrite u64_small by lia. cbn zeta.
  destruct (Z.ltb_spec (len data) (offset + n)); [done|]. intros [= _ <-]. lia.
Qed.

Lemma readLoop_nonneg field i v : 0 <= v -> 0 <= i -> 0 <= readLoop field i v.
Proof.
  revert i v. induction field as [|b field IH]; intros i v Hv Hi; cbn [readLoop]; [done|].
  apply IH; [|lia]. apply Z.lor_nonneg. split; [done|]. apply u64_range.
Qed.

Lemma readField_advance data pl offset i bad s o :
  0 <= offset <= len data -> pl <= len data -> len data < 2 ^ 63 ->
  readField data pl offset i bad = inr (s, o) -> offset + 4 <= o <= len data.
Proof.
  intros Ho Hpl Hbig. unfold readField.
  destruct (readLE data offset 4) as [[n o1]|] eqn:Hr; [|done].
  apply readLE_advance in Hr as Hadv; [|lia..]. destruct Hadv as [-> Ho1].
  assert (0 <= n) as Hn.
  { unfold readLE in Hr. destruct (_ <? _); [done|]. injection Hr as <- _. by apply readLoop_nonneg. }
  unfold kMaxFieldLength. destruct (Z.ltb_spec (512 * 1024 * 1024) n); [done|].
  rewrite u64_small by lia. cbn zeta. destruct (Z.ltb_spec pl (offset + 4 + n)); [done|].
  intros [= _ <-]. lia.
Qed.

(** The loop over the entries only fails to end in an answer on a clock value
    that does not fit. *)
Lemma decodeEntries_total fuel r data pl count i offset acc :
  0 <= offset <= len data -> pl <= len data -> len data < 2 ^ 63 ->
  len data - offset < Z.of_nat fuel ->
  decodeEntries fuel r data pl count i offset acc = None ->
  exists j o raw stop, readLE data o 8 = Some (raw, stop) /\
    fromWallClockMillis (steady r j) (system r j) (toSigned raw) = None.
Proof.
  revert i offset acc. induction fuel as [|fuel IH]; intros i offset acc Ho Hpl Hbig Hf; [lia|].
  cbn [decodeEntries]. destruct (i <? count); [|done].
  destruct (readField data pl offset i _) as [|[k o1]] eqn:H1; [done|].
  apply readField_advance in H1; [|done..].
  destruct (readField data pl o1 i _) as [|[v o2]] eqn:H2; [done|].
  apply readField_advance in H2; [|lia..].
  destruct (readLE data o2 8) as [[raw o3]|] eqn:H3; [|done].
  apply readLE_advance in H3 as HadvH3; [|lia..]. destruct HadvH3 as [-> Ho3].
  destruct (toSigned raw =? 0); [apply IH; lia|].
  destruct (fromWallClockMillis _ _ (toSigned raw)) as [[d|]|] eqn:Hw; cbn [mbind option_bind];
    [apply IH; lia|apply IH; lia|].
  intros _. eauto 10.
Qed.

(** Every entry read takes at least a byte of the file. *)
Lemma decodeEntries_count fuel r data pl count i offset acc es o :
  0 <= offset <= len data -> pl <= len data -> len data < 2 ^ 63 ->
  decodeEntries fuel r data pl count i offset acc = Some (inr (es, o)) ->
  len es + offset <= len acc + o /\ o <= len data.
Proof.
  revert i offset acc. induction fuel as [|fuel IH]; intros i offset acc Ho Hpl Hbig; cbn [decodeEntries];
    (destruct (i <? count); [|intros [= <- <-]; lia]); [done|].
  destruct (readField data pl offset i _) as [|[k o1]] eqn:H1; [done|].
  apply readField_advance in H1; [|done..].
  destruct (readField data pl o1 i _) as [|[v o2]] eqn:H2; [done|].
  apply readField_advance in H2; [|lia..].
  destruct (readLE data o2 8) as [[raw o3]|] eqn:H3; [|done].
  apply readLE_advance in H3 as Hadv; [|lia..]. destruct Hadv as [-> Ho3].
  assert (forall acc', len acc' <= len acc + 1 ->
    decodeEntries fuel r data pl count (i + 1) (o2 + 8) acc' = Some (inr (es, o)) ->
    len es + offset <= len acc + o /\ o <= len data) as Hnext.
  { intros acc' Hacc Hd. apply IH in Hd; lia. }
  destruct (toSigned raw =? 0); [apply Hnext; rewrite len_app; unfold len; simpl; lia|].
  destruct (fromWallClockMillis _ _ (toSigned raw)) as [[d|]|]; cbn [mbind option_bind];
    [|apply Hnext; lia|done].
  apply Hnext. destruct (isExpiredAt _ _); [lia|]. rewrite len_app. unfold len. simpl. lia.
Qed.

Lemma decode_count r data es :
  len data < 2 ^ 63 -> decode r data = Some (inr es) -> len es <= len data.
Proof.
  intros Hbig. unfold decode, kHeaderLength, kChecksumLength, kMagicLength.
  destruct (Z.ltb_spec (len data) (6 + 2 + 8 + 8)); [done|].
  destruct (negb _); [done|]. destruct (readLE data (len data - 8) 8) as [[x y]|]; [|done].
  destruct (negb _); [done|]. destruct (readLE data 6 2) as [[version o1]|] eqn:H1; [|done].
  apply readLE_advance in H1 as HadvH1; [|lia..]. destruct HadvH1 as [-> Ho1].
  destruct (negb _); [done|]. destruct (readLE data (6 + 2) 8) as [[count o2]|] eqn:H2; [|done].
  apply readLE_advance in H2 as HadvH2; [|lia..]. destruct HadvH2 as [-> Ho2].
  destruct (decodeEntries _ _ _ _ _ _ _ _) as [[e|[es' o]]|] eqn:Hd; cbn [mbind option_bind]; [done| |done].
  apply decodeEntries_count in Hd; [|lia..]. change (len (@nil Entry)) with 0 in Hd.
  destruct (negb _); [done|]. intros [= <-]. lia.
Qed.

Lemma decode_total r data :
  len data < 2 ^ 63 -> decode r data = None ->
  exists j offset raw stop, readLE data offset 8 = Some (raw, stop) /\
    fromWallClockMillis (steady r j) (system r j) (toSigned raw) = None.
Proof.
  intros Hbig. unfold decode, kHeaderLength, kChecksumLength, kMagicLength.
  destruct (Z.ltb_spec (len data) (6 + 2 + 8 + 8)); [done|].
  destruct (negb _); [done|]. destruct (readLE data (len data - 8) 8) as [[x y]|]; [|done].
  destruct (negb _); [done|]. destruct (readLE data 6 2) as [[version o1]|] eqn:H1; [|done].
  apply readLE_advance in H1 as HadvH1; [|lia..]. destruct HadvH1 as [-> Ho1].
  destruct (negb _); [done|]. destruct (readLE data (6 + 2) 8) as [[count o2]|] eqn:H2; [|done].
  apply readLE_advance in H2 as HadvH2; [|lia..]. destruct HadvH2 as [-> Ho2].
  destruct (decodeEntries _ _ _ _ _ _ _ _) as [[e|[es o]]|] eqn:Hd; cbn [mbind option_bind]; [done| |].
  - by destruct (negb _).
  - intros _. eapply decodeEntries_total; [| | | |exact Hd]; try lia. unfold len in *. lia.
Qed.

End Integrity.
