(* ===== verification/SaveLoad.v ===== *)
(** * Saving to and loading from a file

    [SnapshotStore] of [Persistence.h] and [Persistence.cpp].  The operating
    system is a parameter: [FileSystem] lists the calls the program makes.  A
    computation with effects, [IO], runs on a world and also returns the world
    after each system call, in order: these are the states a crash can leave
    behind.  [None] is undefined behaviour or a loop that ran out of fuel. *)
From S2P Require Import Prelude.
From S2P Require Import Text.
From S2P Require Import Table.
From S2P Require Import Store.
From S2P Require Import Snapshot.

#[local] Open Scope Z_scope.

(** ** The operating system *)

Inductive Errno := EINTR | ENOENT | OtherError (code : Z).

#[global] Instance Errno_eq_dec : EqDecision Errno.
Proof. solve_decision. Defined.

(** The system calls, with the flags the program passes.  A call that fails
    returns the value of [errno]. *)
Class FileSystem := {
  World : Type;
  openWrite : bytes -> World -> World * (Errno + Z);
  openRead : bytes -> World -> World * (Errno + Z);
  write : Z -> bytes -> World -> World * (Errno + Z);
  read : Z -> Z -> World -> World * (Errno + bytes);
  fsync : Z -> World -> World * option Errno;
  close : Z -> World -> World * unit;
  rename : bytes -> bytes -> World -> World * option Errno;
  unlink : bytes -> World -> World * unit;
  strerror : Errno -> bytes
}.

(** ** Computations with effects *)

Definition IO `{FileSystem} (A : Type) : Type := World -> option (A * World * list World).

#[global] Instance IO_ret `{FileSystem} : MRet IO := fun A x w => Some (x, w, []).
#[global] Instance IO_bind `{FileSystem} : MBind IO := fun A B f m w =>
  match m w with
  | None => None
  | Some (x, w1, t1) =>
      match f x w1 with None => None | Some (y, w2, t2) => Some (y, w2, t1 ++ t2) end
  end.

(** A system call. *)
Definition call `{FileSystem} {A} (f : World -> World * A) : IO A :=
  fun w => let '(w', x) := f w in Some (x, w', [w']).

(** A computation without effects that may be undefined. *)
Definition lift `{FileSystem} {A} (o : option A) : IO A :=
  fun w => match o with Some x => Some (x, w, []) | None => None end.

Definition outOfFuel `{FileSystem} {A} : IO A := fun _ => None.

(** ** Helpers of Persistence.cpp *)

Definition describeErrno `{FileSystem} (what path : bytes) (e : Errno) : bytes :=
  what ++ bs " '" ++ path ++ bs "': " ++ strerror e.

(** [None] is success, [Some e] the failure with [errno = e]; [data] is what is
    still to be written. *)
Fixpoint writeAll `{FileSystem} (fuel : nat) (fd : Z) (data : bytes) : IO (option Errno) :=
  match data with
  | [] => mret None
  | _ :: _ =>
      match fuel with
      | O => outOfFuel
      | S fuel' =>
          result ← call (write fd data);
          match result with
          | inl EINTR => writeAll fuel' fd data
          | inl e => mret (Some e)
          | inr n => writeAll fuel' fd (drop (Z.to_nat n) data)
          end
      end
  end.

Definition readBufferSize : Z := 64 * 1024.

Fixpoint readWholeFile `{FileSystem} (fuel : nat) (fd : Z) (out : bytes) : IO (Errno + bytes) :=
  match fuel with
  | O => outOfFuel
  | S fuel' =>
      result ← call (read fd readBufferSize);
      match result with
      | inl EINTR => readWholeFile fuel' fd out
      | inl e => mret (inl e)
      | inr [] => mret (inr out)
      | inr chunk => readWholeFile fuel' fd (out ++ chunk)
      end
  end.

Module SnapshotStore.

(** ** State and outcomes *)

Record t := mk { path_ : bytes; saveCount_ : Z }.

Definition new (path : bytes) : t := mk path 0.
Definition saveCount (s : t) : Z := saveCount_ s.

Record SaveOutcome := mkSave {
  ok : bool;
  entriesWritten : Z;
  bytesWritten : Z;
  saveError : bytes
}.

Inductive LoadStatus := Loaded | NotFound | Failed.

Record LoadOutcome := mkLoad {
  status : LoadStatus;
  entriesLoaded : Z;
  loadError : bytes
}.

Definition saveFailed (error : bytes) : SaveOutcome := mkSave false 0 0 error.
Definition loadFailed (error : bytes) : LoadOutcome := mkLoad Failed 0 error.

Definition tempPath (s : t) : bytes := path_ s ++ bs ".tmp".

(** ** Operations *)

(** [clock] gives the instant at which each shard is read, [r] the readings made
    while encoding. *)
Definition save `{FileSystem} `{SystemClock} (fuel : nat) (s : t) (db : Database.t)
    (clock : nat -> time_point) (r : Readings) : IO (t * SaveOutcome) :=
  entries ← lift (Database.snapshot db clock);
  encoded ← lift (snapshot.encode r entries);
  let temp := tempPath s in
  fd ← call (openWrite temp);
  match fd with
  | inl e => mret (s, saveFailed (describeErrno (bs "cannot open") temp e))
  | inr fd =>
      written ← writeAll fuel fd encoded;
      match written with
      | Some e =>
          _ ← call (close fd);
          _ ← call (unlink temp);
          mret (s, saveFailed (describeErrno (bs "cannot write") temp e))
      | None =>
          flushed ← call (fsync fd);
          match flushed with
          | Some e =>
              _ ← call (close fd);
              _ ← call (unlink temp);
              mret (s, saveFailed (describeErrno (bs "cannot flush") temp e))
          | None =>
              _ ← call (close fd);
              renamed ← call (rename temp (path_ s));
              match renamed with
              | Some e =>
                  _ ← call (unlink temp);
                  mret (s, saveFailed (describeErrno (bs "cannot replace") (path_ s) e))
              | None =>
                  mret (mk (path_ s) (u64 (saveCount_ s + 1)),
                        mkSave true (len entries) (len encoded) [])
              end
          end
      end
  end.

(** [r] holds the readings made while decoding, [now] the one made by
    [Database::restore].  [close] is taken to leave [errno] alone. *)
Definition load `{FileSystem} `{SystemClock} `{Platform} (fuel : nat) (s : t) (db : Database.t)
    (r : Readings) (now : time_point) : IO (Database.t * LoadOutcome) :=
  fd ← call (openRead (path_ s));
  match fd with
  | inl ENOENT => mret (db, mkLoad NotFound 0 [])
  | inl e => mret (db, loadFailed (describeErrno (bs "cannot open") (path_ s) e))
  | inr fd =>
      data ← readWholeFile fuel fd [];
      _ ← call (close fd);
      match data with
      | inl e => mret (db, loadFailed (describeErrno (bs "cannot read") (path_ s) e))
      | inr data =>
          decoded ← lift (snapshot.decode r data);
          match decoded with
          | inl error => mret (db, loadFailed error)
          | inr entries =>
              restored ← lift (Database.restore db entries now);
              mret (fst restored, mkLoad Loaded (snd restored) [])
          end
      end
  end.

End SnapshotStore.
