(* ===== verification/SaveLoadSpec.v ===== *)
(** * What saving and loading promise

    The clients of the file system rely on [PosixLaws]: what POSIX documents of
    the calls, in terms of the contents of the named files.  Against that
    interface, saving is atomic at every system call, loading is all or nothing,
    and both end.  [memory] is a file system in memory, with short writes and
    interrupted calls, that satisfies the laws. *)
From S2P Require Import Prelude.
From S2P Require Import Text.
From S2P Require Import Table.
From S2P Require Import Store.
From S2P Require Import Snapshot.
From S2P Require Import SaveLoad.

#[local] Open Scope Z_scope.

(** ** The interface *)

(** [file]: the contents of a named file; [writing], [reading]: the file a
    descriptor writes to, the bytes a descriptor has still to read; [interrupts]:
    a bound on the interrupted calls to come. *)
Class PosixView `{FileSystem} := {
  file : World -> bytes -> option bytes;
  writing : World -> Z -> option bytes;
  reading : World -> Z -> option bytes;
  interrupts : World -> nat
}.

Definition sameFiles `{PosixView} (w w' : World) : Prop := forall q, file w' q = file w q.
Definition sameFilesBut `{PosixView} (p : bytes) (w w' : World) : Prop :=
  forall q, q <> p -> file w' q = file w q.

Class PosixLaws `{FS : FileSystem} `{!PosixView} := {
  openWrite_law p w w' res : openWrite p w = (w', res) ->
    (interrupts w' <= interrupts w)%nat /\
    match res with
    | inr fd => sameFilesBut p w w' /\ file w' p = Some [] /\ writing w' fd = Some p
    | inl _ => sameFiles w w'
    end;
  write_law fd data w w' res p c : write fd data w = (w', res) ->
    writing w fd = Some p -> file w p = Some c -> data <> [] ->
    sameFilesBut p w w' /\ writing w' fd = Some p /\ (interrupts w' <= interrupts w)%nat /\
    match res with
    | inr n => 0 < n <= len data /\ file w' p = Some (c ++ take (Z.to_nat n) data)
    | inl e => file w' p = Some c /\ (e = EINTR -> (interrupts w' < interrupts w)%nat)
    end;
  fsync_law fd w w' res : fsync fd w = (w', res) -> sameFiles w w';
  close_law fd w w' res : close fd w = (w', res) -> sameFiles w w';
  rename_law a b w w' res : rename a b w = (w', res) -> a <> b ->
    match res with
    | None => file w' b = file w a /\ (forall q, q <> a -> q <> b -> file w' q = file w q)
    | Some _ => sameFiles w w'
    end;
  unlink_law p w w' res : unlink p w = (w', res) -> sameFilesBut p w w';
  openRead_law p w w' res : openRead p w = (w', res) ->
    sameFiles w w' /\ (interrupts w' <= interrupts w)%nat /\
    match res with
    | inr fd => exists c, file w p = Some c /\ reading w' fd = Some c
    | inl ENOENT => file w p = None
    | inl _ => True
    end;
  read_law fd n w w' res rest : read fd n w = (w', res) -> 0 < n -> reading w fd = Some rest ->
    sameFiles w w' /\ (interrupts w' <= interrupts w)%nat /\
    match res with
    | inr chunk => (chunk = [] -> rest = []) /\
        exists rest', rest = chunk ++ rest' /\ reading w' fd = Some rest'
    | inl e => reading w' fd = Some rest /\ (e = EINTR -> (interrupts w' < interrupts w)%nat)
    end
}.

(** [runs m w I Q]: from [w] the computation returns, every world a system call
    leaves satisfies [I], and the result and the final world satisfy [Q]. *)
Definition runs `{FileSystem} {A} (m : IO A) (w : World) (I : World -> Prop)
    (Q : A -> World -> Prop) : Prop :=
  exists x w' t, m w = Some (x, w', t) /\ Forall I t /\ Q x w'.

(** Where a crash during a save can leave the files: the snapshot is the old one
    or the new one, and nothing but it and the temporary file has changed. *)
Definition oldOrNew `{PosixView} (s : SnapshotStore.t) (data : bytes) (w w' : World) : Prop :=
  (file w' (SnapshotStore.path_ s) = file w (SnapshotStore.path_ s) \/
   file w' (SnapshotStore.path_ s) = Some data) /\
  (forall q, q <> SnapshotStore.path_ s -> q <> SnapshotStore.tempPath s -> file w' q = file w q).

(** The outcome of a save. *)
Definition savedOrNot `{PosixView} (s : SnapshotStore.t) (entries : list Entry) (data : bytes) (w : World)
    (res : SnapshotStore.t * SnapshotStore.SaveOutcome) (w' : World) : Prop :=
  let '(s', o) := res in
  if SnapshotStore.ok o then
    s' = SnapshotStore.mk (SnapshotStore.path_ s) (u64 (SnapshotStore.saveCount_ s + 1)) /\
    o = SnapshotStore.mkSave true (len entries) (len data) [] /\
    file w' (SnapshotStore.path_ s) = Some data
  else s' = s /\ file w' (SnapshotStore.path_ s) = file w (SnapshotStore.path_ s).

(** The outcome of a load: nothing to load, a failure of a call or of the decoder
    that leaves the database alone, or the whole of the file. *)
Definition loadedOrNot `{PosixView} `{SystemClock} `{Platform} (s : SnapshotStore.t)
    (db : Database.t) (r : Readings) (now : time_point) (w : World)
    (res : Database.t * SnapshotStore.LoadOutcome) (w' : World) : Prop :=
  let '(db', o) := res in
  match SnapshotStore.status o with
  | SnapshotStore.NotFound => db' = db /\ file w (SnapshotStore.path_ s) = None
  | SnapshotStore.Failed => db' = db /\
      ((exists what e, SnapshotStore.loadError o = describeErrno what (SnapshotStore.path_ s) e) \/
       exists data, file w (SnapshotStore.path_ s) = Some data /\
         snapshot.decode r data = Some (inl (SnapshotStore.loadError o)))
  | SnapshotStore.Loaded => exists data es, file w (SnapshotStore.path_ s) = Some data /\
      snapshot.decode r data = Some (inr es) /\
      Database.restore db es now = Some (db', SnapshotStore.entriesLoaded o)
  end.

(** ** A file system in memory *)

Inductive Handle := Writing (p : bytes) | Reading (rest : bytes).

(** [chunk]: calls transfer at most [chunk + 1] bytes; [pending]: calls still to
    be interrupted; [full]: the device has no space left. *)
Record MemWorld := mkMem {
  files : gmap bytes bytes;
  handles : gmap Z Handle;
  nextFd : Z;
  chunk : nat;
  pending : nat;
  full : bool
}.

Definition memOpen (h : Handle) (fs : gmap bytes bytes) (w : MemWorld) : MemWorld * (Errno + Z) :=
  (mkMem fs (<[nextFd w := h]> (handles w)) (nextFd w + 1) (chunk w) (pending w) (full w),
   inr (nextFd w)).

Definition withFiles (fs : gmap bytes bytes) (w : MemWorld) : MemWorld :=
  mkMem fs (handles w) (nextFd w) (chunk w) (pending w) (full w).

(** An interrupted call uses up one interruption. *)
Definition interrupt {A} (w : MemWorld) (k : MemWorld -> MemWorld * (Errno + A)) : MemWorld * (Errno + A) :=
  match pending w with
  | S n => (mkMem (files w) (handles w) (nextFd w) (chunk w) n (full w), inl EINTR)
  | O => k w
  end.

Definition memWrite (fd : Z) (data : bytes) (w : MemWorld) : MemWorld * (Errno + Z) :=
  interrupt w (fun w =>
    if full w then (w, inl (OtherError 28))
    else
      match handles w !! fd with
      | Some (Writing p) =>
          let n := Nat.min (S (chunk w)) (length data) in
          (withFiles (<[p := default [] (files w !! p) ++ take n data]> (files w)) w, inr (Z.of_nat n))
      | _ => (w, inl (OtherError 9))
      end).

Definition memRead (fd n : Z) (w : MemWorld) : MemWorld * (Errno + bytes) :=
  interrupt w (fun w =>
    match handles w !! fd with
    | Some (Reading rest) =>
        let k := Nat.min (S (chunk w)) (Z.to_nat n) in
        (mkMem (files w) (<[fd := Reading (drop k rest)]> (handles w)) (nextFd w) (chunk w)
           (pending w) (full w), inr (take k rest))
    | _ => (w, inl (OtherError 9))
    end).

#[global] Instance memory : FileSystem := {|
  World := MemWorld;
  openWrite p w := memOpen (Writing p) (<[p := []]> (files w)) w;
  openRead p w :=
    match files w !! p with
    | Some c => memOpen (Reading c) (files w) w
    | None => (w, inl ENOENT)
    end;
  write := memWrite;
  read := memRead;
  fsync _ w := (w, None);
  close _ w := (w, tt);
  rename a b w :=
    match files w !! a with
    | Some c => (withFiles (<[b := c]> (delete a (files w))) w, None)
    | None => (w, Some ENOENT)
    end;
  unlink p w := (withFiles (delete p (files w)) w, tt);
  strerror e := bs "error"
|}.

#[global] Instance memory_view : PosixView := {|
  file w p := files w !! p;
  writing w fd := match handles w !! fd with Some (Writing p) => Some p | _ => None end;
  reading w fd := match handles w !! fd with Some (Reading c) => Some c | _ => None end;
  interrupts := pending
|}.

(** ** The file system in memory satisfies the laws *)

Lemma mem_write_law fd data w w' res p c :
  memWrite fd data w = (w', res) -> writing w fd = Some p -> file w p = Some c -> data <> [] ->
  sameFilesBut p w w' /\ writing w' fd = Some p /\ (interrupts w' <= interrupts w)%nat /\
  match res with
  | inr n => 0 < n <= len data /\ file w' p = Some (c ++ take (Z.to_nat n) data)
  | inl e => file w' p = Some c /\ (e = EINTR -> (interrupts w' < interrupts w)%nat)
  end.
Proof.
  unfold memWrite, interrupt. cbn. intros Hrun Hw Hf Hne. unfold sameFilesBut. cbn.
  destruct (pending w) as [|k] eqn:Hp.
  2:{ simplify_eq/=. split_and!; try done; try lia. }
  destruct (full w); [simplify_eq/=; rewrite Hp; split_and!; try done; lia|].
  destruct (handles w !! fd) as [[p'|]|] eqn:Hh; [|done..].
  injection Hrun as <- <-. injection Hw as ->. cbn. rewrite Hh, Hf. cbn. split_and!; try done; try lia.
  - intros q Hq. by rewrite lookup_insert_ne.
  - destruct data; [done|]. simpl. lia.
  - unfold len. destruct data; [done|]. simpl. lia.
  - by rewrite lookup_insert_eq, Nat2Z.id.
Qed.

Lemma mem_read_law fd n w w' res rest :
  memRead fd n w = (w', res) -> 0 < n -> reading w fd = Some rest ->
  sameFiles w w' /\ (interrupts w' <= interrupts w)%nat /\
  match res with
  | inr chunk => (chunk = [] -> rest = []) /\
      exists rest', rest = chunk ++ rest' /\ reading w' fd = Some rest'
  | inl e => reading w' fd = Some rest /\ (e = EINTR -> (interrupts w' < interrupts w)%nat)
  end.
Proof.
  unfold memRead, interrupt. cbn. intros Hrun Hn Hr. unfold sameFiles. cbn.
  destruct (pending w) as [|k] eqn:Hp.
  2:{ simplify_eq/=. split_and!; try done; try lia. }
  destruct (handles w !! fd) as [[|c]|] eqn:Hh; [done| |done].
  injection Hrun as <- <-. injection Hr as ->. cbn -[Nat.min]. split_and!; try done; try lia.
  - intros Ht. apply (f_equal length) in Ht. rewrite length_take in Ht.
    destruct rest; [done|]. destruct (Z.to_nat n) eqn:E; [lia|]. simpl in Ht. lia.
  - eexists. by rewrite lookup_insert_eq, take_drop.
Qed.

#[global] Instance memory_laws : PosixLaws.
Proof.
  constructor.
  - intros p w w' res [= <- <-]. cbn. unfold sameFilesBut. cbn. rewrite !lookup_insert_eq.
    split_and!; try done. intros q Hq. by rewrite lookup_insert_ne.
  - apply mem_write_law.
  - intros fd w w' res [= <- <-] q. done.
  - intros fd w w' res [= <- <-] q. done.
  - intros a b w w' res. cbn. destruct (files w !! a) as [c|] eqn:Ha; intros [= <- <-] Hab; cbn; [|done].
    rewrite lookup_insert_eq. split; [done|]. intros q Hqa Hqb.
    by rewrite lookup_insert_ne, lookup_delete_ne.
  - intros p w w' res [= <- <-] q Hq. cbn. by rewrite lookup_delete_ne.
  - intros p w w' res. cbn. destruct (files w !! p) as [c|] eqn:Hp; intros [= <- <-]; cbn; [|done].
    split_and!; try done. exists c. by rewrite lookup_insert_eq.
  - apply mem_read_law.
Qed.

(** ** Rules for computations with effects *)

Section Rules.
Context `{FileSystem}.

Lemma runs_ret {A} (x : A) w I (Q : A -> World -> Prop) : Q x w -> runs (mret x) w I Q.
Proof. intros HQ. exists x, w, []. done. Qed.

Lemma runs_lift {A} (o : option A) x w I (Q : A -> World -> Prop) :
  o = Some x -> Q x w -> runs (lift o) w I Q.
Proof. intros -> HQ. exists x, w, []. done. Qed.

Lemma runs_call {A} (f : World -> World * A) w I (Q : A -> World -> Prop) :
  (forall w' x, f w = (w', x) -> I w' /\ Q x w') -> runs (call f) w I Q.
Proof.
  intros Hf. unfold runs, call. destruct (f w) as [w' x] eqn:E. destruct (Hf w' x eq_refl).
  exists x, w', [w']. split_and!; [done|by repeat constructor|done].
Qed.

Lemma runs_bind {A B} (m : IO A) (f : A -> IO B) w I (Q : B -> World -> Prop) :
  runs m w I (fun x w1 => runs (f x) w1 I Q) -> runs (m ≫= f) w I Q.
Proof.
  intros (x & w1 & t1 & Hm & Ht1 & y & w2 & t2 & Hf & Ht2 & HQ).
  exists y, w2, (t1 ++ t2). unfold mbind, IO_bind. rewrite Hm, Hf.
  split_and!; [done|by apply Forall_app|done].
Qed.

End Rules.

(** ** The loops *)

Section Effects.
Context `{PosixLaws}.

Lemma sameFilesBut_trans p w1 w2 w3 : sameFilesBut p w1 w2 -> sameFilesBut p w2 w3 -> sameFilesBut p w1 w3.
Proof. intros H12 H23 q Hq. by rewrite (H23 q), (H12 q). Qed.

Lemma sameFiles_but p w w' : sameFiles w w' -> sameFilesBut p w w'.
Proof. intros Hs q _. apply Hs. Qed.

Lemma sameFilesBut_refl p w : sameFilesBut p w w.
Proof. done. Qed.

(** [writeAll] ends; it only touches the file it writes; when it succeeds the
    file holds all of the data. *)
Lemma writeAll_spec fuel fd data w p c :
  writing w fd = Some p -> file w p = Some c -> (length data + interrupts w <= fuel)%nat ->
  exists r w' t, writeAll fuel fd data w = Some (r, w', t) /\
    sameFilesBut p w w' /\ Forall (sameFilesBut p w) t /\
    (r = None -> file w' p = Some (c ++ data)).
Proof.
  revert data w c. induction fuel as [|fuel IH]; intros data w c Hw Hf Hfuel;
    (destruct data as [|b data]; [exists None, w, []; cbn; rewrite app_nil_r; split_and!; done|]).
  { simpl in Hfuel. lia. }
  cbn [writeAll]. unfold mbind, IO_bind, call.
  destruct (write fd (b :: data) w) as [w1 res] eqn:Hwr.
  destruct (write_law _ _ _ _ _ _ _ Hwr Hw Hf ltac:(done)) as (Hsame & Hw1 & Hint & Hres).
  assert (forall d c1, file w1 p = Some c1 -> (length d + interrupts w1 <= fuel)%nat ->
    (c1 ++ d = c ++ b :: data) ->
    exists r w' t, match writeAll fuel fd d w1 with
      | Some (y, w2, t2) => Some (y, w2, [w1] ++ t2) | None => None end = Some (r, w', t) /\
    sameFilesBut p w w' /\ Forall (sameFilesBut p w) t /\
    (r = None -> file w' p = Some (c ++ b :: data))) as Hnext.
  { intros d c1 Hf1 Hd Heq. destruct (IH d w1 c1 Hw1 Hf1 Hd) as (r & w' & t & -> & Hs & Ht & Hr).
    exists r, w', ([w1] ++ t). split_and!; [done|by eapply sameFilesBut_trans| |].
    - constructor; [done|]. eapply Forall_impl; [exact Ht|]. intros x Hx. by eapply sameFilesBut_trans.
    - intros ->. rewrite Hr by done. by rewrite Heq. }
  simpl in Hfuel. destruct res as [e|n].
  - destruct Hres as [Hf1 Hdec].
    destruct e; [apply (Hnext (b :: data) c); [done|specialize (Hdec eq_refl); simpl; lia|done]|..];
      (eexists _, _, _; split; [done|]; split_and!; [done|by repeat constructor|done]).
  - destruct Hres as [Hn Hf1]. apply (Hnext _ _ Hf1).
    + rewrite length_drop. simpl. unfold len in Hn. simpl in Hn. lia.
    + rewrite <- app_assoc. by rewrite take_drop.
Qed.

Lemma Forall_sameFiles_trans w w1 t : sameFiles w w1 -> Forall (sameFiles w1) t -> Forall (sameFiles w) t.
Proof.
  intros Hs Ht. eapply Forall_impl; [exact Ht|]. intros x Hx q. by rewrite (Hx q), (Hs q).
Qed.

(** [readWholeFile] ends, changes no file, and when it succeeds has read all of
    the file. *)
Lemma readWholeFile_spec fuel fd out w rest :
  reading w fd = Some rest -> (length rest + interrupts w < fuel)%nat ->
  exists r w' t, readWholeFile fuel fd out w = Some (r, w', t) /\
    sameFiles w w' /\ Forall (sameFiles w) t /\
    (forall data, r = inr data -> data = out ++ rest).
Proof.
  revert out w rest. induction fuel as [|fuel IH]; intros out w rest Hr Hfuel; [lia|].
  cbn [readWholeFile]. unfold mbind, IO_bind, call.
  destruct (read fd readBufferSize w) as [w1 res] eqn:Hrd.
  destruct (read_law _ _ _ _ _ _ Hrd ltac:(done) Hr) as (Hsame & Hint & Hres).
  assert (forall o rest1, reading w1 fd = Some rest1 -> (length rest1 + interrupts w1 < fuel)%nat ->
    o ++ rest1 = out ++ rest ->
    exists r w' t, match readWholeFile fuel fd o w1 with
      | Some (y, w2, t2) => Some (y, w2, [w1] ++ t2) | None => None end = Some (r, w', t) /\
    sameFiles w w' /\ Forall (sameFiles w) t /\
    (forall data, r = inr data -> data = out ++ rest)) as Hnext.
  { intros o rest1 Hr1 Hd Heq. destruct (IH o w1 rest1 Hr1 Hd) as (r & w' & t & -> & Hs & Ht & Hrr).
    exists r, w', ([w1] ++ t). split_and!; [done| | |].
    - intros q. by rewrite (Hs q), (Hsame q).
    - constructor; [done|]. by eapply Forall_sameFiles_trans.
    - intros data Hdata. by rewrite (Hrr data Hdata). }
  destruct res as [e|[|b chunk]].
  - destruct Hres as [Hr1 Hdec].
    destruct e; [apply (Hnext out rest Hr1); [specialize (Hdec eq_refl); lia|done]|..];
      (eexists _, _, _; split; [done|]; split_and!; [done|by repeat constructor|done]).
  - destruct Hres as [Hnil _]. eexists _, _, _. split; [done|]. split_and!; [done|by repeat constructor|].
    intros data [= <-]. by rewrite Hnil, app_nil_r.
  - destruct Hres as (_ & rest' & -> & Hr1). apply (Hnext _ _ Hr1).
    + rewrite length_app in Hfuel. simpl in Hfuel. lia.
    + by rewrite <- app_assoc.
Qed.

(** ** Saving *)

Lemma tempPath_ne s : SnapshotStore.tempPath s <> SnapshotStore.path_ s.
Proof.
  unfold SnapshotStore.tempPath. intros Heq. apply (f_equal length) in Heq.
  rewrite length_app in Heq. simpl in Heq. lia.
Qed.

Lemma onlyTemp_oldOrNew s data w w' :
  sameFilesBut (SnapshotStore.tempPath s) w w' -> oldOrNew s data w w'.
Proof.
  intros Hs. split.
  - left. apply Hs. intros Heq. by apply (tempPath_ne s).
  - intros q _ Hq. by apply Hs.
Qed.

(** After a failed step: the error is reported and the snapshot is untouched. *)
Lemma discard_runs s data w0 w fd error (Q : SnapshotStore.t * SnapshotStore.SaveOutcome -> World -> Prop) :
  sameFilesBut (SnapshotStore.tempPath s) w0 w ->
  (forall w', sameFilesBut (SnapshotStore.tempPath s) w0 w' -> Q (s, SnapshotStore.saveFailed error) w') ->
  runs (_ ← call (close fd); _ ← call (unlink (SnapshotStore.tempPath s));
        mret (s, SnapshotStore.saveFailed error)) w (oldOrNew s data w0) Q.
Proof.
  intros Hs HQ. apply runs_bind, runs_call. intros w1 x Hc.
  assert (sameFilesBut (SnapshotStore.tempPath s) w0 w1) as Hs1
    by (eapply sameFilesBut_trans; [exact Hs|]; by eapply sameFiles_but, close_law).
  split; [by apply onlyTemp_oldOrNew|]. apply runs_bind, runs_call. intros w2 y Hu.
  assert (sameFilesBut (SnapshotStore.tempPath s) w0 w2) as Hs2
    by (eapply sameFilesBut_trans; [exact Hs1|]; by eapply unlink_law).
  split; [by apply onlyTemp_oldOrNew|]. by apply runs_ret, HQ.
Qed.

Lemma save_runs `{SystemClock} fuel s db clock r entries data w :
  Database.snapshot db clock = Some entries -> snapshot.encode r entries = Some data ->
  (length data + interrupts w <= fuel)%nat ->
  runs (SnapshotStore.save fuel s db clock r) w (oldOrNew s data w) (savedOrNot s entries data w).
Proof.
  intros Hsnap Henc Hfuel. unfold SnapshotStore.save.
  apply runs_bind. eapply runs_lift; [done|]. apply runs_bind. eapply runs_lift; [done|].
  set (temp := SnapshotStore.tempPath s). pose proof (tempPath_ne s) as Hne. fold temp in Hne.
  assert (forall error w', sameFilesBut temp w w' ->
    savedOrNot s entries data w (s, SnapshotStore.saveFailed error) w') as Hfail
    by (intros error w' Hs; split; [done|]; by apply Hs).
  apply runs_bind, runs_call. intros w1 [e|fd] Ho; apply openWrite_law in Ho as [Hint Ho].
  { split; [by apply onlyTemp_oldOrNew, sameFiles_but|].
    apply runs_ret, Hfail. by apply sameFiles_but. }
  destruct Ho as (Hs1 & Hf1 & Hw1). split; [by apply onlyTemp_oldOrNew|].
  apply runs_bind. destruct (writeAll_spec fuel fd data w1 temp [] Hw1 Hf1 ltac:(lia))
    as (res & w2 & t & Hrun & Hs2 & Ht & Hok).
  exists res, w2, t. split_and!; [done| |].
  { eapply Forall_impl; [exact Ht|]. intros x Hx.
    apply onlyTemp_oldOrNew. by eapply sameFilesBut_trans. }
  pose proof (sameFilesBut_trans _ _ _ _ Hs1 Hs2) as Hs12.
  destruct res as [e|]; [by apply discard_runs; [|apply Hfail]|].
  specialize (Hok eq_refl). cbn in Hok. apply runs_bind, runs_call. intros w3 flushed Hfs.
  pose proof (fsync_law _ _ _ _ Hfs) as Hsf.
  assert (sameFilesBut temp w w3) as Hs3 by (eapply sameFilesBut_trans; [exact Hs12|by apply sameFiles_but]).
  split; [by apply onlyTemp_oldOrNew|].
  destruct flushed as [e|]; [by apply discard_runs; [|apply Hfail]|].
  apply runs_bind, runs_call. intros w4 x Hcl. pose proof (close_law _ _ _ _ Hcl) as Hsc.
  assert (sameFilesBut temp w w4) as Hs4 by (eapply sameFilesBut_trans; [exact Hs3|by apply sameFiles_but]).
  split; [by apply onlyTemp_oldOrNew|].
  apply runs_bind, runs_call. intros w5 renamed Hre. apply rename_law in Hre; [|done].
  destruct renamed as [e|].
  { assert (sameFilesBut temp w w5) as Hs5 by (eapply sameFilesBut_trans; [exact Hs4|by apply sameFiles_but]).
    split; [by apply onlyTemp_oldOrNew|]. apply runs_bind, runs_call. intros w6 y Hu.
    assert (sameFilesBut temp w w6) as Hs6 by (eapply sameFilesBut_trans; [exact Hs5|by eapply unlink_law]).
    split; [by apply onlyTemp_oldOrNew|]. by apply runs_ret, Hfail. }
  destruct Hre as [Hnew Hrest]. rewrite (Hsc temp), (Hsf temp), Hok in Hnew. split.
  - split; [by right|]. intros q Hq1 Hq2. rewrite Hrest by done. by apply Hs4.
  - apply runs_ret. done.
Qed.

(** ** Loading *)

Lemma load_runs `{SystemClock} `{Platform} fuel s db r now w :
  (forall data, file w (SnapshotStore.path_ s) = Some data ->
    (length data + interrupts w < fuel)%nat /\ exists res, snapshot.decode r data = Some res /\
    forall es, res = inr es -> is_Some (Database.restore db es now)) ->
  runs (SnapshotStore.load fuel s db r now) w (sameFiles w) (loadedOrNot s db r now w).
Proof.
  intros Hpre. unfold SnapshotStore.load. apply runs_bind, runs_call. intros w1 res Ho.
  apply openRead_law in Ho as (Hs1 & Hint & Ho). split; [done|].
  destruct res as [e|fd].
  { destruct e; apply runs_ret; [|done|]; by (split; [|left; eexists _, _; reflexivity]). }
  destruct Ho as (data & Hf & Hrd). destruct (Hpre data Hf) as (Hfuel & res & Hdec & Hres).
  apply runs_bind. destruct (readWholeFile_spec fuel fd [] w1 data Hrd ltac:(lia))
    as (got & w2 & t & Hrun & Hs2 & Ht & Hgot).
  exists got, w2, t. split_and!; [done|by eapply Forall_sameFiles_trans|].
  apply runs_bind, runs_call. intros w3 x Hcl. pose proof (close_law _ _ _ _ Hcl) as Hs3.
  split; [intros q; by rewrite (Hs3 q), (Hs2 q), (Hs1 q)|].
  destruct got as [e|data']; [by apply runs_ret; split; [|left; eexists _, _; reflexivity]|].
  specialize (Hgot data' eq_refl). cbn in Hgot. subst data'.
  apply runs_bind. eapply runs_lift; [done|]. destruct res as [error|es].
  { apply runs_ret. cbn. split; [done|]. right. eauto. }
  destruct (Hres es eq_refl) as [[db' n] Hrest]. apply runs_bind. eapply runs_lift; [done|].
  apply runs_ret. cbn. eauto.
Qed.

End Effects.
