(* ===== verification/SnapshotClaims.v ===== *)
(** * Persistence: theorems

    The snapshot format and the snapshot store: the format reads back what it
    wrote, notices every single-byte change and ends on any input; saving is
    atomic, loading is all or nothing, and a save followed by a load brings the
    keyspace back. *)
From S2P Require Import Prelude.
From S2P Require Import Hash.
From S2P Require Import Text.
From S2P Require Import Table.
From S2P Require Import RecencyList.
From S2P Require Import TableInv.
From S2P Require Import TableSpec.
From S2P Require Import TableSweep.
From S2P Require Import Store.
From S2P Require Import StoreSpec.
From S2P Require Import StoreBulk.
From S2P Require Import StoreSweep.
From S2P Require Import StoreClaims.
From S2P Require Import Snapshot.
From S2P Require Import SnapshotSpec.
From S2P Require Import SaveLoad.
From S2P Require Import SaveLoadSpec.

#[local] Open Scope Z_scope.

(** ** Concrete inputs *)

(** A pair of clocks 1.7e18 nanoseconds apart, read at [t]. *)
Definition readingsAt (t : time_point) : Readings :=
  mkReadings t (fun _ => t) (fun _ => t + 1700000000000000000).

Definition sampleSaved : list Entry :=
  [mkEntry (bs "a") [x00; x0a; xff] None; mkEntry (bs "b") (bs "2") (Some 10000000500);
   mkEntry (bs "gone") (bs "3") (Some 400)].

Definition sampleFile : bytes := default [] (snapshot.encode (H := libstdcxx) (readingsAt 1000) sampleSaved).

(** A file whose only entry has an expiry of 2^62 milliseconds, with a correct
    checksum. *)
Definition farFuture : bytes := fileBytes [(mkEntry (bs "k") (bs "v") None, 2 ^ 62)].

(** What one run of the program saved and what a later one brings back. *)
Record sameKeyspace (delta : Z) (m m' : gmap bytes Entry) (latest : time_point) : Prop := {
  sk_from : forall k e', m' !! k = Some e' -> exists e, m !! k = Some e /\ evalue e' = evalue e /\
    expiration e' = wholeMilli delta <$> expiration e;
  sk_forever : forall k e, m !! k = Some e -> expiration e = None -> m' !! k = Some e;
  sk_deadline : forall k e d, m !! k = Some e -> expiration e = Some d -> latest + 1000000 <= d ->
    m' !! k = Some (mkEntry k (evalue e) (Some (wholeMilli delta d)))
}.

(** [latest] is not before any of the instants at which an entry is judged. *)
Definition readBefore (latest : time_point) (clock : nat -> time_point) (r r' : Readings)
    (now' : time_point) : Prop :=
  (forall j, clock j <= latest) /\ now r <= latest /\ now r' <= latest /\
  (forall j, steady r' j <= latest) /\ now' <= latest.

(** Deadlines of a plausible size, none of which falls in the instants between the
    reading of the clock that starts [encode] and the readings it makes later. *)
Definition deadlinesClear (delta : Z) (r : Readings) (m : gmap bytes Entry) : Prop :=
  forall k e d, m !! k = Some e -> expiration e = Some d ->
    d < 2 ^ 62 /\ d + delta < 2 ^ 62 /\ (now r < d -> forall j, steady r j < d).

Definition sampleStore : SnapshotStore.t := SnapshotStore.new (bs "dump.vcs").

(** Short transfers and two interrupted calls. *)
Definition flakyWorld : MemWorld := mkMem {[ bs "dump.vcs" := bs "old" ]} ∅ 3 6 2 false.
Definition savedWorld : MemWorld := mkMem {[ bs "dump.vcs" := sampleFile ]} ∅ 3 6 2 false.

(** What a save of the sample database lists and writes. *)
Definition sampleListed : list Entry := default [] (Database.snapshot sampleDb sampleClock).
Definition sampleData : bytes :=
  default [] (snapshot.encode (H := libstdcxx) (readingsAt 5000000000) sampleListed).

(** ** Lemmas *)

Lemma survivors_elem delta r i live e' :
  e' ∈ survivors delta r i live <-> exists j e, live !! j = Some e /\
    match expiration e with
    | None => e' = e
    | Some d => steady r (i + j) < wholeMilli delta d /\ now r < wholeMilli delta d /\
        e' = mkEntry (ekey e) (evalue e) (Some (wholeMilli delta d))
    end.
Proof.
  revert i. induction live as [|e live IH]; intros i; cbn [survivors].
  { split; [by intros ?%not_elem_of_nil|]. intros (j & e & Hj & _). done. }
  rewrite elem_of_app, IH. split.
  - intros [Hin|(j & x & Hj & Hx)].
    + exists 0%nat, e. rewrite Nat.add_0_r. split; [done|]. destruct (expiration e) as [d|].
      * ztests; cbn in Hin; try by apply not_elem_of_nil in Hin.
        apply list_elem_of_singleton in Hin. done.
      * by apply list_elem_of_singleton in Hin.
    + exists (S j), x. by rewrite Nat.add_succ_r.
  - intros ([|j] & x & Hj & Hx); cbn in Hj.
    + left. injection Hj as <-. rewrite Nat.add_0_r in Hx. destruct (expiration e) as [d|].
      * destruct Hx as (H1 & H2 & ->). ztests; try lia. cbn. by apply list_elem_of_singleton.
      * subst e'. by apply list_elem_of_singleton.
    + right. exists j, x. rewrite Nat.add_succ_r in Hx. done.
Qed.

Lemma survivors_keys delta r i live : sublist (ekey <$> survivors delta r i live) (ekey <$> live).
Proof.
  revert i. induction live as [|e live IH]; intros i; cbn [survivors]; [done|].
  rewrite fmap_app. cbn. destruct (expiration e) as [d|].
  - destruct (_ || _); cbn; [by apply sublist_cons|by apply sublist_skip].
  - cbn. by apply sublist_skip.
Qed.

Lemma survivors_length delta r i live : len (survivors delta r i live) <= len live.
Proof.
  pose proof (sublist_length _ _ (survivors_keys delta r i live)) as Hl.
  rewrite !length_fmap in Hl. unfold len. lia.
Qed.

(** The keyspace that a saved and reloaded list of entries stands for. *)
Lemma survivors_keyspace delta clock r r' now' m es latest (index : bytes -> nat) :
  NoDup (ekey <$> es) ->
  (forall e, e ∈ es <-> m !! ekey e = Some e /\ isExpiredAt e (clock (index (ekey e))) = false) ->
  (forall k e, m !! k = Some e -> ekey e = k) -> readBefore latest clock r r' now' ->
  sameKeyspace delta m
    (loadAll now' (survivors delta r' 0 (List.filter (fun e => negb (isExpiredAt e (now r))) es))) latest.
Proof.
  intros Hnd Hes Hkey (Hc & Hr & Hr' & Hs & Hn). set (live := List.filter _ es).
  assert (forall e, e ∈ live <-> e ∈ es /\ isExpiredAt e (now r) = false) as Hlive.
  { intros e. unfold live. by rewrite filter_bool_elem, negb_true_iff. }
  assert (NoDup (ekey <$> survivors delta r' 0 live)) as Hnd'.
  { eapply sublist_NoDup; [|apply survivors_keys]. by apply NoDup_fmap_filter. }
  assert (forall d, latest + 1000000 <= d -> latest < wholeMilli delta d) as Hfar.
  { intros d Hd. pose proof (wholeMilli_close delta d). lia. }
  constructor.
  - intros k e'. rewrite loadAll_lookup by done. intros (Hin & <- & _).
    apply survivors_elem in Hin as (j & e & Hj & Hx).
    assert (e ∈ live) as He by (by eapply list_elem_of_lookup_2).
    apply Hlive in He as [He _]. apply Hes in He as [He _].
    destruct (expiration e) as [d|] eqn:Hd.
    + destruct Hx as (_ & _ & ->). exists e. cbn. by rewrite Hd.
    + subst e'. exists e. by rewrite Hd.
  - intros k e He Hd. pose proof (Hkey k e He) as Hk. rewrite loadAll_lookup by done.
    assert (forall t, isExpiredAt e t = false) as Hnever by (intros t; unfold isExpiredAt; by rewrite Hd).
    split_and!; [|done|apply Hnever]. apply survivors_elem.
    assert (e ∈ live) as [j Hj]%list_elem_of_lookup.
    { apply Hlive. split; [|apply Hnever]. apply Hes. rewrite Hk. split; [done|apply Hnever]. }
    exists j, e. by rewrite Hd.
  - intros k e d He Hd Hlate. pose proof (Hkey k e He) as Hk. rewrite loadAll_lookup by done.
    assert (forall t, t <= latest -> isExpiredAt e t = false) as Hyet.
    { intros t Ht. unfold isExpiredAt. rewrite Hd. apply Z.leb_gt. lia. }
    specialize (Hfar d Hlate). split_and!; [|done|].
    + apply survivors_elem. assert (e ∈ live) as [j Hj]%list_elem_of_lookup.
      { apply Hlive. split; [|by apply Hyet]. apply Hes. rewrite Hk. split; [done|]. apply Hyet, Hc. }
      exists j, e. rewrite Hd. split; [done|]. split_and!; [specialize (Hs (0 + j)%nat); lia|lia|by rewrite Hk].
    + unfold isExpiredAt. cbn. apply Z.leb_gt. lia.
Qed.

Lemma decode_encode_live `{SystemClock} delta r r' es :
  synced delta r -> synced delta r' ->
  let live := List.filter (fun e => negb (isExpiredAt e (now r))) es in
  deadlinesAhead delta r live -> Forall fieldsFit live ->
  exists data, snapshot.encode r es = Some data /\
    (len data < 2 ^ 64 -> snapshot.decode r' data = Some (inr (survivors delta r' 0 live))).
Proof.
  intros Hr Hr' live Hd Hfit.
  destruct (reload_survivors delta r r' 0 live Hr Hr' Hd Hfit) as (recs & Hrecs & Hrf & Hre).
  exists (fileBytes recs). rewrite encode_file. fold live. rewrite Hrecs. split; [done|].
  intros Hbig. by apply decode_file.
Qed.

(** A file written from a list of entries decodes to the keyspace the list was made
    from. *)
Lemma listed_file_decodes `{SystemClock} m clock (index : bytes -> nat) r r' now' es delta latest :
  NoDup (ekey <$> es) ->
  (forall e, e ∈ es <-> m !! ekey e = Some e /\ isExpiredAt e (clock (index (ekey e))) = false) ->
  (forall k e, m !! k = Some e -> ekey e = k) ->
  synced delta r -> synced delta r' -> deadlinesClear delta r m ->
  (forall k e, m !! k = Some e -> fieldsFit e) -> readBefore latest clock r r' now' ->
  exists data, snapshot.encode r es = Some data /\
    (len data <= maxEntries ->
     exists es', snapshot.decode r' data = Some (inr es') /\ len es' <= maxEntries /\
       sameKeyspace delta m (loadAll now' es') latest).
Proof.
  intros Hnd Hes Hkey Hr Hr' Hclear Hfit Hread.
  set (live := List.filter (fun e => negb (isExpiredAt e (now r))) es).
  assert (forall e, e ∈ live -> m !! ekey e = Some e /\ isExpiredAt e (now r) = false) as Hlive.
  { intros e He. unfold live in He. rewrite filter_bool_elem, negb_true_iff in He. destruct He as [He Hx].
    apply Hes in He as [He _]. done. }
  destruct (decode_encode_live delta r r' es Hr Hr') as (data & Henc & Hdec).
  { intros j e d Hj Hd. destruct (Hlive e ltac:(by eapply list_elem_of_lookup_2)) as [He Hx].
    destruct (Hclear _ e d He Hd) as (Hd62 & Hw62 & Hgap). unfold isExpiredAt in Hx. rewrite Hd in Hx.
    apply Z.leb_gt in Hx. split; [split; [by apply Hgap|done]|done]. }
  { apply Forall_forall. intros e He. destruct (Hlive e He) as [Hm _]. by eapply Hfit. }
  fold live in Hdec. exists data. split; [done|]. intros Hsize. unfold maxEntries in Hsize |- *.
  specialize (Hdec ltac:(lia)). exists (survivors delta r' 0 live). split_and!; [done| |].
  - etransitivity; [|exact Hsize]. eapply decode_count; [lia|done].
  - eapply survivors_keyspace; eauto.
Qed.

(** A file written by a save decodes to the keyspace that was saved. *)
Lemma saved_file_decodes `{Platform} `{SystemClock} db m rs clock r r' now' entries data delta latest :
  dbRep db m rs -> synced delta r -> synced delta r' -> deadlinesClear delta r m ->
  (forall k e, m !! k = Some e -> fieldsFit e) -> readBefore latest clock r r' now' ->
  Database.snapshot db clock = Some entries -> snapshot.encode r entries = Some data ->
  len data <= maxEntries ->
  exists es, snapshot.decode r' data = Some (inr es) /\ len es <= maxEntries /\
    sameKeyspace delta m (loadAll now' es) latest.
Proof.
  intros HD Hr Hr' Hclear Hfit Hread Hsnap Henc Hsize.
  destruct (snapshot_rep db m rs clock HD) as (es & Hsnap' & Hnd & Hes). rewrite Hsnap in Hsnap'. simplify_eq.
  destruct (listed_file_decodes m clock (Database.shardIndexFor db) r r' now' es delta latest)
    as (data' & Henc' & Hdec); try done.
  { intros k e. by eapply dbRep_key. }
  rewrite Henc in Henc'. injection Henc' as <-. by apply Hdec.
Qed.

Section Format.
Context `{SystemClock}.


(** C26: a file that [decode] accepts is refused with an error once any one of its
    bytes, in the header, the entries or the checksum itself, has changed. *)
Theorem altered_byte_refused r r' data es i c :
  len data < 2 ^ 64 -> snapshot.decode r data = Some (inr es) ->
  (i < length data)%nat -> data !! i <> Some c ->
  exists e, snapshot.decode r' (<[i := c]> data) = Some (inl e).
Proof. apply decode_altered. Qed.

(** On any bytes whatsoever [decode] ends in an answer, entries or an error
    message, unless the file holds an eight-byte field that, taken as an expiry,
    the clock arithmetic cannot represent. *)
Theorem decode_answers r data :
  len data < 2 ^ 63 ->
  (exists res, snapshot.decode r data = Some res) \/
  exists j offset raw stop, snapshot.readLE data offset 8 = Some (raw, stop) /\
    fromWallClockMillis (steady r j) (system r j) (snapshot.toSigned raw) = None.
Proof.
  intros Hbig. destruct (snapshot.decode r data) as [res|] eqn:Hd; [eauto|].
  right. by apply decode_total.
Qed.

End Format.

(** With a nanosecond clock, a file that passes every check of [decode] can
    still hold an expiry whose conversion to clock ticks overflows a signed
    integer. *)
Theorem decode_expiry_overflow :
  storedChecksum farFuture = snapshot.checksumOf (payloadOf farFuture) /\
  snapshot.decode (H := libstdcxx) (readingsAt 0) farFuture = None.
Proof. split; vm_compute; reflexivity. Qed.

Section Files.
Context `{FS : FileSystem} `{PV : !PosixView} `{PL : !PosixLaws} `{SC : SystemClock} `{PF : Platform}.

(** C22: a save always returns.  After every single system call it makes, the
    snapshot file is the old one or the complete new one and no other file but the
    temporary one has changed; it reports success exactly when the new file is in
    place, and otherwise the old one is untouched. *)
Theorem save_atomic fuel s db clock r w entries data :
  Database.snapshot db clock = Some entries ->
  snapshot.encode r entries = Some data -> (length data + interrupts w <= fuel)%nat ->
  exists s' o w' t, SnapshotStore.save fuel s db clock r w = Some ((s', o), w', t) /\
    Forall (oldOrNew s data w) t /\
    (if SnapshotStore.ok o then
       file w' (SnapshotStore.path_ s) = Some data /\
       SnapshotStore.saveCount_ s' = u64 (SnapshotStore.saveCount_ s + 1) /\
       SnapshotStore.bytesWritten o = len data
     else s' = s /\ file w' (SnapshotStore.path_ s) = file w (SnapshotStore.path_ s)).
Proof.
  intros Hsnap Henc Hfuel.
  destruct (save_runs fuel s db clock r entries data w Hsnap Henc Hfuel) as ([s' o] & w' & t & Hrun & Ht & HQ).
  exists s', o, w', t. split_and!; [done..|]. unfold savedOrNot in HQ.
  destruct (SnapshotStore.ok o); [|done]. by destruct HQ as (-> & -> & Hf).
Qed.

(** C27: a load changes no file and either brings the whole snapshot in or leaves
    the database exactly as it was, saying why: no file, a failed system call, or
    a file the decoder refuses. *)
Theorem load_all_or_nothing fuel s db m rs r now w data decoded :
  dbRep db m rs -> file w (SnapshotStore.path_ s) = Some data ->
  (length data + interrupts w < fuel)%nat -> snapshot.decode r data = Some decoded ->
  len data <= maxEntries ->
  exists db' o w' t, SnapshotStore.load fuel s db r now w = Some ((db', o), w', t) /\
    Forall (sameFiles w) t /\
    match SnapshotStore.status o with
    | SnapshotStore.NotFound => False
    | SnapshotStore.Failed => db' = db /\
        (decoded = inl (SnapshotStore.loadError o) \/
         exists what e, SnapshotStore.loadError o = describeErrno what (SnapshotStore.path_ s) e)
    | SnapshotStore.Loaded => exists es, decoded = inr es /\
        Database.restore db es now = Some (db', SnapshotStore.entriesLoaded o)
    end.
Proof.
  intros HD Hfile Hfuel Hdec Hsize.
  destruct (load_runs fuel s db r now w) as ([db' o] & w' & t & Hrun & Ht & HQ).
  { intros data' Hd. rewrite Hfile in Hd. injection Hd as <-. split; [done|].
    exists decoded. split; [done|]. intros es ->.
    destruct (restore_rep db m rs es now HD) as (db2 & rs2 & -> & _); [|by eexists].
    etransitivity; [|exact Hsize]. eapply decode_count; [unfold maxEntries in Hsize; lia|done]. }
  exists db', o, w', t. split_and!; [done..|]. unfold loadedOrNot in HQ.
  destruct (SnapshotStore.status o).
  - destruct HQ as (data' & es & Hd & Hdec' & Hres). simplify_eq. eauto.
  - destruct HQ as [_ Hnone]. congruence.
  - destruct HQ as [-> [Herr|(data' & Hd & Hdec')]]; (split; [done|]); [by right|left]. by simplify_eq.
Qed.

(** Saving a database and loading the file later, in another process and into a
    database with any contents, restores the keyspace: every key without a
    deadline with its value, every key whose deadline is still a millisecond ahead
    with its value and a deadline less than a millisecond early, and nothing that
    was not there. *)
Theorem save_then_load fuel fuel' s db m rs clock r w db2 m2 rs2 r' now' w2 entries data delta latest :
  dbRep db m rs -> dbRep db2 m2 rs2 ->
  synced delta r -> synced delta r' -> deadlinesClear delta r m ->
  (forall k e, m !! k = Some e -> fieldsFit e) -> readBefore latest clock r r' now' ->
  Database.snapshot db clock = Some entries -> snapshot.encode r entries = Some data ->
  len data <= maxEntries -> (length data + interrupts w <= fuel)%nat ->
  exists s' o w1 t, SnapshotStore.save fuel s db clock r w = Some ((s', o), w1, t) /\
    (SnapshotStore.ok o = true ->
     file w2 (SnapshotStore.path_ s) = file w1 (SnapshotStore.path_ s) ->
     (length data + interrupts w2 < fuel')%nat ->
     exists db' o' w3 t', SnapshotStore.load fuel' s db2 r' now' w2 = Some ((db', o'), w3, t') /\
       ((SnapshotStore.status o' = SnapshotStore.Loaded /\
         exists m' rs', dbRep db' m' rs' /\ sameKeyspace delta m m' latest) \/
        (db' = db2 /\ exists what e,
           SnapshotStore.loadError o' = describeErrno what (SnapshotStore.path_ s) e))).
Proof.
  intros HD HD2 Hr Hr' Hclear Hfit Hread Hsnap Henc Hsize Hfuel.
  destruct (save_runs fuel s db clock r entries data w Hsnap Henc Hfuel) as ([s' o] & w1 & t & Hrun & _ & HQ).
  exists s', o, w1, t. split; [done|]. intros Hok Hfile Hfuel'. unfold savedOrNot in HQ. rewrite Hok in HQ.
  destruct HQ as (_ & _ & Hnew). rewrite Hnew in Hfile.
  destruct (saved_file_decodes db m rs clock r r' now' entries data delta latest) as (es & Hdec & Hcount & Hsame);
    try done.
  destruct (restore_rep db2 m2 rs2 es now' HD2 Hcount) as (db3 & rs3 & Hres & HD3 & _).
  destruct (load_runs fuel' s db2 r' now' w2) as ([db' o'] & w3 & t' & Hload & _ & HL).
  { intros x Hx. rewrite Hfile in Hx. injection Hx as <-. split; [done|]. eexists. split; [exact Hdec|].
    intros l [= <-]. by rewrite Hres. }
  exists db', o', w3, t'. split; [done|]. unfold loadedOrNot in HL. destruct (SnapshotStore.status o').
  - left. split; [done|]. destruct HL as (x & l & Hx & Hl & Hr3). simplify_eq. eauto.
  - destruct HL as [_ Hnone]. congruence.
  - right. destruct HL as [-> [Herr|(x & Hx & Hl)]]; [by split|]. simplify_eq.
Qed.

End Files.

(** ** Witnesses *)

Lemma synced_at t : 0 <= t < 2 ^ 61 -> synced (H := libstdcxx) 1700000000000000000 (readingsAt t).
Proof. intros Ht j. cbn. lia. Qed.


Lemma altered_byte_witness : exists e,
  snapshot.decode (H := libstdcxx) (readingsAt 2000) (<[20%nat := x58]> sampleFile) = Some (inl e).
Proof.
  refine (altered_byte_refused (H := libstdcxx) (readingsAt 2000) (readingsAt 2000) sampleFile _ 20 x58 _ _ _ _).
  - vm_compute. done.
  - vm_compute. reflexivity.
  - vm_compute. lia.
  - vm_compute. discriminate.
Defined.

Lemma sampleListed_snapshot : Database.snapshot sampleDb sampleClock = Some sampleListed.
Proof. vm_compute. reflexivity. Qed.

Lemma sampleData_encoded :
  snapshot.encode (H := libstdcxx) (readingsAt 5000000000) sampleListed = Some sampleData.
Proof. vm_compute. reflexivity. Qed.

Lemma save_atomic_witness : exists s' o w' t,
  SnapshotStore.save (H := memory) (H0 := libstdcxx) 1000 sampleStore sampleDb sampleClock
    (readingsAt 5000000000) flakyWorld = Some ((s', o), w', t).
Proof.
  destruct (save_atomic (FS := memory) (SC := libstdcxx) 1000 sampleStore sampleDb sampleClock
    (readingsAt 5000000000) flakyWorld sampleListed sampleData sampleListed_snapshot sampleData_encoded)
    as (s' & o & w' & t & Hrun & _).
  - vm_compute. lia.
  - exists s', o, w', t. exact Hrun.
Defined.

Lemma load_all_or_nothing_witness : exists db' o w' t,
  SnapshotStore.load (H := memory) (H0 := libstdcxx) (H1 := lp64) 1000 sampleStore sampleDb
    (readingsAt 2000) 2000 savedWorld = Some ((db', o), w', t).
Proof.
  destruct sampleDb_rep as (rs & HD & _).
  destruct (load_all_or_nothing (FS := memory) (SC := libstdcxx) (PF := lp64) 1000 sampleStore sampleDb
    sampleKeyspace rs (readingsAt 2000) 2000 savedWorld sampleFile
    (inr (default [] (d ← snapshot.decode (H := libstdcxx) (readingsAt 2000) sampleFile;
      match d with inr es => Some es | inl _ => None end))) HD) as (db' & o & w' & t & Hrun & _).
  - vm_compute. reflexivity.
  - vm_compute. lia.
  - vm_compute. reflexivity.
  - vm_compute. done.
  - exists db', o, w', t. exact Hrun.
Defined.

Lemma sampleDeadlines : deadlinesClear 1700000000000000000 (readingsAt 5000000000) sampleKeyspace.
Proof.
  intros k e d He Hd. unfold sampleKeyspace in He.
  repeat (apply lookup_insert_Some in He as [[_ <-]|[_ He]];
    [cbn in Hd; simplify_eq; (split_and!; [lia|lia|intros _ j; cbn; lia])|]).
  by rewrite lookup_empty in He.
Qed.

Lemma sampleFields k e : sampleKeyspace !! k = Some e -> fieldsFit e.
Proof.
  intros He. unfold sampleKeyspace in He.
  repeat (apply lookup_insert_Some in He as [[_ <-]|[_ He]]; [vm_compute; done|]).
  by rewrite lookup_empty in He.
Qed.

Lemma save_then_load_witness : exists s' o w1 t,
  SnapshotStore.save (H := memory) (H0 := libstdcxx) 1000 sampleStore sampleDb sampleClock
    (readingsAt 5000000000) flakyWorld = Some ((s', o), w1, t) /\ SnapshotStore.ok o = true.
Proof.
  destruct sampleDb_rep as (rs & HD & _). destruct limitedDb_rep as (m2 & rs2 & HD2 & _).
  destruct (save_then_load (FS := memory) (SC := libstdcxx) (PF := lp64) 1000 1000 sampleStore sampleDb
    sampleKeyspace rs sampleClock (readingsAt 5000000000) flakyWorld limitedDb m2 rs2
    (readingsAt 6000000000) 6000000000 savedWorld sampleListed sampleData 1700000000000000000 6000000000 HD HD2)
    as (s' & o & w1 & t & Hrun & _).
  - apply synced_at. lia.
  - apply synced_at. lia.
  - exact sampleDeadlines.
  - exact sampleFields.
  - repeat split; cbn; unfold sampleClock; lia.
  - exact sampleListed_snapshot.
  - exact sampleData_encoded.
  - vm_compute. done.
  - vm_compute. lia.
  - exists s', o, w1, t. split; [exact Hrun|].
    assert (match SnapshotStore.save (H := memory) (H0 := libstdcxx) 1000 sampleStore sampleDb sampleClock
      (readingsAt 5000000000) flakyWorld with Some ((_, o'), _, _) => SnapshotStore.ok o' | None => false end = true)
      as Hok by (vm_compute; reflexivity).
    rewrite Hrun in Hok. exact Hok.
Defined.

Lemma decode_answers_witness :
  (exists res, snapshot.decode (H := libstdcxx) (readingsAt 0) sampleFile = Some res) \/
  exists j offset raw stop, snapshot.readLE sampleFile offset 8 = Some (raw, stop) /\
    fromWallClockMillis (H := libstdcxx) (steady (readingsAt 0) j) (system (readingsAt 0) j)
      (snapshot.toSigned raw) = None.
Proof. apply (decode_answers (H := libstdcxx) (readingsAt 0) sampleFile). vm_compute. done. Defined.
