(* ===== verification/Executor.v ===== *)
(** * The command executor

    [CommandExecutor.h] and [CommandExecutor.cpp]: one request line in, at most
    one reply out.  The executor refers to a database and, when persistence is
    configured, to a snapshot store; both are part of the state a request may
    change.  (The escaping it applies to keys and values is in [Protocol].) *)
From S2P Require Import Prelude.
From S2P Require Import Text.
From S2P Require Import Protocol.
From S2P Require Import Parser.
From S2P Require Import Table.
From S2P Require Import Store.
From S2P Require Import Snapshot.
From S2P Require Import SaveLoad.

#[local] Open Scope Z_scope.

Module CommandExecutor.

Record t := mk { database_ : Database.t; store_ : option SnapshotStore.t }.

(** The readings of the clocks one request makes: [at_] by a single-key command,
    [shardClock] by KEYS and SAVE while they visit the shards, [saving] while SAVE
    encodes; [fuel] bounds the loop that writes the file. *)
Record Moment := mkMoment {
  at_ : time_point;
  shardClock : nat -> time_point;
  saving : Readings;
  fuel : nat
}.

Definition withDatabase (ex : t) (db : Database.t) : t := mk db (store_ ex).

(** [protocol::integer(b ? 1 : 0)] *)
Definition bit (b : bool) : bytes := protocol.integer (if b then 1 else 0).

(** The reply to KEYS. *)
Definition keysReply (keys : list bytes) : bytes :=
  fold_left (fun response key => response ++ [chLF] ++ protocol.value (escapeForWire key)) keys
    (protocol.arrayHeader (len keys)).

(** The SET branch: the database afterwards and the outcome. *)
Definition runSet `{Platform} (db : Database.t) (m : Moment) (c : CommandParser.Command)
    : option (Database.t * Database.SetOutcome) :=
  match CommandParser.expireSeconds c with
  | Some seconds => Database.setEx db (CommandParser.key c) (CommandParser.value c) seconds (at_ m)
  | None => Database.set db (CommandParser.key c) (CommandParser.value c)
  end.

(** The [switch] over the command type.  The last return of [execute] is
    unreachable. *)
Definition run `{Platform} `{FileSystem} `{SystemClock} (ex : t) (m : Moment)
    (c : CommandParser.Command) : IO (t * option bytes) :=
  let db := database_ ex in
  match CommandParser.type c with
  | CommandParser.Empty => mret (ex, None)
  | CommandParser.Set_ =>
      r ← lift (runSet db m c);
      mret (withDatabase ex (fst r), Some
        match snd r with
        | Database.Rejected => protocol.error (bs "ERR value is larger than the configured max-memory")
        | _ => protocol.status (bs "OK")
        end)
  | CommandParser.Get =>
      r ← lift (Database.get db (CommandParser.key c) (at_ m));
      mret (withDatabase ex (fst r), Some
        match snd r with
        | None => protocol.nil
        | Some value => protocol.value (escapeForWire value)
        end)
  | CommandParser.Del =>
      r ← lift (Database.del db (CommandParser.key c) (at_ m));
      mret (withDatabase ex (fst r), Some (bit (snd r)))
  | CommandParser.Exists =>
      r ← lift (Database.exists_ db (CommandParser.key c) (at_ m));
      mret (ex, Some (bit r))
  | CommandParser.Keys =>
      keys ← lift (Database.keys db (shardClock m));
      mret (ex, Some (keysReply keys))
  | CommandParser.Save =>
      match store_ ex with
      | None => mret (ex, Some (protocol.error (bs "ERR persistence is not configured")))
      | Some store =>
          r ← SnapshotStore.save (fuel m) store db (shardClock m) (saving m);
          let '(store, outcome) := r in
          mret (mk db (Some store), Some
            (if SnapshotStore.ok outcome then protocol.status (bs "OK")
             else protocol.error (bs "ERR " ++ SnapshotStore.saveError outcome)))
      end
  end.

Definition execute `{Platform} `{FileSystem} `{SystemClock} (ex : t) (m : Moment)
    (requestLine : bytes) : IO (t * option bytes) :=
  parsed ← lift (CommandParser.parse requestLine);
  match parsed with
  | CommandParser.failure error => mret (ex, Some (protocol.error error))
  | CommandParser.success command => run ex m command
  end.

End CommandExecutor.
