(* ===== verification/ExecutorSpec.v ===== *)
(** * What the executor promises

    An ideal server answers requests from a finite map: [serves] is its step
    relation.  With no memory limit, [CommandExecutor.execute] refines it, one
    request at a time and over any sequence of requests; every reply is a
    sequence of complete printable lines that names its own type. *)
From S2P Require Import Prelude.
From S2P Require Import Hash.
From S2P Require Import Text.
From S2P Require Import Protocol.
From S2P Require Import Parser.
From S2P Require Import ParserSpec.
From S2P Require Import Table.
From S2P Require Import RecencyList.
From S2P Require Import TableInv.
From S2P Require Import TableSpec.
From S2P Require Import TableSweep.
From S2P Require Import Store.
From S2P Require Import StoreSpec.
From S2P Require Import StoreBulk.
From S2P Require Import Snapshot.
From S2P Require Import SaveLoad.
From S2P Require Import Executor.
Import CommandExecutor.

#[local] Open Scope Z_scope.

(** ** The ideal server *)

(** The entry a SET at instant [now] stores. *)
Definition entryFor (c : CommandParser.Command) (now : time_point) : Entry :=
  mkEntry (CommandParser.key c) (CommandParser.value c)
    ((fun s => now + s * nanosPerSecond) <$> CommandParser.expireSeconds c).

(** One command against the keyspace [m] at instant [now]: the keyspace after it
    and the reply. *)
Inductive serves (m : gmap bytes Entry) (now : time_point) :
    CommandParser.Command -> gmap bytes Entry -> option bytes -> Prop :=
| serves_empty c : CommandParser.type c = CommandParser.Empty -> serves m now c m None
| serves_set c : CommandParser.type c = CommandParser.Set_ ->
    serves m now c (<[CommandParser.key c := entryFor c now]> m) (Some (protocol.status (bs "OK")))
| serves_get_hit c e : CommandParser.type c = CommandParser.Get ->
    visible m now !! CommandParser.key c = Some e ->
    serves m now c m (Some (protocol.value (escapeForWire (evalue e))))
| serves_get_miss c : CommandParser.type c = CommandParser.Get ->
    visible m now !! CommandParser.key c = None ->
    serves m now c m (Some protocol.nil)
| serves_del c : CommandParser.type c = CommandParser.Del ->
    serves m now c (delete (CommandParser.key c) m)
      (Some (bit (bool_decide (is_Some (visible m now !! CommandParser.key c)))))
| serves_exists c : CommandParser.type c = CommandParser.Exists ->
    serves m now c m (Some (bit (bool_decide (is_Some (visible m now !! CommandParser.key c)))))
| serves_keys c ks : CommandParser.type c = CommandParser.Keys ->
    NoDup ks -> (forall k, k ∈ ks <-> is_Some (visible m now !! k)) ->
    serves m now c m (Some (keysReply ks))
| serves_save c : CommandParser.type c = CommandParser.Save ->
    serves m now c m (Some (protocol.error (bs "ERR persistence is not configured"))).

(** One request line. *)
Inductive answers (m : gmap bytes Entry) (now : time_point) (line : bytes) :
    gmap bytes Entry -> option bytes -> Prop :=
| answers_command c m' reply : CommandParser.parse line = Some (CommandParser.success c) ->
    serves m now c m' reply -> answers m now line m' reply
| answers_error e : CommandParser.parse line = Some (CommandParser.failure e) ->
    answers m now line m (Some (protocol.error e)).

(** A sequence of request lines with the instants they are served at. *)
Inductive session : gmap bytes Entry -> list (time_point * bytes) -> list (option bytes) ->
    gmap bytes Entry -> Prop :=
| session_end m : session m [] [] m
| session_step m now line m1 reply rest replies m' :
    answers m now line m1 reply -> session m1 rest replies m' ->
    session m ((now, line) :: rest) (reply :: replies) m'.

(** A request made at one instant. *)
Definition momentAt (now : time_point) : Moment :=
  mkMoment now (fun _ => now) (mkReadings now (fun _ => now) (fun _ => 0)) 0.

(** The executor over a sequence of requests. *)
Fixpoint executeAll `{Platform} `{FileSystem} `{SystemClock} (ex : t)
    (requests : list (time_point * bytes)) : IO (t * list (option bytes)) :=
  match requests with
  | [] => mret (ex, [])
  | (now, line) :: rest =>
      r ← execute ex (momentAt now) line;
      r' ← executeAll (fst r) rest;
      mret (fst r', snd r :: snd r')
  end.

(** The clock readings the arithmetic of deadlines is good for: the first 146
    years of a steady clock. *)
Definition plausible (now : time_point) : Prop := 0 <= now < 2 ^ 62.

(** The lines of a reply. *)
Fixpoint splitLines (s : bytes) : list bytes :=
  match s with
  | [] => [[]]
  | c :: s' =>
      if decide (c = chLF) then [] :: splitLines s'
      else match splitLines s' with l :: ls => (c :: l) :: ls | [] => [[c]] end
  end.

(** A line of a reply: printable, with a tag the client knows. *)
Definition goodLine (l : bytes) : Prop :=
  Forall (fun c => printable c = true) l /\ protocol.ltype (protocol.parse l) <> protocol.Unknown.

(** A reply a client can read without knowing the request: its first line says
    how many lines follow. *)
Definition framed (reply : bytes) : Prop :=
  exists header rest, splitLines reply = header :: rest /\ Forall goodLine (header :: rest) /\
    if decide (protocol.ltype (protocol.parse header) = protocol.Array)
    then Forall (fun l => protocol.ltype (protocol.parse l) = protocol.Value) rest /\
         (len rest <= 100000000 ->
          protocol.parseCount (protocol.payload (protocol.parse header)) = Some (len rest))
    else rest = [].

(** ** One command *)

Section Refinement.
Context `{Platform} `{FileSystem} `{SystemClock}.

Lemma evicts_unlimited n m r r' vs : evicts 0 n m r r' vs -> vs = [].
Proof. intros HE. by apply (ev_unlimited _ _ _ _ _ _ HE). Qed.

Lemma dropKeys_nil m : dropKeys [] m = m.
Proof. done. Qed.

(** SET without a memory limit. *)
Lemma runSet_rep db m rs c now :
  dbRep db m rs -> Database.maxMemoryBytes_ db = 0 -> Z.of_nat (base.size m) < maxEntries ->
  plausible now -> CommandParser.type c = CommandParser.Set_ -> wellFormed c = true ->
  exists db' out rs', runSet db (momentAt now) c = Some (db', out) /\ out <> Database.Rejected /\
    dbRep db' (<[CommandParser.key c := entryFor c now]> m) rs' /\
    Database.maxMemoryBytes_ db' = 0.
Proof.
  intros HD Hmax Hroom Hnow Htype Hwf. unfold runSet, entryFor.
  assert (Database.fitsWithinLimit db (CommandParser.key c) (CommandParser.value c) = true) as Hfit
    by (unfold Database.fitsWithinLimit; by rewrite Hmax).
  unfold wellFormed in Hwf. rewrite Htype in Hwf.
  destruct (CommandParser.expireSeconds c) as [s|]; cbn [at_ momentAt fmap option_fmap option_map].
  - apply andb_prop in Hwf as [Hs0%Z.ltb_lt Hs1%Z.leb_le].
    destruct (setEx_rep db m rs (CommandParser.key c) (CommandParser.value c) s now _ HD Hroom Hfit
      (timeAfter_defined now s Hnow ltac:(lia))) as (db' & sh' & r & r' & vs & -> & _ & _ & HD' & HE & _ & Hm').
    rewrite Hmax in HE, Hm'. apply evicts_unlimited in HE as ->. rewrite dropKeys_nil in HD'.
    eexists _, _, _. split_and!; [done| |done|done]. by destruct (m !! _).
  - destruct (set_rep db m rs (CommandParser.key c) (CommandParser.value c) HD Hroom Hfit)
      as (db' & sh' & r & r' & vs & -> & _ & _ & HD' & HE & _ & Hm').
    rewrite Hmax in HE, Hm'. apply evicts_unlimited in HE as ->. rewrite dropKeys_nil in HD'.
    eexists _, _, _. split_and!; [done| |done|done]. by destruct (m !! _).
Qed.

Lemma io_lift_bind {A B} (o : option A) (x : A) (f : A -> IO B) w :
  o = Some x -> (lift o ≫= f) w = f x w.
Proof.
  intros ->. unfold mbind, IO_bind, lift. by destruct (f x w) as [[[y w2] t2]|].
Qed.

(** A command changes the keyspace and answers as the ideal server does. *)
Lemma run_serves db m rs c now w :
  dbRep db m rs -> Database.maxMemoryBytes_ db = 0 -> Z.of_nat (base.size m) < maxEntries ->
  plausible now -> wellFormed c = true ->
  exists db' rs' m' reply,
    run (mk db None) (momentAt now) c w = Some ((mk db' None, reply), w, []) /\
    dbRep db' m' rs' /\ Database.maxMemoryBytes_ db' = 0 /\ serves m now c m' reply.
Proof.
  intros HD Hmax Hroom Hnow Hwf. unfold run. cbn [database_ store_].
  destruct (CommandParser.type c) eqn:Htype.
  - exists db, rs, m, None. split_and!; try done. by constructor.
  - destruct (runSet_rep db m rs c now HD Hmax Hroom Hnow Htype Hwf) as (db' & out & rs' & Hrun & Hout & HD' & Hmax').
    rewrite (io_lift_bind _ _ _ _ Hrun). cbn [fst snd].
    eexists db', rs', _, _. split_and!; [|done|done|by apply serves_set]. by destruct out.
  - destruct (get_rep db m rs (CommandParser.key c) now HD) as (db' & rs' & Hrun & HD' & Hmax' & _).
    rewrite (io_lift_bind _ _ _ _ Hrun). cbn [fst snd]. exists db', rs', m. rewrite Hmax in Hmax'.
    destruct (visible m now !! CommandParser.key c) as [e|] eqn:Hv; cbn;
      eexists; (split_and!; [done|done|done|]); [by apply serves_get_hit|by apply serves_get_miss].
  - destruct (del_rep db m rs (CommandParser.key c) now HD) as (db' & rs' & Hrun & HD' & Hmax').
    rewrite (io_lift_bind _ _ _ _ Hrun). cbn [fst snd]. eexists db', rs', _, _.
    split_and!; [done|done|by rewrite Hmax'|by apply serves_del].
  - rewrite (io_lift_bind _ _ _ _ (exists_rep db m rs _ now HD)).
    eexists db, rs, m, _. split_and!; [done..|by apply serves_exists].
  - destruct (keys_rep db m rs (fun _ => now) HD) as (ks & Hrun & Hnd & Hks).
    rewrite (io_lift_bind _ _ _ _ Hrun). eexists db, rs, m, _. split_and!; [done..|].
    apply serves_keys; [done..|]. intros k. rewrite Hks, visible_lookup. split.
    + intros (e & -> & ->). eauto.
    + intros [e He]. destruct (m !! k) as [e'|]; [|done]. destruct (isExpiredAt e' now) eqn:Hx; [done|]. eauto.
  - eexists db, rs, m, _. split_and!; [done..|by apply serves_save].
Qed.

(** One request line, in any state. *)
Lemma execute_answers db m rs line now w :
  dbRep db m rs -> Database.maxMemoryBytes_ db = 0 -> Z.of_nat (base.size m) < maxEntries ->
  plausible now ->
  exists db' rs' m' reply,
    execute (mk db None) (momentAt now) line w = Some ((mk db' None, reply), w, []) /\
    dbRep db' m' rs' /\ Database.maxMemoryBytes_ db' = 0 /\ answers m now line m' reply.
Proof.
  intros HD Hmax Hroom Hnow. destruct (parse_result line) as (res & Hp & Hres).
  unfold execute. rewrite (io_lift_bind _ _ _ _ Hp). destruct res as [c|e].
  - destruct (run_serves db m rs c now w HD Hmax Hroom Hnow Hres) as (db' & rs' & m' & reply & -> & HD' & Hm' & Hs).
    exists db', rs', m', reply. split_and!; [done..|by eapply answers_command].
  - exists db, rs, m, (Some (protocol.error e)). split_and!; [done..|by apply answers_error].
Qed.

Lemma serves_size m now c m' reply : serves m now c m' reply ->
  (base.size m' <= S (base.size m))%nat.
Proof.
  destruct 1; try lia.
  - rewrite map_size_insert. destruct (m !! _); simpl; lia.
  - rewrite map_size_delete. destruct (m !! _); simpl; lia.
Qed.

Lemma answers_size m now line m' reply : answers m now line m' reply ->
  (base.size m' <= S (base.size m))%nat.
Proof. destruct 1; [by eapply serves_size|lia]. Qed.

(** A whole session. *)
Lemma executeAll_session requests db m rs w :
  dbRep db m rs -> Database.maxMemoryBytes_ db = 0 ->
  Z.of_nat (base.size m) + len requests <= maxEntries ->
  Forall (fun r => plausible r.1) requests ->
  exists db' rs' m' replies,
    executeAll (mk db None) requests w = Some ((mk db' None, replies), w, []) /\
    dbRep db' m' rs' /\ Database.maxMemoryBytes_ db' = 0 /\ session m requests replies m'.
Proof.
  revert db m rs. induction requests as [|[now line] rest IH]; intros db m rs HD Hmax Hroom Hnow.
  { exists db, rs, m, []. split_and!; [done..|constructor]. }
  apply Forall_cons in Hnow as [Hn Hnow]. rewrite len_cons in Hroom. pose proof (len_nonneg rest).
  destruct (execute_answers db m rs line now w HD Hmax ltac:(lia) Hn)
    as (db1 & rs1 & m1 & reply & Hrun & HD1 & Hmax1 & Hans).
  pose proof (answers_size _ _ _ _ _ Hans).
  destruct (IH db1 m1 rs1 HD1 Hmax1 ltac:(lia) Hnow) as (db2 & rs2 & m2 & replies & Hrest & HD2 & Hmax2 & Hses).
  exists db2, rs2, m2, (reply :: replies). split_and!; [|done|done|by econstructor].
  cbn [executeAll]. unfold mbind, IO_bind. rewrite Hrun. cbn [fst]. rewrite Hrest. done.
Qed.

End Refinement.

(** ** Framing *)

Lemma splitLines_printable l : Forall (fun c => printable c = true) l -> splitLines l = [l].
Proof.
  induction 1 as [|c l Hc Hl IH]; cbn [splitLines]; [done|].
  rewrite decide_False by (by intros ->). by rewrite IH.
Qed.

Lemma splitLines_app l s : Forall (fun c => printable c = true) l ->
  splitLines (l ++ chLF :: s) = l :: splitLines s.
Proof.
  induction 1 as [|c l Hc Hl IH]; cbn [splitLines app]; [by rewrite decide_True|].
  rewrite decide_False by (by intros ->). by rewrite IH.
Qed.

Lemma tagOf_printable t : printable (protocol.tagOf t) = true.
Proof. by destruct t. Qed.

Lemma goodLine_tagged t text : t <> protocol.Unknown ->
  Forall (fun c => printable c = true) text -> goodLine (protocol.tagOf t :: text).
Proof.
  intros Ht Htext. split; [constructor; [apply tagOf_printable|done]|]. by rewrite parse_tagged.
Qed.

Lemma framed_single t text : t <> protocol.Unknown -> t <> protocol.Array ->
  Forall (fun c => printable c = true) text -> framed (protocol.tagOf t :: text).
Proof.
  intros Ht Ha Htext. pose proof (goodLine_tagged t text Ht Htext) as Hg.
  exists (protocol.tagOf t :: text), []. split_and!.
  - apply splitLines_printable, Hg.
  - apply Forall_singleton, Hg.
  - rewrite parse_tagged by done. cbn. by rewrite decide_False.
Qed.

Lemma bs_printable s : forallb printable (bs s) = true -> Forall (fun c => printable c = true) (bs s).
Proof. intros Hp. apply Forall_forall. intros c Hc%list_elem_of_In. rewrite forallb_forall in Hp. auto. Qed.

Lemma to_string_printable n : 0 <= n -> Forall (fun c => printable c = true) (to_string n).
Proof.
  intros Hn. destruct (to_string_digits n Hn) as (_ & Hd & _).
  eapply Forall_impl; [exact Hd|]. apply isDigit_printable.
Qed.

Lemma keysReply_lines ks : splitLines (keysReply ks) =
  protocol.arrayHeader (len ks) :: map (fun k => protocol.value (escapeForWire k)) ks.
Proof.
  unfold keysReply.
  assert (Forall (fun c => printable c = true) (protocol.arrayHeader (len ks))) as Hh.
  { constructor; [done|]. apply to_string_printable, len_nonneg. }
  revert Hh. generalize (protocol.arrayHeader (len ks)) as h.
  assert (forall ks a b, fold_left (fun response key => response ++ [chLF] ++ protocol.value (escapeForWire key)) ks (a ++ b)
    = a ++ fold_left (fun response key => response ++ [chLF] ++ protocol.value (escapeForWire key)) ks b) as Hacc.
  { clear. induction ks as [|k ks IH]; intros a b; [done|]. cbn [fold_left]. by rewrite <- app_assoc, IH. }
  induction ks as [|k ks IH]; intros h Hh; cbn [fold_left map]; [by apply splitLines_printable|].
  rewrite Hacc.
  assert (fold_left (fun response key => response ++ [chLF] ++ protocol.value (escapeForWire key)) ks
    ([chLF] ++ protocol.value (escapeForWire k)) = chLF ::
    fold_left (fun response key => response ++ [chLF] ++ protocol.value (escapeForWire key)) ks
    (protocol.value (escapeForWire k))) as -> by (by rewrite Hacc).
  rewrite splitLines_app by done. f_equal. apply IH.
  constructor; [done|]. apply escapeForWire_printable.
Qed.

Lemma framed_keys ks : framed (keysReply ks).
Proof.
  eexists _, _. split; [apply keysReply_lines|]. split.
  - constructor.
    + apply (goodLine_tagged protocol.Array); [done|]. apply to_string_printable, len_nonneg.
    + apply Forall_forall. intros l (k & <- & _)%list_elem_of_In%in_map_iff.
      apply (goodLine_tagged protocol.Value); [done|]. apply escapeForWire_printable.
  - unfold protocol.arrayHeader. cbn [app]. rewrite parse_tagged by done. cbn.
    split.
    + apply Forall_forall. by intros l (k & <- & _)%list_elem_of_In%in_map_iff.
    + unfold len. rewrite length_map. fold (len ks). intros Hle.
      apply parseCount_to_string. pose proof (len_nonneg ks). lia.
Qed.

Lemma bit_framed b : framed (bit b).
Proof. apply (framed_single protocol.Integer); [done..|]. apply to_string_printable. by destruct b. Qed.

(** Every answer of the ideal server is framed. *)
Lemma answers_framed m now line m' reply : answers m now line m' (Some reply) -> framed reply.
Proof.
  intros Ha. inversion Ha as [c m1 r Hp Hs|e Hp]; subst.
  - inversion Hs; subst; try apply bit_framed; try apply framed_keys;
      try (by apply (framed_single protocol.Status); [..|by apply bs_printable]);
      try (by apply (framed_single protocol.Error); [..|by apply bs_printable]).
    + apply (framed_single protocol.Value); [done..|]. apply escapeForWire_printable.
    + by apply (framed_single protocol.Nil).
  - apply (framed_single protocol.Error); [done..|].
    destruct (parse_result line) as (res & Hres & Hone). rewrite Hp in Hres. simplify_eq. apply Hone.
Qed.
