(* ===== verification/ExecutorClaims.v ===== *)
(** * Requests and replies: theorems

    The parser, the reply format and the executor: a session of requests against
    an ideal server, round trips between commands and their text, and the shape
    of errors and replies. *)
From S2P Require Import Prelude.
From S2P Require Import Hash.
From S2P Require Import Text.
From S2P Require Import Protocol.
From S2P Require Import Parser.
From S2P Require Import ParserSpec.
From S2P Require Import Table.
From S2P Require Import RecencyList.
From S2P Require Import TableInv.
From S2P Require Import TableSpec.
From S2P Require Import TableSweep.
From S2P Require Import Store.
From S2P Require Import StoreSpec.
From S2P Require Import StoreBulk.
From S2P Require Import Snapshot.
From S2P Require Import SaveLoad.
From S2P Require Import SaveLoadSpec.
From S2P Require Import Executor.
From S2P Require Import ExecutorSpec.
Import CommandExecutor.

#[local] Open Scope Z_scope.

(** ** Concrete requests *)

Definition emptyWorld : MemWorld := mkMem ∅ ∅ 3 0 0 false.

Definition sampleRequests : list (time_point * bytes) :=
  [(0, bs "set name Vansh"); (1, bs "SET n 7 EX 10"); (2, bs "GET name"); (3, bs "KEYS");
   (4, bs "DEL missing"); (20000000000, bs "GET n"); (20000000001, bs "nonsense");
   (20000000002, []); (20000000003, bs "SAVE")].

Definition sampleSet : CommandParser.Command :=
  CommandParser.mkCommand CommandParser.Set_ (bs "my key") [x00; x22; x0a; x5c; xff] (Some 60).

(** The payload a client finds in the reply to a successful GET. *)
Definition payloadOfValue (v : bytes) : bytes :=
  protocol.payload (protocol.parse (protocol.value (escapeForWire v))).

Section Properties.
Context `{Platform} `{FileSystem} `{SystemClock}.

(** C2: a fresh server without a memory limit answers every session of request
    lines, malformed ones included, exactly as an ideal server working on a finite
    map can: no request is undefined, no reply differs, no file is touched. *)
Theorem session_refines_ideal_server initialBucketCount shardCount requests w :
  0 <= initialBucketCount < 2 ^ 64 -> 0 <= shardCount <= 2 ^ 63 ->
  len requests <= maxEntries -> Forall (fun r => plausible r.1) requests ->
  exists db ex' replies m', Database.new initialBucketCount shardCount = Some db /\
    executeAll (mk db None) requests w = Some ((ex', replies), w, []) /\
    session ∅ requests replies m'.
Proof.
  intros Hi Hs Hlen Hnow. destruct (new_db_rep initialBucketCount shardCount Hi Hs) as (db & Hdb & HD & Hm & _).
  destruct (executeAll_session requests db ∅ _ w HD Hm) as (db' & rs' & m' & replies & Hrun & _ & _ & Hses);
    [rewrite map_size_empty; lia|done|].
  eauto 10.
Qed.


End Properties.

(** C24: writing any well-formed command down, with the verb in any mixture of
    upper and lower case, its arguments quoted and escaped, and any line ending,
    and parsing that line gives the command back: every byte string can be a key
    or a value. *)
Theorem parse_print_roundtrip verb c ending :
  wellFormed c = true -> CommandParser.toUpperAscii verb = CommandParser.name (CommandParser.type c) ->
  CommandParser.type c <> CommandParser.Empty ->
  Forall (fun b => b = chLF \/ b = chCR) ending ->
  CommandParser.parse (requestLine verb (argumentsOf c) ++ ending) =
  Some (CommandParser.success c).
Proof. apply parse_requestLine. Qed.

(** C35: the parser answers every line: a well-formed command, or an error that is
    one printable line of at most 64 bytes. *)
Theorem parse_answers line :
  exists r, CommandParser.parse line = Some r /\
    match r with
    | CommandParser.success c => wellFormed c = true
    | CommandParser.failure e => Forall (fun b => printable b = true) e /\ len e <= 64
    end.
Proof. apply parse_result. Qed.

(** An expiry the parser accepted can be added to the clock without overflow,
    and only SET carries one. *)
Theorem accepted_expiry_fits line c s now :
  CommandParser.parse line = Some (CommandParser.success c) ->
  CommandParser.expireSeconds c = Some s -> plausible now ->
  CommandParser.type c = CommandParser.Set_ /\ 0 < s /\
  timeAfter now s = Some (now + s * nanosPerSecond).
Proof.
  intros Hp Hs Hnow. destruct (parse_result line) as (r & Hr & Hwf). rewrite Hp in Hr. simplify_eq.
  unfold wellFormed in Hwf. rewrite Hs in Hwf.
  destruct (CommandParser.type c);
    repeat (apply andb_prop in Hwf as [Hwf ?]); try done;
    try match goal with H : bool_decide (Some _ = None) = true |- _ => by apply bool_decide_eq_true in H end.
  split; [done|]. split; [lia|]. apply timeAfter_defined; [done|lia].
Qed.

(** What GET prints can be handed straight back to SET: quoting the payload of
    a value reply and sending it as a SET stores the very same bytes, whatever
    they are. *)
Theorem get_reply_feeds_set k v :
  CommandParser.parse (bs "SET " ++ quoted k ++ [chSpace; chQuote] ++ payloadOfValue v ++ [chQuote]) =
  Some (CommandParser.success (CommandParser.mkCommand CommandParser.Set_ k v None)).
Proof.
  pose proof (parse_requestLine (bs "SET") (CommandParser.mkCommand CommandParser.Set_ k v None) []
    eq_refl eq_refl ltac:(done) ltac:(constructor)) as Hp.
  rewrite <- Hp. f_equal. unfold requestLine, argumentsOf, payloadOfValue, protocol.value. cbn [app].
  rewrite parse_tagged by done. cbn [CommandParser.type CommandParser.key CommandParser.value
    CommandParser.expireSeconds protocol.payload app map concat].
  rewrite !app_nil_r. unfold quoted. cbn [app]. by rewrite <- ?app_assoc.
Qed.

(** ** Witnesses *)

Lemma session_witness : exists db ex' replies m',
  Database.new 16 4 = Some db /\
  executeAll (H := lp64) (H0 := memory) (H1 := libstdcxx) (mk db None) sampleRequests emptyWorld
    = Some ((ex', replies), emptyWorld, []) /\
  session ∅ sampleRequests replies m'.
Proof.
  refine (session_refines_ideal_server (H := lp64) (H0 := memory) (H1 := libstdcxx)
    16 4 sampleRequests emptyWorld _ _ _ _).
  - lia.
  - lia.
  - vm_compute. done.
  - repeat constructor; vm_compute; done.
Defined.

Lemma parse_print_witness :
  CommandParser.parse (requestLine (bs "sEt") (argumentsOf sampleSet) ++ [chCR; chLF]) =
  Some (CommandParser.success sampleSet).
Proof.
  apply (parse_print_roundtrip (bs "sEt") sampleSet [chCR; chLF]).
  - reflexivity.
  - reflexivity.
  - discriminate.
  - constructor; [by right|constructor; [by left|constructor]].
Defined.

Lemma accepted_expiry_witness :
  CommandParser.type (CommandParser.mkCommand CommandParser.Set_ (bs "k") (bs "v") (Some 3153600000))
    = CommandParser.Set_ /\ 0 < 3153600000 /\
  timeAfter 1000000000000 3153600000 = Some (1000000000000 + 3153600000 * nanosPerSecond).
Proof.
  apply (accepted_expiry_fits (bs "SET k v EX 3153600000")
    (CommandParser.mkCommand CommandParser.Set_ (bs "k") (bs "v") (Some 3153600000))).
  - vm_compute. reflexivity.
  - reflexivity.
  - vm_compute. split; done.
Defined.

