(* ===== verification/Trace.v ===== *)
(** * Runs of a labelled transition system

    Shared by the components that are modelled as steps of interleaved threads. *)
From S2P Require Import Prelude.

Section Runs.
Context {State Event : Type}.

(** Sequences of steps, with their events in order. *)
Inductive runs (R : State -> Event -> State -> Prop) : State -> list Event -> State -> Prop :=
| runs_nil p : runs R p [] p
| runs_snoc p evs p1 ev p2 : runs R p evs p1 -> R p1 ev p2 -> runs R p (evs ++ [ev]) p2.

Lemma runs_inv (I : State -> Prop) (R : State -> Event -> State -> Prop) p evs p' :
  (forall q ev q', I q -> R q ev q' -> I q') -> I p -> runs R p evs p' -> I p'.
Proof. intros HR HI Hr. induction Hr; eauto. Qed.

Lemma runs_weaken (R S : State -> Event -> State -> Prop) p evs p' :
  (forall q ev q', R q ev q' -> S q ev q') -> runs R p evs p' -> runs S p evs p'.
Proof. intros HRS Hr. induction Hr; econstructor; eauto. Qed.

(** An invariant may be used at every step. *)
Lemma runs_with (I : State -> Prop) (R : State -> Event -> State -> Prop) p evs p' :
  (forall q ev q', I q -> R q ev q' -> I q') -> I p -> runs R p evs p' ->
  runs (fun q ev q' => R q ev q' /\ I q) p evs p'.
Proof.
  intros HR HI Hr. induction Hr as [|p evs p1 ev p2 Hr IH Hst]; econstructor; [by apply IH|].
  split; [done|]. by eapply runs_inv.
Qed.

Lemma runs_app R p evs q evs' r : runs R p evs q -> runs R q evs' r -> runs R p (evs ++ evs') r.
Proof.
  intros H1 H2. induction H2 as [q|q evs' q1 ev q2 H2 IH Hst]; [by rewrite app_nil_r|].
  rewrite app_assoc. econstructor; [by apply IH|done].
Qed.

(** The first step of a run. *)
Lemma runs_cons R p ev p1 evs p2 : R p ev p1 -> runs R p1 evs p2 -> runs R p (ev :: evs) p2.
Proof.
  intros H1 H2. change (ev :: evs) with ([ev] ++ evs). eapply runs_app; [|done].
  exact (runs_snoc R p [] p ev p1 (runs_nil R p) H1).
Qed.

(** A quantity every step changes by the cost of its event. *)
Lemma runs_measure (R : State -> Event -> State -> Prop) (m : State -> Z) (cost : Event -> Z) p evs p' :
  (forall q ev q', R q ev q' -> (1 + m q' <= m q + cost ev)%Z) ->
  runs R p evs p' -> (len evs + m p' <= m p + sumZ cost evs)%Z.
Proof.
  intros HR Hr. induction Hr as [p|p evs p1 ev p2 Hr IH Hst]; [unfold len; cbn; lia|].
  apply HR in Hst. rewrite len_app, sumZ_app. cbn. change (len [ev]) with 1%Z. lia.
Qed.

Lemma trace_snoc {A} (f : Event -> option A) evs ev :
  omap f (evs ++ [ev]) = omap f evs ++ option_list (f ev).
Proof. rewrite omap_app. cbn. by destruct (f ev). Qed.

End Runs.
