(* ===== verification/Pool.v ===== *)
(** * The thread pool

    [ThreadPool.h] and [ThreadPool.cpp] as a labelled transition system.  Every
    critical section of the source is one step: [trySubmit] up to the release of
    the mutex, setting [stopping_], one evaluation of the predicate of [wait] with
    what follows it under the lock, the end of a task.  The condition variable is
    explicit: a worker whose predicate was false sleeps until a notification that
    was sent reaches it (or it wakes without one), so a lost wakeup would be a
    state of the model.  Tasks are opaque; running one ends normally or with an
    exception. *)
From S2P Require Import Prelude.
From S2P Require Import Trace.

#[local] Open Scope Z_scope.

Module ThreadPool.

Section Model.
Context {Task : Type}.

(** ** State *)

(** Where a worker is in [workerLoop]: about to evaluate the predicate with the
    lock held, asleep in [wait], running a task, returned. *)
Inductive Worker := Checking | Sleeping | Running (task : Task) | Exited.

(** [pendingOne], [pendingAll]: calls of [notify_one] and [notify_all] that are
    due but have not been made yet. *)
Record t := mk {
  tasks_ : list Task;
  stopping_ : bool;
  workers_ : list Worker;
  maxQueuedTasks_ : Z;
  taskExceptions_ : Z;
  pendingOne : nat;
  pendingAll : bool
}.

Inductive Event :=
| Accepted (task : Task)
| Refused (task : Task)
| Stopped
| Started (task : Task)
| Finished (task : Task)
| Spurious
| Joined
| Silent.

Definition withWorker (i : nat) (w : Worker) (p : t) : t :=
  mk (tasks_ p) (stopping_ p) (<[i := w]> (workers_ p)) (maxQueuedTasks_ p) (taskExceptions_ p)
    (pendingOne p) (pendingAll p).

(** ** Operations *)

Definition kUnboundedQueue : Z := 0.

Definition new (threadCount : nat) (maxQueuedTasks : Z) : t :=
  let threadCount := if decide (threadCount = 0)%nat then 1%nat else threadCount in
  mk [] false (replicate threadCount Checking) maxQueuedTasks 0 0 false.

Definition trySubmit (task : Task) (p : t) : t * bool :=
  if stopping_ p then (p, false)
  else if negb (maxQueuedTasks_ p =? kUnboundedQueue) && (maxQueuedTasks_ p <=? len (tasks_ p))
  then (p, false)
  else
    (mk (tasks_ p ++ [task]) (stopping_ p) (workers_ p) (maxQueuedTasks_ p) (taskExceptions_ p)
       (S (pendingOne p)) (pendingAll p), true).

(** The first half of [shutdown], up to the call of [notify_all]. *)
Definition requestStop (p : t) : t :=
  mk (tasks_ p) true (workers_ p) (maxQueuedTasks_ p) (taskExceptions_ p) (pendingOne p) true.

(** Every [join] of [shutdown] returns. *)
Definition allJoined (p : t) : bool :=
  forallb (fun w => match w with Exited => true | _ => false end) (workers_ p).

(** The end of [shutdown], once every worker has been joined. *)
Definition clearWorkers (p : t) : t :=
  mk (tasks_ p) (stopping_ p) [] (maxQueuedTasks_ p) (taskExceptions_ p) (pendingOne p) (pendingAll p).

Definition queuedTasks (p : t) : Z := len (tasks_ p).

(** A worker holding the lock evaluates the predicate, and sleeps, returns, or
    takes the first task. *)
Definition checkPredicate (i : nat) (p : t) : t * Event :=
  if negb (stopping_ p) && bool_decide (tasks_ p = []) then (withWorker i Sleeping p, Silent)
  else
    match tasks_ p with
    | [] => (withWorker i Exited p, Silent)
    | task :: rest =>
        (mk rest (stopping_ p) (<[i := Running task]> (workers_ p)) (maxQueuedTasks_ p)
           (taskExceptions_ p) (pendingOne p) (pendingAll p), Started task)
    end.

(** The task ends; an exception is counted and swallowed. *)
Definition finishTask (i : nat) (threw : bool) (p : t) : t :=
  mk (tasks_ p) (stopping_ p) (<[i := Checking]> (workers_ p)) (maxQueuedTasks_ p)
    (if threw then u64 (taskExceptions_ p + 1) else taskExceptions_ p) (pendingOne p) (pendingAll p).

Definition wake (w : Worker) : Worker := match w with Sleeping => Checking | _ => w end.

(** [notify_one] reaches the sleeping worker [i], or nobody. *)
Definition deliverOne (target : option nat) (p : t) : t :=
  let p' := mk (tasks_ p) (stopping_ p) (workers_ p) (maxQueuedTasks_ p) (taskExceptions_ p)
              (Nat.pred (pendingOne p)) (pendingAll p) in
  match target with Some i => withWorker i Checking p' | None => p' end.

Definition deliverAll (p : t) : t :=
  mk (tasks_ p) (stopping_ p) (map wake (workers_ p)) (maxQueuedTasks_ p) (taskExceptions_ p)
    (pendingOne p) false.

(** ** Steps *)

(** What the pool itself does, sooner or later. *)
Inductive poolStep : t -> Event -> t -> Prop :=
| step_check p i p' ev : workers_ p !! i = Some Checking -> checkPredicate i p = (p', ev) ->
    poolStep p ev p'
| step_finish p i task threw : workers_ p !! i = Some (Running task) ->
    poolStep p (Finished task) (finishTask i threw p)
| step_notify_one p i : (0 < pendingOne p)%nat -> workers_ p !! i = Some Sleeping ->
    poolStep p Silent (deliverOne (Some i) p)
| step_notify_nobody p : (0 < pendingOne p)%nat ->
    (forall i, workers_ p !! i <> Some Sleeping) -> poolStep p Silent (deliverOne None p)
| step_notify_all p : pendingAll p = true -> poolStep p Silent (deliverAll p).

(** Those, and a worker that wakes without having been notified. *)
Inductive workerStep : t -> Event -> t -> Prop :=
| step_pool p ev p' : poolStep p ev p' -> workerStep p ev p'
| step_spurious p i : workers_ p !! i = Some Sleeping ->
    workerStep p Spurious (withWorker i Checking p).

(** Those, and the calls of clients. *)
Inductive step : t -> Event -> t -> Prop :=
| step_worker p ev p' : workerStep p ev p' -> step p ev p'
| step_submit p task p' ok : trySubmit task p = (p', ok) ->
    step p (if ok then Accepted task else Refused task) p'
| step_stop p : step p Stopped (requestStop p)
| step_joined p : stopping_ p = true -> pendingAll p = false -> allJoined p = true ->
    step p Joined (clearWorkers p).

(** ** Views of a trace *)

Definition acceptedBy (ev : Event) : option Task := match ev with Accepted x => Some x | _ => None end.
Definition startedBy (ev : Event) : option Task := match ev with Started x => Some x | _ => None end.
Definition finishedBy (ev : Event) : option Task := match ev with Finished x => Some x | _ => None end.
Definition runningIn (w : Worker) : option Task := match w with Running x => Some x | _ => None end.

Definition acceptedOf (evs : list Event) : list Task := omap acceptedBy evs.
Definition startedOf (evs : list Event) : list Task := omap startedBy evs.
Definition finishedOf (evs : list Event) : list Task := omap finishedBy evs.
Definition runningOf (ws : list Worker) : list Task := omap runningIn ws.

Definition spuriousCost (ev : Event) : Z := match ev with Spurious => 2 | _ => 0 end.

(** The steps the pool has left before it needs a client or a spurious wakeup. *)
Definition weight (w : Worker) : Z :=
  match w with Exited => 0 | Sleeping => 1 | Checking => 2 | Running _ => 3 end.
Definition remaining (p : t) : Z :=
  2 * len (tasks_ p) + sumZ weight (workers_ p) + 2 * Z.of_nat (pendingOne p)
  + (if pendingAll p then 1 + len (workers_ p) else 0).

(** Whether a worker will look at the queue again without being woken. *)
Definition awake (w : Worker) : Prop :=
  match w with Checking | Running _ => True | _ => False end.

(** What holds in every reachable state. *)
Record poolInv (p : t) : Prop := {
  pi_bound : maxQueuedTasks_ p <> kUnboundedQueue -> len (tasks_ p) <= maxQueuedTasks_ p;
  pi_exited : Exited ∈ workers_ p -> stopping_ p = true /\ tasks_ p = [];
  pi_wakeup : tasks_ p <> [] -> (0 < pendingOne p)%nat \/ Exists awake (workers_ p);
  pi_stop : stopping_ p = true -> pendingAll p = true \/ Sleeping ∉ workers_ p;
  pi_joined : workers_ p = [] -> stopping_ p = true /\ tasks_ p = []
}.

(** ** The invariant *)

Lemma exists_insert (P : Worker -> Prop) (i : nat) (w w0 : Worker) (ws : list Worker) :
  ws !! i = Some w0 -> P w -> Exists P (<[i := w]> ws).
Proof.
  intros Hi Hw. apply Exists_exists. exists w. split; [|done].
  apply list_elem_of_insert. by eapply lookup_lt_Some.
Qed.

Lemma insert_ne_nil (i : nat) (w : Worker) (ws : list Worker) : <[i := w]> ws = [] -> ws = [].
Proof. intros H. apply length_zero_iff_nil. by rewrite <- (length_insert ws i w), H. Qed.

Lemma new_poolInv n q : 0 <= q -> poolInv (new n q).
Proof.
  intros Hq. split; unfold new; cbn; try done.
  - by intros [? ?]%elem_of_replicate.
  - by destruct (decide (n = 0)%nat), n.
Qed.

(** Moving one worker on, with nothing else changed, keeps the invariant as long as
    the worker stays awake, or goes to sleep or returns when it may. *)
Lemma withWorker_inv i w0 w p :
  poolInv p -> workers_ p !! i = Some w0 ->
  (w = Exited -> stopping_ p = true /\ tasks_ p = []) ->
  (tasks_ p <> [] -> (0 < pendingOne p)%nat \/ awake w) ->
  (w = Sleeping -> stopping_ p = false) ->
  poolInv (withWorker i w p).
Proof.
  intros [Hb He Hw Hs Hj] Hi Hex Haw Hsl. split; cbn; auto.
  - intros [<-|?]%elem_of_insert_new; auto.
  - intros Ht. destruct (Haw Ht) as [?|?]; [by left|right]. by eapply exists_insert.
  - intros Hst. destruct (Hs Hst) as [?|Hn]; [by left|right].
    intros [<-|?]%elem_of_insert_new; [|done]. rewrite Hsl in Hst; done.
  - intros E%insert_ne_nil. auto.
Qed.

Lemma checkPredicate_inv i p p' ev :
  poolInv p -> workers_ p !! i = Some Checking -> checkPredicate i p = (p', ev) -> poolInv p'.
Proof.
  intros HI Hi. unfold checkPredicate.
  destruct (tasks_ p) as [|x rest] eqn:Et.
  - destruct (stopping_ p) eqn:Es; cbn; intros [= <- <-];
      (eapply withWorker_inv; [done|done|try done..]); by rewrite ?Et, ?Es.
  - rewrite andb_false_r. intros [= <- <-]. destruct HI as [Hb He Hw Hs Hj].
    rewrite Et in *. split; cbn.
    + intros Hq. specialize (Hb Hq). rewrite len_cons in Hb. lia.
    + intros [?|HE]%elem_of_insert_new; [done|]. by destruct (He HE).
    + intros _. right. by eapply exists_insert.
    + intros Hst. destruct (Hs Hst) as [?|Hn]; [by left|right].
      by intros [?|?]%elem_of_insert_new.
    + intros E%insert_ne_nil. by destruct (Hj E).
Qed.

Lemma awake_cases p :
  poolInv p -> tasks_ p <> [] -> Sleeping ∉ workers_ p -> Exists awake (workers_ p).
Proof.
  intros HI Ht Hn. destruct (workers_ p) as [|w ws] eqn:E.
  { by destruct (pi_joined _ HI E). }
  destruct w; try (left; exact I).
  - destruct Hn. left.
  - destruct (pi_exited _ HI) as [_ ?]; [rewrite E; left|done].
Qed.

Lemma deliverOne_inv i p :
  poolInv p -> workers_ p !! i = Some Sleeping -> poolInv (deliverOne (Some i) p).
Proof.
  intros [Hb He Hw Hs Hj] Hi. split; cbn; auto.
  - intros [?|?]%elem_of_insert_new; [done|auto].
  - intros _. right. by eapply exists_insert.
  - intros Hst. destruct (Hs Hst) as [?|Hn]; [by left|right].
    by intros [?|?]%elem_of_insert_new.
  - intros E%insert_ne_nil. auto.
Qed.

Lemma deliverNobody_inv p :
  poolInv p -> (forall i, workers_ p !! i <> Some Sleeping) -> poolInv (deliverOne None p).
Proof.
  intros HI Hn. pose proof HI as [Hb He Hw Hs Hj]. split; cbn; auto.
  intros Ht. right. apply awake_cases; [done..|].
  intros [i ?]%list_elem_of_lookup. by apply (Hn i).
Qed.

Lemma deliverAll_inv p : poolInv p -> poolInv (deliverAll p).
Proof.
  intros [Hb He Hw Hs Hj]. split; cbn; auto.
  - intros (w & E & Hin)%list_elem_of_fmap. destruct w; cbn in E; try done. auto.
  - intros Ht. destruct (Hw Ht) as [?|Hx]; [by left|right].
    apply Exists_exists in Hx as (w & Hin & Haw). apply Exists_exists. exists (wake w).
    split; [by apply list_elem_of_fmap_2|]. by destruct w.
  - intros _. right. intros (w & E & Hin)%list_elem_of_fmap. by destruct w.
  - intros E%fmap_nil_inv. auto.
Qed.

Lemma trySubmit_inv task p p' ok : poolInv p -> trySubmit task p = (p', ok) -> poolInv p'.
Proof.
  intros HI. pose proof HI as [Hb He Hw Hs Hj]. unfold trySubmit.
  destruct (stopping_ p) eqn:Es; [by intros [= <- <-]|].
  destruct (_ && _) eqn:Eq; [by intros [= <- <-]|]. intros [= <- <-]. split; cbn.
  - intros Hq. rewrite len_app. change (len [task]) with 1.
    apply andb_false_iff in Eq as [Eq|Eq]; [|lia].
    apply negb_false_iff, Z.eqb_eq in Eq. done.
  - intros H%He. by destruct H.
  - intros _. left. lia.
  - done.
  - intros H%Hj. by destruct H.
Qed.

Lemma workerStep_inv p ev p' : poolInv p -> workerStep p ev p' -> poolInv p'.
Proof.
  intros HI Hw. destruct Hw as [q ev' q' Hst|q i Hi].
  - destruct Hst as [q i q' ev' Hi Hc|q i x threw Hi|q i _ Hi|q _ Hn|q _].
    + exact (checkPredicate_inv _ _ _ _ HI Hi Hc).
    + pose proof (withWorker_inv i _ Checking _ HI Hi) as W.
      destruct W as [Hb He Hw Hs Hj]; [done|by right|done|]. by split.
    + by apply deliverOne_inv.
    + by apply deliverNobody_inv.
    + by apply deliverAll_inv.
  - eapply withWorker_inv; [done|done|done|by right|done].
Qed.

Lemma allJoined_spec p : allJoined p = true <-> forall w, w ∈ workers_ p -> w = Exited.
Proof.
  unfold allJoined. rewrite forallb_forall. setoid_rewrite list_elem_of_In.
  split; intros H w Hin; specialize (H w Hin); by destruct w.
Qed.

Lemma step_inv p ev p' : poolInv p -> step p ev p' -> poolInv p'.
Proof.
  intros HI Hst. destruct Hst as [p ev p' Hst|p x p' ok Hs|p|p Hst _ Hj].
  - by eapply workerStep_inv.
  - by eapply trySubmit_inv.
  - pose proof HI as [Hb He Hw Hs Hj]. split; cbn; auto.
    + intros H%He. by destruct H.
    + intros H%Hj. by destruct H.
  - pose proof HI as [Hb He Hw Hs Hjo]. split; cbn; auto.
    + by intros ?%elem_of_nil.
    + intros Ht. left. destruct (Hw Ht) as [?|Hx]; [done|].
      apply Exists_exists in Hx as (w & Hin & Haw). by rewrite (proj1 (allJoined_spec p) Hj w Hin) in Haw.
    + right. by intros ?%elem_of_nil.
    + intros _. split; [done|]. destruct (workers_ p) as [|w ws] eqn:E; [by apply Hjo|].
      rewrite (proj1 (allJoined_spec p) Hj w) in He by (rewrite E; left). destruct He; [left|done].
Qed.

(** ** Accepted work *)

Lemma runningOf_wake ws : runningOf (map wake ws) = runningOf ws.
Proof. induction ws as [|[] ws IH]; cbn; try done. by f_equal. Qed.

#[local] Instance runningOf_proper : Proper ((≡ₚ) ==> (≡ₚ)) runningOf.
Proof. intros l k H. unfold runningOf. by rewrite H. Qed.

Lemma runningOf_insert i w0 w ws :
  ws !! i = Some w0 ->
  option_list (runningIn w0) ++ runningOf (<[i := w]> ws) ≡ₚ option_list (runningIn w) ++ runningOf ws.
Proof.
  intros Hi. destruct (insert_perm i w0 w ws Hi) as (rest & H1 & H2).
  rewrite H2, H1. cbn. destruct (runningIn w0), (runningIn w); cbn; auto using perm_swap.
Qed.

(** What one step does to the queue and to the running tasks. *)
Lemma step_queue p ev p' :
  step p ev p' -> tasks_ p ++ option_list (acceptedBy ev) = option_list (startedBy ev) ++ tasks_ p'.
Proof.
  intros Hst. destruct Hst as [p ev p' Hst|p x p' ok Hs|p|p _ _ _]; cbn; rewrite ?app_nil_r; try done.
  - destruct Hst as [p ev p' Hst|p i Hi]; [|cbn; by rewrite app_nil_r].
    destruct Hst as [p i p' ev Hi Hc| | | |]; cbn; rewrite ?app_nil_r; try done.
    revert Hc. unfold checkPredicate. destruct (tasks_ p) eqn:Et, (stopping_ p); cbn;
      intros [= <- <-]; cbn; by rewrite ?Et, ?app_nil_r.
  - revert Hs. unfold trySubmit. destruct (stopping_ p); [intros [= <- <-]; cbn; by rewrite app_nil_r|].
    destruct (_ && _); intros [= <- <-]; cbn; by rewrite ?app_nil_r.
Qed.

Lemma step_running p ev p' :
  step p ev p' ->
  runningOf (workers_ p) ++ option_list (startedBy ev)
  ≡ₚ option_list (finishedBy ev) ++ runningOf (workers_ p').
Proof.
  intros Hst. destruct Hst as [p ev p' Hst|p x p' ok Hs|p|p _ _ Hj]; cbn; rewrite ?app_nil_r; try done.
  - destruct Hst as [p ev p' Hst|p i Hi].
    + destruct Hst as [p i p' ev Hi Hc|p i x threw Hi|p i _ Hi|p _ _|p _]; cbn; rewrite ?app_nil_r.
      * revert Hc. unfold checkPredicate. destruct (tasks_ p) as [|x rest] eqn:Et.
        -- destruct (stopping_ p); cbn; intros [= <- <-]; cbn; rewrite app_nil_r;
             symmetry; by apply (runningOf_insert i Checking).
        -- rewrite andb_false_r. intros [= <- <-]. cbn. rewrite Permutation_app_comm. symmetry.
           by apply (runningOf_insert i Checking (Running x)).
      * symmetry. by apply (runningOf_insert i (Running x) Checking).
      * symmetry. by apply (runningOf_insert i Sleeping Checking).
      * done.
      * by rewrite runningOf_wake.
    + cbn. rewrite app_nil_r. symmetry. by apply (runningOf_insert i Sleeping Checking).
  - revert Hs. unfold trySubmit. destruct (stopping_ p); [intros [= <- <-]; cbn; by rewrite app_nil_r|].
    destruct (_ && _); intros [= <- <-]; cbn; by rewrite ?app_nil_r.
  - enough (runningOf (workers_ p) = []) as -> by done.
    pose proof (proj1 (allJoined_spec p) Hj) as Hall. clear Hj. induction (workers_ p) as [|w ws IH]; [done|].
    rewrite (Hall w) by left. cbn. apply IH. intros w' Hw'. apply Hall. by right.
Qed.

(** Tasks are started in the order in which they were accepted, and every task
    that was started is running or has finished. *)
Lemma runs_queue p evs p' :
  runs step p evs p' -> tasks_ p = [] -> acceptedOf evs = startedOf evs ++ tasks_ p'.
Proof.
  intros Hr Ht. induction Hr as [p|p evs p1 ev p2 Hr IH Hst]; [by rewrite Ht|].
  unfold acceptedOf, startedOf in *. rewrite !trace_snoc, IH by done. rewrite <- !app_assoc.
  f_equal. by apply step_queue.
Qed.

Lemma runs_running p evs p' :
  runs step p evs p' -> runningOf (workers_ p) = [] ->
  startedOf evs ≡ₚ finishedOf evs ++ runningOf (workers_ p').
Proof.
  intros Hr Ht. induction Hr as [p|p evs p1 ev p2 Hr IH Hst]; [by rewrite Ht|].
  unfold startedOf, finishedOf in *. rewrite !trace_snoc, IH by done. rewrite <- !app_assoc.
  f_equiv. by apply step_running.
Qed.

(** ** Progress *)

Lemma weight_insert i w0 w ws :
  ws !! i = Some w0 -> sumZ weight (<[i := w]> ws) + weight w0 = sumZ weight ws + weight w.
Proof.
  intros Hi. destruct (insert_perm i w0 w ws Hi) as (rest & H1 & H2). rewrite H2, H1. cbn. lia.
Qed.

Lemma len_insert i (w : Worker) ws : len (<[i := w]> ws) = len ws.
Proof. unfold len. by rewrite length_insert. Qed.

Lemma weight_wake ws :
  len (map wake ws) = len ws /\ sumZ weight (map wake ws) <= sumZ weight ws + len ws.
Proof.
  induction ws as [|w ws IH]; [done|]. cbn [map sumZ]. rewrite !len_cons. destruct w; cbn in *; lia.
Qed.

Lemma remaining_nonneg p : 0 <= remaining p.
Proof.
  unfold remaining. pose proof (len_nonneg (tasks_ p)). pose proof (len_nonneg (workers_ p)).
  enough (0 <= sumZ weight (workers_ p)) by (destruct (pendingAll p); lia).
  apply sumZ_nonneg. intros [] _; cbn; lia.
Qed.

(** Every step of the pool uses up some of what remains; only a spurious wakeup
    adds to it. *)
Lemma workerStep_remaining p ev p' :
  workerStep p ev p' -> 1 + remaining p' <= remaining p + spuriousCost ev.
Proof.
  intros Hw. unfold remaining. destruct Hw as [p ev p' Hst|p i Hi].
  - destruct Hst as [p i p' ev Hi Hc|p i x threw Hi|p i Hp Hi|p Hp _|p Ha]; cbn.
    + pose proof (weight_insert i _ Sleeping _ Hi) as W1.
      pose proof (weight_insert i _ Exited _ Hi) as W2.
      revert Hc. unfold checkPredicate. destruct (tasks_ p) as [|x rest] eqn:Et.
      * destruct (stopping_ p); cbn; intros [= <- <-]; cbn in *; rewrite ?Et, len_insert; cbn; lia.
      * pose proof (weight_insert i _ (Running x) _ Hi) as W3. rewrite andb_false_r.
        intros [= <- <-]. cbn in *. rewrite len_insert, len_cons. lia.
    + pose proof (weight_insert i _ Checking _ Hi) as W. cbn in W. rewrite len_insert. lia.
    + pose proof (weight_insert i _ Checking _ Hi) as W. cbn in W. rewrite len_insert. lia.
    + lia.
    + pose proof (weight_wake (workers_ p)) as [W1 W2]. rewrite Ha. lia.
  - pose proof (weight_insert i _ Checking _ Hi) as W. cbn in *. rewrite len_insert. lia.
Qed.

Lemma runs_remaining p evs p' :
  runs workerStep p evs p' -> len evs + remaining p' <= remaining p + sumZ spuriousCost evs.
Proof. apply runs_measure, workerStep_remaining. Qed.

#[local] Instance sleeping_dec (w : Worker) : Decision (w = Sleeping).
Proof. destruct w; (by left) || (by right). Defined.

(** A pool with nothing to do by itself has an empty queue and no busy worker: no
    wakeup was lost. *)
Lemma quiescent_idle p :
  poolInv p -> (forall ev p', ~ poolStep p ev p') ->
  tasks_ p = [] /\ forall w, w ∈ workers_ p -> w = if stopping_ p then Exited else Sleeping.
Proof.
  intros HI Hq.
  assert (forall w, w ∈ workers_ p -> w = Sleeping \/ w = Exited) as Hw.
  { intros w [i Hi]%list_elem_of_lookup. destruct w as [| |x|]; auto; exfalso.
    - destruct (checkPredicate i p) as [p' ev] eqn:Ec. by eapply Hq, step_check.
    - by apply (Hq (Finished x) (finishTask i false p)), step_finish. }
  assert (pendingOne p = 0)%nat as Hone.
  { destruct (pendingOne p) eqn:Ep; [done|exfalso].
    destruct (decide (Exists (fun w => w = Sleeping) (workers_ p))) as [Hs|Hn].
    - apply Exists_exists in Hs as (? & [i Hi]%list_elem_of_lookup & ->).
      eapply Hq, (step_notify_one p i); [lia|done].
    - eapply Hq, step_notify_nobody; [lia|]. intros i Hi. apply Hn, Exists_exists.
      exists Sleeping. split; [by eapply list_elem_of_lookup_2|done]. }
  assert (pendingAll p = false) as Hall.
  { destruct (pendingAll p) eqn:Ep; [exfalso|done]. by eapply Hq, step_notify_all. }
  split.
  - destruct (tasks_ p) eqn:Et; [done|]. destruct (pi_wakeup _ HI) as [?|Hx]; [by rewrite Et|lia|].
    apply Exists_exists in Hx as (w & Hin & Haw). by destruct (Hw w Hin) as [-> | ->].
  - intros w Hin. destruct (Hw w Hin) as [-> | ->].
    + destruct (stopping_ p) eqn:Es; [|done]. destruct (pi_stop _ HI Es); congruence.
    + by destruct (pi_exited _ HI Hin) as [-> _].
Qed.

(** ** What a trace says about the state *)

Local Ltac config_tac := split; [done|split; [intuition congruence|lia]].

Lemma step_config p ev p' :
  step p ev p' ->
  maxQueuedTasks_ p' = maxQueuedTasks_ p /\ (stopping_ p' = true <-> stopping_ p = true \/ ev = Stopped)
  /\ len (workers_ p') <= len (workers_ p).
Proof.
  intros Hst. destruct Hst as [p ev p' Hst|p x p' ok Hs|p|p _ _ _]; cbn.
  - destruct Hst as [p ev p' Hst|p i Hi]; cbn; [|rewrite len_insert; config_tac].
    destruct Hst as [p i p' ev Hi Hc| | | |]; cbn; rewrite ?len_insert, ?(proj1 (weight_wake _));
      [|config_tac..].
    revert Hc. unfold checkPredicate. destruct (tasks_ p), (stopping_ p) eqn:E; cbn;
      intros [= <- <-]; cbn; rewrite ?E, len_insert; config_tac.
  - revert Hs. unfold trySubmit. destruct (stopping_ p) eqn:E; [|destruct (_ && _)];
      intros [= <- <-]; cbn; rewrite ?E; config_tac.
  - config_tac.
  - change (len (@nil Worker)) with 0. pose proof (len_nonneg (workers_ p)). config_tac.
Qed.

Lemma runs_config p evs p' :
  runs step p evs p' -> stopping_ p = false ->
  maxQueuedTasks_ p' = maxQueuedTasks_ p /\ (stopping_ p' = true <-> Stopped ∈ evs)
  /\ len (workers_ p') <= len (workers_ p).
Proof.
  intros Hr Hs. induction Hr as [p|p evs p1 ev p2 Hr IH Hst].
  - rewrite Hs. split_and!; [done| |lia]. by split; [|intros ?%elem_of_nil].
  - destruct (IH Hs) as (I1 & I2 & I3). destruct (step_config _ _ _ Hst) as (S1 & S2 & S3).
    rewrite S2, I2, elem_of_app, list_elem_of_singleton. split_and!; [congruence| |lia].
    split; intros [?|?]; auto.
Qed.

Lemma trySubmit_refuses task p :
  poolInv p ->
  (trySubmit task p).2 = false <->
  stopping_ p = true \/ (maxQueuedTasks_ p <> kUnboundedQueue /\ len (tasks_ p) = maxQueuedTasks_ p).
Proof.
  intros HI. pose proof (pi_bound _ HI) as Hb. unfold trySubmit.
  destruct (stopping_ p); [naive_solver|]. destruct (_ && _) eqn:E; cbn.
  - apply andb_true_iff in E as [E1 E2]. apply negb_true_iff, Z.eqb_neq in E1.
    specialize (Hb E1). split; [|done]. intros _. right. split; [done|lia].
  - split; [done|]. intros [?|[H1 H2]]; [done|].
    apply andb_false_iff in E as [E|E]; [by apply negb_false_iff, Z.eqb_eq in E|lia].
Qed.

Lemma workerRuns_silent p evs p' :
  runs workerStep p evs p' -> acceptedOf evs = [] /\ stopping_ p' = stopping_ p.
Proof.
  intros Hr. induction Hr as [p|p evs p1 ev p2 Hr [IH1 IH2] Hst]; [done|].
  unfold acceptedOf in *. rewrite trace_snoc, IH1, <- IH2.
  destruct Hst as [p1 ev p2 Hst|]; [|done]. destruct Hst as [p1 i p2 ev Hi Hc| | | |]; try done.
  revert Hc. unfold checkPredicate. destruct (tasks_ p1), (stopping_ p1) eqn:E; cbn;
    intros [= <- <-]; cbn; by rewrite ?E.
Qed.

Lemma runningOf_idle (ws : list Worker) :
  (forall w, w ∈ ws -> ~ awake w) -> runningOf ws = [].
Proof.
  induction ws as [|w ws IH]; intros H; [done|]. cbn.
  destruct w; cbn; try (apply IH; intros v Hv; apply H; by right).
  destruct (H (Running task)); [left|done].
Qed.

Lemma runningOf_len (ws : list Worker) : len (runningOf ws) <= len ws.
Proof.
  induction ws as [|w ws IH]; [done|]. rewrite len_cons. unfold runningOf in *. cbn [omap list_omap].
  destruct (runningIn w); rewrite ?len_cons; lia.
Qed.

Lemma new_workers n q :
  len (workers_ (new n q)) = Z.max 1 (Z.of_nat n) /\ runningOf (workers_ (new n q)) = [].
Proof.
  unfold new, len. cbn. rewrite length_replicate. split; [destruct (decide _); lia|].
  induction (if decide _ then _ else _) as [|m IH]; [done|exact IH].
Qed.

End Model.

End ThreadPool.
