(* ===== verification/PoolClaims.v ===== *)
(** * The thread pool: theorems

    What the pool of [Pool.v] promises to the server over every interleaving of
    its clients, its workers and its condition variable. *)
From S2P Require Import Prelude.
From S2P Require Import Trace.
From S2P Require Import Pool.

#[local] Open Scope Z_scope.

Import ThreadPool.

(** ** A run to try the theorems on *)

(** One worker and room for one waiting task: the worker goes to sleep, is woken for
    task 7, task 8 is refused once and then accepted while 7 runs, the pool is
    stopped. *)
Definition sampleEvents : list (@Event nat) :=
  [Silent; Accepted 7%nat; Refused 8%nat; Silent; Started 7%nat; Accepted 8%nat; Stopped].
Definition sampleStopped : @t nat := mk [8%nat] true [Running 7%nat] 1 0 1 true.
(** The drain of that pool; task 7 ends with an exception. *)
Definition sampleDrain : list (@Event nat) :=
  [Finished 7%nat; Started 8%nat; Finished 8%nat; Silent; Silent; Silent].
Definition sampleDone : @t nat := mk [] true [Exited] 1 1 0 false.

Local Ltac advance r tac :=
  match type of r with runs ?R ?p ?evs ?q =>
    let Hs := fresh "Hs" in eassert (R q _ _) as Hs by tac;
    apply (runs_snoc _ _ _ _ _ _ r) in Hs; clear r; rename Hs into r
  end.
Local Tactic Notation "pool_step" uconstr(c) := apply step_pool; eapply c; cbn; first [reflexivity | lia | done].

Lemma sampleRun : runs step (new 1 1) sampleEvents sampleStopped.
Proof.
  pose proof (runs_nil step (@new nat 1 1)) as r.
  advance r ltac:(apply step_worker; pool_step (step_check _ 0%nat)).
  advance r ltac:(apply (step_submit _ 7%nat _ true); reflexivity).
  advance r ltac:(apply (step_submit _ 8%nat _ false); reflexivity).
  advance r ltac:(apply step_worker; pool_step (step_notify_one _ 0%nat)).
  advance r ltac:(apply step_worker; pool_step (step_check _ 0%nat)).
  advance r ltac:(apply (step_submit _ 8%nat _ true); reflexivity).
  advance r ltac:(apply step_stop).
  exact r.
Qed.

Lemma sampleDrainRun : runs workerStep sampleStopped sampleDrain sampleDone.
Proof.
  pose proof (runs_nil workerStep sampleStopped) as r.
  advance r ltac:(pool_step (step_finish _ 0%nat 7%nat true)).
  advance r ltac:(pool_step (step_check _ 0%nat)).
  advance r ltac:(pool_step (step_finish _ 0%nat 8%nat false)).
  advance r ltac:(pool_step (step_check _ 0%nat)).
  advance r ltac:(apply step_pool, step_notify_nobody; [cbn; lia|intros [|[|i]]; done]).
  advance r ltac:(pool_step step_notify_all).
  exact r.
Qed.

Lemma sampleDone_quiet ev p : ~ poolStep sampleDone ev p.
Proof.
  intros H. remember sampleDone as q eqn:E.
  destruct H as [q [|i] ? ? Hi|q [|i] ? ? Hi|q i Hp|q Hp|q Ha]; subst; cbn in *; done || lia.
Qed.

(** ** Theorems *)

(** C18: the pool neither loses, repeats nor reorders work.  After any interleaving of
    submissions, a shutdown, worker steps, notifications and spurious wakeups, the
    tasks accepted so far are exactly those started so far, in the same order,
    followed by those still queued; the tasks started are those that have finished
    and those some worker is running, at most one per worker; a bounded queue is
    never longer than its bound; and a submission is refused exactly when the pool
    was stopped before or the bounded queue is full. *)
Theorem pool_keeps_work {Task : Type} (n : nat) (q : Z) (evs : list (@Event Task)) (p : @t Task) :
  0 <= q -> runs step (new n q) evs p ->
  acceptedOf evs = startedOf evs ++ tasks_ p /\
  startedOf evs ≡ₚ finishedOf evs ++ runningOf (workers_ p) /\
  len (runningOf (workers_ p)) <= Z.max 1 (Z.of_nat n) /\
  (q <> kUnboundedQueue -> queuedTasks p <= q) /\
  (forall task, (trySubmit task p).2 = false <->
    Stopped ∈ evs \/ (q <> kUnboundedQueue /\ queuedTasks p = q)).
Proof.
  intros Hq Hr. pose proof (runs_inv poolInv step _ _ _ step_inv (new_poolInv n q Hq) Hr) as HI.
  destruct (new_workers (Task := Task) n q) as [Hn1 Hn2].
  destruct (runs_config _ _ _ Hr eq_refl) as (C1 & C2 & C3). cbn in C1.
  pose proof (runningOf_len (workers_ p)). unfold queuedTasks. rewrite <- C1.
  split_and!; [by eapply runs_queue|by eapply runs_running|lia|by apply pi_bound|].
  intros task. rewrite <- C2. by apply trySubmit_refuses.
Qed.

Lemma pool_keeps_work_witness :
  acceptedOf sampleEvents = startedOf sampleEvents ++ tasks_ sampleStopped /\
  startedOf sampleEvents ≡ₚ finishedOf sampleEvents ++ runningOf (workers_ sampleStopped) /\
  len (runningOf (workers_ sampleStopped)) <= 1 /\
  queuedTasks sampleStopped <= 1 /\ (trySubmit 9%nat sampleStopped).2 = false.
Proof.
  destruct (pool_keeps_work 1 1 sampleEvents sampleStopped) as (H1 & H2 & H3 & H4 & H5); [lia|exact sampleRun|].
  split_and!; [exact H1|exact H2|exact H3|by apply H4|]. apply H5. left. by apply (list_elem_of_lookup_2 _ 6%nat).
Defined.

(** C19: the pool always gets its work done, and a shutdown ends.  From any reachable
    state the workers and the pending notifications take at most [remaining] steps,
    and two more for every spurious wakeup, before they can do nothing more without a
    client; and in a state where they can do nothing more every accepted task has
    finished and the queue is empty, the workers are all asleep if the pool was not
    stopped, and have all returned, so that [shutdown] returns, if it was.  No wakeup
    is lost, whatever the interleaving. *)
Theorem pool_quiesces {Task : Type} (n : nat) (q : Z) (evs evs' : list (@Event Task)) (p p' : @t Task) :
  0 <= q -> runs step (new n q) evs p -> runs workerStep p evs' p' ->
  len evs' <= remaining p + sumZ spuriousCost evs' /\
  ((forall ev p'', ~ poolStep p' ev p'') ->
    tasks_ p' = [] /\
    finishedOf (evs ++ evs') ≡ₚ acceptedOf evs /\
    (stopping_ p = false -> forall w, w ∈ workers_ p' -> w = Sleeping) /\
    (stopping_ p = true -> allJoined p' = true)).
Proof.
  intros Hq Hr Hw. split.
  { pose proof (runs_remaining _ _ _ Hw). pose proof (remaining_nonneg p'). lia. }
  intros Hquiet. destruct (workerRuns_silent _ _ _ Hw) as [Hacc Hstop].
  assert (runs step (new n q) (evs ++ evs') p') as Hall
    by (eapply runs_app; [done|eapply runs_weaken; [apply step_worker|done]]).
  pose proof (runs_inv poolInv step _ _ _ step_inv (new_poolInv n q Hq) Hall) as HI.
  destruct (quiescent_idle p' HI Hquiet) as [Ht Hws]. rewrite Hstop in Hws.
  split_and!; [done| |intros Es; rewrite Es in Hws; exact Hws
    |intros Es; rewrite Es in Hws; apply allJoined_spec; exact Hws].
  pose proof (runs_queue _ _ _ Hall eq_refl) as Q. rewrite Ht, app_nil_r in Q.
  pose proof (runs_running _ _ _ Hall (proj2 (new_workers n q))) as R.
  rewrite runningOf_idle, app_nil_r in R
    by (intros w Hin; rewrite (Hws w Hin); destruct (stopping_ p); intros []).
  unfold acceptedOf in Q, Hacc. rewrite omap_app, Hacc, app_nil_r in Q. by rewrite <- R, <- Q.
Qed.

Lemma pool_quiesces_witness :
  len sampleDrain <= remaining sampleStopped + sumZ spuriousCost sampleDrain /\
  tasks_ sampleDone = [] /\
  finishedOf (sampleEvents ++ sampleDrain) ≡ₚ acceptedOf sampleEvents /\
  allJoined sampleDone = true.
Proof.
  destruct (pool_quiesces 1 1 sampleEvents sampleDrain sampleStopped sampleDone) as [H1 H2];
    [lia|exact sampleRun|exact sampleDrainRun|].
  destruct (H2 sampleDone_quiet) as (H3 & H4 & _ & H5).
  split_and!; [exact H1|exact H3|exact H4|by apply H5].
Defined.
