(* ===== verification/Connection.v ===== *)
(** * One connection of the server

    [Server::handleConnection], [sendLine] and [sendAll] of [Server.cpp]: bytes come
    in whatever pieces the network makes of them, request lines are cut out of them,
    each line goes to the executor, and each reply goes out with a newline.

    What the operating system answers is the input of the definitions: one
    [Incoming] per round of the outer loop, one [SendResult] per call of [send].
    The executor is reached through the class [RequestHandler]; the theorems of this
    file hold for any implementation of it, and [ConnectionClaims.v] gives the one
    the server uses. *)
From S2P Require Import Prelude.
From S2P Require Import Text.
From S2P Require Import Protocol.

#[local] Open Scope Z_scope.

(** What the connection needs from the executor: a line in, at most one reply out.
    [None] is a request whose execution is not defined. *)
Class RequestHandler (St : Type) := handle : St -> bytes -> option (St * option bytes).

(** [std::string::find] for one byte. *)
Fixpoint findByte (c : byte) (s : bytes) : option nat :=
  match s with
  | [] => None
  | b :: s' => if decide (b = c) then Some 0%nat else S <$> findByte c s'
  end.

Module Server.

(** ** The operating system's answers *)

Inductive SendResult := Sent (n : nat) | SendInterrupted | SendFailed.

(** One round of the outer loop: [running_] was found false, or [recv] was
    interrupted, failed, met the end of the stream or delivered bytes. *)
Inductive Incoming := NotRunning | Interrupted | Broken | Disconnect | Chunk (data : bytes).

Section Connection.
Context {St : Type} `{RequestHandler St}.

(** The executor's state, the results the coming calls of [send] will have, and the
    bytes that went out. *)
Record t := mk { executor : St; sends : list SendResult; sent : bytes }.

Inductive Outcome :=
| Waiting (pending : bytes) (** in [recv], with an unfinished line *)
| Closing (pending : bytes). (** returned *)

(** ** Sending *)

(** The results of [send] left, what went out, whether all of it did; [None] when
    the call blocks for good. *)
Fixpoint sendAll (results : list SendResult) (data : bytes) : option (list SendResult * bytes * bool) :=
  match data with
  | [] => Some (results, [], true)
  | _ :: _ =>
      match results with
      | [] => None
      | SendInterrupted :: rest => sendAll rest data
      | SendFailed :: rest => Some (rest, [], false)
      | Sent n :: rest =>
          '(results', out, ok) ← sendAll rest (drop n data);
          Some (results', take n data ++ out, ok)
      end
  end.

Definition sendLine (c : t) (line : bytes) : option (t * bool) :=
  '(results, out, ok) ← sendAll (sends c) (line ++ [chLF]);
  Some (mk (executor c) results (sent c ++ out), ok).

(** ** Serving *)

(** The inner loop: what is left of [pending], and whether the client is still
    there.  Every round takes at least one byte off [pending]. *)
Fixpoint serveLines (fuel : nat) (c : t) (pending : bytes) : option (t * bytes * bool) :=
  match findByte chLF pending with
  | None => Some (c, pending, true)
  | Some newline =>
      match fuel with
      | O => None
      | S fuel' =>
          let line := take newline pending in
          let pending := drop (S newline) pending in
          '(ex, response) ← handle (executor c) line;
          let c := mk ex (sends c) (sent c) in
          match response with
          | None => serveLines fuel' c pending
          | Some reply =>
              '(c, ok) ← sendLine c reply;
              if (ok : bool) then serveLines fuel' c pending else Some (c, pending, false)
          end
      end
  end.

Fixpoint handleConnection (maxRequestBytes : Z) (incoming : list Incoming) (c : t) (pending : bytes)
    : option (t * Outcome) :=
  match incoming with
  | [] => Some (c, Waiting pending)
  | NotRunning :: _ | Broken :: _ | Disconnect :: _ => Some (c, Closing pending)
  | Interrupted :: rest => handleConnection maxRequestBytes rest c pending
  | Chunk data :: rest =>
      let pending := pending ++ data in
      '(c, pending, present) ← serveLines (length pending) c pending;
      if negb present then Some (c, Closing pending)
      else if maxRequestBytes <? len pending then
        '(c, _) ← sendLine c (protocol.error (bs "ERR request too large"));
        Some (c, Closing pending)
      else handleConnection maxRequestBytes rest c pending
  end.

(** ** Reference definitions *)

(** A stream cut at its newlines: the complete lines, and what follows the last. *)
Fixpoint cut (s : bytes) : list bytes * bytes :=
  match s with
  | [] => ([], [])
  | b :: s' =>
      let '(lines, rest) := cut s' in
      if decide (b = chLF) then ([] :: lines, rest)
      else match lines with [] => ([], b :: rest) | l :: ls => ((b :: l) :: ls, rest) end
  end.

(** The replies to lines handled one after the other. *)
Fixpoint answerAll (ex : St) (lines : list bytes) : option (St * list bytes) :=
  match lines with
  | [] => Some (ex, [])
  | line :: rest =>
      '(ex, response) ← handle ex line;
      '(ex, replies) ← answerAll ex rest;
      Some (ex, option_list response ++ replies)
  end.

Definition frame (replies : list bytes) : bytes := concat (map (fun r => r ++ [chLF]) replies).

(** What arrived. *)
Definition received (incoming : list Incoming) : bytes :=
  concat (map (fun i => match i with Chunk data => data | _ => [] end) incoming).

(** A peer that keeps reading: every call takes some bytes or is interrupted. *)
Definition accepting (r : SendResult) : Prop :=
  match r with Sent n => (0 < n)%nat | SendInterrupted => True | SendFailed => False end.

(** How many calls of [send] will take something. *)
Definition willing (results : list SendResult) : Z :=
  sumZ (fun r => match r with Sent _ => 1 | _ => 0 end) results.

(** A round that brings bytes or nothing. *)
Definition isData (i : Incoming) : Prop :=
  match i with Chunk _ | Interrupted => True | _ => False end.

(** ** Cutting lines *)

Lemma cut_no_newline s : findByte chLF s = None -> cut s = ([], s).
Proof.
  induction s as [|b s IH]; [done|]. cbn. destruct (decide (b = chLF)); [done|].
  destruct (findByte chLF s); [done|]. intros _. by rewrite IH.
Qed.

Lemma cut_newline s n lines rest :
  findByte chLF s = Some n -> cut (drop (S n) s) = (lines, rest) -> cut s = (take n s :: lines, rest).
Proof.
  revert n. induction s as [|b s IH]; intros n; [done|]. cbn. destruct (decide (b = chLF)).
  - intros [= <-]. cbn. by rewrite drop_0; intros ->.
  - destruct (findByte chLF s) as [k|]; [|done]. intros [= <-] Hc. cbn.
    by rewrite (IH k eq_refl Hc).
Qed.

Lemma cut_app a b la ra lb rb :
  cut a = (la, ra) -> cut (ra ++ b) = (lb, rb) -> cut (a ++ b) = (la ++ lb, rb).
Proof.
  revert la ra lb rb. induction a as [|x a IH]; intros la ra lb rb; cbn; [by intros [= <- <-]|].
  destruct (cut a) as [l r] eqn:Ea. destruct (decide (x = chLF)).
  - intros [= <- <-] Hb. by rewrite (IH l r _ _ eq_refl Hb).
  - destruct l as [|l ls]; intros [= <- <-].
    + cbn. destruct (cut (r ++ b)) as [l2 r2] eqn:E2. rewrite (IH [] r _ _ eq_refl E2).
      by destruct (decide (x = chLF)).
    + intros Hb. by rewrite (IH (l :: ls) r _ _ eq_refl Hb).
Qed.

Lemma findByte_lt c s n : findByte c s = Some n -> (n < length s)%nat.
Proof.
  revert n. induction s as [|b s IH]; intros n; [done|]. cbn. destruct (decide (b = c)).
  - intros [= <-]. lia.
  - destruct (findByte c s) as [k|]; [|done]. intros [= <-]. specialize (IH k eq_refl). lia.
Qed.

(** ** Replies *)

Lemma frame_app l k : frame (l ++ k) = frame l ++ frame k.
Proof. unfold frame. by rewrite map_app, concat_app. Qed.

Lemma answerAll_app ex l ex1 r1 k ex2 r2 :
  answerAll ex l = Some (ex1, r1) -> answerAll ex1 k = Some (ex2, r2) ->
  answerAll ex (l ++ k) = Some (ex2, r1 ++ r2).
Proof.
  revert ex r1. induction l as [|x l IH]; intros ex r1; cbn.
  - by intros [= <- <-].
  - destruct (handle ex x) as [[ex' resp]|]; [|done]. cbn.
    destruct (answerAll ex' l) as [[ex'' rs]|] eqn:E; [|done]. cbn. intros [= <- <-] Hk.
    rewrite (IH _ _ E Hk). cbn. by rewrite app_assoc.
Qed.

(** The other direction: a run over a concatenation splits. *)
Lemma answerAll_split ex l k ex2 r :
  answerAll ex (l ++ k) = Some (ex2, r) ->
  exists ex1 r1 r2, answerAll ex l = Some (ex1, r1) /\ answerAll ex1 k = Some (ex2, r2) /\ r = r1 ++ r2.
Proof.
  revert ex r. induction l as [|x l IH]; intros ex r; cbn.
  - intros E. by exists ex, [], r.
  - destruct (handle ex x) as [[ex' resp]|]; [|done]. cbn.
    destruct (answerAll ex' (l ++ k)) as [[ex'' rs]|] eqn:E; [|done]. cbn. intros [= <- <-].
    destruct (IH _ _ E) as (ex1 & r1 & r2 & -> & E2 & ->).
    exists ex1, (option_list resp ++ r1), r2. cbn. by rewrite app_assoc.
Qed.

(** ** Sending to a peer that reads *)

Lemma sendAll_complete data results :
  Forall accepting results -> len data <= willing results ->
  exists results', sendAll results data = Some (results', data, true) /\
    Forall accepting results' /\ willing results - len data <= willing results'.
Proof.
  revert data. induction results as [|r results IH]; intros data Hacc Hw.
  - destruct data as [|b data]; [exists []|rewrite len_cons in Hw; pose proof (len_nonneg data); cbn in Hw; lia].
    split_and!; [done|done|]. unfold len. cbn. lia.
  - apply Forall_cons in Hacc as [Hr Hacc]. destruct data as [|b data].
    { eexists. split; [done|]. split; [by constructor|]. unfold len. cbn. lia. }
    unfold willing in Hw. cbn [sumZ] in Hw. fold (willing results) in Hw. destruct r as [n| |]; [| |done].
    + cbn in Hr. destruct n as [|n]; [lia|]. rewrite len_cons in Hw.
      destruct (IH (drop n data) Hacc) as (results' & E & Hacc' & Hw').
      { unfold len in *. rewrite length_drop. lia. }
      exists results'. cbn [sendAll drop]. rewrite E. cbn [mbind option_bind]. cbn [take].
      split_and!; [|done|].
      * cbn. by rewrite take_drop.
      * change (willing (Sent (S n) :: results)) with (1 + willing results). unfold len in *. cbn [length] in *.
        rewrite length_drop in Hw'. lia.
    + destruct (IH (b :: data) Hacc) as (results' & E & Hacc' & Hw'); [lia|].
      exists results'. cbn [sendAll]. split_and!; [exact E|done|].
      change (willing (SendInterrupted :: results)) with (0 + willing results). lia.
Qed.

Lemma sendLine_complete c line :
  Forall accepting (sends c) -> len line + 1 <= willing (sends c) ->
  exists results', sendLine c line = Some (mk (executor c) results' (sent c ++ line ++ [chLF]), true) /\
    Forall accepting results' /\ willing (sends c) - (len line + 1) <= willing results'.
Proof.
  intros Hacc Hw. assert (len (line ++ [chLF]) = len line + 1) as El by (rewrite len_app; done).
  destruct (sendAll_complete (line ++ [chLF]) (sends c) Hacc) as (results' & E & Hacc' & Hw'); [lia|].
  exists results'. unfold sendLine. rewrite E. cbn. split_and!; [done|done|lia].
Qed.

Lemma frame_cons_len r replies : len (frame (r :: replies)) = len r + 1 + len (frame replies).
Proof. unfold frame. cbn. rewrite !len_app. done. Qed.

(** ** Serving a peer that reads *)

(** The inner loop answers every complete line and leaves the rest; its fuel is
    enough. *)
Lemma serveLines_complete fuel ex results out pending lines rest ex' replies :
  (length pending <= fuel)%nat -> cut pending = (lines, rest) ->
  answerAll ex lines = Some (ex', replies) ->
  Forall accepting results -> len (frame replies) <= willing results ->
  exists results', serveLines fuel (mk ex results out) pending
      = Some (mk ex' results' (out ++ frame replies), rest, true) /\
    Forall accepting results' /\ willing results - len (frame replies) <= willing results'.
Proof.
  revert ex results out pending lines replies.
  induction fuel as [|fuel IH]; intros ex results out pending lines replies Hf Hc Ha Hacc Hw;
    cbn [serveLines]; destruct (findByte chLF pending) as [n|] eqn:Ef.
  1: { apply findByte_lt in Ef. lia. }
  1, 3: rewrite (cut_no_newline _ Ef) in Hc; simplify_eq; cbn in Ha; simplify_eq;
    exists results; rewrite app_nil_r; (split_and!; [done|done|unfold len; cbn; lia]).
  destruct (cut (drop (S n) pending)) as [lines1 rest1] eqn:Ed.
  rewrite (cut_newline _ _ _ _ Ef Ed) in Hc. injection Hc as <- <-. cbn in Ha.
  assert (length (drop (S n) pending) <= fuel)%nat as Hf'
    by (apply findByte_lt in Ef; rewrite length_drop; lia).
  cbn [executor sends sent].
  destruct (handle ex (take n pending)) as [[ex1 resp]|]; [|done]. cbn [mbind option_bind] in *.
  destruct (answerAll ex1 lines1) as [[ex2 rs]|] eqn:E2; [|done]. cbn in Ha. simplify_eq.
  destruct resp as [r|].
  - change (option_list (Some r) ++ rs) with (r :: rs) in *. rewrite frame_cons_len in *. pose proof (len_nonneg (frame rs)).
    destruct (sendLine_complete (mk ex1 results out) r Hacc) as (results1 & E & Hacc1 & Hw1); [cbn [sends]; lia|].
    rewrite E. cbn [mbind option_bind executor sends sent] in *.
    destruct (IH ex1 results1 (out ++ r ++ [chLF]) _ _ _ Hf' Ed E2 Hacc1) as (results' & E' & Hacc' & Hw'); [lia|].
    exists results'. rewrite E'. split_and!; [|done|lia]. unfold frame. cbn. by rewrite <- !app_assoc.
  - by apply (IH ex1 results out _ _ _ Hf' Ed E2).
Qed.

Lemma cut_rest s lines rest : cut s = (lines, rest) -> cut rest = ([], rest).
Proof.
  revert lines rest. induction s as [|b s IH]; intros lines rest; cbn; [by intros [= <- <-]|].
  destruct (cut s) as [l r] eqn:E. specialize (IH l r eq_refl). destruct (decide (b = chLF)).
  - by intros [= <- <-].
  - destruct l; intros [= <- <-]; [|done]. cbn. rewrite IH. by destruct (decide (b = chLF)).
Qed.

(** An unfinished line is the beginning of the next one. *)
Lemma cut_unfinished r b lines rest :
  cut r = ([], r) -> cut (r ++ b) = (lines, rest) ->
  exists x, match lines with [] => rest = r ++ x | l :: _ => l = r ++ x end.
Proof.
  revert lines rest. induction r as [|c r IH]; intros lines rest Hr Hc; cbn in *.
  { destruct lines; by eexists. }
  destruct (cut r) as [l0 r0] eqn:E0. destruct (decide (c = chLF)); [done|].
  destruct l0; [|done]. injection Hr as ->.
  destruct (cut (r ++ b)) as [l1 r1] eqn:E1. destruct (IH l1 r1 eq_refl eq_refl) as [x Hx].
  destruct l1; injection Hc as <- <-; exists x; by rewrite Hx.
Qed.

(** The outer loop, on rounds that bring bytes or nothing. *)
Lemma handleConnection_data limit incoming tail ex results out pending lines rest ex' replies :
  Forall isData incoming -> cut pending = ([], pending) ->
  cut (pending ++ received incoming) = (lines, rest) ->
  Forall (fun l => len l <= limit) (rest :: lines) ->
  answerAll ex lines = Some (ex', replies) ->
  Forall accepting results -> len (frame replies) <= willing results ->
  exists results', Forall accepting results' /\
    willing results - len (frame replies) <= willing results' /\
    handleConnection limit (incoming ++ tail) (mk ex results out) pending
    = handleConnection limit tail (mk ex' results' (out ++ frame replies)) rest.
Proof.
  revert ex results out pending lines replies.
  induction incoming as [|i incoming IH]; intros ex results out pending lines replies Hd Hp Hc Hl Ha Hacc Hw.
  { unfold received in Hc. cbn in Hc. rewrite app_nil_r, Hp in Hc. simplify_eq. cbn in Ha. simplify_eq.
    exists results. cbn [app]. unfold frame, len. cbn. rewrite app_nil_r. split_and!; [done|lia|done]. }
  apply Forall_cons in Hd as [Hi Hd]. destruct i as [| | | |data]; try done.
  { by apply (IH ex results out pending lines). }
  change (received (Chunk data :: incoming)) with (data ++ received incoming) in Hc.
  rewrite app_assoc in Hc.
  destruct (cut (pending ++ data)) as [l1 r1] eqn:E1.
  destruct (cut (r1 ++ received incoming)) as [l2 r2] eqn:E2.
  pose proof (cut_app _ _ _ _ _ _ E1 E2) as E. rewrite Hc in E. simplify_eq.
  destruct (answerAll_split _ _ _ _ _ Ha) as (ex1 & rs1 & rs2 & A1 & A2 & ->).
  rewrite frame_app, len_app in *. pose proof (len_nonneg (frame rs2)). pose proof (len_nonneg (frame rs1)).
  destruct (serveLines_complete _ ex results out _ _ _ _ _ (le_n _) E1 A1 Hacc) as (res1 & ES & Hacc1 & Hw1); [lia|].
  cbn [app handleConnection]. rewrite ES. cbn [mbind option_bind negb].
  assert (len r1 <= limit) as Hr1.
  { destruct (cut_unfinished r1 _ _ _ (cut_rest _ _ _ E1) E2) as [x Hx].
    apply Forall_cons in Hl as [Hl0 Hl]. apply Forall_app in Hl as [_ Hl]. pose proof (len_nonneg x).
    destruct l2 as [|l l2]; [|apply Forall_cons in Hl as [Hl _]]; subst; rewrite len_app in *; lia. }
  rewrite (proj2 (Z.ltb_ge _ _) Hr1).
  destruct (IH ex1 res1 (out ++ frame rs1) r1 l2 rs2 Hd (cut_rest _ _ _ E1) E2) as (res' & Hacc' & Hw' & E');
    [|done|done|lia|].
  { apply Forall_cons in Hl as [Hl0 Hl]. apply Forall_app in Hl as [_ Hl]. by constructor. }
  exists res'. rewrite E', <- app_assoc. split_and!; [done|lia|done].
Qed.

End Connection.

End Server.
