(* ===== verification/ConnectionClaims.v ===== *)
(** * Connections: theorems

    The executor as the request handler of a connection, and what a client sees of
    the server through the byte streams of its socket. *)
From S2P Require Import Prelude.
From S2P Require Import Text.
From S2P Require Import Protocol.
From S2P Require Import Table.
From S2P Require Import RecencyList.
From S2P Require Import TableInv.
From S2P Require Import Store.
From S2P Require Import StoreSpec.
From S2P Require Import StoreBulk.
From S2P Require Import Snapshot.
From S2P Require Import SaveLoad.
From S2P Require Import SaveLoadSpec.
From S2P Require Import Executor.
From S2P Require Import ExecutorSpec.
From S2P Require Import Connection.
Import Server.

#[local] Open Scope Z_scope.

(** ** The executor behind a connection *)

(** The executor with the file system it may write to, the instant each request is
    served at and how many were. *)
Record Serving `{FileSystem} := mkServing {
  executor_ : CommandExecutor.t;
  world : World;
  clock : nat -> time_point;
  served : nat
}.

#[global] Instance executorHandler `{Platform} {FS : FileSystem} `{SystemClock} : RequestHandler Serving :=
  fun s line =>
    '((ex, reply), w, _) ← CommandExecutor.execute (executor_ s) (momentAt (clock s (served s))) line (world s);
    Some (mkServing _ ex w (clock s) (S (served s)), reply).

(** Request lines with the instants they are served at. *)
Fixpoint timed (clock : nat -> time_point) (k : nat) (lines : list bytes) : list (time_point * bytes) :=
  match lines with [] => [] | line :: rest => (clock k, line) :: timed clock (S k) rest end.

(** The replies that are sent. *)
Definition sentReplies (replies : list (option bytes)) : list bytes := omap id replies.

(** A handler that answers a line with itself. *)
Definition echo : RequestHandler unit := fun _ line => Some (tt, Some line).

Section Serve.
Context `{Platform} {FS : FileSystem} `{SystemClock}.

Lemma timed_len clk k lines : len (timed clk k lines) = len lines.
Proof. revert k. induction lines as [|l ls IH]; intros k; [done|]. cbn [timed]. by rewrite !len_cons, IH. Qed.

Lemma timed_plausible clk k lines :
  (forall i, plausible (clk i)) -> Forall (fun r => plausible r.1) (timed clk k lines).
Proof. intros Hc. revert k. induction lines; intros k; cbn; constructor; [apply Hc|auto]. Qed.

(** Handling lines one after the other is what the executor does to a session. *)
Lemma answerAll_executeAll clk lines k ex w ex' replies w' tr :
  executeAll ex (timed clk k lines) w = Some ((ex', replies), w', tr) ->
  exists s', answerAll (mkServing _ ex w clk k) lines = Some (s', sentReplies replies) /\
    executor_ s' = ex' /\ world s' = w'.
Proof.
  revert k ex w replies tr. induction lines as [|line lines IH]; intros k ex w replies tr.
  { cbn. intros [= <- <- <- <-]. by eexists. }
  cbn [timed executeAll]. unfold mbind, IO_bind.
  destruct (CommandExecutor.execute ex (momentAt (clk k)) line w) as [[[[ex1 r] w1] t1]|] eqn:E1; [|done].
  cbn [fst snd].
  destruct (executeAll ex1 (timed clk (S k) lines) w1) as [[[[ex2 rs] w2] t2]|] eqn:E2; [|done].
  cbn. intros [= <- <- <- _]. destruct (IH _ _ _ _ _ E2) as (s' & Ea & Hs).
  exists s'. split; [|exact Hs]. cbn [answerAll].
  assert (handle (mkServing _ ex w clk k) line = Some (mkServing _ ex1 w1 clk (S k), r)) as ->
    by (unfold handle, executorHandler; cbn [executor_ world clock served]; by rewrite E1).
  cbn [mbind option_bind]. rewrite Ea. by destruct r.
Qed.

(** C4: through any fragmentation of its byte stream a client sees the ideal server.
    Let any bytes arrive at a fresh server without a memory limit, in any pieces and
    with any interruptions, no line longer than the request limit, and let the peer
    read what is sent, in any pieces.  Then the server answers exactly the complete
    lines, in order; the bytes it sends are the replies of an ideal server working on
    a finite map, each followed by a newline; it is left waiting for the rest of the
    unfinished line.  Nothing depends on where the stream was cut. *)
Theorem connection_refines_ideal_server initialBucketCount shardCount limit incoming lines rest clk w :
  0 <= initialBucketCount < 2 ^ 64 -> 0 <= shardCount <= 2 ^ 63 ->
  Forall isData incoming -> cut (received incoming) = (lines, rest) ->
  Forall (fun l => len l <= limit) (rest :: lines) ->
  len lines <= maxEntries -> (forall i, plausible (clk i)) ->
  exists db replies m',
    Database.new initialBucketCount shardCount = Some db /\
    session ∅ (timed clk 0 lines) replies m' /\
    forall results, Forall accepting results -> len (frame (sentReplies replies)) <= willing results ->
    exists s' results',
      handleConnection limit incoming
        (mk (mkServing _ (CommandExecutor.mk db None) w clk 0) results []) [] =
      Some (mk s' results' (frame (sentReplies replies)), Waiting rest).
Proof.
  intros Hi Hs Hd Hcut Hlim Hlen Hclk.
  destruct (new_db_rep initialBucketCount shardCount Hi Hs) as (db & Hdb & HD & Hm & _).
  destruct (executeAll_session (timed clk 0 lines) db ∅ _ w HD Hm)
    as (db' & rs' & m' & replies & Hrun & _ & _ & Hses);
    [rewrite map_size_empty, timed_len; lia|by apply timed_plausible|].
  destruct (answerAll_executeAll _ _ _ _ _ _ _ _ _ Hrun) as (s' & Ha & _).
  exists db, replies, m'. split_and!; [done|done|]. intros results Hacc Hw.
  destruct (handleConnection_data limit incoming [] _ results [] [] lines rest _ _ Hd eq_refl Hcut Hlim Ha Hacc Hw)
    as (results' & _ & _ & E).
  exists s', results'. rewrite app_nil_r in E. rewrite E. done.
Qed.

End Serve.

(** C37: a request line that never ends does not fill the memory.  Whatever handles the
    requests, when the unfinished line left after a read is longer than the limit, the
    complete lines before it have been answered, an error line follows and the
    connection is closed, whatever else would have arrived. *)
Theorem connection_limit {St : Type} `{RequestHandler St} limit incoming data tail
    ex results lines rest ex' replies lines' rest' ex'' replies' :
  Forall isData incoming -> cut (received incoming) = (lines, rest) ->
  Forall (fun l => len l <= limit) (rest :: lines) ->
  cut (rest ++ data) = (lines', rest') -> limit < len rest' ->
  answerAll ex lines = Some (ex', replies) -> answerAll ex' lines' = Some (ex'', replies') ->
  let output := frame (replies ++ replies' ++ [protocol.error (bs "ERR request too large")]) in
  Forall accepting results -> len output <= willing results ->
  exists results',
    handleConnection limit (incoming ++ Chunk data :: tail) (mk ex results []) [] =
    Some (mk ex'' results' output, Closing rest').
Proof.
  intros Hd Hc Hl Hc' Hbig Ha Ha' output Hacc Hw. unfold output in *. rewrite !frame_app, !len_app in *.
  set (e := protocol.error (bs "ERR request too large")) in *.
  pose proof (len_nonneg (frame replies)). pose proof (len_nonneg (frame replies')).
  pose proof (len_nonneg (frame [e])).
  destruct (handleConnection_data limit incoming (Chunk data :: tail) ex results [] [] lines rest _ _
    Hd eq_refl Hc Hl Ha Hacc ltac:(lia)) as (res1 & Hacc1 & Hw1 & ->).
  destruct (serveLines_complete _ ex' res1 (frame replies) _ _ _ _ _ (le_n _) Hc' Ha' Hacc1 ltac:(lia))
    as (res2 & ES & Hacc2 & Hw2).
  cbn [app handleConnection]. rewrite ES. cbn [mbind option_bind negb].
  rewrite (proj2 (Z.ltb_lt _ _) Hbig).
  destruct (sendLine_complete (mk ex'' res2 (frame replies ++ frame replies')) e Hacc2) as (res3 & E3 & _).
  { cbn [sends]. rewrite frame_cons_len in *. change (len (frame [])) with 0 in *. lia. }
  exists res3. fold e. rewrite E3. cbn. by rewrite <- app_assoc.
Qed.

(** The limit is on what is left after a read, not on a line: a longer line that
    arrives with its newline is served. *)
Example long_line_served :
  handleConnection (H := echo) 4 [Chunk (bs "GET abcdef" ++ [chLF])] (mk tt [Sent 100] []) [] =
  Some (mk tt [] (bs "GET abcdef" ++ [chLF]), Waiting []).
Proof. reflexivity. Qed.

(** ** Witnesses *)

Definition sampleIncoming : list Incoming :=
  [Chunk (bs "set a 1" ++ [chLF] ++ bs "GE"); Interrupted; Chunk (bs "T a" ++ [chLF] ++ bs "DE")].

Lemma connection_witness : exists db replies m',
  Database.new 16 4 = Some db /\
  session ∅ (timed (fun i => Z.of_nat i `mod` 2 ^ 62) 0 [bs "set a 1"; bs "GET a"]) replies m' /\
  forall results, Forall accepting results -> len (frame (sentReplies replies)) <= willing results ->
  exists s' results',
    handleConnection (H := executorHandler (H := lp64) (FS := memory) (H0 := libstdcxx)) 8388608 sampleIncoming
      (mk (mkServing memory (CommandExecutor.mk db None) (mkMem ∅ ∅ 3 0 0 false) (fun i => Z.of_nat i `mod` 2 ^ 62) 0)
        results []) [] =
    Some (mk s' results' (frame (sentReplies replies)), Waiting (bs "DE")).
Proof.
  refine (connection_refines_ideal_server (H := lp64) (FS := memory) (H0 := libstdcxx) 16 4 8388608
    sampleIncoming [bs "set a 1"; bs "GET a"] (bs "DE") (fun i => Z.of_nat i `mod` 2 ^ 62) _ _ _ _ _ _ _ _).
  - lia.
  - lia.
  - repeat constructor.
  - reflexivity.
  - repeat constructor; vm_compute; done.
  - vm_compute. done.
  - intros i. apply Z.mod_pos_bound. lia.
Defined.

Lemma connection_limit_witness : exists results',
  handleConnection (H := echo) 5 ([Chunk (bs "ab" ++ [chLF] ++ bs "cd")] ++
      Chunk (bs "ef" ++ [chLF] ++ bs "abcdef") :: [Chunk [chLF]]) (mk tt (replicate 50 (Sent 3)) []) [] =
  Some (mk tt results' (frame ([bs "ab"] ++ [bs "cdef"] ++ [protocol.error (bs "ERR request too large")])),
    Closing (bs "abcdef")).
Proof.
  apply (connection_limit (H := echo) 5 [Chunk (bs "ab" ++ [chLF] ++ bs "cd")] (bs "ef" ++ [chLF] ++ bs "abcdef")
    [Chunk [chLF]] tt (replicate 50 (Sent 3)) [bs "ab"] (bs "cd") tt [bs "ab"] [bs "cdef"] (bs "abcdef") tt [bs "cdef"]).
  - repeat constructor.
  - reflexivity.
  - repeat constructor; vm_compute; done.
  - reflexivity.
  - vm_compute. done.
  - reflexivity.
  - reflexivity.
  - repeat constructor.
  - vm_compute. done.
Defined.
