(* ===== verification/Numbers.v ===== *)
(** * Numbers on a command line

    [std::stoi], [std::stoll] and [std::stoull] of the standard library in base
    ten, as the option parsers of the two programs use them, and what a program
    prints. *)
From S2P Require Import Prelude.
From S2P Require Import Text.

#[local] Open Scope Z_scope.

(** [isspace] in the "C" locale. *)
Definition isWhite (c : byte) : bool := inRange x09 x0d c || bool_decide (c = chSpace).

Definition chPlus : byte := x2b.

(** An optional sign: whether it was a minus, and what follows. *)
Definition readSign (s : bytes) : bool * bytes :=
  match s with
  | c :: s' => if decide (c = chMinus) then (true, s') else if decide (c = chPlus) then (false, s') else (false, s)
  | [] => (false, s)
  end.

(** White space, a sign, digits: the sign, the digits and how many characters were
    used; [None] when there is no digit. *)
Definition readNumber (s : bytes) : option (bool * bytes * Z) :=
  let '(white, t) := spanBytes isWhite s in
  let '(negative, t) := readSign t in
  let '(ds, rest) := spanBytes isDigit t in
  match ds with [] => None | _ :: _ => Some (negative, ds, len s - len rest) end.

(** A signed conversion to the range [lo, hi]: the value and the number of
    characters used; [None] is an exception. *)
Definition stoSigned (lo hi : Z) (s : bytes) : option (Z * Z) :=
  '(negative, ds, consumed) ← readNumber s;
  let v := if negative : bool then - decimalValue ds else decimalValue ds in
  if (lo <=? v) && (v <=? hi) then Some (v, consumed) else None.

Definition stoi (s : bytes) : option (Z * Z) := stoSigned (- 2 ^ 31) (2 ^ 31 - 1) s.
Definition stoll (s : bytes) : option (Z * Z) := stoSigned (- 2 ^ 63) (2 ^ 63 - 1) s.

(** A minus sign negates the result in the unsigned type. *)
Definition stoull (s : bytes) : option (Z * Z) :=
  '(negative, ds, consumed) ← readNumber s;
  let v := decimalValue ds in
  if v <=? 2 ^ 64 - 1 then Some (if negative : bool then u64 (- v) else v, consumed) else None.

(** What a program has written to its two output streams. *)
Record Console := mkConsole { stdout : bytes; stderr : bytes }.

Definition print (text : bytes) (k : Console) : Console := mkConsole (stdout k ++ text) (stderr k).
Definition complain (text : bytes) (k : Console) : Console := mkConsole (stdout k) (stderr k ++ text).

Definition endl : bytes := [chLF].

(** ** Lemmas *)

Lemma isDigit_not_white c : isDigit c = true -> isWhite c = false.
Proof.
  rewrite isDigit_range. intros H. unfold isWhite, inRange. change (byteZ x09) with 9. change (byteZ x0d) with 13.
  rewrite bool_decide_false by (intros ->; change (byteZ chSpace) with 32 in H; lia). lia.
Qed.

Lemma isDigit_not_sign c : isDigit c = true -> c <> chMinus /\ c <> chPlus.
Proof. rewrite isDigit_range. intros H. split; intros ->; [change (byteZ chMinus) with 45 in H|change (byteZ chPlus) with 43 in H]; lia. Qed.

(** A run of digits is read as it stands. *)
Lemma readNumber_digits ds rest :
  ds <> [] -> Forall (fun c => isDigit c = true) ds -> (forall c r, rest = c :: r -> isDigit c = false) ->
  readNumber (ds ++ rest) = Some (false, ds, len ds).
Proof.
  intros Hne Hd Hr. unfold readNumber.
  assert (spanBytes isWhite (ds ++ rest) = ([], ds ++ rest)) as ->.
  { apply (spanBytes_all isWhite []); [done|]. intros c b' E. destruct ds as [|d ds]; [done|].
    injection E as <- _. apply Forall_cons in Hd as [Hd _]. by apply isDigit_not_white. }
  assert (readSign (ds ++ rest) = (false, ds ++ rest)) as ->.
  { destruct ds as [|d ds]; [done|]. apply Forall_cons in Hd as [Hd _].
    destruct (isDigit_not_sign d Hd). cbn. by rewrite !decide_False. }
  rewrite (spanBytes_all isDigit ds rest Hd Hr). destruct ds; [done|].
  rewrite len_app. do 2 f_equal. lia.
Qed.

Lemma decimalValue_nonneg ds : Forall (fun c => isDigit c = true) ds -> 0 <= decimalValue ds.
Proof.
  unfold decimalValue. intros Hd. assert (forall v, 0 <= v -> 0 <= fold_left (fun v c => v * 10 + digitValue c) ds v) as H;
    [|by apply H].
  induction Hd as [|c ds Hc Hd IH]; intros v Hv; cbn; [done|]. apply IH.
  apply isDigit_range in Hc. unfold digitValue. change (byteZ x30) with 48. lia.
Qed.

Lemma stoSigned_to_string lo hi n :
  0 <= n -> lo <= n <= hi -> stoSigned lo hi (to_string n) = Some (n, len (to_string n)).
Proof.
  intros Hn Hr. destruct (to_string_digits n Hn) as (Hne & Hd & Hv). unfold stoSigned.
  rewrite <- (app_nil_r (to_string n)) at 1. rewrite readNumber_digits by done. cbn.
  rewrite Hv. by rewrite !(proj2 (Z.leb_le _ _)) by lia.
Qed.

Lemma stoSigned_range lo hi s v n : stoSigned lo hi s = Some (v, n) -> lo <= v <= hi.
Proof.
  unfold stoSigned. destruct (readNumber s) as [[[neg ds] c]|]; [|done]. cbn.
  destruct (_ && _) eqn:E; [|done]. intros [= <- <-]. apply andb_prop in E as [? ?]. lia.
Qed.
