(* ===== verification/Client.v ===== *)
(** * The client library

    [VCacheClient.h] and [VCacheClient.cpp].  What the operating system answers is
    the input of the definitions, as in [Connection.v]: one [SendResult] per call
    of [send], one [RecvResult] per call of [recv]; a definition that needs more
    answers than it was given returns [None], the call that is still blocked.
    [errno] is part of the state, since the messages quote it after later calls;
    calls that succeed, and [close], leave it alone. *)
From S2P Require Import Prelude.
From S2P Require Import Text.
From S2P Require Import Protocol.
From S2P Require Import Connection.

#[local] Open Scope Z_scope.

Module VCacheClient.

(** The error numbers the client tells apart. *)
Inductive Errno := EINTR | EAGAIN | EWOULDBLOCK | OtherErrno (code : Z).

#[global] Instance Errno_eq_dec : EqDecision Errno.
Proof. solve_decision. Defined.

(** The messages of the C library. *)
Class Messages := { strerror : Errno -> bytes; gai_strerror : Z -> bytes }.

(** ** A decoded reply *)

Record Reply := mkReply {
  delivered : bool;
  type : protocol.ReplyType;
  payload : bytes;
  elements : list bytes;
  transportError : bytes
}.

Definition emptyReply : Reply := mkReply false protocol.Unknown [] [] [].

Definition isError (r : Reply) : bool := bool_decide (type r = protocol.Error).
Definition isNil (r : Reply) : bool := bool_decide (type r = protocol.Nil).
Definition isArray (r : Reply) : bool := bool_decide (type r = protocol.Array).

(** [reply.transportError = error; return reply;] *)
Definition undelivered (r : Reply) (error : bytes) : Reply :=
  mkReply false (type r) (payload r) (elements r) error.

(** ** State and surroundings *)

Inductive SendResult := Sent (n : nat) | SendError (e : Errno).
Inductive RecvResult := Received (data : bytes) | EndOfStream | RecvError (e : Errno).

(** One address [getaddrinfo] found: what [socket] returns for it, a descriptor or
    an error, and what [connect] returns on that descriptor. *)
Record Candidate := mkCandidate { socketResult : Errno + Z; connectResult : option Errno }.
Inductive Resolution := Unresolved (status : Z) | Resolved (candidates : list Candidate).

Record t := mk { fd_ : Z; buffer_ : bytes }.

(** The answers still to come, [errno], the bytes that went out on the connection,
    and the calls of [close] made, in order. *)
Record Os := mkOs {
  sends : list SendResult;
  recvs : list RecvResult;
  errno : Errno;
  outgoing : bytes;
  closed : list Z
}.

Definition withErrno (e : Errno) (os : Os) : Os :=
  mkOs (sends os) (recvs os) e (outgoing os) (closed os).
Definition withClosed (fd : Z) (os : Os) : Os :=
  mkOs (sends os) (recvs os) (errno os) (outgoing os) (closed os ++ [fd]).

(** ** Operations *)

Definition new : t := mk (-1) [].

Definition connected (c : t) : bool := 0 <=? fd_ c.

Definition disconnect (c : t) (os : Os) : t * Os :=
  if 0 <=? fd_ c then (mk (-1) [], withClosed (fd_ c) os) else (mk (fd_ c) [], os).

(** The loop over the addresses: the descriptor that was connected, if any. *)
Fixpoint tryCandidates (candidates : list Candidate) (os : Os) : option Z * Os :=
  match candidates with
  | [] => (None, os)
  | candidate :: rest =>
      match socketResult candidate with
      | inl e => tryCandidates rest (withErrno e os)
      | inr fd =>
          match connectResult candidate with
          | None => (Some fd, os)
          | Some e => tryCandidates rest (withClosed fd (withErrno e os))
          end
      end
  end.

(** The client, and the error when the call returns false. *)
Definition connect `{Messages} (c : t) (os : Os) (host : bytes) (port : Z) (resolution : Resolution)
    : t * Os * option bytes :=
  let '(c, os) := disconnect c os in
  match resolution with
  | Unresolved status =>
      (c, os, Some (bs "cannot resolve '" ++ host ++ bs "': " ++ gai_strerror status))
  | Resolved candidates =>
      let '(found, os) := tryCandidates candidates os in
      match found with
      | Some fd => (mk fd (buffer_ c), os, None)
      | None =>
          (c, os, Some (bs "cannot connect to " ++ host ++ bs ":" ++ to_string port ++ bs ": "
                        ++ strerror (errno os)))
      end
  end.

(** [sendAll]: the results of [send] left, [errno], what went out, the value
    returned. *)
Fixpoint sendAll (results : list SendResult) (e : Errno) (text : bytes)
    : option (list SendResult * Errno * bytes * bool) :=
  match text with
  | [] => Some (results, e, [], true)
  | _ :: _ =>
      match results with
      | [] => None
      | SendError e' :: rest =>
          if decide (e' = EINTR) then sendAll rest e' text else Some (rest, e', [], false)
      | Sent 0 :: rest => Some (rest, e, [], false)
      | Sent n :: rest =>
          '(results', e', out, ok) ← sendAll rest e (drop n text);
          Some (results', e', take n text ++ out, ok)
      end
  end.

(** [readLine]: the results of [recv] left, [errno], the buffer, and the line or the
    error. *)
Fixpoint readLine `{Messages} (results : list RecvResult) (e : Errno) (buffer : bytes)
    : option (list RecvResult * Errno * bytes * (bytes + bytes)) :=
  match findByte chLF buffer with
  | Some newline => Some (results, e, drop (S newline) buffer, inl (take newline buffer))
  | None =>
      match results with
      | [] => None
      | EndOfStream :: rest => Some (rest, e, buffer, inr (bs "server closed the connection"))
      | RecvError e' :: rest =>
          if decide (e' = EINTR) then readLine rest e' buffer
          else
            Some (rest, e', buffer, inr
              (if decide (e' = EAGAIN \/ e' = EWOULDBLOCK) then bs "timed out waiting for a reply"
               else bs "read failed: " ++ strerror e'))
      | Received chunk :: rest => readLine rest e (buffer ++ chunk)
      end
  end.

(** The loop of [command] over the elements of an array: [Some error] when it gave
    up. *)
Fixpoint readElements `{Messages} (count : nat) (results : list RecvResult) (e : Errno) (buffer : bytes)
    (elements : list bytes)
    : option (list RecvResult * Errno * bytes * list bytes * option bytes) :=
  match count with
  | O => Some (results, e, buffer, elements, None)
  | S count' =>
      '(results, e, buffer, r) ← readLine results e buffer;
      match r with
      | inr error => Some (results, e, buffer, elements, Some error)
      | inl line =>
          let element := protocol.parse line in
          if decide (protocol.ltype element = protocol.Unknown) then
            Some (results, e, buffer, elements, Some (bs "unrecognised element tag in: " ++ line))
          else readElements count' results e buffer (elements ++ [protocol.payload element])
      end
  end.

(** [reply.transportError = error; disconnect(); return reply;] *)
Definition giveUp (c : t) (os : Os) (r : Reply) (error : bytes) : t * Os * Reply :=
  (disconnect c os, undelivered r error).

Definition command `{Messages} (c : t) (os : Os) (commandLine : bytes) : option (t * Os * Reply) :=
  let reply := emptyReply in
  if fd_ c <? 0 then Some (c, os, undelivered reply (bs "not connected"))
  else
    '(sends', e, out, ok) ← sendAll (sends os) (errno os) (commandLine ++ [chLF]);
    let os := mkOs sends' (recvs os) e (outgoing os ++ out) (closed os) in
    if negb ok then Some (giveUp c os reply (bs "send failed: " ++ strerror (errno os)))
    else
      '(recvs', e, buffer, r) ← readLine (recvs os) (errno os) (buffer_ c);
      let os := mkOs (sends os) recvs' e (outgoing os) (closed os) in
      let c := mk (fd_ c) buffer in
      match r with
      | inr error => Some (giveUp c os reply error)
      | inl line =>
          let head := protocol.parse line in
          if decide (protocol.ltype head = protocol.Unknown) then
            Some (giveUp c os reply (bs "unrecognised reply tag in: " ++ line))
          else
            let reply := mkReply false (protocol.ltype head) (protocol.payload head) [] [] in
            if decide (protocol.ltype head = protocol.Array) then
              match protocol.parseCount (protocol.payload head) with
              | None => Some (giveUp c os reply (bs "malformed array header: " ++ line))
              | Some count =>
                  '(recvs', e, buffer, es, failed) ←
                    readElements (Z.to_nat count) (recvs os) (errno os) (buffer_ c) [];
                  let os := mkOs (sends os) recvs' e (outgoing os) (closed os) in
                  let c := mk (fd_ c) buffer in
                  let reply := mkReply false (type reply) [] es [] in
                  match failed with
                  | Some error => Some (giveUp c os reply error)
                  | None => Some (c, os, mkReply true (type reply) (payload reply) es [])
                  end
              end
            else Some (c, os, mkReply true (type reply) (payload reply) [] [])
      end.

End VCacheClient.
