(* ===== verification/ClientSpec.v ===== *)
(** * The client library: lemmas

    The client against the stream of bytes its socket will deliver: the buffer
    followed by what is still to come.  A command takes exactly one reply off that
    stream, however the stream is cut. *)
From S2P Require Import Prelude.
From S2P Require Import Text.
From S2P Require Import Protocol.
From S2P Require Import Executor.
From S2P Require Import ExecutorSpec.
From S2P Require Import Connection.
From S2P Require Import Client.
Import VCacheClient.

#[local] Open Scope Z_scope.

(** ** Reference definitions *)

(** The bytes [recv] will deliver. *)
Definition stream (results : list RecvResult) : bytes :=
  concat (map (fun r => match r with Received data => data | _ => [] end) results).

(** A server that keeps sending: bytes or interruptions, no failure. *)
Definition flowing (r : RecvResult) : Prop :=
  match r with Received _ => True | RecvError e => e = EINTR | EndOfStream => False end.

(** A server that keeps reading. *)
Definition taking (r : SendResult) : Prop :=
  match r with Sent n => (0 < n)%nat | SendError e => e = EINTR end.

(** How many calls of [send] will take something. *)
Definition takers (results : list SendResult) : Z :=
  sumZ (fun r => match r with Sent _ => 1 | SendError _ => 0 end) results.

(** What a reply means to the client. *)
Definition decoded (reply : bytes) : Reply :=
  match splitLines reply with
  | [] => emptyReply
  | header :: rest =>
      let head := protocol.parse header in
      mkReply true (protocol.ltype head)
        (if decide (protocol.ltype head = protocol.Array) then [] else protocol.payload head)
        (map (fun l => protocol.payload (protocol.parse l)) rest) []
  end.

(** ** Finding newlines *)

Lemma findByte_line c line rest : c ∉ line -> findByte c (line ++ c :: rest) = Some (length line).
Proof.
  induction line as [|b line IH]; intros Hn; cbn.
  - by rewrite decide_True.
  - apply not_elem_of_cons in Hn as [Hb Hn]. rewrite decide_False by done. by rewrite IH.
Qed.

Lemma findByte_app c s n t : findByte c s = Some n -> findByte c (s ++ t) = Some n.
Proof.
  revert n. induction s as [|b s IH]; intros n; cbn; [done|]. destruct (decide (b = c)); [done|].
  destruct (findByte c s) as [k|]; [|done]. intros [= <-]. by rewrite (IH k eq_refl).
Qed.

Lemma findByte_split c buffer n line s rest :
  findByte c buffer = Some n -> c ∉ line -> buffer ++ s = line ++ c :: rest ->
  take n buffer = line /\ drop (S n) buffer ++ s = rest.
Proof.
  intros En Hl Hs. pose proof (findByte_line c line rest Hl) as Hn. rewrite <- Hs in Hn.
  rewrite (findByte_app _ _ _ _ En) in Hn. injection Hn as ->. pose proof (Server.findByte_lt _ _ _ En).
  split.
  - rewrite <- (take_app_le _ s) by lia. by rewrite Hs, take_app_length.
  - rewrite <- (drop_app_le _ s) by lia. rewrite Hs, drop_app_ge by lia.
    by replace (S (length line) - length line)%nat with 1%nat by lia.
Qed.

Lemma printable_no_newline l : Forall (fun c => printable c = true) l -> chLF ∉ l.
Proof. intros Hp Hin. rewrite Forall_forall in Hp. by specialize (Hp _ Hin). Qed.

Lemma splitLines_frame reply : reply ++ [chLF] = Server.frame (splitLines reply).
Proof.
  unfold Server.frame. induction reply as [|c reply IH]; [done|]. cbn [splitLines app].
  destruct (decide (c = chLF)) as [->|Hc]; [by rewrite IH|].
  destruct (splitLines reply) as [|l ls] eqn:E; [by destruct reply|]. rewrite IH. done.
Qed.

(** ** Reading *)

Section Reading.
Context `{Messages}.

Lemma readLine_stream results e buffer line rest :
  Forall flowing results -> chLF ∉ line -> buffer ++ stream results = line ++ chLF :: rest ->
  exists results' e' buffer', readLine results e buffer = Some (results', e', buffer', inl line) /\
    Forall flowing results' /\ buffer' ++ stream results' = rest.
Proof.
  intros Hf Hl. revert e buffer. induction results as [|r results IH]; intros e buffer Hs;
    cbn [readLine]; destruct (findByte chLF buffer) as [n|] eqn:En.
  1, 3: destruct (findByte_split _ _ _ _ _ _ En Hl Hs) as [-> Hd]; eauto 10.
  - unfold stream in Hs. cbn in Hs. rewrite app_nil_r in Hs. subst. by rewrite findByte_line in En.
  - apply Forall_cons in Hf as [Hr Hf]. destruct r as [data| |e']; [|done|].
    + apply IH; [done|]. unfold stream in Hs. cbn in Hs. by rewrite <- app_assoc.
    + rewrite decide_True by done. by apply IH.
Qed.

Lemma readElements_stream lines results e buffer rest es :
  Forall flowing results -> Forall goodLine lines ->
  buffer ++ stream results = Server.frame lines ++ rest ->
  exists results' e' buffer',
    readElements (length lines) results e buffer es
    = Some (results', e', buffer', es ++ map (fun l => protocol.payload (protocol.parse l)) lines, None) /\
    Forall flowing results' /\ buffer' ++ stream results' = rest.
Proof.
  revert results e buffer es. induction lines as [|l lines IH]; intros results e buffer es Hf Hg Hs.
  { eexists _, _, _. cbn. rewrite app_nil_r. split; [done|]. split; [done|]. done. }
  apply Forall_cons in Hg as [[Hp Ht] Hg]. unfold Server.frame in Hs. cbn in Hs. rewrite <- !app_assoc in Hs.
  destruct (readLine_stream results e buffer l _ Hf (printable_no_newline _ Hp) Hs)
    as (results1 & e1 & buffer1 & E1 & Hf1 & Hs1).
  destruct (IH results1 e1 buffer1 (es ++ [protocol.payload (protocol.parse l)]) Hf1 Hg Hs1)
    as (results2 & e2 & buffer2 & E2 & Hf2 & Hs2).
  exists results2, e2, buffer2. split; [|done]. cbn [length readElements]. rewrite E1. cbn [mbind option_bind].
  rewrite decide_False by done. rewrite E2. by rewrite <- app_assoc.
Qed.

(** ** Sending *)

Lemma sendAll_taken text results e :
  Forall taking results -> len text <= takers results ->
  exists results' e', sendAll results e text = Some (results', e', text, true) /\
    Forall taking results' /\ takers results - len text <= takers results'.
Proof.
  revert text e. induction results as [|r results IH]; intros text e Hacc Hw.
  - destruct text as [|b text]; [exists [], e|rewrite len_cons in Hw; pose proof (len_nonneg text); cbn in Hw; lia].
    split_and!; [done|done|]. unfold len. cbn. lia.
  - apply Forall_cons in Hacc as [Hr Hacc]. destruct text as [|b text].
    { eexists _, _. split; [done|]. split; [by constructor|]. unfold len. cbn. lia. }
    destruct r as [[|n]|e'].
    + cbn in Hr. lia.
    + change (takers (Sent (S n) :: results)) with (1 + takers results) in *. rewrite len_cons in *.
      destruct (IH (drop n text) e Hacc) as (results' & e1 & E & Hacc' & Hw').
      { unfold len in *. rewrite length_drop. lia. }
      exists results', e1. cbn [sendAll drop]. rewrite E. split_and!; [|done|].
      * cbn. by rewrite take_drop.
      * unfold len in *. rewrite length_drop in Hw'. lia.
    + change (takers (SendError e' :: results)) with (0 + takers results) in *.
      destruct (IH (b :: text) e' Hacc) as (results' & e1 & E & Hacc' & Hw'); [lia|].
      exists results', e1. cbn [sendAll]. rewrite decide_True by done. split_and!; [exact E|done|lia].
Qed.

(** ** A command *)

(** The client takes one reply off the stream and nothing more. *)
Lemma command_reply c os commandLine reply rest :
  0 <= fd_ c -> Forall taking (sends os) -> len commandLine + 1 <= takers (sends os) ->
  framed reply -> len (splitLines reply) <= 100000001 ->
  Forall flowing (recvs os) -> buffer_ c ++ stream (recvs os) = reply ++ chLF :: rest ->
  exists c' os', command c os commandLine = Some (c', os', decoded reply) /\
    fd_ c' = fd_ c /\ outgoing os' = outgoing os ++ commandLine ++ [chLF] /\ closed os' = closed os /\
    Forall taking (sends os') /\ takers (sends os) - (len commandLine + 1) <= takers (sends os') /\
    Forall flowing (recvs os') /\ buffer_ c' ++ stream (recvs os') = rest.
Proof.
  intros Hfd Hsend Hroom (header & lines & Esp & Hg & Hkind) Hlen Hflow Hs.
  change (chLF :: rest) with ([chLF] ++ rest) in Hs. rewrite app_assoc, splitLines_frame, Esp in Hs.
  unfold Server.frame in Hs. cbn in Hs. rewrite <- !app_assoc in Hs. fold (Server.frame lines) in Hs.
  rewrite Esp, len_cons in Hlen. apply Forall_cons in Hg as [[Hp Ht] Hg].
  assert (len (commandLine ++ [chLF]) = len commandLine + 1) as El by (by rewrite len_app).
  destruct (sendAll_taken (commandLine ++ [chLF]) (sends os) (errno os) Hsend) as (sends' & e1 & E1 & Ht1 & Hr1); [lia|].
  rewrite El in Hr1.
  destruct (readLine_stream (recvs os) e1 (buffer_ c) header _ Hflow (printable_no_newline _ Hp) Hs)
    as (recvs1 & e2 & buffer1 & E2 & Hf2 & Hs2).
  unfold command, decoded. rewrite (proj2 (Z.ltb_ge _ _) Hfd), E1. cbn [mbind option_bind negb recvs errno].
  rewrite E2. cbn [mbind option_bind recvs errno fd_ buffer_]. rewrite decide_False by done. rewrite Esp.
  destruct (decide (protocol.ltype (protocol.parse header) = protocol.Array)) as [Ha|Ha].
  - destruct Hkind as [_ Hcount]. rewrite Hcount by lia.
    destruct (readElements_stream lines recvs1 e2 buffer1 rest [] Hf2 Hg Hs2) as (recvs2 & e3 & buffer2 & E3 & Hf3 & Hs3).
    replace (Z.to_nat (len lines)) with (length lines) by (unfold len; lia).
    rewrite E3. cbn. eexists _, _. split; [done|]. cbn.
    split_and!; [done..|exact Hr1|done|done].
  - subst lines. eexists _, _. split; [done|]. cbn. split_and!; [done..|exact Hr1|done|exact Hs2].
Qed.

(** ** Failures *)

Lemma readLine_error results e buffer results' e' buffer' error :
  readLine results e buffer = Some (results', e', buffer', inr error) -> error <> [].
Proof.
  revert e buffer. induction results as [|r results IH]; intros e buffer; cbn [readLine];
    destruct (findByte chLF buffer); try done.
  destruct r as [data| |e1]; [apply IH|by intros [= <- <- <- <-]|].
  destruct (decide (e1 = EINTR)); [apply IH|]. intros [= <- <- <- <-]. by destruct (decide _).
Qed.

Lemma readElements_error count results e buffer es results' e' buffer' es' error :
  readElements count results e buffer es = Some (results', e', buffer', es', Some error) -> error <> [].
Proof.
  revert results e buffer es. induction count as [|count IH]; intros results e buffer es; [done|].
  cbn [readElements]. destruct (readLine results e buffer) as [[[[results1 e1] buffer1] [line|err]]|] eqn:E;
    [| |done]; cbn [mbind option_bind].
  - destruct (decide _); [by intros [= <- <- <- <- <-]|apply IH].
  - intros [= <- <- <- <- <-]. by eapply readLine_error.
Qed.

(** What a command that gives up leaves behind. *)
Definition gaveUp (c : t) (os : Os) (c' : t) (os' : Os) (reply : Reply) : Prop :=
  delivered reply = false /\ transportError reply <> [] /\ c' = new /\ closed os' = closed os ++ [fd_ c].

Lemma giveUp_spec c os b os1 r error c' os' reply :
  0 <= fd_ c -> closed os1 = closed os -> error <> [] ->
  Some (giveUp (mk (fd_ c) b) os1 r error) = Some (c', os', reply) -> gaveUp c os c' os' reply.
Proof.
  intros Hfd Hcl Herr. unfold giveUp, disconnect. cbn. rewrite (proj2 (Z.leb_le _ _) Hfd).
  intros [= <- <- <-]. unfold gaveUp. cbn. by rewrite Hcl.
Qed.

(** Whatever the network does, a command that is not delivered says why and leaves
    the client disconnected with an empty buffer; one that is delivered leaves it
    connected. *)
Lemma command_outcome c os commandLine c' os' reply :
  command c os commandLine = Some (c', os', reply) -> 0 <= fd_ c ->
  (delivered reply = true /\ transportError reply = [] /\ type reply <> protocol.Unknown /\
     fd_ c' = fd_ c /\ closed os' = closed os) \/ gaveUp c os c' os' reply.
Proof.
  intros Hc Hfd. revert Hc. unfold command. rewrite (proj2 (Z.ltb_ge _ _) Hfd).
  destruct (sendAll _ _ _) as [[[[sends' e1] out] ok]|]; [|done]. cbn [mbind option_bind].
  destruct ok; cbn [negb].
  2: { intros Hg. right. revert Hg. destruct c as [fd b]. by apply (giveUp_spec (mk fd b) _ b). }
  destruct (readLine _ _ _) as [[[[recvs1 e2] buffer1] [line|err]]|] eqn:Erl; [| |done];
    cbn [mbind option_bind recvs errno fd_ buffer_].
  2: { intros Hg. right. revert Hg. apply giveUp_spec; [done..|]. by eapply readLine_error. }
  destruct (decide (protocol.ltype (protocol.parse line) = protocol.Unknown)) as [Hu|Hu].
  { intros Hg. right. revert Hg. by apply giveUp_spec. }
  destruct (decide (protocol.ltype (protocol.parse line) = protocol.Array)) as [Ha|Ha].
  2: { intros [= <- <- <-]. left. cbn. done. }
  destruct (protocol.parseCount _) as [count|].
  2: { intros Hg. right. revert Hg. by apply giveUp_spec. }
  destruct (readElements _ _ _ _ _) as [[[[[recvs2 e3] buffer2] es] [err|]]|] eqn:Ere; [| |done];
    cbn [mbind option_bind].
  - intros Hg. right. revert Hg. apply giveUp_spec; [done..|]. by eapply readElements_error.
  - intros [= <- <- <-]. left. cbn. done.
Qed.

End Reading.

(** ** Connecting *)

(** The descriptors [socket] hands out for a list of addresses, up to the one that
    connects. *)
Fixpoint opened (candidates : list Candidate) : list Z :=
  match candidates with
  | [] => []
  | candidate :: rest =>
      match socketResult candidate with
      | inl _ => opened rest
      | inr fd => match connectResult candidate with None => [fd] | Some _ => fd :: opened rest end
      end
  end.

Lemma tryCandidates_spec candidates os found os' :
  tryCandidates candidates os = (found, os') ->
  closed os' ++ option_list found = closed os ++ opened candidates.
Proof.
  revert os. induction candidates as [|[s r] candidates IH]; intros os; cbn.
  - by intros [= <- <-].
  - destruct s as [e|fd]; [intros E; by rewrite (IH _ E)|]. destruct r as [e|].
    + intros E. rewrite (IH _ E). cbn. by rewrite <- app_assoc.
    + by intros [= <- <-].
Qed.
