(* ===== verification/ClientProgram.v ===== *)
(** * The client program

    [client/main.cpp]: the options, the joining of a one-shot command, the printing
    of replies, and [main] with its prompt.  The lines the user types are an
    argument. *)
From S2P Require Import Prelude.
From S2P Require Import Text.
From S2P Require Import Protocol.
From S2P Require Import Numbers.
From S2P Require Import Parser.
From S2P Require Import ParserSpec.
From S2P Require Import Connection.
From S2P Require Import Client.
Import VCacheClient.

#[local] Open Scope Z_scope.

Module ClientProgram.

(** ** Options *)

Record Options := mkOptions { host : bytes; port : Z; oneShot : list bytes; showHelp : bool }.

Definition defaultOptions : Options := mkOptions (bs "127.0.0.1") 6379 [] false.

Definition usage : bytes := bs
"Usage: vcache-cli [options] [command ...]

  --host <addr>    Server address (default 127.0.0.1)
  --port <n>       Server port (default 6379)
  --help           Show this message

With no command, starts an interactive prompt.
With a command, runs it once and exits: vcache-cli GET username
Commands are also read from a pipe: echo KEYS | vcache-cli
".

Definition commandList : bytes := bs
"  SET key value [EX seconds]   store a value, optionally expiring
  GET key                      fetch a value, or (nil)
  DEL key                      delete a key, replies 1 or 0
  EXISTS key                   replies 1 or 0
  KEYS                         list every key
  SAVE                         write a snapshot to disk

  help                         this list
  exit, quit                   leave (Ctrl+D also works)

Values with spaces need quotes: SET greeting " ++ [chQuote] ++ bs "hello world" ++ [chQuote] ++ endl.

(** The value of [--port]; [None] is an exception. *)
Definition portOf (value : bytes) : option Z :=
  '(port, consumed) ← stoi value;
  if negb (consumed =? len value) || (port <? 1) || (65535 <? port) then None else Some (port mod 2 ^ 16).

Fixpoint parseArguments (arguments : list bytes) (options : Options) (k : Console) : Options * Console * bool :=
  match arguments with
  | [] => (options, k, true)
  | argument :: rest =>
      if decide (argument = bs "--help" \/ argument = bs "-h")
      then (mkOptions (host options) (port options) (oneShot options) true, k, true)
      else if decide (argument = bs "--host" \/ argument = bs "--port") then
        match rest with
        | [] => (options, complain (bs "error: " ++ argument ++ bs " requires a value" ++ endl) k, false)
        | value :: rest' =>
            if decide (argument = bs "--host")
            then parseArguments rest' (mkOptions value (port options) (oneShot options) (showHelp options)) k
            else
              match portOf value with
              | None => (options, complain (bs "error: invalid port '" ++ value ++ bs "'" ++ endl) k, false)
              | Some n => parseArguments rest' (mkOptions (host options) n (oneShot options) (showHelp options)) k
              end
        end
      else (mkOptions (host options) (port options) (oneShot options ++ argument :: rest) (showHelp options), k, true)
  end.

(** ** One-shot commands *)

Definition needsQuotes (part : bytes) : bool :=
  bool_decide (chSpace ∈ part) || bool_decide (chTab ∈ part) || bool_decide (part = []).

(** The loop over the characters of a quoted part. *)
Definition escapePart (part : bytes) : bytes :=
  concat (map (fun c => if decide (c = chQuote \/ c = chBackslash) then [chBackslash; c] else [c]) part).

Definition writePart (part : bytes) : bytes :=
  if needsQuotes part then [chQuote] ++ escapePart part ++ [chQuote] else part.

(** [i] is the index of the first part left. *)
Fixpoint joinFrom (i : nat) (parts : list bytes) (line : bytes) : bytes :=
  match parts with
  | [] => line
  | part :: rest => joinFrom (S i) rest (line ++ (if (0 <? i)%nat then [chSpace] else []) ++ writePart part)
  end.

Definition joinOneShot (parts : list bytes) : bytes := joinFrom 0 parts [].

(** ** Printing replies *)

(** The elements of an array, numbered from [i + 1]. *)
Fixpoint elementLines (i : Z) (es : list bytes) : bytes :=
  match es with
  | [] => []
  | e :: rest => to_string (i + 1) ++ bs ") " ++ [chQuote] ++ e ++ [chQuote] ++ endl ++ elementLines (i + 1) rest
  end.

Definition printReply (r : Reply) (k : Console) : Console :=
  match type r with
  | protocol.Status | protocol.Integer => print (payload r ++ endl) k
  | protocol.Value => print (payload r ++ endl) k
  | protocol.Nil => print (bs "(nil)" ++ endl) k
  | protocol.Error => complain (payload r ++ endl) k
  | protocol.Array =>
      match elements r with
      | [] => print (bs "(empty list)" ++ endl) k
      | _ :: _ =>
          print (bs "(" ++ to_string (len (elements r))
                 ++ (if len (elements r) =? 1 then bs " key)" else bs " keys)") ++ endl
                 ++ elementLines 0 (elements r)) k
      end
  | protocol.Unknown => complain (bs "(unrecognised reply)" ++ endl) k
  end.

(** ** The program *)

(** [line.find_first_not_of(" \t\r") == npos] *)
Definition isBlank (line : bytes) : bool :=
  forallb (fun c => bool_decide (c ∈ [chSpace; chTab; chCR])) line.

(** The loop of the prompt over the lines the user types; the exit code. *)
Fixpoint prompt `{Messages} (interactive : bool) (input : list bytes) (c : t) (os : Os) (k : Console)
    : option (Z * t * Os * Console) :=
  let k := if interactive then print (bs "vcache> ") k else k in
  match input with
  | [] => Some (0, c, os, if interactive then print endl k else k)
  | line :: rest =>
      if decide (line = bs "exit" \/ line = bs "quit") then Some (0, c, os, k)
      else if decide (line = bs "help") then prompt interactive rest c os (print commandList k)
      else if isBlank line then prompt interactive rest c os k
      else
        '(c, os, reply) ← command c os line;
        if negb (delivered reply)
        then Some (1, c, os, complain (bs "error: " ++ transportError reply ++ endl) k)
        else prompt interactive rest c os (printReply reply k)
  end.

(** [main] from the construction of the client on. *)
Definition runClient `{Messages} (options : Options) (resolution : Resolution) (interactive : bool)
    (input : list bytes) (os : Os) (k : Console) : option (Z * t * Os * Console) :=
  let '(c, os, failed) := connect new os (host options) (port options) resolution in
  match failed with
  | Some error => Some (1, c, os, complain (bs "error: " ++ error ++ endl) k)
  | None =>
      match oneShot options with
      | _ :: _ =>
          '(c, os, reply) ← command c os (joinOneShot (oneShot options));
          if negb (delivered reply)
          then Some (1, c, os, complain (bs "error: " ++ transportError reply ++ endl) k)
          else Some (if isError reply then 1 else 0, c, os, printReply reply k)
      | [] =>
          let k := if interactive
                   then print (bs "Connected to " ++ host options ++ bs ":" ++ to_string (port options) ++ endl
                               ++ bs "Type 'help' for commands, 'exit' to quit." ++ endl) k
                   else k in
          prompt interactive input c os k
      end
  end.

(** [main] after the name of the program: the exit code, the calls made, the output.
    The destructor of the client runs on every way out. *)
Definition main `{Messages} (arguments : list bytes) (resolution : Resolution) (interactive : bool)
    (input : list bytes) (os : Os) : option (Z * Os * Console) :=
  let '(options, k, ok) := parseArguments arguments defaultOptions (mkConsole [] []) in
  if negb ok then Some (2, os, k)
  else if showHelp options then Some (0, os, print usage k)
  else
    '(code, c, os, k) ← runClient options resolution interactive input os k;
    let '(_, os) := disconnect c os in
    Some (code, os, k).

(** ** Joining and splitting *)

(** What a part must look like to arrive as it is: its beginning is not taken for a
    quoted token. *)
Definition survives (part : bytes) : Prop := needsQuotes part = true \/ head part <> Some chQuote.

(** The end of the line is not taken for a line ending. *)
Definition endsClean (parts : list bytes) : Prop :=
  forall part, last parts = Some part -> needsQuotes part = true \/ last part <> Some chCR.

Lemma joinFrom_S i parts line :
  joinFrom (S i) parts line = line ++ concat (map (fun p => chSpace :: writePart p) parts).
Proof.
  revert i line. induction parts as [|p parts IH]; intros i line; cbn; [by rewrite app_nil_r|].
  rewrite IH. by rewrite <- app_assoc.
Qed.

Lemma joinOneShot_cons p parts :
  joinOneShot (p :: parts) = writePart p ++ concat (map (fun p => chSpace :: writePart p) parts).
Proof. unfold joinOneShot. cbn [joinFrom]. by rewrite joinFrom_S. Qed.

Lemma readQuoted_part token part rest :
  CommandParser.readQuoted token (escapePart part ++ chQuote :: rest) = Some (token ++ part, rest).
Proof.
  revert token. induction part as [|c part IH]; intros token; [by rewrite app_nil_r|].
  unfold escapePart. cbn [map concat]. rewrite <- app_assoc. fold (escapePart part).
  replace (token ++ c :: part) with ((token ++ [c]) ++ part) by (by rewrite <- app_assoc).
  rewrite <- IH. by destruct c.
Qed.

Lemma needsQuotes_false part :
  needsQuotes part = false -> part <> [] /\ Forall (fun c => CommandParser.isSpace c = false) part.
Proof.
  unfold needsQuotes. intros H. apply orb_false_elim in H as [H H3]. apply orb_false_elim in H as [H1 H2].
  apply bool_decide_eq_false in H1, H2, H3. split; [done|]. apply Forall_forall. intros c Hc.
  destruct (CommandParser.isSpace c) eqn:E; [|done]. exfalso. revert E. unfold CommandParser.isSpace.
  intros E. apply orb_prop in E as [E|E]; apply bool_decide_eq_true in E; by subst.
Qed.

Lemma tokenizeFrom_part fuel lead p rest tokens :
  lead = [] \/ lead = [chSpace] -> survives p -> endsToken rest ->
  CommandParser.tokenizeFrom (S fuel) (lead ++ writePart p ++ rest) tokens =
  CommandParser.tokenizeFrom fuel rest (tokens ++ [p]).
Proof.
  intros Hlead Hs Hend.
  assert (forall c t, CommandParser.isSpace c = false ->
    CommandParser.skipSpaces (lead ++ c :: t) = c :: t) as Hskip.
  { intros c t Hc. destruct Hlead as [-> | ->]; cbn; by rewrite Hc. }
  unfold writePart. destruct (needsQuotes p) eqn:Eq.
  - rewrite <- !app_assoc. cbn [app CommandParser.tokenizeFrom]. rewrite Hskip by done. rewrite decide_True by done.
    rewrite readQuoted_part. cbn [app]. destruct rest as [|d rest]; [done|]. by rewrite (Hend d rest eq_refl).
  - destruct (needsQuotes_false p Eq) as [Hne Hsp]. destruct Hs as [?|Hq]; [congruence|].
    destruct p as [|c p]; [done|]. pose proof Hsp as Hsp'. apply Forall_cons in Hsp' as [Hc _].
    cbn [app CommandParser.tokenizeFrom]. rewrite Hskip by done. rewrite decide_False by (intros ->; by apply Hq).
    change (c :: p ++ rest) with ((c :: p) ++ rest). by rewrite (readBare_word [] (c :: p) rest Hsp Hend).
Qed.

Lemma tokenizeFrom_parts fuel parts tokens :
  Forall survives parts -> (length parts <= fuel)%nat ->
  CommandParser.tokenizeFrom fuel (concat (map (fun p => chSpace :: writePart p) parts)) tokens =
  Some (inr (tokens ++ parts)).
Proof.
  revert fuel tokens. induction parts as [|p parts IH]; intros fuel tokens Hs Hf.
  { cbn. rewrite app_nil_r. by destruct fuel. }
  apply Forall_cons in Hs as [Hp Hs]. destruct fuel as [|fuel]; [cbn in Hf; lia|]. cbn [map concat].
  change ((chSpace :: writePart p) ++ concat (map (fun p => chSpace :: writePart p) parts))
    with ([chSpace] ++ writePart p ++ concat (map (fun p => chSpace :: writePart p) parts)).
  rewrite tokenizeFrom_part; [|by right|done|]. 
  - rewrite IH by (done || cbn in Hf; lia). by rewrite <- app_assoc.
  - intros c r. destruct parts; [done|]. cbn. by intros [= <- _].
Qed.

Lemma stripLineEnd_id line :
  (forall c, last line = Some c -> c <> chCR /\ c <> chLF) -> CommandParser.stripLineEnd line = line.
Proof.
  intros Hl. unfold CommandParser.stripLineEnd.
  assert (CommandParser.dropNewlines (reverse line) = reverse line) as ->; [|apply reverse_involutive].
  rewrite <- head_reverse in Hl. destruct (reverse line) as [|c l]; [done|]. cbn [CommandParser.dropNewlines].
  destruct (Hl c eq_refl). rewrite decide_False; [done|]. by intros [-> | ->].
Qed.

Lemma joinOneShot_last parts p : last parts = Some p -> exists pre, joinOneShot parts = pre ++ writePart p.
Proof.
  intros [init ->]%last_Some. destruct init as [|q init].
  - exists []. cbn [app]. rewrite joinOneShot_cons. by rewrite app_nil_r.
  - cbn [app]. rewrite joinOneShot_cons, map_app, concat_app. cbn. rewrite app_nil_r.
    eexists (writePart q ++ concat (map (fun p => chSpace :: writePart p) init) ++ [chSpace]).
    by rewrite <- !app_assoc.
Qed.

Lemma writePart_nonempty p : writePart p <> [].
Proof. unfold writePart. destruct (needsQuotes p) eqn:E; [done|]. by destruct (needsQuotes_false p E). Qed.

Lemma escapePart_elem c p : c ∈ escapePart p -> c ∈ p \/ c = chBackslash.
Proof.
  unfold escapePart. induction p as [|d p IH]; cbn; [by left|]. rewrite elem_of_app, elem_of_cons.
  intros [Hd|Hc]; [|destruct (IH Hc); auto]. case_decide; repeat (apply elem_of_cons in Hd as [->|Hd]); auto;
    by apply elem_of_nil in Hd.
Qed.

Lemma writePart_no_newline p : chLF ∉ p -> chLF ∉ writePart p.
Proof.
  intros Hp. unfold writePart. destruct (needsQuotes p); [|done]. rewrite !elem_of_app, list_elem_of_singleton.
  intros [?|[[?|?]%escapePart_elem|?]]; done.
Qed.

Lemma join_no_newline parts : Forall (fun p => chLF ∉ p) parts -> chLF ∉ joinOneShot parts.
Proof.
  intros Hp. destruct parts as [|p parts]; [by intros ?%elem_of_nil|]. apply Forall_cons in Hp as [Hp Hps].
  rewrite joinOneShot_cons, elem_of_app. intros [?|Hin]; [by eapply writePart_no_newline|].
  induction Hps as [|q qs Hq Hqs IH]; cbn in Hin; [by apply elem_of_nil in Hin|].
  apply elem_of_cons in Hin as [?|Hin]; [done|].
  apply elem_of_app in Hin as [Hin|?]; [by apply (writePart_no_newline q)|by apply IH].
Qed.

(** The words of a one-shot command arrive as the shell passed them. *)
Lemma tokenize_join parts :
  parts <> [] -> Forall survives parts -> Forall (fun p => chLF ∉ p) parts -> endsClean parts ->
  CommandParser.tokenize (joinOneShot parts) = Some (inr parts).
Proof.
  intros Hne Hs Hn He. destruct (last parts) as [p|] eqn:El; [|by apply last_None in El].
  unfold CommandParser.tokenize. rewrite stripLineEnd_id.
  - destruct parts as [|q parts]; [done|]. apply Forall_cons in Hs as [Hq Hs].
    rewrite joinOneShot_cons.
    assert (length (writePart q ++ concat (map (fun p => chSpace :: writePart p) parts)) > length parts)%nat as Hlen.
    { rewrite length_app. pose proof (writePart_nonempty q). destruct (writePart q); [done|]. cbn.
      assert (length parts <= length (concat (map (fun p => chSpace :: writePart p) parts)))%nat; [|lia].
      clear. induction parts as [|x l IH]; cbn; [lia|]. rewrite length_app. lia. }
    destruct (length (writePart q ++ _)) as [|n]; [lia|].
    pose proof (tokenizeFrom_part n [] q (concat (map (fun p => chSpace :: writePart p) parts)) []) as Ht.
    cbn [app] in Ht. rewrite Ht; [|by left|done|intros c r; destruct parts; [done|]; cbn; by intros [= <- _]].
    rewrite tokenizeFrom_parts by (done || lia). done.
  - destruct (joinOneShot_last _ _ El) as [pre ->]. intros c Hc. rewrite last_app in Hc.
    destruct (last (writePart p)) as [d|] eqn:Ed; [|apply last_None in Ed; by apply writePart_nonempty in Ed].
    injection Hc as ->. destruct (He p El) as [Hq|Hcr].
    + unfold writePart in Ed. rewrite Hq, app_assoc, last_snoc in Ed. by injection Ed as <-.
    + unfold writePart in Ed. destruct (needsQuotes p).
      * rewrite app_assoc, last_snoc in Ed. by injection Ed as <-.
      * split; [congruence|]. intros ->. apply last_Some_elem_of in Ed. rewrite Forall_forall in Hn.
        apply (Hn p); [|done]. by apply last_Some_elem_of.
Qed.

End ClientProgram.
