(* ===== verification/Conversation.v ===== *)
(** * A client and a server

    The client library at one end of a connection and the server's connection
    handler at the other, with a network between them that cuts and delays what it
    carries as it likes.  Which lines are answered, how long a reply is, and what a
    client makes of a whole sequence of requests. *)
From S2P Require Import Prelude.
From S2P Require Import Text.
From S2P Require Import Protocol.
From S2P Require Import Parser.
From S2P Require Import ParserSpec.
From S2P Require Import Table.
From S2P Require Import RecencyList.
From S2P Require Import TableInv.
From S2P Require Import Store.
From S2P Require Import StoreSpec.
From S2P Require Import StoreBulk.
From S2P Require Import Snapshot.
From S2P Require Import SaveLoad.
From S2P Require Import SaveLoadSpec.
From S2P Require Import Executor.
From S2P Require Import ExecutorSpec.
From S2P Require Import Connection.
From S2P Require Import ConnectionClaims.
From S2P Require Import Client.
From S2P Require Import ClientSpec.
From S2P Require Import ClientProgram.
Import VCacheClient.

#[local] Open Scope Z_scope.

(** ** Lines that are answered *)

(** A line of nothing but separators and line endings. *)
Definition ignored (line : bytes) : Prop :=
  Forall (fun c => CommandParser.isSpace c = true \/ c = chLF \/ c = chCR) line.

Lemma skipSpaces_nil rest :
  CommandParser.skipSpaces rest = [] -> Forall (fun c => CommandParser.isSpace c = true) rest.
Proof.
  induction rest as [|c rest IH]; cbn; [done|]. destruct (CommandParser.isSpace c) eqn:E; [|done]. by constructor; auto.
Qed.

Lemma tokenizeFrom_grows fuel rest tokens tokens' :
  CommandParser.tokenizeFrom fuel rest tokens = Some (inr tokens') -> (length tokens <= length tokens')%nat.
Proof.
  revert rest tokens. induction fuel as [|fuel IH]; intros rest tokens; cbn [CommandParser.tokenizeFrom];
    destruct (CommandParser.skipSpaces rest) as [|c r]; try done; try by intros [= ->].
  assert (forall rest tk, CommandParser.tokenizeFrom fuel rest (tokens ++ [tk]) = Some (inr tokens') ->
    (length tokens <= length tokens')%nat) as Hnext.
  { intros r' tk E%IH. rewrite length_app in E. lia. }
  destruct (decide (c = chQuote)).
  - destruct (CommandParser.readQuoted [] r) as [[tk [|d r2]]|]; [apply Hnext| |done].
    destruct (negb (CommandParser.isSpace d)); [done|apply Hnext].
  - destruct (CommandParser.readBare [] (c :: r)). apply Hnext.
Qed.

Lemma tokenizeFrom_empty fuel rest :
  CommandParser.tokenizeFrom fuel rest [] = Some (inr []) -> CommandParser.skipSpaces rest = [].
Proof.
  destruct fuel as [|fuel]; cbn [CommandParser.tokenizeFrom];
    destruct (CommandParser.skipSpaces rest) as [|c r]; try done.
  destruct (decide (c = chQuote)).
  - destruct (CommandParser.readQuoted [] r) as [[tk [|d r2]]|]; [|destruct (negb _); [done|]|done];
      intros E%tokenizeFrom_grows; cbn in E; lia.
  - destruct (CommandParser.readBare [] (c :: r)). intros E%tokenizeFrom_grows. cbn in E. lia.
Qed.

Lemma dropNewlines_ignored l :
  Forall (fun c => CommandParser.isSpace c = true) (CommandParser.dropNewlines l) -> ignored l.
Proof.
  induction l as [|c l IH]; [by constructor|]. cbn [CommandParser.dropNewlines]. case_decide as Hc.
  - intros Hl. constructor; [tauto|by apply IH].
  - intros Hl. eapply Forall_impl; [exact Hl|]. by left.
Qed.

(** Only a line of separators parses to no command. *)
Lemma parse_empty line c :
  CommandParser.parse line = Some (CommandParser.success c) -> CommandParser.type c = CommandParser.Empty ->
  ignored line.
Proof.
  unfold CommandParser.parse. destruct (CommandParser.tokenize line) as [[e|tokens]|] eqn:Et; [done| |done].
  cbn [mbind option_bind]. intros Hp Hc. destruct tokens as [|verb tokens].
  - apply tokenizeFrom_empty, skipSpaces_nil in Et. unfold CommandParser.stripLineEnd in Et.
    rewrite Forall_reverse in Et. apply dropNewlines_ignored in Et. unfold ignored in *. by rewrite Forall_reverse in Et.
  - exfalso. revert Hp. unfold CommandParser.parseTokens.
    destruct (CommandParser.findCommand _) as [spec|] eqn:Ef; [|done].
    assert (CommandParser.stype spec <> CommandParser.Empty) as Hspec.
    { apply findCommand_cases in Ef as [_ Ef]. unfold CommandParser.kCommands in Ef.
      repeat (apply elem_of_cons in Ef as [->|Ef]; [done|]). by apply elem_of_nil in Ef. }
    destruct (_ || _); [done|].
    destruct (if 1 <=? _ then _ else _) as [k|]; [|done]. cbn [mbind option_bind].
    destruct (if 2 <=? _ then _ else _) as [v|]; [|done]. cbn [mbind option_bind].
    destruct (_ && _); [destruct (CommandParser.parseExpire _ _) as [[e|s]|]; try done|];
      cbn [mbind option_bind]; intros [= <-]; done.
Qed.

(** A request the client can send: one line, with something on it. *)
Definition request (line : bytes) : Prop := (chLF ∉ line) /\ ClientProgram.isBlank line = false.

Lemma request_not_ignored line : request line -> ~ ignored line.
Proof.
  intros [Hlf Hb] Hi. assert (ClientProgram.isBlank line = true); [|congruence].
  unfold ClientProgram.isBlank. apply forallb_forall. intros c Hc%list_elem_of_In.
  unfold ignored in Hi. rewrite Forall_forall in Hi. apply bool_decide_eq_true.
  destruct (Hi c Hc) as [E|[-> | ->]]; [|done|set_solver].
  unfold CommandParser.isSpace in E. apply orb_prop in E as [->%bool_decide_eq_true | ->%bool_decide_eq_true]; set_solver.
Qed.

Lemma request_answered m now line m' reply :
  request line -> answers m now line m' reply -> exists r, reply = Some r.
Proof.
  intros Hr Ha. inversion Ha as [c m1 r Hp Hs|e Hp]; subst; [|by eexists].
  inversion Hs as [c' Hc| | | | | | |]; subst; try by eexists.
  by destruct (request_not_ignored _ Hr (parse_empty _ _ Hp Hc)).
Qed.

(** ** The length of a reply *)

Lemma splitLines_tag t text header rest : t <> protocol.Unknown ->
  splitLines (protocol.tagOf t :: text) = header :: rest -> protocol.ltype (protocol.parse header) = t.
Proof.
  intros Ht. cbn [splitLines]. rewrite decide_False by (by destruct t).
  destruct (splitLines text) as [|l ls]; intros [= <- _]; by rewrite parse_tagged.
Qed.

Lemma visible_keys_len m now (ks : list bytes) :
  NoDup ks -> (forall k, k ∈ ks <-> is_Some (visible m now !! k)) -> len ks <= Z.of_nat (base.size m).
Proof.
  intros Hnd Hks. unfold len. rewrite <- (size_dom m), <- (size_list_to_set (C := gset bytes) ks Hnd).
  apply inj_le, subseteq_size. intros k Hk%elem_of_list_to_set. apply Hks in Hk as [e He].
  apply elem_of_dom. exists e. unfold visible in He. by apply map_lookup_filter_Some in He as [? _].
Qed.

(** A reply has a line more than it lists keys. *)
Lemma answers_lines m now line m' reply :
  answers m now line m' (Some reply) -> len (splitLines reply) <= Z.of_nat (base.size m) + 1.
Proof.
  intros Ha. destruct (answers_framed _ _ _ _ _ Ha) as (header & rest & Esp & _ & Hkind).
  destruct (decide (protocol.ltype (protocol.parse header) = protocol.Array)) as [Harr|_];
    [|rewrite Esp; subst rest; unfold len; cbn; lia].
  assert (forall t text, reply = protocol.tagOf t :: text -> t <> protocol.Unknown -> t = protocol.Array) as Htag.
  { intros t text -> Ht. rewrite <- (splitLines_tag _ _ _ _ Ht Esp). done. }
  assert (forall t text, reply = protocol.tagOf t :: text -> t <> protocol.Unknown -> t <> protocol.Array ->
    len (splitLines reply) <= Z.of_nat (base.size m) + 1) as Hother.
  { intros t text Er Ht Hn. by destruct (Hn (Htag t text Er Ht)). }
  inversion Ha as [c m1 r Hp Hs|e Hp]; subst; [|by apply (Hother protocol.Error e)].
  inversion Hs as [|?|? e|?|?|?|? ks Hc Hnd Hks|?]; subst.
  - by apply (Hother protocol.Status (bs "OK")).
  - by apply (Hother protocol.Value (escapeForWire (evalue e))).
  - by apply (Hother protocol.Nil []).
  - by eapply (Hother protocol.Integer).
  - by eapply (Hother protocol.Integer).
  - rewrite keysReply_lines, len_cons. unfold len at 1. rewrite length_map. fold (len ks).
    pose proof (visible_keys_len _ _ _ Hnd Hks). lia.
  - by eapply (Hother protocol.Error).
Qed.

(** ** The network *)

(** What happens to one request and its reply: the results of the client's [send],
    the pieces the request arrives in, the results of the server's [send], the pieces
    the reply arrives in. *)
Record Wire := mkWire {
  clientSends : list SendResult;
  toServer : bytes -> list Server.Incoming;
  serverSends : list Server.SendResult;
  toClient : bytes -> list RecvResult
}.

(** The network neither loses nor alters bytes, and neither end stops reading
    before [request] bytes have gone one way and [reply] bytes the other. *)
Definition carries (wire : Wire) (request reply : Z) : Prop :=
  Forall taking (clientSends wire) /\ request <= takers (clientSends wire) /\
  Forall Server.accepting (serverSends wire) /\ reply <= Server.willing (serverSends wire) /\
  (forall data, Forall Server.isData (toServer wire data) /\ Server.received (toServer wire data) = data) /\
  (forall data, Forall flowing (toClient wire data) /\ stream (toClient wire data) = data).

Section Exchange.
Context {PL : Platform} {FS : FileSystem} {SC : SystemClock} {MS : Messages}.

(** One call of [command] on a client whose server is [s]: the client, the server,
    what the client sent and the reply. *)
Definition exchange (limit : Z) (wire : Wire) (c : t) (s : Serving) (line : bytes)
    : option (t * Serving * bytes * Reply) :=
  '(server, outcome) ← Server.handleConnection limit (toServer wire (line ++ [chLF]))
    (Server.mk s (serverSends wire) []) [];
  '(c, os, reply) ← command c
    (mkOs (clientSends wire) (toClient wire (Server.sent server)) (OtherErrno 0) [] []) line;
  match outcome with
  | Server.Waiting [] => Some (c, Server.executor server, outgoing os, reply)
  | _ => None
  end.

(** One command after the other. *)
Fixpoint converse (limit : Z) (c : t) (s : Serving) (requests : list (Wire * bytes))
    : option (t * Serving * list Reply) :=
  match requests with
  | [] => Some (c, s, [])
  | (wire, line) :: rest =>
      '(c, s, _, reply) ← exchange limit wire c s line;
      '(c, s, replies) ← converse limit c s rest;
      Some (c, s, reply :: replies)
  end.

Lemma cut_line line : chLF ∉ line -> Server.cut (line ++ [chLF]) = ([line], []).
Proof.
  induction line as [|c line IH]; [done|]. intros [Hc Hn]%not_elem_of_cons. cbn. rewrite IH by done.
  by rewrite decide_False.
Qed.

(** A client in step with its server gets the ideal server's answer, and is in step
    again. *)
Lemma exchange_answers limit fd db m rs w clk k line :
  0 <= fd -> dbRep db m rs -> Database.maxMemoryBytes_ db = 0 -> Z.of_nat (base.size m) < maxEntries ->
  Z.of_nat (base.size m) <= 100000000 -> plausible (clk k) -> request line -> len line <= limit ->
  exists db' rs' m' reply,
    dbRep db' m' rs' /\ Database.maxMemoryBytes_ db' = 0 /\ answers m (clk k) line m' (Some reply) /\
    forall wire, carries wire (len line + 1) (len reply + 1) ->
    exchange limit wire (mk fd []) (mkServing _ (CommandExecutor.mk db None) w clk k) line =
    Some (mk fd [], mkServing _ (CommandExecutor.mk db' None) w clk (S k), line ++ [chLF], decoded reply).
Proof.
  intros Hfd HD Hmax Hroom Hkeys Hnow Hreq Hlim.
  destruct (execute_answers db m rs line (clk k) w HD Hmax Hroom Hnow)
    as (db' & rs' & m' & reply & Hrun & HD' & Hmax' & Hans).
  destruct (request_answered _ _ _ _ _ Hreq Hans) as [r ->].
  exists db', rs', m', r. split_and!; [done..|]. intros wire (Hct & Hcr & Hsa & Hsw & Hts & Htc).
  set (s := mkServing _ (CommandExecutor.mk db None) w clk k).
  set (s' := mkServing _ (CommandExecutor.mk db' None) w clk (S k)).
  assert (Server.answerAll s [line] = Some (s', [r])) as Ha.
  { cbn [Server.answerAll]. unfold handle, executorHandler. cbn [executor_ world clock served s].
    by rewrite Hrun. }
  destruct (Hts (line ++ [chLF])) as [Hdata Hrec].
  assert (len (Server.frame [r]) = len r + 1) as Hfr by (rewrite Server.frame_cons_len; unfold len; cbn; lia).
  destruct (Server.handleConnection_data limit (toServer wire (line ++ [chLF])) [] s (serverSends wire) [] []
    [line] [] s' [r] Hdata eq_refl) as (results' & _ & _ & E).
  { cbn [app]. rewrite Hrec. apply cut_line, Hreq. }
  { pose proof (len_nonneg line). constructor; [unfold len; cbn; lia|]. by constructor. }
  { exact Ha. }
  { done. }
  { lia. }
  rewrite app_nil_r in E. cbn [app Server.handleConnection] in E. unfold exchange. rewrite E.
  cbn [mbind option_bind Server.sent]. replace (Server.frame [r]) with (r ++ [chLF])
    by (unfold Server.frame; cbn; by rewrite app_nil_r).
  destruct (Htc (r ++ [chLF])) as [Hflow Hstr].
  destruct (command_reply (mk fd [])
    (mkOs (clientSends wire) (toClient wire (r ++ [chLF])) (OtherErrno 0) [] []) line r [] Hfd Hct Hcr
    (answers_framed _ _ _ _ _ Hans)) as ([fd' b'] & os' & -> & Hfd' & Hout & _ & _ & _ & _ & Hrest).
  { pose proof (answers_lines _ _ _ _ _ Hans). lia. }
  { exact Hflow. }
  { exact Hstr. }
  cbn in Hfd', Hout, Hrest. apply app_eq_nil in Hrest as [-> _]. subst fd'. cbn [mbind option_bind Server.executor].
  by rewrite Hout.
Qed.

(** A whole conversation. *)
Lemma converse_session limit fd lines db m rs w clk k :
  0 <= fd -> dbRep db m rs -> Database.maxMemoryBytes_ db = 0 ->
  Z.of_nat (base.size m) + len lines <= 100000000 -> (forall i, plausible (clk i)) ->
  Forall (fun l => request l /\ len l <= limit) lines ->
  exists replies m', session m (timed clk k lines) (map Some replies) m' /\
    forall wires, Forall2 (fun wire lr => carries wire (len lr.1 + 1) (len lr.2 + 1)) wires (zip lines replies) ->
    exists s', converse limit (mk fd []) (mkServing _ (CommandExecutor.mk db None) w clk k) (zip wires lines) =
      Some (mk fd [], s', map decoded replies).
Proof.
  intros Hfd. revert db m rs k. induction lines as [|line lines IH]; intros db m rs k HD Hmax Hroom Hclk Hreq.
  { exists [], m. split; [constructor|]. intros wires Hw%Forall2_nil_inv_r. subst. by eexists. }
  apply Forall_cons in Hreq as [[Hr Hl] Hreq]. rewrite len_cons in Hroom. pose proof (len_nonneg lines).
  assert (100000000 < maxEntries) by done.
  destruct (exchange_answers limit fd db m rs w clk k line Hfd HD Hmax ltac:(lia) ltac:(lia) (Hclk k) Hr Hl)
    as (db1 & rs1 & m1 & reply & HD1 & Hmax1 & Hans & Hex).
  pose proof (answers_size _ _ _ _ _ Hans).
  destruct (IH db1 m1 rs1 (S k) HD1 Hmax1 ltac:(lia) Hclk Hreq) as (replies & m' & Hses & Hconv).
  exists (reply :: replies), m'. split; [by econstructor|]. intros wires Hw.
  cbn [zip zip_with] in Hw. apply Forall2_cons_inv_r in Hw as (wire & wires' & Hw & Hws & ->).
  destruct (Hconv wires' Hws) as [s' E]. exists s'. cbn [zip zip_with converse].
  rewrite (Hex wire Hw). cbn [mbind option_bind]. by rewrite E.
Qed.

End Exchange.
