(* ===== verification/ClientClaims.v ===== *)
(** * The client: theorems

    The client library over any behaviour of the network, the client talking to the
    server, and the two ways the client program makes a request line: joining the
    words of a one-shot command, and reading a line at its prompt. *)
From S2P Require Import Prelude.
From S2P Require Import Text.
From S2P Require Import Protocol.
From S2P Require Import Numbers.
From S2P Require Import Parser.
From S2P Require Import Table.
From S2P Require Import RecencyList.
From S2P Require Import TableInv.
From S2P Require Import Store.
From S2P Require Import StoreSpec.
From S2P Require Import StoreBulk.
From S2P Require Import Snapshot.
From S2P Require Import SaveLoad.
From S2P Require Import SaveLoadSpec.
From S2P Require Import Executor.
From S2P Require Import ExecutorSpec.
From S2P Require Import Connection.
From S2P Require Import ConnectionClaims.
From S2P Require Import Client.
From S2P Require Import ClientSpec.
From S2P Require Import ClientProgram.
From S2P Require Import Conversation.
Import VCacheClient.

#[local] Open Scope Z_scope.

(** ** The client and the server *)

(** C3: a client of a fresh server without a memory limit sees an ideal server working
    on a finite map.  For any sequence of request lines, whatever pieces the network
    makes of requests and replies, and whatever calls are interrupted or take only
    part of their bytes: every command is delivered, the reply the client decodes is
    that of the ideal server's answer, and after each command the client is connected
    with nothing left in its buffer. *)
Theorem client_sees_ideal_server {PL : Platform} {FS : FileSystem} {SC : SystemClock} {MS : Messages}
    initialBucketCount shardCount limit fd lines clk w :
  0 <= initialBucketCount < 2 ^ 64 -> 0 <= shardCount <= 2 ^ 63 -> 0 <= fd ->
  len lines <= 100000000 -> (forall i, plausible (clk i)) ->
  Forall (fun l => request l /\ len l <= limit) lines ->
  exists db replies m',
    Database.new initialBucketCount shardCount = Some db /\
    session ∅ (timed clk 0 lines) (map Some replies) m' /\
    forall wires, Forall2 (fun wire lr => carries wire (len lr.1 + 1) (len lr.2 + 1)) wires (zip lines replies) ->
    exists s', converse limit (mk fd []) (mkServing _ (CommandExecutor.mk db None) w clk 0) (zip wires lines) =
      Some (mk fd [], s', map decoded replies).
Proof.
  intros Hi Hs Hfd Hlen Hclk Hreq.
  destruct (new_db_rep initialBucketCount shardCount Hi Hs) as (db & Hdb & HD & Hm & _).
  destruct (converse_session limit fd lines db ∅ _ w clk 0 Hfd HD Hm) as (replies & m' & Hses & Hc);
    [rewrite map_size_empty; lia|done|done|]. eauto 10.
Qed.

(** The client takes exactly one reply off the connection.  When the buffer and
    the bytes still to come begin with a framed reply, in whatever pieces, a command
    sends its line whole, returns that reply decoded and leaves every byte after it
    for the next command. *)
Theorem client_reads_reply {MS : Messages} c os commandLine reply rest :
  0 <= fd_ c -> Forall taking (sends os) -> len commandLine + 1 <= takers (sends os) ->
  framed reply -> len (splitLines reply) <= 100000001 ->
  Forall flowing (recvs os) -> buffer_ c ++ stream (recvs os) = reply ++ chLF :: rest ->
  exists c' os', command c os commandLine = Some (c', os', decoded reply) /\
    fd_ c' = fd_ c /\ outgoing os' = outgoing os ++ commandLine ++ [chLF] /\ closed os' = closed os /\
    buffer_ c' ++ stream (recvs os') = rest.
Proof.
  intros H1 H2 H3 H4 H5 H6 H7.
  destruct (command_reply c os commandLine reply rest H1 H2 H3 H4 H5 H6 H7)
    as (c' & os' & -> & ? & ? & ? & _ & _ & _ & ?). eauto 10.
Qed.


(** ** The client program *)






(** A line break in a word of a one-shot command ends the request.  When the value
    of a SET has no blanks and its text after a line break is itself a request line, the
    server receives two requests: the SET with the value cut short, and that text. *)
Theorem oneShot_line_break key start injected :
  ClientProgram.needsQuotes key = false -> chLF ∉ key ->
  ClientProgram.needsQuotes (start ++ [chLF] ++ injected) = false -> chLF ∉ start -> chLF ∉ injected ->
  Server.cut (ClientProgram.joinOneShot [bs "SET"; key; start ++ [chLF] ++ injected] ++ [chLF]) =
  ([ClientProgram.joinOneShot [bs "SET"; key] ++ [chSpace] ++ start; injected], []).
Proof.
  intros Hk Hkn Hv Hs Hi.
  assert (ClientProgram.joinOneShot [bs "SET"; key] = bs "SET" ++ [chSpace] ++ key) as ->.
  { rewrite ClientProgram.joinOneShot_cons. cbn. unfold ClientProgram.writePart. by rewrite Hk, app_nil_r. }
  assert (ClientProgram.joinOneShot [bs "SET"; key; start ++ [chLF] ++ injected] ++ [chLF] =
    (((bs "SET" ++ [chSpace] ++ key) ++ [chSpace] ++ start) ++ [chLF]) ++ injected ++ [chLF]) as ->.
  { remember (start ++ [chLF] ++ injected) as v eqn:Ev. rewrite ClientProgram.joinOneShot_cons.
    cbn [map concat]. unfold ClientProgram.writePart. rewrite Hk, Hv, Ev. cbn. rewrite app_nil_r.
    by repeat (rewrite <- app_assoc; cbn). }
  eapply (Server.cut_app _ _ [_] [] [_]); apply cut_line; [|done].
  rewrite !not_elem_of_app. split_and!; try done; by apply (bool_decide_unpack _).
Qed.

(** A word that begins with a quote is sent as it is, and the server takes the quotes
    for its own. *)
Example oneShot_quotes_lost :
  CommandParser.tokenize (ClientProgram.joinOneShot
    [bs "SET"; bs "k"; [chQuote] ++ bs "v" ++ [chQuote]]) = Some (inr [bs "SET"; bs "k"; bs "v"]).
Proof. reflexivity. Qed.

(** ** Witnesses *)

Definition sampleMessages : Messages :=
  {| strerror := fun _ => bs "Connection refused"; gai_strerror := fun _ => bs "Name or service not known" |}.

(** A network that delivers requests whole and replies byte by byte. *)
Definition sampleWire : Wire :=
  mkWire (SendError EINTR :: replicate 200 (Sent 1)) (fun data => [Server.Interrupted; Server.Chunk data])
    (replicate 200 (Server.Sent 3)) (fun data => map (fun b => Received [b]) data).

Lemma sampleWire_carries : carries sampleWire 100 100.
Proof.
  split_and!.
  - constructor; [done|]. apply Forall_replicate. cbn. lia.
  - vm_compute. done.
  - apply Forall_replicate. cbn. lia.
  - vm_compute. done.
  - intros data. split; [by repeat constructor|]. unfold Server.received. cbn. by rewrite app_nil_r.
  - intros data. induction data as [|b data [IH1 IH2]]; [by split|]. split; [by constructor|].
    unfold stream in *. cbn. by f_equal.
Qed.

Lemma client_sees_witness : carries sampleWire 100 100 /\ exists db replies m',
  Database.new 16 4 = Some db /\
  session ∅ (timed (fun i => Z.of_nat i `mod` 2 ^ 62) 0 [bs "set a 1"; bs "KEYS"]) (map Some replies) m' /\
  forall wires, Forall2 (fun wire lr => carries wire (len lr.1 + 1) (len lr.2 + 1)) wires
      (zip [bs "set a 1"; bs "KEYS"] replies) ->
  exists s', converse (PL := lp64) (FS := memory) (SC := libstdcxx) (MS := sampleMessages) 8388608 (mk 5 [])
      (mkServing memory (CommandExecutor.mk db None) (mkMem ∅ ∅ 3 0 0 false) (fun i => Z.of_nat i `mod` 2 ^ 62) 0)
      (zip wires [bs "set a 1"; bs "KEYS"]) = Some (mk 5 [], s', map decoded replies).
Proof.
  split; [exact sampleWire_carries|].
  apply (client_sees_ideal_server (PL := lp64) (FS := memory) (SC := libstdcxx) (MS := sampleMessages) 16 4 8388608 5
    [bs "set a 1"; bs "KEYS"] (fun i => Z.of_nat i `mod` 2 ^ 62)).
  - lia.
  - lia.
  - lia.
  - vm_compute. done.
  - intros i. apply Z.mod_pos_bound. lia.
  - repeat constructor; try (vm_compute; done); by apply (bool_decide_unpack _).
Defined.

Definition sampleOs : Os :=
  mkOs [Sent 3; SendError EINTR; Sent 1; Sent 1; Sent 1; Sent 1; Sent 1; Sent 1]
    [Received (bs "*2" ++ [chLF] ++ bs "$a"); RecvError EINTR; Received ([chLF] ++ bs "$b" ++ [chLF] ++ bs "+O")]
    (OtherErrno 0) [] [].

Lemma sampleReply_framed : framed (CommandExecutor.keysReply [bs "a"; bs "b"]).
Proof. apply framed_keys. Qed.

Lemma client_reads_witness : exists c' os',
  command (H := sampleMessages) (mk 5 []) sampleOs (bs "KEYS")
    = Some (c', os', decoded (CommandExecutor.keysReply [bs "a"; bs "b"])) /\
  fd_ c' = 5 /\ outgoing os' = outgoing sampleOs ++ bs "KEYS" ++ [chLF] /\ closed os' = closed sampleOs /\
  buffer_ c' ++ stream (recvs os') = bs "+O".
Proof.
  apply (client_reads_reply (MS := sampleMessages) (mk 5 []) sampleOs (bs "KEYS")
    (CommandExecutor.keysReply [bs "a"; bs "b"]) (bs "+O")).
  - cbn. lia.
  - repeat constructor; cbn; lia.
  - vm_compute. done.
  - exact sampleReply_framed.
  - vm_compute. done.
  - repeat constructor.
  - vm_compute. reflexivity.
Defined.





Lemma oneShot_line_break_witness :
  Server.cut (ClientProgram.joinOneShot [bs "SET"; bs "k"; bs "v" ++ [chLF] ++ bs "SAVE"] ++ [chLF]) =
  ([ClientProgram.joinOneShot [bs "SET"; bs "k"] ++ [chSpace] ++ bs "v"; bs "SAVE"], []).
Proof.
  apply (oneShot_line_break (bs "k") (bs "v") (bs "SAVE")).
  - reflexivity.
  - by apply (bool_decide_unpack _).
  - reflexivity.
  - by apply (bool_decide_unpack _).
  - by apply (bool_decide_unpack _).
Defined.
