(* ===== verification/Config.v ===== *)
(** * Configuration

    [ServerConfig] of [Server.h] and [SweeperConfig] of [ExpirationSweeper.h] with
    their defaults.  Durations are counts of milliseconds. *)
From S2P Require Import Prelude.
From S2P Require Import Text.

#[local] Open Scope Z_scope.

Record SweeperConfig := mkSweeperConfig { interval : Z; bucketsPerPass : Z }.

Definition defaultSweeper : SweeperConfig := mkSweeperConfig 100 128.

Record ServerConfig := mkConfig {
  bindAddress : bytes;
  port : Z;
  backlog : Z;
  maxRequestBytes : Z;
  threadCount : Z;
  maxQueuedConnections : Z;
  sweeper : SweeperConfig;
  snapshotPath : bytes;
  saveInterval : Z;
  restoreOnStart : bool;
  shardCount : Z;
  maxMemoryBytes : Z
}.

Definition defaultConfig : ServerConfig :=
  mkConfig (bs "127.0.0.1") 6379 128 (8 * 1024 * 1024) 64 128 defaultSweeper [] 0 true 64 0.

(** ** Assignments to one member *)

Definition withBind (v : bytes) (c : ServerConfig) : ServerConfig :=
  mkConfig v (port c) (backlog c) (maxRequestBytes c) (threadCount c) (maxQueuedConnections c) (sweeper c)
    (snapshotPath c) (saveInterval c) (restoreOnStart c) (shardCount c) (maxMemoryBytes c).
Definition withPort (v : Z) (c : ServerConfig) : ServerConfig :=
  mkConfig (bindAddress c) v (backlog c) (maxRequestBytes c) (threadCount c) (maxQueuedConnections c) (sweeper c)
    (snapshotPath c) (saveInterval c) (restoreOnStart c) (shardCount c) (maxMemoryBytes c).
Definition withThreads (v : Z) (c : ServerConfig) : ServerConfig :=
  mkConfig (bindAddress c) (port c) (backlog c) (maxRequestBytes c) v (maxQueuedConnections c) (sweeper c)
    (snapshotPath c) (saveInterval c) (restoreOnStart c) (shardCount c) (maxMemoryBytes c).
Definition withSnapshotPath (v : bytes) (c : ServerConfig) : ServerConfig :=
  mkConfig (bindAddress c) (port c) (backlog c) (maxRequestBytes c) (threadCount c) (maxQueuedConnections c)
    (sweeper c) v (saveInterval c) (restoreOnStart c) (shardCount c) (maxMemoryBytes c).
Definition withSaveInterval (v : Z) (c : ServerConfig) : ServerConfig :=
  mkConfig (bindAddress c) (port c) (backlog c) (maxRequestBytes c) (threadCount c) (maxQueuedConnections c)
    (sweeper c) (snapshotPath c) v (restoreOnStart c) (shardCount c) (maxMemoryBytes c).
Definition withShards (v : Z) (c : ServerConfig) : ServerConfig :=
  mkConfig (bindAddress c) (port c) (backlog c) (maxRequestBytes c) (threadCount c) (maxQueuedConnections c)
    (sweeper c) (snapshotPath c) (saveInterval c) (restoreOnStart c) v (maxMemoryBytes c).
Definition withMaxMemory (v : Z) (c : ServerConfig) : ServerConfig :=
  mkConfig (bindAddress c) (port c) (backlog c) (maxRequestBytes c) (threadCount c) (maxQueuedConnections c)
    (sweeper c) (snapshotPath c) (saveInterval c) (restoreOnStart c) (shardCount c) v.
