(* ===== verification/ServerOptions.v ===== *)
(** * The options of the server program

    [parseByteSize] and [parseArguments] of [server/main.cpp], with everything they
    print, and their theorems' lemmas. *)
From S2P Require Import Prelude.
From S2P Require Import Text.
From S2P Require Import Numbers.
From S2P Require Import Parser.
From S2P Require Import Config.

#[local] Open Scope Z_scope.

Module ServerOptions.

(** ** Sizes *)

(** [c - 'a' + 'A'] for lower-case letters. *)
Definition upperLetter (c : byte) : byte :=
  if inRange x61 x7a c then byte_of_Z (byteZ c - byteZ x61 + byteZ x41) else c.

(** What a suffix stands for; [None] is a suffix that is refused. *)
Definition multiplierOf (suffix : bytes) : option Z :=
  if decide (suffix = [] \/ suffix = bs "B") then Some 1
  else if decide (suffix = bs "K" \/ suffix = bs "KB") then Some 1024
  else if decide (suffix = bs "M" \/ suffix = bs "MB") then Some (1024 * 1024)
  else if decide (suffix = bs "G" \/ suffix = bs "GB") then Some (1024 * 1024 * 1024)
  else None.

Definition maxSize : Z := 2 ^ 64 - 1.

Definition parseByteSize (text : bytes) : option Z :=
  match text with
  | [] => None
  | _ :: _ =>
      let '(digits, rest) := spanBytes isDigit text in
      match digits with
      | [] => None
      | _ :: _ =>
          multiplier ← multiplierOf (map upperLetter rest);
          '(number, _) ← stoull digits;
          if maxSize / multiplier <? number then None else Some (u64 (number * multiplier))
      end
  end.

(** ** Usage *)

Definition usage : bytes := bs
"Usage: vcache-server [options]

  --port <n>       Port to listen on (default 6379)
  --bind <addr>    Address to bind (default 127.0.0.1)
  --threads <n>    Worker threads, which is also the ceiling on
                   simultaneous clients (default 64)
  --dbfile <path>  Snapshot file. Without it, persistence is off
                   and SAVE reports that it is not configured.
  --save-interval <seconds>
                   Automatic snapshot interval (default 0, meaning
                   manual SAVE only). Requires --dbfile.
  --shards <n>     Independently locked slices of the keyspace
                   (default 64). More shards means less contention
                   between concurrent clients.
  --max-memory <size>
                   Memory ceiling, e.g. 100MB or 512kb or 1048576.
                   Suffixes are 1024-based. Past it, the least
                   recently used keys are evicted. Default: no limit.
  --help           Show this message
".

(** ** Options *)

Definition takesValue (argument : bytes) : bool :=
  bool_decide (argument ∈ [bs "--port"; bs "--bind"; bs "--threads"; bs "--dbfile"; bs "--save-interval";
                           bs "--max-memory"; bs "--shards"]).

(** [std::chrono::milliseconds] from a count of seconds, in 64 bits; [None] is an
    overflow. *)
Definition millisOfSeconds (seconds : Z) : option Z :=
  if (- 2 ^ 63 <=? seconds * 1000) && (seconds * 1000 <? 2 ^ 63) then Some (seconds * 1000) else None.

(** The value of [--save-interval], in seconds: an exception leaves the number and
    the count of characters at zero. *)
Definition saveSeconds (value : bytes) : option Z :=
  let '(seconds, consumed) := match stoll value with Some r => r | None => (0, 0) end in
  if negb (consumed =? len value) || (seconds <? 0) then None else Some seconds.

(** The options with a number. *)
Definition numericOption (argument value : bytes) (config : ServerConfig) (k : Console)
    : ServerConfig * Console * bool :=
  let isPort := bool_decide (argument = bs "--port") in
  let minimum := if isPort then 0 else 1 in
  let maximum := if isPort then 65535 else 4096 in
  let parsed := '(number, consumed) ← stoi value; if consumed =? len value then Some number else None in
  match parsed with
  | None =>
      (config, complain (bs "error: invalid value for " ++ argument ++ bs ": '" ++ value ++ bs "'" ++ endl) k, false)
  | Some number =>
      if (number <? minimum) || (maximum <? number) then
        (config, complain (bs "error: " ++ argument ++ bs " must be between " ++ to_string minimum
           ++ bs " and " ++ to_string maximum ++ endl) k, false)
      else if isPort then (withPort (number mod 2 ^ 16) config, k, true)
      else if decide (argument = bs "--shards") then (withShards number config, k, true)
      else (withThreads number config, k, true)
  end.

(** One option and its value; [None] is undefined behaviour. *)
Definition applyOption (argument value : bytes) (config : ServerConfig) (k : Console)
    : option (ServerConfig * Console * bool) :=
  if decide (argument = bs "--bind") then Some (withBind value config, k, true)
  else if decide (argument = bs "--dbfile") then Some (withSnapshotPath value config, k, true)
  else if decide (argument = bs "--max-memory") then
    Some match parseByteSize value with
         | None =>
             (config, complain (bs "error: invalid value for --max-memory: '" ++ value
                ++ bs "' (expected e.g. 100MB, 512kb, or a byte count)" ++ endl) k, false)
         | Some bytes => (withMaxMemory bytes config, k, true)
         end
  else if decide (argument = bs "--save-interval") then
    match saveSeconds value with
    | None =>
        Some (config, complain (bs "error: invalid value for --save-interval: '" ++ value ++ bs "'" ++ endl) k, false)
    | Some seconds =>
        millis ← millisOfSeconds seconds;
        Some (withSaveInterval millis config, k, true)
    end
  else Some (numericOption argument value config k).

(** The arguments after the program's name: the configuration, what was printed,
    [shouldExit], and the value returned. *)
Fixpoint parseArguments (arguments : list bytes) (config : ServerConfig) (k : Console)
    : option (ServerConfig * Console * bool * bool) :=
  match arguments with
  | [] => Some (config, k, false, true)
  | argument :: rest =>
      if decide (argument = bs "--help" \/ argument = bs "-h") then Some (config, print usage k, true, true)
      else if takesValue argument then
        match rest with
        | [] => Some (config, complain (bs "error: " ++ argument ++ bs " requires a value" ++ endl) k, false, false)
        | value :: rest' =>
            '(config, k, ok) ← applyOption argument value config k;
            if (ok : bool) then parseArguments rest' config k else Some (config, k, false, false)
        end
      else
        Some (config, print usage (complain (bs "error: unknown option '" ++ argument ++ bs "'" ++ endl ++ endl) k),
              false, false)
  end.

(** ** Reference definitions *)

(** The configurations the options can describe. *)
Definition acceptable (c : ServerConfig) : Prop :=
  0 <= port c <= 65535 /\ 1 <= threadCount c <= 4096 /\ 1 <= shardCount c <= 4096 /\
  0 <= maxMemoryBytes c <= maxSize /\
  exists seconds, saveInterval c = seconds * 1000 /\ 0 <= seconds /\ seconds * 1000 < 2 ^ 63.

(** A configuration written down as options. *)
Definition render (c : ServerConfig) : list bytes :=
  [bs "--port"; to_string (port c); bs "--bind"; bindAddress c; bs "--threads"; to_string (threadCount c);
   bs "--dbfile"; snapshotPath c; bs "--save-interval"; to_string (saveInterval c / 1000);
   bs "--max-memory"; to_string (maxMemoryBytes c); bs "--shards"; to_string (shardCount c)].

(** The members no option touches. *)
Definition fixedPart (c : ServerConfig) : Z * Z * Z * SweeperConfig * bool :=
  (backlog c, maxRequestBytes c, maxQueuedConnections c, sweeper c, restoreOnStart c).

(** ** Sizes *)

Lemma multiplierOf_pos suffix m : multiplierOf suffix = Some m -> 0 < m.
Proof. unfold multiplierOf. repeat case_decide; intros [= <-]; lia. Qed.

Lemma upperLetter_digit c : isDigit c = true -> upperLetter c = c.
Proof.
  rewrite isDigit_range. intros Hc. unfold upperLetter, inRange. change (byteZ x61) with 97.
  by rewrite (proj2 (Z.leb_gt _ _)) by lia.
Qed.

(** A suffix does not begin with a digit. *)
Lemma multiplierOf_first c rest m :
  multiplierOf (map upperLetter (c :: rest)) = Some m -> isDigit c = false.
Proof.
  intros Hm. destruct (isDigit c) eqn:Ed; [|done]. cbn [map] in Hm. rewrite upperLetter_digit in Hm by done.
  unfold multiplierOf in Hm. repeat case_decide; try done;
    match goal with H : c :: _ = _ \/ _ |- _ => destruct H as [H|H]; [try done|]; apply (f_equal head) in H;
      vm_compute in H; injection H as ->; done end.
Qed.

Lemma product_fits n m : 0 < m -> 0 <= n -> (maxSize / m <? n) = false <-> n * m < 2 ^ 64.
Proof.
  intros Hm Hn. unfold maxSize. rewrite Z.ltb_ge. split; intros H.
  - pose proof (Z.mul_div_le (2 ^ 64 - 1) m Hm). nia.
  - apply Z.div_le_lower_bound; lia.
Qed.

Lemma stoull_digits ds :
  ds <> [] -> Forall (fun c => isDigit c = true) ds ->
  stoull ds = if decimalValue ds <=? 2 ^ 64 - 1 then Some (decimalValue ds, len ds) else None.
Proof.
  intros Hne Hd. unfold stoull. rewrite <- (app_nil_r ds) at 1. by rewrite readNumber_digits.
Qed.

(** A size is digits and a suffix, and is accepted exactly when the product fits in
    64 bits. *)
Lemma parseByteSize_iff text n :
  parseByteSize text = Some n <->
  exists digits suffix multiplier, text = digits ++ suffix /\ digits <> [] /\
    Forall (fun c => isDigit c = true) digits /\
    multiplierOf (map upperLetter suffix) = Some multiplier /\
    n = decimalValue digits * multiplier /\ n < 2 ^ 64.
Proof.
  assert (forall digits suffix m, digits <> [] -> Forall (fun c => isDigit c = true) digits ->
    multiplierOf (map upperLetter suffix) = Some m ->
    parseByteSize (digits ++ suffix) =
    if decimalValue digits * m <? 2 ^ 64 then Some (decimalValue digits * m) else None) as Hrun.
  { intros digits suffix m Hne Hd Hm. pose proof (multiplierOf_pos _ _ Hm) as Hmp.
    pose proof (decimalValue_nonneg _ Hd) as Hvn. unfold parseByteSize. rewrite (spanBytes_all isDigit digits suffix Hd)
      by (intros c r Ec; rewrite Ec in Hm; exact (multiplierOf_first _ _ _ Hm)).
    destruct digits as [|d ds] eqn:Eds; [done|]. cbn [app]. rewrite <- Eds in *. rewrite Hm. cbn [mbind option_bind]. rewrite stoull_digits by done.
    destruct (Z.ltb_spec (decimalValue digits * m) (2 ^ 64)) as [Hfit|Hbig].
    - rewrite (proj2 (Z.leb_le _ _)) by nia. cbn [mbind option_bind].
      rewrite (proj2 (product_fits _ _ Hmp Hvn) Hfit). unfold u64. rewrite Z.mod_small by (split; [nia|exact Hfit]). done.
    - destruct (_ <=? _); [|done]. cbn [mbind option_bind].
      destruct (maxSize / m <? decimalValue digits) eqn:E; [done|]. apply product_fits in E; lia. }
  split.
  - destruct (spanBytes isDigit text) as [ds rest] eqn:Es. pose proof (spanBytes_spec _ _ _ _ Es) as (-> & Hd & _).
    intros Hp. destruct ds as [|d ds].
    { exfalso. revert Hp. unfold parseByteSize. cbn [app] in *. destruct rest; [done|]. by rewrite Es. }
    destruct (multiplierOf (map upperLetter rest)) as [m|] eqn:Em.
    + rewrite (Hrun _ _ m) in Hp by done. destruct (_ <? _) eqn:El; [|done]. injection Hp as <-.
      exists (d :: ds), rest, m. split_and!; [done..|]. lia.
    + exfalso. revert Hp. unfold parseByteSize. cbn [app] in *. by rewrite Es, Em.
  - intros (digits & suffix & m & -> & Hne & Hd & Hm & -> & Hlt). rewrite (Hrun _ _ m) by done.
    by rewrite (proj2 (Z.ltb_lt _ _)).
Qed.

Lemma parseByteSize_to_string n : 0 <= n < 2 ^ 64 -> parseByteSize (to_string n) = Some n.
Proof.
  intros Hn. destruct (to_string_digits n) as (Hne & Hd & Hv); [lia|]. apply parseByteSize_iff.
  exists (to_string n), [], 1. rewrite app_nil_r, Hv. split_and!; [done..|lia|lia].
Qed.

(** ** Options *)

(** Every option that is accepted keeps the configuration acceptable. *)
Lemma applyOption_acceptable argument value c k c' k' :
  acceptable c -> applyOption argument value c k = Some (c', k', true) ->
  acceptable c' /\ fixedPart c' = fixedPart c /\ k' = k.
Proof.
  intros (H1 & H2 & H3 & H4 & H5). unfold applyOption. do 2 (case_decide; [by intros [= <- <-]|]).
  case_decide.
  { destruct (parseByteSize value) as [n|] eqn:E; intros [= <- <-].
    apply parseByteSize_iff in E as (ds & sfx & m & _ & _ & Hd & Hm & -> & Hlt).
    pose proof (decimalValue_nonneg _ Hd). pose proof (multiplierOf_pos _ _ Hm).
    split; [|done]. unfold acceptable, maxSize. cbn. split_and!; [lia..|nia|lia|done]. }
  case_decide.
  { destruct (saveSeconds value) as [secs|] eqn:E; [|done]. unfold millisOfSeconds.
    destruct (_ && _) eqn:Ef; [|done]. intros [= <- <-]. apply andb_prop in Ef as [? ?].
    split; [|done]. unfold acceptable. cbn [withSaveInterval port threadCount shardCount maxMemoryBytes saveInterval].
    split_and!; [lia..|]. exists secs. split_and!; [done| |lia].
    revert E. unfold saveSeconds. destruct (match stoll value with Some r => r | None => _ end) as [v used].
    destruct (_ || _) eqn:Eo; [done|]. intros [= <-]. apply orb_false_elim in Eo as [_ ?]. lia. }
  unfold numericOption. destruct (_ ≫= _) as [n|]; [|done].
  destruct (bool_decide (argument = bs "--port")).
  { destruct (_ || _) eqn:Er; [done|]. apply orb_false_elim in Er as [? ?]. intros [= <- <-].
    split; [|done]. unfold acceptable. cbn. rewrite Z.mod_small by lia. split_and!; [lia..|done]. }
  destruct (_ || _) eqn:Er; [done|]. apply orb_false_elim in Er as [? ?].
  case_decide; intros [= <- <-]; (split; [|done]); unfold acceptable; cbn; (split_and!; [lia..|done]).
Qed.

Lemma parseArguments_acceptable arguments c k c' k' :
  acceptable c -> parseArguments arguments c k = Some (c', k', false, true) ->
  acceptable c' /\ fixedPart c' = fixedPart c /\ k' = k.
Proof.
  revert c k. induction arguments as [arguments IH] using (well_founded_induction (Wf_nat.well_founded_ltof _ length)).
  intros c k Hc. destruct arguments as [|argument rest]; cbn [parseArguments]; [by intros [= <- <-]|].
  case_decide; [done|]. destruct (takesValue argument); [|done]. destruct rest as [|value rest]; [done|].
  destruct (applyOption argument value c k) as [[[c1 k1] ok]|] eqn:E; [|done]. cbn [mbind option_bind].
  destruct ok; [|done]. destruct (applyOption_acceptable _ _ _ _ _ _ Hc E) as (Hc1 & Hf1 & ->). intros Hp.
  destruct (IH rest ltac:(unfold Wf_nat.ltof; cbn; lia) _ _ Hc1 Hp) as (? & Hf & ?). by rewrite Hf.
Qed.

(** ** Writing a configuration down *)

Lemma parseArguments_option argument value rest c k c' :
  argument <> bs "--help" -> argument <> bs "-h" -> takesValue argument = true ->
  applyOption argument value c k = Some (c', k, true) ->
  parseArguments (argument :: value :: rest) c k = parseArguments rest c' k.
Proof.
  intros H1 H2 H3 H4. cbn [parseArguments]. rewrite decide_False by tauto. rewrite H3, H4. done.
Qed.

Lemma numericOption_to_string argument n c k :
  let isPort := bool_decide (argument = bs "--port") in
  (if isPort then 0 else 1) <= n <= (if isPort then 65535 else 4096) ->
  numericOption argument (to_string n) c k =
  (if isPort then withPort n c
   else if decide (argument = bs "--shards") then withShards n c else withThreads n c, k, true).
Proof.
  intros isPort Hn. unfold numericOption. fold isPort. unfold stoi.
  rewrite stoSigned_to_string by (destruct isPort; lia). cbn [mbind option_bind]. rewrite Z.eqb_refl.
  rewrite (proj2 (Z.ltb_ge _ _)), (proj2 (Z.ltb_ge _ _)) by (destruct isPort; lia). cbn [orb].
  destruct isPort; [by rewrite Z.mod_small by lia|]. by case_decide.
Qed.

Lemma saveSeconds_to_string n : 0 <= n < 2 ^ 63 -> saveSeconds (to_string n) = Some n.
Proof.
  intros Hn. unfold saveSeconds, stoll. rewrite stoSigned_to_string by lia.
  rewrite Z.eqb_refl. by rewrite (proj2 (Z.ltb_ge _ _)) by lia.
Qed.

Lemma parse_render c k :
  acceptable c -> fixedPart c = fixedPart defaultConfig ->
  parseArguments (render c) defaultConfig k = Some (c, k, false, true).
Proof.
  intros (Hp & Ht & Hs & Hm & secs & Hi & Hsecs & Hfit) Hf. unfold render. unfold maxSize in Hm.
  rewrite (parseArguments_option (bs "--port") _ _ _ _ (withPort (port c) defaultConfig)); [|done..|].
  2: { unfold applyOption. rewrite !decide_False by done. f_equal. by apply numericOption_to_string. }
  erewrite (parseArguments_option (bs "--bind")); [|done..|].
  2: { unfold applyOption. by rewrite decide_True. }
  erewrite (parseArguments_option (bs "--threads")); [|done..|].
  2: { unfold applyOption. rewrite !decide_False by done. f_equal. by apply (numericOption_to_string (bs "--threads")). }
  erewrite (parseArguments_option (bs "--dbfile")); [|done..|].
  2: { unfold applyOption. rewrite decide_False by done. by rewrite decide_True. }
  erewrite (parseArguments_option (bs "--save-interval")); [|done..|].
  2: { unfold applyOption. rewrite !(decide_False (P := bs "--save-interval" = _)) by done. rewrite decide_True by done.
       rewrite Hi, Z.div_mul, saveSeconds_to_string by lia. unfold millisOfSeconds.
       rewrite (proj2 (Z.leb_le _ _)), (proj2 (Z.ltb_lt _ _)) by lia. done. }
  erewrite (parseArguments_option (bs "--max-memory")); [|done..|].
  2: { unfold applyOption. do 2 rewrite decide_False by done. rewrite decide_True by done.
       by rewrite parseByteSize_to_string by lia. }
  erewrite (parseArguments_option (bs "--shards")); [|done..|].
  2: { unfold applyOption. rewrite !decide_False by done. f_equal. by apply (numericOption_to_string (bs "--shards")). }
  cbn [parseArguments]. destruct c as [? ? ? ? ? ? ? ? ? ? ? ?]. cbn in *. injection Hf as -> -> -> -> ->.
  rewrite Hi. done.
Qed.

End ServerOptions.
