(* ===== verification/Startup.v ===== *)
(** * Starting the server

    [Server::start], [closeSockets] and the destructor of [Server.cpp].  What the
    socket calls answer is an argument; the descriptors they return and the calls of
    [close] are recorded, so that a leak is visible.  The file system is the one of
    [SaveLoad.v]. *)
From S2P Require Import Prelude.
From S2P Require Import Text.
From S2P Require Import Config.
From S2P Require Import Table.
From S2P Require Import RecencyList.
From S2P Require Import TableInv.
From S2P Require Import Store.
From S2P Require Import StoreSpec.
From S2P Require Import StoreBulk.
From S2P Require Import Snapshot.
From S2P Require Import SaveLoad.
From S2P Require Import SaveLoadSpec.

#[local] Open Scope Z_scope.

Module Startup.

(** ** State *)

(** The answers of the socket calls [start] makes, in the order it makes them. *)
Record SocketCalls := mkCalls {
  socketResult : Errno + Z;
  setsockoptResult : option Errno;
  inetPton : bytes -> bool;
  bindResult : option Errno;
  listenResult : option Errno;
  getsocknameResult : Errno + Z;
  pipeResult : Errno + Z * Z
}.

(** The members of [Server].  A pool, sweeper or scheduler that was made and started
    is recorded by the parameters it was given.  [opened] and [closed] are the
    descriptors obtained and given back. *)
Record t := mk {
  database_ : Database.t;
  config_ : ServerConfig;
  pool_ : option (Z * Z);
  sweeper_ : option SweeperConfig;
  store_ : option SnapshotStore.t;
  scheduler_ : option Z;
  listenFd_ : Z;
  shutdownPipe_ : Z * Z;
  boundPort_ : Z;
  restoredEntryCount_ : Z;
  error_ : bytes;
  opened : list Z;
  closed : list Z
}.

Definition new (database : Database.t) (config : ServerConfig) : t :=
  mk database config None None None None (-1) (-1, -1) 0 0 [] [] [].

Definition withDatabase (db : Database.t) (s : t) : t :=
  mk db (config_ s) (pool_ s) (sweeper_ s) (store_ s) (scheduler_ s) (listenFd_ s) (shutdownPipe_ s)
    (boundPort_ s) (restoredEntryCount_ s) (error_ s) (opened s) (closed s).
Definition withStore (store : option SnapshotStore.t) (s : t) : t :=
  mk (database_ s) (config_ s) (pool_ s) (sweeper_ s) store (scheduler_ s) (listenFd_ s) (shutdownPipe_ s)
    (boundPort_ s) (restoredEntryCount_ s) (error_ s) (opened s) (closed s).
Definition withRestored (n : Z) (s : t) : t :=
  mk (database_ s) (config_ s) (pool_ s) (sweeper_ s) (store_ s) (scheduler_ s) (listenFd_ s) (shutdownPipe_ s)
    (boundPort_ s) n (error_ s) (opened s) (closed s).
Definition withError (e : bytes) (s : t) : t :=
  mk (database_ s) (config_ s) (pool_ s) (sweeper_ s) (store_ s) (scheduler_ s) (listenFd_ s) (shutdownPipe_ s)
    (boundPort_ s) (restoredEntryCount_ s) e (opened s) (closed s).
Definition withListen (fd : Z) (s : t) : t :=
  mk (database_ s) (config_ s) (pool_ s) (sweeper_ s) (store_ s) (scheduler_ s) fd (shutdownPipe_ s)
    (boundPort_ s) (restoredEntryCount_ s) (error_ s) (opened s ++ [fd]) (closed s).
Definition withPort (port : Z) (s : t) : t :=
  mk (database_ s) (config_ s) (pool_ s) (sweeper_ s) (store_ s) (scheduler_ s) (listenFd_ s) (shutdownPipe_ s)
    port (restoredEntryCount_ s) (error_ s) (opened s) (closed s).
Definition withPipe (p : Z * Z) (s : t) : t :=
  mk (database_ s) (config_ s) (pool_ s) (sweeper_ s) (store_ s) (scheduler_ s) (listenFd_ s) p
    (boundPort_ s) (restoredEntryCount_ s) (error_ s) (opened s ++ [p.1; p.2]) (closed s).
Definition withThreads (pool : option (Z * Z)) (sweeper : option SweeperConfig) (scheduler : option Z) (s : t) : t :=
  mk (database_ s) (config_ s) pool sweeper (store_ s) scheduler (listenFd_ s) (shutdownPipe_ s)
    (boundPort_ s) (restoredEntryCount_ s) (error_ s) (opened s) (closed s).

(** ** Operations *)

(** [if (fd >= 0) { ::close(fd); fd = -1; }] *)
Definition closing (fd : Z) : list Z := if 0 <=? fd then [fd] else [].
Definition afterClosing (fd : Z) : Z := if 0 <=? fd then -1 else fd.

Definition closeSockets (s : t) : t :=
  let '(r, w) := shutdownPipe_ s in
  mk (database_ s) (config_ s) (pool_ s) (sweeper_ s) (store_ s) (scheduler_ s) (afterClosing (listenFd_ s))
    (afterClosing r, afterClosing w) (boundPort_ s) (restoredEntryCount_ s) (error_ s) (opened s)
    (closed s ++ closing (listenFd_ s) ++ closing r ++ closing w).

(** The destructor. *)
Definition destroy (s : t) : t := closeSockets s.

Definition describe `{FileSystem} (what : bytes) (e : Errno) : bytes := what ++ bs " failed: " ++ strerror e.

(** [error_ = ...; closeSockets(); return false;] *)
Definition abandon (error : bytes) (s : t) : t * bool := (closeSockets (withError error s), false).

(** The part of [start] that opens the socket. *)
Definition openSockets `{FileSystem} (calls : SocketCalls) (s : t) : t * bool :=
  match socketResult calls with
  | inl e => (withError (describe (bs "socket") e) s, false)
  | inr fd =>
      let s := withListen fd s in
      match setsockoptResult calls with
      | Some e => abandon (describe (bs "setsockopt(SO_REUSEADDR)") e) s
      | None =>
          if negb (inetPton calls (bindAddress (config_ s)))
          then abandon (bs "invalid bind address: " ++ bindAddress (config_ s)) s
          else
            match bindResult calls with
            | Some e => abandon (describe (bs "bind") e) s
            | None =>
                match listenResult calls with
                | Some e => abandon (describe (bs "listen") e) s
                | None =>
                    match getsocknameResult calls with
                    | inl e => abandon (describe (bs "getsockname") e) s
                    | inr port =>
                        let s := withPort port s in
                        match pipeResult calls with
                        | inl e => abandon (describe (bs "pipe") e) s
                        | inr p =>
                            let s := withPipe p s in
                            let c := config_ s in
                            let sweeper := if 0 <? interval (sweeper c) then Some (sweeper c) else None in
                            let scheduler :=
                              match store_ s with
                              | Some _ => if 0 <? saveInterval c then Some (saveInterval c) else None
                              | None => None
                              end in
                            (withThreads (Some (threadCount c, maxQueuedConnections c)) sweeper scheduler s, true)
                        end
                    end
                end
            end
      end
  end.

(** The part before it: the memory limit and the snapshot. *)
Definition prepare `{Platform} `{FileSystem} `{SystemClock} (fuel : nat) (r : Readings) (now : time_point)
    (s : t) : IO (t * bool) :=
  db ← lift (Database.setMaxMemory (database_ s) (maxMemoryBytes (config_ s)));
  let s := withDatabase db s in
  let path := snapshotPath (config_ s) in
  if decide (path = []) then mret (s, true)
  else
    let store := SnapshotStore.new path in
    let s := withStore (Some store) s in
    if restoreOnStart (config_ s) then
      loaded ← SnapshotStore.load fuel store (database_ s) r now;
      let '(db, outcome) := loaded in
      match SnapshotStore.status outcome with
      | SnapshotStore.Failed =>
          mret (withStore None (withError (bs "cannot load snapshot '" ++ path ++ bs "': "
                  ++ SnapshotStore.loadError outcome) (withDatabase db s)), false)
      | _ => mret (withRestored (SnapshotStore.entriesLoaded outcome) (withDatabase db s), true)
      end
    else mret (s, true).

Definition start `{Platform} `{FileSystem} `{SystemClock} (fuel : nat) (r : Readings) (now : time_point)
    (calls : SocketCalls) (s : t) : IO (t * bool) :=
  prepared ← prepare fuel r now s;
  let '(s, ok) := prepared in
  if (ok : bool) then mret (openSockets calls s) else mret (s, false).

(** ** Lemmas *)

(** What the server still has open. *)
Definition held (s : t) : list Z := closing (listenFd_ s) ++ closing (shutdownPipe_ s).1 ++ closing (shutdownPipe_ s).2.

(** Everything obtained has been given back or is still held. *)
Definition accounted (s : t) : Prop := opened s ≡ₚ closed s ++ held s.

(** Descriptors are not negative. *)
Definition validCalls (calls : SocketCalls) : Prop :=
  (forall fd, socketResult calls = inr fd -> 0 <= fd) /\
  (forall p, pipeResult calls = inr p -> 0 <= p.1 /\ 0 <= p.2).

Definition idle (s : t) : Prop :=
  listenFd_ s = -1 /\ shutdownPipe_ s = (-1, -1) /\ pool_ s = None /\ sweeper_ s = None /\ scheduler_ s = None.

Lemma closing_nonneg fd : 0 <= fd -> closing fd = [fd].
Proof. intros H. unfold closing. by rewrite (proj2 (Z.leb_le _ _) H). Qed.

Lemma closing_after fd : closing (afterClosing fd) = [].
Proof. unfold closing, afterClosing. destruct (0 <=? fd) eqn:E; [done|by rewrite E]. Qed.

Lemma closeSockets_accounted s : accounted s -> accounted (closeSockets s) /\ held (closeSockets s) = [].
Proof.
  unfold accounted, held, closeSockets. destruct (shutdownPipe_ s) as [r w]. cbn. intros E.
  rewrite !closing_after. cbn. by rewrite app_nil_r.
Qed.

Lemma abandon_accounted error s s' ok :
  abandon error s = (s', ok) -> accounted s -> 0 <= listenFd_ s -> shutdownPipe_ s = (-1, -1) ->
  pool_ s = None -> sweeper_ s = None -> scheduler_ s = None -> error <> [] ->
  ok = false /\ accounted s' /\ idle s' /\ error_ s' <> [].
Proof.
  unfold abandon. intros [= <- <-] Ha Hl Hp H1 H2 H3 He.
  destruct (closeSockets_accounted (withError error s) Ha) as [Ha' _].
  split_and!; [done..| |]; unfold idle, closeSockets; cbn; rewrite Hp; cbn; [|done].
  unfold afterClosing. by rewrite (proj2 (Z.leb_le _ _) Hl).
Qed.

(** Whatever the socket calls answer: nothing is lost, and a failure leaves nothing
    open and says why. *)
Lemma openSockets_spec `{FileSystem} calls s s' ok :
  openSockets calls s = (s', ok) -> validCalls calls -> idle s -> accounted s ->
  accounted s' /\ database_ s' = database_ s /\ store_ s' = store_ s /\
  if ok then is_Some (pool_ s') /\ 0 <= listenFd_ s' else idle s' /\ error_ s' <> [].
Proof.
  intros Hrun [Hv1 Hv2] (I1 & I2 & I3 & I4 & I5) Ha. revert Hrun. unfold openSockets.
  destruct (socketResult calls) as [e|fd]; [by intros [= <- <-]; split_and!|].
  specialize (Hv1 fd eq_refl). set (s1 := withListen fd s).
  assert (accounted s1) as Ha1.
  { unfold accounted, held, s1, withListen in *. cbn. rewrite I1, I2 in *. rewrite closing_nonneg by done. cbn in *.
    rewrite Ha. by rewrite app_nil_r. }
  assert (forall error s2, error <> [] -> s2 = s1 \/ (exists port, s2 = withPort port s1) ->
    abandon error s2 = (s', ok) ->
    accounted s' /\ database_ s' = database_ s /\ store_ s' = store_ s /\
    if ok then is_Some (pool_ s') /\ 0 <= listenFd_ s' else idle s' /\ error_ s' <> []) as Hgive.
  { intros error s2 He Hs2 Hab. pose proof Hab as Hab'. unfold abandon in Hab'. injection Hab' as <- <-.
    destruct Hs2 as [->|[port ->]];
      (destruct (abandon_accounted _ _ _ _ Hab) as (_ & H1 & H2 & H3); [done..|]; split_and!; try done;
       unfold closeSockets; cbn; by rewrite I2). }
  destruct (setsockoptResult calls) as [e|]; [by apply Hgive; [|left]|].
  destruct (inetPton calls _); cbn [negb]; [|by apply Hgive; [|left]].
  destruct (bindResult calls) as [e|]; [by apply Hgive; [|left]|].
  destruct (listenResult calls) as [e|]; [by apply Hgive; [|left]|].
  destruct (getsocknameResult calls) as [e|port]; [by apply Hgive; [|left]|].
  destruct (pipeResult calls) as [e|p]; [by apply Hgive; [|right; eexists]|].
  destruct (Hv2 p eq_refl) as [Hp1 Hp2]. intros [= <- <-]. split_and!; [|done..| |by eexists|done].
  - unfold accounted, held in *. cbn in *. rewrite I1, I2 in *. rewrite !closing_nonneg in * by done. cbn in *.
    by rewrite Ha, app_nil_r, <- app_assoc.
  - done.
Qed.

Section Starting.
Context `{Platform} `{FileSystem} `{SystemClock}.

(** The server after the snapshot was read, and whether it goes on. *)
Definition afterLoad (s : t) (db : Database.t) (o : SnapshotStore.LoadOutcome) : t * bool :=
  let path := snapshotPath (config_ s) in
  let s := withStore (Some (SnapshotStore.new path)) s in
  match SnapshotStore.status o with
  | SnapshotStore.Failed =>
      (withStore None (withError (bs "cannot load snapshot '" ++ path ++ bs "': "
         ++ SnapshotStore.loadError o) (withDatabase db s)), false)
  | _ => (withRestored (SnapshotStore.entriesLoaded o) (withDatabase db s), true)
  end.

(** [start] with a snapshot to restore, in terms of [load]. *)
Lemma start_load fuel r now calls s w db1 db2 o w' tr :
  Database.setMaxMemory (database_ s) (maxMemoryBytes (config_ s)) = Some db1 ->
  snapshotPath (config_ s) <> [] -> restoreOnStart (config_ s) = true ->
  SnapshotStore.load fuel (SnapshotStore.new (snapshotPath (config_ s))) db1 r now w = Some ((db2, o), w', tr) ->
  start fuel r now calls s w =
  Some (let '(s', ok) := afterLoad s db2 o in if ok then openSockets calls s' else (s', false), w', tr).
Proof.
  intros Hm Hp Hr Hl. unfold start, prepare. unfold mbind at 1, IO_bind.
  unfold mbind at 1, IO_bind. unfold lift at 1. rewrite Hm. cbn [config_ withDatabase database_].
  rewrite decide_False by done. cbn [config_ withDatabase withStore database_]. rewrite Hr.
  unfold mbind at 1, IO_bind. rewrite Hl. unfold afterLoad.
  destruct (SnapshotStore.status o); cbn; rewrite ?app_nil_r; done.
Qed.

(** [start] without one. *)
Lemma start_plain fuel r now calls s w db1 :
  Database.setMaxMemory (database_ s) (maxMemoryBytes (config_ s)) = Some db1 ->
  snapshotPath (config_ s) = [] \/ restoreOnStart (config_ s) = false ->
  exists store, start fuel r now calls s w = Some (openSockets calls (withStore store (withDatabase db1 s)), w, []) /\
    (snapshotPath (config_ s) = [] -> store = store_ s).
Proof.
  intros Hm Hor. unfold start, prepare. unfold mbind at 1, IO_bind.
  unfold mbind at 1, IO_bind. unfold lift at 1. rewrite Hm. cbn [config_ withDatabase database_].
  destruct (decide (snapshotPath (config_ s) = [])) as [E|E].
  - exists (store_ s). split; [|done]. by destruct s.
  - cbn [config_ withDatabase withStore]. destruct Hor as [? | ->]; [done|].
    exists (Some (SnapshotStore.new (snapshotPath (config_ s)))). split; [done|]. done.
Qed.

Local Ltac fresh_tac := split; [by repeat split|]; split; [unfold accounted; reflexivity|done].

Lemma start_clean fuel r now calls db config w s' ok w' tr :
  validCalls calls -> start fuel r now calls (new db config) w = Some ((s', ok), w', tr) ->
  accounted s' /\ if ok then is_Some (pool_ s') /\ 0 <= listenFd_ s' else idle s' /\ error_ s' <> [].
Proof.
  intros Hv Hrun. revert Hrun. unfold start. unfold mbind at 1, IO_bind.
  destruct (prepare fuel r now (new db config) w) as [[[[s1 ok1] w1] t1]|] eqn:Ep; [|done].
  assert (idle s1 /\ accounted s1 /\ (ok1 = false -> error_ s1 <> [])) as (Hi & Ha & Herr).
  { revert Ep. unfold prepare. unfold mbind at 1, IO_bind.
    destruct (lift _ _) as [[[db1 w2] t2]|]; [|done]. cbn [config_ withDatabase new].
    destruct (decide _); [intros [= <- <- _ _]; fresh_tac|]. cbn [config_ withDatabase withStore new].
    destruct (restoreOnStart config); [|intros [= <- <- _ _]; fresh_tac].
    unfold mbind at 1, IO_bind. destruct (SnapshotStore.load _ _ _ _ _ _) as [[[[db2 o] w3] t3]|]; [|done].
    destruct (SnapshotStore.status o); intros [= <- <- _ _]; fresh_tac. }
  destruct ok1; cbn.
  - intros [= Eo _ _]. by destruct (openSockets_spec _ _ _ _ Eo Hv Hi Ha) as (? & _ & _ & ?).
  - intros [= <- <- _ _]. auto.
Qed.

End Starting.

End Startup.
