(* ===== verification/ServerProgram.v ===== *)
(** * The server program

    [main] of [server/main.cpp], in two halves: up to the call of [Server::run], and
    after it.  In between the database changes as the requests say; that half is the
    subject of the other files. *)
From S2P Require Import Prelude.
From S2P Require Import Text.
From S2P Require Import Numbers.
From S2P Require Import Config.
From S2P Require Import ServerOptions.
From S2P Require Import Table.
From S2P Require Import RecencyList.
From S2P Require Import TableInv.
From S2P Require Import Store.
From S2P Require Import StoreSpec.
From S2P Require Import StoreBulk.
From S2P Require Import Snapshot.
From S2P Require Import SnapshotSpec.
From S2P Require Import SaveLoad.
From S2P Require Import SaveLoadSpec.
From S2P Require Import Startup.

#[local] Open Scope Z_scope.

Module ServerProgram.

(** The program ends with an exit code, or serves. *)
Inductive Launched := Exits (code : Z) | Serves (server : Startup.t).

(** What is printed before serving. *)
Definition persistenceLine (config : ServerConfig) (restored : Z) : bytes :=
  if decide (snapshotPath config = []) then bs "Persistence: off (no --dbfile)" ++ endl
  else
    bs "Persistence: " ++ snapshotPath config
    ++ (if 0 <? saveInterval config
        then bs ", saving every " ++ to_string (Z.quot (saveInterval config) 1000) ++ bs "s"
        else bs ", manual SAVE only") ++ endl
    ++ (if 0 <? restored then bs "Restored " ++ to_string restored ++ bs " keys from the snapshot" ++ endl else []).

Definition memoryLine (config : ServerConfig) : bytes :=
  if maxMemoryBytes config =? 0 then bs "Memory limit: none" ++ endl
  else bs "Memory limit: " ++ to_string (maxMemoryBytes config) ++ bs " bytes (LRU eviction)" ++ endl.

Definition banner (config : ServerConfig) (server : Startup.t) : bytes :=
  bs "VCache listening on " ++ bindAddress config ++ bs ":" ++ to_string (Startup.boundPort_ server) ++ endl
  ++ to_string (threadCount config) ++ bs " worker threads, "
  ++ to_string (Database.shardCount (Startup.database_ server)) ++ bs " shards" ++ endl
  ++ persistenceLine config (Startup.restoredEntryCount_ server) ++ memoryLine config
  ++ bs "Commands: SET GET DEL EXISTS KEYS SAVE" ++ endl ++ bs "Press Ctrl+C to stop." ++ endl.

(** Up to [server.run()]. *)
Definition launch `{Platform} `{FileSystem} `{SystemClock} (fuel : nat) (r : Readings) (now : time_point)
    (calls : Startup.SocketCalls) (arguments : list bytes) : IO (Launched * Console) :=
  parsed ← lift (ServerOptions.parseArguments arguments defaultConfig (mkConsole [] []));
  let '(config, k, shouldExit, ok) := parsed in
  if negb ok then mret (Exits 1, k)
  else if shouldExit : bool then mret (Exits 0, k)
  else if (0 <? saveInterval config) && bool_decide (snapshotPath config = [])
  then mret (Exits 1, complain (bs "error: --save-interval requires --dbfile" ++ endl) k)
  else
    database ← lift (Database.new HashTable.kDefaultBucketCount (shardCount config));
    started ← Startup.start fuel r now calls (Startup.new database config);
    let '(server, ok) := started in
    if negb ok then mret (Exits 1, complain (bs "error: " ++ Startup.error_ server ++ endl) k)
    else mret (Serves server, print (banner config server) k).

(** What is printed after serving. *)
Definition farewell `{Platform} (config : ServerConfig) (db : Database.t) : bytes :=
  let remaining := Database.size db in
  endl ++ bs "Shutting down. " ++ to_string remaining
  ++ (if remaining =? 1 then bs " key was" else bs " keys were") ++ bs " in memory." ++ endl
  ++ (if 0 <? maxMemoryBytes config
      then bs "Evicted " ++ to_string (Database.evictedCount db) ++ bs " keys, using "
           ++ to_string (Database.memoryUsage db) ++ bs " of " ++ to_string (maxMemoryBytes config) ++ bs " bytes." ++ endl
      else []).

(** After [server.run()]: the exit code. *)
Definition finish `{Platform} `{FileSystem} `{SystemClock} (fuel : nat) (clock : nat -> time_point) (r : Readings)
    (server : Startup.t) (k : Console) : IO (Z * Console) :=
  let db := Startup.database_ server in
  let k := print (farewell (Startup.config_ server) db) k in
  match Startup.store_ server with
  | None => mret (0, k)
  | Some store =>
      saved ← SnapshotStore.save fuel store db clock r;
      let '(store, outcome) := saved in
      if SnapshotStore.ok outcome
      then mret (0, print (bs "Saved " ++ to_string (SnapshotStore.entriesWritten outcome) ++ bs " keys to "
                           ++ SnapshotStore.path_ store ++ endl) k)
      else mret (1, complain (bs "error: final snapshot failed: " ++ SnapshotStore.saveError outcome ++ endl) k)
  end.

End ServerProgram.
