(* ===== verification/ProgramClaims.v ===== *)
(** * The server program: theorems

    The options, the start of the server, and what a run of the program leaves for
    the next. *)
From S2P Require Import Prelude.
From S2P Require Import Text.
From S2P Require Import Numbers.
From S2P Require Import Config.
From S2P Require Import ServerOptions.
From S2P Require Import Table.
From S2P Require Import RecencyList.
From S2P Require Import TableInv.
From S2P Require Import Store.
From S2P Require Import StoreSpec.
From S2P Require Import StoreBulk.
From S2P Require Import StoreClaims.
From S2P Require Import Snapshot.
From S2P Require Import SnapshotSpec.
From S2P Require Import SaveLoad.
From S2P Require Import SaveLoadSpec.
From S2P Require Import SnapshotClaims.
From S2P Require Import Startup.
From S2P Require Import ServerProgram.

#[local] Open Scope Z_scope.

(** ** Options *)

(** A memory size is accepted exactly when it is decimal digits followed by one of
    the suffixes, in any case, and the product fits in 64 bits; the size is then that
    product, with no wrap-around and no other reading. *)
Theorem byteSize_exact text n :
  ServerOptions.parseByteSize text = Some n <->
  exists digits suffix multiplier, text = digits ++ suffix /\ digits <> [] /\
    Forall (fun c => isDigit c = true) digits /\
    ServerOptions.multiplierOf (map ServerOptions.upperLetter suffix) = Some multiplier /\
    n = decimalValue digits * multiplier /\ n < 2 ^ 64.
Proof. apply ServerOptions.parseByteSize_iff. Qed.

(** Every configuration the options can describe can be written down: its options
    are accepted without a message and give it back. *)
Theorem options_roundtrip c k :
  ServerOptions.acceptable c -> ServerOptions.fixedPart c = ServerOptions.fixedPart defaultConfig ->
  ServerOptions.parseArguments (ServerOptions.render c) defaultConfig k = Some (c, k, false, true).
Proof. apply ServerOptions.parse_render. Qed.

Lemma default_acceptable : ServerOptions.acceptable defaultConfig.
Proof. unfold ServerOptions.acceptable, ServerOptions.maxSize. cbn. split_and!; try lia. exists 0. lia. Qed.

(** C34: whatever arguments the program accepts, the configuration is within the ranges
    of its members, the members without an option have their defaults, nothing was
    printed, and the database it asks for can be built, with at least as many shards
    as asked for. *)
Theorem accepted_options_usable arguments k c k' :
  ServerOptions.parseArguments arguments defaultConfig k = Some (c, k', false, true) ->
  ServerOptions.acceptable c /\ ServerOptions.fixedPart c = ServerOptions.fixedPart defaultConfig /\ k' = k /\
  exists db, Database.new HashTable.kDefaultBucketCount (shardCount c) = Some db /\
    shardCount c <= Database.shardCount db < 2 * shardCount c.
Proof.
  intros Hp. destruct (ServerOptions.parseArguments_acceptable _ _ _ _ _ default_acceptable Hp) as (Ha & Hf & Hk).
  split_and!; [done..|]. destruct Ha as (_ & _ & Hs & _).
  destruct (new_db_rep HashTable.kDefaultBucketCount (shardCount c)) as (db & Hdb & _ & _ & Hlen);
    [vm_compute; done|lia|]. exists db. split; [done|]. unfold Database.shardCount. rewrite Hlen, Z.max_l by lia.
  destruct (decide (shardCount c = 1)) as [->|H1]; [done|].
  pose proof (Z.log2_up_spec (shardCount c) ltac:(lia)) as [Hlo Hhi].
  assert (0 < Z.log2_up (shardCount c)) as Hpos by (apply Z.log2_up_pos; lia).
  replace (Z.log2_up (shardCount c)) with (Z.succ (Z.pred (Z.log2_up (shardCount c)))) at 2 by lia.
  rewrite Z.pow_succ_r by lia. lia.
Qed.

(** A save interval that the option parser accepts as a number of seconds can
    overflow the count of milliseconds it is stored as; an empty value is taken for
    zero. *)
Theorem saveInterval_overflow seconds c k :
  2 ^ 63 <= seconds * 1000 -> seconds < 2 ^ 63 ->
  ServerOptions.applyOption (bs "--save-interval") (to_string seconds) c k = None /\
  ServerOptions.applyOption (bs "--save-interval") [] c k = Some (withSaveInterval 0 c, k, true).
Proof.
  intros Hbig Hfit. split; [|reflexivity]. unfold ServerOptions.applyOption.
  rewrite !(decide_False (P := bs "--save-interval" = _)) by done. rewrite decide_True by done.
  rewrite ServerOptions.saveSeconds_to_string by lia. unfold ServerOptions.millisOfSeconds.
  rewrite andb_comm, (proj2 (Z.ltb_ge _ _)) by done. done.
Qed.

(** ** Starting *)

Section Starting.
Context {FS : FileSystem} `{PV : !PosixView} `{PL : !PosixLaws} {SC : SystemClock} {PF : Platform}.

(** The snapshot file can be read to its end and decoded to an answer. *)
Definition readable (fuel : nat) (r : Readings) (path : bytes) (w : World) : Prop :=
  forall data, file w path = Some data -> (length data + interrupts w < fuel)%nat /\
    len data <= maxEntries /\ exists res, snapshot.decode r data = Some res.

(** Reading a snapshot at the start, in terms of what [load] can do. *)
Lemma start_reads fuel r now calls db m rs config w :
  dbRep db m rs -> 0 <= maxMemoryBytes config -> snapshotPath config <> [] -> restoreOnStart config = true ->
  readable fuel r (snapshotPath config) w ->
  exists db1 m1 rs1 db2 o w' t,
    Database.setMaxMemory db (maxMemoryBytes config) = Some db1 /\ dbRep db1 m1 rs1 /\
    Database.maxMemoryBytes_ db1 = maxMemoryBytes config /\
    loadedOrNot (SnapshotStore.new (snapshotPath config)) db1 r now w (db2, o) w' /\ Forall (sameFiles w) t /\
    Startup.start fuel r now calls (Startup.new db config) w =
      Some (let '(s', ok) := Startup.afterLoad (Startup.new db config) db2 o in
            if ok then Startup.openSockets calls s' else (s', false), w', t).
Proof.
  intros HD Hmax Hpath Hres Hread.
  destruct (setMaxMemory_rep db m rs (maxMemoryBytes config) HD Hmax) as (db1 & rs1 & vss & Hset & HD1 & Hm1 & _).
  destruct (load_runs fuel (SnapshotStore.new (snapshotPath config)) db1 r now w)
    as ([db2 o] & w' & t & Hload & Ht & HQ).
  { intros data Hd. destruct (Hread data Hd) as (Hf & Hsz & res & Hdec). split; [done|]. exists res. split; [done|].
    intros es ->. destruct (restore_rep db1 _ rs1 es now HD1) as (db3 & rs3 & -> & _); [|by eexists].
    etransitivity; [|exact Hsz]. eapply decode_count; [unfold maxEntries in Hsz; lia|done]. }
  eexists db1, _, rs1, db2, o, w', t. split_and!; [done..|].
  by apply (Startup.start_load fuel r now calls (Startup.new db config) w db1 db2 o w' t).
Qed.



(** C31: the server does not start over a damaged snapshot.  When the file is refused by
    the decoder, no socket is opened, no thread is started, no store is kept that could
    overwrite the file, no entry was brought in, no file has changed, and the message
    says what was wrong with it. *)
Theorem damaged_snapshot_refused fuel r now calls db m rs config w data error :
  dbRep db m rs -> 0 <= maxMemoryBytes config -> snapshotPath config <> [] -> restoreOnStart config = true ->
  file w (snapshotPath config) = Some data -> (length data + interrupts w < fuel)%nat -> len data <= maxEntries ->
  snapshot.decode r data = Some (inl error) ->
  exists s w' t, Startup.start fuel r now calls (Startup.new db config) w = Some ((s, false), w', t) /\
    Forall (sameFiles w) t /\ Startup.idle s /\ Startup.opened s = [] /\ Startup.store_ s = None /\
    Database.setMaxMemory db (maxMemoryBytes config) = Some (Startup.database_ s) /\
    exists reason, Startup.error_ s = bs "cannot load snapshot '" ++ snapshotPath config ++ bs "': " ++ reason /\
      (reason = error \/ exists what e, reason = describeErrno what (snapshotPath config) e).
Proof.
  intros HD Hmax Hp Hr Hfile Hfuel Hsz Hdec.
  destruct (start_reads fuel r now calls db m rs config w HD Hmax Hp Hr)
    as (db1 & m1 & rs1 & db2 & o & w' & t & Hset & _ & _ & HL & Ht & Hrun).
  { intros x Hx. rewrite Hfile in Hx. injection Hx as <-. eauto. }
  unfold loadedOrNot in HL. unfold Startup.afterLoad in Hrun. destruct (SnapshotStore.status o).
  - destruct HL as (x & es & Hx & Hd & _). cbn in Hx. rewrite Hfile in Hx. by simplify_eq.
  - destruct HL as [_ Hnone]. cbn in Hnone. congruence.
  - destruct HL as [-> Hwhy]. eexists _, w', t. split; [exact Hrun|]. split_and!; [done|by repeat split|done..|].
    exists (SnapshotStore.loadError o). split; [done|]. destruct Hwhy as [Herr|(x & Hx & Hd)]; [by right|left].
    cbn in Hx. rewrite Hfile in Hx. by simplify_eq.
Qed.

(** ** A restart *)






End Starting.

(** ** Witnesses *)

Definition sampleConfig : ServerConfig :=
  mkConfig (bs "0.0.0.0") 0 128 (8 * 1024 * 1024) 8 128 defaultSweeper (bs "dump.vcs") 60000 true 5 1048576.

Lemma sampleConfig_acceptable : ServerOptions.acceptable sampleConfig.
Proof. unfold ServerOptions.acceptable, ServerOptions.maxSize. cbn. split_and!; try lia. exists 60. lia. Qed.

Lemma options_roundtrip_witness :
  ServerOptions.parseArguments (ServerOptions.render sampleConfig) defaultConfig (mkConsole [] [])
    = Some (sampleConfig, mkConsole [] [], false, true).
Proof. exact (options_roundtrip sampleConfig (mkConsole [] []) sampleConfig_acceptable eq_refl). Defined.

Definition sampleArguments : list bytes :=
  [bs "--dbfile"; bs "dump.vcs"; bs "--max-memory"; bs "64kb"; bs "--shards"; bs "5"; bs "--port"; bs " +0"].

Definition argumentsConfig : ServerConfig :=
  withShards 5 (withMaxMemory 65536 (withSnapshotPath (bs "dump.vcs") (withPort 0 defaultConfig))).

Lemma accepted_options_witness : exists db,
  Database.new HashTable.kDefaultBucketCount 5 = Some db /\ 5 <= Database.shardCount db < 10.
Proof.
  destruct (accepted_options_usable sampleArguments (mkConsole [] []) argumentsConfig (mkConsole [] []))
    as (_ & _ & _ & db & Hdb & Hc).
  - vm_compute. reflexivity.
  - exists db. split; [exact Hdb|exact Hc].
Defined.

Lemma saveInterval_overflow_witness :
  ServerOptions.applyOption (bs "--save-interval") (to_string 9223372036854775) defaultConfig (mkConsole [] []) <> None /\
  ServerOptions.applyOption (bs "--save-interval") (to_string 9223372036854776) defaultConfig (mkConsole [] []) = None /\
  ServerOptions.applyOption (bs "--save-interval") [] defaultConfig (mkConsole [] [])
    = Some (withSaveInterval 0 defaultConfig, mkConsole [] [], true).
Proof.
  split; [vm_compute; discriminate|].
  apply (saveInterval_overflow 9223372036854776 defaultConfig (mkConsole [] [])); lia.
Defined.

Definition goodCalls : Startup.SocketCalls :=
  Startup.mkCalls (inr 7) None (fun _ => true) None None (inr 6379) (inr (8, 9)).



(** A snapshot with one byte changed. *)
Definition damagedFile : bytes := <[20%nat := x58]> sampleFile.
Definition damagedWorld : MemWorld := mkMem {[ bs "dump.vcs" := damagedFile ]} ∅ 3 6 2 false.

Lemma damaged_snapshot_witness : exists s w' t,
  Startup.start (H := lp64) (H0 := memory) (H1 := libstdcxx) 1000 (readingsAt 2000) 2000 goodCalls
    (Startup.new sampleDb argumentsConfig) damagedWorld = Some ((s, false), w', t) /\
  Startup.opened s = [] /\ Startup.store_ s = None.
Proof.
  destruct sampleDb_rep as (rs & HD & _).
  destruct (damaged_snapshot_refused (FS := memory) (SC := libstdcxx) (PF := lp64) 1000 (readingsAt 2000) 2000 goodCalls
    sampleDb sampleKeyspace rs argumentsConfig damagedWorld damagedFile
    (match snapshot.decode (H := libstdcxx) (readingsAt 2000) damagedFile with Some (inl e) => e | _ => [] end) HD)
    as (s & w' & t & Hrun & _ & _ & Ho & Hs & _).
  - cbn. lia.
  - discriminate.
  - reflexivity.
  - vm_compute. reflexivity.
  - vm_compute. lia.
  - vm_compute. done.
  - vm_compute. reflexivity.
  - exists s, w', t. split; [exact Hrun|]. split; [exact Ho|exact Hs].
Defined.


