(* ===== verification/Timer.v ===== *)
(** * Threads that work on a timer

    What [ExpirationSweeper] and [SnapshotScheduler] have in common: a thread that
    waits on a condition variable with a time-out, does one pass of work when the
    time is up, and returns when it is asked to.  [start] and [stop] are called by
    one controlling thread; [stop] is three steps, so the thread can run between
    them.  The thread holds the mutex while it evaluates the predicate of
    [wait_for], which is one step.

    The pass, and what other threads do to the data it works on, are parameters;
    the two components are at the end of [Sweeper.v] and [Scheduler.v]. *)
From S2P Require Import Prelude.
From S2P Require Import Trace.

#[local] Open Scope Z_scope.

Module Timer.

(** Where the thread is: not existing (or joined), about to evaluate the predicate,
    waiting, in a pass, returned but not joined. *)
Inductive Thread := NoThread | Checking | Waiting | Working | Returned.

(** Where the controlling thread is in [stop]: not in it, before [notify_all], at
    [join]. *)
Inductive Phase := Idle | Notifying | Joining.

Section Timer.
Context {Body Outcome : Type}.

(** Whether [start] does anything. *)
Context (enabled : Body -> bool).

Record t := mk {
  body : Body;
  running_ : bool;
  stopRequested_ : bool;
  thread_ : Thread;
  stopCall : Phase
}.

Inductive Event := Started | StopRequested | Stopped | Passed (o : Outcome) | Disturbed | Silent.

Definition withThread (w : Thread) (s : t) : t :=
  mk (body s) (running_ s) (stopRequested_ s) w (stopCall s).

(** ** The controlling thread *)

Definition new (b : Body) : t := mk b false false NoThread Idle.

(** [None]: assigning to a thread object that still has a thread terminates the
    process. *)
Definition start (s : t) : option t :=
  if negb (enabled (body s)) then Some s
  else if running_ s then Some s
  else
    match thread_ s with
    | NoThread => Some (mk (body s) true false Checking (stopCall s))
    | _ => None
    end.

(** [stop] up to the release of the mutex. *)
Definition requestStop (s : t) : t :=
  mk (body s) (running_ s) true (thread_ s) Notifying.

(** [notify_all] *)
Definition notify (s : t) : t :=
  mk (body s) (running_ s) (stopRequested_ s)
    (match thread_ s with Waiting => Checking | w => w end) Joining.

(** The rest of [stop], when the thread can be joined or there is none. *)
Definition finishStop (s : t) : option t :=
  match thread_ s with
  | NoThread | Returned => Some (mk (body s) false (stopRequested_ s) NoThread Idle)
  | _ => None
  end.

(** ** The thread *)

(** The predicate is evaluated at the start of [wait_for] or after a wakeup. *)
Definition evaluate (s : t) : t := withThread (if stopRequested_ s then Returned else Waiting) s.

(** The time is up: [wait_for] returns, and the flag is tested. *)
Definition timeUp (s : t) : t := withThread (if stopRequested_ s then Returned else Working) s.

Definition passed (b : Body) (s : t) : t :=
  mk b (running_ s) (stopRequested_ s) Checking (stopCall s).

(** ** Steps *)

Context (pass : Body -> Outcome -> Body -> Prop) (others : Body -> Body -> Prop).

Inductive step : t -> Event -> t -> Prop :=
| step_start s s' : stopCall s = Idle -> start s = Some s' -> step s Started s'
| step_request s : stopCall s = Idle -> step s StopRequested (requestStop s)
| step_notify s : stopCall s = Notifying -> step s Silent (notify s)
| step_join s s' : stopCall s = Joining -> finishStop s = Some s' -> step s Stopped s'
| step_evaluate s : thread_ s = Checking -> step s Silent (evaluate s)
| step_timeUp s : thread_ s = Waiting -> step s Silent (timeUp s)
| step_spurious s : thread_ s = Waiting -> step s Silent (withThread Checking s)
| step_pass s o b : thread_ s = Working -> pass (body s) o b -> step s (Passed o) (passed b s)
| step_others s b : others (body s) b ->
    step s Disturbed (mk b (running_ s) (stopRequested_ s) (thread_ s) (stopCall s)).

(** ** Reference definitions *)

Definition outcomeOf (ev : Event) : option Outcome := match ev with Passed o => Some o | _ => None end.
Definition outcomes (evs : list Event) : list Outcome := omap outcomeOf evs.

(** The steps taken while [stop] has not returned. *)
Definition stopStep (s : t) (ev : Event) (s' : t) : Prop := stopCall s <> Idle /\ step s ev s'.

(** What is left to do before [stop] returns. *)
Definition threadWork (w : Thread) : Z :=
  match w with NoThread | Returned => 0 | Checking => 1 | Waiting | Working => 2 end.
Definition remaining (s : t) : Z :=
  threadWork (thread_ s) + match stopCall s with Idle => 0 | Joining => 1 | Notifying => 2 end.

Definition disturbance (ev : Event) : Z := match ev with Disturbed => 1 | _ => 0 end.

Definition timerInv (s : t) : Prop :=
  (running_ s = false <-> thread_ s = NoThread) /\
  (stopCall s <> Idle -> stopRequested_ s = true) /\
  (thread_ s = Returned -> stopCall s <> Idle) /\
  (stopRequested_ s = true -> stopCall s = Idle -> thread_ s = NoThread) /\
  (stopCall s = Joining -> thread_ s <> Waiting).

(** ** Lemmas *)

Lemma timer_new_inv b : timerInv (new b).
Proof. by split_and!. Qed.

Lemma timer_step_inv s ev s' : timerInv s -> step s ev s' -> timerInv s'.
Proof.
  intros (H1 & H2 & H3 & H4 & H5) Hst. unfold timerInv.
  destruct Hst as [s s' Hi Hs|s Hi|s Hn|s s' Hj Hs|s Hc|s Hw|s Hw|s o b Hw Hp|s b Ho].
  - unfold start in Hs. destruct (enabled (body s)); [cbn in Hs|by injection Hs as <-; split_and!].
    destruct (running_ s) eqn:Er; [injection Hs as <-; rewrite Er; tauto|].
    destruct (thread_ s); try done. injection Hs as <-. cbn. rewrite Hi. split_and!; done.
  - cbn. split_and!; [done..|]. done.
  - cbn. destruct (thread_ s) eqn:Et; split_and!; intuition congruence.
  - unfold finishStop in Hs. destruct (thread_ s) eqn:Et; try done; injection Hs as <-; cbn; split_and!; done.
  - cbn. rewrite Hc in *. destruct (stopRequested_ s) eqn:Er; split_and!; intuition congruence.
  - cbn. rewrite Hw in *. destruct (stopRequested_ s) eqn:Er; split_and!; intuition congruence.
  - cbn. rewrite Hw in *. split_and!; intuition congruence.
  - cbn. rewrite Hw in *. split_and!; intuition congruence.
  - cbn. split_and!; tauto.
Qed.

(** [start] never meets a thread object that is still in use. *)
Lemma start_defined s : timerInv s -> is_Some (start s).
Proof.
  intros (H1 & _). unfold start. destruct (enabled (body s)); [cbn|done].
  destruct (running_ s); [done|]. by rewrite (proj1 H1).
Qed.

Lemma stopStep_remaining s ev s' :
  timerInv s -> stopStep s ev s' -> 1 + remaining s' <= remaining s + disturbance ev.
Proof.
  intros (H1 & H2 & H3 & H4 & H5) [Hnot Hst]. specialize (H2 Hnot). unfold remaining.
  destruct Hst as [s s' Hi Hs|s Hi|s Hn|s s' Hj Hs|s Hc|s Hw|s Hw|s o b Hw Hp|s b Ho]; cbn; try done.
  - rewrite Hn. destruct (thread_ s); cbn; lia.
  - unfold finishStop in Hs. rewrite Hj. destruct (thread_ s); try done; injection Hs as <-; cbn; lia.
  - rewrite Hc, H2. cbn. lia.
  - rewrite Hw, H2. cbn. lia.
  - rewrite Hw. cbn. lia.
  - rewrite Hw. cbn. lia.
  - lia.
Qed.

(** Passes still to come once [stop] has been called: the one under way. *)
Definition underWay (s : t) : Z := match thread_ s with Working => 1 | _ => 0 end.

Lemma stopStep_underWay s ev s' :
  timerInv s -> stopStep s ev s' -> len (option_list (outcomeOf ev)) + underWay s' <= underWay s.
Proof.
  intros (H1 & H2 & H3 & H4 & H5) [Hnot Hst]. specialize (H2 Hnot). unfold underWay, len.
  destruct Hst as [s s' Hi Hs|s Hi|s Hn|s s' Hj Hs|s Hc|s Hw|s Hw|s o b Hw Hp|s b Ho]; cbn; try done.
  - destruct (thread_ s); cbn; lia.
  - unfold finishStop in Hs. destruct (thread_ s); try done; injection Hs as <-; cbn; lia.
  - rewrite Hc, H2. cbn. lia.
  - rewrite Hw, H2. cbn. lia.
  - rewrite Hw. cbn. lia.
  - rewrite Hw. cbn. lia.
Qed.

(** A call of [stop] returns after at most four steps of the thread and of its own,
    with at most one more pass. *)
Lemma stop_bounded s evs s' :
  timerInv s -> runs stopStep s evs s' ->
  len evs <= remaining s + sumZ disturbance evs /\ len (outcomes evs) <= underWay s.
Proof.
  intros HI Hr.
  enough (len evs + remaining s' <= remaining s + sumZ disturbance evs /\
    len (outcomes evs) + underWay s' <= underWay s /\ timerInv s') as (E1 & E2 & _).
  { unfold remaining, underWay in *. destruct (thread_ s'), (stopCall s'); cbn in *; lia. }
  induction Hr as [s|s evs s1 ev s2 Hr IH Hst]; [unfold len; cbn; split_and!; [lia|lia|done]|].
  destruct (IH HI) as (E1 & E2 & HI1).
  pose proof (stopStep_remaining _ _ _ HI1 Hst). pose proof (stopStep_underWay _ _ _ HI1 Hst).
  unfold outcomes in *. rewrite trace_snoc, !len_app, sumZ_app. cbn. change (len [ev]) with 1.
  split_and!; [lia|lia|]. destruct Hst as [_ Hst]. by eapply timer_step_inv.
Qed.

Lemma remaining_le s : stopCall s <> Idle -> remaining s <= 4.
Proof. unfold remaining. destruct (thread_ s), (stopCall s); cbn; lia || done. Qed.

(** Until it has returned, something of it can be done. *)
Lemma stop_progress s :
  stopCall s <> Idle -> (exists o b, pass (body s) o b) ->
  exists ev s', stopStep s ev s' /\ disturbance ev = 0.
Proof.
  intros Hnot (o & b & Hp). unfold stopStep. destruct (thread_ s) eqn:Et.
  2: by eexists _, _; split; [split; [done|by apply step_evaluate]|].
  2: by eexists _, _; split; [split; [done|by apply step_timeUp]|].
  2: by eexists _, _; split; [split; [done|by eapply step_pass]|].
  all: destruct (stopCall s) eqn:Ec; [done| |];
    [by eexists _, _; split; [split; [done|by apply step_notify]|]|];
    eexists _, _; (split; [split; [done|eapply step_join; [done|unfold finishStop; by rewrite Et]]|done]).
Qed.

(** Without a thread there are no passes until the next [start]. *)
Lemma no_thread_no_pass s evs s' :
  thread_ s = NoThread -> runs step s evs s' -> Started ∉ evs -> outcomes evs = [] /\ thread_ s' = NoThread.
Proof.
  intros Ht Hr. induction Hr as [s|s evs s1 ev s2 Hr IH Hst]; intros Hn; [done|].
  apply not_elem_of_app in Hn as [Hn1 Hn2]. destruct (IH Ht Hn1) as [E1 E2].
  unfold outcomes in *. rewrite trace_snoc, E1.
  destruct Hst as [s1 s2 Hi Hs|s1 Hi|s1 Hc|s1 s2 Hj Hs|s1 Hc|s1 Hw|s1 Hw|s1 o b Hw Hp|s1 b Ho];
    cbn; rewrite ?E2; try (split; congruence).
  - destruct Hn2. left.
  - unfold finishStop in Hs. rewrite E2 in Hs. by injection Hs as <-.
Qed.

(** A call of [stop] returns: until it has, something of it can be done; it takes at
    most four steps of the thread and of its own, and at most one pass. *)
Definition stopReturns (s : t) : Prop :=
  stopCall s <> Idle ->
  (exists ev s', stopStep s ev s' /\ disturbance ev = 0) /\
  forall evs s', runs stopStep s evs s' ->
    len evs <= 4 + sumZ disturbance evs /\ len (outcomes evs) <= 1.

(** After it has returned there is no pass until the next [start]. *)
Definition staysStopped (s : t) : Prop :=
  stopCall s = Idle -> stopRequested_ s = true ->
  forall evs s', runs step s evs s' -> Started ∉ evs -> outcomes evs = [].

Lemma timer_stops s :
  timerInv s -> (exists o b, pass (body s) o b) -> stopReturns s /\ staysStopped s.
Proof.
  intros HI Hp. split.
  - intros Hc. split; [by apply stop_progress|]. intros evs s' Hr.
    destruct (stop_bounded s evs s' HI Hr) as [E1 E2]. pose proof (remaining_le s Hc).
    split; [lia|]. unfold underWay in E2. destruct (thread_ s); lia.
  - intros Hc Hs evs s' Hr Hn. destruct HI as (_ & _ & _ & H4 & _).
    by destruct (no_thread_no_pass s evs s' (H4 Hs Hc) Hr Hn).
Qed.

End Timer.

End Timer.
