(* ===== verification/Sweeper.v ===== *)
(** * The expiration sweeper

    [ExpirationSweeper.h] and [ExpirationSweeper.cpp]: the timer of [Timer.v] with
    [Database::removeExpired] as its pass, and a server that sweeps between
    requests. *)
From S2P Require Import Prelude.
From S2P Require Import Trace.
From S2P Require Import Timer.
From S2P Require Import Config.
From S2P Require Import Table.
From S2P Require Import RecencyList.
From S2P Require Import TableInv.
From S2P Require Import TableSpec.
From S2P Require Import TableSweep.
From S2P Require Import Store.
From S2P Require Import StoreSpec.
From S2P Require Import StoreBulk.
From S2P Require Import StoreSweep.
From S2P Require Import Snapshot.
From S2P Require Import SaveLoad.
From S2P Require Import Executor.
From S2P Require Import ExecutorSpec.

#[local] Open Scope Z_scope.

Module ExpirationSweeper.

(** The members beside the thread, and the database they refer to. *)
Record Body := mkBody {
  database_ : Database.t;
  config_ : SweeperConfig;
  totalReclaimed_ : Z;
  passes_ : Z
}.

Definition t := @Timer.t Body.

Definition new (database : Database.t) (config : SweeperConfig) : t :=
  Timer.new (mkBody database
    (if bucketsPerPass config =? 0 then mkSweeperConfig (interval config) 1 else config) 0 0).

(** One round of [sweepLoop] after the wait: the members afterwards and the number
    of entries reclaimed. *)
Definition sweepPass `{Platform} (clock : nat -> time_point) (b : Body) : option (Body * Z) :=
  '(database, reclaimed) ← Database.removeExpired (database_ b) (bucketsPerPass (config_ b)) clock;
  Some (mkBody database (config_ b) (u64 (totalReclaimed_ b + reclaimed)) (u64 (passes_ b + 1)), reclaimed).

Definition pass `{Platform} (b : Body) (reclaimed : Z) (b' : Body) : Prop :=
  exists clock, sweepPass clock b = Some (b', reclaimed).

(** Other threads use the database meanwhile. *)
Definition requests `{Platform} (b b' : Body) : Prop :=
  config_ b' = config_ b /\ totalReclaimed_ b' = totalReclaimed_ b /\ passes_ b' = passes_ b /\
  exists m rs, dbRep (database_ b') m rs.

Definition start : t -> option t := Timer.start (fun _ => true).
Definition step `{Platform} : t -> @Timer.Event Z -> t -> Prop := Timer.step (fun _ => true) pass requests.
Definition stopStep `{Platform} : t -> @Timer.Event Z -> t -> Prop := Timer.stopStep (fun _ => true) pass requests.

(** ** Lemmas *)

Section Lemmas.
Context `{Platform}.

(** The database can be swept, and the counters say what was done. *)
Definition bodyInv (outcomes : list Z) (b : Body) : Prop :=
  (exists m rs, dbRep (database_ b) m rs) /\ 0 < bucketsPerPass (config_ b) /\
  totalReclaimed_ b = u64 (sumZ id outcomes) /\ passes_ b = u64 (len outcomes).

Lemma sweepPass_inv outs clock b b' n :
  bodyInv outs b -> sweepPass clock b = Some (b', n) -> bodyInv (outs ++ [n]) b'.
Proof.
  intros ((m & rs & HD) & Hpos & Ht & Hp). unfold sweepPass.
  destruct (removeExpired_rep _ m rs (bucketsPerPass (config_ b)) clock HD Hpos)
    as (db' & k & rs' & kss & -> & HD' & _). cbn. intros [= <- <-]. unfold bodyInv. cbn.
  rewrite Ht, Hp, !u64_idemp_add_l, sumZ_app, len_app. cbn. rewrite Z.add_0_r. eauto 10.
Qed.

Lemma sweep_defined outs b : bodyInv outs b -> exists n b', pass b n b'.
Proof.
  intros ((m & rs & HD) & Hpos & _).
  destruct (removeExpired_rep _ m rs (bucketsPerPass (config_ b)) (fun _ => 0) HD Hpos)
    as (db' & k & rs' & kss & E & _).
  eexists _, _, (fun _ => 0). unfold sweepPass. by rewrite E.
Qed.

Lemma sweeper_inv db config m rs evs s :
  dbRep db m rs -> 0 <= bucketsPerPass config -> runs step (new db config) evs s ->
  Timer.timerInv s /\ bodyInv (Timer.outcomes evs) (Timer.body s).
Proof.
  intros HD Hn Hr. remember (new db config) as s0 eqn:E0. induction Hr as [s|s evs s1 ev s2 Hr IH Hst]; subst.
  - split; [apply Timer.timer_new_inv|]. cbn. split_and!; [by eauto| |done|done].
    destruct (Z.eqb_spec (bucketsPerPass config) 0); cbn; lia.
  - destruct (IH eq_refl) as [HI HB]. split; [by eapply Timer.timer_step_inv|].
    unfold Timer.outcomes in *. rewrite trace_snoc.
    destruct Hst as [s1 s2 _ Hs|s1 _|s1 _|s1 s2 _ Hs|s1 _|s1 _|s1 _|s1 n b _ [clock Hp]|s1 b Ho];
      cbn; rewrite ?app_nil_r; try done.
    + unfold Timer.start in Hs. cbn in Hs. destruct (Timer.running_ s1); [by injection Hs as <-|].
      destruct (Timer.thread_ s1); try done. by injection Hs as <-.
    + unfold Timer.finishStop in Hs. destruct (Timer.thread_ s1); try done; by injection Hs as <-.
    + by eapply sweepPass_inv.
    + destruct Ho as (E1 & E2 & E3 & HD'). destruct HB as (_ & B2 & B3 & B4).
      split_and!; [done|by rewrite E1|by rewrite E2|by rewrite E3].
Qed.

End Lemmas.

End ExpirationSweeper.
