(* ===== verification/SweepSession.v ===== *)
(** * Serving while the sweeper runs

    Requests and passes of the sweeper in any order.  Two databases are the same to
    a client when their visible entries are; a pass of the sweeper leaves a database
    the same, and requests cannot tell two such databases apart. *)
From S2P Require Import Prelude.
From S2P Require Import Table.
From S2P Require Import RecencyList.
From S2P Require Import TableInv.
From S2P Require Import TableSpec.
From S2P Require Import TableSweep.
From S2P Require Import Parser.
From S2P Require Import Protocol.
From S2P Require Import Store.
From S2P Require Import StoreSpec.
From S2P Require Import StoreBulk.
From S2P Require Import StoreSweep.
From S2P Require Import Snapshot.
From S2P Require Import SaveLoad.
From S2P Require Import Executor.
From S2P Require Import ExecutorSpec.
Import CommandExecutor.

#[local] Open Scope Z_scope.

(** ** Definitions *)

(** What happens to the server: a request served at an instant, or a pass of the
    sweeper over so many buckets, with the instant it reads in each shard. *)
Inductive Action :=
| Request (now : time_point) (line : bytes)
| Sweep (maxBuckets : Z) (clock : nat -> time_point).

Fixpoint executeActions `{Platform} `{FileSystem} `{SystemClock} (ex : t) (actions : list Action)
    : IO (t * list (option bytes)) :=
  match actions with
  | [] => mret (ex, [])
  | Request now line :: rest =>
      r ← execute ex (momentAt now) line;
      r' ← executeActions (fst r) rest;
      mret (fst r', snd r :: snd r')
  | Sweep maxBuckets clock :: rest =>
      r ← lift (Database.removeExpired (database_ ex) maxBuckets clock);
      executeActions (withDatabase ex (fst r)) rest
  end.

(** The requests alone. *)
Fixpoint requestsOf (actions : list Action) : list (time_point * bytes) :=
  match actions with
  | [] => []
  | Request now line :: rest => (now, line) :: requestsOf rest
  | Sweep _ _ :: rest => requestsOf rest
  end.

(** The clock is steady: no reading is earlier than one before it. *)
Fixpoint steadyFrom (earliest : time_point) (actions : list Action) : Prop :=
  match actions with
  | [] => True
  | Request now _ :: rest => earliest <= now /\ plausible now /\ steadyFrom now rest
  | Sweep maxBuckets clock :: rest =>
      0 <= maxBuckets /\ exists latest, (forall i, earliest <= clock i <= latest) /\ steadyFrom latest rest
  end.

(** The same to a client from an instant on. *)
Definition sameFrom (now : time_point) (m m' : gmap bytes Entry) : Prop := visible m now = visible m' now.

(** ** Indistinguishable databases *)

#[global] Instance sameFrom_equivalence now : Equivalence (sameFrom now).
Proof. unfold sameFrom. split; [done|by intros ? ?|by intros ? ? ? -> ->]. Qed.

Lemma visible_iff m now k e :
  visible m now !! k = Some e <-> m !! k = Some e /\ isExpiredAt e now = false.
Proof. unfold visible. by rewrite map_lookup_filter_Some. Qed.

Lemma sameFrom_lookup now m m' :
  sameFrom now m m' <->
  forall k e, isExpiredAt e now = false -> (m !! k = Some e <-> m' !! k = Some e).
Proof.
  unfold sameFrom. split.
  - intros Hs k e He. assert (visible m now !! k = Some e <-> visible m' now !! k = Some e) as Hv by (by rewrite Hs).
    rewrite !visible_iff in Hv. tauto.
  - intros Hs. apply map_eq. intros k. apply option_eq. intros e. rewrite !visible_iff.
    split; intros [Hk He]; (split; [by apply Hs|done]).
Qed.

Lemma sameFrom_later now later m m' : now <= later -> sameFrom now m m' -> sameFrom later m m'.
Proof.
  intros Hle. rewrite !sameFrom_lookup. intros Hs k e He. apply Hs.
  destruct (isExpiredAt e now) eqn:Hx; [|done]. by rewrite (isExpiredAt_mono _ _ _ Hle Hx) in He.
Qed.

#[global] Instance insert_sameFrom now k e : Proper (sameFrom now ==> sameFrom now) (insert (M := gmap bytes Entry) k e).
Proof.
  intros m m' Hs. rewrite sameFrom_lookup in *. intros k' e' He'.
  destruct (decide (k = k')) as [->|Hne]; [by rewrite !lookup_insert_eq|]. rewrite !lookup_insert_ne by done. by apply Hs.
Qed.

#[global] Instance delete_sameFrom now k : Proper (sameFrom now ==> sameFrom now) (delete (M := gmap bytes Entry) k).
Proof.
  intros m m' Hs. rewrite sameFrom_lookup in *. intros k' e' He'.
  destruct (decide (k = k')) as [->|Hne]; [by rewrite !lookup_delete_eq|]. rewrite !lookup_delete_ne by done. by apply Hs.
Qed.

(** A request cannot tell them apart. *)
Lemma serves_same m m' now c m1 reply :
  sameFrom now m m' -> serves m now c m1 reply -> exists m1', serves m' now c m1' reply /\ sameFrom now m1 m1'.
Proof.
  intros Hs Hsv. pose proof Hs as Hv. unfold sameFrom in Hv.
  destruct Hsv as [c ?|c ?|c e ? Hg|c ? Hg|c ?|c ?|c ks ? Hnd Hks|c ?].
  all: try rewrite Hv in Hg; try setoid_rewrite Hv in Hks; rewrite ?Hv.
  all: eexists; split; [by econstructor|]; by rewrite ?Hs.
Qed.

Lemma answers_same m m' now line m1 reply :
  sameFrom now m m' -> answers m now line m1 reply ->
  exists m1', answers m' now line m1' reply /\ sameFrom now m1 m1'.
Proof.
  intros Hs [c m2 r Hp Hsv|e Hp].
  - destruct (serves_same _ _ _ _ _ _ Hs Hsv) as (m1' & Hsv' & Hs'). exists m1'. split; [by econstructor|done].
  - exists m'. split; [by apply answers_error|done].
Qed.

(** A pass of the sweeper leaves them the same. *)
Lemma sweep_same `{Platform} db m rs maxBuckets clock latest :
  dbRep db m rs -> 0 <= maxBuckets -> (forall i, clock i <= latest) ->
  exists db' n m' rs', Database.removeExpired db maxBuckets clock = Some (db', n) /\ dbRep db' m' rs' /\
    Database.maxMemoryBytes_ db' = Database.maxMemoryBytes_ db /\ sameFrom latest m m' /\
    (base.size m' <= base.size m)%nat.
Proof.
  intros HD Hmax Hlate. destruct (Z.eq_dec maxBuckets 0) as [->|Hne].
  { exists db, 0, m, rs. by split_and!. }
  destruct (removeExpired_rep db m rs maxBuckets clock HD ltac:(lia))
    as (db' & n & rs' & kss & E & HD' & Hmm & L1 & L2 & _ & Hsw & _).
  exists db', n, (dropKeys (concat kss) m), rs'. split_and!; [done..| |].
  - rewrite sameFrom_lookup. intros k e He. rewrite dropKeys_lookup. case_decide as Hk; [|done].
    split; [|done]. intros Hm. exfalso. apply concat_elem_of in Hk as (i & ks & Hi & Hk).
    destruct (lookup_lt_is_Some_2 (Database.shards_ db) i) as [sh Hsh]; [apply lookup_lt_Some in Hi; lia|].
    destruct (lookup_lt_is_Some_2 (Database.shards_ db') i) as [sh' Hsh']; [apply lookup_lt_Some in Hi; lia|].
    destruct (lookup_lt_is_Some_2 rs i) as [r Hr].
    { rewrite (dr_length _ _ _ HD). by eapply lookup_lt_Some. }
    destruct (sw_expired _ _ _ _ _ _ _ (Hsw i sh sh' ks r Hsh Hsh' Hi Hr) k Hk) as (e' & He' & Hx).
    rewrite shardMap_lookup in He'. case_decide; [|done]. rewrite Hm in He'. injection He' as <-.
    by rewrite (isExpiredAt_mono _ _ _ (Hlate i) Hx) in He.
  - apply map_subseteq_size, map_subseteq_spec. intros k e. rewrite dropKeys_lookup. by case_decide.
Qed.

(** ** Sessions *)

Section Sessions.
Context `{Platform} `{FileSystem} `{SystemClock}.

Lemma executeActions_session actions earliest db mdb rs m w :
  dbRep db mdb rs -> Database.maxMemoryBytes_ db = 0 -> sameFrom earliest mdb m ->
  Z.of_nat (base.size mdb) + len (requestsOf actions) <= maxEntries -> steadyFrom earliest actions ->
  exists ex' replies m', executeActions (mk db None) actions w = Some ((ex', replies), w, []) /\
    session m (requestsOf actions) replies m'.
Proof.
  revert earliest db mdb rs m. induction actions as [|[now line|maxBuckets clock] actions IH];
    intros earliest db mdb rs m HD Hmm Hs Hroom Hst.
  { eexists _, [], m. split; [done|constructor]. }
  - destruct Hst as (Hle & Hpl & Hst). cbn [requestsOf] in *. rewrite len_cons in Hroom.
    pose proof (len_nonneg (requestsOf actions)).
    destruct (execute_answers db mdb rs line now w HD Hmm ltac:(lia) Hpl)
      as (db1 & rs1 & mdb1 & reply & Hrun & HD1 & Hmm1 & Hans).
    pose proof (answers_size _ _ _ _ _ Hans).
    destruct (answers_same _ _ _ _ _ _ (sameFrom_later _ _ _ _ Hle Hs) Hans) as (m1 & Hans' & Hs1).
    destruct (IH now db1 mdb1 rs1 m1 HD1 Hmm1 Hs1 ltac:(lia) Hst) as (ex' & replies & m' & Hrest & Hses).
    exists ex', (reply :: replies), m'. split; [|by econstructor].
    cbn [executeActions]. unfold mbind, IO_bind. rewrite Hrun. cbn [fst]. by rewrite Hrest.
  - destruct Hst as (Hmax & latest & Hclk & Hst). cbn [requestsOf] in *.
    destruct (sweep_same db mdb rs maxBuckets clock latest HD Hmax (fun i => proj2 (Hclk i)))
      as (db1 & n & mdb1 & rs1 & E & HD1 & Hmm1 & Hs1 & Hsize).
    assert (earliest <= latest) as Hle by (destruct (Hclk 0%nat); lia).
    destruct (IH latest db1 mdb1 rs1 m HD1) as (ex' & replies & m' & Hrest & Hses);
      [by rewrite Hmm1|by rewrite <- Hs1; apply (sameFrom_later _ _ _ _ Hle)|lia|done|].
    exists ex', replies, m'. split; [|done]. cbn [executeActions database_].
    rewrite (io_lift_bind _ _ _ _ E). exact Hrest.
Qed.

End Sessions.
