(* ===== verification/Scheduler.v ===== *)
(** * The snapshot scheduler

    [SnapshotScheduler.h] and [SnapshotScheduler.cpp]: the timer of [Timer.v] with
    [SnapshotStore::save] as its pass. *)
From S2P Require Import Prelude.
From S2P Require Import Trace.
From S2P Require Import Timer.
From S2P Require Import Table.
From S2P Require Import Store.
From S2P Require Import Snapshot.
From S2P Require Import SaveLoad.
From S2P Require Import SaveLoadSpec.

#[local] Open Scope Z_scope.

Module SnapshotScheduler.

(** The members beside the thread, the store and the database they refer to, and the
    file system. *)
Record Body `{FileSystem} := mkBody {
  store_ : SnapshotStore.t;
  database_ : Database.t;
  world : World;
  interval_ : Z;
  attempts_ : Z;
  failures_ : Z;
  lastError_ : bytes
}.

Section Scheduler.
Context {FS : FileSystem} {SC : SystemClock}.

Definition t : Type := @Timer.t Body.

Definition new (store : SnapshotStore.t) (database : Database.t) (interval : Z) (w : World) : t :=
  Timer.new (mkBody _ store database w interval 0 0 []).

(** Periodic saving may be disabled. *)
Definition enabled (b : Body) : bool := negb (interval_ b <=? 0).

Definition start : t -> option t := Timer.start enabled.

(** One round of [scheduleLoop] after the wait. *)
Definition schedulePass (fuel : nat) (clock : nat -> time_point) (r : Readings) (b : Body)
    : option (Body * SnapshotStore.SaveOutcome) :=
  match SnapshotStore.save fuel (store_ b) (database_ b) clock r (world b) with
  | None => None
  | Some ((store, outcome), w, _) =>
      let attempts := u64 (attempts_ b + 1) in
      Some
        (if SnapshotStore.ok outcome
         then (mkBody _ store (database_ b) w (interval_ b) attempts (failures_ b) (lastError_ b), outcome)
         else (mkBody _ store (database_ b) w (interval_ b) attempts (u64 (failures_ b + 1))
                 (SnapshotStore.saveError outcome), outcome))
  end.

(** The error message of the last outcome that failed. *)
Definition lastFailure (os : list SnapshotStore.SaveOutcome) : bytes :=
  fold_left (fun e o => if SnapshotStore.ok o then e else SnapshotStore.saveError o) os [].

Context `{PV : !PosixView}.

(** A snapshot of the database can be taken and written down; [data] is the file. *)
Definition writes (db : Database.t) (clock : nat -> time_point) (r : Readings) (data : bytes) : Prop :=
  exists entries, Database.snapshot db clock = Some entries /\ snapshot.encode r entries = Some data.

Definition savable (db : Database.t) : Prop := exists clock r data, writes db clock r data.

(** A pass, with enough fuel for the loop that writes the file. *)
Definition pass (b : Body) (o : SnapshotStore.SaveOutcome) (b' : Body) : Prop :=
  exists fuel clock r data, writes (database_ b) clock r data /\
    (length data + interrupts (world b) <= fuel)%nat /\ schedulePass fuel clock r b = Some (b', o).

(** Other threads use the database, and may save it themselves. *)
Definition requests (b b' : Body) : Prop :=
  interval_ b' = interval_ b /\ attempts_ b' = attempts_ b /\ failures_ b' = failures_ b /\
  lastError_ b' = lastError_ b /\ savable (database_ b') /\
  ((world b' = world b /\ store_ b' = store_ b) \/
   exists fuel clock r data o tr, writes (database_ b) clock r data /\
     (length data + interrupts (world b) <= fuel)%nat /\
     SnapshotStore.save fuel (store_ b) (database_ b) clock r (world b) = Some ((store_ b', o), world b', tr)).

Definition step : t -> @Timer.Event SnapshotStore.SaveOutcome -> t -> Prop := Timer.step enabled pass requests.
Definition stopStep : t -> @Timer.Event SnapshotStore.SaveOutcome -> t -> Prop :=
  Timer.stopStep enabled pass requests.

(** ** Lemmas *)

Context `{PL : !PosixLaws}.

(** The file is the one there was, or a complete snapshot of the database at some
    time. *)
Definition goodFile (path : bytes) (w0 w : World) : Prop :=
  file w path = file w0 path \/ exists db clock r data, writes db clock r data /\ file w path = Some data.

Definition bodyInv (path : bytes) (w0 : World) (os : list SnapshotStore.SaveOutcome) (b : Body) : Prop :=
  savable (database_ b) /\ SnapshotStore.path_ (store_ b) = path /\ goodFile path w0 (world b) /\
  attempts_ b = u64 (len os) /\
  failures_ b = u64 (len (filter (fun o => SnapshotStore.ok o = false) os)) /\
  lastError_ b = lastFailure os.

Lemma save_goodFile path w0 fuel s db clock r data w s' o w' tr :
  writes db clock r data -> (length data + interrupts w <= fuel)%nat ->
  SnapshotStore.path_ s = path -> goodFile path w0 w ->
  SnapshotStore.save fuel s db clock r w = Some ((s', o), w', tr) ->
  SnapshotStore.path_ s' = path /\ goodFile path w0 w'.
Proof.
  intros (entries & Hsn & Hen) Hf Hpath Hg Hrun.
  destruct (save_runs fuel s db clock r entries data w Hsn Hen Hf) as ([s1 o1] & w1 & t1 & Hrun1 & _ & HQ).
  rewrite Hrun in Hrun1. simplify_eq. unfold savedOrNot in HQ. destruct (SnapshotStore.ok o1).
  - destruct HQ as (-> & _ & Hnew). split; [done|]. right. exists db, clock, r, data. split; [by exists entries|done].
  - destruct HQ as (-> & Hold). split; [done|]. unfold goodFile in *. by rewrite Hold.
Qed.

Lemma pass_inv path w0 os b o b' :
  bodyInv path w0 os b -> pass b o b' -> bodyInv path w0 (os ++ [o]) b'.
Proof.
  intros (H1 & H2 & H3 & H4 & H5 & H6) (fuel & clock & r & data & Hw & Hf & Hp). unfold schedulePass in Hp.
  destruct (SnapshotStore.save _ _ _ _ _ _) as [[[[s' o'] w'] tr]|] eqn:Es; [|done].
  destruct (save_goodFile _ _ _ _ _ _ _ _ _ _ _ _ _ Hw Hf H2 H3 Es) as [G1 G2].
  assert (u64 (attempts_ b + 1) = u64 (len (os ++ [o']))) as Ea.
  { by rewrite H4, len_app, u64_idemp_add_l. }
  destruct (SnapshotStore.ok o') eqn:Eo; injection Hp as <- <-; unfold bodyInv; cbn;
    unfold lastFailure; rewrite fold_left_app, filter_app; cbn; rewrite Eo.
  - rewrite decide_False by congruence. rewrite app_nil_r. split_and!; done.
  - rewrite decide_True by done. split_and!; try done. by rewrite H5, len_app, u64_idemp_add_l.
Qed.

Lemma requests_inv path w0 os b b' : bodyInv path w0 os b -> requests b b' -> bodyInv path w0 os b'.
Proof.
  intros (H1 & H2 & H3 & H4 & H5 & H6) (R1 & R2 & R3 & R4 & R5 & R6). unfold bodyInv.
  rewrite R2, R3, R4. destruct R6 as [[-> ->]|(fuel & clock & r & data & o & tr & Hw & Hf & Hrun)]; [done|].
  destruct (save_goodFile _ _ _ _ _ _ _ _ _ _ _ _ _ Hw Hf H2 H3 Hrun) as [G1 G2]. done.
Qed.

Lemma save_defined path w0 os b : bodyInv path w0 os b -> exists o b', pass b o b'.
Proof.
  intros ((clock & r & data & entries & Hsn & Hen) & _).
  destruct (save_runs (length data + interrupts (world b)) (store_ b) (database_ b) clock r entries data (world b) Hsn Hen)
    as ([s1 o1] & w1 & t1 & Hrun & _ & _); [lia|].
  unfold pass, schedulePass.
  destruct (SnapshotStore.ok o1) eqn:Eo; eexists _, _, _, clock, r, data;
    (split; [by exists entries|split; [reflexivity|rewrite Hrun, Eo; reflexivity]]).
Qed.

Lemma scheduler_inv store database interval w0 evs s :
  savable database -> Trace.runs step (new store database interval w0) evs s ->
  Timer.timerInv s /\ bodyInv (SnapshotStore.path_ store) w0 (Timer.outcomes evs) (Timer.body s).
Proof.
  intros Hs Hr. remember (new store database interval w0) as s0 eqn:E0.
  induction Hr as [s|s evs s1 ev s2 Hr IH Hst]; subst.
  - split; [apply Timer.timer_new_inv|]. cbn. split_and!; try done. by left.
  - destruct (IH eq_refl) as [HI HB]. split; [by eapply Timer.timer_step_inv|].
    unfold Timer.outcomes in *. rewrite trace_snoc.
    destruct Hst as [s1 s2 _ Hst|s1 _|s1 _|s1 s2 _ Hst|s1 _|s1 _|s1 _|s1 o b _ Hp|s1 b Ho];
      cbn; rewrite ?app_nil_r; try done.
    + unfold Timer.start in Hst. destruct (negb _); [by injection Hst as <-|].
      destruct (Timer.running_ s1); [by injection Hst as <-|]. destruct (Timer.thread_ s1); try done. by injection Hst as <-.
    + unfold Timer.finishStop in Hst. destruct (Timer.thread_ s1); try done; by injection Hst as <-.
    + by eapply pass_inv.
    + by eapply requests_inv.
Qed.

End Scheduler.

End SnapshotScheduler.
