(* ===== verification/TimerClaims.v ===== *)
(** * Background threads: theorems

    The expiration sweeper and the snapshot scheduler over every interleaving with
    the thread that controls them and with the threads that use the database, and a
    server that is swept while it serves. *)
From S2P Require Import Prelude.
From S2P Require Import Trace.
From S2P Require Import Timer.
From S2P Require Import Config.
From S2P Require Import Text.
From S2P Require Import Table.
From S2P Require Import RecencyList.
From S2P Require Import TableInv.
From S2P Require Import Store.
From S2P Require Import StoreSpec.
From S2P Require Import StoreBulk.
From S2P Require Import StoreClaims.
From S2P Require Import Snapshot.
From S2P Require Import SaveLoad.
From S2P Require Import SaveLoadSpec.
From S2P Require Import SnapshotClaims.
From S2P Require Import Executor.
From S2P Require Import ExecutorSpec.
From S2P Require Import ExecutorClaims.
From S2P Require Import Sweeper.
From S2P Require Import SweepSession.
From S2P Require Import Scheduler.

#[local] Open Scope Z_scope.



(** C10: the sweeper is invisible to clients.  Mix any passes of the sweeper, over any
    number of buckets, into a session of requests to a fresh server without a memory
    limit: as long as the clock never goes back, every reply is still that of an ideal
    server that never sweeps. *)
Theorem sweeper_invisible `{Platform} `{FileSystem} `{SystemClock} initialBucketCount shardCount actions earliest w :
  0 <= initialBucketCount < 2 ^ 64 -> 0 <= shardCount <= 2 ^ 63 ->
  len (requestsOf actions) <= maxEntries -> steadyFrom earliest actions ->
  exists db ex' replies m', Database.new initialBucketCount shardCount = Some db /\
    executeActions (CommandExecutor.mk db None) actions w = Some ((ex', replies), w, []) /\
    session ∅ (requestsOf actions) replies m'.
Proof.
  intros Hi Hs Hlen Hst. destruct (new_db_rep initialBucketCount shardCount Hi Hs) as (db & Hdb & HD & Hm & _).
  destruct (executeActions_session actions earliest db ∅ _ ∅ w HD Hm) as (ex' & replies & m' & Hrun & Hses);
    [done|rewrite map_size_empty; lia|done|]. eauto 10.
Qed.

(** ** Witnesses *)




Definition sampleActions : list Action :=
  [Request 0 (bs "SET n 7 EX 10"); Sweep 128 (fun _ => 5000000000); Request 6000000000 (bs "GET n");
   Sweep 128 (fun _ => 11000000000); Request 12000000000 (bs "GET n")].

Lemma sweeper_invisible_witness : exists db ex' replies m',
  Database.new 16 4 = Some db /\
  executeActions (H := lp64) (H0 := memory) (H1 := libstdcxx) (CommandExecutor.mk db None) sampleActions emptyWorld
    = Some ((ex', replies), emptyWorld, []) /\
  session ∅ (requestsOf sampleActions) replies m'.
Proof.
  apply (sweeper_invisible (H := lp64) (H0 := memory) (H1 := libstdcxx) 16 4 sampleActions 0 emptyWorld).
  - lia.
  - lia.
  - vm_compute. done.
  - cbn. split; [lia|]. split; [split; lia|]. split; [lia|]. exists 5000000000. split; [intros _; lia|].
    split; [lia|]. split; [split; lia|]. split; [lia|]. exists 11000000000. split; [intros _; lia|].
    split; [lia|]. split; [split; lia|exact I].
Defined.
