(* ===== verification/Accept.v ===== *)
(** * The accept loop and the registry of connections

    [Server::run], [stop], [shutdownActiveConnections] and [serveConnection] of
    [Server.cpp] as a labelled transition system: one step per critical section or
    system call.  The thread pool appears through what [Pool.v] shows of it: a
    submitted task is refused, or is run to its end once.  The kernel's table of
    descriptors is part of the state, with a flag that is raised when the server
    closes or shuts down a descriptor that is not open, so that using a descriptor
    after it was closed, or closing it twice, is a visible failure. *)
From S2P Require Import Prelude.
From S2P Require Import Trace.

#[local] Open Scope Z_scope.

Module AcceptLoop.

(** ** State *)

(** Where [serveConnection] is for one connection: waiting in the pool's queue,
    registered, in [handleConnection], on its way out, returned. *)
Inductive Progress := Queued | Registered | Serving | Leaving | Done.

(** Where [run] is: before, at the test of the loop, in [poll], past a [poll] that
    found a connection, with a descriptor from [accept] it has not handed on, out of
    the loop, waiting for the pool, returned. *)
Inductive Phase :=
  NotStarted | Testing | InPoll | Ready | Holding (clientFd : Z) | LeftLoop | Draining | Finished.

(** An open socket; [shutdown] has been called on it or not. *)
Inductive Socket := Live | ShutDown.

Record t := mk {
  phase : Phase;
  running_ : bool;
  shutdownPipe_ : bool; (** a byte is in the pipe *)
  activeConnections_ : gset Z;
  connections : list (Z * Progress);
  kernel : gmap Z Socket;
  misused : bool
}.

Inductive Event := Accepted (fd : Z) | Closed (fd : Z) | StopCalled | Woken | Interrupted | Silent.

Definition new : t := mk NotStarted false false ∅ [] ∅ false.

Definition withPhase (p : Phase) (s : t) : t :=
  mk p (running_ s) (shutdownPipe_ s) (activeConnections_ s) (connections s) (kernel s) (misused s).
Definition withConnection (i : nat) (fd : Z) (p : Progress) (s : t) : t :=
  mk (phase s) (running_ s) (shutdownPipe_ s) (activeConnections_ s) (<[i := (fd, p)]> (connections s))
    (kernel s) (misused s).

(** ** Operations *)

(** [::close] *)
Definition closeFd (fd : Z) (s : t) : t :=
  mk (phase s) (running_ s) (shutdownPipe_ s) (activeConnections_ s) (connections s) (delete fd (kernel s))
    (misused s || negb (bool_decide (is_Some (kernel s !! fd)))).

(** [stop]: the flag, then the byte. *)
Definition clearRunning (s : t) : t :=
  mk (phase s) false (shutdownPipe_ s) (activeConnections_ s) (connections s) (kernel s) (misused s).
Definition wake (s : t) : t :=
  mk (phase s) (running_ s) true (activeConnections_ s) (connections s) (kernel s) (misused s).

(** The first statement of [run]. *)
Definition beginRun (s : t) : t :=
  mk Testing true (shutdownPipe_ s) (activeConnections_ s) (connections s) (kernel s) (misused s).

(** [accept] returned a descriptor. *)
Definition accept (fd : Z) (s : t) : t :=
  mk (Holding fd) (running_ s) (shutdownPipe_ s) (activeConnections_ s) (connections s)
    (<[fd := Live]> (kernel s)) (misused s).

(** [trySubmit] accepted the task. *)
Definition submit (fd : Z) (s : t) : t :=
  mk Testing (running_ s) (shutdownPipe_ s) (activeConnections_ s) (connections s ++ [(fd, Queued)])
    (kernel s) (misused s).

(** It did not: the busy reply, which has no effect on the state, and [close]. *)
Definition refuse (fd : Z) (s : t) : t := withPhase Testing (closeFd fd s).

(** After the loop: [running_ = false]. *)
Definition leaveLoop (s : t) : t :=
  mk LeftLoop false (shutdownPipe_ s) (activeConnections_ s) (connections s) (kernel s) (misused s).

Definition shutdownActiveConnections (s : t) : t :=
  mk Draining (running_ s) (shutdownPipe_ s) (activeConnections_ s) (connections s)
    (map_imap (fun fd sock => Some (if decide (fd ∈ activeConnections_ s) then ShutDown else sock)) (kernel s))
    (misused s || negb (bool_decide (activeConnections_ s ⊆ dom (kernel s)))).

(** [serveConnection], first critical section. *)
Definition register (i : nat) (fd : Z) (s : t) : t :=
  mk (phase s) (running_ s) (shutdownPipe_ s) ({[fd]} ∪ activeConnections_ s)
    (<[i := (fd, Registered)]> (connections s)) (kernel s) (misused s).

(** [if (running_)] *)
Definition checkRunning (i : nat) (fd : Z) (s : t) : t :=
  withConnection i fd (if running_ s then Serving else Leaving) s.

(** Last critical section: unregister and close under the mutex. *)
Definition unregister (i : nat) (fd : Z) (s : t) : t :=
  let s := mk (phase s) (running_ s) (shutdownPipe_ s) (activeConnections_ s ∖ {[fd]})
             (<[i := (fd, Done)]> (connections s)) (kernel s) (misused s) in
  closeFd fd s.

Definition isDone (c : Z * Progress) : bool := match snd c with Done => true | _ => false end.

(** ** Steps *)

(** What the server does without waiting for anybody else. *)
Inductive serverStep : t -> Event -> t -> Prop :=
| step_begin s : phase s = NotStarted -> serverStep s Silent (beginRun s)
| step_again s : phase s = Testing -> running_ s = true -> serverStep s Silent (withPhase InPoll s)
| step_endLoop s : phase s = Testing -> running_ s = false -> serverStep s Silent (leaveLoop s)
| step_break s : phase s = InPoll -> shutdownPipe_ s = true -> serverStep s Silent (leaveLoop s)
| step_acceptRetry s : phase s = Ready -> serverStep s Silent (withPhase Testing s)
| step_submit s fd : phase s = Holding fd -> serverStep s Silent (submit fd s)
| step_refuse s fd : phase s = Holding fd -> serverStep s (Closed fd) (refuse fd s)
| step_interrupt s : phase s = LeftLoop -> serverStep s Silent (shutdownActiveConnections s)
| step_register s i fd : connections s !! i = Some (fd, Queued) -> serverStep s Silent (register i fd s)
| step_checkRunning s i fd : connections s !! i = Some (fd, Registered) ->
    serverStep s Silent (checkRunning i fd s)
| step_recvEnds s i fd : connections s !! i = Some (fd, Serving) -> kernel s !! fd = Some ShutDown ->
    serverStep s Silent (withConnection i fd Leaving s)
| step_unregister s i fd : connections s !! i = Some (fd, Leaving) ->
    serverStep s (Closed fd) (unregister i fd s)
| step_finish s : phase s = Draining -> forallb isDone (connections s) = true ->
    serverStep s Silent (withPhase Finished s).

(** That, and what clients, the kernel and callers of [stop] do.  [poll] finds a
    connection and no byte, is interrupted, or fails; [accept] returns a descriptor
    that is not open, or fails; a connection may end by itself; [stop] may be called
    from anywhere, between any two steps. *)
Inductive step : t -> Event -> t -> Prop :=
| step_server s ev s' : serverStep s ev s' -> step s ev s'
| step_ready s : phase s = InPoll -> shutdownPipe_ s = false -> step s Silent (withPhase Ready s)
| step_interrupted s : phase s = InPoll -> step s Interrupted (withPhase Testing s)
| step_accept s fd : phase s = Ready -> kernel s !! fd = None -> step s (Accepted fd) (accept fd s)
| step_loopFails s : phase s = InPoll \/ phase s = Ready -> step s Silent (leaveLoop s)
| step_ends s i fd : connections s !! i = Some (fd, Serving) -> step s Silent (withConnection i fd Leaving s)
| step_stop s : step s StopCalled (clearRunning s)
| step_wake s : step s Woken (wake s).

(** ** Views *)

Definition acceptedBy (ev : Event) : option Z := match ev with Accepted fd => Some fd | _ => None end.
Definition closedBy (ev : Event) : option Z := match ev with Closed fd => Some fd | _ => None end.
Definition acceptedOf (evs : list Event) : list Z := omap acceptedBy evs.
Definition closedOf (evs : list Event) : list Z := omap closedBy evs.

Definition heldFd (p : Phase) : option Z := match p with Holding fd => Some fd | _ => None end.
Definition openFd (c : Z * Progress) : option Z := if isDone c then None else Some (fst c).
Definition ownFd (c : Z * Progress) : option Z :=
  match snd c with Registered | Serving | Leaving => Some (fst c) | _ => None end.

(** The descriptors the server is responsible for. *)
Definition openFds (s : t) : list Z := option_list (heldFd (phase s)) ++ omap openFd (connections s).

Definition draining (p : Phase) : bool := match p with Draining | Finished => true | _ => false end.
Definition pastLoop (p : Phase) : bool := match p with LeftLoop | Draining | Finished => true | _ => false end.

Record loopInv (s : t) : Prop := {
  li_nodup : NoDup (openFds s);
  li_kernel : forall fd, is_Some (kernel s !! fd) <-> fd ∈ openFds s;
  li_active : forall fd, fd ∈ activeConnections_ s <-> fd ∈ omap ownFd (connections s);
  li_stopped : pastLoop (phase s) = true -> running_ s = false;
  li_interrupted : draining (phase s) = true ->
    forall fd, (fd, Serving) ∈ connections s -> kernel s !! fd = Some ShutDown;
  li_safe : misused s = false
}.

(** What is left to do once the byte is in the pipe. *)
Definition progressWork (c : Z * Progress) : Z :=
  match snd c with Queued => 4 | Registered => 3 | Serving => 2 | Leaving => 1 | Done => 0 end.
Definition phaseWork (p : Phase) : Z :=
  match p with
  | NotStarted => 5 | Testing => 4 | InPoll => 3 | Ready => 10 | Holding _ => 9 | LeftLoop => 2
  | Draining => 1 | Finished => 0
  end.
Definition remaining (s : t) : Z := phaseWork (phase s) + sumZ progressWork (connections s).

Definition stopCost (ev : Event) : Z := match ev with StopCalled | Woken => 1 | Interrupted => 2 | _ => 0 end.

(** ** The invariant *)

Lemma loop_new_inv : loopInv new.
Proof.
  split; cbn; try done.
  - constructor.
  - intros fd. rewrite lookup_empty. split; [by intros []|by intros ?%elem_of_nil].
  - intros fd. split; [set_solver|by intros ?%elem_of_nil].
Qed.

Lemma openFds_insert s i fd p p' :
  connections s !! i = Some (fd, p) ->
  exists rest, connections s ≡ₚ (fd, p) :: rest /\ <[i := (fd, p')]> (connections s) ≡ₚ (fd, p') :: rest.
Proof. apply insert_perm. Qed.

(** Moving a connection on without opening, closing or registering anything. *)
Lemma withConnection_inv s i fd p p' :
  loopInv s -> connections s !! i = Some (fd, p) ->
  openFd (fd, p') = openFd (fd, p) -> ownFd (fd, p') = ownFd (fd, p) ->
  (p' = Serving -> draining (phase s) = false) ->
  loopInv (withConnection i fd p' s).
Proof.
  intros [H1 H2 H3 H4 H5 H6] Hi Hopen Hown Hserve.
  destruct (openFds_insert s i fd p p' Hi) as (rest & E1 & E2).
  assert (omap openFd (<[i := (fd, p')]> (connections s)) ≡ₚ omap openFd (connections s)) as Eo
    by (rewrite E2, E1; cbn; by rewrite Hopen).
  assert (omap ownFd (<[i := (fd, p')]> (connections s)) ≡ₚ omap ownFd (connections s)) as Ew
    by (rewrite E2, E1; cbn; by rewrite Hown).
  split; cbn; [| | |done| |done].
  - unfold openFds. cbn. by rewrite Eo.
  - intros k. rewrite H2. unfold openFds. cbn. by rewrite Eo.
  - intros k. by rewrite H3, Ew.
  - intros Hd k [[= <- <-]|Hk]%elem_of_insert_new; [by rewrite (Hserve eq_refl) in Hd|by apply H5].
Qed.

Lemma register_inv s i fd :
  loopInv s -> connections s !! i = Some (fd, Queued) -> loopInv (register i fd s).
Proof.
  intros [H1 H2 H3 H4 H5 H6] Hi. destruct (openFds_insert s i fd Queued Registered Hi) as (rest & E1 & E2).
  assert (omap openFd (<[i := (fd, Registered)]> (connections s)) ≡ₚ omap openFd (connections s)) as Eo
    by (by rewrite E2, E1).
  split; cbn; [| | |done| |done].
  - unfold openFds. cbn. by rewrite Eo.
  - intros k. rewrite H2. unfold openFds. cbn. by rewrite Eo.
  - intros k. rewrite E2. cbn. rewrite elem_of_union, elem_of_singleton, H3, E1. cbn. by rewrite elem_of_cons.
  - intros Hd k [|Hk]%elem_of_insert_new; [done|by apply H5].
Qed.

(** Closing a descriptor the server is responsible for, and dropping it. *)
Lemma close_kernel (s : t) fd (fds : list Z) :
  loopInv s -> openFds s ≡ₚ fd :: fds ->
  NoDup fds /\ (forall k, is_Some (delete fd (kernel s) !! k) <-> k ∈ fds) /\
  (misused s || negb (bool_decide (is_Some (kernel s !! fd)))) = false.
Proof.
  intros [H1 H2 H3 H4 H5 H6] E. rewrite E in H1. apply NoDup_cons in H1 as [Hn Hd]. split_and!; [done| |].
  - intros k. destruct (decide (k = fd)) as [->|Hne].
    + rewrite lookup_delete_eq. split; [by intros []|done].
    + rewrite lookup_delete_ne by done. rewrite H2, E, elem_of_cons. tauto.
  - rewrite H6. cbn. rewrite bool_decide_true; [done|]. apply H2. rewrite E. by left.
Qed.

Lemma refuse_inv s fd : loopInv s -> phase s = Holding fd -> loopInv (refuse fd s).
Proof.
  intros HI Hp. assert (openFds s ≡ₚ fd :: omap openFd (connections s)) as E by (unfold openFds; by rewrite Hp).
  destruct (close_kernel s fd _ HI E) as (C1 & C2 & C3). pose proof HI as [H1 H2 H3 H4 H5 H6]. by split.
Qed.

Lemma ownFd_open (l : list (Z * Progress)) k : k ∈ omap ownFd l -> k ∈ omap openFd l.
Proof.
  rewrite !list_elem_of_omap. intros (c & Hc & Hk). exists c. split; [done|]. revert Hk.
  unfold ownFd, openFd, isDone. by destruct (snd c).
Qed.

Lemma unregister_inv s i fd :
  loopInv s -> connections s !! i = Some (fd, Leaving) -> loopInv (unregister i fd s).
Proof.
  intros HI Hi. destruct (openFds_insert s i fd Leaving Done Hi) as (rest & E1 & E2).
  assert (openFds s ≡ₚ fd :: (option_list (heldFd (phase s)) ++ omap openFd rest)) as E.
  { unfold openFds. rewrite E1. cbn. by rewrite Permutation_middle. }
  destruct (close_kernel s fd _ HI E) as (C1 & C2 & C3). pose proof HI as [H1 H2 H3 H4 H5 H6].
  split; cbn; [| | |done| |done].
  - unfold openFds. cbn. by rewrite E2.
  - intros k. rewrite C2. unfold openFds. cbn. by rewrite E2.
  - intros k. rewrite E2. cbn. rewrite elem_of_difference, elem_of_singleton, H3, E1. cbn. rewrite elem_of_cons.
    rewrite E in H1. apply NoDup_cons in H1 as [Hn _].
    assert (fd ∉ omap ownFd rest) by (intros ?%ownFd_open; apply Hn, elem_of_app; by right).
    split; [tauto|]. intros Hk. split; [by right|]. by intros ->.
  - intros Hd k [|Hk]%elem_of_insert_new; [done|]. rewrite lookup_delete_ne; [by apply H5|]. intros ->.
    rewrite E in H1. apply NoDup_cons in H1 as [Hn _]. apply Hn, elem_of_app. right.
    apply list_elem_of_omap. exists (k, Serving). split; [|done].
    rewrite E1 in Hk. apply elem_of_cons in Hk as [|?]; done.
Qed.

Lemma shutdown_inv s : loopInv s -> phase s = LeftLoop -> loopInv (shutdownActiveConnections s).
Proof.
  intros [H1 H2 H3 H4 H5 H6] Hp.
  assert (forall fd, fd ∈ activeConnections_ s -> is_Some (kernel s !! fd)) as Hopen.
  { intros fd Hfd%H3%ownFd_open. apply H2. unfold openFds. apply elem_of_app. by right. }
  split; cbn.
  - unfold openFds in *. by rewrite Hp in H1.
  - intros fd. rewrite map_lookup_imap. unfold openFds in *. rewrite Hp in H2. rewrite <- H2.
    by destruct (kernel s !! fd).
  - done.
  - intros _. apply H4. by rewrite Hp.
  - intros _ fd Hfd. assert (fd ∈ activeConnections_ s) as Ha.
    { apply H3, list_elem_of_omap. by exists (fd, Serving). }
    rewrite map_lookup_imap. destruct (Hopen fd Ha) as [sock ->]. cbn. by rewrite decide_True.
  - rewrite H6. cbn. rewrite bool_decide_true; [done|]. intros fd Hfd. apply elem_of_dom. by apply Hopen.
Qed.

Lemma serverStep_inv s ev s' : loopInv s -> serverStep s ev s' -> loopInv s'.
Proof.
  intros HI Hst. pose proof HI as [H1 H2 H3 H4 H5 H6].
  destruct Hst as [s Hp|s Hp Hst|s Hp Hst|s Hp Hst|s Hp|s fd Hp|s fd Hp|s Hp|s i fd Hi|s i fd Hi|s i fd Hi Hk|s i fd Hi|s Hp Hd].
  1-5: unfold openFds in *; rewrite Hp in *; by split.
  - assert (openFds (submit fd s) ≡ₚ openFds s) as E.
    { unfold openFds. cbn. rewrite Hp, omap_app. cbn. by rewrite Permutation_app_comm. }
    split; cbn; [by rewrite E| | |done|done|done].
    + intros k. by rewrite H2, E.
    + intros k. rewrite H3, omap_app. cbn. by rewrite app_nil_r.
  - by apply refuse_inv.
  - by apply shutdown_inv.
  - by apply register_inv.
  - eapply withConnection_inv; [done..| | |]; try (by destruct (running_ s)).
    destruct (running_ s) eqn:Er; [|done]. intros _. destruct (draining (phase s)) eqn:Ed; [|done].
    enough (true = false) by done. apply H4. by destruct (phase s).
  - by eapply withConnection_inv.
  - by apply unregister_inv.
  - unfold openFds in *. rewrite Hp in *. by split.
Qed.

Lemma loop_step_inv s ev s' : loopInv s -> step s ev s' -> loopInv s'.
Proof.
  intros HI Hst. destruct Hst as [s ev s' Hst|s Hp Hn|s Hp|s fd Hp Hfresh|s Hp|s i fd Hi|s|s].
  1: by eapply serverStep_inv.
  all: pose proof HI as [H1 H2 H3 H4 H5 H6].
  1-2: unfold openFds in *; rewrite Hp in *; by split.
  - unfold openFds in *. rewrite Hp in *. cbn in *.
    assert (fd ∉ omap openFd (connections s)) as Hn.
    { intros Hin. apply H2 in Hin. rewrite Hfresh in Hin. by destruct Hin. }
    split; cbn; try done.
    + by constructor.
    + intros k. rewrite elem_of_cons. destruct (decide (k = fd)) as [->|Hne].
      * rewrite lookup_insert_eq. split; [by left|by eauto].
      * rewrite lookup_insert_ne by done. rewrite H2. tauto.
  - unfold openFds in *. destruct Hp as [Hp|Hp]; rewrite Hp in *; by split.
  - by eapply withConnection_inv.
  - by split.
  - by split.
Qed.

(** ** Descriptors *)

Lemma openFds_same (s s' : t) :
  heldFd (phase s') = heldFd (phase s) -> omap openFd (connections s') ≡ₚ omap openFd (connections s) ->
  openFds s' ≡ₚ openFds s.
Proof. intros E1 E2. unfold openFds. by rewrite E1, E2. Qed.

Lemma openFd_moves s i fd p p' :
  connections s !! i = Some (fd, p) -> openFd (fd, p') = openFd (fd, p) ->
  omap openFd (<[i := (fd, p')]> (connections s)) ≡ₚ omap openFd (connections s).
Proof.
  intros Hi Ho. destruct (openFds_insert s i fd p p' Hi) as (rest & E1 & E2). rewrite E2, E1. cbn. by rewrite Ho.
Qed.

(** What is opened and closed is what the server is responsible for. *)
Lemma step_accounts s ev s' :
  step s ev s' ->
  openFds s ++ option_list (acceptedBy ev) ≡ₚ option_list (closedBy ev) ++ openFds s'.
Proof.
  intros Hst. destruct Hst as [s ev s' Hst|s Hp Hn|s Hp|s fd Hp Hfresh|s Hp|s i fd Hi|s|s]; cbn; rewrite ?app_nil_r; try done.
  - destruct Hst as [s Hp|s Hp Hst|s Hp Hst|s Hp Hst|s Hp|s fd Hp|s fd Hp|s Hp|s i fd Hi|s i fd Hi|s i fd Hi Hk|s i fd Hi|s Hp Hd];
      cbn; rewrite ?app_nil_r; unfold openFds; cbn; rewrite ?Hp; cbn; try done.
    + by rewrite omap_app, Permutation_app_comm.
    + by rewrite (openFd_moves s i fd Queued).
    + by rewrite (openFd_moves s i fd Registered) by (done || by destruct (running_ s)).
    + by rewrite (openFd_moves s i fd Serving).
    + destruct (openFds_insert s i fd Leaving Done Hi) as (rest & E1 & E2). rewrite E2, E1. cbn.
      by rewrite Permutation_middle.
  - unfold openFds. by rewrite Hp.
  - unfold openFds. by rewrite Hp.
  - unfold openFds. rewrite Hp. cbn. by rewrite Permutation_app_comm.
  - unfold openFds. by destruct Hp as [-> | ->].
  - apply symmetry, openFds_same; [done|]. by apply (openFd_moves s i fd Serving).
Qed.

Lemma runs_accounts s evs :
  runs step new evs s -> acceptedOf evs ≡ₚ closedOf evs ++ openFds s.
Proof.
  remember new as s0 eqn:E0. intros Hr. induction Hr as [s|s evs s1 ev s2 Hr IH Hst]; subst; [done|].
  unfold acceptedOf, closedOf in *. rewrite !trace_snoc, IH by done. rewrite <- !app_assoc. f_equiv.
  by apply step_accounts.
Qed.

(** ** Stopping *)

Lemma work_moves s i fd p p' :
  connections s !! i = Some (fd, p) ->
  sumZ progressWork (<[i := (fd, p')]> (connections s)) + progressWork (fd, p) =
  sumZ progressWork (connections s) + progressWork (fd, p').
Proof.
  intros Hi. destruct (openFds_insert s i fd p p' Hi) as (rest & E1 & E2). rewrite E2, E1. cbn [sumZ]. lia.
Qed.

(** Once the byte is in the pipe every step is one of the last. *)
Lemma step_remaining s ev s' :
  step s ev s' -> shutdownPipe_ s = true ->
  shutdownPipe_ s' = true /\ 1 + remaining s' <= remaining s + stopCost ev.
Proof.
  intros Hst Hpipe. unfold remaining.
  destruct Hst as [s ev s' Hst|s Hp Hn|s Hp|s fd Hp Hfresh|s Hp|s i fd Hi|s|s]; [|congruence|..]; cbn.
  - destruct Hst as [s Hp|s Hp Hst|s Hp Hst|s Hp Hst|s Hp|s fd Hp|s fd Hp|s Hp|s i fd Hi|s i fd Hi|s i fd Hi Hk|s i fd Hi|s Hp Hd];
      cbn; (split; [done|]); rewrite ?Hp, ?sumZ_app; cbn; try lia.
    + pose proof (work_moves s i fd _ Registered Hi) as W. cbn in W. lia.
    + pose proof (work_moves s i fd _ (if running_ s then Serving else Leaving) Hi) as W.
      destruct (running_ s); cbn in W; lia.
    + pose proof (work_moves s i fd _ Leaving Hi) as W. cbn in W. lia.
    + pose proof (work_moves s i fd _ Done Hi) as W. cbn in W. lia.
  - rewrite Hp. cbn. split; [done|lia].
  - rewrite Hp. cbn. split; [done|lia].
  - split; [done|]. destruct Hp as [-> | ->]; cbn; lia.
  - split; [done|]. pose proof (work_moves s i fd _ Leaving Hi) as W. cbn in W. lia.
  - split; [done|lia].
  - split; [done|lia].
Qed.

Lemma loop_remaining_nonneg s : 0 <= remaining s.
Proof.
  unfold remaining. assert (0 <= sumZ progressWork (connections s)).
  { apply sumZ_nonneg. intros [fd []] _; cbn; lia. }
  destruct (phase s); cbn; lia.
Qed.

Lemma loop_runs_remaining s evs s' :
  runs step s evs s' -> shutdownPipe_ s = true ->
  shutdownPipe_ s' = true /\ len evs + remaining s' <= remaining s + sumZ stopCost evs.
Proof.
  intros Hr Hp. induction Hr as [s|s evs s1 ev s2 Hr IH Hst]; [split; [done|unfold len; cbn; lia]|].
  destruct (IH Hp) as [Hp1 IH1]. destruct (step_remaining _ _ _ Hst Hp1) as [Hp2 Hle].
  split; [done|]. rewrite len_app, sumZ_app. cbn. change (len [ev]) with 1. lia.
Qed.

(** A stopped server with nothing to do by itself has returned, and holds nothing. *)
Lemma quiescent_finished s :
  loopInv s -> shutdownPipe_ s = true -> (forall ev s', ~ serverStep s ev s') ->
  phase s = Finished /\ openFds s = [] /\ kernel s = ∅ /\ activeConnections_ s = ∅.
Proof.
  intros HI Hpipe Hq.
  assert (phase s = Draining \/ phase s = Finished) as Hphase.
  { destruct (running_ s) eqn:Er, (phase s) eqn:Ep; try (by left); try (by right); exfalso; eapply Hq.
    1, 7: by apply step_begin.
    1, 6: first [by apply step_again|by apply step_endLoop].
    1, 5: by apply step_break.
    1, 4: by apply step_acceptRetry.
    1, 3: by apply step_submit.
    1, 2: by apply step_interrupt. }
  assert (forallb isDone (connections s) = true) as Hdone.
  { apply forallb_forall. intros [fd p] Hin%list_elem_of_In. pose proof Hin as [i Hi]%list_elem_of_lookup.
    destruct p; [exfalso..|done]; eapply Hq.
    - by eapply step_register.
    - by eapply step_checkRunning.
    - eapply step_recvEnds; [done|]. apply (li_interrupted _ HI); [|done]. by destruct Hphase as [-> | ->].
    - by eapply step_unregister. }
  assert (phase s = Finished) as Hf.
  { destruct Hphase as [Hd|?]; [|done]. exfalso. eapply Hq. by apply step_finish. }
  assert (openFds s = []) as Ho.
  { unfold openFds. rewrite Hf. cbn. clear -Hdone. induction (connections s) as [|c l IH]; [done|].
    cbn in *. apply andb_prop in Hdone as [Hc Hl]. unfold openFd at 1. rewrite Hc. by apply IH. }
  split_and!; [done..| |].
  - apply map_eq. intros fd. rewrite lookup_empty. apply eq_None_not_Some. intros Hs.
    apply (li_kernel _ HI) in Hs. rewrite Ho in Hs. by apply elem_of_nil in Hs.
  - apply set_eq. intros fd. rewrite (li_active _ HI). split; [|set_solver]. intros Hin%ownFd_open.
    assert (fd ∈ openFds s) as Hx by (unfold openFds; apply elem_of_app; by right).
    rewrite Ho in Hx. by apply elem_of_nil in Hx.
Qed.

End AcceptLoop.
