(* ===== verification/AcceptClaims.v ===== *)
(** * Connections of a running server: theorems *)
From S2P Require Import Prelude.
From S2P Require Import Trace.
From S2P Require Import Accept.
Import AcceptLoop.

#[local] Open Scope Z_scope.

(** C16: every connection is closed exactly once and no descriptor is used after it was
    closed.  Over every interleaving of the accept loop, the workers, the clients and
    calls of [stop], the kernel handing out any descriptor that is not open: what was
    accepted is what was closed and what is still in the server's hands, each once; the
    descriptors open in the kernel are exactly the latter; and neither [close] nor
    [shutdown] is ever called on a descriptor that is not open. *)
Theorem descriptors_closed_once evs s :
  runs step new evs s ->
  acceptedOf evs ≡ₚ closedOf evs ++ openFds s /\ NoDup (openFds s) /\
  (forall fd, is_Some (kernel s !! fd) <-> fd ∈ openFds s) /\ misused s = false.
Proof.
  intros Hr. pose proof (runs_inv loopInv step _ _ _ loop_step_inv loop_new_inv Hr) as HI.
  split_and!; [by apply runs_accounts|apply HI..].
Qed.


(** ** Witnesses *)

(** A connection is being served when [stop] comes; another arrives between [poll] and
    [accept]. *)
Definition busyEvents : list Event :=
  [Silent; Silent; Silent; Accepted 7; Silent; Silent; Silent; Silent; Silent; StopCalled; Woken; Accepted 8].

Definition busyServer : t :=
  mk (Holding 8) false true {[7]} [(7, Serving)] {[7 := Live; 8 := Live]} false.

Lemma busy_runs : runs step new busyEvents busyServer.
Proof.
  unfold busyEvents.
  eapply runs_cons; [apply step_server, step_begin; reflexivity|].
  eapply runs_cons; [apply step_server, step_again; reflexivity|].
  eapply runs_cons; [apply step_ready; reflexivity|].
  eapply runs_cons; [apply (step_accept _ 7); reflexivity|].
  eapply runs_cons; [apply step_server, (step_submit _ 7); reflexivity|].
  eapply runs_cons; [apply step_server, (step_register _ 0 7); reflexivity|].
  eapply runs_cons; [apply step_server, (step_checkRunning _ 0 7); reflexivity|].
  eapply runs_cons; [apply step_server, step_again; reflexivity|].
  eapply runs_cons; [apply step_ready; reflexivity|].
  eapply runs_cons; [apply step_stop|].
  eapply runs_cons; [apply step_wake|].
  eapply runs_cons; [apply (step_accept _ 8); reflexivity|].
  match goal with |- runs _ ?s [] _ => replace s with busyServer; [apply runs_nil|] end.
  vm_compute. reflexivity.
Qed.

Lemma descriptors_witness : acceptedOf busyEvents ≡ₚ closedOf busyEvents ++ openFds busyServer.
Proof. exact (proj1 (descriptors_closed_once busyEvents busyServer busy_runs)). Defined.

