(* ===== verification/Locking.v ===== *)
(** * The database under concurrent callers: locks, calls and steps

    [Database.cpp] once more, this time between threads.  Every method is a
    sequence of critical sections, each under the [std::shared_mutex] of one shard:
    the single-key methods take the lock of the key's shard once, the
    whole-keyspace methods take the locks one after the other and release each
    before the next.  A system is a database, one mutex per shard and the calls in
    progress; an action starts a call or lets one thread run to its next point of
    interest: taking a lock, the work under it, the promotion of a key a GET has
    found, releasing the lock, returning.  Clock readings never go backwards.

    [Database::setMaxMemory] is not a call here: the program changes the limit
    before it starts a thread. *)
From S2P Require Import Prelude.
From S2P Require Import Hash.
From S2P Require Import Table.
From S2P Require Import Store.
Import Database.

#[local] Open Scope Z_scope.

(** A step can happen, has to wait, or is undefined behaviour. *)
Inductive Outcome (A : Type) := Stepped (a : A) | Blocked | Undefined.
Arguments Stepped {A}.
Arguments Blocked {A}.
Arguments Undefined {A}.

Module ShardLocks.

(** ** The mutex of a shard *)

(** [ReadLock] and [WriteLock]. *)
Inductive Mode := Shared | Exclusive.

(** A [std::shared_mutex] knows who owns it: one thread alone, or any number
    together. *)
Record shared_mutex := mkMutex {
  writer : option nat;
  readers : gset nat
}.

Definition unlocked : shared_mutex := mkMutex None ∅.

Definition owns (tid : nat) (mx : shared_mutex) : bool :=
  bool_decide (writer mx = Some tid) || bool_decide (tid ∈ readers mx).

(** Locking: undefined for a thread that owns the mutex already. *)
Definition lock (mode : Mode) (tid : nat) (mx : shared_mutex) : Outcome shared_mutex :=
  if owns tid mx then Undefined
  else match mode, writer mx with
  | _, Some _ => Blocked
  | Shared, None => Stepped (mkMutex None ({[tid]} ∪ readers mx))
  | Exclusive, None =>
      if decide (readers mx = ∅) then Stepped (mkMutex (Some tid) ∅) else Blocked
  end.

(** Unlocking: undefined for a thread that does not own the mutex that way. *)
Definition unlock (mode : Mode) (tid : nat) (mx : shared_mutex) : Outcome shared_mutex :=
  match mode with
  | Exclusive =>
      if decide (writer mx = Some tid) then Stepped (mkMutex None (readers mx)) else Undefined
  | Shared =>
      if decide (tid ∈ readers mx) then Stepped (mkMutex (writer mx) (readers mx ∖ {[tid]}))
      else Undefined
  end.

(** ** Calls *)

(** What [size], [bucketCount], [memoryUsage] and [evictedCount] add up. *)
Inductive Figure := Entries | Buckets | Bytes | Evicted.

(** A call at a point outside the locks: the method with its arguments and, for a
    loop, the index of the next shard and what has been gathered. *)
Inductive Call :=
| CallSet (key value : bytes)
| CallSetEx (key value : bytes) (ttl : Z)
| CallGet (key : bytes)
| CallTtl (key : bytes)
| CallDel (key : bytes)
| CallExists (key : bytes)
| CallKeys (i : nat) (result : list bytes)
| CallSum (figure : Figure) (i : nat) (total : Z)
| CallEmpty (i : nat)
| CallRemoveExpired (maxBuckets : Z)
| CallSweep (perShard : Z) (i : nat) (removed : Z)
| CallSnapshot (i : nat) (result : list Entry)
| CallClear (i : nat)
| CallRestore (i : nat) (entries : list Entry)
| CallLoad (now : time_point) (entries : list Entry) (stored : Z).

Inductive Result :=
| ROutcome (outcome : SetOutcome)
| RValue (value : option bytes)
| RTtl (seconds : option Z)
| RBool (b : bool)
| RKeys (keys : list bytes)
| RNumber (n : Z)
| REntries (entries : list Entry)
| RDone.

(** What a call does next outside the locks. *)
Inductive Next :=
| Acquire (i : nat) (mode : Mode)
| Goto (c : Call)
| Done (r : Result).

(** [for (const auto& shard : shards_)]: the lock of shard [i], or the end. *)
Definition loop (db : t) (i : nat) (mode : Mode) (exit : Next) : Next :=
  if (i <? length (shards_ db))%nat then Acquire i mode else exit.

Definition next (now : time_point) (db : t) (c : Call) : Next :=
  match c with
  | CallSet key _ | CallSetEx key _ _ | CallDel key => Acquire (shardIndexFor db key) Exclusive
  | CallGet key | CallTtl key | CallExists key => Acquire (shardIndexFor db key) Shared
  | CallKeys i result => loop db i Shared (Done (RKeys result))
  | CallSum _ i total => loop db i Shared (Done (RNumber total))
  | CallEmpty i => loop db i Shared (Done (RBool true))
  | CallRemoveExpired maxBuckets =>
      if maxBuckets =? 0 then Done (RNumber 0)
      else Goto (CallSweep (Z.max (maxBuckets / shardCount db) 1) 0 0)
  | CallSweep _ i removed => loop db i Exclusive (Done (RNumber removed))
  | CallSnapshot i result => loop db i Shared (Done (REntries result))
  | CallClear i => loop db i Exclusive (Done RDone)
  | CallRestore i entries => loop db i Exclusive (Goto (CallLoad now entries 0))
  | CallLoad now [] stored => Done (RNumber stored)
  | CallLoad now (e :: entries) stored =>
      if isExpiredAt e now then Goto (CallLoad now entries stored)
      else Acquire (shardIndexFor db (ekey e)) Exclusive
  end.

(** ** Under the lock *)

(** What follows the work of a section: the rest of the call, the promotion of the
    key a GET has found, or the result. *)
Inductive After :=
| Then (c : Call)
| Promote (key value : bytes)
| Finish (r : Result).

Definition figureOf `{Platform} (figure : Figure) (sh : Shard) : Z :=
  match figure with
  | Entries => HashTable.size (table sh)
  | Buckets => HashTable.bucketCount (table sh)
  | Bytes => HashTable.memoryUsage (table sh)
  | Evicted => evicted sh
  end.

(** Shard [i] replaced by what the section made of it. *)
Definition putShard (db : t) (i : nat) (sh : Shard) : t := withShards (<[i := sh]> (shards_ db)) db.

(** [get] up to the copy of the value. *)
Definition lookup (now : time_point) (db : t) (key : bytes) : option After :=
  sh ← shardFor db key;
  found ← HashTable.find (table sh) key;
  match found with
  | None => Some (Finish (RValue None))
  | Some e =>
      if isExpiredAt e now then Some (Finish (RValue None))
      else if negb (maxMemoryBytes sh =? 0) then Some (Promote key (evalue e))
      else Some (Finish (RValue (Some (evalue e))))
  end.

Definition body `{Platform} (now : time_point) (db : t) (c : Call) : option (t * After) :=
  match c with
  | CallSet key value =>
      r ← Database.set db key value; Some (fst r, Finish (ROutcome (snd r)))
  | CallSetEx key value ttl =>
      r ← Database.setEx db key value ttl now; Some (fst r, Finish (ROutcome (snd r)))
  | CallGet key => a ← lookup now db key; Some (db, a)
  | CallTtl key => r ← Database.ttl db key now; Some (db, Finish (RTtl r))
  | CallDel key => r ← Database.del db key now; Some (fst r, Finish (RBool (snd r)))
  | CallExists key => r ← Database.exists_ db key now; Some (db, Finish (RBool r))
  | CallKeys i result =>
      sh ← shards_ db !! i;
      fromShard ← HashTable.keysWhere (table sh) (fun e => negb (isExpiredAt e now));
      Some (db, Then (CallKeys (S i) (result ++ fromShard)))
  | CallSum figure i total =>
      sh ← shards_ db !! i;
      Some (db, Then (CallSum figure (S i) (u64 (total + figureOf figure sh))))
  | CallEmpty i =>
      sh ← shards_ db !! i;
      Some (db, if negb (HashTable.isEmpty (table sh)) then Finish (RBool false)
                else Then (CallEmpty (S i)))
  | CallRemoveExpired _ => None
  | CallSweep perShard i removed =>
      sh ← shards_ db !! i;
      r ← sweepShard perShard now sh;
      Some (putShard db i (fst r), Then (CallSweep perShard (S i) (u64 (removed + snd r))))
  | CallSnapshot i result =>
      sh ← shards_ db !! i;
      fromShard ← HashTable.entriesWhere (table sh) (fun e => negb (isExpiredAt e now));
      Some (db, Then (CallSnapshot (S i) (result ++ fromShard)))
  | CallClear i =>
      sh ← shards_ db !! i;
      sh ← clearShard sh;
      Some (putShard db i sh, Then (CallClear (S i)))
  | CallRestore i entries =>
      sh ← shards_ db !! i;
      sh ← clearShard sh;
      Some (putShard db i sh, Then (CallRestore (S i) entries))
  | CallLoad since [] stored => None
  | CallLoad since (e :: entries) stored =>
      r ← restoreEntry since (db, stored) e;
      Some (fst r, Then (CallLoad since entries (snd r)))
  end.

(** [shard.table.touch(key)]: the recency list, under its own mutex. *)
Definition promote (db : t) (key : bytes) : option t :=
  sh ← shardFor db key;
  r ← HashTable.touch (table sh) key;
  Some (storeShard db key (withTable (fst r) sh)).

(** ** The system *)

(** Where a call in progress is. *)
Inductive Thread :=
| Ready (c : Call)
| Held (i : nat) (mode : Mode) (c : Call)
| Promoting (i : nat) (key value : bytes)
| Releasing (i : nat) (mode : Mode) (a : After)
| Leaving (r : Result).

Record System := mkSystem {
  database : t;
  mutexes : list shared_mutex;
  threads : gmap nat Thread;
  clock : time_point
}.

Inductive Event :=
| Invoked (tid : nat) (c : Call)
| Applied (tid : nat) (now : time_point) (c : Call) (a : After)
| Returned (tid : nat) (r : Result)
| Silent (tid : nat).

Inductive Action :=
| Invoke (tid : nat) (c : Call)
| Run (tid : nat) (now : time_point).

(** The points at which the methods start. *)
Definition entryPoint (c : Call) : bool :=
  match c with
  | CallKeys i result => (i =? 0)%nat && bool_decide (result = [])
  | CallSum _ i total => (i =? 0)%nat && (total =? 0)
  | CallEmpty i | CallClear i | CallRestore i _ => (i =? 0)%nat
  | CallSnapshot i result => (i =? 0)%nat && match result with [] => true | _ => false end
  | CallSweep _ _ _ | CallLoad _ _ _ => false
  | _ => true
  end.

Definition withThread (tid : nat) (th : Thread) (s : System) : System :=
  mkSystem (database s) (mutexes s) (<[tid := th]> (threads s)) (clock s).
Definition withMutex (i : nat) (mx : shared_mutex) (s : System) : System :=
  mkSystem (database s) (<[i := mx]> (mutexes s)) (threads s) (clock s).
Definition withDb (db : t) (s : System) : System :=
  mkSystem db (mutexes s) (threads s) (clock s).
Definition withClock (now : time_point) (s : System) : System :=
  mkSystem (database s) (mutexes s) (threads s) now.
Definition leave (tid : nat) (s : System) : System :=
  mkSystem (database s) (mutexes s) (delete tid (threads s)) (clock s).

(** The thread after the lock has been released. *)
Definition resume (a : After) : Thread :=
  match a with
  | Then c => Ready c
  | Promote _ value => Leaving (RValue (Some value))
  | Finish r => Leaving r
  end.

(** The thread after the work under the lock. *)
Definition worked (i : nat) (mode : Mode) (a : After) : Thread :=
  match a with
  | Promote key value => Promoting i key value
  | _ => Releasing i mode a
  end.

(** One move of a thread. *)
Definition move `{Platform} (tid : nat) (now : time_point) (th : Thread) (s : System)
    : Outcome (Event * System) :=
  match th with
  | Ready c =>
      match next now (database s) c with
      | Acquire i mode =>
          match mutexes s !! i with
          | None => Undefined
          | Some mx =>
              match lock mode tid mx with
              | Stepped mx' => Stepped (Silent tid, withThread tid (Held i mode c) (withMutex i mx' s))
              | Blocked => Blocked
              | Undefined => Undefined
              end
          end
      | Goto c' => Stepped (Silent tid, withThread tid (Ready c') s)
      | Done r => Stepped (Silent tid, withThread tid (Leaving r) s)
      end
  | Held i mode c =>
      match body now (database s) c with
      | None => Undefined
      | Some (db', a) => Stepped (Applied tid now c a, withThread tid (worked i mode a) (withDb db' s))
      end
  | Promoting i key value =>
      match promote (database s) key with
      | None => Undefined
      | Some db' =>
          Stepped (Silent tid,
                   withThread tid (Releasing i Shared (Finish (RValue (Some value)))) (withDb db' s))
      end
  | Releasing i mode a =>
      match mutexes s !! i with
      | None => Undefined
      | Some mx =>
          match unlock mode tid mx with
          | Stepped mx' => Stepped (Silent tid, withThread tid (resume a) (withMutex i mx' s))
          | Blocked => Blocked
          | Undefined => Undefined
          end
      end
  | Leaving r => Stepped (Returned tid r, leave tid s)
  end.

(** One action.  A thread without a call in progress may start one. *)
Definition act `{Platform} (a : Action) (s : System) : Outcome (Event * System) :=
  match a with
  | Invoke tid c =>
      match threads s !! tid with
      | Some _ => Blocked
      | None => if entryPoint c then Stepped (Invoked tid c, withThread tid (Ready c) s) else Blocked
      end
  | Run tid now =>
      match threads s !! tid with
      | None => Blocked
      | Some th => if clock s <=? now then move tid now th (withClock now s) else Blocked
      end
  end.

Definition step `{Platform} (s : System) (ev : Event) (s' : System) : Prop :=
  exists a, act a s = Stepped (ev, s').

(** A sequence of actions, with its events. *)
Fixpoint actAll `{Platform} (actions : list Action) (s : System) : option (list Event * System) :=
  match actions with
  | [] => Some ([], s)
  | a :: rest =>
      match act a s with
      | Stepped (ev, s1) => '(evs, s2) ← actAll rest s1; Some (ev :: evs, s2)
      | _ => None
      end
  end.

(** A database nobody is using. *)
Definition idle (db : t) (now : time_point) : System :=
  mkSystem db (replicate (length (shards_ db)) unlocked) ∅ now.

End ShardLocks.
