(* ===== verification/LockingInv.v ===== *)
(** * Mutual exclusion in the shards

    The mutexes record exactly which threads are inside which critical section, a
    section works on its own shard and nothing else, and while a thread is inside a
    section the others leave its shard as it is: all of it when the lock is
    exclusive, everything but the order of the recency list when it is shared. *)
From S2P Require Import Prelude.
From S2P Require Import Hash.
From S2P Require Import Table.
From S2P Require Import Store.
From S2P Require Import Trace.
From S2P Require Import Locking.
Import Database ShardLocks.

#[local] Open Scope Z_scope.

(** ** Definitions *)

(** The lock a thread is inside of. *)
Definition holds (th : Thread) : option (nat * Mode) :=
  match th with
  | Held i mode _ | Releasing i mode _ => Some (i, mode)
  | Promoting i _ _ => Some (i, Shared)
  | Ready _ | Leaving _ => None
  end.

Definition inside (s : System) (tid : nat) (i : nat) (mode : Mode) : Prop :=
  threads s !! tid ≫= holds = Some (i, mode).

(** What a mutex says of its owners is where the threads are. *)
Record mutexOk (s : System) (i : nat) (mx : shared_mutex) : Prop := {
  mo_writer : forall tid, writer mx = Some tid <-> inside s tid i Exclusive;
  mo_readers : forall tid, tid ∈ readers mx <-> inside s tid i Shared;
  mo_alone : writer mx <> None -> readers mx = ∅
}.

(** Databases that route keys the same way. *)
Record sameRouting (db db' : t) : Prop := {
  sr_length : length (shards_ db') = length (shards_ db);
  sr_mask : shardMask_ db' = shardMask_ db;
  sr_shift : shardShift_ db' = shardShift_ db;
  sr_limit : maxMemoryBytes_ db' = maxMemoryBytes_ db
}.

(** A section is in the shard its call asked for. *)
Definition wellPlaced (db : t) (th : Thread) : Prop :=
  match th with
  | Held i mode c => exists now, next now db c = Acquire i mode
  | Promoting i key _ => i = shardIndexFor db key
  | _ => True
  end.

Record locksOk (s : System) : Prop := {
  lo_length : length (mutexes s) = length (shards_ (database s));
  lo_mutex : forall i mx, mutexes s !! i = Some mx -> mutexOk s i mx;
  lo_bound : forall tid i mode, inside s tid i mode -> (i < length (mutexes s))%nat;
  lo_placed : forall tid th, threads s !! tid = Some th -> wellPlaced (database s) th
}.

(** What a table holds, the links of the recency list left out. *)
Definition content (ht : HashTable.t) :=
  (HashTable.buckets_ ht,
   (fun n => (HashTable.entry n, HashTable.footprint n)) <$> HashTable.nodes ht,
   HashTable.size_ ht, HashTable.entryBytes_ ht).

(** Shards that differ in recency only. *)
Record sameShard (sh sh' : Shard) : Prop := {
  sm_content : content (table sh') = content (table sh);
  sm_cursor : sweepCursor sh' = sweepCursor sh;
  sm_evicted : evicted sh' = evicted sh;
  sm_limit : maxMemoryBytes sh' = maxMemoryBytes sh
}.

(** ** Routing *)

#[global] Instance sameRouting_equivalence : Equivalence sameRouting.
Proof.
  split.
  - by intros db.
  - intros db db' [????]. by split.
  - intros db1 db2 db3 [????] [????]. split; congruence.
Qed.

Lemma sameRouting_index db db' key : sameRouting db db' -> shardIndexFor db' key = shardIndexFor db key.
Proof. intros [_ Hm Hs _]. unfold shardIndexFor. by rewrite Hm, Hs. Qed.

Lemma sameRouting_next db db' now c : sameRouting db db' -> next now db' c = next now db c.
Proof.
  intros Hr. unfold next, loop, shardCount, len. rewrite (sr_length _ _ Hr).
  destruct c as [| | | | | | | | | | | | | |? [|??] ?]; by rewrite ?(sameRouting_index _ _ _ Hr).
Qed.

Lemma sameRouting_placed db db' th : sameRouting db db' -> wellPlaced db th -> wellPlaced db' th.
Proof.
  intros Hr. destruct th as [|i mode c|i key v| |]; simpl; try done.
  - intros [now Hn]. exists now. by rewrite (sameRouting_next _ _ _ _ Hr).
  - by rewrite (sameRouting_index _ _ _ Hr).
Qed.

Lemma sameRouting_insert db i sh : sameRouting db (putShard db i sh).
Proof. split; try done. simpl. by rewrite length_insert. Qed.

(** A call that takes a lock takes the same one whatever the clock says. *)
Lemma next_acquire now now' db c i mode :
  next now db c = Acquire i mode -> next now' db c = Acquire i mode.
Proof. destruct c as [| | | | | | | | | | | | | |? [|??] ?]; simpl; unfold loop; repeat case_match; congruence. Qed.

(** ** A section works on its shard *)

(** [db'] is [db] but for shard [i]. *)
Definition changesOnly (i : nat) (db db' : t) : Prop :=
  sameRouting db db' /\ forall j, j <> i -> shards_ db' !! j = shards_ db !! j.

Lemma changesOnly_put db i sh : changesOnly i db (putShard db i sh).
Proof.
  split; [apply sameRouting_insert|]. intros j Hj. simpl. by rewrite list_lookup_insert_ne.
Qed.

Lemma changesOnly_refl db i : changesOnly i db db.
Proof. by split. Qed.

#[local] Hint Resolve changesOnly_put changesOnly_refl : vcache.

Lemma changesOnly_store db key sh : changesOnly (shardIndexFor db key) db (storeShard db key sh).
Proof. apply changesOnly_put. Qed.

#[local] Hint Resolve changesOnly_store : vcache.

Section Platforms.
Context `{Platform}.

(** The work under an exclusive lock stays in the shard; the work under a shared
    lock changes nothing. *)
Lemma body_frame now now' db c db' a i mode :
  body now db c = Some (db', a) -> next now' db c = Acquire i mode ->
  changesOnly i db db' /\ (mode = Shared -> db' = db).
Proof.
  intros Hb Hn.
  destruct c as [k v|k v ttl|k|k|k|k|i0 l|f i0 z|i0|z|z i0 z'|i0 l|i0|i0 l|since [|e l] z];
    simpl in Hb, Hn; unfold loop in Hn;
    try (case_match; simplify_eq; []);
    unfold Database.set, Database.setEx, Database.del, Database.restoreEntry in Hb;
    repeat (simplify_option_eq; try case_match); (split; [auto with vcache|done]).
Qed.

Lemma promote_frame db key db' : promote db key = Some db' -> changesOnly (shardIndexFor db key) db db'.
Proof. unfold promote. intros Hp. simplify_option_eq. auto with vcache. Qed.

(** ** The steps as rules *)

Inductive moves (s : System) : Event -> System -> Prop :=
| moves_invoke tid c : threads s !! tid = None -> entryPoint c = true ->
    moves s (Invoked tid c) (withThread tid (Ready c) s)
| moves_lock tid now c i mode mx mx' : threads s !! tid = Some (Ready c) -> clock s <= now ->
    next now (database s) c = Acquire i mode -> mutexes s !! i = Some mx ->
    lock mode tid mx = Stepped mx' ->
    moves s (Silent tid) (withThread tid (Held i mode c) (withMutex i mx' (withClock now s)))
| moves_goto tid now c c' : threads s !! tid = Some (Ready c) -> clock s <= now ->
    next now (database s) c = Goto c' ->
    moves s (Silent tid) (withThread tid (Ready c') (withClock now s))
| moves_done tid now c r : threads s !! tid = Some (Ready c) -> clock s <= now ->
    next now (database s) c = Done r ->
    moves s (Silent tid) (withThread tid (Leaving r) (withClock now s))
| moves_work tid now i mode c db' a : threads s !! tid = Some (Held i mode c) -> clock s <= now ->
    body now (database s) c = Some (db', a) ->
    moves s (Applied tid now c a) (withThread tid (worked i mode a) (withDb db' (withClock now s)))
| moves_promote tid now i key value db' : threads s !! tid = Some (Promoting i key value) ->
    clock s <= now -> promote (database s) key = Some db' ->
    moves s (Silent tid)
      (withThread tid (Releasing i Shared (Finish (RValue (Some value)))) (withDb db' (withClock now s)))
| moves_unlock tid now i mode a mx mx' : threads s !! tid = Some (Releasing i mode a) ->
    clock s <= now -> mutexes s !! i = Some mx -> unlock mode tid mx = Stepped mx' ->
    moves s (Silent tid) (withThread tid (resume a) (withMutex i mx' (withClock now s)))
| moves_return tid now r : threads s !! tid = Some (Leaving r) -> clock s <= now ->
    moves s (Returned tid r) (leave tid (withClock now s)).

Lemma step_moves s ev s' : step s ev s' -> moves s ev s'.
Proof.
  intros [[tid c|tid now] Ha]; simpl in Ha; destruct (threads s !! tid) as [th|] eqn:Ht; try done.
  - destruct (entryPoint c) eqn:He; simplify_eq. by constructor.
  - destruct (Z.leb_spec (clock s) now); [|done].
    destruct th; simpl in Ha; repeat case_match; simplify_eq; by econstructor.
Qed.

(** ** The invariant *)

Lemma inside_thread s tid th t i mode :
  inside (withThread tid th s) t i mode <->
  if decide (t = tid) then holds th = Some (i, mode) else inside s t i mode.
Proof. unfold inside. simpl. case_decide; [subst; by rewrite lookup_insert_eq|by rewrite lookup_insert_ne]. Qed.

(** Same owners, same mutex. *)
Lemma mutexOk_ext s s' i mx :
  (forall t mode, inside s' t i mode <-> inside s t i mode) -> mutexOk s i mx -> mutexOk s' i mx.
Proof.
  intros Hin [Hw Hr Ha]. split; [|by intros; rewrite Hin|done]. intros t. by rewrite Hin.
Qed.

(** A step of a thread that neither takes nor releases a lock. *)
Lemma locksOk_local s s' :
  locksOk s -> mutexes s' = mutexes s -> sameRouting (database s) (database s') ->
  (forall t, threads s' !! t ≫= holds = threads s !! t ≫= holds) ->
  (forall t th, threads s' !! t = Some th -> wellPlaced (database s') th \/ threads s !! t = Some th) ->
  locksOk s'.
Proof.
  intros [Hl Hm Hb Hp] Em Hr Hh Hpl. split.
  - by rewrite Em, (sr_length _ _ Hr).
  - intros i mx Hi. rewrite Em in Hi. eapply mutexOk_ext; [|by apply Hm].
    intros t mode. unfold inside. by rewrite Hh.
  - intros t i mode. unfold inside. rewrite Hh, Em. apply Hb.
  - intros t th Ht. destruct (Hpl t th Ht) as [?|Ht']; [done|]. by eapply sameRouting_placed, Hp.
Qed.

Lemma locksOk_thread s tid th db now :
  locksOk s -> sameRouting (database s) db -> threads s !! tid ≫= holds = holds th ->
  wellPlaced db th -> locksOk (withThread tid th (withDb db (withClock now s))).
Proof.
  intros HL Hr Hh Hp. apply (locksOk_local s); try done.
  - intros t. simpl. destruct (decide (t = tid)) as [->|?];
      [by rewrite lookup_insert_eq|by rewrite lookup_insert_ne].
  - intros t th'. simpl. rewrite lookup_insert_Some. intros [[_ <-]|[_ ?]]; [by left|by right].
Qed.

(** A step that changes the owners of one mutex. *)
Lemma locksOk_mutex s tid th i mx now :
  locksOk s -> (i < length (mutexes s))%nat ->
  (forall j mode, j <> i -> threads s !! tid ≫= holds <> Some (j, mode)) ->
  (forall j mode, holds th = Some (j, mode) -> j = i) ->
  mutexOk (withThread tid th s) i mx -> wellPlaced (database s) th ->
  locksOk (withThread tid th (withMutex i mx (withClock now s))).
Proof.
  intros [Hl Hm Hb Hp] Hi Hold Hnew Hmx Hpl. split; simpl.
  - by rewrite length_insert.
  - intros j mj Hj. apply list_lookup_insert_Some in Hj as [(<- & <- & _)|[Hne Hj]].
    + eapply mutexOk_ext; [|exact Hmx]. intros t mode. by rewrite !inside_thread.
    + eapply mutexOk_ext; [|by apply Hm]. intros t mode. rewrite inside_thread. case_decide; [|done].
      subst t. split.
      * by intros ->%Hnew.
      * intros Hin. by destruct (Hold j mode).
  - intros t j mode. rewrite inside_thread, length_insert. case_decide; [by intros ->%Hnew|apply Hb].
  - intros t th'. rewrite lookup_insert_Some. intros [[_ <-]|[_ ?]]; [done|]. by eapply Hp.
Qed.

Lemma lock_owners s tid th i mode mx mx' :
  mutexOk s i mx -> threads s !! tid ≫= holds = None -> holds th = Some (i, mode) ->
  lock mode tid mx = Stepped mx' -> mutexOk (withThread tid th s) i mx'.
Proof.
  intros [Hw Hr Ha] Hfree Hth Hlock. unfold lock in Hlock.
  destruct (owns tid mx); [done|]. destruct (writer mx) as [w|] eqn:Ew; [by destruct mode|].
  assert (forall m, ~ inside s tid i m) as Hnot by (intros m; unfold inside; by rewrite Hfree).
  destruct mode.
  - simplify_eq. split; simpl; intros t; rewrite ?inside_thread.
    + split; [done|]. case_decide; [congruence|]. rewrite <- Hw. done.
    + rewrite elem_of_union, elem_of_singleton, Hr. case_decide; subst; [by rewrite Hth; tauto|tauto].
    + done.
  - case_decide as He; [|done]. simplify_eq. split; simpl; [| |done]; intros t; rewrite ?inside_thread.
    + case_decide; [by subst; rewrite Hth|]. rewrite <- Hw. split; congruence.
    + split; [set_solver|]. case_decide; [congruence|]. rewrite <- Hr, He. set_solver.
Qed.

Lemma unlock_owners s tid th i mode mx mx' :
  mutexOk s i mx -> inside s tid i mode -> holds th = None ->
  unlock mode tid mx = Stepped mx' -> mutexOk (withThread tid th s) i mx'.
Proof.
  intros [Hw Hr Ha] Hin Hth Hun.
  assert (forall m, inside s tid i m -> m = mode) as Hmode by (intros m; unfold inside in *; congruence).
  destruct mode; simpl in Hun; case_decide as Ho; simplify_eq; split; simpl; try intros t;
    rewrite ?inside_thread.
  - rewrite Hw. case_decide; [subst|done]. split; [by intros ?%Hmode|congruence].
  - rewrite elem_of_difference, elem_of_singleton, Hr. case_decide; [subst; split; [tauto|congruence]|tauto].
  - specialize (Ha t). rewrite Ha in Ho. set_solver.
  - case_decide; [split; congruence|]. rewrite <- Hw. split; congruence.
  - rewrite Hr. case_decide; [subst|done]. split; [by intros ?%Hmode|congruence].
  - done.
Qed.

(** The thread that runs can always take up its lock and give it back: nothing is
    locked twice and nothing is unlocked by a stranger. *)
Lemma lock_defined s tid i mode mx :
  mutexOk s i mx -> threads s !! tid ≫= holds = None -> lock mode tid mx <> Undefined.
Proof.
  intros [Hw Hr _] Hfree. assert (owns tid mx = false) as Ho.
  { unfold owns. apply orb_false_intro; apply bool_decide_eq_false; rewrite ?Hw, ?Hr;
      unfold inside; by rewrite Hfree. }
  unfold lock. rewrite Ho. by destruct mode, (writer mx); try case_decide.
Qed.

Lemma unlock_defined s tid i mode mx :
  mutexOk s i mx -> inside s tid i mode -> exists mx', unlock mode tid mx = Stepped mx'.
Proof.
  intros [Hw Hr _] Hin. destruct mode; simpl.
  - rewrite decide_True by (by apply Hr). eauto.
  - rewrite decide_True by (by apply Hw). eauto.
Qed.

Lemma holds_worked i mode a : (forall k v, a = Promote k v -> mode = Shared) ->
  holds (worked i mode a) = Some (i, mode).
Proof. destruct a; simpl; intros Hm; [done| |done]. by rewrite (Hm _ _ eq_refl). Qed.

(** Only a GET asks for a promotion, of its own key. *)
Lemma body_promotes now db c db' k v :
  body now db c = Some (db', Promote k v) -> c = CallGet k.
Proof.
  destruct c as [| | | | | | | |  | | | | | |? [|??] ?]; simpl; unfold lookup; intros Hb;
    repeat (simplify_option_eq; try case_match); done.
Qed.

Lemma moves_locksOk s ev s' : locksOk s -> moves s ev s' -> locksOk s'.
Proof.
  intros HL Hm. pose proof (fun t th Ht => lo_placed _ HL t th Ht) as Hplaced.
  destruct Hm as [tid c Ht He|tid now c i mode mx mx' Ht Hc Hn Hi Hlock|tid now c c' Ht Hc Hn
    |tid now c r Ht Hc Hn|tid now i mode c db' a Ht Hc Hb|tid now i key value db' Ht Hc Hpr
    |tid now i mode a mx mx' Ht Hc Hi Hun|tid now r Ht Hc].
  - apply (locksOk_thread s tid (Ready c) (database s) (clock s)); try done. by rewrite Ht.
  - apply locksOk_mutex; try done.
    + by eapply lookup_lt_Some.
    + intros j m. by rewrite Ht.
    + intros j m Hh. simpl in Hh. congruence.
    + eapply lock_owners; [by apply (lo_mutex _ HL)|by rewrite Ht|done|done].
    + simpl. eauto.
  - apply (locksOk_thread s tid (Ready c') (database s) now); try done. by rewrite Ht.
  - apply (locksOk_thread s tid (Leaving r) (database s) now); try done. by rewrite Ht.
  - destruct (Hplaced _ _ Ht) as [now' Hn']. destruct (body_frame _ _ _ _ _ _ _ _ Hb Hn') as [[Hr _] Hsh].
    apply locksOk_thread; [done|done| |].
    + rewrite Ht. simpl. symmetry. apply holds_worked. intros k v ->.
      apply body_promotes in Hb as ->. simpl in Hn'. congruence.
    + destruct a as [|k v|]; [done| |done]. simpl. apply body_promotes in Hb as ->. simpl in Hn'.
      rewrite (sameRouting_index _ _ _ Hr). congruence.
  - apply promote_frame in Hpr as [Hr _]. apply locksOk_thread; try done. by rewrite Ht.
  - apply locksOk_mutex; try done.
    + by eapply lookup_lt_Some.
    + intros j m Hne. rewrite Ht. simpl. congruence.
    + intros j m. by destruct a.
    + eapply unlock_owners; [by apply (lo_mutex _ HL)| |by destruct a|exact Hun].
      unfold inside. by rewrite Ht.
    + by destruct a.
  - apply (locksOk_local s); try done; simpl.
    + intros t. destruct (decide (t = tid)) as [->|?];
        [by rewrite lookup_delete_eq, Ht|by rewrite lookup_delete_ne].
    + intros t th'. rewrite lookup_delete_Some. intros [_ ?]. by right.
Qed.

Lemma step_locksOk s ev s' : locksOk s -> step s ev s' -> locksOk s'.
Proof. intros HL Hs. by eapply moves_locksOk, step_moves. Qed.

Lemma idle_locksOk db now : locksOk (idle db now).
Proof.
  split; unfold idle, inside; simpl.
  - apply length_replicate.
  - intros i mx [-> _]%lookup_replicate. split; unfold inside; simpl; [done|set_solver|done].
  - done.
  - done.
Qed.

Lemma runs_locksOk db now evs s : runs step (idle db now) evs s -> locksOk s.
Proof. intros Hr. eapply (runs_inv locksOk); [|apply idle_locksOk|exact Hr]. intros. by eapply step_locksOk. Qed.

(** Two threads inside one shard are both there as readers. *)
Lemma inside_shared s t1 t2 i m1 m2 :
  locksOk s -> inside s t1 i m1 -> inside s t2 i m2 -> t1 <> t2 -> m1 = Shared /\ m2 = Shared.
Proof.
  intros HL H1 H2 Hne. destruct (lookup_lt_is_Some_2 (mutexes s) i) as [mx Hi]; [by eapply lo_bound|].
  destruct (lo_mutex _ HL i mx Hi) as [Hw Hr Ha].
  destruct m1, m2; [done|exfalso..].
  - apply Hw in H2. apply Hr in H1. rewrite Ha in H1; [set_solver|congruence].
  - apply Hw in H1. apply Hr in H2. rewrite Ha in H2; [set_solver|congruence].
  - apply Hw in H1, H2. congruence.
Qed.
End Platforms.

(** ** Readers do not disturb each other *)

Lemma store_content p f ht ht' :
  (forall n, HashTable.entry (f n) = HashTable.entry n /\ HashTable.footprint (f n) = HashTable.footprint n) ->
  HashTable.store p f ht = Some ht' -> content ht' = content ht.
Proof.
  intros Hf Hs. unfold HashTable.store in Hs. case_match eqn:Hp; simplify_eq. unfold content. simpl.
  do 3 f_equal. rewrite fmap_insert. destruct (Hf n) as [-> ->]. apply insert_id.
  by rewrite lookup_fmap, Hp.
Qed.

Lemma lruUnlink_content p ht ht' : HashTable.lruUnlink p ht = Some ht' -> content ht' = content ht.
Proof.
  unfold HashTable.lruUnlink. intros Hu.
  repeat (case_match || simplify_option_eq);
    repeat match goal with Hst : HashTable.store _ _ _ = Some _ |- _ =>
      apply store_content in Hst; [|done] end; unfold content in *; simpl in *; congruence.
Qed.

Lemma lruPushFront_content p ht ht' : HashTable.lruPushFront p ht = Some ht' -> content ht' = content ht.
Proof.
  unfold HashTable.lruPushFront. intros Hu.
  repeat (case_match || simplify_option_eq);
    repeat match goal with Hst : HashTable.store _ _ _ = Some _ |- _ =>
      apply store_content in Hst; [|done] end; unfold content in *; simpl in *; congruence.
Qed.

Lemma touch_content ht key r : HashTable.touch ht key = Some r -> content (fst r) = content ht.
Proof.
  unfold HashTable.touch. intros Ht. repeat (case_match || simplify_option_eq); try done. simpl.
  etrans; [by eapply lruPushFront_content|by eapply lruUnlink_content].
Qed.

(** What a reader sees of a node. *)
Lemma content_entry ht ht' p : content ht' = content ht ->
  HashTable.entry <$> HashTable.nodes ht' !! p = HashTable.entry <$> HashTable.nodes ht !! p.
Proof.
  unfold content. intros [= _ Hn _ _]. apply (f_equal (fun h => fst <$> (h !! p))) in Hn.
  rewrite !lookup_fmap in Hn. by destruct (HashTable.nodes ht !! p), (HashTable.nodes ht' !! p).
Qed.

Lemma content_buckets ht ht' : content ht' = content ht -> HashTable.buckets_ ht' = HashTable.buckets_ ht.
Proof. by intros [= ? _ _ _]. Qed.

Lemma findInChain_content ht ht' key chain : content ht' = content ht ->
  HashTable.findInChain (HashTable.nodes ht') key chain = HashTable.findInChain (HashTable.nodes ht) key chain.
Proof.
  intros Hc. induction chain as [|p chain IH]; simpl; [done|]. pose proof (content_entry ht ht' p Hc) as Hp.
  destruct (HashTable.nodes ht !! p), (HashTable.nodes ht' !! p); simplify_eq/=; [|done].
  rewrite Hp. by case_decide.
Qed.

Lemma findNode_content ht ht' key : content ht' = content ht -> HashTable.findNode ht' key = HashTable.findNode ht key.
Proof.
  intros Hc. unfold HashTable.findNode, HashTable.bucketIndexFor, HashTable.bucketCount.
  rewrite (content_buckets _ _ Hc). destruct (HashTable.buckets_ ht) as [|b bs]; [done|].
  destruct ((b :: bs) !! _) as [chain|]; [|done]. by apply findInChain_content.
Qed.

Lemma find_content ht ht' key : content ht' = content ht -> HashTable.find ht' key = HashTable.find ht key.
Proof.
  intros Hc. unfold HashTable.find. rewrite (findNode_content _ _ _ Hc).
  destruct (HashTable.findNode ht key) as [[p|]|]; simpl; [|done..].
  pose proof (content_entry ht ht' p Hc) as Hp.
  destruct (HashTable.nodes ht !! p), (HashTable.nodes ht' !! p); simplify_eq/=; [|done]. by rewrite Hp.
Qed.

Lemma entriesOf_content ht ht' : content ht' = content ht -> HashTable.entriesOf ht' = HashTable.entriesOf ht.
Proof.
  intros Hc. unfold HashTable.entriesOf. rewrite (content_buckets _ _ Hc). apply mapM_ext. intros p.
  pose proof (content_entry ht ht' p Hc) as Hp.
  destruct (HashTable.nodes ht !! p), (HashTable.nodes ht' !! p); simplify_eq/=; [|done]. by rewrite Hp.
Qed.

Section Isolation.
Context `{Platform}.

(** The outcome of a section that leaves the database alone. *)
Lemma outcome_of {A B} (x : option A) (d : t) (f : A -> B) :
  snd <$> (a ← x; Some (d, f a)) = f <$> x.
Proof. by destruct x. Qed.

(** What a reader computes depends on the content of its shard alone. *)
Lemma body_reads now now' db db' c i sh sh' :
  next now' db c = Acquire i Shared -> sameRouting db db' ->
  shards_ db !! i = Some sh -> shards_ db' !! i = Some sh' -> sameShard sh sh' ->
  snd <$> body now db' c = snd <$> body now db c.
Proof.
  intros Hn Hr Hi Hi' [Hc Hcu He Hl].
  assert (HashTable.bucketCount (table sh') = HashTable.bucketCount (table sh)) as Hbc
    by (unfold HashTable.bucketCount; by rewrite (content_buckets _ _ Hc)).
  assert (HashTable.size_ (table sh') = HashTable.size_ (table sh)) as Hsz by (by injection Hc).
  assert (HashTable.entryBytes_ (table sh') = HashTable.entryBytes_ (table sh)) as Hby by (by injection Hc).
  pose proof (fun key => find_content _ _ key Hc) as Hfind. pose proof (entriesOf_content _ _ Hc) as Hall.
  clear Hc.
  destruct c as [k v|k v ttl|k|k|k|k|i0 l|f i0 z|i0|z|z i0 z'|i0 l|i0|i0 l|since [|e l] z];
    simpl in Hn; unfold loop in Hn; repeat case_match; simplify_eq; simpl;
    unfold lookup, Database.ttl, Database.exists_, shardFor;
    rewrite ?(sameRouting_index _ _ _ Hr), ?Hi, ?Hi'; simpl;
    rewrite ?Hfind;
    unfold HashTable.keysWhere, HashTable.entriesWhere; rewrite ?Hall.
  - by rewrite Hl, !(outcome_of _ _ (fun a => a)).
  - by rewrite !outcome_of.
  - by rewrite !outcome_of.
  - by destruct (HashTable.entriesOf (table sh)).
  - destruct f; unfold figureOf, HashTable.size, HashTable.memoryUsage; by rewrite ?Hsz, ?Hbc, ?Hby, ?He.
  - unfold HashTable.isEmpty. by rewrite Hsz.
  - by destruct (HashTable.entriesOf (table sh)).
Qed.

Lemma sameShard_refl sh : sameShard sh sh.
Proof. done. Qed.

Lemma promote_same db key db' sh :
  promote db key = Some db' -> shardFor db key = Some sh ->
  exists sh', shards_ db' !! shardIndexFor db key = Some sh' /\ sameShard sh sh'.
Proof.
  unfold promote. intros Hp Hsh. rewrite Hsh in Hp. simpl in Hp. simplify_option_eq.
  eexists. split; [by apply list_lookup_insert_eq; eapply lookup_lt_Some|].
  split; [|done..]. simpl. by eapply touch_content.
Qed.

(** The thread whose step it is. *)
Definition actor (ev : Event) : nat :=
  match ev with Invoked tid _ | Applied tid _ _ _ | Returned tid _ | Silent tid => tid end.

(** What a step of one thread does to the shard another one is inside of. *)
Lemma moves_isolated s ev s' tid i mode sh :
  locksOk s -> moves s ev s' -> inside s tid i mode -> actor ev <> tid ->
  shards_ (database s) !! i = Some sh ->
  exists sh', shards_ (database s') !! i = Some sh' /\
    match mode with Exclusive => sh' = sh | Shared => sameShard sh sh' end.
Proof.
  intros HL Hm Hin Hact Hsh.
  assert (match mode with Exclusive => sh = sh | Shared => sameShard sh sh end) as Hsame by by destruct mode.
  destruct Hm as [| | | |tid' now i' mode' c db' a Ht Hc Hb|tid' now i' key value db' Ht Hc Hpr| |];
    simpl in *; try (by exists sh).
  - destruct (lo_placed _ HL _ _ Ht) as [now' Hn]. destruct (body_frame _ _ _ _ _ _ _ _ Hb Hn) as [[_ Hf] Hs].
    destruct (decide (i = i')) as [<-|Hne]; [|exists sh; split; [by rewrite Hf|done]].
    assert (inside s tid' i mode') as Hin' by (unfold inside; by rewrite Ht).
    destruct (inside_shared _ _ _ _ _ _ HL Hin' Hin Hact) as [-> ->].
    rewrite (Hs eq_refl). by exists sh.
  - pose proof (lo_placed _ HL _ _ Ht) as Hpl. simpl in Hpl.
    destruct (decide (i = i')) as [<-|Hne].
    + assert (inside s tid' i Shared) as Hin' by (unfold inside; by rewrite Ht).
      destruct (inside_shared _ _ _ _ _ _ HL Hin' Hin Hact) as [_ ->]. subst i.
      by eapply promote_same.
    + apply promote_frame in Hpr as [_ Hf]. exists sh. rewrite <- Hpl in Hf. by rewrite Hf.
Qed.

Lemma moves_thread s ev s' tid : moves s ev s' -> actor ev <> tid -> threads s' !! tid = threads s !! tid.
Proof. intros Hm Ha. destruct Hm; simpl in *; by rewrite ?lookup_insert_ne, ?lookup_delete_ne. Qed.

Lemma moves_routing s ev s' : locksOk s -> moves s ev s' -> sameRouting (database s) (database s').
Proof.
  intros HL Hm. destruct Hm as [| | | |tid' now i' mode' c db' a Ht Hc Hb|tid' now i' key value db' Ht Hc Hpr| |];
    simpl; try done.
  - destruct (lo_placed _ HL _ _ Ht) as [now' Hn]. by destruct (body_frame _ _ _ _ _ _ _ _ Hb Hn) as [[? _] _].
  - by apply promote_frame in Hpr as [? _].
Qed.

Lemma moves_clock s ev s' : moves s ev s' -> clock s <= clock s'.
Proof. destruct 1; simpl; lia. Qed.
End Isolation.
