(* ===== verification/LockingSpec.v ===== *)
(** * What a critical section does to the keyspace

    [effect] is the abstract meaning of the work under one lock: what it makes of
    the finite map and what it hands on.  Every section of every call is defined
    and has its effect, and the calls in progress always come to an end. *)
From S2P Require Import Prelude.
From S2P Require Import Hash.
From S2P Require Import Table.
From S2P Require Import RecencyList.
From S2P Require Import TableInv.
From S2P Require Import TableSpec.
From S2P Require Import TableSweep.
From S2P Require Import Store.
From S2P Require Import StoreSpec.
From S2P Require Import StoreBulk.
From S2P Require Import StoreSweep.
From S2P Require Import Parser.
From S2P Require Import ParserSpec.
From S2P Require Import ExecutorSpec.
From S2P Require Import Trace.
From S2P Require Import Locking.
From S2P Require Import LockingInv.
Import Database ShardLocks.

#[local] Open Scope Z_scope.

(** ** Definitions *)

(** The entry a SET stores at an instant. *)
Definition storedBy (now : time_point) (c : Call) : option Entry :=
  match c with
  | CallSet key value => Some (mkEntry key value None)
  | CallSetEx key value ttl => Some (mkEntry key value (Some (now + ttl * nanosPerSecond)))
  | _ => None
  end.

(** What a GET does with the value it found. *)
Definition found (db : t) (key : bytes) (value : option bytes) : After :=
  match value with
  | Some v => if maxMemoryBytes_ db =? 0 then Finish (RValue (Some v)) else Promote key v
  | None => Finish (RValue None)
  end.

(** The keyspace without shard [i]. *)
Definition dropShard (db : t) (i : nat) (m : gmap bytes Entry) : gmap bytes Entry :=
  filter (fun kv => shardIndexFor db kv.1 <> i) m.

Inductive effect `{Platform} (db : t) (now : time_point) (m : gmap bytes Entry) :
    Call -> gmap bytes Entry -> After -> Prop :=
| effect_store c e victims : storedBy now c = Some e ->
    fitsWithinLimit db (ekey e) (evalue e) = true ->
    ekey e ∉ victims -> (maxMemoryBytes_ db = 0 -> victims = []) ->
    (forall k, k ∈ victims -> shardIndexFor db k = shardIndexFor db (ekey e)) ->
    effect db now m c (dropKeys victims (<[ekey e := e]> m))
      (Finish (ROutcome (if m !! ekey e is Some _ then Updated else Inserted)))
| effect_reject c e : storedBy now c = Some e ->
    fitsWithinLimit db (ekey e) (evalue e) = false ->
    effect db now m c m (Finish (ROutcome Rejected))
| effect_get key :
    effect db now m (CallGet key) m (found db key (evalue <$> visible m now !! key))
| effect_ttl key :
    effect db now m (CallTtl key) m
      (Finish (RTtl (e ← visible m now !! key; d ← expiration e; Some (ceilSeconds (d - now)))))
| effect_del key :
    effect db now m (CallDel key) (delete key m)
      (Finish (RBool (bool_decide (is_Some (visible m now !! key)))))
| effect_exists key :
    effect db now m (CallExists key) m (Finish (RBool (bool_decide (is_Some (visible m now !! key)))))
| effect_keys i result ks : NoDup ks ->
    (forall k, k ∈ ks <-> shardIndexFor db k = i /\ is_Some (visible m now !! k)) ->
    effect db now m (CallKeys i result) m (Then (CallKeys (S i) (result ++ ks)))
| effect_sum figure i total total' :
    (figure = Entries -> total' = u64 (total + Z.of_nat (base.size (shardMap db m i)))) ->
    effect db now m (CallSum figure i total) m (Then (CallSum figure (S i) total'))
| effect_empty i :
    effect db now m (CallEmpty i) m
      (if decide (shardMap db m i = ∅) then Then (CallEmpty (S i)) else Finish (RBool false))
| effect_sweep perShard i removed ks : NoDup ks ->
    (forall k, k ∈ ks -> shardIndexFor db k = i /\ exists e, m !! k = Some e /\ isExpiredAt e now = true) ->
    effect db now m (CallSweep perShard i removed) (dropKeys ks m)
      (Then (CallSweep perShard (S i) (u64 (removed + len ks))))
| effect_snapshot i result es : NoDup (ekey <$> es) ->
    (forall e, e ∈ es <-> shardIndexFor db (ekey e) = i /\ visible m now !! ekey e = Some e) ->
    effect db now m (CallSnapshot i result) m (Then (CallSnapshot (S i) (result ++ es)))
| effect_clear i : effect db now m (CallClear i) (dropShard db i m) (Then (CallClear (S i)))
| effect_restore i es :
    effect db now m (CallRestore i es) (dropShard db i m) (Then (CallRestore (S i) es))
| effect_load since e es stored : isExpiredAt e since = false ->
    effect db now m (CallLoad since (e :: es) stored) (<[ekey e := e]> m)
      (Then (CallLoad since es (u64 (stored + 1)))).

(** A deadline the arithmetic of TTL is good for. *)
Definition deadlineOk (e : Entry) : Prop := forall d, expiration e = Some d -> 0 <= d < 2 ^ 63.
Definition deadlinesOk (m : gmap bytes Entry) : Prop := forall k e, m !! k = Some e -> deadlineOk e.

(** Arguments the callers of the database pass. *)
Definition goodCall (c : Call) : Prop :=
  match c with
  | CallSetEx _ _ ttl => 0 < ttl <= CommandParser.kMaxExpireSeconds
  | CallRemoveExpired maxBuckets => 0 <= maxBuckets
  | CallSweep perShard _ _ => 1 <= perShard
  | CallRestore _ es | CallLoad _ es _ => Forall deadlineOk es
  | _ => True
  end.

(** The entries a call may still add. *)
Definition writesOf (c : Call) : Z :=
  match c with
  | CallSet _ _ | CallSetEx _ _ _ => 1
  | CallRestore _ es | CallLoad _ es _ => len es
  | _ => 0
  end.
Definition afterWrites (a : After) : Z := match a with Then c => writesOf c | _ => 0 end.

Definition goodAfter (a : After) : Prop := match a with Then c => goodCall c | _ => True end.

(** ** One section *)

Lemma shardMap_dropShard db i j m :
  shardMap db (dropShard db i m) j = if decide (i = j) then ∅ else shardMap db m j.
Proof.
  apply map_eq. intros k. rewrite shardMap_lookup. unfold dropShard.
  destruct (decide (i = j)) as [->|Hne]; rewrite ?lookup_empty, ?shardMap_lookup; case_decide; try done.
  - destruct (_ !! k) eqn:E; [|done]. apply map_lookup_filter_Some in E as [_ E]. by simpl in E.
  - destruct (m !! k) as [e|] eqn:E.
    + apply map_lookup_filter_Some. split; [done|]. simpl. congruence.
    + apply map_lookup_filter_None. by left.
Qed.

Section Sections.
Context `{Platform}.

Lemma shard_rep db m rs i sh : dbRep db m rs -> shards_ db !! i = Some sh ->
  exists r, rs !! i = Some r /\ Rep (table sh) (shardMap db m i) r.
Proof.
  intros HD Hi. destruct (same_length_lookup rs (shards_ db) i sh) as [r Hr];
    [by rewrite (dr_length _ _ _ HD)|done|]. exists r. split; [done|]. by eapply dr_shard.
Qed.

Lemma dropShard_rep db m rs i sh : dbRep db m rs -> shards_ db !! i = Some sh ->
  exists sh' rs', clearShard sh = Some sh' /\ dbRep (putShard db i sh') (dropShard db i m) rs'.
Proof.
  intros HD Hi. destruct (shard_rep _ _ _ _ _ HD Hi) as (r & Hr & HR). unfold clearShard.
  destruct (clear_rep _ _ _ HR) as (ht & -> & HR' & _). simpl. eexists _, _. split; [done|].
  eapply dbRep_put; try done.
  - rewrite shardMap_dropShard, decide_True by done. exact HR'.
  - intros k Hk. unfold dropShard. rewrite map_lookup_filter. destruct (m !! k); simpl; [|done].
    by case_guard.
Qed.

Lemma visible_shard db m now k e i :
  shardMap db m i !! k = Some e /\ isExpiredAt e now = false <->
  shardIndexFor db k = i /\ visible m now !! k = Some e.
Proof.
  rewrite shardMap_lookup, visible_lookup. case_decide; [|by split; intros [??]].
  destruct (m !! k) as [e'|]; [|by split; intros [??]].
  destruct (isExpiredAt e' now) eqn:E; split; intros [??]; split; congruence.
Qed.

Lemma entriesWhere_visible db m rs i sh now : dbRep db m rs -> shards_ db !! i = Some sh ->
  exists es, HashTable.entriesWhere (table sh) (fun e => negb (isExpiredAt e now)) = Some es /\
    NoDup (ekey <$> es) /\
    forall e, e ∈ es <-> shardIndexFor db (ekey e) = i /\ visible m now !! ekey e = Some e.
Proof.
  intros HD Hi. destruct (shard_rep _ _ _ _ _ HD Hi) as (r & Hr & HR).
  destruct (entriesWhere_rep _ _ _ (fun e => negb (isExpiredAt e now)) HR) as (es & Hes & Hnd & Hin).
  exists es. split_and!; [done..|]. intros e. rewrite Hin, <- visible_shard, negb_true_iff. done.
Qed.

Lemma keysWhere_visible db m rs i sh now : dbRep db m rs -> shards_ db !! i = Some sh ->
  exists ks, HashTable.keysWhere (table sh) (fun e => negb (isExpiredAt e now)) = Some ks /\ NoDup ks /\
    forall k, k ∈ ks <-> shardIndexFor db k = i /\ is_Some (visible m now !! k).
Proof.
  intros HD Hi. destruct (entriesWhere_visible _ _ _ _ _ now HD Hi) as (es & Hes & Hnd & Hin).
  exists (ekey <$> es). unfold HashTable.keysWhere. rewrite Hes. simpl. split_and!; [done..|].
  intros k. rewrite list_elem_of_fmap. split.
  - intros (e & -> & [Hk Hv]%Hin). eauto.
  - intros [Hk [e Hv]]. exists e. assert (ekey e = k) as <-.
    { rewrite visible_lookup in Hv. repeat case_match; simplify_eq. by eapply dbRep_key. }
    split; [done|]. by apply Hin.
Qed.

(** Writing an entry: SET and SET EX. *)
Lemma store_effect db m rs c e now :
  dbRep db m rs -> storedBy now c = Some e -> goodCall c -> plausible now ->
  Z.of_nat (base.size m) < maxEntries ->
  exists db' a m' rs', body now db c = Some (db', a) /\ dbRep db' m' rs' /\ effect db now m c m' a.
Proof.
  intros HD He Hg Hnow Hroom. destruct (fitsWithinLimit db (ekey e) (evalue e)) eqn:Hfit.
  - assert (exists db' sh' r r' vs,
      body now db c = Some (db', Finish (ROutcome (if m !! ekey e is Some _ then Updated else Inserted))) /\
      rs !! shardIndexFor db (ekey e) = Some r /\ shardFor db' (ekey e) = Some sh' /\
      dbRep db' (dropKeys vs (<[ekey e := e]> m)) (<[shardIndexFor db (ekey e) := r']> rs) /\
      evicts (sliceOf (maxMemoryBytes_ db) (len (shards_ db))) (HashTable.bucketCount (table sh'))
        (<[ekey e := e]> m) (toFront (ekey e) r) r' vs /\ ekey e ∉ vs)
      as (db' & sh' & r & r' & vs & Hb & Hr & Hsh & HD' & HE & Hvs).
    { destruct c as [k v|k v ttl| | | | | | | | | | | | |]; try done; injection He as <-; simpl in *.
      - destruct (set_rep db m rs k v HD Hroom Hfit) as (db' & sh' & r & r' & vs & -> & Hr & Hsh & HD' & HE & Hvs & _).
        by exists db', sh', r, r', vs.
      - destruct (setEx_rep db m rs k v ttl now _ HD Hroom Hfit (timeAfter_defined now ttl Hnow Hg))
          as (db' & sh' & r & r' & vs & -> & Hr & Hsh & HD' & HE & Hvs & _).
        by exists db', sh', r, r', vs. }
    eexists _, _, _, _. split_and!; [exact Hb|exact HD'|]. apply effect_store; try done.
    + intros Hz. rewrite Hz in HE. by apply evicts_unlimited in HE.
    + intros k Hk.
      pose proof (ev_split _ _ _ _ _ _ HE) as Hsplit.
      assert (k ∈ toFront (ekey e) r) as Hin by (rewrite Hsplit, elem_of_app; by right).
      apply elem_of_cons in Hin as [->|Hin]; [done|].
      destruct (shardFor_rep db m rs (ekey e) HD) as (sh & r0 & _ & Hr0 & HR & _). simplify_eq.
      eapply Rep_shard_mem; [exact HR|]. by apply list_elem_of_filter in Hin as [_ Hin].
  - exists db, (Finish (ROutcome Rejected)), m, rs. split_and!; [|done|by eapply effect_reject].
    destruct c as [k v|k v ttl| | | | | | | | | | | | |]; try done; injection He as <-; simpl in *.
    + by rewrite (set_rejected db m rs k v HD Hfit).
    + by rewrite (setEx_rejected db m rs k v ttl now HD Hfit).
Qed.

(** Reading one key, and deleting it. *)
Lemma lookup_effect db m rs key now : dbRep db m rs ->
  lookup now db key = Some (found db key (evalue <$> visible m now !! key)).
Proof.
  intros HD. destruct (shardFor_rep db m rs key HD) as (sh & r & Hsh & _ & HR & Hslice).
  unfold lookup. rewrite Hsh. simpl. rewrite (find_rep _ _ _ _ HR). simpl.
  rewrite shardMap_own, visible_lookup. destruct (m !! key) as [e|]; simpl; [|done].
  destruct (isExpiredAt e now); simpl; [done|]. rewrite Hslice, slice_zero. by destruct (_ =? 0).
Qed.

Lemma acquired now db c i mode : next now db c = Acquire i mode -> geometry db ->
  exists sh, shards_ db !! i = Some sh.
Proof.
  intros Hn HG. apply lookup_lt_is_Some.
  destruct c as [| | | | | | | | | | | | | |? [|??] ?]; simpl in Hn; unfold loop in Hn;
    repeat case_match; simplify_eq; try (by apply shardIndexFor_lt);
    by apply Nat.ltb_lt.
Qed.

Lemma ttl_effect db m rs key now : dbRep db m rs -> deadlinesOk m -> plausible now ->
  Database.ttl db key now =
    Some (e ← visible m now !! key; d ← expiration e; Some (ceilSeconds (d - now))).
Proof.
  intros HD Hdl [Hn0 Hn1]. apply (ttl_rep _ _ _ _ _ HD). intros e d He Hx.
  pose proof (Hdl _ _ He _ Hx). unfold int64Range. apply andb_true_intro.
  rewrite Z.leb_le, Z.ltb_lt. lia.
Qed.

Lemma sweep_effect db m rs i sh perShard removed now :
  dbRep db m rs -> shards_ db !! i = Some sh -> 1 <= perShard ->
  exists db' a m' rs', body now db (CallSweep perShard i removed) = Some (db', a) /\ dbRep db' m' rs' /\
    effect db now m (CallSweep perShard i removed) m' a.
Proof.
  intros HD Hi Hps. destruct (shard_rep _ _ _ _ _ HD Hi) as (r & Hr & HR).
  destruct (sweepShard_rep perShard now sh _ r HR) as (sh' & ks & Hs & Hsw); [|done|].
  { eapply dr_cursor; [exact HD|]. by eapply list_elem_of_lookup_2. }
  assert (forall k, k ∈ ks -> shardIndexFor db k = i /\ exists e, m !! k = Some e /\ isExpiredAt e now = true) as Hks.
  { intros k Hk. destruct (sw_expired _ _ _ _ _ _ _ Hsw k Hk) as (e & He & Hx).
    rewrite shardMap_lookup in He. case_decide; [|done]. eauto. }
  simpl. rewrite Hi. simpl. rewrite Hs. simpl. eexists _, _, _, _. split_and!; [done| |].
  - apply (dbRep_put db m rs i sh sh' (dropKeys ks m) (dropAll ks r)); try done.
    + rewrite shardMap_dropKeys. apply (sw_rep _ _ _ _ _ _ _ Hsw).
    + intros k Hk. rewrite dropKeys_lookup, decide_False; [done|]. by intros [? _]%Hks.
    + apply (sw_limit _ _ _ _ _ _ _ Hsw).
    + apply (sw_cursor _ _ _ _ _ _ _ Hsw).
  - apply effect_sweep; [apply (sw_nodup _ _ _ _ _ _ _ Hsw)|done].
Qed.

(** Every section of every call is defined and has its effect. *)
Lemma body_effect db m rs now now' c i mode :
  dbRep db m rs -> next now' db c = Acquire i mode -> goodCall c -> plausible now -> deadlinesOk m ->
  (0 < writesOf c -> Z.of_nat (base.size m) < maxEntries) ->
  exists db' a m' rs', body now db c = Some (db', a) /\ dbRep db' m' rs' /\ effect db now m c m' a.
Proof.
  intros HD Hn Hg Hnow Hdl Hroom. destruct (acquired _ _ _ _ _ Hn (dr_geometry _ _ _ HD)) as [sh Hi].
  destruct (storedBy now c) as [e|] eqn:Hst.
  { eapply store_effect; try done. apply Hroom. by destruct c. }
  destruct c as [| |k|k|k|k|i0 l|f i0 z|i0|z|z i0 z'|i0 l|i0|i0 l|since [|e l] z]; try done;
    simpl in Hn; unfold loop in Hn; try (case_match; simplify_eq; []); simplify_eq; cbn [body].
  - rewrite (lookup_effect _ _ _ _ _ HD). eexists _, _, _, _. split_and!; [done|done|constructor].
  - rewrite (ttl_effect _ _ _ _ _ HD Hdl Hnow). eexists _, _, _, _. split_and!; [done|done|constructor].
  - destruct (del_rep db m rs k now HD) as (db' & rs' & -> & HD' & _).
    eexists _, _, _, _. split_and!; [done|exact HD'|constructor].
  - rewrite (exists_rep _ _ _ _ _ HD). eexists _, _, _, _. split_and!; [done|done|constructor].
  - destruct (keysWhere_visible _ _ _ _ _ now HD Hi) as (ks & Hks & Hnd & Hin). rewrite Hi. simpl. rewrite Hks.
    eexists _, _, _, _. split_and!; [done|done|by constructor].
  - destruct (shard_rep _ _ _ _ _ HD Hi) as (r & _ & HR). rewrite Hi.
    eexists _, _, _, _. split_and!; [done|done|]. constructor. intros ->. simpl.
    by rewrite (Rep_map_size _ _ _ HR).
  - destruct (shard_rep _ _ _ _ _ HD Hi) as (r & _ & HR). rewrite Hi.
    eexists _, _, _, _. split_and!; [simpl; done|done|].
    pose proof (Rep_empty _ _ _ HR) as He. pose proof (effect_empty db now m i) as Heff.
    destruct (HashTable.isEmpty (table sh)); case_decide as Hd; try exact Heff; exfalso.
    + by apply Hd, He.
    + by apply He in Hd.
  - by case_match.
  - destruct (sweep_effect _ _ _ _ _ z z' now HD Hi Hg) as (db' & a & m' & rs' & Hb & ? & ?). eauto 10.
  - destruct (entriesWhere_visible _ _ _ _ _ now HD Hi) as (es & Hes & Hnd & Hin). rewrite Hi. simpl. rewrite Hes.
    eexists _, _, _, _. split_and!; [done|done|by constructor].
  - destruct (dropShard_rep _ _ _ _ _ HD Hi) as (sh' & rs' & Hc & HD'). rewrite Hi. simpl. rewrite Hc.
    eexists _, _, _, _. split_and!; [done|exact HD'|constructor].
  - destruct (dropShard_rep _ _ _ _ _ HD Hi) as (sh' & rs' & Hc & HD'). rewrite Hi. simpl. rewrite Hc.
    eexists _, _, _, _. split_and!; [done|exact HD'|constructor].
  - destruct (isExpiredAt e since) eqn:Hx; [done|]. simplify_eq.
    destruct (restoreEntry_rep since db m rs z e HD) as (db' & rs' & -> & HD' & _).
    { apply Hroom. simpl. rewrite len_cons. pose proof (len_nonneg l). lia. }
    unfold loadEntry in HD'. rewrite Hx in *. eexists _, _, _, _. split_and!; [done|exact HD'|by constructor].
Qed.
End Sections.
