(* ===== verification/LockingRuns.v ===== *)
(** * Runs of the concurrent database

    The invariant of a run: the locks, the keyspace behind the shards, the calls in
    progress and the room for what they may still write.  Every step does to the
    keyspace what the section it runs is meant to do, none is undefined, somebody
    can always move, and every call takes a bounded number of moves. *)
From S2P Require Import Prelude.
From S2P Require Import Hash.
From S2P Require Import Table.
From S2P Require Import TableInv.
From S2P Require Import TableSpec.
From S2P Require Import TableSweep.
From S2P Require Import Store.
From S2P Require Import StoreSpec.
From S2P Require Import Parser.
From S2P Require Import ExecutorSpec.
From S2P Require Import Trace.
From S2P Require Import Locking.
From S2P Require Import LockingInv.
From S2P Require Import LockingSpec.
Import Database ShardLocks.

#[local] Open Scope Z_scope.

(** ** Definitions *)

Definition goodThread (th : Thread) : Prop :=
  match th with
  | Ready c | Held _ _ c => goodCall c
  | Releasing _ _ a => goodAfter a
  | _ => True
  end.

Definition pendingWrites (th : Thread) : Z :=
  match th with
  | Ready c | Held _ _ c => writesOf c
  | Releasing _ _ a => afterWrites a
  | _ => 0
  end.

Record served `{Platform} (bound : Z) (s : System) (m : gmap bytes Entry) : Prop := {
  sv_locks : locksOk s;
  sv_rep : exists rs, dbRep (database s) m rs;
  sv_deadlines : deadlinesOk m;
  sv_calls : forall tid th, threads s !! tid = Some th -> goodThread th;
  sv_room : Z.of_nat (base.size m) + total pendingWrites (threads s) <= bound
}.

(** Calls with sensible arguments, clock readings of the next 146 years. *)
Definition goodEvent (ev : Event) : Prop :=
  match ev with
  | Invoked _ c => goodCall c
  | Applied _ now _ _ => plausible now
  | _ => True
  end.

(** The entries the calls of a trace may add. *)
Definition eventWrites (ev : Event) : Z := match ev with Invoked _ c => writesOf c | _ => 0 end.

(** What a step does to the keyspace. *)
Definition stepEffect `{Platform} (s : System) (ev : Event) (m m' : gmap bytes Entry) : Prop :=
  match ev with
  | Applied tid now c a => clock s <= now /\ effect (database s) now m c m' a
  | _ => m' = m
  end.

(** The sections a call has ahead of it in a database of [n] shards. *)
Definition sections (n : nat) (c : Call) : Z :=
  match c with
  | CallKeys i _ | CallSum _ i _ | CallEmpty i | CallSweep _ i _ | CallSnapshot i _ | CallClear i =>
      Z.of_nat (n - i)
  | CallRemoveExpired _ => Z.of_nat n
  | CallRestore i es => Z.of_nat (n - i) + len es
  | CallLoad _ es _ => len es
  | _ => 1
  end.

(** The moves a call has left outside a lock. *)
Definition movesOf (n : nat) (c : Call) : Z :=
  3 * sections n c + 2 + match c with CallRemoveExpired _ | CallRestore _ _ => 1 | _ => 0 end.

Definition movesLeft (n : nat) (th : Thread) : Z :=
  match th with
  | Ready c => movesOf n c
  | Held _ _ c => movesOf n c - 1
  | Promoting _ _ _ => 3
  | Releasing _ _ (Then c) => movesOf n c + 1
  | Releasing _ _ _ => 2
  | Leaving _ => 1
  end.

(** ** Effects *)

Lemma writesOf_nonneg c : 0 <= writesOf c.
Proof. destruct c; simpl; auto with vcache; lia. Qed.

Lemma pendingWrites_nonneg th : 0 <= pendingWrites th.
Proof.
  destruct th as [c|? ? c| |? ? [c|? ?|?]|]; simpl; try lia; apply writesOf_nonneg.
Qed.

#[local] Hint Resolve writesOf_nonneg pendingWrites_nonneg : vcache.

Lemma size_dropKeys (ks : list bytes) (m : gmap bytes Entry) : (base.size (dropKeys ks m) <= base.size m)%nat.
Proof. apply map_subseteq_size, map_subseteq_spec. intros k e. rewrite dropKeys_lookup. by case_decide. Qed.

Lemma size_insert_le (k : bytes) (e : Entry) (m : gmap bytes Entry) : (base.size (<[k := e]> m) <= S (base.size m))%nat.
Proof. rewrite map_size_insert. destruct (m !! k); simpl; lia. Qed.

Section Effects.
Context `{Platform}.

(** A section adds no more than its call announced. *)
Lemma effect_writes db now m c m' a : effect db now m c m' a ->
  Z.of_nat (base.size m') + afterWrites a <= Z.of_nat (base.size m) + writesOf c.
Proof.
  assert (forall key v, afterWrites (found db key v) = 0) as Hf
    by (intros key [v|]; simpl; [case_match|]; done).
  destruct 1 as [c e vs He| c e He| | | | | | | |? ? ? ks| |i|i es|since e es stored]; simpl; rewrite ?Hf; try lia.
  - pose proof (size_dropKeys vs (<[ekey e := e]> m)). pose proof (size_insert_le (ekey e) e m).
    assert (writesOf c = 1) as -> by by destruct c. lia.
  - pose proof (writesOf_nonneg c). lia.
  - assert (base.size (delete key m) <= base.size m)%nat; [|lia]. apply map_subseteq_size, delete_subseteq.
  - case_decide; simpl; lia.
  - pose proof (size_dropKeys ks m). lia.
  - pose proof (map_size_filter (fun kv : bytes * Entry => shardIndexFor db kv.1 <> i) m) as Hs.
    unfold dropShard. lia.
  - pose proof (map_size_filter (fun kv : bytes * Entry => shardIndexFor db kv.1 <> i) m) as Hs.
    unfold dropShard. lia.
  - pose proof (size_insert_le (ekey e) e m). rewrite len_cons. lia.
Qed.

Lemma storedBy_deadline now c e : storedBy now c = Some e -> goodCall c -> plausible now -> deadlineOk e.
Proof.
  destruct c; simpl; try done; intros [= <-] Hg [Hn0 Hn1] d Hd; simplify_eq/=.
  unfold CommandParser.kMaxExpireSeconds, nanosPerSecond in *. lia.
Qed.

Lemma deadlinesOk_insert k e m : deadlineOk e -> deadlinesOk m -> deadlinesOk (<[k := e]> m).
Proof. intros He Hm k' e'. rewrite lookup_insert_Some. intros [[_ <-]|[_ Hk]]; [done|]. by eapply Hm. Qed.

Lemma deadlinesOk_sub m m' : m' ⊆ m -> deadlinesOk m -> deadlinesOk m'.
Proof. intros Hs Hm k e Hk. eapply Hm. by eapply lookup_weaken. Qed.

Lemma dropKeys_sub ks m : dropKeys ks m ⊆ m.
Proof. apply map_subseteq_spec. intros k e. rewrite dropKeys_lookup. by case_decide. Qed.

Lemma effect_deadlines db now m c m' a :
  effect db now m c m' a -> goodCall c -> plausible now -> deadlinesOk m -> deadlinesOk m'.
Proof.
  intros He Hg Hn Hm.
  destruct He as [c e vs He| | | |k| | | | |? ? ? ks| |i|i es|since e es stored]; try done.
  - eapply deadlinesOk_sub; [apply dropKeys_sub|]. apply deadlinesOk_insert; [|done].
    by eapply storedBy_deadline.
  - eapply deadlinesOk_sub; [apply delete_subseteq|done].
  - eapply deadlinesOk_sub; [apply dropKeys_sub|done].
  - eapply deadlinesOk_sub; [apply map_filter_subseteq|done].
  - eapply deadlinesOk_sub; [apply map_filter_subseteq|done].
  - apply deadlinesOk_insert; [|done]. simpl in Hg. by inversion Hg.
Qed.

Lemma effect_good db now m c m' a : effect db now m c m' a -> goodCall c -> goodAfter a.
Proof.
  destruct 1 as [| |? | | | | | | | | | | |since e es stored]; simpl; try done.
  - intros _. by destruct (evalue <$> _) as [v|]; simpl; [case_match|].
  - intros _. by case_decide.
  - by inversion 1.
Qed.

Lemma effect_promotes db now m c m' k v : effect db now m c m' (Promote k v) -> m' = m.
Proof. by inversion 1. Qed.

(** Promoting a key changes the recency order only. *)
Lemma promote_rep db m rs key : dbRep db m rs ->
  exists db' rs', promote db key = Some db' /\ dbRep db' m rs'.
Proof.
  intros HD. destruct (shardFor_rep db m rs key HD) as (sh & r & Hsh & _ & HR & _).
  unfold promote. rewrite Hsh. simpl. destruct (touch_rep (table sh) _ r key HR) as (ht & -> & HR' & _).
  simpl. eexists _, _. split; [done|]. by eapply dbRep_store.
Qed.

(** ** The invariant along a run *)

(** A step in which one thread changes and the keyspace stays. *)
Lemma served_thread bound s s' m tid th th' :
  served bound s m -> locksOk s' -> (exists rs, dbRep (database s') m rs) ->
  threads s !! tid = Some th -> threads s' = <[tid := th']> (threads s) ->
  goodThread th' -> pendingWrites th' <= pendingWrites th -> served bound s' m.
Proof.
  intros [HL HD Hdl Hc Hr] HL' HD' Ht Et Hg Hp. split; [done..| |].
  - intros t x. rewrite Et, lookup_insert_Some. intros [[_ <-]|[_ Hx]]; [done|]. by eapply Hc.
  - rewrite Et, (total_insert _ _ _ _ _ Ht). lia.
Qed.

Lemma next_good now db c c' : next now db c = Goto c' -> goodCall c -> goodCall c' /\ writesOf c' <= writesOf c.
Proof.
  destruct c as [| | | | | | | | |z| | | |i es|since [|e es] stored]; simpl; unfold loop; intros Hn Hg;
    repeat case_match; simplify_eq/=; try done.
  - split; lia.
  - inversion Hg. rewrite len_cons. split; [done|lia].
Qed.

Lemma resume_thread a : goodAfter a -> goodThread (resume a) /\ pendingWrites (resume a) = afterWrites a.
Proof. by destruct a. Qed.

Lemma served_work bound s m tid i mode c now :
  served bound s m -> bound <= maxEntries -> threads s !! tid = Some (Held i mode c) -> plausible now ->
  exists db' a m', body now (database s) c = Some (db', a) /\ effect (database s) now m c m' a /\
    exists rs, dbRep db' m' rs.
Proof.
  intros [HL [rs HD] Hdl Hc Hr] Hb Ht Hnow. destruct (lo_placed _ HL _ _ Ht) as [now' Hn].
  pose proof (total_ge pendingWrites _ _ _ pendingWrites_nonneg Ht) as Hge. simpl in Hge.
  destruct (body_effect (database s) m rs now now' c i mode) as (db' & a & m' & rs' & ? & ? & ?);
    try done; [by apply (Hc _ _ Ht)|lia|]. eauto 10.
Qed.

Lemma served_worked bound s m tid i mode c now db' a m' :
  served bound s m -> threads s !! tid = Some (Held i mode c) -> plausible now ->
  effect (database s) now m c m' a -> (exists rs, dbRep db' m' rs) ->
  locksOk (withThread tid (worked i mode a) (withDb db' (withClock now s))) ->
  served bound (withThread tid (worked i mode a) (withDb db' (withClock now s))) m'.
Proof.
  intros [HL [rs HD] Hdl Hc Hr] Ht Hnow He HD' HL'. pose proof (Hc _ _ Ht) as Hg. simpl in Hg.
  split; [done|done|by eapply effect_deadlines| |]; simpl.
  - intros t x. rewrite lookup_insert_Some. intros [[_ <-]|[_ Hx]]; [|by eapply Hc].
    apply effect_good in He; [|done]. by destruct a.
  - rewrite (total_insert _ _ _ _ _ Ht). simpl. apply effect_writes in He.
    assert (pendingWrites (worked i mode a) = afterWrites a) as -> by by destruct a. lia.
Qed.

(** Every step keeps the invariant and has its effect on the keyspace. *)
Lemma moves_served bound s ev s' m :
  served bound s m -> bound <= maxEntries -> goodEvent ev -> moves s ev s' ->
  exists m', served (bound + eventWrites ev) s' m' /\ stepEffect s ev m m'.
Proof.
  intros HS Hb Hg Hm. pose proof (moves_locksOk _ _ _ (sv_locks _ _ _ HS) Hm) as HL'.
  pose proof (sv_calls _ _ _ HS) as Hc.
  destruct Hm as [tid c Ht He|tid now c i mode mx mx' Ht Hcl Hn Hi Hlock|tid now c c' Ht Hcl Hn
    |tid now c r Ht Hcl Hn|tid now i mode c db' a Ht Hcl Hbd|tid now i key value db' Ht Hcl Hpr
    |tid now i mode a mx mx' Ht Hcl Hi Hun|tid now r Ht Hcl]; simpl in *; rewrite ?Z.add_0_r;
    try (exists m; split; [|done]).
  - destruct HS as [HL HD Hdl _ Hr]. split; [done..| |]; simpl.
    + intros t x. rewrite lookup_insert_Some. intros [[_ <-]|[_ Hx]]; [done|]. by eapply Hc.
    + rewrite total_new by done. simpl. lia.
  - eapply served_thread; try done; [by apply HS|exact (Hc _ _ Ht)].
  - destruct (next_good _ _ _ _ Hn (Hc _ _ Ht)).
    by eapply (served_thread _ s _ m tid (Ready c) (Ready c')); [|apply HL'|apply HS|..].
  - eapply (served_thread _ s _ m tid (Ready c) (Leaving r)); try done; [by apply HS|]. simpl. auto with vcache.
  - destruct (served_work _ _ _ _ _ _ _ _ HS Hb Ht Hg) as (db1 & a1 & m' & Hb1 & He & HD').
    rewrite Hbd in Hb1. simplify_eq. exists m'. split; [|done]. by eapply served_worked.
  - destruct (sv_rep _ _ _ HS) as [rs HD]. destruct (promote_rep _ _ _ key HD) as (db1 & rs1 & E & HD1).
    rewrite Hpr in E. simplify_eq. eapply served_thread; try done. eauto.
  - destruct (resume_thread a (Hc _ _ Ht)) as [Hg' Hw].
    eapply served_thread; try done; [by apply HS|]. by rewrite Hw.
  - destruct HS as [HL HD Hdl _ Hr]. split; [done..| |]; simpl.
    + intros t x [_ Hx]%lookup_delete_Some. by eapply Hc.
    + rewrite (total_delete _ _ _ _ Ht). simpl. lia.
Qed.

Lemma idle_served db m rs now : dbRep db m rs -> deadlinesOk m ->
  served (Z.of_nat (base.size m)) (idle db now) m.
Proof.
  intros HD Hdl. split; simpl; [apply idle_locksOk|eauto|done|done|]. rewrite total_empty. lia.
Qed.

(** Runs, with the keyspace they lead to. *)
Lemma runs_served bound s m evs s' :
  served bound s m -> bound + sumZ eventWrites evs <= maxEntries -> Forall goodEvent evs ->
  runs step s evs s' -> exists m', served (bound + sumZ eventWrites evs) s' m'.
Proof.
  intros HS Hb Hg Hr. induction Hr as [s|s evs s1 ev s2 Hr IH Hst].
  - simpl in *. rewrite Z.add_0_r in *. eauto.
  - apply Forall_app in Hg as [Hg Hev]. rewrite Forall_singleton in Hev. rewrite sumZ_app in *. simpl in *.
    assert (0 <= eventWrites ev) as Hev0 by (destruct ev; simpl; auto with vcache; lia).
    destruct (IH HS) as [m1 HS1]; [lia|done|].
    destruct (moves_served _ _ _ _ _ HS1 ltac:(lia) Hev (step_moves _ _ _ Hst)) as (m2 & HS2 & _).
    exists m2. replace (bound + (sumZ eventWrites evs + (eventWrites ev + 0)))
      with (bound + sumZ eventWrites evs + eventWrites ev) by lia. done.
Qed.

(** ** Progress *)

(** A thread that may run either moves or waits for a lock somebody is inside of. *)
Lemma run_defined bound s m tid th now :
  served bound s m -> bound <= maxEntries -> threads s !! tid = Some th -> clock s <= now -> plausible now ->
  (exists ev s', act (Run tid now) s = Stepped (ev, s')) \/
  (act (Run tid now) s = Blocked /\ holds th = None /\ exists t i mode, inside s t i mode).
Proof.
  intros HS Hb Ht Hcl Hnow. pose proof (sv_locks _ _ _ HS) as HL. destruct (sv_rep _ _ _ HS) as [rs HD].
  simpl. rewrite Ht, (proj2 (Z.leb_le _ _) Hcl).
  destruct th as [c|i mode c|i key v|i mode a|r]; simpl.
  - destruct (next now (database s) c) as [i mode| |] eqn:Hn; eauto.
    destruct (acquired _ _ _ _ _ Hn (dr_geometry _ _ _ HD)) as [sh Hi].
    destruct (lookup_lt_is_Some_2 (mutexes s) i) as [mx Hmx].
    { rewrite (lo_length _ HL). by eapply lookup_lt_Some. }
    rewrite Hmx. pose proof (lo_mutex _ HL _ _ Hmx) as HM.
    pose proof (lock_defined s tid i mode mx HM ltac:(by rewrite Ht)) as Hdef.
    destruct (lock mode tid mx) eqn:Hlock; [eauto| |done]. right. split_and!; [done..|].
    unfold lock in Hlock. destruct (owns tid mx); [done|].
    destruct (writer mx) as [w|] eqn:Hw; [exists w, i, Exclusive; by apply (mo_writer _ _ _ HM)|].
    destruct mode; [done|]. case_decide as He; [done|].
    apply set_choose_L in He as [w Hr]. exists w, i, Shared. by apply (mo_readers _ _ _ HM).
  - destruct (served_work _ _ _ _ _ _ _ _ HS Hb Ht Hnow) as (db' & a & m' & -> & _). eauto.
  - destruct (promote_rep _ _ _ key HD) as (db' & rs' & -> & _). eauto.
  - assert (inside s tid i mode) as Hin by (unfold inside; by rewrite Ht).
    destruct (lookup_lt_is_Some_2 (mutexes s) i (lo_bound _ HL _ _ _ Hin)) as [mx Hmx]. rewrite Hmx.
    destruct (unlock_defined _ _ _ _ _ (lo_mutex _ HL _ _ Hmx) Hin) as [mx' ->]. eauto.
  - eauto.
Qed.

(** No deadlock: as long as a call is in progress, some thread can move. *)
Lemma somebody_moves bound s m now :
  served bound s m -> bound <= maxEntries -> threads s <> ∅ -> clock s <= now -> plausible now ->
  exists tid ev s', act (Run tid now) s = Stepped (ev, s').
Proof.
  intros HS Hb Hne Hcl Hnow.
  assert (forall t i mode, inside s t i mode -> exists tid ev s', act (Run tid now) s = Stepped (ev, s')) as Hin.
  { intros t i mode Hin. unfold inside in Hin. destruct (threads s !! t) as [th|] eqn:Ht; [|done]. simpl in Hin.
    destruct (run_defined _ _ _ _ _ _ HS Hb Ht Hcl Hnow) as [(ev & s' & Hst)|(_ & Hno & _)]; [eauto|congruence]. }
  apply map_choose in Hne as (tid & th & Ht).
  destruct (run_defined _ _ _ _ _ _ HS Hb Ht Hcl Hnow) as [(ev & s' & Hst)|(_ & _ & t & i & mode & Hi)]; eauto.
Qed.

Lemma sections_nonneg n c : 0 <= sections n c.
Proof. destruct c; simpl; try lia; pose proof (len_nonneg entries); lia. Qed.

Lemma movesLeft_nonneg n th : 0 <= movesLeft n th.
Proof.
  assert (forall c, 2 <= movesOf n c) as Hc.
  { intros c. unfold movesOf. pose proof (sections_nonneg n c). destruct c; lia. }
  destruct th as [c|? ? c| |? ? [c|? ?|?]|]; simpl; try pose proof (Hc c); lia.
Qed.

(** The work of a section brings its call closer to its end. *)
Lemma body_progress now now' db c db' a i mode n :
  body now db c = Some (db', a) -> next now' db c = Acquire i mode -> length (shards_ db) = n ->
  movesLeft n (worked i mode a) + 1 <= movesOf n c - 1.
Proof.
  intros Hb Hn Hlen.
  destruct c as [k v|k v ttl|k|k|k|k|i0 l|f i0 z|i0|z|z i0 z'|i0 l|i0|i0 l|since [|e l] z];
    simpl in Hb, Hn; unfold loop in Hn; unfold lookup in Hb;
    repeat (simplify_option_eq; try case_match); unfold movesOf; simpl;
    repeat match goal with H : (_ <? _)%nat = true |- _ => apply Nat.ltb_lt in H end;
    unfold movesOf; simpl; rewrite ?len_cons; try lia.
Qed.

Lemma next_progress now db c n : length (shards_ db) = n ->
  match next now db c with
  | Goto c' => movesOf n c' + 1 <= movesOf n c
  | _ => 2 <= movesOf n c
  end.
Proof.
  intros Hlen. destruct c as [| | | | | | | | |z| | | |i es|since [|e es] stored]; simpl; unfold loop, movesOf; simpl;
    repeat case_match; simplify_eq/=; unfold len in *; simpl; lia.
Qed.

(** Every move brings its call closer to its end. *)
Lemma moves_progress s ev s' n :
  locksOk s -> length (shards_ (database s)) = n -> moves s ev s' ->
  1 + total (movesLeft n) (threads s') <= total (movesLeft n) (threads s) +
    match ev with Invoked _ c => 1 + movesOf n c | _ => 0 end.
Proof.
  intros HL Hn Hm.
  destruct Hm as [tid c Ht He|tid now c i mode mx mx' Ht Hcl Hnx Hi Hlock|tid now c c' Ht Hcl Hnx
    |tid now c r Ht Hcl Hnx|tid now i mode c db' a Ht Hcl Hbd|tid now i key value db' Ht Hcl Hpr
    |tid now i mode a mx mx' Ht Hcl Hi Hun|tid now r Ht Hcl]; simpl;
    try rewrite (total_insert _ _ _ _ _ Ht); simpl;
    try (pose proof (next_progress now (database s) c n Hn) as Hnp; rewrite Hnx in Hnp); try lia.
  - rewrite total_new by done. simpl. lia.
  - destruct (lo_placed _ HL _ _ Ht) as [now' Hn']. pose proof (body_progress _ _ _ _ _ _ _ _ n Hbd Hn' Hn). lia.
  - destruct a; simpl; lia.
  - rewrite (total_delete _ _ _ _ Ht). simpl. lia.
Qed.

(** What a new call costs. *)
Definition callCost (n : nat) (ev : Event) : Z := match ev with Invoked _ c => 1 + movesOf n c | _ => 0 end.

(** A run is no longer than the calls in it and in progress allow. *)
Lemma runs_bounded s evs s' n :
  locksOk s -> length (shards_ (database s)) = n -> runs step s evs s' ->
  len evs + total (movesLeft n) (threads s') <= total (movesLeft n) (threads s) + sumZ (callCost n) evs.
Proof.
  intros HL Hn Hr.
  apply (runs_with (fun p => locksOk p /\ length (shards_ (database p)) = n)) in Hr; [| |done].
  - eapply (runs_measure _ (fun p => total (movesLeft n) (threads p)) (callCost n)); [|exact Hr].
    intros q ev q' [Hst [HLq Hq]]. by apply moves_progress, step_moves.
  - intros q ev q' [HLq Hq] Hst%step_moves. split; [by eapply moves_locksOk|].
    by rewrite (sr_length _ _ (moves_routing _ _ _ HLq Hst)).
Qed.

Definition isInvoked (ev : Event) : bool := match ev with Invoked _ _ => true | _ => false end.

Lemma run_event s ev s' tid now : act (Run tid now) s = Stepped (ev, s') ->
  isInvoked ev = false /\ eventWrites ev = 0 /\ clock s' = now /\ (plausible now -> goodEvent ev).
Proof.
  simpl. intros Ha. repeat case_match; simplify_eq; unfold move in *; repeat case_match; simplify_eq;
    simpl; by split_and!.
Qed.

(** Left to themselves, the calls in progress all return. *)
Lemma calls_finish bound s m now :
  served bound s m -> bound <= maxEntries -> clock s <= now -> plausible now ->
  exists evs s', runs step s evs s' /\ threads s' = ∅ /\ Forall (fun ev => isInvoked ev = false) evs.
Proof.
  intros HS Hb Hcl Hnow. remember (length (shards_ (database s))) as n eqn:Hn.
  remember (Z.to_nat (total (movesLeft n) (threads s))) as fuel eqn:Hf.
  revert s m HS Hcl Hn Hf. induction fuel as [fuel IH] using lt_wf_ind. intros s m HS Hcl Hn Hf.
  destruct (decide (threads s = ∅)) as [He|Hne].
  { exists [], s. split_and!; [constructor|done|constructor]. }
  destruct (somebody_moves _ _ _ _ HS Hb Hne Hcl Hnow) as (tid & ev & s1 & Ha).
  pose proof (run_event _ _ _ _ _ Ha) as (Hni & Hw & Hc1 & Hge).
  assert (moves s ev s1) as Hm by (apply step_moves; by eexists).
  destruct (moves_served _ _ _ _ _ HS Hb (Hge Hnow) Hm) as (m1 & HS1 & _). rewrite Hw, Z.add_0_r in HS1.
  pose proof (moves_progress _ _ _ n (sv_locks _ _ _ HS) ltac:(done) Hm) as Hp.
  assert (length (shards_ (database s1)) = n) as Hn1
    by (rewrite (sr_length _ _ (moves_routing _ _ _ (sv_locks _ _ _ HS) Hm)); done).
  pose proof (total_nonneg (movesLeft n) (threads s1) (movesLeft_nonneg n)).
  destruct ev as [| | |]; try done.
  all: destruct (IH (Z.to_nat (total (movesLeft n) (threads s1))) ltac:(lia) s1 m1 HS1)
    as (evs & s2 & Hr & He & Hall); [lia|done|done|].
  all: eexists (_ :: evs), s2; split_and!; [eapply runs_cons; [by eexists|exact Hr]|done|by constructor].
Qed.
End Effects.
