(* ===== verification/Linearizability.v ===== *)
(** * The single-key methods are linearizable

    Seen from outside, every SET, GET, TTL, DEL and EXISTS takes effect at one
    instant between its start and its end, in one order all threads agree on, as if
    on a finite map whose entries disappear at their deadlines; passes of the
    sweeper, KEYS, snapshots and the counters in between do not show.  With a memory
    limit a SET may take other keys of its shard with it. *)
From S2P Require Import Prelude.
From S2P Require Import Hash.
From S2P Require Import Table.
From S2P Require Import TableInv.
From S2P Require Import TableSpec.
From S2P Require Import TableSweep.
From S2P Require Import Store.
From S2P Require Import StoreSpec.
From S2P Require Import StoreSweep.
From S2P Require Import ExecutorSpec.
From S2P Require Import SweepSession.
From S2P Require Import Trace.
From S2P Require Import Locking.
From S2P Require Import LockingInv.
From S2P Require Import LockingSpec.
From S2P Require Import LockingRuns.
Import Database ShardLocks.

#[local] Open Scope Z_scope.

(** ** Definitions *)

Definition single (c : Call) : bool :=
  match c with
  | CallSet _ _ | CallSetEx _ _ _ | CallGet _ | CallTtl _ | CallDel _ | CallExists _ => true
  | _ => false
  end.

(** Calls that do not replace the keyspace shard by shard. *)
Definition regular (c : Call) : bool :=
  match c with CallClear _ | CallRestore _ _ | CallLoad _ _ _ => false | _ => true end.

(** The result a section has fixed. *)
Definition resultOf (a : After) : option Result :=
  match a with
  | Then _ => None
  | Promote _ value => Some (RValue (Some value))
  | Finish r => Some r
  end.

(** One operation on the ideal map at one instant. *)
Inductive applies `{Platform} (limit : Z) (m : gmap bytes Entry) (now : time_point) :
    Call -> gmap bytes Entry -> Result -> Prop :=
| applies_store c e victims outcome : storedBy now c = Some e ->
    limit = 0 \/ HashTable.footprintEstimate (ekey e) (evalue e) <= limit ->
    ekey e ∉ victims -> (limit = 0 -> victims = []) -> outcome <> Rejected ->
    (is_Some (visible m now !! ekey e) -> outcome = Updated) ->
    applies limit m now c (dropKeys victims (<[ekey e := e]> m)) (ROutcome outcome)
| applies_reject c e : storedBy now c = Some e ->
    limit <> 0 -> limit < HashTable.footprintEstimate (ekey e) (evalue e) ->
    applies limit m now c m (ROutcome Rejected)
| applies_get key :
    applies limit m now (CallGet key) m (RValue (evalue <$> visible m now !! key))
| applies_ttl key :
    applies limit m now (CallTtl key) m
      (RTtl (e ← visible m now !! key; d ← expiration e; Some (ceilSeconds (d - now))))
| applies_del key :
    applies limit m now (CallDel key) (delete key m) (RBool (bool_decide (is_Some (visible m now !! key))))
| applies_exists key :
    applies limit m now (CallExists key) m (RBool (bool_decide (is_Some (visible m now !! key)))).

(** Operations one after the other, at instants that do not go back. *)
Inductive legal `{Platform} (limit : Z) (m : gmap bytes Entry) (start : time_point) :
    list (time_point * Call * Result) -> gmap bytes Entry -> Prop :=
| legal_nil : legal limit m start [] m
| legal_snoc ops m1 now c r m2 : legal limit m start ops m1 ->
    start <= now -> (forall op, op ∈ ops -> op.1.1 <= now) ->
    applies limit m1 now c m2 r -> legal limit m start (ops ++ [(now, c, r)]) m2.

(** The operations of a trace, each where its section ran. *)
Definition operation (ev : Event) : option (time_point * Call * Result) :=
  match ev with
  | Applied _ now c a => if single c then r ← resultOf a; Some (now, c, r) else None
  | _ => None
  end.
Definition operations (evs : list Event) : list (time_point * Call * Result) := omap operation evs.

(** Where a thread is in its sequence of calls. *)
Inductive Phase := Idle | Calling (c : Call) | Answered (c : Call) (r : Result).

(** A thread starts a call when it has none; a single-key call runs its section
    once and returns what the section fixed. *)
Inductive history (tid : nat) : list Event -> Phase -> Prop :=
| history_nil : history tid [] Idle
| history_other evs ev ph : history tid evs ph -> actor ev <> tid -> history tid (evs ++ [ev]) ph
| history_silent evs ph : history tid evs ph -> history tid (evs ++ [Silent tid]) ph
| history_invoked evs c : history tid evs Idle -> history tid (evs ++ [Invoked tid c]) (Calling c)
| history_applied evs now c a r : history tid evs (Calling c) -> single c = true -> resultOf a = Some r ->
    history tid (evs ++ [Applied tid now c a]) (Answered c r)
| history_visited evs c now c' a : history tid evs (Calling c) -> single c = false -> single c' = false ->
    history tid (evs ++ [Applied tid now c' a]) (Calling c)
| history_returned evs c r : history tid evs (Answered c r) -> history tid (evs ++ [Returned tid r]) Idle
| history_walked evs c r : history tid evs (Calling c) -> single c = false ->
    history tid (evs ++ [Returned tid r]) Idle.

(** The phase a thread in the middle of a call is in. *)
Definition inPhase (th : Thread) (ph : Phase) : Prop :=
  match th with
  | Ready c | Held _ _ c => exists c0, ph = Calling c0 /\ (c0 = c \/ single c0 = false /\ single c = false)
  | Promoting _ _ value => exists c0, ph = Answered c0 (RValue (Some value))
  | Releasing _ _ (Then c) => exists c0, ph = Calling c0 /\ single c0 = false /\ single c = false
  | Releasing _ _ (Promote _ _) => False
  | Releasing _ _ (Finish r) | Leaving r =>
      exists c0, ph = Answered c0 r \/ ph = Calling c0 /\ single c0 = false
  end.

(** ** Histories *)

Section Histories.
Context `{Platform}.

Lemma body_single now db c db' a : body now db c = Some (db', a) ->
  if single c then exists r, resultOf a = Some r
  else match a with Then c' => single c' = false | Promote _ _ => False | Finish _ => True end.
Proof.
  destruct c as [| | | | | | | | | | | | | |? [|??] ?]; simpl; unfold lookup; intros Hb;
    repeat (simplify_option_eq; try case_match; simpl); eauto.
Qed.

Lemma next_single now db c : match next now db c with
  | Goto c' => single c = false /\ single c' = false
  | Done _ => single c = false
  | Acquire _ _ => True
  end.
Proof.
  destruct c as [| | | | | | | | |z| | | | |? [|e ?] ?]; simpl; unfold loop; repeat case_match; simplify_eq; done.
Qed.

(** Every thread goes through its calls in order. *)
Lemma runs_history db start evs s tid : runs step (idle db start) evs s ->
  exists ph, history tid evs ph /\
    match threads s !! tid with None => ph = Idle | Some th => inPhase th ph end.
Proof.
  intros Hr. remember (idle db start) as s0 eqn:E. induction Hr as [s|s evs s1 ev s2 Hr IH Hst].
  { exists Idle. subst. split; [constructor|]. done. }
  destruct (IH E) as (ph & Hh & Hph). clear IH. apply step_moves in Hst.
  destruct (decide (actor ev = tid)) as [Ha|Hne].
  2:{ exists ph. split; [by constructor|]. by rewrite (moves_thread _ _ _ _ Hst Hne). }
  destruct Hst as [t c Ht He|t now c i mode mx mx' Ht Hcl Hn Hi Hlock|t now c c' Ht Hcl Hn
    |t now c r Ht Hcl Hn|t now i mode c db' a Ht Hcl Hbd|t now i key value db' Ht Hcl Hpr
    |t now i mode a mx mx' Ht Hcl Hi Hun|t now r Ht Hcl]; simpl in Ha; subst t;
    rewrite Ht in Hph; simpl; rewrite ?lookup_insert_eq, ?lookup_delete_eq.
  - subst ph. eexists. split; [by constructor|]. simpl. eauto.
  - exists ph. split; [by constructor|]. done.
  - pose proof (next_single now (database s1) c) as Hs. rewrite Hn in Hs. destruct Hs as [Hs Hs'].
    exists ph. split; [by constructor|]. destruct Hph as (c0 & -> & [->|[? ?]]); simpl; eauto 10.
  - pose proof (next_single now (database s1) c) as Hs. rewrite Hn in Hs.
    exists ph. split; [by constructor|]. destruct Hph as (c0 & -> & [->|[? ?]]); simpl; eauto 10.
  - pose proof (body_single _ _ _ _ _ Hbd) as Hs. destruct Hph as (c0 & -> & Hc0).
    destruct (single c) eqn:Hsc.
    + destruct Hs as [r Hr']. destruct Hc0 as [->|[_ ?]]; [|done].
      eexists. split; [by eapply history_applied|]. destruct a; simplify_eq/=; eauto.
    + assert (single c0 = false) as Hs0 by (destruct Hc0 as [->|[? _]]; done).
      eexists. split; [by eapply history_visited|]. destruct a; simpl in *; [eauto 10|done|eauto 10].
  - exists ph. split; [by constructor|]. destruct Hph as [c0 ->]. simpl. eauto.
  - exists ph. split; [by constructor|]. destruct a; simpl in *; [|done|done].
    destruct Hph as (c0 & -> & ? & ?). eauto 10.
  - destruct Hph as (c0 & [->|[-> Hs]]); exists Idle; (split; [|done]).
    + by eapply history_returned.
    + by eapply history_walked.
Qed.
End Histories.

(** ** Effects on the ideal map *)

#[global] Instance dropKeys_sameFrom now ks : Proper (sameFrom now ==> sameFrom now) (dropKeys ks).
Proof.
  intros m m' Hs. rewrite sameFrom_lookup in *. intros k e He. rewrite !dropKeys_lookup.
  case_decide; [done|]. by apply Hs.
Qed.

Section Simulation.
Context `{Platform}.

Lemma fitsWithinLimit_spec db k v :
  if fitsWithinLimit db k v
  then maxMemoryBytes_ db = 0 \/ HashTable.footprintEstimate k v <= maxMemoryBytes_ db
  else maxMemoryBytes_ db <> 0 /\ maxMemoryBytes_ db < HashTable.footprintEstimate k v.
Proof.
  unfold fitsWithinLimit. destruct (Z.eqb_spec (maxMemoryBytes_ db) 0); [by left|].
  destruct (Z.leb_spec (HashTable.footprintEstimate k v) (maxMemoryBytes_ db)); [by right|done].
Qed.

(** The section of a single-key call is one operation of the ideal map. *)
Lemma effect_applies db now md c md' a m :
  effect db now md c md' a -> single c = true -> sameFrom now md m ->
  exists r m', resultOf a = Some r /\ applies (maxMemoryBytes_ db) m now c m' r /\ sameFrom now md' m'.
Proof.
  intros He Hs Hsame. pose proof Hsame as Hv. unfold sameFrom in Hv.
  destruct He as [c e vs Hst Hfit Hk Hun Hvs|c e Hst Hfit|k|k|k|k| | | | | | | |]; try done;
    try (pose proof (fitsWithinLimit_spec db (ekey e) (evalue e)) as Hsp; rewrite Hfit in Hsp).
  - eexists _, _. split_and!; [done| |by rewrite Hsame]. apply applies_store; try done.
    + by case_match.
    + rewrite <- Hv, visible_lookup. by destruct (md !! ekey e); [|intros [? ?]].
  - destruct Hsp. eexists _, m. split_and!; [done|by eapply applies_reject|done].
  - exists (RValue (evalue <$> visible md now !! k)), m. split_and!; [|rewrite Hv; constructor|done].
    destruct (evalue <$> visible md now !! k); simpl; [|done]. by case_match.
  - eexists _, m. split_and!; [done|rewrite Hv; constructor|done].
  - eexists _, _. split_and!; [done|rewrite Hv; constructor|by rewrite Hsame].
  - eexists _, m. split_and!; [done|rewrite Hv; constructor|done].
Qed.

(** The sections of the other calls do not show. *)
Lemma effect_quiet db now md c md' a :
  effect db now md c md' a -> single c = false -> regular c = true -> sameFrom now md md'.
Proof.
  intros He Hs Hreg. destruct He as [c e vs Hst|c e Hst| | | | | | | |p i z ks Hnd Hks| | | |]; try done.
  - by destruct c.
  - rewrite sameFrom_lookup. intros k e He. rewrite dropKeys_lookup. case_decide as Hk; [|done].
    destruct (Hks k Hk) as (_ & e' & Hm & Hx). split; [|done]. congruence.
Qed.

(** ** Runs *)

Definition regularThread (th : Thread) : Prop :=
  match th with
  | Ready c | Held _ _ c | Releasing _ _ (Then c) => regular c = true
  | _ => True
  end.

Definition regularEvent (ev : Event) : Prop := match ev with Invoked _ c => regular c = true | _ => True end.

Lemma next_regular now db c c' : next now db c = Goto c' -> regular c = true -> regular c' = true.
Proof. destruct c as [| | | | | | | | | | | | | |? [|??] ?]; simpl; unfold loop; intros; repeat case_match; by simplify_eq. Qed.

Lemma body_regular now db c db' a i mode : body now db c = Some (db', a) -> regular c = true ->
  regularThread (worked i mode a).
Proof.
  destruct c as [| | | | | | | | | | | | | |? [|??] ?]; simpl; unfold lookup; intros Hb Hr;
    repeat (simplify_option_eq; try case_match; simpl); done.
Qed.

Lemma moves_regular s ev s' :
  (forall tid th, threads s !! tid = Some th -> regularThread th) -> regularEvent ev -> moves s ev s' ->
  forall tid th, threads s' !! tid = Some th -> regularThread th.
Proof.
  intros Hall Hev Hm tid th. destruct Hm as [t c Ht|t now c i mode mx mx' Ht|t now c c' Ht Hcl Hn
    |t now c r Ht|t now i mode c db' a Ht Hcl Hbd|t now i key value db' Ht|t now i mode a mx mx' Ht|t now r Ht];
    simpl; rewrite ?lookup_insert_Some, ?lookup_delete_Some;
    try (intros [[_ <-]|[_ Hth]]; [|by eapply Hall]).
  - done.
  - by apply (Hall _ _ Ht).
  - eapply next_regular; [exact Hn|]. by apply (Hall _ _ Ht).
  - done.
  - eapply body_regular; [exact Hbd|]. by apply (Hall _ _ Ht).
  - done.
  - pose proof (Hall _ _ Ht). by destruct a.
  - intros [_ Hth]. by eapply Hall.
Qed.

(** The invariant that ties a run to the ideal map. *)
Record simulates (limit : Z) (m0 : gmap bytes Entry) (start bound : Z) (evs : list Event) (s : System) : Prop := {
  si_regular : forall tid th, threads s !! tid = Some th -> regularThread th;
  si_limit : maxMemoryBytes_ (database s) = limit;
  si_start : start <= clock s;
  si_times : forall op, op ∈ operations evs -> op.1.1 <= clock s;
  si_maps : exists md m, served bound s md /\ sameFrom (clock s) md m /\ legal limit m0 start (operations evs) m
}.

Lemma operations_snoc evs ev : operations (evs ++ [ev]) = operations evs ++ option_list (operation ev).
Proof. apply trace_snoc. Qed.

Lemma moves_reading s tid now c a s' : moves s (Applied tid now c a) s' -> clock s' = now.
Proof. by inversion 1. Qed.

(** One step of the simulation: the ideal map moves with the operations. *)
Lemma moves_ideal limit m0 start bound evs s ev s' md m :
  served bound s md -> bound <= maxEntries -> goodEvent ev -> moves s ev s' ->
  simulates limit m0 start bound evs s -> sameFrom (clock s) md m -> legal limit m0 start (operations evs) m ->
  exists md' m', served (bound + eventWrites ev) s' md' /\ sameFrom (clock s') md' m' /\
    legal limit m0 start (operations (evs ++ [ev])) m'.
Proof.
  intros HS Hb Hg Hm [Hreg Hlim Hst Hti _] Hsame Hleg.
  destruct (moves_served _ _ _ _ _ HS Hb Hg Hm) as (md' & HS' & He).
  rewrite operations_snoc. pose proof (moves_clock _ _ _ Hm) as Hcl.
  destruct ev as [tid c|tid now c a|tid r|tid]; simpl in He;
    try (subst md'; exists md, m; simpl; rewrite app_nil_r; split_and!; [done|by eapply sameFrom_later|done]).
  destruct He as [Hle He]. rewrite (moves_reading _ _ _ _ _ _ Hm) in *.
  apply (sameFrom_later _ now) in Hsame; [|done]. simpl.
  destruct (single c) eqn:Hsc.
  - destruct (effect_applies _ _ _ _ _ _ _ He Hsc Hsame) as (r & m' & Hr & Hap & Hs').
    exists md', m'. split_and!; [done..|]. rewrite Hr. simpl. rewrite Hlim in Hap.
    eapply legal_snoc; [done|lia| |done]. intros op Hop. specialize (Hti op Hop). lia.
  - exists md', m. rewrite app_nil_r. split_and!; [done| |done]. etrans; [|exact Hsame]. symmetry.
    eapply effect_quiet; [done|done|]. inversion Hm as [| | | |tid' now' i mode c' db' a' Ht| | |]; subst.
    by apply (Hreg _ _ Ht).
Qed.

Lemma simulates_step limit m0 start bound evs s ev s' :
  simulates limit m0 start bound evs s -> bound <= maxEntries -> goodEvent ev -> regularEvent ev ->
  moves s ev s' -> simulates limit m0 start (bound + eventWrites ev) (evs ++ [ev]) s'.
Proof.
  intros HS Hb Hg Hreg Hm. pose proof HS as [Hr Hlim Hst Hti (md & m & Hsv & Hsame & Hleg)].
  pose proof (moves_clock _ _ _ Hm) as Hcl. split.
  - by eapply moves_regular.
  - by rewrite (sr_limit _ _ (moves_routing _ _ _ (sv_locks _ _ _ Hsv) Hm)).
  - lia.
  - intros op. rewrite operations_snoc, elem_of_app. intros [Hop|Hop]; [specialize (Hti op Hop); lia|].
    destruct ev as [|tid now c a| |]; simpl in Hop; try by apply not_elem_of_nil in Hop.
    rewrite (moves_reading _ _ _ _ _ _ Hm). destruct (single c); [|by apply not_elem_of_nil in Hop].
    destruct (resultOf a); simpl in Hop; [|by apply not_elem_of_nil in Hop].
    by apply list_elem_of_singleton in Hop as ->.
  - by eapply moves_ideal.
Qed.

Lemma runs_simulates db m0 rs start evs s :
  dbRep db m0 rs -> deadlinesOk m0 -> Z.of_nat (base.size m0) + sumZ eventWrites evs <= maxEntries ->
  Forall goodEvent evs -> Forall regularEvent evs -> runs step (idle db start) evs s ->
  simulates (maxMemoryBytes_ db) m0 start (Z.of_nat (base.size m0) + sumZ eventWrites evs) evs s.
Proof.
  intros HD Hdl Hroom Hg Hreg Hr. remember (idle db start) as s0 eqn:E.
  induction Hr as [s|s evs s1 ev s2 Hr IH Hst].
  - subst. split; try done; [by intros op ?%not_elem_of_nil|]. exists m0, m0. simpl. rewrite Z.add_0_r.
    split_and!; [by eapply idle_served|done|constructor].
  - rewrite Forall_app, Forall_singleton in Hg, Hreg. destruct Hg as [Hg Hev], Hreg as [Hreg Hrev].
    rewrite sumZ_app in *. simpl in *. rewrite Z.add_0_r in *.
    assert (0 <= eventWrites ev) as Hev0.
    { destruct ev; simpl; try lia. apply writesOf_nonneg. }
    rewrite Z.add_assoc. apply simulates_step with (s := s1); [apply IH; try done|..]; try done; try lia.
    by apply step_moves.
Qed.
End Simulation.
