(* ===== verification/Walks.v ===== *)
(** * Walks over the shards while others write

    KEYS and snapshots visit the shards one at a time.  What a walk gathers is not
    the keyspace of any one instant, but it has no duplicates, everything in it was
    there at some instant of the walk, and what is there throughout the walk is not
    missed.  The two walks are instances of one interface. *)
From S2P Require Import Prelude.
From S2P Require Import Hash.
From S2P Require Import Table.
From S2P Require Import TableInv.
From S2P Require Import TableSpec.
From S2P Require Import TableSweep.
From S2P Require Import Store.
From S2P Require Import StoreSpec.
From S2P Require Import ExecutorSpec.
From S2P Require Import Trace.
From S2P Require Import Locking.
From S2P Require Import LockingInv.
From S2P Require Import LockingSpec.
From S2P Require Import LockingRuns.
Import Database ShardLocks.

#[local] Open Scope Z_scope.

(** ** Definitions *)

(** The live entry of a key in a state of the system. *)
Definition entryAt (s : System) (key : bytes) : option Entry :=
  sh ← shardFor (database s) key;
  found ← HashTable.find (table sh) key;
  e ← found;
  if isExpiredAt e (clock s) then None else Some e.

(** A run goes through a state. *)
Definition passes `{Platform} (s : System) (evs : list Event) (s' : System) (P : System -> Prop) : Prop :=
  exists evs1 p evs2, evs = evs1 ++ evs2 /\ runs step s evs1 p /\ runs step p evs2 s' /\ P p.

(** A property holds after every step of a run. *)
Definition throughout `{Platform} (s : System) (evs : list Event) (s' : System) (P : System -> Prop) : Prop :=
  runs (fun p ev q => step p ev q /\ P q) s evs s'.

Definition returnsIn (tid : nat) (ev : Event) : bool :=
  match ev with Returned t _ => bool_decide (t = tid) | _ => false end.

(** What the walks have in common: a loop under shared locks that gathers from each
    shard what it holds at that instant. *)
Class Walk `{Platform} (A : Type) := {
  walkCall : nat -> list A -> Call;
  walkResult : list A -> Result;
  walkKey : A -> bytes;
  sees : option Entry -> A -> Prop;
  walk_inj : Inj2 (=) (=) (=) walkCall;
  walk_result : Inj (=) (=) walkResult;
  walk_next now db i acc : next now db (walkCall i acc) = loop db i Shared (Done (walkResult acc));
  walk_effect db now m i acc m' a : effect db now m (walkCall i acc) m' a ->
    m' = m /\ exists xs, a = Then (walkCall (S i) (acc ++ xs)) /\ NoDup (walkKey <$> xs) /\
      forall x, x ∈ xs <-> shardIndexFor db (walkKey x) = i /\ sees (visible m now !! walkKey x) x
}.

#[global] Existing Instances walk_inj walk_result.

(** Where a walk is. *)
Inductive walking `{Walk A} (n : nat) : Thread -> nat -> list A -> Prop :=
| walking_ready i acc : walking n (Ready (walkCall i acc)) i acc
| walking_held j mode i acc : walking n (Held j mode (walkCall i acc)) i acc
| walking_releasing j mode i acc : walking n (Releasing j mode (Then (walkCall i acc))) i acc
| walking_leaving i acc : (n <= i)%nat -> walking n (Leaving (walkResult acc)) i acc.

(** ** The two walks *)

Section Instances.
Context `{Platform}.

#[export] Program Instance keysWalk : Walk bytes := {|
  walkCall := CallKeys; walkResult := RKeys; walkKey := fun k => k; sees := fun e _ => is_Some e
|}.
Next Obligation. by intros ? ? ? ? [= -> ->]. Qed.
Next Obligation. by intros ? ? [= ->]. Qed.
Next Obligation. done. Qed.
Next Obligation.
  inversion 1 as [? ? ? Hs|? ? Hs| | | | |i' result ks Hnd Hks| | | | | | |]; simplify_eq. split; [done|].
  exists ks. by rewrite list_fmap_id.
Qed.

#[export] Program Instance snapshotWalk : Walk Entry := {|
  walkCall := CallSnapshot; walkResult := REntries; walkKey := ekey; sees := fun o e => o = Some e
|}.
Next Obligation. by intros ? ? ? ? [= -> ->]. Qed.
Next Obligation. by intros ? ? [= ->]. Qed.
Next Obligation. done. Qed.
Next Obligation.
  inversion 1 as [? ? ? Hs|? ? Hs| | | | | | | | |i' result es Hnd Hes| | |]; simplify_eq. eauto.
Qed.

Lemma entryAt_rep s m rs key : dbRep (database s) m rs -> entryAt s key = visible m (clock s) !! key.
Proof.
  intros HD. destruct (shardFor_rep _ m rs key HD) as (sh & r & Hsh & _ & HR & _).
  unfold entryAt. rewrite Hsh. simpl. rewrite (find_rep _ _ _ _ HR). simpl.
  by rewrite shardMap_own, visible_lookup.
Qed.
End Instances.

(** ** Walks in general *)

Section Walking.
Context `{Walk A}.

(** A step of the system, seen by a walk in progress. *)
Lemma moves_walk bound s ev s' m tid th i acc :
  served bound s m -> bound <= maxEntries -> goodEvent ev -> moves s ev s' ->
  threads s !! tid = Some th -> walking (length (shards_ (database s))) th i acc ->
  (exists th', threads s' !! tid = Some th' /\ walking (length (shards_ (database s))) th' i acc) \/
  (exists th' xs, threads s' !! tid = Some th' /\
    walking (length (shards_ (database s))) th' (S i) (acc ++ xs) /\ NoDup (walkKey <$> xs) /\
    forall x, x ∈ xs <-> shardIndexFor (database s) (walkKey x) = i /\ sees (entryAt s' (walkKey x)) x) \/
  (ev = Returned tid (walkResult acc) /\ (length (shards_ (database s)) <= i)%nat).
Proof.
  intros HS Hb Hg Hm Ht Hw. destruct (decide (actor ev = tid)) as [Ha|Hne].
  2:{ left. exists th. by rewrite (moves_thread _ _ _ _ Hm Hne). }
  destruct (moves_served _ _ _ _ _ HS Hb Hg Hm) as (m' & HS' & He). destruct (sv_rep _ _ _ HS') as [rs' HD'].
  destruct Hm as [t c Ht'|t now c j mode mx mx' Ht' Hcl Hn Hj Hlock|t now c c' Ht' Hcl Hn
    |t now c r Ht' Hcl Hn|t now j mode c db' a Ht' Hcl Hbd|t now j key value db' Ht' Hcl Hpr
    |t now j mode a mx mx' Ht' Hcl Hj Hun|t now r Ht' Hcl]; simpl in Ha; subst t; simplify_eq;
    simpl; rewrite ?lookup_insert_eq; inversion Hw; subst; try rewrite walk_next in Hn;
    unfold loop in *; try (case_match; simplify_eq).
  - left. eexists. split; [done|constructor].
  - left. eexists. split; [done|]. constructor. by apply Nat.ltb_ge.
  - right; left. destruct He as [_ He]. apply walk_effect in He as [-> (xs & -> & Hnd & Hxs)].
    eexists _, xs. split_and!; [done|constructor|done|]. intros x. rewrite Hxs.
    by rewrite (entryAt_rep _ _ _ (walkKey x) HD').
  - left. eexists. split; [done|constructor].
  - right; right. done.
Qed.

(** What a walk has gathered so far. *)
Record gathered (s0 : System) (evs : list Event) (s : System) (i : nat) (acc : list A) : Prop := {
  ga_nodup : NoDup (walkKey <$> acc);
  ga_visited : forall x, x ∈ acc -> (shardIndexFor (database s0) (walkKey x) < i)%nat;
  ga_seen : forall x, x ∈ acc -> passes s0 evs s (fun p => sees (entryAt p (walkKey x)) x)
}.

Lemma passes_snoc s0 evs s ev s' P : passes s0 evs s P -> step s ev s' -> passes s0 (evs ++ [ev]) s' P.
Proof.
  intros (evs1 & p & evs2 & -> & H1 & H2 & HP) Hst. exists evs1, p, (evs2 ++ [ev]).
  rewrite app_assoc. split_and!; [done..| |done]. by econstructor.
Qed.

Lemma gathered_more s0 evs s ev s' i acc xs :
  gathered s0 evs s i acc -> runs step s0 evs s -> step s ev s' -> NoDup (walkKey <$> xs) ->
  (forall x, x ∈ xs -> shardIndexFor (database s0) (walkKey x) = i /\ sees (entryAt s' (walkKey x)) x) ->
  gathered s0 (evs ++ [ev]) s' (S i) (acc ++ xs).
Proof.
  intros [Hnd Hvis Hseen] Hr Hst Hnd' Hxs. split.
  - rewrite fmap_app. apply NoDup_app. split_and!; [done| |done].
    intros k (x & -> & Hx)%list_elem_of_fmap (y & Hk & Hy)%list_elem_of_fmap.
    pose proof (Hvis x Hx) as Hlt. destruct (Hxs y Hy) as [Heq _]. rewrite Hk in Hlt. lia.
  - intros x [Hx|Hx]%elem_of_app; [specialize (Hvis x Hx); lia|]. destruct (Hxs x Hx). lia.
  - intros x [Hx|Hx]%elem_of_app; [by eapply passes_snoc; [apply Hseen|]|].
    exists (evs ++ [ev]), s', []. rewrite app_nil_r. destruct (Hxs x Hx).
    split_and!; [done|by econstructor|constructor|done].
Qed.

(** The invariant of a run that contains a walk; [P] holds after every step. *)
Lemma runs_walk (P : System -> Prop) bound s0 m0 tid evs s :
  served bound s0 m0 -> bound + sumZ eventWrites evs <= maxEntries -> Forall goodEvent evs ->
  threads s0 !! tid = Some (Ready (walkCall 0 [])) ->
  throughout s0 evs s P -> Forall (fun ev => returnsIn tid ev = false) evs ->
  exists m th i acc, served (bound + sumZ eventWrites evs) s m /\
    sameRouting (database s0) (database s) /\ threads s !! tid = Some th /\
    walking (length (shards_ (database s0))) th i acc /\ gathered s0 evs s i acc /\
    forall x, (forall p, P p -> sees (entryAt p (walkKey x)) x) ->
      (shardIndexFor (database s0) (walkKey x) < i)%nat -> x ∈ acc.
Proof.
  intros HS Hroom Hg Ht Hr Hno. induction Hr as [s|s0 evs s1 ev s2 Hr IH [Hst HP]].
  { exists m0, (Ready (walkCall 0 [])), 0%nat, []. simpl. rewrite Z.add_0_r.
    split_and!; try done; [constructor| |lia]. split; [constructor|by intros ? ?%not_elem_of_nil..]. }
  rewrite Forall_app, Forall_singleton in Hg, Hno. destruct Hg as [Hg Hev], Hno as [Hno Hnev].
  rewrite sumZ_app in *. simpl in *. rewrite Z.add_0_r in *.
  assert (0 <= eventWrites ev) as Hev0 by (destruct ev; simpl; try lia; apply writesOf_nonneg).
  destruct (IH HS ltac:(lia) Hg Ht Hno) as (m1 & th & i & acc & HS1 & Hro & Ht1 & Hw & Hga & Hall). clear IH.
  pose proof (step_moves _ _ _ Hst) as Hm.
  destruct (moves_served _ _ _ _ _ HS1 ltac:(lia) Hev Hm) as (m2 & HS2 & _). rewrite <- Z.add_assoc in HS2.
  pose proof (moves_routing _ _ _ (sv_locks _ _ _ HS1) Hm) as Hro2.
  rewrite <- (sr_length _ _ Hro) in Hw.
  destruct (moves_walk _ _ _ _ _ _ _ _ _ HS1 ltac:(lia) Hev Hm Ht1 Hw)
    as [(th' & Ht' & Hw')|[(th' & xs & Ht' & Hw' & Hnd & Hxs)|[-> _]]].
  - rewrite (sr_length _ _ Hro) in Hw'. exists m2, th', i, acc. split_and!; try done; [by etrans|].
    destruct Hga as [Hnd Hvis Hseen]. split; [done..|]. intros x Hx. eapply passes_snoc; [by apply Hseen|done].
  - rewrite (sr_length _ _ Hro) in Hw'. setoid_rewrite (sameRouting_index _ _ _ Hro) in Hxs.
    exists m2, th', (S i), (acc ++ xs). split_and!; try done; [by etrans| |].
    + eapply gathered_more; try done; [|intros x Hx; by apply Hxs].
      eapply runs_weaken; [|exact Hr]. by intros ? ? ? [? _].
    + intros x Hx Hlt. rewrite elem_of_app, Hxs.
      destruct (decide (shardIndexFor (database s0) (walkKey x) = i)) as [|Hne]; [right; auto|left].
      apply Hall; [done|lia].
  - simpl in Hnev. by rewrite bool_decide_true in Hnev.
Qed.

(** What a walk returns. *)
Lemma walk_returns (P : System -> Prop) bound s0 m0 tid evs s r s' :
  served bound s0 m0 -> bound + sumZ eventWrites evs <= maxEntries -> Forall goodEvent evs ->
  threads s0 !! tid = Some (Ready (walkCall 0 [])) ->
  throughout s0 evs s P -> Forall (fun ev => returnsIn tid ev = false) evs ->
  step s (Returned tid r) s' ->
  exists acc, r = walkResult acc /\ NoDup (walkKey <$> acc) /\
    (forall x, x ∈ acc -> passes s0 evs s (fun p => sees (entryAt p (walkKey x)) x)) /\
    forall x, (forall p, P p -> sees (entryAt p (walkKey x)) x) -> x ∈ acc.
Proof.
  intros HS Hroom Hg Ht Hr Hno Hst%step_moves.
  destruct (runs_walk P _ _ _ _ _ _ HS Hroom Hg Ht Hr Hno)
    as (m & th & i & acc & HS' & Hro & Ht' & Hw & [Hnd Hvis Hseen] & Hall).
  inversion Hst as [| | | | | | |t now r' Hth Hcl]; subst. rewrite Ht' in Hth. simplify_eq.
  inversion Hw; subst. exists acc. split_and!; try done. intros x Hx. apply Hall; [done|].
  destruct (sv_rep _ _ _ HS) as [rs HD].
  pose proof (shardIndexFor_lt (database s0) (walkKey x) (dr_geometry _ _ _ HD)). lia.
Qed.

(** A walk among other calls: nothing twice, nothing that was never there, nothing
    missed that was there all along. *)
Lemma walk_consistent bound s0 m0 tid evs s r s' :
  served bound s0 m0 -> bound + sumZ eventWrites evs <= maxEntries -> Forall goodEvent evs ->
  threads s0 !! tid = Some (Ready (walkCall 0 [])) ->
  runs step s0 evs s -> Forall (fun ev => returnsIn tid ev = false) evs ->
  step s (Returned tid r) s' ->
  exists acc, r = walkResult acc /\ NoDup (walkKey <$> acc) /\
    (forall x, x ∈ acc -> passes s0 evs s (fun p => sees (entryAt p (walkKey x)) x)) /\
    forall x, throughout s0 evs s (fun p => sees (entryAt p (walkKey x)) x) -> x ∈ acc.
Proof.
  intros HS Hroom Hg Ht Hr Hno Hst.
  destruct (walk_returns (fun _ => True) bound s0 m0 tid evs s r s' HS Hroom Hg Ht) as (acc & Hacc & Hnd & Hseen & _);
    try done; [eapply runs_weaken; [|exact Hr]; done|].
  exists acc. split_and!; try done. intros x Hx.
  destruct (walk_returns _ _ _ _ _ _ _ _ _ HS Hroom Hg Ht Hx Hno Hst) as (acc' & Hacc' & _ & _ & Hall).
  rewrite Hacc in Hacc'. apply (inj walkResult) in Hacc' as ->. by apply Hall.
Qed.
End Walking.
