(* ===== verification/LockingAlone.v ===== *)
(** * A call that runs alone

    The concurrent steps agree with the methods of [Store.v]: a thread that runs
    from the start of a call to its end without interruption computes exactly what
    the sequential definition of the method computes, reading by reading. *)
From S2P Require Import Prelude.
From S2P Require Import Hash.
From S2P Require Import Table.
From S2P Require Import Store.
From S2P Require Import Trace.
From S2P Require Import Locking.
From S2P Require Import LockingInv.
Import Database ShardLocks.

#[local] Open Scope Z_scope.

(** ** Definitions *)

(** The method a call started, as one step; [clk i] is the reading made while shard
    [i] is locked, [clk] of the number of shards the one [restore] makes between
    its two loops. *)
Definition sequential `{Platform} (clk : nat -> time_point) (db : t) (c : Call) : option (t * Result) :=
  match c with
  | CallSet key value => r ← Database.set db key value; Some (fst r, ROutcome (snd r))
  | CallSetEx key value ttl =>
      r ← setEx db key value ttl (clk (shardIndexFor db key)); Some (fst r, ROutcome (snd r))
  | CallGet key => r ← get db key (clk (shardIndexFor db key)); Some (fst r, RValue (snd r))
  | CallTtl key => r ← Database.ttl db key (clk (shardIndexFor db key)); Some (db, RTtl r)
  | CallDel key => r ← del db key (clk (shardIndexFor db key)); Some (fst r, RBool (snd r))
  | CallExists key => r ← exists_ db key (clk (shardIndexFor db key)); Some (db, RBool r)
  | CallKeys _ _ => ks ← keys db clk; Some (db, RKeys ks)
  | CallSum Entries _ _ => Some (db, RNumber (size db))
  | CallSum Buckets _ _ => Some (db, RNumber (bucketCount db))
  | CallSum Bytes _ _ => Some (db, RNumber (memoryUsage db))
  | CallSum Evicted _ _ => Some (db, RNumber (evictedCount db))
  | CallEmpty _ => Some (db, RBool (isEmpty db))
  | CallRemoveExpired maxBuckets => r ← removeExpired db maxBuckets clk; Some (fst r, RNumber (snd r))
  | CallSnapshot _ _ => es ← snapshot db clk; Some (db, REntries es)
  | CallClear _ => db ← clear db; Some (db, RDone)
  | CallRestore _ es =>
      r ← restore db es (clk (length (shards_ db))); Some (fst r, RNumber (snd r))
  | CallSweep _ _ _ | CallLoad _ _ _ => None
  end.

(** The rest of a call from a point of its loop on. *)
Definition restOf `{Platform} (clk : nat -> time_point) (db : t) (c : Call) : option (t * Result) :=
  let before i := take i (shards_ db) in
  let ahead i := drop i (shards_ db) in
  match c with
  | CallKeys i acc => ks ← keysFrom clk i (ahead i); Some (db, RKeys (acc ++ ks))
  | CallSum figure i total =>
      Some (db, RNumber (fold_left (fun total sh => u64 (total + figureOf figure sh)) (ahead i) total))
  | CallEmpty i => Some (db, RBool (forallb (fun sh => HashTable.isEmpty (table sh)) (ahead i)))
  | CallSweep perShard i removed =>
      r ← sweepFrom perShard clk i (ahead i) removed;
      Some (withShards (before i ++ fst r) db, RNumber (snd r))
  | CallSnapshot i acc => es ← snapshotFrom clk i (ahead i); Some (db, REntries (acc ++ es))
  | CallClear i => l ← mapM clearShard (ahead i); Some (withShards (before i ++ l) db, RDone)
  | CallRestore i es =>
      l ← mapM clearShard (ahead i);
      r ← foldM (restoreEntry (clk (length (shards_ db)))) (withShards (before i ++ l) db, 0) es;
      Some (fst r, RNumber (snd r))
  | CallLoad since es stored =>
      r ← foldM (restoreEntry since) (db, stored) es; Some (fst r, RNumber (snd r))
  | _ => sequential clk db c
  end.

Definition restAfter `{Platform} (clk : nat -> time_point) (db : t) (a : After) : option (t * Result) :=
  match a with
  | Then c => restOf clk db c
  | Promote key value => db ← promote db key; Some (db, RValue (Some value))
  | Finish r => Some (db, r)
  end.

Definition restThread `{Platform} (clk : nat -> time_point) (db : t) (th : Thread) : option (t * Result) :=
  match th with
  | Ready c | Held _ _ c => restOf clk db c
  | Promoting _ key value => restAfter clk db (Promote key value)
  | Releasing _ _ (Promote _ value) => Some (db, RValue (Some value))
  | Releasing _ _ a => restAfter clk db a
  | Leaving r => Some (db, r)
  end.

(** The readings up to an index replaced by one reading. *)
Definition readUpTo (idx : nat) (now : time_point) (clk : nat -> time_point) : nat -> time_point :=
  fun j => if (j <=? idx)%nat then now else clk j.

(** ** Proofs *)

Section Alone.
Context `{Platform}.

Lemma readUpTo_at idx now clk : readUpTo idx now clk idx = now.
Proof. unfold readUpTo. by rewrite Nat.leb_refl. Qed.

Lemma readUpTo_above idx now clk j : (idx < j)%nat -> readUpTo idx now clk j = clk j.
Proof. intros Hj. unfold readUpTo. by rewrite (proj2 (Nat.leb_gt _ _) Hj). Qed.

Lemma keysFrom_ext clk clk' i l : (forall j, (i <= j)%nat -> clk j = clk' j) -> keysFrom clk i l = keysFrom clk' i l.
Proof.
  revert i. induction l as [|sh l IH]; intros i Hc; simpl; [done|].
  rewrite Hc, (IH (S i)) by lia || (intros; apply Hc; lia). done.
Qed.

Lemma snapshotFrom_ext clk clk' i l :
  (forall j, (i <= j)%nat -> clk j = clk' j) -> snapshotFrom clk i l = snapshotFrom clk' i l.
Proof.
  revert i. induction l as [|sh l IH]; intros i Hc; simpl; [done|].
  rewrite Hc, (IH (S i)) by lia || (intros; apply Hc; lia). done.
Qed.

Lemma sweepFrom_ext perShard clk clk' i l removed :
  (forall j, (i <= j)%nat -> clk j = clk' j) ->
  sweepFrom perShard clk i l removed = sweepFrom perShard clk' i l removed.
Proof.
  revert i removed. induction l as [|sh l IH]; intros i removed Hc; simpl; [done|].
  rewrite Hc by lia. destruct (sweepShard perShard (clk' i) sh); simpl; [|done].
  rewrite (IH (S i)); [done|]. intros; apply Hc; lia.
Qed.

(** What comes after the section of shard [idx] does not look at earlier readings. *)
Lemma restOf_ext clk now db c i mode n db' c' :
  body n db c = Some (db', Then c') -> next now db c = Acquire i mode ->
  restOf (readUpTo i n clk) db' c' = restOf clk db' c'.
Proof.
  intros Hb Hn.
  destruct c as [k v|k v ttl|k|k|k|k|i0 l|f i0 z|i0|z|z i0 z'|i0 l|i0|i0 l|since [|e l] z];
    simpl in Hb, Hn; unfold loop in Hn; unfold lookup in Hb; try (case_match; simplify_eq; []);
    repeat (simplify_option_eq; try case_match); simpl; try done.
  - by rewrite (keysFrom_ext _ clk) by (intros; apply readUpTo_above; lia).
  - by rewrite (sweepFrom_ext _ _ clk) by (intros; apply readUpTo_above; lia).
  - by rewrite (snapshotFrom_ext _ clk) by (intros; apply readUpTo_above; lia).
  - rewrite length_insert, readUpTo_above; [done|]. by apply Nat.ltb_lt.
Qed.

Lemma withShards_same db : withShards (shards_ db) db = db.
Proof. by destruct db. Qed.

(** Shard [i] has been dealt with. *)
Lemma before_after (l : list Shard) i sh sh' : l !! i = Some sh ->
  take (S i) (<[i := sh']> l) = take i l ++ [sh'] /\ drop (S i) (<[i := sh']> l) = drop (S i) l.
Proof.
  intros Hi. pose proof (lookup_lt_Some _ _ _ Hi). split.
  - rewrite (take_S_r _ _ sh'), take_insert_ge by (by rewrite ?list_lookup_insert_eq || lia). done.
  - by rewrite drop_insert_lt by lia.
Qed.

Lemma get_split db key now :
  get db key now = (a ← lookup now db key; r ← restAfter (fun _ => now) db a;
                    match snd r with RValue v => Some (fst r, v) | _ => None end).
Proof.
  unfold get, lookup, promote. destruct (shardFor db key) as [sh|] eqn:Hsh; simpl; [|done].
  destruct (HashTable.find (table sh) key) as [[e|]|]; simpl; [|done..].
  destruct (isExpiredAt e now); simpl; [done|]. destruct (negb (maxMemoryBytes sh =? 0)); simpl; [|done].
  unfold promote. rewrite Hsh. simpl. by destruct (HashTable.touch (table sh) key) as [[ht b]|].
Qed.

(** The work of a section is the next part of the method. *)
Lemma body_rest clk now' n db c db' a i mode :
  body n db c = Some (db', a) -> next now' db c = Acquire i mode -> clk i = n ->
  restOf clk db c = restAfter clk db' a.
Proof.
  intros Hb Hn Hclk.
  destruct c as [k v|k v ttl|k|k|k|k|i0 l|f i0 z|i0|z|z i0 z'|i0 l|i0|i0 l|since [|e l] z];
    cbn [next] in Hn; unfold loop in Hn; try (case_match; simplify_eq; []); simplify_eq;
    cbn [body] in Hb; unfold restOf, sequential;
    try (destruct (shards_ db !! i) as [sh|] eqn:Hi; [|done]; simpl in Hb;
         try rewrite (drop_S _ _ _ Hi)).
  - by destruct (Database.set db k v) as [[]|]; simplify_eq/=.
  - by destruct (setEx db k v ttl _) as [[]|]; simplify_eq/=.
  - rewrite get_split. destruct (lookup _ db k) as [a'|] eqn:Hl; simplify_eq/=.
    unfold lookup in Hl. repeat (simplify_option_eq; try case_match); try done.
    simpl. by destruct (promote db' k).
  - by destruct (Database.ttl db k _); simplify_eq/=.
  - by destruct (del db k _) as [[]|]; simplify_eq/=.
  - by destruct (exists_ db k _); simplify_eq/=.
  - simplify_option_eq. destruct (keysFrom _ _ _); simpl; [|done]. by rewrite app_assoc.
  - by simplify_eq/=.
  - simplify_eq/=. by destruct (HashTable.isEmpty (table sh)).
  - destruct (sweepShard z (clk i) sh) as [[sh' m]|] eqn:Hs; simplify_eq/=. rewrite Hs. simpl.
    destruct (before_after _ _ _ sh' Hi) as [-> ->]. destruct (sweepFrom _ _ _ _ _) as [[]|]; simpl; [|done].
    by rewrite <- app_assoc.
  - simplify_option_eq. destruct (snapshotFrom _ _ _); simpl; [|done]. by rewrite app_assoc.
  - destruct (clearShard sh) as [sh'|] eqn:Hs; simplify_eq/=. rewrite Hs. simpl.
    destruct (before_after _ _ _ sh' Hi) as [-> ->]. destruct (mapM _ _); simpl; [|done].
    by rewrite <- app_assoc.
  - destruct (clearShard sh) as [sh'|] eqn:Hs; simplify_eq/=. rewrite Hs. simpl.
    destruct (before_after _ _ _ sh' Hi) as [-> ->]. rewrite length_insert. destruct (mapM _ _); simpl; [|done].
    by rewrite <- app_assoc.
  - cbn [foldM]. by destruct (restoreEntry since (db, z) e) as [[]|]; simplify_eq/=.
Qed.

(** Between the sections nothing is lost. *)
Lemma next_rest clk now db c :
  match next now db c with
  | Goto c' => clk (length (shards_ db)) = now \/ (forall i es, c <> CallRestore i es) ->
      restOf clk db c = restOf clk db c'
  | Done r => restOf clk db c = Some (db, r)
  | Acquire _ _ => True
  end.
Proof.
  assert (forall i, (i <? length (shards_ db))%nat = false -> drop i (shards_ db) = [] /\ take i (shards_ db) = shards_ db) as Hend.
  { intros i Hi%Nat.ltb_ge. split; [by apply drop_ge|by apply take_ge]. }
  destruct c as [| | | | | |i acc|f i z|i|z|p i z|i acc|i|i es|since [|e es] z]; cbn [next]; unfold loop; try done;
    try (destruct (i <? length (shards_ db))%nat eqn:Hi; [done|]; destruct (Hend i Hi) as [E1 E2]);
    cbn [restOf]; rewrite ?E1, ?E2; simpl; rewrite ?app_nil_r, ?withShards_same; try done.
  - unfold removeExpired. destruct (z =? 0); [done|]. intros _. simpl. by destruct (sweepFrom _ _ _ _ _).
  - intros [->|Hno]; [done|]. by destruct (Hno i es).
  - destruct (isExpiredAt e since) eqn:Hx; [|done]. intros _. done.
Qed.

(** The readings a call that is alone has made, as a clock for the shards: they do
    not go back, and each is a reading of the run. *)
Record clockOf (earliest : time_point) (nows : list time_point) (clk : nat -> time_point) : Prop := {
  co_mono : forall i j, (i <= j)%nat -> clk i <= clk j;
  co_late : forall j, earliest <= clk j;
  co_read : forall j, clk j ∈ nows
}.

Lemma clockOf_read earliest now idx nows clk :
  earliest <= now -> clockOf now nows clk -> clockOf earliest (now :: nows) (readUpTo idx now clk).
Proof.
  intros Hle [Hm Hl Hr]. unfold readUpTo. split.
  - intros i j Hij. destruct (Nat.leb_spec i idx), (Nat.leb_spec j idx); try lia; [apply Hl|by apply Hm].
  - intros j. specialize (Hl j). case_match; lia.
  - intros j. rewrite elem_of_cons. case_match; [by left|by right].
Qed.

Lemma clockOf_later earliest now nows clk :
  earliest <= now -> clockOf now nows clk -> clockOf earliest (now :: nows) clk.
Proof.
  intros Hle [Hm Hl Hr]. split; [done| |].
  - intros j. specialize (Hl j). lia.
  - intros j. by right.
Qed.

(** The rest of a call does not depend on readings it will not make. *)
Lemma worked_rest clk n now db c i mode db' a :
  body n db c = Some (db', a) -> next now db c = Acquire i mode ->
  restOf (readUpTo i n clk) db c = restThread clk db' (worked i mode a).
Proof.
  intros Hb Hn. rewrite (body_rest _ _ _ _ _ _ _ _ _ Hb Hn (readUpTo_at _ _ _)).
  destruct a as [c'| |]; simpl; [|done..]. by eapply restOf_ext.
Qed.

(** One move of a thread, backwards: the readings of the rest of the run extend to
    readings of the whole. *)
Lemma move_rest s tid now th s' ev th' nows clk :
  locksOk s -> threads s !! tid = Some th -> clock s <= now -> clockOf now nows clk ->
  act (Run tid now) s = Stepped (ev, s') -> threads s' !! tid = Some th' ->
  exists clk', clockOf (clock s) (now :: nows) clk' /\
    restThread clk' (database s) th = restThread clk (database s') th'.
Proof.
  intros HL Ht Hcl Hclk Ha Ht'. simpl in Ha. rewrite Ht, (proj2 (Z.leb_le _ _) Hcl) in Ha.
  assert (forall idx, clockOf (clock s) (now :: nows) (readUpTo idx now clk)) as Hread by (intros; by apply clockOf_read).
  pose proof (clockOf_later _ _ _ _ Hcl Hclk) as Hsame.
  destruct th as [c|i mode c|i key v|i mode a|r]; simpl in Ha.
  - pose proof (fun k => next_rest k now (database s) c) as Hn. unfold restThread at 1.
    destruct (next now (database s) c) as [i mode|c'|r] eqn:E.
    + repeat case_match; simplify_eq. simpl in Ht'. rewrite lookup_insert_eq in Ht'. simplify_eq. eauto.
    + simplify_eq. simpl in Ht'. rewrite lookup_insert_eq in Ht'. simplify_eq.
      destruct c; try (exists clk; split; [done|]; by rewrite Hn by (by right)).
      exists (readUpTo (length (shards_ (database s))) now clk). split; [done|].
      rewrite Hn by (left; apply readUpTo_at). simpl in E. unfold loop in E. case_match; by simplify_eq.
    + simplify_eq. simpl in Ht'. rewrite lookup_insert_eq in Ht'. simplify_eq. exists clk. by rewrite Hn.
  - destruct (body now (database s) c) as [[db' a]|] eqn:Hb; simplify_eq. simpl in Ht'.
    rewrite lookup_insert_eq in Ht'. simplify_eq. destruct (lo_placed _ HL _ _ Ht) as [now' Hn].
    exists (readUpTo i now clk). split; [done|]. by eapply worked_rest.
  - destruct (promote (database s) key) eqn:Hp; simplify_eq. simpl in Ht'.
    rewrite lookup_insert_eq in Ht'. simplify_eq. exists clk. simpl. by rewrite Hp.
  - repeat case_match; simplify_eq. simpl in Ht'. rewrite lookup_insert_eq in Ht'. simplify_eq.
    exists clk. split; [done|]. by destruct a.
  - simplify_eq. simpl in Ht'. by rewrite lookup_delete_eq in Ht'.
Qed.

Lemma run_thread s tid now th ev s' :
  threads s !! tid = Some th -> act (Run tid now) s = Stepped (ev, s') ->
  clock s <= now /\ clock s' = now /\
  ((exists th', threads s' !! tid = Some th') \/
   (exists r, th = Leaving r /\ ev = Returned tid r /\ database s' = database s)).
Proof.
  intros Ht Ha. simpl in Ha. rewrite Ht in Ha. destruct (Z.leb_spec (clock s) now); [|done].
  destruct th; unfold move in Ha; repeat case_match; simplify_eq; simpl; rewrite ?lookup_insert_eq;
    split_and!; eauto 10.
Qed.

Lemma actAll_nil actions s s' : actAll actions s = Some ([], s') -> actions = [] /\ s' = s.
Proof.
  destruct actions as [|a actions]; simpl; [by intros [= ->]|]. intros Ha.
  destruct (act a s) as [[ev s1]| |]; [|done..]. by destruct (actAll actions s1) as [[]|].
Qed.

(** A thread that runs alone to the end of its call. *)
Lemma alone_rest tid nows s th evs r s' :
  locksOk s -> threads s !! tid = Some th ->
  actAll (Run tid <$> nows) s = Some (evs ++ [Returned tid r], s') ->
  Forall (fun ev => match ev with Returned _ _ => False | _ => True end) evs ->
  exists clk, clockOf (clock s) nows clk /\ restThread clk (database s) th = Some (database s', r).
Proof.
  revert s th evs. induction nows as [|now nows IH]; intros s th evs HL Ht Ha Hev.
  { simpl in Ha. by destruct evs. }
  cbn [fmap list_fmap map actAll] in Ha.
  destruct (act (Run tid now) s) as [[ev s1]| |] eqn:Hact; [|done..].
  destruct (actAll _ s1) as [[evs1 s2]|] eqn:Hrest; [|done]. simpl in Ha.
  assert (locksOk s1) as HL1 by (eapply step_locksOk; [exact HL|by eexists]).
  pose proof (run_thread _ _ _ _ _ _ Ht Hact) as (Hcl & Hc1 & [[th1 Ht1]|(r0 & -> & -> & Hdb)]).
  - destruct evs as [|ev0 evs]; simplify_eq/=.
    + apply actAll_nil in Hrest as [_ <-]. inversion Hact as [Hm]. clear Hact. rewrite Ht in Hm.
      case_match; [|done]. destruct th; unfold move in Hm; repeat case_match; simplify_eq.
      match goal with Hs : leave _ _ = s' |- _ => rewrite <- Hs in Ht1 end. simpl in Ht1.
      by rewrite lookup_delete_eq in Ht1.
    + inversion Hev; subst. destruct (IH s1 th1 evs HL1 Ht1 Hrest) as (clk & Hclk & Hr); [done|].
      rewrite <- Hr. by eapply move_rest.
  - destruct evs as [|ev0 evs]; simplify_eq/=; [|by inversion Hev].
    apply actAll_nil in Hrest as [_ <-]. exists (fun _ => clock s'). rewrite Hdb. split; [|done].
    split; [done|done|]. intros _. by left.
Qed.

Lemma entry_rest clk db c : entryPoint c = true -> restOf clk db c = sequential clk db c.
Proof.
  destruct c as [| | | | | |i acc|f i z|i|z|p i z|i acc|i|i es|since es z]; simpl; try done; intros He.
  - apply andb_prop in He as [->%Nat.eqb_eq ->%bool_decide_eq_true]. done.
  - apply andb_prop in He as [->%Nat.eqb_eq ->%Z.eqb_eq]. by destruct f.
  - by apply Nat.eqb_eq in He as ->.
  - apply andb_prop in He as [->%Nat.eqb_eq He]. by destruct acc.
  - apply Nat.eqb_eq in He as ->. unfold clear. rewrite drop_0. by destruct (mapM clearShard (shards_ db)).
  - apply Nat.eqb_eq in He as ->. unfold restore, clear. rewrite drop_0. by destruct (mapM clearShard (shards_ db)).
Qed.
End Alone.
