(* ===== verification/LockingClaims.v ===== *)
(** * Theorems about the database under concurrent callers *)
From S2P Require Import Prelude.
From S2P Require Import Hash.
From S2P Require Import Table.
From S2P Require Import TableInv.
From S2P Require Import TableSpec.
From S2P Require Import Store.
From S2P Require Import StoreSpec.
From S2P Require Import StoreBulk.
From S2P Require Import StoreSweep.
From S2P Require Import ExecutorSpec.
From S2P Require Import Snapshot.
From S2P Require Import SnapshotSpec.
From S2P Require Import SnapshotClaims.
From S2P Require Import Trace.
From S2P Require Import Locking.
From S2P Require Import LockingInv.
From S2P Require Import LockingSpec.
From S2P Require Import LockingRuns.
From S2P Require Import Linearizability.
From S2P Require Import Walks.
From S2P Require Import LockingAlone.
Import Database ShardLocks.

#[local] Open Scope Z_scope.

(** ** Definitions *)

(** A trace of sensible calls for which a database of [m] has room. *)
Definition goodTrace (m : gmap bytes Entry) (evs : list Event) : Prop :=
  Forall goodEvent evs /\ Z.of_nat (base.size m) + sumZ eventWrites evs <= maxEntries.



(** ** Lemmas *)

Lemma actAll_runs `{Platform} actions s evs s' : actAll actions s = Some (evs, s') -> runs step s evs s'.
Proof.
  revert s evs. induction actions as [|a actions IH]; intros s evs Ha; simpl in Ha.
  - simplify_eq. constructor.
  - destruct (act a s) as [[ev s1]| |] eqn:E; [|done..].
    destruct (actAll actions s1) as [[evs1 s2]|] eqn:E1; simplify_eq/=.
    eapply runs_cons; [by eexists|]. by apply IH.
Qed.


Section Properties.
Context `{Platform}.

Lemma goodTrace_served db m rs start evs s :
  dbRep db m rs -> deadlinesOk m -> goodTrace m evs -> runs step (idle db start) evs s ->
  exists m', served (Z.of_nat (base.size m) + sumZ eventWrites evs) s m'.
Proof.
  intros HD Hdl [Hg Hroom] Hr. eapply runs_served; [by eapply idle_served|done..].
Qed.

(** A walk in a run from an idle database. *)
Lemma walk_from_idle `{!Walk A} db m rs start evs0 s0 tid s1 evs s2 r s3 :
  dbRep db m rs -> deadlinesOk m ->
  goodTrace m (evs0 ++ [Invoked tid (walkCall 0 [])] ++ evs) ->
  runs step (idle db start) evs0 s0 -> step s0 (Invoked tid (walkCall 0 [])) s1 ->
  runs step s1 evs s2 -> Forall (fun ev => returnsIn tid ev = false) evs -> step s2 (Returned tid r) s3 ->
  exists acc, r = walkResult acc /\ NoDup (walkKey <$> acc) /\
    (forall x, x ∈ acc -> passes s1 evs s2 (fun p => sees (entryAt p (walkKey x)) x)) /\
    forall x, throughout s1 evs s2 (fun p => sees (entryAt p (walkKey x)) x) -> x ∈ acc.
Proof.
  intros HD Hdl [Hg Hroom] Hr0 Hinv Hr Hno Hret.
  rewrite app_assoc in Hg, Hroom. apply Forall_app in Hg as [Hg0 Hg]. rewrite sumZ_app in Hroom.
  assert (forall l, 0 <= sumZ eventWrites l) as Hnn.
  { intros l. apply sumZ_nonneg. intros ev _. destruct ev; simpl; try lia. apply writesOf_nonneg. }
  pose proof (Hnn evs).
  assert (runs step (idle db start) (evs0 ++ [Invoked tid (walkCall 0 [])]) s1) as Hr1 by (by econstructor).
  destruct (goodTrace_served db m rs start (evs0 ++ [Invoked tid (walkCall 0 [])]) s1 HD Hdl) as [m1 HS1]; [split; [done|lia]|exact Hr1|].
  eapply walk_consistent; [exact HS1|lia|done| |done..].
  apply step_moves in Hinv. inversion Hinv; subst. simpl. by rewrite lookup_insert_eq.
Qed.

(** ** Mutual exclusion *)


(** C11: a critical section is not disturbed.  While a thread is inside a shard, no
    step of another thread changes that shard, except that readers may reorder the
    recency list among themselves; and what a reader is about to compute, the value
    of a GET or the keys of the shard in their order, does not depend on it. *)
Theorem sections_isolated db start evs s tid i mode ev s' :
  runs step (idle db start) evs s -> inside s tid i mode -> step s ev s' -> actor ev <> tid ->
  (exists sh sh', shards_ (database s) !! i = Some sh /\ shards_ (database s') !! i = Some sh' /\
    match mode with Exclusive => sh' = sh | Shared => sameShard sh sh' end) /\
  forall c now, threads s !! tid = Some (Held i Shared c) ->
    threads s' !! tid = Some (Held i Shared c) /\
    snd <$> body now (database s') c = snd <$> body now (database s) c.
Proof.
  intros HL%runs_locksOk Hin Hm%step_moves Hact.
  destruct (lookup_lt_is_Some_2 (shards_ (database s)) i) as [sh Hsh].
  { rewrite <- (lo_length _ HL). by eapply lo_bound. }
  destruct (moves_isolated _ _ _ _ _ _ _ HL Hm Hin Hact Hsh) as (sh' & Hsh' & Hsame).
  split; [by eauto|]. intros c now Ht. split; [by rewrite (moves_thread _ _ _ _ Hm Hact)|].
  destruct (lo_placed _ HL _ _ Ht) as [now' Hn].
  assert (mode = Shared) as -> by (unfold inside in Hin; rewrite Ht in Hin; simpl in Hin; congruence).
  eapply body_reads; try done. by eapply moves_routing.
Qed.

(** ** Progress *)

(** C13: calls end.  Whatever threads have called in whatever order, no next move of
    any of them is undefined (a dangling pointer, an overflow of a deadline, a mutex
    locked twice or unlocked by a stranger); while a call is in progress some thread
    can move; without new calls there are at most as many moves as the calls in
    progress have left; and the calls in progress can all return. *)
Theorem calls_complete db m rs start evs s now :
  dbRep db m rs -> deadlinesOk m -> goodTrace m evs -> runs step (idle db start) evs s ->
  clock s <= now -> plausible now ->
  (forall tid, act (Run tid now) s <> Undefined) /\
  (threads s <> ∅ -> exists tid ev s', act (Run tid now) s = Stepped (ev, s')) /\
  (forall evs' s', runs step s evs' s' -> Forall (fun ev => isInvoked ev = false) evs' ->
    len evs' <= total (movesLeft (length (shards_ (database s)))) (threads s)) /\
  (exists evs' s', runs step s evs' s' /\ Forall (fun ev => isInvoked ev = false) evs' /\ threads s' = ∅).
Proof.
  intros HD Hdl Hg Hr Hcl Hnow. destruct (goodTrace_served _ _ _ _ _ _ HD Hdl Hg Hr) as [m' HS].
  destruct Hg as [_ Hroom]. split_and!.
  - intros tid. destruct (threads s !! tid) as [th|] eqn:Ht; [|simpl; by rewrite Ht].
    by destruct (run_defined _ _ _ _ _ _ HS Hroom Ht Hcl Hnow) as [(ev & s' & ->)|(-> & _)].
  - intros Hne. by eapply somebody_moves.
  - intros evs' s' Hr' Hni. pose proof (runs_bounded _ _ _ _ (sv_locks _ _ _ HS) eq_refl Hr') as Hb.
    pose proof (total_nonneg (movesLeft (length (shards_ (database s)))) (threads s') (movesLeft_nonneg _)).
    rewrite (sumZ_ext _ (fun _ => 0)), sumZ_zero in Hb; [lia|].
    intros ev Hev. rewrite Forall_forall in Hni. specialize (Hni ev Hev). by destruct ev.
  - destruct (calls_finish _ _ _ _ HS Hroom Hcl Hnow) as (evs' & s' & ? & ? & ?). eauto.
Qed.

(** ** Linearizability *)

(** C5: SET, GET, TTL, DEL and EXISTS are linearizable.  Threads call the database in
    any order, with sweeps, KEYS, snapshots and counters among the calls.  Then every
    thread goes through its calls one at a time, each single-key call runs one
    critical section between its start and its end and returns what that section
    fixed; and the sections, in the order they ran, are a legal sequence of operations
    on one map whose entries vanish at their deadlines, where a SET is refused exactly
    when the entry exceeds the memory limit and takes other keys with it only if there
    is a limit. *)
Theorem linearizable db m rs start evs s :
  dbRep db m rs -> deadlinesOk m -> goodTrace m evs -> Forall regularEvent evs ->
  runs step (idle db start) evs s ->
  (exists m', legal (maxMemoryBytes_ db) m start (operations evs) m') /\
  forall tid, exists ph, history tid evs ph.
Proof.
  intros HD Hdl [Hg Hroom] Hreg Hr. split.
  - destruct (runs_simulates db m rs start evs s HD Hdl Hroom Hg Hreg Hr) as [_ _ _ _ (md & m' & _ & _ & Hl)].
    eauto.
  - intros tid. destruct (runs_history _ _ _ _ tid Hr) as (ph & Hh & _). eauto.
Qed.

(** ** Walks *)

(** C14: KEYS among other calls.  The keys a KEYS returns are listed once; each was
    live at some instant between the start of the call and its end; and a key that is
    live after every step of that time, rewritten or not, is not missed, whatever the
    other threads do. *)
Theorem keys_concurrent db m rs start evs0 s0 tid s1 evs s2 r s3 :
  dbRep db m rs -> deadlinesOk m -> goodTrace m (evs0 ++ [Invoked tid (CallKeys 0 [])] ++ evs) ->
  runs step (idle db start) evs0 s0 -> step s0 (Invoked tid (CallKeys 0 [])) s1 ->
  runs step s1 evs s2 -> Forall (fun ev => returnsIn tid ev = false) evs -> step s2 (Returned tid r) s3 ->
  exists ks, r = RKeys ks /\ NoDup ks /\
    (forall k, k ∈ ks -> passes s1 evs s2 (fun p => is_Some (entryAt p k))) /\
    forall k, throughout s1 evs s2 (fun p => is_Some (entryAt p k)) -> k ∈ ks.
Proof.
  intros HD Hdl Hg Hr0 Hinv Hr Hno Hret.
  destruct (walk_from_idle (A := bytes) db m rs start evs0 s0 tid s1 evs s2 r s3)
    as (ks & -> & Hnd & Hin & Hall); try done.
  exists ks. cbn in Hnd. rewrite list_fmap_id in Hnd. done.
Qed.



(** ** Calls that run alone *)

End Properties.

(** ** Witnesses *)

Definition freshDb : t := default (mk [] 0 0 0) (Database.new 16 4).

Lemma freshDb_rep : exists rs, dbRep (H := lp64) freshDb ∅ rs /\ maxMemoryBytes_ freshDb = 0.
Proof.
  destruct (new_db_rep (H := lp64) 16 4) as (db & Hdb & HD & Hm & _); [lia..|].
  unfold freshDb. rewrite Hdb. cbn [default from_option id]. eauto.
Qed.

Lemma empty_deadlines : deadlinesOk ∅.
Proof. by intros k e. Qed.

(** The events of a list of actions and the state they lead to. *)
Definition after (s : System) (actions : list Action) : list Event * System :=
  default ([], s) (actAll (H := lp64) actions s).

Lemma after_runs s actions :
  match actAll (H := lp64) actions s with Some _ => true | None => false end = true ->
  runs (step (H := lp64)) s (after s actions).1 (after s actions).2.
Proof.
  unfold after. destruct (actAll actions s) as [[evs s']|] eqn:E; [|done]. intros _. by apply actAll_runs in E.
Qed.

(** Events that are good at a glance. *)
Definition plainEvent (ev : Event) : bool :=
  match ev with
  | Invoked _ c => match c with CallSet _ _ | CallGet _ | CallExists _ | CallKeys _ _ | CallSnapshot _ _ => true | _ => false end
  | Applied _ now _ _ => (0 <=? now) && (now <? 2 ^ 62)
  | _ => true
  end.

Lemma plain_good evs : forallb plainEvent evs = true ->
  sumZ eventWrites evs <= maxEntries -> goodTrace ∅ evs /\ Forall regularEvent evs.
Proof.
  intros Hall Hroom. unfold goodTrace. rewrite map_size_empty.
  rewrite forallb_forall in Hall. split_and!; [|done|]; apply Forall_forall; intros ev Hev%list_elem_of_In%Hall.
  - destruct ev as [tid c| | |]; simpl in *; [by destruct c| |done..].
    apply andb_prop in Hev as [?%Z.leb_le ?%Z.ltb_lt]. done.
  - destruct ev as [tid c| | |]; simpl in *; [by destruct c|done..].
Qed.

(** A SET has returned, then a GET and an EXISTS of the same key meet in its shard. *)
Definition storing : list Action :=
  [Invoke 1 (CallSet (bs "a") (bs "1")); Run 1 1; Run 1 1; Run 1 1; Run 1 1].
Definition meeting : list Action :=
  storing ++ [Invoke 1 (CallGet (bs "a")); Invoke 2 (CallExists (bs "a")); Run 1 2; Run 2 2].
Definition together : System := (after (idle freshDb 0) meeting).2.

Lemma together_runs : runs (step (H := lp64)) (idle freshDb 0) (after (idle freshDb 0) meeting).1 together.
Proof. apply after_runs. vm_compute. reflexivity. Qed.

Definition shardOfA : nat := shardIndexFor freshDb (bs "a").


Lemma isolated_witness : exists sh sh',
  shards_ (database together) !! shardOfA = Some sh /\
  shards_ (database (after together [Run 2 3]).2) !! shardOfA = Some sh' /\ sameShard sh sh'.
Proof.
  refine (proj1 (sections_isolated (H := lp64) freshDb 0 _ together 1 shardOfA Shared
    (Applied 2 3 (CallExists (bs "a")) (Finish (RBool true))) (after together [Run 2 3]).2 together_runs _ _ _)).
  - vm_compute. reflexivity.
  - exists (Run 2 3). vm_compute. reflexivity.
  - discriminate.
Defined.

Lemma complete_witness : exists evs' s',
  runs (step (H := lp64)) together evs' s' /\ Forall (fun ev => isInvoked ev = false) evs' /\ threads s' = ∅.
Proof.
  destruct freshDb_rep as (rs & HD & _).
  refine (proj2 (proj2 (proj2 (calls_complete (H := lp64) freshDb ∅ rs 0 _ together 5 HD empty_deadlines
    _ together_runs _ _)))).
  - apply plain_good; vm_compute; [reflexivity|discriminate].
  - vm_compute. discriminate.
  - vm_compute. split; [discriminate|reflexivity].
Defined.

Lemma linearizable_witness : exists m',
  legal (H := lp64) 0 ∅ 0 [(1, CallSet (bs "a") (bs "1"), ROutcome Inserted); (3, CallExists (bs "a"), RBool true)] m'.
Proof.
  destruct freshDb_rep as (rs & HD & Hm).
  assert (operations (after (idle freshDb 0) (meeting ++ [Run 2 3])).1 =
    [(1, CallSet (bs "a") (bs "1"), ROutcome Inserted); (3, CallExists (bs "a"), RBool true)]) as <-
    by (vm_compute; reflexivity).
  rewrite <- Hm.
  refine (proj1 (linearizable (H := lp64) freshDb ∅ rs 0 _ (after (idle freshDb 0) (meeting ++ [Run 2 3])).2
    HD empty_deadlines _ _ _)).
  - apply plain_good; vm_compute; [reflexivity|discriminate].
  - apply plain_good; vm_compute; [reflexivity|discriminate].
  - apply after_runs. vm_compute. reflexivity.
Defined.

(** KEYS and a snapshot by thread 2, with a SET by thread 1 in the middle. *)
Definition shard (t : time_point) : list Action := [Run 2 t; Run 2 t; Run 2 t].
Definition walkActions : list Action :=
  shard 2 ++ shard 3 ++ [Invoke 1 (CallSet (bs "b") (bs "2")); Run 1 3; Run 1 3] ++
  [Run 1 4; Run 1 4] ++ shard 4 ++ shard 5 ++ [Run 2 6].
Definition started (c : Call) : System := (after (idle freshDb 0) (storing ++ [Invoke 2 c])).2.

Lemma keys_concurrent_witness : exists ks,
  RKeys [bs "a"] = RKeys ks /\ NoDup ks /\
  (forall k, k ∈ ks -> passes (H := lp64) (started (CallKeys 0 []))
    (after (started (CallKeys 0 [])) walkActions).1 (after (started (CallKeys 0 [])) walkActions).2
    (fun p => is_Some (entryAt p k))).
Proof.
  destruct freshDb_rep as (rs & HD & _).
  destruct (keys_concurrent (H := lp64) freshDb ∅ rs 0 (after (idle freshDb 0) storing).1
    (after (idle freshDb 0) storing).2 2 (started (CallKeys 0 []))
    (after (started (CallKeys 0 [])) walkActions).1 (after (started (CallKeys 0 [])) walkActions).2
    (RKeys [bs "a"]) (after (started (CallKeys 0 [])) (walkActions ++ [Run 2 6])).2 HD empty_deadlines)
    as (ks & E & Hnd & Hin & _).
  - apply plain_good; vm_compute; [reflexivity|discriminate].
  - apply after_runs. vm_compute. reflexivity.
  - exists (Invoke 2 (CallKeys 0 [])). vm_compute. reflexivity.
  - apply after_runs. vm_compute. reflexivity.
  - vm_compute. repeat constructor.
  - exists (Run 2 6). vm_compute. reflexivity.
  - exists ks. split; [exact E|]. split; [exact Hnd|exact Hin].
Defined.



