(* ===== verification/Workers.v ===== *)
(** * Worker threads executing requests

    [CommandExecutor::execute] as the workers of the server run it, several at a time
    on one database.  A request is one call of the database between parsing the line
    and composing the reply; a worker that is inside its call can be overtaken by the
    others at every step of [Locking.v].  Snapshots are not configured here: SAVE is
    answered at once. *)
From S2P Require Import Prelude.
From S2P Require Import Hash.
From S2P Require Import Text.
From S2P Require Import Protocol.
From S2P Require Import Parser.
From S2P Require Import ParserSpec.
From S2P Require Import Table.
From S2P Require Import TableInv.
From S2P Require Import TableSpec.
From S2P Require Import TableSweep.
From S2P Require Import Store.
From S2P Require Import StoreSpec.
From S2P Require Import Snapshot.
From S2P Require Import SaveLoad.
From S2P Require Import Executor.
From S2P Require Import ExecutorSpec.
From S2P Require Import Trace.
From S2P Require Import Locking.
From S2P Require Import LockingInv.
From S2P Require Import LockingSpec.
From S2P Require Import LockingRuns.
From S2P Require Import Linearizability.
From S2P Require Import LockingAlone.
Import ShardLocks.

#[local] Open Scope Z_scope.

Module Workers.

(** ** Definitions *)

(** The call a command makes. *)
Definition callOf (c : CommandParser.Command) : option Call :=
  let key := CommandParser.key c in
  match CommandParser.type c with
  | CommandParser.Set_ =>
      Some match CommandParser.expireSeconds c with
      | Some seconds => CallSetEx key (CommandParser.value c) seconds
      | None => CallSet key (CommandParser.value c)
      end
  | CommandParser.Get => Some (CallGet key)
  | CommandParser.Del => Some (CallDel key)
  | CommandParser.Exists => Some (CallExists key)
  | CommandParser.Keys => Some (CallKeys 0 [])
  | CommandParser.Empty | CommandParser.Save => None
  end.

(** The reply composed from the result of the call. *)
Definition replyOf (r : Result) : bytes :=
  match r with
  | ROutcome Database.Rejected => protocol.error (bs "ERR value is larger than the configured max-memory")
  | ROutcome _ => protocol.status (bs "OK")
  | RValue None => protocol.nil
  | RValue (Some value) => protocol.value (escapeForWire value)
  | RBool b => CommandExecutor.bit b
  | RKeys ks => CommandExecutor.keysReply ks
  | _ => []
  end.

(** The reply to a line that makes no call. *)
Definition immediate (c : CommandParser.Command) : option bytes :=
  match CommandParser.type c with
  | CommandParser.Save => Some (protocol.error (bs "ERR persistence is not configured"))
  | _ => None
  end.

(** The database, and the command each busy worker is executing. *)
Record Server := mkServer {
  system : System;
  asking : gmap nat CommandParser.Command
}.

Inductive Input :=
| Request (tid : nat) (line : bytes)
| Progress (tid : nat) (now : time_point)
| Sweep (tid : nat) (maxBuckets : Z).

Inductive ServerEvent :=
| Asked (tid : nat) (c : CommandParser.Command) (call : Call)
| Answered (tid : nat) (line : bytes) (reply : option bytes)
| Worked (tid : nat) (c : CommandParser.Command) (ev : Event)
| Replied (tid : nat) (c : CommandParser.Command) (r : Result) (reply : bytes)
| Swept (tid : nat) (ev : Event).

(** One step of a worker, or of the thread of the sweeper. *)
Definition serve `{Platform} (i : Input) (sv : Server) : Outcome (ServerEvent * Server) :=
  match i with
  | Request tid line =>
      match threads (system sv) !! tid, CommandParser.parse line with
      | Some _, _ => Blocked
      | None, None => Undefined
      | None, Some (CommandParser.failure error) =>
          Stepped (Answered tid line (Some (protocol.error error)), sv)
      | None, Some (CommandParser.success c) =>
          match callOf c with
          | None => Stepped (Answered tid line (immediate c), sv)
          | Some call =>
              match act (Invoke tid call) (system sv) with
              | Stepped (ev, s) => Stepped (Asked tid c call, mkServer s (<[tid := c]> (asking sv)))
              | Blocked => Blocked
              | Undefined => Undefined
              end
          end
      end
  | Progress tid now =>
      match act (Run tid now) (system sv), asking sv !! tid with
      | Stepped (Returned _ r, s), Some c =>
          Stepped (Replied tid c r (replyOf r), mkServer s (delete tid (asking sv)))
      | Stepped (ev, s), Some c => Stepped (Worked tid c ev, mkServer s (asking sv))
      | Stepped (ev, s), None => Stepped (Swept tid ev, mkServer s (asking sv))
      | Blocked, _ => Blocked
      | Undefined, _ => Undefined
      end
  | Sweep tid maxBuckets =>
      match act (Invoke tid (CallRemoveExpired maxBuckets)) (system sv) with
      | Stepped (ev, s) => Stepped (Swept tid ev, mkServer s (asking sv))
      | Blocked => Blocked
      | Undefined => Undefined
      end
  end.

Definition step `{Platform} (sv : Server) (ev : ServerEvent) (sv' : Server) : Prop :=
  exists i, serve i sv = Stepped (ev, sv').

(** A server nobody has asked anything. *)
Definition waiting (db : Database.t) (now : time_point) : Server := mkServer (idle db now) ∅.

(** What an event is to the database. *)
Definition inner (ev : ServerEvent) : option Event :=
  match ev with
  | Asked tid _ call => Some (Invoked tid call)
  | Answered _ _ _ => None
  | Worked _ _ ev | Swept _ ev => Some ev
  | Replied tid _ r _ => Some (Returned tid r)
  end.

(** The single-key requests, each at the instant it took effect, with the reply. *)
Definition request (ev : ServerEvent) : option (time_point * CommandParser.Command * bytes) :=
  match ev with
  | Worked _ c ev => '(now, _, r) ← operation ev; Some (now, c, replyOf r)
  | _ => None
  end.

(** An ideal server that handles requests one after the other. *)
Inductive idealServer (m : gmap bytes Entry) (start : time_point) :
    list (time_point * CommandParser.Command * bytes) -> gmap bytes Entry -> Prop :=
| ideal_nil : idealServer m start [] m
| ideal_snoc reqs m1 now c reply m2 : idealServer m start reqs m1 ->
    start <= now -> (forall q, q ∈ reqs -> q.1.1 <= now) ->
    serves m1 now c m2 (Some reply) -> idealServer m start (reqs ++ [(now, c, reply)]) m2.

(** A call is at a point of the call it started as. *)
Definition executing (call : Call) (th : Thread) : Prop :=
  match th with
  | Ready c | Held _ _ c | Releasing _ _ (Then c) => c = call \/ single call = false /\ single c = false
  | _ => True
  end.

(** Busy workers execute the calls of their commands; everything else is the
    sweeper. *)
Definition consistent (sv : Server) : Prop := forall tid,
  match asking sv !! tid, threads (system sv) !! tid with
  | Some c, Some th => exists call, callOf c = Some call /\ executing call th
  | Some _, None => False
  | None, Some th => executing (CallRemoveExpired 0) th
  | None, None => True
  end.

(** ** A request is one call *)

Section OneCall.
Context `{Platform} `{FileSystem} `{SystemClock}.

(** Handling a command is the call it makes, run by itself, and the reply made of
    its result. *)
Lemma run_one_call db m c w :
  CommandExecutor.at_ m = CommandExecutor.shardClock m (Database.shardIndexFor db (CommandParser.key c)) ->
  CommandExecutor.run (CommandExecutor.mk db None) m c w =
  match callOf c with
  | None => Some ((CommandExecutor.mk db None, immediate c), w, [])
  | Some call =>
      '(db', r) ← sequential (CommandExecutor.shardClock m) db call;
      Some ((CommandExecutor.mk db' None, Some (replyOf r)), w, [])
  end.
Proof.
  intros Hat. unfold CommandExecutor.run, callOf, immediate, CommandExecutor.runSet.
  unfold lift, mbind, IO_bind, mret, IO_ret. cbn [CommandExecutor.database_ CommandExecutor.store_].
  destruct (CommandParser.type c); [done| | | | | |done]; rewrite ?Hat.
  - destruct (CommandParser.expireSeconds c) as [sec|]; simpl.
    + by destruct (Database.setEx _ _ _ _ _) as [[db' []]|].
    + by destruct (Database.set _ _ _) as [[db' []]|].
  - simpl. by destruct (Database.get _ _ _) as [[db' []]|].
  - simpl. by destruct (Database.del _ _ _) as [[db' []]|].
  - simpl. by destruct (Database.exists_ _ _ _) as [[]|].
  - simpl. by destruct (Database.keys _ _).
Qed.
End OneCall.

(** ** Steps *)

Section Steps.
Context `{Platform}.

Lemma callOf_entry c call : callOf c = Some call -> entryPoint call = true /\ regular call = true.
Proof. unfold callOf. intros Hc. repeat case_match; simplify_eq; done. Qed.

Lemma callOf_good c call : callOf c = Some call -> wellFormed c = true -> goodCall call.
Proof.
  unfold callOf, wellFormed. intros Hc Hw. repeat case_match; simplify_eq/=; try done.
  apply andb_prop in Hw as [?%Z.ltb_lt ?%Z.leb_le]. done.
Qed.

Lemma run_actor s tid now ev s' : act (Run tid now) s = Stepped (ev, s') -> actor ev = tid /\ isInvoked ev = false.
Proof.
  cbn [act]. intros Ha. destruct (threads s !! tid) as [th|]; [|done]. destruct (clock s <=? now); [|done].
  destruct th; simpl in Ha; repeat case_match; by simplify_eq.
Qed.

(** Every step of the workers is at most one step of the database. *)
Lemma step_inner sv ev sv' : step sv ev sv' ->
  match inner ev with
  | Some e => ShardLocks.step (system sv) e (system sv')
  | None => system sv' = system sv
  end.
Proof.
  intros [[tid line|tid now|tid maxBuckets] Hs]; unfold serve in Hs.
  - destruct (threads (system sv) !! tid) eqn:Ht; [done|].
    destruct (CommandParser.parse line) as [[c|e]|]; [|by simplify_eq|done].
    destruct (callOf c) as [call|]; [|by simplify_eq].
    destruct (act (Invoke tid call) (system sv)) as [[ev' s]| |] eqn:Ha; simplify_eq.
    pose proof Ha as Hc. simpl in Hc. rewrite Ht in Hc. destruct (entryPoint call); simplify_eq.
    by exists (Invoke tid call).
  - destruct (act (Run tid now) (system sv)) as [[ev' s]| |] eqn:Ha; [|done..].
    pose proof (run_actor _ _ _ _ _ Ha) as [Htid _].
    destruct (asking sv !! tid) as [c|], ev'; simplify_eq; simpl; by eexists.
  - destruct (act (Invoke tid _) (system sv)) as [[ev' s]| |] eqn:Ha; simplify_eq. by eexists.
Qed.

Lemma runs_inner db start evs sv : runs step (waiting db start) evs sv ->
  runs ShardLocks.step (idle db start) (omap inner evs) (system sv).
Proof.
  intros Hr. remember (waiting db start) as s0 eqn:E. induction Hr as [s|s evs s1 ev s2 Hr IH Hst].
  - subst. constructor.
  - rewrite trace_snoc. apply step_inner in Hst. specialize (IH E).
    destruct (inner ev); simpl; [by econstructor|]. by rewrite app_nil_r, Hst.
Qed.

(** A thread stays with its call. *)
Lemma executing_moves s ev s' tid th th' call :
  moves s ev s' -> threads s !! tid = Some th -> executing call th -> threads s' !! tid = Some th' ->
  executing call th'.
Proof.
  intros Hm Ht He Ht'. destruct (decide (actor ev = tid)) as [Ha|Hne].
  2:{ rewrite (moves_thread _ _ _ _ Hm Hne) in Ht'. by simplify_eq. }
  destruct Hm as [t c Hx|t now c i mode mx mx' Hx|t now c c' Hx Hcl Hn
    |t now c r Hx|t now i mode c db' a Hx Hcl Hbd|t now i key value db' Hx|t now i mode a mx mx' Hx|t now r Hx];
    simpl in *; subst t; rewrite ?lookup_insert_eq, ?lookup_delete_eq in Ht'; simplify_eq; simpl in *; try done.
  - pose proof (next_single now (database s) c) as Hs. rewrite Hn in Hs. destruct Hs as [Hs Hs'].
    right. destruct He as [<-|[? _]]; done.
  - pose proof (body_single _ _ _ _ _ Hbd) as Hs. destruct a as [c'| |]; simpl; [|done..].
    destruct (single c) eqn:Hsc; [by destruct Hs|]. right. destruct He as [<-|[? _]]; done.
  - by destruct a.
Qed.

Lemma moves_invoked s tid call s' : moves s (Invoked tid call) s' ->
  threads s !! tid = None /\ threads s' = <[tid := Ready call]> (threads s).
Proof. by inversion 1. Qed.

Lemma moves_returned s tid r s' : moves s (Returned tid r) s' -> threads s' = delete tid (threads s).
Proof. by inversion 1. Qed.

(** A step that is not the start or the end of a call keeps the threads that have
    one. *)
Lemma moves_busy s ev s' tid : moves s ev s' ->
  isInvoked ev = false -> (forall t r, ev <> Returned t r) ->
  is_Some (threads s' !! tid) <-> is_Some (threads s !! tid).
Proof.
  intros Hm Hi Hr. destruct Hm as [| | | | | | |t now r]; try done; simpl; [..|by destruct (Hr t r)];
    rewrite lookup_insert; case_decide; subst; split; intros; eauto.
Qed.

(** The thread that moves. *)
Lemma stepped_consistent s ev s' tid (askers : gmap nat CommandParser.Command) :
  moves s ev s' -> actor ev = tid -> isInvoked ev = false ->
  match askers !! tid, threads s !! tid with
  | Some c, Some th => exists call, callOf c = Some call /\ executing call th
  | Some _, None => False
  | None, Some th => executing (CallRemoveExpired 0) th
  | None, None => True
  end ->
  match match ev, askers !! tid with Returned _ _, Some _ => delete tid askers | _, _ => askers end !! tid,
        threads s' !! tid with
  | Some c, Some th => exists call, callOf c = Some call /\ executing call th
  | Some _, None => False
  | None, Some th => executing (CallRemoveExpired 0) th
  | None, None => True
  end.
Proof.
  intros Hm Ha Hi HC. pose proof (moves_busy _ _ _ tid Hm Hi) as Hb.
  pose proof (fun th th' call Ht He Ht' => executing_moves _ _ _ tid th th' call Hm Ht He Ht') as Hex.
  destruct ev as [| |t r|]; [done| | |]; simpl in Ha; subst.
  2:{ rewrite (moves_returned _ _ _ _ Hm), lookup_delete_eq.
      destruct (askers !! tid) eqn:E; rewrite ?lookup_delete_eq, ?E; done. }
  all: destruct (askers !! tid) eqn:E, (threads s !! tid) as [th|] eqn:Ht; rewrite ?E; try done;
    destruct (threads s' !! tid) as [th'|] eqn:Ht'.
  all: try (by destruct (proj2 (Hb ltac:(done)) ltac:(eauto))).
  all: try (by destruct (proj1 (Hb ltac:(done)) ltac:(eauto))).
  all: try (by eapply Hex). all: try (destruct HC as (call & ? & ?); eauto). all: done.
Qed.

Lemma step_consistent sv ev sv' : consistent sv -> step sv ev sv' -> consistent sv'.
Proof.
  intros HC [[tid line|tid now|tid maxBuckets] Hs] t; specialize (HC t); unfold serve in Hs.
  - destruct (threads (system sv) !! tid) eqn:Ht; [done|].
    destruct (CommandParser.parse line) as [[c|e]|]; [|by simplify_eq|done].
    destruct (callOf c) as [call|] eqn:Hc; [|by simplify_eq].
    destruct (act (Invoke tid call) (system sv)) as [[ev' s]| |] eqn:Ha; simplify_eq. simpl in Ha. rewrite Ht in Ha.
    destruct (entryPoint call); simplify_eq. simpl.
    destruct (decide (t = tid)) as [->|Hne]; [|by rewrite !lookup_insert_ne].
    rewrite !lookup_insert_eq. exists call. simpl. eauto.
  - destruct (act (Run tid now) (system sv)) as [[ev' s]| |] eqn:Ha; [|done..].
    pose proof (run_actor _ _ _ _ _ Ha) as [Hact Hinv].
    assert (moves (system sv) ev' s) as Hm by (apply step_moves; by eexists).
    assert (system sv' = s /\ asking sv' = match ev', asking sv !! tid with
      | Returned _ _, Some _ => delete tid (asking sv) | _, _ => asking sv end) as [Es Ea]
      by (destruct (asking sv !! tid) eqn:E; rewrite ?E; destruct ev'; by simplify_eq).
    rewrite Es, Ea. clear Hs Ea. destruct (decide (t = tid)) as [->|Hne].
    + by apply stepped_consistent with (s := system sv).
    + rewrite (moves_thread _ _ _ t Hm) by congruence.
      assert (match ev', asking sv !! tid with Returned _ _, Some _ => delete tid (asking sv)
        | _, _ => asking sv end !! t = asking sv !! t) as -> by (by repeat case_match; rewrite ?lookup_delete_ne).
      done.
  - destruct (act (Invoke tid _) (system sv)) as [[ev' s]| |] eqn:Ha; simplify_eq. simpl in *.
    destruct (threads (system sv) !! tid) eqn:Ht; simplify_eq. simpl.
    destruct (decide (t = tid)) as [->|Hne]; [|by rewrite lookup_insert_ne].
    rewrite Ht in HC. rewrite lookup_insert_eq. destruct (asking sv !! tid); [done|]. simpl. by right.
Qed.

(** ** Requests and operations *)

Definition sameOperation (op : time_point * Call * Result) (q : time_point * CommandParser.Command * bytes) : Prop :=
  q.1.1 = op.1.1 /\ callOf q.1.2 = Some op.1.2 /\ q.2 = replyOf op.2.

(** Who is behind an event. *)
Lemma step_worker sv ev sv' : step sv ev sv' ->
  match ev with
  | Worked tid c e => actor e = tid /\ asking sv !! tid = Some c /\ isInvoked e = false
  | Swept tid e =>
      (exists z, e = Invoked tid (CallRemoveExpired z)) \/ (asking sv !! actor e = None /\ isInvoked e = false)
  | _ => True
  end.
Proof.
  intros [[tid line|tid now|tid maxBuckets] Hs]; unfold serve in Hs.
  - repeat case_match; by simplify_eq.
  - destruct (act (Run tid now) (system sv)) as [[ev' s]| |] eqn:Ha; [|done..].
    apply run_actor in Ha as [Hact Hinv].
    destruct (asking sv !! tid) as [c|] eqn:E, ev'; simplify_eq; try done; simpl; by right.
  - destruct (act (Invoke tid _) (system sv)) as [[ev' s]| |] eqn:Ha; simplify_eq. simpl in Ha.
    repeat case_match; simplify_eq. eauto.
Qed.

(** A line that makes no call is answered as the ideal server answers it. *)
Lemma step_answered sv tid line reply sv' m now :
  step sv (Answered tid line reply) sv' -> answers m now line m reply.
Proof.
  intros [[tid' line'|tid' now'|tid' z] Hs]; unfold serve in Hs; [|repeat case_match; by simplify_eq..].
  destruct (threads (system sv) !! tid'); [done|].
  destruct (CommandParser.parse line') as [[c|e]|] eqn:Hp; [| |done].
  - destruct (callOf c) as [call|] eqn:Hc; [repeat case_match; by simplify_eq|]. simplify_eq.
    eapply answers_command; [done|]. unfold callOf, immediate in *.
    destruct (CommandParser.type c) eqn:Ety; try done; [by apply serves_empty|by apply serves_save].
  - simplify_eq. by apply answers_error.
Qed.

Lemma step_request sv ev sv' : consistent sv -> step sv ev sv' ->
  Forall2 sameOperation (option_list (inner ev ≫= operation)) (option_list (request ev)).
Proof.
  intros HC Hst. pose proof (step_inner _ _ _ Hst) as Hin.
  assert (forall tid now call a s', moves (system sv) (Applied tid now call a) s' -> single call = true ->
    exists c call', asking sv !! tid = Some c /\ callOf c = Some call' /\ call' = call) as Hop.
  { intros tid now call a s' Hm Hs. inversion Hm as [| | | |? ? i mode ? db' ? Ht| | |]; subst.
    specialize (HC tid). rewrite Ht in HC. destruct (asking sv !! tid) as [c|].
    - destruct HC as (call' & Hc & [He|[_ He]]); [eauto|congruence].
    - simpl in HC. destruct HC as [->|[_ He]]; [done|congruence]. }
  apply step_worker in Hst. destruct ev as [tid c call|tid line reply|tid c ev|tid c r reply|tid ev]; simpl in *;
    try constructor; destruct ev as [|t now call a| |]; simpl; try constructor;
    destruct (single call) eqn:Hsc; try constructor; simpl in *;
    destruct (Hop _ _ _ _ _ (step_moves _ _ _ Hin) Hsc) as (c' & call' & Hask & Hc & ->).
  - destruct Hst as (-> & Hc' & _). simplify_eq. destruct (resultOf a); simpl; constructor; [done|constructor].
  - destruct Hst as [[z ?]|[? _]]; congruence.
Qed.

(** With no memory limit an operation of the ideal map is a request to the ideal
    server. *)
Lemma applies_serves m now c call m' r :
  applies 0 m now call m' r -> callOf c = Some call -> serves m now c m' (Some (replyOf r)).
Proof.
  intros Ha Hc. unfold callOf in Hc. destruct (CommandParser.type c) eqn:Ety; simplify_eq.
  - inversion Ha as [? e vs o Hst _ Hk Hun Hno _| | | | |]; subst; try by destruct (CommandParser.expireSeconds c).
    rewrite (Hun eq_refl), dropKeys_nil.
    assert (e = entryFor c now /\ ekey e = CommandParser.key c) as [-> ->].
    { unfold entryFor. destruct (CommandParser.expireSeconds c); simpl in Hst; by simplify_eq/=. }
    replace (replyOf (ROutcome o)) with (protocol.status (bs "OK")) by by destruct o. by apply serves_set.
  - inversion Ha; simplify_eq. destruct (visible m' now !! CommandParser.key c) eqn:Hv; simpl.
    + by eapply serves_get_hit.
    + by apply serves_get_miss.
  - inversion Ha; simplify_eq. by apply serves_del.
  - inversion Ha; simplify_eq. by apply serves_exists.
  - inversion Ha as [? ? ? ? Hst|? ? Hst| | | |]; simplify_eq.
Qed.

Lemma legal_ideal m start ops m' reqs :
  legal 0 m start ops m' -> Forall2 sameOperation ops reqs -> idealServer m start reqs m'.
Proof.
  intros Hl. revert reqs. induction Hl as [|ops m1 now c r m2 Hl IH Hst Hti Hap]; intros reqs Hf.
  - apply Forall2_nil_inv_l in Hf as ->. constructor.
  - apply Forall2_app_inv_l in Hf as (reqs1 & reqs2 & Hf1 & Hf2 & ->).
    apply Forall2_cons_inv_l in Hf2 as ([[now' c'] reply] & l & (E1 & Hc & E2) & ->%Forall2_nil_inv_l & ->).
    simpl in *. subst. eapply ideal_snoc; [by apply IH|done| |by eapply applies_serves].
    intros q Hq. apply list_elem_of_lookup in Hq as [j Hj].
    destruct (Forall2_lookup_r _ _ _ _ _ Hf1 Hj) as (op & Hop & [-> _]). apply Hti.
    by eapply list_elem_of_lookup_2.
Qed.

Lemma waiting_consistent db start : consistent (waiting db start).
Proof. by intros tid. Qed.

Lemma runs_requests db start evs sv : runs step (waiting db start) evs sv ->
  Forall2 sameOperation (operations (omap inner evs)) (omap request evs).
Proof.
  intros Hr. apply (runs_with consistent) in Hr; [|intros; by eapply step_consistent|apply waiting_consistent].
  induction Hr as [s|s evs s1 ev s2 Hr IH [Hst HC]]; [constructor|].
  rewrite !trace_snoc. unfold operations. rewrite omap_app. apply Forall2_app; [done|].
  pose proof (step_request _ _ _ HC Hst) as Hf. destruct (inner ev); simpl in *; [|done].
  by destruct (operation _).
Qed.

(** What the outside has to promise: clock readings of the next 146 years, budgets
    for the sweeper. *)
Definition goodServerEvent (ev : ServerEvent) : Prop :=
  match ev with Worked _ _ e | Swept _ e => goodEvent e | _ => True end.

Lemma step_good sv ev sv' : step sv ev sv' -> goodServerEvent ev ->
  match inner ev with Some e => goodEvent e /\ regularEvent e | None => True end.
Proof.
  intros Hst Hg. destruct ev as [tid c call|tid line reply|tid c ev|tid c r reply|tid ev]; simpl in *; try done.
  - destruct Hst as [[tid' line|tid' now|tid' z] Hs]; unfold serve in Hs.
    + destruct (parse_result line) as (res & Hp & Hwf). rewrite Hp in Hs.
      destruct (threads (system sv) !! tid'); [done|]. destruct res as [c'|e]; [|done].
      destruct (callOf c') as [call'|] eqn:Hc; [|done].
      destruct (act _ _) as [[]| |]; simplify_eq. split; [by eapply callOf_good|by eapply callOf_entry].
    + repeat case_match; by simplify_eq.
    + repeat case_match; by simplify_eq.
  - apply step_worker in Hst as (_ & _ & Hi). split; [done|]. by destruct ev.
  - apply step_worker in Hst as [[z ->]|[_ Hi]]; [done|]. split; [done|]. by destruct ev.
Qed.
End Steps.

End Workers.
