(* ===== verification/WorkersClaims.v ===== *)
(** * Theorems about requests executed by several workers at a time *)
From S2P Require Import Prelude.
From S2P Require Import Hash.
From S2P Require Import Protocol.
From S2P Require Import Parser.
From S2P Require Import ParserSpec.
From S2P Require Import Table.
From S2P Require Import TableInv.
From S2P Require Import Store.
From S2P Require Import StoreSpec.
From S2P Require Import Snapshot.
From S2P Require Import SaveLoad.
From S2P Require Import SaveLoadSpec.
From S2P Require Import Executor.
From S2P Require Import ExecutorSpec.
From S2P Require Import Trace.
From S2P Require Import Locking.
From S2P Require Import LockingInv.
From S2P Require Import LockingSpec.
From S2P Require Import LockingRuns.
From S2P Require Import Linearizability.
From S2P Require Import LockingAlone.
From S2P Require Import LockingClaims.
From S2P Require Import Workers.
Import ShardLocks.

#[local] Open Scope Z_scope.

Section Properties.
Context `{Platform}.

Lemma runs_good db start evs sv :
  runs Workers.step (Workers.waiting db start) evs sv -> Forall Workers.goodServerEvent evs ->
  Forall goodEvent (omap Workers.inner evs) /\ Forall regularEvent (omap Workers.inner evs).
Proof.
  intros Hr Hg. remember (Workers.waiting db start) as s0 eqn:E. induction Hr as [s|s evs s1 ev s2 Hr IH Hst].
  - split; constructor.
  - rewrite Forall_app, Forall_singleton in Hg. destruct Hg as [Hg Hev]. rewrite trace_snoc.
    destruct (IH E Hg) as [H1 H2]. pose proof (Workers.step_good _ _ _ Hst Hev) as Hs.
    destruct (Workers.inner ev) as [e|]; simpl; [|by rewrite app_nil_r]. destruct Hs.
    by rewrite !Forall_app, !Forall_singleton.
Qed.

Lemma runs_answered db start evs sv tid line reply m now :
  runs Workers.step (Workers.waiting db start) evs sv -> Workers.Answered tid line reply ∈ evs ->
  answers m now line m reply.
Proof.
  induction 1 as [|s evs s1 ev s2 Hr IH Hst]; [by intros ?%not_elem_of_nil|].
  intros [Hin|<-%list_elem_of_singleton]%elem_of_app; [by apply IH|]. by eapply Workers.step_answered.
Qed.

(** With no memory limit the linearised requests are those of an ideal server. *)
Lemma requests_ideal db m rs start evs sv :
  dbRep db m rs -> Database.maxMemoryBytes_ db = 0 -> deadlinesOk m ->
  Forall Workers.goodServerEvent evs ->
  Z.of_nat (base.size m) + sumZ eventWrites (omap Workers.inner evs) <= maxEntries ->
  runs Workers.step (Workers.waiting db start) evs sv ->
  exists m', Workers.idealServer m start (omap Workers.request evs) m'.
Proof.
  intros HD Hmax Hdl Hg Hroom Hr. destruct (runs_good _ _ _ _ Hr Hg) as [Hge Hre].
  destruct (runs_simulates db m rs start _ _ HD Hdl Hroom Hge Hre (Workers.runs_inner _ _ _ _ Hr))
    as [_ _ _ _ (md & m' & _ & _ & Hl)].
  rewrite Hmax in Hl. exists m'. eapply Workers.legal_ideal; [exact Hl|]. by eapply Workers.runs_requests.
Qed.

Lemma request_defined tid line sv : Workers.serve (Workers.Request tid line) sv <> Undefined.
Proof.
  unfold Workers.serve. destruct (parse_result line) as (res & -> & _).
  repeat case_match; try done. match goal with Ha : act _ _ = Undefined |- _ => simpl in Ha end.
  repeat case_match; done.
Qed.

Lemma progress_defined db m rs start evs sv tid now :
  dbRep db m rs -> deadlinesOk m -> Forall Workers.goodServerEvent evs ->
  Z.of_nat (base.size m) + sumZ eventWrites (omap Workers.inner evs) <= maxEntries ->
  runs Workers.step (Workers.waiting db start) evs sv ->
  clock (Workers.system sv) <= now -> plausible now ->
  Workers.serve (Workers.Progress tid now) sv <> Undefined.
Proof.
  intros HD Hdl Hg Hroom Hr Hcl Hnow. destruct (runs_good _ _ _ _ Hr Hg) as [Hge Hre].
  destruct (goodTrace_served db m rs start _ _ HD Hdl (conj Hge Hroom) (Workers.runs_inner _ _ _ _ Hr)) as [m' HS].
  unfold Workers.serve. destruct (threads (Workers.system sv) !! tid) as [th|] eqn:Ht; [|simpl; by rewrite Ht].
  destruct (run_defined _ _ _ _ _ _ HS Hroom Ht Hcl Hnow) as [(ev & s' & ->)|(-> & _)]; [|done].
  by destruct ev, (Workers.asking sv !! tid).
Qed.

(** Clients of a server with many workers see one ideal server.  Workers execute
    requests at the same time, with the sweeper running, overtaking each other at
    every lock, every critical section and every unlock; there is no memory limit.
    Then no step of a worker is undefined; the single-key requests, in the order their
    critical sections ran, with the instants the clock showed there, are answered
    exactly as an ideal server answers them one after the other; every worker replies
    what its section fixed, between receiving its request and the next; and a line
    that makes no call, malformed ones included, is answered as the ideal server
    answers it. *)
Theorem concurrent_clients db m rs start evs sv :
  dbRep db m rs -> Database.maxMemoryBytes_ db = 0 -> deadlinesOk m ->
  Forall Workers.goodServerEvent evs ->
  Z.of_nat (base.size m) + sumZ eventWrites (omap Workers.inner evs) <= maxEntries ->
  runs Workers.step (Workers.waiting db start) evs sv ->
  (exists m', Workers.idealServer m start (omap Workers.request evs) m') /\
  (forall tid, exists ph, history tid (omap Workers.inner evs) ph) /\
  (forall tid line reply, Workers.Answered tid line reply ∈ evs -> forall m now, answers m now line m reply) /\
  (forall tid line, Workers.serve (Workers.Request tid line) sv <> Undefined) /\
  (forall tid now, clock (Workers.system sv) <= now -> plausible now ->
    Workers.serve (Workers.Progress tid now) sv <> Undefined).
Proof.
  intros HD Hmax Hdl Hg Hroom Hr. split_and!.
  - by eapply requests_ideal.
  - intros tid. destruct (runs_history _ _ _ _ tid (Workers.runs_inner _ _ _ _ Hr)) as (ph & Hh & _). eauto.
  - intros tid line reply Ha m1 now. by eapply runs_answered.
  - intros tid line. apply request_defined.
  - intros tid now Hcl Hnow. by eapply progress_defined.
Qed.

End Properties.

(** ** Witnesses *)

Fixpoint serveAll `{Platform} (inputs : list Workers.Input) (sv : Workers.Server)
    : option (list Workers.ServerEvent * Workers.Server) :=
  match inputs with
  | [] => Some ([], sv)
  | i :: rest =>
      match Workers.serve i sv with
      | Stepped (ev, sv1) => '(evs, sv2) ← serveAll rest sv1; Some (ev :: evs, sv2)
      | _ => None
      end
  end.

Lemma serveAll_runs `{Platform} inputs sv evs sv' :
  serveAll inputs sv = Some (evs, sv') -> runs Workers.step sv evs sv'.
Proof.
  revert sv evs. induction inputs as [|i inputs IH]; intros sv evs Ha; simpl in Ha.
  - simplify_eq. constructor.
  - destruct (Workers.serve i sv) as [[ev sv1]| |] eqn:E; [|done..].
    destruct (serveAll inputs sv1) as [[evs1 sv2]|] eqn:E1; simplify_eq/=.
    eapply runs_cons; [by eexists|]. by apply IH.
Qed.

(** A SET, a GET that waits for it, a pass of the sweeper and a malformed line. *)
Definition busyInputs : list Workers.Input :=
  [Workers.Request 1 (bs "SET a 1"); Workers.Request 2 (bs "GET a"); Workers.Sweep 9 16;
   Workers.Progress 9 1; Workers.Progress 1 1; Workers.Progress 1 2; Workers.Request 3 (bs "nonsense");
   Workers.Progress 1 3; Workers.Progress 2 3; Workers.Progress 2 4; Workers.Progress 1 4;
   Workers.Progress 2 5; Workers.Progress 2 5].
Definition busyRun : list Workers.ServerEvent * Workers.Server :=
  default ([], Workers.waiting freshDb 0) (serveAll (H := lp64) busyInputs (Workers.waiting freshDb 0)).

Definition plainServerEvent (ev : Workers.ServerEvent) : bool :=
  match ev with
  | Workers.Worked _ _ (Applied _ now _ _) => (0 <=? now) && (now <? 2 ^ 62)
  | Workers.Worked _ _ (Silent _) => true
  | Workers.Swept _ (Invoked _ (CallRemoveExpired z)) => 0 <=? z
  | Workers.Swept _ (Silent _) => true
  | Workers.Worked _ _ _ | Workers.Swept _ _ => false
  | _ => true
  end.

Lemma plain_server evs : forallb plainServerEvent evs = true -> Forall Workers.goodServerEvent evs.
Proof.
  intros Hall. rewrite forallb_forall in Hall. apply Forall_forall. intros ev Hev%list_elem_of_In%Hall.
  destruct ev as [| |tid c [| | |]| |tid [tid' c| | |]]; simpl in *; try done.
  - apply andb_prop in Hev as [?%Z.leb_le ?%Z.ltb_lt]. done.
  - destruct c; try done. by apply Z.leb_le in Hev.
Qed.

Lemma concurrent_clients_witness :
  omap Workers.request busyRun.1 =
    [(2, CommandParser.mkCommand CommandParser.Set_ (bs "a") (bs "1") None, bs "+OK");
     (4, CommandParser.mkCommand CommandParser.Get (bs "a") [] None, bs "$1")] /\
  exists m', Workers.idealServer ∅ 0 (omap Workers.request busyRun.1) m'.
Proof.
  split; [vm_compute; reflexivity|]. destruct freshDb_rep as (rs & HD & Hm).
  refine (proj1 (concurrent_clients (H := lp64) freshDb ∅ rs 0 busyRun.1 busyRun.2 HD Hm empty_deadlines _ _ _)).
  - apply plain_server. vm_compute. reflexivity.
  - vm_compute. discriminate.
  - apply (serveAll_runs (H := lp64) busyInputs). vm_compute. reflexivity.
Defined.


