(* ===== verification/Saving.v ===== *)
(** * Saves by several threads

    [SnapshotStore::save] as a SAVE command and the scheduler call it at the same
    time: every system call is a step of its own, and between two steps of one saver
    the others may run.  The mutex of the store lets one saver at a time past the
    first line.  The list of entries a saver works on is what its own call of
    [Database::snapshot] gathered; here it is an input. *)
From S2P Require Import Prelude.
From S2P Require Import Text.
From S2P Require Import Table.
From S2P Require Import Store.
From S2P Require Import Snapshot.
From S2P Require Import SaveLoad.
From S2P Require Import SaveLoadSpec.
From S2P Require Import Trace.
From S2P Require Import Locking.

#[local] Open Scope Z_scope.

Module Saving.

(** ** Definitions *)

(** Where a saver is; from [Collecting] to [Unlocking] it holds the mutex. *)
Inductive Saver :=
| Waiting
| Collecting
| Opening (count : Z) (data : bytes)
| Writing (fd count : Z) (data rest : bytes)
| Flushing (fd count : Z) (data : bytes)
| Closing (fd count : Z) (data : bytes)
| Renaming (count : Z) (data : bytes)
| Abandoning (fd : Z) (error : bytes)
| Unlinking (error : bytes)
| Unlocking (outcome : SnapshotStore.SaveOutcome).

Record State `{FileSystem} := mkState {
  store : SnapshotStore.t;
  owner : option nat;
  savers : gmap nat Saver;
  world : World
}.

Inductive Event :=
| Quiet
| Published (tid : nat) (entries : Z) (data : bytes)
| Saved (tid : nat) (outcome : SnapshotStore.SaveOutcome).

Inductive Input :=
| Begin (tid : nat)
| Advance (tid : nat) (entries : list Entry) (r : Readings).

Definition withSaver `{FileSystem} (tid : nat) (sv : Saver) (st : State) : State :=
  mkState _ (store st) (owner st) (<[tid := sv]> (savers st)) (world st).
Definition withWorld `{FileSystem} (w : World) (st : State) : State :=
  mkState _ (store st) (owner st) (savers st) w.
Definition withOwner `{FileSystem} (o : option nat) (st : State) : State :=
  mkState _ (store st) o (savers st) (world st).
Definition counted `{FileSystem} (st : State) : State :=
  mkState _ (SnapshotStore.mk (SnapshotStore.path_ (store st)) (u64 (SnapshotStore.saveCount_ (store st) + 1)))
    (owner st) (savers st) (world st).

(** The saver after [writeAll] has looked at what is left to write. *)
Definition writing_ (fd count : Z) (data rest : bytes) : Saver :=
  match rest with [] => Flushing fd count data | _ => Writing fd count data rest end.

(** One step of a saver. *)
Definition advance `{FileSystem} `{SystemClock} (tid : nat) (entries : list Entry) (r : Readings)
    (sv : Saver) (st : State) : Outcome (Event * State) :=
  let path := SnapshotStore.path_ (store st) in
  let temp := SnapshotStore.tempPath (store st) in
  match sv with
  | Waiting =>
      match owner st with
      | None => Stepped (Quiet, withSaver tid Collecting (withOwner (Some tid) st))
      | Some t => if decide (t = tid) then Undefined else Blocked
      end
  | Collecting =>
      match snapshot.encode r entries with
      | None => Undefined
      | Some data => Stepped (Quiet, withSaver tid (Opening (len entries) data) st)
      end
  | Opening count data =>
      let '(w, res) := openWrite temp (world st) in
      Stepped (Quiet, withSaver tid
        match res with
        | inl e => Unlocking (SnapshotStore.saveFailed (describeErrno (bs "cannot open") temp e))
        | inr fd => writing_ fd count data data
        end (withWorld w st))
  | Writing fd count data rest =>
      let '(w, res) := write fd rest (world st) in
      Stepped (Quiet, withSaver tid
        match res with
        | inl EINTR => Writing fd count data rest
        | inl e => Abandoning fd (describeErrno (bs "cannot write") temp e)
        | inr n => writing_ fd count data (drop (Z.to_nat n) rest)
        end (withWorld w st))
  | Flushing fd count data =>
      let '(w, res) := fsync fd (world st) in
      Stepped (Quiet, withSaver tid
        match res with
        | Some e => Abandoning fd (describeErrno (bs "cannot flush") temp e)
        | None => Closing fd count data
        end (withWorld w st))
  | Closing fd count data =>
      let '(w, _) := close fd (world st) in
      Stepped (Quiet, withSaver tid (Renaming count data) (withWorld w st))
  | Renaming count data =>
      let '(w, res) := rename temp path (world st) in
      match res with
      | Some e => Stepped (Quiet, withSaver tid (Unlinking (describeErrno (bs "cannot replace") path e)) (withWorld w st))
      | None =>
          Stepped (Published tid count data,
            withSaver tid (Unlocking (SnapshotStore.mkSave true count (len data) [])) (counted (withWorld w st)))
      end
  | Abandoning fd error =>
      let '(w, _) := close fd (world st) in
      Stepped (Quiet, withSaver tid (Unlinking error) (withWorld w st))
  | Unlinking error =>
      let '(w, _) := unlink temp (world st) in
      Stepped (Quiet, withSaver tid (Unlocking (SnapshotStore.saveFailed error)) (withWorld w st))
  | Unlocking outcome =>
      if decide (owner st = Some tid) then
        Stepped (Saved tid outcome, mkState _ (store st) None (delete tid (savers st)) (world st))
      else Undefined
  end.

Definition act `{FileSystem} `{SystemClock} (i : Input) (st : State) : Outcome (Event * State) :=
  match i with
  | Begin tid =>
      match savers st !! tid with
      | Some _ => Blocked
      | None => Stepped (Quiet, withSaver tid Waiting st)
      end
  | Advance tid entries r =>
      match savers st !! tid with
      | Some sv => advance tid entries r sv st
      | None => Blocked
      end
  end.

Definition step `{FileSystem} `{SystemClock} (st : State) (ev : Event) (st' : State) : Prop :=
  exists i, act i st = Stepped (ev, st').

Definition new `{FileSystem} (s : SnapshotStore.t) (w : World) : State := mkState _ s None ∅ w.

(** The data of a save that replaced the snapshot. *)
Definition publishes (ev : Event) : option bytes :=
  match ev with Published _ _ data => Some data | _ => None end.

(** The snapshot file after the saves of a trace. *)
Definition current (old : option bytes) (evs : list Event) : option bytes :=
  match last (omap publishes evs) with Some data => Some data | None => old end.

Definition inside (sv : Saver) : bool := match sv with Waiting => false | _ => true end.

(** The data a saver is about to publish. *)
Definition dataOf (sv : Saver) : option (Z * bytes) :=
  match sv with
  | Opening count data | Writing _ count data _ | Flushing _ count data | Closing _ count data
  | Renaming count data => Some (count, data)
  | _ => None
  end.

(** A whole snapshot of so many entries. *)
Definition encodes `{SystemClock} (count : Z) (data : bytes) : Prop :=
  exists r entries, snapshot.encode r entries = Some data /\ count = len entries.

(** ** Invariant *)

Section Spec.
Context `{FS : FileSystem} `{!PosixView} `{!PosixLaws} `{SystemClock}.

(** What the temporary file holds while a saver is at work. *)
Definition atWork (temp : bytes) (w : World) (sv : Saver) : Prop :=
  match sv with
  | Writing fd _ data rest => rest <> [] /\ writing w fd = Some temp /\
      exists done, data = done ++ rest /\ file w temp = Some done
  | Flushing _ _ data | Closing _ _ data | Renaming _ data => file w temp = Some data
  | _ => True
  end.

Record ok (s0 : SnapshotStore.t) (w0 : World) (evs : list Event) (st : State) : Prop := {
  ok_path : SnapshotStore.path_ (store st) = SnapshotStore.path_ s0;
  ok_count : SnapshotStore.saveCount_ (store st) =
    u64 (SnapshotStore.saveCount_ s0 + len (omap publishes evs));
  ok_owner : forall tid sv, savers st !! tid = Some sv -> inside sv = true <-> owner st = Some tid;
  ok_held : forall tid, owner st = Some tid -> is_Some (savers st !! tid);
  ok_work : forall tid sv, savers st !! tid = Some sv -> atWork (SnapshotStore.tempPath s0) (world st) sv;
  ok_file : file (world st) (SnapshotStore.path_ s0) = current (file w0 (SnapshotStore.path_ s0)) evs;
  ok_others : forall q, q <> SnapshotStore.path_ s0 -> q <> SnapshotStore.tempPath s0 ->
    file (world st) q = file w0 q;
  ok_data : forall tid sv count data, savers st !! tid = Some sv -> dataOf sv = Some (count, data) ->
    encodes count data;
  ok_published : forall tid count data, Published tid count data ∈ evs -> encodes count data
}.

Lemma current_quiet old evs : current old (evs ++ [Quiet]) = current old evs.
Proof. unfold current. by rewrite trace_snoc, app_nil_r. Qed.

Lemma current_published old evs tid n data : current old (evs ++ [Published tid n data]) = Some data.
Proof. unfold current. rewrite trace_snoc. simpl. by rewrite last_snoc. Qed.

Lemma published_snoc evs ev :
  (forall tid count data, Published tid count data ∈ evs -> encodes count data) ->
  (forall tid count data, ev = Published tid count data -> encodes count data) ->
  forall tid count data, Published tid count data ∈ evs ++ [ev] -> encodes count data.
Proof.
  intros Hall Hev tid count data [Hin|Hin%list_elem_of_singleton]%elem_of_app; [by eapply Hall|]. by eapply Hev.
Qed.

Lemma published_quiet evs ev : publishes ev = None -> omap publishes (evs ++ [ev]) = omap publishes evs.
Proof. intros He. by rewrite trace_snoc, He, app_nil_r. Qed.

(** Only the saver that holds the mutex can be inside. *)
Lemma ok_alone s0 w0 evs st tid tid' sv sv' :
  ok s0 w0 evs st -> savers st !! tid = Some sv -> inside sv = true ->
  savers st !! tid' = Some sv' -> inside sv' = true -> tid' = tid.
Proof.
  intros HO Ht Hi Ht' Hi'. apply (ok_owner _ _ _ _ HO _ _ Ht) in Hi. apply (ok_owner _ _ _ _ HO _ _ Ht') in Hi'.
  congruence.
Qed.

(** A system call of the saver inside that does not touch the snapshot. *)
Lemma ok_call s0 w0 evs st tid sv sv' w :
  ok s0 w0 evs st -> savers st !! tid = Some sv -> inside sv = true -> inside sv' = true ->
  sameFilesBut (SnapshotStore.tempPath s0) (world st) w ->
  atWork (SnapshotStore.tempPath s0) w sv' ->
  (forall count data, dataOf sv' = Some (count, data) -> encodes count data) ->
  ok s0 w0 (evs ++ [Quiet]) (withSaver tid sv' (withWorld w st)).
Proof.
  intros HO Ht Hi Hi' Hs Hw Hd. pose proof (tempPath_ne s0) as Hne.
  pose proof HO as [Hp Hc Ho Hh Hwk Hf Hot Hda Hpu].
  split; simpl; try done.
  - by rewrite published_quiet.
  - intros t x. rewrite lookup_insert_Some. intros [[<- <-]|[_ Hx]]; [|by apply Ho].
    rewrite Hi'. split; [|done]. intros _. by eapply Ho.
  - intros t Ht'. rewrite lookup_insert. case_decide; [eauto|by apply Hh].
  - intros t x. rewrite lookup_insert_Some. intros [[<- <-]|[Hnt Hx]]; [done|].
    destruct (inside x) eqn:Hix; [|by destruct x].
    exfalso. apply Hnt. by eapply (ok_alone s0 w0 evs st t tid x sv).
  - rewrite current_quiet, <- Hf. apply Hs. congruence.
  - intros q Hq Hq'. rewrite <- (Hot q) by done. by apply Hs.
  - intros t x c d. rewrite lookup_insert_Some. intros [[<- <-]|[_ Hx]]; [by apply Hd|by eapply Hda].
  - by apply published_snoc.
Qed.

Lemma writing_ok temp w fd count data rest done :
  data = done ++ rest -> file w temp = Some done -> writing w fd = Some temp ->
  atWork temp w (writing_ fd count data rest) /\ inside (writing_ fd count data rest) = true /\
  dataOf (writing_ fd count data rest) = Some (count, data).
Proof.
  intros -> Hf Hw. unfold writing_. destruct rest as [|b rest]; simpl.
  - by rewrite app_nil_r.
  - split_and!; try done. eauto.
Qed.

Lemma sameFiles_temp s0 w w' : sameFiles w w' -> sameFilesBut (SnapshotStore.tempPath s0) w w'.
Proof. intros Hs q _. apply Hs. Qed.

Lemma withWorld_same st : withWorld (world st) st = st.
Proof. by destruct st. Qed.

(** The rename: the snapshot is replaced by the whole of the data. *)
Lemma ok_renamed s0 w0 evs st tid count data w :
  ok s0 w0 evs st -> savers st !! tid = Some (Renaming count data) ->
  file w (SnapshotStore.path_ s0) = Some data ->
  (forall q, q <> SnapshotStore.tempPath s0 -> q <> SnapshotStore.path_ s0 -> file w q = file (world st) q) ->
  ok s0 w0 (evs ++ [Published tid count data])
    (withSaver tid (Unlocking (SnapshotStore.mkSave true count (len data) [])) (counted (withWorld w st))).
Proof.
  intros HO Ht Hf' Hot'. pose proof HO as [Hp Hc Ho Hh Hwk Hf Hot Hda Hpu]. split; simpl; try done.
  - rewrite Hc, trace_snoc, len_app, u64_idemp_add_l. simpl. change (len [data]) with 1. f_equal. lia.
  - intros t x. rewrite lookup_insert_Some. intros [[<- <-]|[_ Hx]]; [|by apply Ho].
    split; [|done]. intros _. by eapply Ho.
  - intros t Ht'. rewrite lookup_insert. case_decide; [eauto|by apply Hh].
  - intros t x. rewrite lookup_insert_Some. intros [[<- <-]|[Hnt Hx]]; [done|].
    destruct (inside x) eqn:Hix; [|by destruct x].
    exfalso. apply Hnt. by eapply (ok_alone s0 w0 evs st t tid x (Renaming count data)).
  - by rewrite current_published.
  - intros q Hq Hq'. rewrite <- (Hot q) by done. by apply Hot'.
  - intros t x c d. rewrite lookup_insert_Some. intros [[<- <-]|[_ Hx]]; [done|by eapply Hda].
  - apply published_snoc; [done|]. intros ? ? ? [= <- <- <-]. by eapply Hda.
Qed.

(** Taking the mutex, releasing it, and starting a save. *)
Lemma ok_locked s0 w0 evs st tid :
  ok s0 w0 evs st -> savers st !! tid = Some Waiting -> owner st = None ->
  ok s0 w0 (evs ++ [Quiet]) (withSaver tid Collecting (withOwner (Some tid) st)).
Proof.
  intros [Hp Hc Ho Hh Hwk Hf Hot Hda Hpu] Ht Hno. split; simpl; try done.
  - by rewrite published_quiet.
  - intros t x. rewrite lookup_insert_Some. intros [[<- <-]|[Hnt Hx]]; [done|].
    rewrite (Ho _ _ Hx), Hno. split; congruence.
  - intros t [= <-]. rewrite lookup_insert_eq. eauto.
  - intros t x. rewrite lookup_insert_Some. intros [[<- <-]|[Hnt Hx]]; [done|]. by eapply Hwk.
  - by rewrite current_quiet.
  - intros t x c d. rewrite lookup_insert_Some. intros [[<- <-]|[_ Hx]]; [done|by eapply Hda].
  - by apply published_snoc.
Qed.

Lemma ok_unlocked s0 w0 evs st tid o :
  ok s0 w0 evs st -> savers st !! tid = Some (Unlocking o) ->
  ok s0 w0 (evs ++ [Saved tid o]) (mkState _ (store st) None (delete tid (savers st)) (world st)).
Proof.
  intros HO Ht. pose proof HO as [Hp Hc Ho Hh Hwk Hf Hot Hda Hpu].
  assert (current (file w0 (SnapshotStore.path_ s0)) (evs ++ [Saved tid o]) =
    current (file w0 (SnapshotStore.path_ s0)) evs) as Hcur by (unfold current; by rewrite published_quiet).
  split; simpl; try done.
  - by rewrite published_quiet.
  - intros t x [Hnt Hx]%lookup_delete_Some. split; [|done]. intros Hix. exfalso. apply Hnt.
    symmetry. by eapply (ok_alone s0 w0 evs st tid t (Unlocking o) x).
  - intros t x [_ Hx]%lookup_delete_Some. by eapply Hwk.
  - by rewrite Hcur.
  - intros t x c d [_ Hx]%lookup_delete_Some. by eapply Hda.
  - by apply published_snoc.
Qed.

Lemma ok_begun s0 w0 evs st tid :
  ok s0 w0 evs st -> savers st !! tid = None -> ok s0 w0 (evs ++ [Quiet]) (withSaver tid Waiting st).
Proof.
  intros [Hp Hc Ho Hh Hwk Hf Hot Hda Hpu] Ht. split; simpl; try done.
  - by rewrite published_quiet.
  - intros t x. rewrite lookup_insert_Some. intros [[<- <-]|[_ Hx]]; [|by apply Ho].
    split; [done|]. intros [x Hx]%Hh. congruence.
  - intros t Ht'. rewrite lookup_insert. case_decide; [eauto|by apply Hh].
  - intros t x. rewrite lookup_insert_Some. intros [[<- <-]|[_ Hx]]; [done|]. by eapply Hwk.
  - by rewrite current_quiet.
  - intros t x c d. rewrite lookup_insert_Some. intros [[<- <-]|[_ Hx]]; [done|by eapply Hda].
  - by apply published_snoc.
Qed.

(** Every step of a saver keeps the invariant. *)
Lemma advance_ok s0 w0 evs st tid entries r sv ev st' :
  ok s0 w0 evs st -> savers st !! tid = Some sv -> advance tid entries r sv st = Stepped (ev, st') ->
  ok s0 w0 (evs ++ [ev]) st'.
Proof.
  intros HO Ht Ha. pose proof (ok_work _ _ _ _ HO _ _ Ht) as Hw. pose proof (tempPath_ne s0) as Hne.
  assert (SnapshotStore.tempPath (store st) = SnapshotStore.tempPath s0) as Etemp
    by (unfold SnapshotStore.tempPath; by rewrite (ok_path _ _ _ _ HO)).
  pose proof (fun count data => ok_data _ _ _ _ HO tid sv count data Ht) as Hd.
  destruct sv as [| |count data|fd count data rest|fd count data|fd count data|count data|fd error|error|o];
    simpl in Ha, Hd; rewrite ?Etemp, ?(ok_path _ _ _ _ HO) in Ha.
  - destruct (owner st) eqn:Eo; [by case_decide|]. simplify_eq. by apply ok_locked.
  - destruct (snapshot.encode r entries) as [data|] eqn:He; simplify_eq. rewrite <- (withWorld_same st).
    eapply ok_call; try done. intros c d [= <- <-]. by exists r, entries.
  - destruct (openWrite _ (world st)) as [w res] eqn:Ec. simplify_eq.
    apply openWrite_law in Ec as [_ Hres]. destruct res as [e|fd].
    + eapply ok_call; try done. by apply sameFiles_temp.
    + destruct Hres as (Hs & Hf & Hwr).
      destruct (writing_ok _ _ _ count data data [] eq_refl Hf Hwr) as (? & ? & Ed).
      eapply ok_call; try done. by rewrite Ed.
  - destruct Hw as (Hne' & Hwr & sofar & -> & Hf).
    destruct (write fd rest (world st)) as [w res] eqn:Ec. simplify_eq.
    destruct (write_law _ _ _ _ _ _ _ Ec Hwr Hf Hne') as (Hs & Hwr' & _ & Hres). destruct res as [e|n].
    + destruct Hres as [Hf' _]. destruct e; eapply ok_call; try done. simpl. eauto 10.
    + destruct Hres as [Hn Hf'].
      destruct (writing_ok _ _ _ count (sofar ++ rest) (drop (Z.to_nat n) rest) _
        ltac:(by rewrite <- app_assoc, take_drop) Hf' Hwr') as (? & ? & Ed).
      eapply ok_call; try done. by rewrite Ed.
  - destruct (fsync fd (world st)) as [w res] eqn:Ec. simplify_eq. apply fsync_law in Ec.
    destruct res; [eapply ok_call; try done; by apply sameFiles_temp|].
    eapply ok_call; try done; [by apply sameFiles_temp|]. simpl. by rewrite (Ec _).
  - destruct (close fd (world st)) as [w res] eqn:Ec. simplify_eq. apply close_law in Ec.
    eapply ok_call; try done; [by apply sameFiles_temp|]. simpl. by rewrite (Ec _).
  - destruct (rename _ _ (world st)) as [w res] eqn:Ec. pose proof (rename_law _ _ _ _ _ Ec Hne) as Hres.
    destruct res; simplify_eq.
    + eapply ok_call; try done. by apply sameFiles_temp.
    + destruct Hres as [Hf Hot]. apply ok_renamed; try done. by rewrite Hf.
  - destruct (close fd (world st)) as [w res] eqn:Ec. simplify_eq. apply close_law in Ec.
    eapply ok_call; try done. by apply sameFiles_temp.
  - destruct (unlink _ (world st)) as [w res] eqn:Ec. simplify_eq. apply unlink_law in Ec.
    by eapply ok_call.
  - case_decide; simplify_eq. by apply ok_unlocked.
Qed.

Lemma runs_ok s0 w0 evs st :
  SnapshotStore.saveCount_ s0 = 0 -> Trace.runs step (new s0 w0) evs st -> ok s0 w0 evs st.
Proof.
  intros Hzero Hr. remember (new s0 w0) as st0 eqn:E. induction Hr as [st|st evs st1 ev st2 Hr IH Hst].
  - subst. split; simpl; try done; [by rewrite Hzero|by intros ? ? ? ?%not_elem_of_nil].
  - specialize (IH E). destruct Hst as [[tid|tid entries r] Ha]; simpl in Ha;
      destruct (savers st1 !! tid) as [sv|] eqn:Ht; try done; simplify_eq.
    + by apply ok_begun.
    + by eapply advance_ok.
Qed.

(** A saver at a point inside moves whatever the others do; a waiting one moves once
    the mutex is free. *)
Lemma saver_moves s0 w0 evs st tid sv entries r :
  ok s0 w0 evs st -> savers st !! tid = Some sv -> is_Some (snapshot.encode r entries) ->
  (exists ev st', act (Advance tid entries r) st = Stepped (ev, st')) \/
  (act (Advance tid entries r) st = Blocked /\ sv = Waiting /\ exists t, owner st = Some t /\ t <> tid).
Proof.
  intros HO Ht [d He]. simpl. rewrite Ht.
  destruct sv as [| |count data|fd count data rest|fd count data|fd count data|count data|fd error|error|o]; simpl.
  - destruct (owner st) as [t|] eqn:Eo; [|eauto]. case_decide as Hd; [|eauto 10]. subst t.
    by apply (ok_owner _ _ _ _ HO _ _ Ht) in Eo.
  - rewrite He. eauto.
  - destruct (openWrite _ _). eauto.
  - destruct (write _ _ _). eauto.
  - destruct (fsync _ _). eauto.
  - destruct (close _ _). eauto.
  - destruct (rename _ _ _) as [w [e|]]; eauto.
  - destruct (close _ _). eauto.
  - destruct (unlink _ _). eauto.
  - rewrite decide_True; [eauto|]. by eapply (ok_owner _ _ _ _ HO _ _ Ht).
Qed.
End Spec.

(** ** A saver that nobody overtakes *)

Section Alone.
Context `{FileSystem} `{SystemClock} (st : State) (tid : nat).

Definition at_ (sv : Saver) (w : World) : State := withSaver tid sv (withWorld w st).

(** The saver comes back with [o], leaving this store and world behind. *)
Definition finishes (p : State) (res : SnapshotStore.t * SnapshotStore.SaveOutcome) (w : World) : Prop :=
  exists evs, Trace.runs step p (evs ++ [Saved tid res.2]) (mkState _ res.1 None (delete tid (savers st)) w).

Lemma finishes_step sv w entries r ev p res w' :
  advance tid entries r sv (at_ sv w) = Stepped (ev, p) -> finishes p res w' -> finishes (at_ sv w) res w'.
Proof.
  intros Ha [evs Hr]. exists (ev :: evs). simpl. eapply runs_cons; [|exact Hr].
  exists (Advance tid entries r). unfold act. simpl. by rewrite lookup_insert_eq.
Qed.

Lemma at_again sv w sv' w' : withSaver tid sv' (withWorld w' (at_ sv w)) = at_ sv' w'.
Proof. unfold at_, withSaver, withWorld. simpl. by rewrite insert_insert_eq. Qed.

Definition noReadings : Readings := mkReadings 0 (fun _ => 0) (fun _ => 0).

Lemma finishes_at sv w ev sv' w1 res w' :
  advance tid [] noReadings sv (at_ sv w) = Stepped (ev, withSaver tid sv' (withWorld w1 (at_ sv w))) ->
  finishes (at_ sv' w1) res w' -> finishes (at_ sv w) res w'.
Proof. intros Ha Hf. eapply finishes_step; [exact Ha|]. by rewrite at_again. Qed.

Lemma finishes_writing fuel fd count data rest w out w1 t res w' :
  writeAll fuel fd rest w = Some (out, w1, t) ->
  finishes (at_ match out with
       | None => Flushing fd count data
       | Some e => Abandoning fd (describeErrno (bs "cannot write") (SnapshotStore.tempPath (store st)) e)
       end w1) res w' ->
  finishes (at_ (writing_ fd count data rest) w) res w'.
Proof.
  intros Hw Hq. revert rest w t Hw. induction fuel as [|fuel IH]; intros rest w t Hw;
    (destruct rest as [|b rest]; simpl in Hw; [unfold mret, IO_ret in Hw; by simplify_eq|]); [done|].
  unfold mbind, IO_bind, call in Hw. destruct (write fd (b :: rest) w) as [w2 x] eqn:Ec.
  assert (forall rest1 t1, match writeAll fuel fd rest1 w2 with
      | Some (y, w3, t2) => Some (y, w3, [w2] ++ t2) | None => None end = Some (out, w1, t1) ->
    finishes (at_ (writing_ fd count data rest1) w2) res w') as Hrest.
  { intros rest1 t1 E. destruct (writeAll fuel fd rest1 w2) as [[[? ?] ?]|] eqn:Er; simplify_eq. by eapply IH. }
  eapply finishes_at; [simpl; rewrite Ec; reflexivity|].
  destruct x as [[| |c]|n].
  - by apply (Hrest (b :: rest) t).
  - unfold mret, IO_ret in Hw. by simplify_eq.
  - unfold mret, IO_ret in Hw. by simplify_eq.
  - by eapply Hrest.
Qed.

Context (mine : owner st = Some tid).

Lemma finishes_unlocking o s w :
  finishes (mkState _ s (owner st) (<[tid := Unlocking o]> (savers st)) w) (s, o) w.
Proof.
  exists []. econstructor; [constructor|]. exists (Advance tid [] noReadings). simpl.
  rewrite lookup_insert_eq. simpl. rewrite decide_True by done. by rewrite delete_insert_eq.
Qed.

Lemma finishes_unlinking error w w1 res :
  unlink (SnapshotStore.tempPath (store st)) w = (w1, res) ->
  finishes (at_ (Unlinking error) w) (store st, SnapshotStore.saveFailed error) w1.
Proof. intros Hu. eapply finishes_at; [simpl; rewrite Hu; reflexivity|]. apply finishes_unlocking. Qed.

Lemma finishes_abandoning fd error w w1 w2 res1 res2 :
  close fd w = (w1, res1) -> unlink (SnapshotStore.tempPath (store st)) w1 = (w2, res2) ->
  finishes (at_ (Abandoning fd error) w) (store st, SnapshotStore.saveFailed error) w2.
Proof.
  intros Hc Hu. eapply finishes_at; [simpl; rewrite Hc; reflexivity|]. by eapply finishes_unlinking.
Qed.

(** Interleaved with nobody, the steps of a saver that holds the mutex are [save]. *)
Lemma save_steps fuel db clock r entries w res w' t :
  Database.snapshot db clock = Some entries ->
  SnapshotStore.save fuel (store st) db clock r w = Some (res, w', t) ->
  finishes (at_ Collecting w) res w'.
Proof.
  intros Hs Hr. unfold SnapshotStore.save, mbind, IO_bind, lift, call, mret, IO_ret in Hr. rewrite Hs in Hr.
  destruct (snapshot.encode r entries) as [data|] eqn:Ee; [|done].
  eapply finishes_step; [simpl; rewrite Ee; reflexivity|].
  replace (withSaver _ _ _) with (at_ (Opening (len entries) data) w) by (symmetry; apply at_again).
  destruct (openWrite (SnapshotStore.tempPath (store st)) w) as [w1 [e|fd]] eqn:Eo;
    (eapply finishes_at; [simpl; rewrite Eo; reflexivity|]); [simplify_eq; apply finishes_unlocking|].
  destruct (writeAll fuel fd data w1) as [[[out w2] t2]|] eqn:Ew; [|done].
  eapply finishes_writing; [exact Ew|]. destruct out as [e|].
  { destruct (close fd w2) as [w3 c] eqn:Ec. destruct (unlink _ w3) as [w4 u] eqn:Eu. simplify_eq.
    by eapply finishes_abandoning. }
  destruct (fsync fd w2) as [w3 [e|]] eqn:Ef; (eapply finishes_at; [simpl; rewrite Ef; reflexivity|]).
  { destruct (close fd w3) as [w4 c] eqn:Ec. destruct (unlink _ w4) as [w5 u] eqn:Eu. simplify_eq.
    by eapply finishes_abandoning. }
  destruct (close fd w3) as [w4 c] eqn:Ec. eapply finishes_at; [simpl; rewrite Ec; reflexivity|].
  destruct (rename _ _ w4) as [w5 [e|]] eqn:En.
  - destruct (unlink _ w5) as [w6 u] eqn:Eu. simplify_eq.
    eapply finishes_at; [simpl; rewrite En; reflexivity|]. by eapply finishes_unlinking.
  - simplify_eq. eapply (finishes_step _ _ [] noReadings); [simpl; rewrite En; reflexivity|].
    unfold counted, withSaver, withWorld. simpl. rewrite insert_insert_eq. apply finishes_unlocking.
Qed.
End Alone.

End Saving.
