(* ===== verification/SavingClaims.v ===== *)
(** * Theorems about concurrent saves *)
From S2P Require Import Prelude.
From S2P Require Import Table.
From S2P Require Import Snapshot.
From S2P Require Import SnapshotSpec.
From S2P Require Import SaveLoad.
From S2P Require Import SaveLoadSpec.
From S2P Require Import SnapshotClaims.
From S2P Require Import Trace.
From S2P Require Import Locking.
From S2P Require Import Saving.
Import Saving.

#[local] Open Scope Z_scope.

(** C23: saves do not clobber each other.  Threads call [save] at the same time and
    their system calls interleave in any way, with short writes, interruptions and
    failures.  At every instant at most one of them is past the mutex; the snapshot
    file holds what it held at first or the whole encoding of the entries of the save
    that replaced it last, never a mixture; [saveCount] counts those saves; no other
    file but the temporary one is touched; and while a save is in progress some thread
    can move. *)
Theorem saves_serialised `{FS : FileSystem} `{!PosixView} `{!PosixLaws} `{SC : SystemClock} path w evs st :
  Trace.runs step (new (SnapshotStore.new path) w) evs st ->
  (forall t1 t2 sv1 sv2, savers st !! t1 = Some sv1 -> inside sv1 = true ->
    savers st !! t2 = Some sv2 -> inside sv2 = true -> t1 = t2) /\
  file (world st) path = current (file w path) evs /\
  (forall tid count data, Published tid count data ∈ evs -> encodes count data) /\
  SnapshotStore.saveCount (store st) = u64 (len (omap publishes evs)) /\
  (forall q, q <> path -> q <> SnapshotStore.tempPath (SnapshotStore.new path) -> file (world st) q = file w q) /\
  (forall entries r, savers st <> ∅ -> is_Some (snapshot.encode r entries) ->
    exists tid ev st', act (Advance tid entries r) st = Stepped (ev, st')).
Proof.
  intros HO%runs_ok; [|done]. split_and!.
  - intros t1 t2 sv1 sv2 Ht1 Hi1 Ht2 Hi2. by eapply (ok_alone _ _ _ _ t2 t1 sv2 sv1).
  - apply (ok_file _ _ _ _ HO).
  - apply (ok_published _ _ _ _ HO).
  - apply (ok_count _ _ _ _ HO).
  - apply (ok_others _ _ _ _ HO).
  - intros entries r (tid & sv & Ht)%map_choose He.
    destruct (saver_moves _ _ _ _ tid sv entries r HO Ht He) as [(ev & st' & Hm)|(_ & _ & t & Ho & Hne)]; [eauto|].
    destruct (ok_held _ _ _ _ HO t Ho) as [sv' Ht'].
    destruct (saver_moves _ _ _ _ t sv' entries r HO Ht' He) as [(ev & st' & Hm)|(_ & _ & t' & Ho' & Hne')]; [eauto|].
    congruence.
Qed.

(** ** Witness *)

Fixpoint saveAll `{FileSystem} `{SystemClock} (inputs : list Input) (st : State) : option (list Event * State) :=
  match inputs with
  | [] => Some ([], st)
  | i :: rest =>
      match act i st with
      | Stepped (ev, st1) => '(evs, st2) ← saveAll rest st1; Some (ev :: evs, st2)
      | _ => None
      end
  end.

Lemma saveAll_runs `{FileSystem} `{SystemClock} inputs st evs st' :
  saveAll inputs st = Some (evs, st') -> Trace.runs step st evs st'.
Proof.
  revert st evs. induction inputs as [|i inputs IH]; intros st evs Ha; simpl in Ha.
  - simplify_eq. constructor.
  - destruct (act i st) as [[ev st1]| |] eqn:E; [|done..].
    destruct (saveAll inputs st1) as [[evs1 st2]|] eqn:E1; simplify_eq/=.
    eapply runs_cons; [by eexists|]. by apply IH.
Qed.

(** A SAVE of one key has begun to write when the scheduler asks to save. *)
Definition twoSaves : list Input :=
  Begin 1 :: replicate 5 (Advance 1 [mkEntry (bs "a") (bs "1") None] (readingsAt 10)) ++
  Begin 2 :: replicate 15 (Advance 1 [] (readingsAt 10)) ++ replicate 3 (Advance 2 [] (readingsAt 20)).
Definition slowWorld : MemWorld := mkMem {[ bs "dump.vcs" := bs "old" ]} ∅ 3 3 2 false.
Definition savesStart : State (H := memory) := new (SnapshotStore.new (bs "dump.vcs")) slowWorld.
Definition savesRun : list Event * State (H := memory) :=
  default ([], savesStart) (saveAll (H := memory) (H0 := libstdcxx) twoSaves savesStart).

Lemma savesRun_runs : Trace.runs (step (H := memory) (H0 := libstdcxx)) savesStart savesRun.1 savesRun.2.
Proof.
  assert (match saveAll (H := memory) (H0 := libstdcxx) twoSaves savesStart with
    Some _ => true | None => false end = true) as Hok by (vm_compute; reflexivity).
  unfold savesRun. destruct (saveAll twoSaves savesStart) as [[evs st]|] eqn:E; [|done].
  by apply saveAll_runs in E.
Qed.

Lemma saves_witness : exists data,
  snapshot.encode (H := libstdcxx) (readingsAt 10) [mkEntry (bs "a") (bs "1") None] = Some data /\
  file (world savesRun.2) (bs "dump.vcs") = Some data.
Proof.
  destruct (saves_serialised (FS := memory) (SC := libstdcxx) (bs "dump.vcs") slowWorld savesRun.1 savesRun.2
    savesRun_runs) as (_ & Hf & _).
  eexists. split; [vm_compute; reflexivity|]. rewrite Hf. vm_compute. reflexivity.
Defined.
