(* ===== verification/Connections.v ===== *)
(** * All connections of the server at once

    [Server::handleConnection] as the workers run it side by side: every connection
    has a worker, the workers share the database, and between two steps of one worker
    the others may run.  A step is a call of [recv] or [send], the search for a newline
    that ends in a request or in the check of the request limit, or a step of
    [CommandExecutor::execute] as [Workers.v] has it.  [Connection.v] is the same
    function run by itself.  Snapshots are not configured here, as in [Workers.v]. *)
From S2P Require Import Prelude.
From S2P Require Import Text.
From S2P Require Import Protocol.
From S2P Require Import Parser.
From S2P Require Import Table.
From S2P Require Import Store.
From S2P Require Import Connection.
From S2P Require Import Locking.
From S2P Require Import Linearizability.
From S2P Require Import Workers.
Import ShardLocks.

#[local] Open Scope Z_scope.

Module Connections.

(** Where the worker of a connection is. *)
Inductive Stage :=
| Receiving (** at [recv] *)
| Scanning (** looking for a newline in [pending] *)
| Executing (** inside [execute] *)
| Replying (rest : bytes) (** sending a reply, with so much left *)
| Refusing (rest : bytes) (** sending the error about the request limit *)
| Gone. (** returned *)

Record Conn := mkConn { stage : Stage; pending : bytes }.

(** The database with the workers that execute requests, and the connections, each
    under the number of the thread that serves it. *)
Record Net := mkNet { workers : Workers.Server; conns : gmap nat Conn }.

Inductive Input :=
| Connect (tid : nat)
| Receive (tid : nat) (i : Server.Incoming)
| Scan (tid : nat)
| Work (tid : nat) (now : time_point)
| Transmit (tid : nat) (r : Server.SendResult)
| Sweep (tid : nat) (maxBuckets : Z).

Inductive NetEvent :=
| Opened (tid : nat)
| Arrived (tid : nat) (data : bytes)
| Requested (tid : nat) (line : bytes) (ev : Workers.ServerEvent)
| Inside (ev : Workers.ServerEvent)
| Delivered (tid : nat) (data : bytes)
| Ended (tid : nat)
| Quiet (tid : nat).

Definition setConn (tid : nat) (st : Stage) (p : bytes) (net : Net) : Net :=
  mkNet (workers net) (<[tid := mkConn st p]> (conns net)).
Definition withWorkers (w : Workers.Server) (net : Net) : Net := mkNet w (conns net).

(** [sendLine] puts the newline into the buffer it sends. *)
Definition withNewline (line : bytes) : bytes := line ++ [chLF].

Definition tooLarge : bytes := withNewline (protocol.error (bs "ERR request too large")).

(** One round of [recv]. *)
Definition receive (tid : nat) (p : bytes) (i : Server.Incoming) (net : Net) : NetEvent * Net :=
  match i with
  | Server.NotRunning | Server.Broken | Server.Disconnect => (Ended tid, setConn tid Gone p net)
  | Server.Interrupted => (Quiet tid, net)
  | Server.Chunk data => (Arrived tid data, setConn tid Scanning (p ++ data) net)
  end.

(** One round of the inner loop, up to the call of [execute], or the check behind it. *)
Definition scan `{Platform} (maxRequestBytes : Z) (tid : nat) (p : bytes) (net : Net) : Outcome (NetEvent * Net) :=
  match findByte chLF p with
  | None =>
      Stepped (Quiet tid,
        setConn tid (if maxRequestBytes <? len p then Refusing tooLarge else Receiving) p net)
  | Some newline =>
      let line := take newline p in
      let p := drop (S newline) p in
      match Workers.serve (Workers.Request tid line) (workers net) with
      | Stepped (ev, w) =>
          let st := match ev with
            | Workers.Answered _ _ None => Scanning
            | Workers.Answered _ _ (Some reply) => Replying (withNewline reply)
            | _ => Executing
            end in
          Stepped (Requested tid line ev, setConn tid st p (withWorkers w net))
      | Blocked => Blocked
      | Undefined => Undefined
      end
  end.

(** One step inside [execute], or of the sweeper. *)
Definition work `{Platform} (tid : nat) (now : time_point) (net : Net) : Outcome (NetEvent * Net) :=
  match Workers.serve (Workers.Progress tid now) (workers net) with
  | Stepped (ev, w) =>
      let net := withWorkers w net in
      Stepped (Inside ev,
        match ev, conns net !! tid with
        | Workers.Replied _ _ _ reply, Some c => setConn tid (Replying (withNewline reply)) (pending c) net
        | _, _ => net
        end)
  | Blocked => Blocked
  | Undefined => Undefined
  end.

(** One call of [send]: [unsent] is what is left of the line, [again] the stage with
    less of it left and [after] the stage behind [sendLine]. *)
Definition transmit (tid : nat) (p unsent : bytes) (again : bytes -> Stage) (after : Stage)
    (r : Server.SendResult) (net : Net) : NetEvent * Net :=
  match r with
  | Server.SendInterrupted => (Quiet tid, net)
  | Server.SendFailed => (Ended tid, setConn tid Gone p net)
  | Server.Sent n =>
      (Delivered tid (take n unsent),
       setConn tid match drop n unsent with [] => after | unsent => again unsent end p net)
  end.

Definition advance `{Platform} (maxRequestBytes : Z) (i : Input) (net : Net) : Outcome (NetEvent * Net) :=
  match i with
  | Connect tid =>
      match conns net !! tid, threads (Workers.system (workers net)) !! tid with
      | None, None => Stepped (Opened tid, setConn tid Receiving [] net)
      | _, _ => Blocked
      end
  | Receive tid i =>
      match conns net !! tid with
      | Some (mkConn Receiving p) => Stepped (receive tid p i net)
      | _ => Blocked
      end
  | Scan tid =>
      match conns net !! tid with
      | Some (mkConn Scanning p) => scan maxRequestBytes tid p net
      | _ => Blocked
      end
  | Work tid now =>
      match conns net !! tid with
      | Some (mkConn Executing _) | None => work tid now net
      | _ => Blocked
      end
  | Transmit tid r =>
      match conns net !! tid with
      | Some (mkConn (Replying rest) p) => Stepped (transmit tid p rest Replying Scanning r net)
      | Some (mkConn (Refusing rest) p) => Stepped (transmit tid p rest Refusing Gone r net)
      | _ => Blocked
      end
  | Sweep tid maxBuckets =>
      match conns net !! tid, Workers.serve (Workers.Sweep tid maxBuckets) (workers net) with
      | None, Stepped (ev, w) => Stepped (Inside ev, withWorkers w net)
      | _, Undefined => Undefined
      | _, _ => Blocked
      end
  end.

Definition step `{Platform} (maxRequestBytes : Z) (net : Net) (ev : NetEvent) (net' : Net) : Prop :=
  exists i, advance maxRequestBytes i net = Stepped (ev, net').

(** A server nobody has connected to. *)
Definition listening (db : Database.t) (now : time_point) : Net := mkNet (Workers.waiting db now) ∅.

(** ** What a trace says *)

(** What happened among the workers. *)
Definition within (ev : NetEvent) : option Workers.ServerEvent :=
  match ev with Requested _ _ e | Inside e => Some e | _ => None end.

(** The bytes that came over a connection and those that went out, the lines that were
    handed to the executor, and the replies it gave. *)
Definition arrived (tid : nat) (ev : NetEvent) : option bytes :=
  match ev with Arrived t data => if decide (t = tid) then Some data else None | _ => None end.
Definition delivered (tid : nat) (ev : NetEvent) : option bytes :=
  match ev with Delivered t data => if decide (t = tid) then Some data else None | _ => None end.
Definition requested (tid : nat) (ev : NetEvent) : option bytes :=
  match ev with Requested t line _ => if decide (t = tid) then Some line else None | _ => None end.
Definition replied (tid : nat) (ev : NetEvent) : option (option bytes) :=
  match ev with
  | Requested t _ (Workers.Answered _ _ reply) => if decide (t = tid) then Some reply else None
  | Inside (Workers.Replied t _ _ reply) => if decide (t = tid) then Some (Some reply) else None
  | _ => None
  end.

(** The single-key requests in the order their critical sections ran, with the threads
    that ran them. *)
Definition linearised (ev : NetEvent) : option (nat * (time_point * CommandParser.Command * bytes)) :=
  match within ev with
  | Some (Workers.Worked t c e) => q ← Workers.request (Workers.Worked t c e); Some (t, q)
  | _ => None
  end.

(** Those of one connection. *)
Definition shareOf (tid : nat) (q : nat * (time_point * CommandParser.Command * bytes))
    : option (CommandParser.Command * bytes) :=
  if decide (q.1 = tid) then Some (q.2.1.2, q.2.2) else None.

(** Does a line make a call of the database? *)
Definition makesCall (line : bytes) : bool :=
  match CommandParser.parse line with
  | Some (CommandParser.success c) => match Workers.callOf c with Some _ => true | None => false end
  | _ => false
  end.

(** The command of a line that goes to a single key, with the reply the line got. *)
Definition keyed (c : CommandParser.Command) : bool :=
  match Workers.callOf c with Some call => single call | None => false end.
Definition exchange (q : bytes * option bytes) : option (CommandParser.Command * bytes) :=
  match CommandParser.parse q.1, q.2 with
  | Some (CommandParser.success c), Some reply => if keyed c then Some (c, reply) else None
  | _, _ => None
  end.

End Connections.
