(* ===== verification/ConnectionsSpec.v ===== *)
(** * Lemmas about the connections of the server

    First the workers: which replies a worker has given compared with the order in
    which critical sections ran.  Then the streams of one connection, as an invariant
    of every run. *)
From S2P Require Import Prelude.
From S2P Require Import Text.
From S2P Require Import Protocol.
From S2P Require Import Parser.
From S2P Require Import ParserSpec.
From S2P Require Import Table.
From S2P Require Import Store.
From S2P Require Import Snapshot.
From S2P Require Import SaveLoad.
From S2P Require Import Executor.
From S2P Require Import ExecutorSpec.
From S2P Require Import Connection.
From S2P Require Import Trace.
From S2P Require Import Locking.
From S2P Require Import LockingInv.
From S2P Require Import LockingSpec.
From S2P Require Import LockingRuns.
From S2P Require Import Linearizability.
From S2P Require Import Workers.
From S2P Require Import Connections.
Import ShardLocks.
Import Connections.

#[local] Open Scope Z_scope.

(** ** Replies and critical sections *)

(** A critical section of a worker fixes the reply to a single-key command. *)
Definition effected (tid : nat) (ev : Workers.ServerEvent) : option (CommandParser.Command * bytes) :=
  match ev with
  | Workers.Worked t c e =>
      if decide (t = tid) then '(_, _, r) ← operation e; Some (c, Workers.replyOf r) else None
  | _ => None
  end.

(** A worker gives its reply. *)
Definition settled (tid : nat) (ev : Workers.ServerEvent) : option (CommandParser.Command * bytes) :=
  match ev with
  | Workers.Replied t c _ reply => if decide (t = tid /\ keyed c = true) then Some (c, reply) else None
  | _ => None
  end.

(** The result a thread is taking home. *)
Definition answerOf (th : Thread) : option Result :=
  match th with
  | Promoting _ _ value => Some (RValue (Some value))
  | Releasing _ _ a => resultOf a
  | Leaving r => Some r
  | _ => None
  end.

(** The reply that is fixed and not given yet. *)
Definition fixed (tid : nat) (sv : Workers.Server) : option (CommandParser.Command * bytes) :=
  c ← Workers.asking sv !! tid;
  th ← threads (Workers.system sv) !! tid;
  r ← answerOf th;
  if keyed c then Some (c, Workers.replyOf r) else None.

Section Replies.
Context `{Platform}.

Lemma answerOf_worked i mode a : answerOf (worked i mode a) = resultOf a.
Proof. by destruct a. Qed.

Lemma answerOf_resume a : answerOf (resume a) = resultOf a.
Proof. by destruct a. Qed.

(** A step of one thread leaves the others where they are. *)
Lemma serve_other i sv ev sv' tid :
  Workers.serve i sv = Stepped (ev, sv') ->
  tid <> match i with Workers.Request t _ | Workers.Progress t _ | Workers.Sweep t _ => t end ->
  threads (Workers.system sv') !! tid = threads (Workers.system sv) !! tid /\
  Workers.asking sv' !! tid = Workers.asking sv !! tid.
Proof.
  intros Hs Hne. pose proof (Workers.step_inner _ _ _ (ex_intro _ i Hs)) as Hin.
  assert (match Workers.inner ev with Some e => actor e <> tid | None => True end) as Hact.
  { destruct i as [t line|t now|t z]; unfold Workers.serve in Hs; simpl in Hne.
    - repeat case_match; simplify_eq/=; done.
    - destruct (act (Run t now) _) as [[e s]| |] eqn:Ha; [|done..].
      apply Workers.run_actor in Ha as [Ha _].
      destruct (Workers.asking sv !! t), e; simplify_eq; simpl in *; congruence.
    - destruct (act _ _) as [[e s]| |] eqn:Ha; simplify_eq. simpl in Ha.
      repeat case_match; simplify_eq/=; congruence. }
  split.
  - destruct (Workers.inner ev); [|by rewrite Hin]. by eapply moves_thread; [by apply step_moves|].
  - destruct i as [t line|t now|t z]; unfold Workers.serve in Hs; simpl in Hne;
      repeat case_match; simplify_eq; simpl; rewrite ?lookup_insert_ne, ?lookup_delete_ne; done.
Qed.

(** The step of a worker inside a call. *)
Lemma moves_fixed s e s' tid c call :
  moves s e s' -> actor e = tid -> isInvoked e = false -> Workers.callOf c = Some call ->
  (forall th, threads s !! tid = Some th -> Workers.executing call th) ->
  let answer s := th ← threads s !! tid; r ← answerOf th; if single call then Some r else None in
  option_list (answer s) ++ option_list (snd <$> operation e) =
  match e with
  | Returned _ r => if single call then [r] else []
  | _ => option_list (answer s')
  end.
Proof.
  intros Hm Ha Hi Hc He answer. unfold answer.
  destruct Hm as [t c0 Ht|t now c0 i mode mx mx' Ht|t now c0 c' Ht Hcl Hn
    |t now c0 r Ht Hcl Hn|t now i mode c0 db' a Ht Hcl Hbd|t now i key value db' Ht
    |t now i mode a mx mx' Ht|t now r Ht]; [done|..]; simpl in Ha; subst t; specialize (He _ Ht);
    rewrite Ht; simpl; rewrite ?lookup_insert_eq, ?app_nil_r; simpl in *; try done.
  - pose proof (next_single now (database s) c0) as Hs. rewrite Hn in Hs.
    destruct He as [->|[-> _]]; [by rewrite Hs|done].
  - rewrite answerOf_worked. pose proof (body_single _ _ _ _ _ Hbd) as Hs.
    destruct He as [->|[Hs1 Hs2]].
    + destruct (single call); [|by destruct (resultOf a)]. destruct Hs as [r ->]. done.
    + rewrite Hs1, Hs2. by destruct (resultOf a).
  - by rewrite answerOf_resume.
  - by destruct (single call).
Qed.

(** The reply to a command in terms of the result of its call. *)
Definition asReply (c : CommandParser.Command) (r : Result) : CommandParser.Command * bytes := (c, Workers.replyOf r).

Lemma fixed_answer tid sv c call : Workers.asking sv !! tid = Some c -> Workers.callOf c = Some call ->
  fixed tid sv = asReply c <$>
    (th ← threads (Workers.system sv) !! tid; r ← answerOf th; if single call then Some r else None).
Proof.
  intros Ha Hc. unfold fixed, keyed. rewrite Ha. simpl. rewrite Hc.
  destruct (threads _ !! tid) as [th|]; simpl; [|done]. destruct (answerOf th); simpl; [|done].
  by destruct (single call).
Qed.

Lemma option_list_fmap {A B} (f : A -> B) (o : option A) : option_list (f <$> o) = f <$> option_list o.
Proof. by destruct o. Qed.

(** A worker inside its call. *)
Lemma progress_fixed tid now sv ev sv' c :
  Workers.consistent sv -> Workers.asking sv !! tid = Some c ->
  Workers.serve (Workers.Progress tid now) sv = Stepped (ev, sv') ->
  option_list (fixed tid sv) ++ option_list (effected tid ev) =
  option_list (settled tid ev) ++ option_list (fixed tid sv').
Proof.
  intros HC Hask Hs. specialize (HC tid). rewrite Hask in HC. unfold Workers.serve in Hs. rewrite Hask in Hs.
  destruct (threads (Workers.system sv) !! tid) as [th|] eqn:Ht; [|done]. destruct HC as (call & Hc & He).
  destruct (act (Run tid now) (Workers.system sv)) as [[e s]| |] eqn:Hact; [|done..].
  assert (moves (Workers.system sv) e s) as Hm by (apply step_moves; by eexists).
  destruct (Workers.run_actor _ _ _ _ _ Hact) as [Ha Hi].
  pose proof (moves_fixed _ _ _ tid c call Hm Ha Hi Hc) as Hf. rewrite Ht in Hf.
  specialize (Hf ltac:(by intros ? [= <-])). cbn zeta in Hf. apply (f_equal (fmap (asReply c))) in Hf.
  rewrite fmap_app, <- !option_list_fmap in Hf.
  rewrite (fixed_answer tid sv c call Hask Hc).
  destruct e as [|t now' call' a|t r|t]; [done| | |]; simpl in Ha; subst t; simplify_eq; simpl.
  - rewrite <- option_list_fmap in Hf. rewrite decide_True by done.
    rewrite (fixed_answer tid (Workers.mkServer s (Workers.asking sv)) c call Hask Hc). simpl. rewrite <- Hf. f_equal. simpl.
    destruct (single call'), (resultOf a); done.
  - unfold fixed at 1. simpl. rewrite lookup_delete_eq. simpl. rewrite !app_nil_r in *. rewrite Hf.
    unfold keyed. rewrite Hc. destruct (single call); [by rewrite decide_True|]. by rewrite decide_False by (by intros []).
  - rewrite <- option_list_fmap in Hf.
    rewrite (fixed_answer tid (Workers.mkServer s (Workers.asking sv)) c call Hask Hc). simpl. rewrite <- Hf.
    by rewrite decide_True.
Qed.

Lemma step_fixed tid sv ev sv' : Workers.consistent sv -> Workers.step sv ev sv' ->
  option_list (fixed tid sv) ++ option_list (effected tid ev) =
  option_list (settled tid ev) ++ option_list (fixed tid sv').
Proof.
  intros HC [i Hs].
  destruct (decide (tid = match i with Workers.Request t _ | Workers.Progress t _ | Workers.Sweep t _ => t end))
    as [->|Hne].
  2:{ destruct (serve_other _ _ _ _ _ Hs Hne) as [Et Ea]. unfold fixed. rewrite Et, Ea.
      assert (effected tid ev = None /\ settled tid ev = None) as [-> ->]; [|by rewrite app_nil_r].
      destruct i as [t line|t now|t z]; unfold Workers.serve in Hs; repeat case_match; simplify_eq; simpl in *;
        try rewrite decide_False by congruence; try rewrite decide_False by (intros []; congruence); done. }
  destruct i as [t line|t now|t z].
  - unfold Workers.serve in Hs. destruct (threads _ !! t) eqn:Ht; [done|]. unfold fixed. rewrite Ht.
    destruct (CommandParser.parse line) as [[c|e]|]; [|injection Hs as <- <-; rewrite Ht; by destruct (Workers.asking sv !! t)|done].
    destruct (Workers.callOf c) as [call|]; [|injection Hs as <- <-; rewrite Ht; by destruct (Workers.asking sv !! t)].
    destruct (act _ _) as [[e s]| |] eqn:Ha; simplify_eq. simpl in Ha. rewrite Ht in Ha.
    destruct (entryPoint call); simplify_eq/=. rewrite !lookup_insert_eq. by destruct (Workers.asking sv !! t).
  - destruct (Workers.asking sv !! t) as [c|] eqn:Hask; [by eapply progress_fixed|].
    unfold Workers.serve in Hs. rewrite Hask in Hs. unfold fixed.
    destruct (act _ _) as [[e s]| |]; [|done..]. destruct e; simplify_eq; simpl; by rewrite Hask.
  - specialize (HC t). unfold Workers.serve in Hs. destruct (act _ _) as [[e s]| |] eqn:Ha; simplify_eq.
    simpl in Ha. destruct (threads _ !! t) eqn:Ht; [done|]. unfold fixed. simpl.
    by destruct (Workers.asking sv !! t).
Qed.

(** The replies of a worker are those its critical sections fixed, in their order; at
    most one is still to be given. *)
Lemma runs_fixed db start evs sv tid : runs Workers.step (Workers.waiting db start) evs sv ->
  omap (effected tid) evs = omap (settled tid) evs ++ option_list (fixed tid sv).
Proof.
  intros Hr. apply (runs_with Workers.consistent) in Hr;
    [|intros; by eapply Workers.step_consistent|apply Workers.waiting_consistent].
  remember (Workers.waiting db start) as s0 eqn:E. induction Hr as [s|s evs s1 ev s2 Hr IH [Hst HC]].
  - by subst.
  - rewrite !trace_snoc, IH by done. rewrite <- !app_assoc. f_equal. by apply step_fixed.
Qed.
End Replies.

(** ** The streams of a connection *)

Section Streams.
Context `{Platform} (limit : Z).

(** What the events say about one connection. *)
Definition input (tid : nat) (evs : list NetEvent) : bytes := concat (omap (arrived tid) evs).
Definition output (tid : nat) (evs : list NetEvent) : bytes := concat (omap (delivered tid) evs).
Definition lines (tid : nat) (evs : list NetEvent) : list bytes := omap (requested tid) evs.
Definition replies (tid : nat) (evs : list NetEvent) : list (option bytes) := omap (replied tid) evs.

(** What is left to send, and what is sent besides the replies. *)
Definition unsent (st : Stage) : bytes := match st with Replying rest | Refusing rest => rest | _ => [] end.
Definition extra (st : Stage) : bytes := match st with Refusing _ => tooLarge | _ => [] end.

Definition sending (out : bytes) (rs : list (option bytes)) (st : Stage) : Prop :=
  match st with
  | Gone => out `prefix_of` Server.frame (omap id rs) ++ tooLarge
  | _ => out ++ unsent st = Server.frame (omap id rs) ++ extra st
  end.

(** Who is executing what. *)
Definition engaged (tid : nat) (ls : list bytes) (rs : list (option bytes)) (sv : Workers.Server) (st : Stage) : Prop :=
  match st with
  | Executing => exists ls0 line c, ls = ls0 ++ [line] /\ length ls0 = length rs /\ makesCall line = true /\
      CommandParser.parse line = Some (CommandParser.success c) /\ Workers.asking sv !! tid = Some c
  | _ => length ls = length rs /\ Workers.asking sv !! tid = None /\ threads (Workers.system sv) !! tid = None
  end.

(** A line that makes no call of the database, with the reply of the ideal server. *)
Definition plain (q : bytes * option bytes) : Prop :=
  makesCall q.1 = true \/ forall m now, answers m now q.1 m q.2.

Record connOk (tid : nat) (evs : list NetEvent) (sv : Workers.Server) (c : Conn) : Prop := {
  conn_input : exists l r, Server.cut (pending c) = (l, r) /\
    Server.cut (input tid evs) = (lines tid evs ++ l, r) /\ (stage c = Receiving -> l = []);
  conn_output : sending (output tid evs) (replies tid evs) (stage c);
  conn_engaged : engaged tid (lines tid evs) (replies tid evs) sv (stage c);
  conn_settled : omap exchange (zip (lines tid evs) (replies tid evs)) = omap (settled tid) (omap within evs);
  conn_plain : Forall plain (zip (lines tid evs) (replies tid evs))
}.

(** Before the connection is there, nothing has come or gone. *)
Definition absent (tid : nat) (evs : list NetEvent) (sv : Workers.Server) : Prop :=
  input tid evs = [] /\ output tid evs = [] /\ lines tid evs = [] /\ replies tid evs = [] /\
  omap (settled tid) (omap within evs) = [] /\ Workers.asking sv !! tid = None.

Definition netOk (evs : list NetEvent) (net : Net) : Prop := forall tid,
  match conns net !! tid with
  | Some c => connOk tid evs (workers net) c
  | None => absent tid evs (workers net)
  end.

(** The thread an event belongs to. *)
Definition eventOf (ev : NetEvent) : nat :=
  match ev with
  | Opened t | Arrived t _ | Requested t _ _ | Delivered t _ | Ended t | Quiet t => t
  | Inside (Workers.Asked t _ _) | Inside (Workers.Answered t _ _) | Inside (Workers.Worked t _ _)
  | Inside (Workers.Replied t _ _ _) | Inside (Workers.Swept t _) => t
  end.

(** Every field in terms of the last event. *)
Lemma input_snoc tid evs ev : input tid (evs ++ [ev]) = input tid evs ++ default [] (arrived tid ev).
Proof. unfold input. rewrite trace_snoc, concat_app. destruct (arrived tid ev); simpl; by rewrite ?app_nil_r. Qed.
Lemma output_snoc tid evs ev : output tid (evs ++ [ev]) = output tid evs ++ default [] (delivered tid ev).
Proof. unfold output. rewrite trace_snoc, concat_app. destruct (delivered tid ev); simpl; by rewrite ?app_nil_r. Qed.
Lemma lines_snoc tid evs ev : lines tid (evs ++ [ev]) = lines tid evs ++ option_list (requested tid ev).
Proof. apply trace_snoc. Qed.
Lemma replies_snoc tid evs ev : replies tid (evs ++ [ev]) = replies tid evs ++ option_list (replied tid ev).
Proof. apply trace_snoc. Qed.
Lemma settled_snoc tid evs ev : omap (settled tid) (omap within (evs ++ [ev])) =
  omap (settled tid) (omap within evs) ++ option_list (within ev ≫= settled tid).
Proof. rewrite trace_snoc, omap_app. f_equal. by destruct (within ev) as [e|]; simpl; [destruct (settled tid e)|]. Qed.

(** *** The steps of the workers *)

Lemma request_shape tid line sv ev sv' :
  Workers.serve (Workers.Request tid line) sv = Stepped (ev, sv') ->
  (exists reply, ev = Workers.Answered tid line reply /\ sv' = sv /\ exchange (line, reply) = None /\ plain (line, reply)) \/
  (exists c call, ev = Workers.Asked tid c call /\ makesCall line = true /\ CommandParser.parse line = Some (CommandParser.success c) /\
    Workers.asking sv' !! tid = Some c).
Proof.
  intros Hs. pose proof (fun reply sv' => Workers.step_answered sv tid line reply sv') as Hans.
  unfold plain, exchange, keyed, makesCall. simpl. pose proof Hs as Hs'. unfold Workers.serve in Hs.
  destruct (threads _ !! tid) eqn:Ht; [done|].
  destruct (CommandParser.parse line) as [[c|e]|] eqn:Hp; [| |done].
  2:{ left. simplify_eq. eexists. split_and!; [done..|]. right. intros. eapply Hans. by eexists. }
  destruct (Workers.callOf c) as [call|] eqn:Hc.
  - simpl in Hs. rewrite Ht in Hs. destruct (entryPoint call); simplify_eq. right. exists c, call. simpl. by rewrite lookup_insert_eq.
  - left. simplify_eq. eexists. split_and!; [done|done|by destruct (Workers.immediate c)|].
    right. intros. eapply Hans. by eexists.
Qed.

Lemma progress_shape tid now sv ev sv' :
  Workers.serve (Workers.Progress tid now) sv = Stepped (ev, sv') ->
  match Workers.asking sv !! tid with
  | None => Workers.asking sv' !! tid = None /\ exists e, ev = Workers.Swept tid e
  | Some c =>
      (Workers.asking sv' !! tid = Some c /\ exists e, ev = Workers.Worked tid c e) \/
      (Workers.asking sv' !! tid = None /\ threads (Workers.system sv') !! tid = None /\
        exists r, ev = Workers.Replied tid c r (Workers.replyOf r))
  end.
Proof.
  unfold Workers.serve. intros Hs. destruct (act (Run tid now) (Workers.system sv)) as [[e s]| |] eqn:Ha; [|done..].
  assert (moves (Workers.system sv) e s) as Hm by (apply step_moves; by eexists).
  apply Workers.run_actor in Ha as [Ha _].
  destruct (Workers.asking sv !! tid) as [c|] eqn:Hask; [|destruct e; simplify_eq; eauto].
  destruct e as [| |t r|]; simplify_eq; simpl in *; rewrite ?Hask; eauto. right.
  rewrite lookup_delete_eq, (Workers.moves_returned _ _ _ _ Hm), lookup_delete_eq. eauto.
Qed.

(** *** Events that do not concern a connection *)

Definition concerns (tid : nat) (ev : NetEvent) : bool :=
  match arrived tid ev, delivered tid ev, requested tid ev, replied tid ev, within ev ≫= settled tid with
  | None, None, None, None, None => false
  | _, _, _, _, _ => true
  end.

Lemma unconcerned tid evs ev : concerns tid ev = false ->
  input tid (evs ++ [ev]) = input tid evs /\ output tid (evs ++ [ev]) = output tid evs /\
  lines tid (evs ++ [ev]) = lines tid evs /\ replies tid (evs ++ [ev]) = replies tid evs /\
  omap (settled tid) (omap within (evs ++ [ev])) = omap (settled tid) (omap within evs).
Proof.
  unfold concerns. rewrite input_snoc, output_snoc, lines_snoc, replies_snoc, settled_snoc.
  intros Hc. repeat case_match; try done. simpl. by rewrite !app_nil_r.
Qed.

(** Such an event keeps the invariant of a connection that moves to a stage with the
    same obligations. *)
Lemma connOk_quiet tid evs ev sv sv' c c' :
  concerns tid ev = false -> connOk tid evs sv c ->
  pending c' = pending c -> (stage c' = Receiving -> findByte chLF (pending c) = None \/ stage c = Receiving) ->
  sending (output tid evs) (replies tid evs) (stage c') ->
  engaged tid (lines tid evs) (replies tid evs) sv' (stage c') ->
  connOk tid (evs ++ [ev]) sv' c'.
Proof.
  intros Hc [(l & r & Hp & Hi & Hr) Ho He Hs] Ep Hst Ho' He'.
  destruct (unconcerned tid evs ev Hc) as (E1 & E2 & E3 & E4 & E5).
  split; rewrite ?E1, ?E2, ?E3, ?E4, ?E5, ?Ep; try done. exists l, r. split_and!; [done..|].
  intros [Hn|?]%Hst; [|by apply Hr]. rewrite (Server.cut_no_newline _ Hn) in Hp. by simplify_eq.
Qed.

Lemma absent_quiet tid evs ev sv sv' :
  concerns tid ev = false -> Workers.asking sv' !! tid = None -> absent tid evs sv -> absent tid (evs ++ [ev]) sv'.
Proof.
  intros Hc Ha (? & ? & ? & ? & ? & _). destruct (unconcerned tid evs ev Hc) as (E1 & E2 & E3 & E4 & E5).
  unfold absent. by rewrite E1, E2, E3, E4, E5.
Qed.

(** A step is one about its own connection. *)
Lemma netOk_step tid evs ev net net' :
  netOk evs net ->
  (forall t, t <> tid -> concerns t ev = false /\ conns net' !! t = conns net !! t /\
    threads (Workers.system (workers net')) !! t = threads (Workers.system (workers net)) !! t /\
    Workers.asking (workers net') !! t = Workers.asking (workers net) !! t) ->
  match conns net' !! tid with
  | Some c => connOk tid (evs ++ [ev]) (workers net') c
  | None => absent tid (evs ++ [ev]) (workers net')
  end -> netOk (evs ++ [ev]) net'.
Proof.
  intros HN Hot Hown t. destruct (decide (t = tid)) as [->|Hne]; [done|]. specialize (HN t).
  destruct (Hot t Hne) as (Hc & -> & Et & Ea). destruct (conns net !! t) as [c|].
  - eapply connOk_quiet; [done|exact HN|done|by right|apply HN|].
    pose proof (conn_engaged _ _ _ _ HN) as He. unfold engaged in *. by rewrite Et, Ea.
  - apply absent_quiet with (sv := workers net); [done| |done]. rewrite Ea. apply HN.
Qed.

(** *** The steps of a connection *)

Lemma frame_reply rs reply : Server.frame (omap id (rs ++ [Some reply])) = Server.frame (omap id rs) ++ withNewline reply.
Proof. rewrite omap_app, Server.frame_app. simpl. unfold Server.frame at 2. simpl. by rewrite app_nil_r. Qed.

Lemma sending_gone out rs st : sending out rs st -> sending out rs Gone.
Proof.
  destruct st; simpl; rewrite ?app_nil_r; try done.
  - intros ->. by eexists.
  - intros ->. by eexists.
  - intros ->. by eexists.
  - intros E. exists (rest ++ tooLarge). by rewrite app_assoc, E.
  - intros E. by exists rest.
Qed.

Lemma receive_ok tid evs net p i ev net' :
  connOk tid evs (workers net) (mkConn Receiving p) -> conns net !! tid = Some (mkConn Receiving p) ->
  receive tid p i net = (ev, net') ->
  workers net' = workers net /\
  exists c, conns net' !! tid = Some c /\ connOk tid (evs ++ [ev]) (workers net') c.
Proof.
  intros HO Hc Hr. pose proof HO as [(l & r & Hp & Hi & Hl) Ho He Hs]. simpl in *.
  destruct i as [| | | |data]; simplify_eq/=; rewrite ?lookup_insert_eq; (split; [done|]).
  - eexists. split; [done|]. eapply connOk_quiet; try done. by apply (sending_gone _ _ Receiving).
  - eexists. split; [done|]. eapply connOk_quiet; try done. by right.
  - eexists. split; [done|]. eapply connOk_quiet; try done. by apply (sending_gone _ _ Receiving).
  - eexists. split; [done|]. eapply connOk_quiet; try done. by apply (sending_gone _ _ Receiving).
  - eexists. split; [done|]. rewrite Hl in * by done.
    destruct (Server.cut (r ++ data)) as [lb rb] eqn:Hb.
    split; rewrite ?input_snoc, ?output_snoc, ?lines_snoc, ?replies_snoc, ?settled_snoc; simpl;
      rewrite ?decide_True by done; rewrite ?app_nil_r in *; simpl; try done.
    exists lb, rb. split_and!; [by eapply (Server.cut_app p data [] r)| |done].
    by eapply (Server.cut_app (input tid evs) data).
Qed.

Lemma transmit_ok tid evs net p rest r ev net' st after again :
  connOk tid evs (workers net) (mkConn st p) -> conns net !! tid = Some (mkConn st p) ->
  st = Replying rest /\ again = Replying /\ after = Scanning \/ st = Refusing rest /\ again = Refusing /\ after = Gone ->
  transmit tid p rest again after r net = (ev, net') ->
  workers net' = workers net /\
  exists c, conns net' !! tid = Some c /\ connOk tid (evs ++ [ev]) (workers net') c.
Proof.
  intros HO Hc Hst Hr. pose proof HO as [(l & r0 & Hp & Hi & Hl) Ho He Hs]. simpl in *.
  assert (engaged tid (lines tid evs) (replies tid evs) (workers net) Gone) as Hidle
    by (by destruct Hst as [(-> & -> & ->)|(-> & -> & ->)]).
  destruct r as [n| |]; simplify_eq/=; rewrite ?lookup_insert_eq; (split; [done|]); (eexists; split; [done|]).
  - assert (output tid evs ++ rest = Server.frame (omap id (replies tid evs)) ++ extra st) as Hout
      by (by destruct Hst as [(-> & -> & ->)|(-> & -> & ->)]).
    rewrite <- (take_drop n rest), app_assoc in Hout.
    split; rewrite ?input_snoc, ?output_snoc, ?lines_snoc, ?replies_snoc, ?settled_snoc; simpl;
      rewrite ?decide_True by done; rewrite ?app_nil_r; simpl; try done.
    + exists l, r0. split_and!; [done..|].
      by destruct Hst as [(-> & -> & ->)|(-> & -> & ->)], (drop n rest).
    + destruct (drop n rest) as [|b left]; rewrite ?app_nil_r in Hout;
        destruct Hst as [(-> & -> & ->)|(-> & -> & ->)]; simpl in *; rewrite ?app_nil_r in *; try done.
      by rewrite Hout.
    + by destruct Hst as [(-> & -> & ->)|(-> & -> & ->)], (drop n rest).
  - eapply connOk_quiet; try done. by destruct Hst as [(-> & _)|(-> & _)].
  - eapply connOk_quiet; try done. by apply (sending_gone _ _ st).
Qed.

Lemma zip_snoc {A B} (l : list A) (k : list B) x y : length l = length k -> zip (l ++ [x]) (k ++ [y]) = zip l k ++ [(x, y)].
Proof. intros Hl. by rewrite zip_with_app. Qed.

Lemma zip_ahead {A B} (l : list A) (k : list B) x : length l = length k -> zip (l ++ [x]) k = zip l k.
Proof. revert k. induction l as [|a l IH]; intros [|b k]; simpl; intros; simplify_eq; [done|]. by rewrite IH. Qed.

(** A line is cut out and handed over. *)
Lemma request_ok tid evs net p n e w' :
  connOk tid evs (workers net) (mkConn Scanning p) -> findByte chLF p = Some n ->
  Workers.serve (Workers.Request tid (take n p)) (workers net) = Stepped (e, w') ->
  connOk tid (evs ++ [Requested tid (take n p) e]) w'
    (mkConn match e with
      | Workers.Answered _ _ None => Scanning
      | Workers.Answered _ _ (Some reply) => Replying (withNewline reply)
      | _ => Executing
      end (drop (S n) p)).
Proof.
  intros [(l & r & Hp & Hi & _) Ho (Hlen & Hask & Hthr) Hs Hpl] Hn Hw. simpl in *. rewrite !app_nil_r in Ho.
  destruct (Server.cut (drop (S n) p)) as [l1 r1] eqn:Hd. rewrite (Server.cut_newline _ _ _ _ Hn Hd) in Hp.
  simplify_eq. apply request_shape in Hw as [(reply & -> & -> & Hx & Hq)|(c & call & -> & Hcall & Hparse & Hask')].
  - split; rewrite ?input_snoc, ?output_snoc, ?lines_snoc, ?replies_snoc, ?settled_snoc; simpl;
      rewrite ?decide_True by done; rewrite ?app_nil_r; simpl.
    + exists l1, r. rewrite Hd, <- app_assoc. split_and!; [done..|]. by destruct reply.
    + destruct reply as [reply|]; simpl; rewrite ?app_nil_r; [rewrite frame_reply; by f_equal|].
      rewrite omap_app. simpl. by rewrite app_nil_r.
    + assert (length (lines tid evs ++ [take n p]) = length (replies tid evs ++ [reply]))
        by (rewrite !length_app; simpl; lia). by destruct reply.
    + rewrite zip_snoc by done. rewrite omap_app. simpl. by rewrite Hx, app_nil_r.
    + rewrite zip_snoc by done. apply Forall_app. by rewrite Forall_singleton.
  - split; rewrite ?input_snoc, ?output_snoc, ?lines_snoc, ?replies_snoc, ?settled_snoc; simpl;
      rewrite ?decide_True by done; rewrite ?app_nil_r; simpl; try done.
    + exists l1, r. by rewrite Hd, <- app_assoc.
    + by exists (lines tid evs), (take n p), c.
    + by rewrite zip_ahead.
    + by rewrite zip_ahead.
Qed.

Lemma scan_ok tid evs net p ev net' :
  connOk tid evs (workers net) (mkConn Scanning p) -> conns net !! tid = Some (mkConn Scanning p) ->
  scan limit tid p net = Stepped (ev, net') ->
  exists c, conns net' !! tid = Some c /\ connOk tid (evs ++ [ev]) (workers net') c.
Proof.
  intros HO Hc Hsc. unfold scan in Hsc. destruct (findByte chLF p) as [n|] eqn:Hn.
  - destruct (Workers.serve _ _) as [[e w]| |] eqn:Hw; simplify_eq. simpl. rewrite lookup_insert_eq.
    eexists. split; [done|]. by eapply request_ok.
  - simplify_eq. simpl. rewrite lookup_insert_eq. eexists. split; [done|].
    destruct HO as [Hi Ho He Hs]. simpl in Ho. rewrite !app_nil_r in Ho.
    eapply (connOk_quiet _ _ _ (workers net) _ (mkConn Scanning p)); simpl; [done|by split; simpl; rewrite ?app_nil_r|done
      |by left|by destruct (limit <? len p); simpl; rewrite ?app_nil_r, ?Ho|by destruct (limit <? len p)].
Qed.

Lemma work_ok tid evs net p now ev net' :
  connOk tid evs (workers net) (mkConn Executing p) -> conns net !! tid = Some (mkConn Executing p) ->
  work tid now net = Stepped (ev, net') ->
  exists c, conns net' !! tid = Some c /\ connOk tid (evs ++ [ev]) (workers net') c.
Proof.
  intros HO Hc Hw. unfold work in Hw. destruct (Workers.serve _ _) as [[e w]| |] eqn:Hs; simplify_eq.
  pose proof HO as [(l & r & Hp & Hi & _) Ho (ls & line & c & El & Hlen & Hcall & Hparse & Hask) Hset Hpl]. simpl in *.
  apply progress_shape in Hs. rewrite Hask in Hs.
  destruct Hs as [(Hask' & e' & ->)|(Hask' & Ht' & res & ->)]; simpl; rewrite ?Hc; simpl; rewrite ?lookup_insert_eq.
  - eexists. split; [done|]. eapply connOk_quiet; try done. by exists ls, line, c.
  - eexists. split; [done|]. rewrite !app_nil_r in Ho.
    split; rewrite ?input_snoc, ?output_snoc, ?lines_snoc, ?replies_snoc, ?settled_snoc; simpl;
      rewrite ?(decide_True (P := tid = tid)) by done; rewrite ?app_nil_r; simpl.
    + by exists l, r.
    + rewrite frame_reply. by f_equal.
    + rewrite El, !length_app. simpl. split_and!; [lia|done|done].
    + rewrite El, zip_snoc by done. rewrite omap_app. rewrite El, zip_ahead in Hset by done. rewrite Hset. f_equal.
      unfold exchange. simpl. rewrite Hparse. destruct (keyed c) eqn:Hk; simpl;
        [by rewrite decide_True|by rewrite decide_False by (intros []; congruence)].
    + rewrite El, zip_snoc by done. rewrite El, zip_ahead in Hpl by done. apply Forall_app. split; [done|].
      apply Forall_singleton. by left.
Qed.

(** The thread that takes a step. *)
Definition actorOf (i : Input) : nat :=
  match i with Connect t | Receive t _ | Scan t | Work t _ | Transmit t _ | Sweep t _ => t end.

Lemma setConn_other tid st p net t : t <> tid -> conns (setConn tid st p net) !! t = conns net !! t.
Proof. intros. simpl. by rewrite lookup_insert_ne. Qed.

Lemma serve_concerns i sv e sv' t :
  Workers.serve i sv = Stepped (e, sv') ->
  t <> match i with Workers.Request t _ | Workers.Progress t _ | Workers.Sweep t _ => t end ->
  concerns t (Inside e) = false /\ forall tid line, tid <> t -> concerns t (Requested tid line e) = false.
Proof.
  intros Hs Hne. assert (settled t e = None /\ replied t (Inside e) = None) as [Hst Hr].
  { destruct i as [t' line|t' now|t' z]; simpl in Hne.
    - apply request_shape in Hs as [(reply & -> & _)|(c & call & -> & _)]; done.
    - apply progress_shape in Hs. destruct (Workers.asking sv !! t').
      + destruct Hs as [(_ & e' & ->)|(_ & _ & r & ->)]; [done|]. simpl.
        by rewrite decide_False by (intros []; congruence); rewrite decide_False by congruence.
      + destruct Hs as (_ & e' & ->). done.
    - unfold Workers.serve in Hs. destruct (act _ _) as [[e' s]| |]; by simplify_eq. }
  unfold concerns. split; [rewrite Hr; simpl; by rewrite Hst|]. intros tid line Ht. simpl. rewrite Hst.
  rewrite decide_False by done. destruct e; by rewrite ?decide_False.
Qed.

Lemma advance_other i net ev net' t :
  advance limit i net = Stepped (ev, net') -> t <> actorOf i ->
  concerns t ev = false /\ conns net' !! t = conns net !! t /\
  threads (Workers.system (workers net')) !! t = threads (Workers.system (workers net)) !! t /\
  Workers.asking (workers net') !! t = Workers.asking (workers net) !! t.
Proof.
  intros Ha Hne. destruct i as [tid|tid i|tid|tid now|tid r|tid z]; cbn [advance actorOf] in *.
  - repeat case_match; simplify_eq. by rewrite setConn_other.
  - destruct (conns net !! tid) as [[[] p]|]; try done.
    destruct i as [| | | |data]; simplify_eq/=; unfold concerns; simpl; rewrite ?lookup_insert_ne by done; try done.
    by rewrite decide_False.
  - destruct (conns net !! tid) as [[[] p]|]; try done. unfold scan in Ha.
    destruct (findByte chLF p); [|simplify_eq; by rewrite setConn_other].
    destruct (Workers.serve _ _) as [[e w]| |] eqn:Hs; simplify_eq.
    destruct (serve_other _ _ _ _ t Hs Hne) as [Et Ea]. destruct (serve_concerns _ _ _ _ t Hs Hne) as [_ Hco].
    rewrite setConn_other by done. auto.
  - assert (work tid now net = Stepped (ev, net')) as Hw by (repeat case_match; by simplify_eq). clear Ha.
    unfold work in Hw. destruct (Workers.serve _ _) as [[e w]| |] eqn:Hs; simplify_eq.
    destruct (serve_other _ _ _ _ t Hs Hne) as [Et Ea]. destruct (serve_concerns _ _ _ _ t Hs Hne) as [Hco _].
    repeat case_match; rewrite ?setConn_other by done; auto.
  - repeat case_match; simplify_eq; unfold transmit in *; destruct r; simplify_eq; rewrite ?setConn_other by done;
      unfold concerns; simpl; by rewrite ?decide_False.
  - destruct (conns net !! tid); [repeat case_match; by simplify_eq|].
    destruct (Workers.serve _ _) as [[e w]| |] eqn:Hs; simplify_eq.
    destruct (serve_other _ _ _ _ t Hs Hne) as [Et Ea]. destruct (serve_concerns _ _ _ _ t Hs Hne) as [Hco _].
    auto.
Qed.

Lemma step_netOk evs net ev net' : netOk evs net -> step limit net ev net' -> netOk (evs ++ [ev]) net'.
Proof.
  intros HN [i Ha]. apply (netOk_step (actorOf i) evs ev net); [done|intros; by eapply advance_other|].
  destruct i as [tid|tid i|tid|tid now|tid r|tid z]; cbn [advance actorOf] in *; pose proof (HN tid) as HO;
    destruct (conns net !! tid) as [[st p]|] eqn:Hc; try done.
  - destruct (threads _ !! tid) eqn:Ht; simplify_eq. simpl. rewrite lookup_insert_eq.
    destruct HO as (Ei & Eo & El & Er & Es & Hask).
    split; rewrite ?input_snoc, ?output_snoc, ?lines_snoc, ?replies_snoc, ?settled_snoc, ?Ei, ?Eo, ?El, ?Er, ?Es;
      simpl; try done. by exists [], [].
  - destruct st; simplify_eq. destruct (receive tid p i net) as [ev' net1] eqn:Hr. simplify_eq.
    destruct (receive_ok _ _ _ _ _ _ _ HO Hc Hr) as (_ & c & -> & ?). done.
  - destruct st; simplify_eq. destruct (scan_ok _ _ _ _ _ _ HO Hc Ha) as (c & -> & ?). done.
  - destruct st; simplify_eq. destruct (work_ok _ _ _ _ _ _ _ HO Hc Ha) as (c & -> & ?). done.
  - unfold work in Ha. destruct (Workers.serve _ _) as [[e w]| |] eqn:Hs; simplify_eq.
    apply progress_shape in Hs. destruct HO as (Ei & Eo & El & Er & Es & Hask). rewrite Hask in Hs.
    destruct Hs as (Hask' & e' & ->). simpl. rewrite Hc. by apply absent_quiet with (sv := workers net).
  - destruct st as [| | |rest|rest|]; simplify_eq; destruct (transmit _ _ _ _ _ _ _) as [ev' net1] eqn:Hr; simplify_eq.
    + destruct (transmit_ok _ _ _ _ _ _ _ _ _ _ _ HO Hc (or_introl (conj eq_refl (conj eq_refl eq_refl))) Hr)
        as (_ & c & -> & ?). done.
    + destruct (transmit_ok _ _ _ _ _ _ _ _ _ _ _ HO Hc (or_intror (conj eq_refl (conj eq_refl eq_refl))) Hr)
        as (_ & c & -> & ?). done.
  - repeat case_match; simplify_eq.
  - destruct (Workers.serve _ _) as [[e w]| |] eqn:Hs; simplify_eq. simpl. rewrite Hc.
    apply absent_quiet with (sv := workers net); try done.
    + unfold Workers.serve in Hs. by destruct (act _ _) as [[e' s]| |]; simplify_eq.
    + destruct HO as (_ & _ & _ & _ & _ & Hask). unfold Workers.serve in Hs.
      by destruct (act _ _) as [[e' s]| |]; simplify_eq.
Qed.

Lemma runs_netOk db start evs net : runs (step limit) (listening db start) evs net -> netOk evs net.
Proof.
  intros Hr. remember (listening db start) as net0 eqn:E. induction Hr as [|net0 evs net1 ev net2 Hr IH Hst].
  - subst. by intros tid.
  - eapply step_netOk; [by apply IH|done].
Qed.
End Streams.

(** ** Runs of the connections and runs of the workers *)

Section Within.
Context `{Platform} (limit : Z).

Lemma step_within net ev net' : step limit net ev net' ->
  match within ev with
  | Some e => Workers.step (workers net) e (workers net')
  | None => workers net' = workers net
  end.
Proof.
  intros [i Ha]. destruct i as [tid|tid i|tid|tid now|tid r|tid z]; cbn [advance] in Ha.
  - repeat case_match; by simplify_eq.
  - destruct (conns net !! tid) as [[[] p]|]; try done. destruct i; by simplify_eq.
  - destruct (conns net !! tid) as [[[] p]|]; try done. unfold scan in Ha.
    destruct (findByte chLF p); [|by simplify_eq].
    destruct (Workers.serve _ _) as [[e w]| |] eqn:Hs; simplify_eq. by eexists.
  - assert (work tid now net = Stepped (ev, net')) as Hw by (repeat case_match; by simplify_eq). clear Ha.
    unfold work in Hw. destruct (Workers.serve _ _) as [[e w]| |] eqn:Hs; simplify_eq. simpl.
    exists (Workers.Progress tid now). rewrite Hs. by repeat case_match.
  - destruct (conns net !! tid) as [[[] p]|]; try done; destruct r; by simplify_eq.
  - destruct (conns net !! tid); [repeat case_match; by simplify_eq|].
    destruct (Workers.serve _ _) as [[e w]| |] eqn:Hs; simplify_eq. by eexists.
Qed.

Lemma runs_within db start evs net : runs (step limit) (listening db start) evs net ->
  runs Workers.step (Workers.waiting db start) (omap within evs) (workers net).
Proof.
  intros Hr. remember (listening db start) as net0 eqn:E. induction Hr as [|net0 evs net1 ev net2 Hr IH Hst].
  - subst. constructor.
  - rewrite trace_snoc. specialize (IH E). apply step_within in Hst.
    destruct (within ev); simpl; [by econstructor|]. by rewrite app_nil_r, Hst.
Qed.

(** The linearised requests are those of the workers. *)
Lemma linearised_requests (evs : list NetEvent) : map snd (omap linearised evs) = omap Workers.request (omap within evs).
Proof.
  induction evs as [|ev evs IH]; [done|]. simpl. unfold linearised at 1.
  destruct (within ev) as [e|]; simpl; [|done].
  destruct e as [| |t c e| |]; simpl; try done. destruct (operation e) as [[[now call] r]|]; simpl; [|exact IH].
  f_equal. exact IH.
Qed.

Lemma linearised_share tid (evs : list NetEvent) :
  omap (shareOf tid) (omap linearised evs) = omap (effected tid) (omap within evs).
Proof.
  induction evs as [|ev evs IH]; [done|]. simpl. unfold linearised at 1.
  destruct (within ev) as [e|]; simpl; [|done].
  destruct e as [| |t c e| |]; simpl; try done.
  destruct (operation e) as [[[now call] r]|]; simpl; [|by case_decide].
  unfold shareOf at 1. simpl. case_decide; simpl; [f_equal|]; exact IH.
Qed.

(** A worker that is not executing has given every reply its sections fixed. *)
Lemma fixed_idle tid sv : Workers.asking sv !! tid = None -> fixed tid sv = None.
Proof. unfold fixed. by intros ->. Qed.

(** What is left of a stream without a complete line is the stream. *)
Lemma cut_unbroken s r : Server.cut s = ([], r) -> r = s.
Proof.
  revert r. induction s as [|b s IH]; intros r; simpl; [congruence|].
  destruct (Server.cut s) as [[|l ls] r']; case_decide; intros Hc; simplify_eq. by rewrite (IH r').
Qed.

(** A worker that looks for a line is never held up. *)
Lemma scan_moves tid evs net p :
  connOk tid evs (workers net) (mkConn Scanning p) -> exists ev net', scan limit tid p net = Stepped (ev, net').
Proof.
  intros [_ _ (_ & _ & Ht) _ _]. unfold scan. destruct (findByte chLF p) as [n|]; [|eauto].
  destruct (Workers.serve _ _) as [[e w]| |] eqn:Hs; [eauto|exfalso..]; unfold Workers.serve in Hs;
    rewrite Ht in Hs; destruct (parse_result (take n p)) as (res & Hp & _); rewrite Hp in Hs;
    destruct res as [c|e]; try done; destruct (Workers.callOf c) as [call|] eqn:Hc; try done;
    simpl in Hs; rewrite Ht in Hs; destruct (Workers.callOf_entry _ _ Hc) as [He _]; by rewrite He in Hs.
Qed.
End Within.
