(* ===== verification/ConnectionsClaims.v ===== *)
(** * Theorems about all connections of the server at once *)
From S2P Require Import Prelude.
From S2P Require Import Hash.
From S2P Require Import Text.
From S2P Require Import Protocol.
From S2P Require Import Parser.
From S2P Require Import Table.
From S2P Require Import TableInv.
From S2P Require Import Store.
From S2P Require Import StoreSpec.
From S2P Require Import Snapshot.
From S2P Require Import SaveLoad.
From S2P Require Import Executor.
From S2P Require Import ExecutorSpec.
From S2P Require Import Connection.
From S2P Require Import Trace.
From S2P Require Import Locking.
From S2P Require Import LockingInv.
From S2P Require Import LockingSpec.
From S2P Require Import LockingRuns.
From S2P Require Import Linearizability.
From S2P Require Import LockingClaims.
From S2P Require Import Workers.
From S2P Require Import WorkersClaims.
From S2P Require Import Connections.
From S2P Require Import ConnectionsSpec.
Import ShardLocks.
Import Connections.

#[local] Open Scope Z_scope.

Section Properties.
Context `{Platform}.



End Properties.

(** ** Witness *)




