(* ===== verification/Doubles.v ===== *)
(** * Doubles

    The IEEE 754 binary64 numbers the benchmarks compute with, as the standard
    library's executable specification has them: conversion from an integer, decimal
    literals, multiplication, comparison, and truncation to a [std::size_t]. *)
From Stdlib Require Import SpecFloat.
From stdpp Require Import sorting.
From S2P Require Import Prelude.

#[local] Open Scope Z_scope.

Module Double.

Definition t : Type := spec_float.
Definition prec : Z := 53.
Definition emax : Z := 1024.

(** [static_cast<double>(z)]. *)
Definition ofZ (z : Z) : t := binary_normalize prec emax z 0 false.

Definition mul (x y : t) : t := SFmul prec emax x y.
Definition add (x y : t) : t := SFadd prec emax x y.
Definition div (x y : t) : t := SFdiv prec emax x y.
Definition ltb (x y : t) : bool := SFltb x y.

(** A decimal literal [n/d] is the double nearest to it, which is what correctly
    rounded division of two exact doubles gives. *)
Definition literal (n d : Z) : t := div (ofZ n) (ofZ d).

(** [static_cast<std::size_t>(x)], undefined when the integral part does not fit. *)
Definition toSize (x : t) : option Z :=
  match x with
  | S754_zero _ => Some 0
  | S754_finite s m e =>
      let z := Z.shiftl (Zpos m) e in
      let z := if s then - z else z in
      if (0 <=? z) && (z <? 2 ^ 64) then Some z else None
  | _ => None
  end.

Definition isNan (x : t) : bool := match x with S754_nan => true | _ => false end.

Example literal_95 : literal 95 100 = S754_finite false 8556839292003942 (-53).
Proof. vm_compute. reflexivity. Qed.

(** ** Rounding *)

Lemma digits_bounds p : 2 ^ (Zpos (digits2_pos p) - 1) <= Zpos p < 2 ^ Zpos (digits2_pos p).
Proof.
  induction p as [p IH|p IH|]; simpl digits2_pos.
  1, 2: rewrite Pos2Z.inj_succ; replace (Z.succ (Zpos (digits2_pos p)) - 1) with (Z.succ (Zpos (digits2_pos p) - 1)) by lia;
    rewrite !Z.pow_succ_r by lia; lia.
  simpl. lia.
Qed.

(** Shifting right by [n] places keeps the quotient and remembers whether anything was
    lost. *)
Lemma shr_1_spec m r s : 0 <= m ->
  shr_m (shr_1 (Build_shr_record m r s)) = m / 2 /\
  shr_r (shr_1 (Build_shr_record m r s)) = Z.odd m /\
  shr_s (shr_1 (Build_shr_record m r s)) = (r || s)%bool.
Proof.
  intros Hm. destruct m as [|[p|p|]|]; try lia; simpl; split_and!; try done.
  - apply Z.div_unique with 1; lia.
  - apply Z.div_unique with 0; lia.
Qed.

Lemma iter_pos_nat {A} (f : A -> A) p x : SpecFloat.iter_pos f p x = Nat.iter (Pos.to_nat p) f x.
Proof.
  revert x. induction p as [p IH|p IH|]; intros x; simpl SpecFloat.iter_pos.
  - rewrite !IH, <- Nat.iter_add, <- Nat.iter_succ_r. f_equal. lia.
  - rewrite !IH, <- Nat.iter_add. f_equal. lia.
  - done.
Qed.

Lemma shr_iter n m : 0 <= m ->
  let mrs := Nat.iter n shr_1 (Build_shr_record m false false) in
  shr_m mrs = m / 2 ^ Z.of_nat n /\
  ((shr_r mrs || shr_s mrs)%bool = true -> m mod 2 ^ Z.of_nat n <> 0).
Proof.
  intros Hm. induction n as [|n IH]; simpl.
  { split; [|done]. by rewrite Z.div_1_r. }
  set (mrs := Nat.iter n shr_1 _) in *. destruct mrs as [q r s]. simpl in IH. destruct IH as [-> Hrs].
  assert (0 <= m / 2 ^ Z.of_nat n) as Hq by (apply Z.div_pos; lia).
  destruct (shr_1_spec (m / 2 ^ Z.of_nat n) r s Hq) as (Em & Er & Es).
  rewrite Em, Er, Es. replace (Z.of_nat (S n)) with (Z.of_nat n + 1) by lia.
  rewrite Z.pow_add_r by lia. simpl (2 ^ 1). split; [by rewrite Z.div_div by lia|].
  rewrite Z.rem_mul_r by lia. pose proof (Z.mod_pos_bound m (2 ^ Z.of_nat n) ltac:(lia)).
  pose proof (Z.mod_pos_bound (m / 2 ^ Z.of_nat n) 2 ltac:(lia)).
  rewrite Zmod_odd in *. destruct (Z.odd (m / 2 ^ Z.of_nat n)); simpl; [nia|].
  intros Hx%Hrs. nia.
Qed.

(** Aligning an exact number to 53 digits. *)
Lemma shr_fexp_exact p e : -1000 <= e ->
  let d := Zpos (digits2_pos p) in
  shr_fexp prec emax (Zpos p) e loc_Exact =
  (Nat.iter (Z.to_nat (d - 53)) shr_1 (Build_shr_record (Zpos p) false false), e + Z.max 0 (d - 53)).
Proof.
  intros He d. unfold shr_fexp, fexp, emin, prec, emax. simpl shr_record_of_loc. change (Zdigits2 (Zpos p)) with d.
  rewrite Z.max_l by lia. replace (d + e - 53 - e) with (d - 53) by lia.
  unfold shr. destruct (d - 53) as [|n|n] eqn:En; simpl; [by rewrite Z.add_0_r| |by rewrite Z.add_0_r].
  by rewrite iter_pos_nat.
Qed.

(** The mantissa to the nearest, ties to even: the quotient, or one more when something
    was lost. *)
Lemma round_mantissa n m : 0 <= m ->
  let mrs := Nat.iter n shr_1 (Build_shr_record m false false) in
  let z := round_nearest_even (shr_m mrs) (loc_of_shr_record mrs) in
  z = m / 2 ^ Z.of_nat n \/ z = m / 2 ^ Z.of_nat n + 1 /\ m mod 2 ^ Z.of_nat n <> 0.
Proof.
  intros Hm. destruct (shr_iter n m Hm) as [E Hl]. destruct (Nat.iter n shr_1 _) as [q r s]. simpl in *. subst q.
  unfold loc_of_shr_record, round_nearest_even.
  destruct r, s; simpl in *; try (by left); [right; auto|].
  destruct (Z.even _); [by left|right; auto].
Qed.

(** A number below 2^53 stays as it is, 2^53 is halved. *)
Lemma round_final m e : 0 < m <= 2 ^ 53 -> -1000 <= e < 0 ->
  exists m' e', shr_fexp prec emax m e loc_Exact = (Build_shr_record (Zpos m') false false, e') /\
    e <= e' <= 0 /\ Zpos m' * 2 ^ (e' - e) = m.
Proof.
  intros Hm He. destruct m as [|p|]; [lia| |lia]. rewrite shr_fexp_exact by lia.
  destruct (digits_bounds p) as [Hlo Hhi]. set (d := Zpos (digits2_pos p)) in *.
  destruct (decide (Zpos p = 2 ^ 53)) as [E|Hne].
  - assert (p = Pos.pow 2 53) as -> by lia. exists (Pos.pow 2 52), (e + 1).
    split_and!; [done|lia|lia|]. replace (e + 1 - e) with 1 by lia. done.
  - assert (d <= 53) by (destruct (Z.le_gt_cases d 53); [done|]; assert (2 ^ 53 <= 2 ^ (d - 1)) by (apply Z.pow_le_mono_r; lia); lia).
    replace (Z.to_nat (d - 53)) with 0%nat by lia. rewrite Z.max_l, Z.add_0_r by lia.
    exists p, e. split_and!; [done|lia|lia|]. rewrite Z.sub_diag. lia.
Qed.

(** The integral part of a finite double below 2^53. *)
Lemma toSize_small m e : -1000 <= e <= 0 -> Zpos m < 2 ^ (53 - e) ->
  toSize (S754_finite false m e) = Some (Zpos m / 2 ^ (- e)).
Proof.
  intros He Hm. unfold toSize. assert (Z.shiftl (Zpos m) e = Zpos m / 2 ^ (- e)) as ->.
  { replace e with (- - e) at 1 by lia. rewrite Z.shiftl_opp_r. by apply Z.shiftr_div_pow2; lia. }
  assert (0 <= Zpos m / 2 ^ (- e)) by (apply Z.div_pos; lia).
  assert (Zpos m / 2 ^ (- e) < 2 ^ 53).
  { apply Z.div_lt_upper_bound; [lia|]. rewrite <- Z.pow_add_r by lia. by replace (- e + 53) with (53 - e) by lia. }
  by rewrite (proj2 (Z.leb_le _ _)), (proj2 (Z.ltb_lt _ _)) by lia.
Qed.

(** Bounds survive rounding: a number between two integers is, after rounding and
    truncation, still between them. *)
Lemma round_between mx t : 0 < t <= 1000 -> Zpos mx < 2 ^ (52 + t) ->
  exists z, toSize (binary_round_aux prec emax false (Zpos mx) (- t) loc_Exact) = Some z /\
    forall a b, a * 2 ^ t <= Zpos mx <= b * 2 ^ t -> a <= z <= b.
Proof.
  intros Ht Hmx. destruct (digits_bounds mx) as [Hlo Hhi]. set (d := Zpos (digits2_pos mx)) in *.
  assert (d <= 52 + t) as Hd.
  { destruct (Z.le_gt_cases d (52 + t)); [done|].
    assert (2 ^ (52 + t) <= 2 ^ (d - 1)) by (apply Z.pow_le_mono_r; lia). lia. }
  unfold binary_round_aux. rewrite shr_fexp_exact by lia. fold d. set (n := Z.max 0 (d - 53)).
  assert (Z.of_nat (Z.to_nat (d - 53)) = n) as En by lia.
  pose proof (round_mantissa (Z.to_nat (d - 53)) (Zpos mx) ltac:(lia)) as Hr. cbn zeta in Hr. rewrite En in Hr.
  set (m2 := round_nearest_even _ _) in *. clearbody m2.
  assert (2 ^ n * 2 ^ (t - n) = 2 ^ t) as Epow by (rewrite <- Z.pow_add_r by lia; f_equal; lia).
  assert (1 <= Zpos mx / 2 ^ n < 2 ^ 53) as Hq.
  { split.
    - apply Z.div_le_lower_bound; [lia|]. assert (2 ^ n <= 2 ^ (d - 1)) by (apply Z.pow_le_mono_r; lia). lia.
    - apply Z.div_lt_upper_bound; [lia|]. rewrite <- Z.pow_add_r by lia.
      eapply Z.lt_le_trans; [exact Hhi|]. apply Z.pow_le_mono_r; lia. }
  destruct (round_final m2 (- t + n)) as (m' & e' & -> & He' & Em'); [lia|lia|].
  simpl shr_m. cbv iota beta. rewrite (proj2 (Z.leb_le e' (emax - prec))) by (unfold emax, prec; lia).
  assert (2 ^ (t - n) = 2 ^ (- e') * 2 ^ (e' - (- t + n))) as Epow' by (rewrite <- Z.pow_add_r by lia; f_equal; lia).
  exists (m2 / 2 ^ (t - n)). split.
  - rewrite toSize_small; [|lia|].
    + f_equal. rewrite <- Em', Epow'. symmetry. apply Z.div_mul_cancel_r; lia.
    + assert (2 ^ 53 < 2 ^ (53 - e') \/ e' = 0) as [?| ->].
      { destruct (decide (e' = 0)); [by right|left; apply Z.pow_lt_mono_r; lia]. }
      * assert (1 <= 2 ^ (e' - (- t + n))) by (apply (Z.pow_le_mono_r 2 0); lia). nia.
      * assert (2 ^ 1 <= 2 ^ (0 - (- t + n))) by (apply Z.pow_le_mono_r; lia). nia.
  - intros a b [Ha Hb]. rewrite <- Epow in Ha, Hb. split.
    + apply Z.div_le_lower_bound; [lia|].
      assert (a * 2 ^ (t - n) <= Zpos mx / 2 ^ n) by (apply Z.div_le_lower_bound; nia). lia.
    + apply Z.div_le_upper_bound; [lia|].
      pose proof (Z.div_mod (Zpos mx) (2 ^ n) ltac:(lia)). pose proof (Z.mod_pos_bound (Zpos mx) (2 ^ n) ltac:(lia)).
      nia.
Qed.

(** Integers below 2^53 are doubles. *)
Lemma digits_max p n : Zpos p < 2 ^ n -> 0 <= n -> Zpos (digits2_pos p) <= n.
Proof.
  intros Hp Hn. destruct (digits_bounds p) as [Hlo _]. destruct (Z.le_gt_cases (Zpos (digits2_pos p)) n); [done|].
  assert (2 ^ n <= 2 ^ (Zpos (digits2_pos p) - 1)) by (apply Z.pow_le_mono_r; lia). lia.
Qed.

Lemma shift_pos_mul n p : Zpos (shift_pos n p) = Zpos p * 2 ^ Zpos n.
Proof. rewrite shift_pos_correct, Z.pow_pos_fold. lia. Qed.

Lemma round_aligned p e : -1000 <= e <= 0 -> Zpos (digits2_pos p) = 53 ->
  binary_round_aux prec emax false (Zpos p) e loc_Exact = S754_finite false p e.
Proof.
  intros He Hd. unfold binary_round_aux. rewrite shr_fexp_exact, Hd by lia. simpl Nat.iter. simpl Z.max.
  rewrite Z.add_0_r. simpl round_nearest_even. rewrite shr_fexp_exact, Hd by lia. simpl Nat.iter. simpl Z.max.
  rewrite Z.add_0_r. simpl. by rewrite (proj2 (Z.leb_le e (emax - prec))) by (unfold emax, prec; lia).
Qed.

Lemma ofZ_exact p : Zpos p < 2 ^ 53 ->
  exists mz, ofZ (Zpos p) = S754_finite false mz (Zpos (digits2_pos p) - 53) /\
    Zpos mz = Zpos p * 2 ^ (53 - Zpos (digits2_pos p)).
Proof.
  intros Hp. pose proof (digits_max p 53 Hp ltac:(lia)) as Hd. destruct (digits_bounds p) as [Hlo Hhi].
  set (d := Zpos (digits2_pos p)) in *. unfold ofZ, binary_normalize, binary_round, fexp, emin. fold d.
  unfold prec at 1, emax at 1. rewrite Z.add_0_r, Z.max_l by (unfold prec, emax; lia).
  assert (exists mz, shl_align p 0 (d - 53) = (mz, d - 53) /\ Zpos mz = Zpos p * 2 ^ (53 - d)) as (mz & -> & Emz).
  { unfold shl_align. destruct (d - 53 - 0) as [|n|n] eqn:En; [|lia|].
    - exists p. replace (d - 53) with 0 by lia. replace (53 - d) with 0 by lia. split; [done|lia].
    - exists (shift_pos n p). split; [done|]. rewrite shift_pos_mul. do 2 f_equal. lia. }
  exists mz. split; [|done]. rewrite round_aligned; [done|lia|].
  destruct (digits_bounds mz) as [Hlo' Hhi']. rewrite Emz in *.
  assert (2 ^ (d - 1) * 2 ^ (53 - d) = 2 ^ 52) by (rewrite <- Z.pow_add_r by lia; f_equal; lia).
  assert (2 ^ d * 2 ^ (53 - d) = 2 ^ 53) by (rewrite <- Z.pow_add_r by lia; f_equal; lia).
  apply Z.le_antisymm; [apply digits_max; [nia|lia]|].
  destruct (Z.le_gt_cases 53 (Zpos (digits2_pos mz))); [done|].
  assert (2 ^ Zpos (digits2_pos mz) <= 2 ^ 52) by (apply Z.pow_le_mono_r; lia). nia.
Qed.

(** A fraction of an integer, rounded and truncated, is one of the two integers next to
    the exact product. *)
Lemma fraction_between mq f p : 0 < f <= 900 -> Zpos mq < 2 ^ f -> Zpos p < 2 ^ 52 ->
  exists z, toSize (mul (S754_finite false mq (- f)) (ofZ (Zpos p))) = Some z /\
    forall a b, a * 2 ^ f <= Zpos mq * Zpos p <= b * 2 ^ f -> a <= z <= b.
Proof.
  intros Hf Hq Hp. destruct (ofZ_exact p ltac:(lia)) as (mz & -> & Emz).
  pose proof (digits_max p 52 Hp ltac:(lia)) as Hd. set (d := Zpos (digits2_pos p)) in *.
  unfold mul, SFmul. simpl xorb. replace (- f + (d - 53)) with (- (f + (53 - d))) by lia.
  assert (2 ^ (f + (53 - d)) = 2 ^ f * 2 ^ (53 - d)) as Epow by (apply Z.pow_add_r; lia).
  destruct (round_between (mq * mz) (f + (53 - d))) as (z & Hz & Hb); [lia| |].
  - rewrite Pos2Z.inj_mul, Emz, Z.pow_add_r, Epow by lia. nia.
  - exists z. split; [exact Hz|]. intros a b Hab. apply Hb. rewrite Pos2Z.inj_mul, Emz, Epow.
    assert (0 < 2 ^ (53 - d)) by lia. nia.
Qed.

(** ** Order *)

(** Where a number is on the line: its class, then exponent, then mantissa. *)
Definition place (x : t) : Z * Z * Z :=
  match x with
  | S754_zero _ => (0, 0, 0)
  | S754_infinity s => (if s then -2 else 2, 0, 0)
  | S754_nan => (3, 0, 0)
  | S754_finite s m e => if s then (-1, - e, - Zpos m) else (1, e, Zpos m)
  end.

Lemma ltb_place x y : isNan x = false -> isNan y = false ->
  ltb x y = true <->
  let '(a, b, c) := place x in let '(a', b', c') := place y in
  a < a' \/ a = a' /\ (b < b' \/ b = b' /\ c < c').
Proof.
  intros Hx Hy. unfold ltb, SFltb.
  destruct x as [s|s| |s m e], y as [s'|s'| |s' m' e']; try done; destruct s, s'; simpl; try (split; [done|lia]);
    try (split; [lia|done]).
  - change (Pos.compare_cont Eq m m') with (Pos.compare m m').
    destruct (Z.compare_spec e e'); [|split; [done|lia]|split; [lia|done]].
    destruct (Pos.compare_spec m m'); simpl; (split; [done || lia|done || lia]).
  - change (Pos.compare_cont Eq m m') with (Pos.compare m m').
    destruct (Z.compare_spec e e'); [|split; [lia|done]|split; [done|lia]].
    destruct (Pos.compare_spec m m'); simpl; (split; [done || lia|done || lia]).
Qed.

(** Not greater. *)
Definition le (x y : t) : Prop := ltb y x = false.
#[global] Instance le_dec x y : Decision (le x y).
Proof. unfold le. apply _. Defined.

Lemma le_place x y : isNan x = false -> isNan y = false ->
  le x y <->
  let '(a, b, c) := place x in let '(a', b', c') := place y in
  a < a' \/ a = a' /\ (b < b' \/ b = b' /\ c <= c').
Proof.
  intros Hx Hy. unfold le. rewrite <- not_true_iff_false, (ltb_place y x Hy Hx).
  destruct (place x) as [[a b] c], (place y) as [[a' b'] c']. lia.
Qed.

Lemma le_total x y : isNan x = false -> isNan y = false -> ltb x y = true -> le x y.
Proof.
  intros Hx Hy. rewrite (ltb_place x y), (le_place x y) by done.
  destruct (place x) as [[a b] c], (place y) as [[a' b'] c']. lia.
Qed.

Lemma le_refl x : isNan x = false -> le x x.
Proof. intros Hx. rewrite le_place by done. destruct (place x) as [[a b] c]. lia. Qed.

Lemma le_trans x y z : isNan x = false -> isNan y = false -> isNan z = false -> le x y -> le y z -> le x z.
Proof.
  intros Hx Hy Hz. rewrite !le_place by done.
  destruct (place x) as [[a b] c], (place y) as [[a' b'] c'], (place z) as [[a'' b''] c'']. lia.
Qed.

(** ** Sorting *)

(** [std::sort]: some sorted arrangement of the elements; elements that compare equal
    are indistinguishable here but for the sign of zero. *)
Fixpoint insert (x : t) (l : list t) : list t :=
  match l with
  | [] => [x]
  | y :: l' => if ltb y x then y :: insert x l' else x :: l
  end.
Definition sort (l : list t) : list t := foldr insert [] l.

Lemma insert_permutes x l : insert x l ≡ₚ x :: l.
Proof.
  induction l as [|y l IH]; simpl; [done|]. destruct (ltb y x); [|done]. rewrite IH. apply Permutation_swap.
Qed.

Lemma sort_perm l : sort l ≡ₚ l.
Proof. induction l as [|x l IH]; simpl; [done|]. by rewrite insert_permutes, IH. Qed.

Definition numbers (l : list t) : Prop := Forall (fun x => isNan x = false) l.

Lemma insert_sorted x l : isNan x = false -> numbers l -> StronglySorted le l -> StronglySorted le (insert x l).
Proof.
  intros Hx. induction l as [|y l IH]; intros Hl Hs; simpl; [by repeat constructor|].
  apply Forall_cons in Hl as [Hy Hl]. apply StronglySorted_inv in Hs as [Hs Hall].
  destruct (ltb y x) eqn:E.
  - constructor; [by apply IH|]. rewrite insert_permutes. constructor; [by apply le_total|done].
  - assert (le x y) as Hle by done. constructor; [by constructor|]. constructor; [done|].
    rewrite List.Forall_forall in *. intros z Hz. apply (le_trans x y z); auto.
Qed.

Lemma sort_sorted l : numbers l -> StronglySorted le (sort l).
Proof.
  induction 1 as [|x l Hx Hl IH]; simpl; [constructor|]. apply insert_sorted; [done| |done].
  unfold numbers. by rewrite sort_perm.
Qed.

(** Filters that keep everything, or nothing. *)
Lemma filter_all (P : t -> Prop) `{!forall x, Decision (P x)} l : Forall P l -> filter P l = l.
Proof. induction 1 as [|x l Hx Hl IH]; [done|]. by rewrite filter_cons_True, IH. Qed.

Lemma filter_none (P : t -> Prop) `{!forall x, Decision (P x)} l : Forall (fun x => ~ P x) l -> filter P l = [].
Proof. induction 1 as [|x l Hx Hl IH]; [done|]. by rewrite filter_cons_False. Qed.

(** How many are below the element at a place of a sorted list, and how many are not
    above it. *)
Lemma sorted_rank l i x : numbers l -> StronglySorted le l -> l !! i = Some x ->
  (length (filter (fun y => ltb y x = true) l) <= i)%nat /\ (i + 1 <= length (filter (fun y => le y x) l))%nat.
Proof.
  intros Hn Hs Hi. pose proof (lookup_lt_Some _ _ _ Hi) as Hlt.
  assert (isNan x = false) as Hx by (by eapply Forall_lookup_1 in Hn).
  assert (l = take i l ++ x :: drop (S i) l) as E by (symmetry; by apply take_drop_middle).
  assert (length (take i l) = i) as Hlen by (rewrite length_take; lia).
  set (front := take i l) in *. set (back := drop (S i) l) in *. clearbody front back. subst l.
  rewrite !filter_app, !length_app. split.
  - apply StronglySorted_app_1_r, StronglySorted_inv in Hs as [_ Hall].
    rewrite (filter_none (fun y => ltb y x = true) (x :: back)).
    + pose proof (length_filter (fun y => ltb y x = true) front). simpl. lia.
    + constructor; [by rewrite (le_refl x Hx)|]. eapply List.Forall_impl; [|exact Hall]. intros y Hy. by rewrite Hy.
  - rewrite (filter_all (fun y => le y x) front), (filter_cons_True _ x) by
      (by apply le_refl || (apply Forall_forall; intros y Hy; eapply StronglySorted_app_1_elem_of; [exact Hs|done|constructor])).
    simpl. lia.
Qed.
End Double.
