(* ===== verification/Bench.v ===== *)
(** * The benchmarks

    The parts of the benchmark programs that compute something: the statistics and the
    key generator of src/bench/benchmark.h, and the workloads of
    src/bench/bench_hashtable.cpp and src/bench/bench_database.cpp, without the
    printing and with the readings of the clock as inputs.  [doNotOptimize] has no
    effect.  [std::unordered_map], which is measured beside the table, is not
    modelled. *)
From S2P Require Import Prelude.
From S2P Require Import Hash.
From S2P Require Import Text.
From S2P Require Import Table.
From S2P Require Import Store.
From S2P Require Import Doubles.

#[local] Open Scope Z_scope.

(** [std::mt19937_64] of the standard library. *)
Module mt19937_64.

Definition word_count : nat := 312.
Definition shift_size : nat := 156.
Definition lower_mask : Z := 2 ^ 31 - 1.
Definition upper_mask : Z := 2 ^ 64 - 2 ^ 31.
Definition xor_mask : Z := 0xb5026f5aa96619e9.
Definition multiplier : Z := 6364136223846793005.

Fixpoint seedFrom (k : nat) (i x : Z) : list Z :=
  match k with
  | O => []
  | S k' => x :: seedFrom k' (i + 1) (u64 (multiplier * Z.lxor x (Z.shiftr x 62) + (i + 1)))
  end.
Definition seed (value : Z) : list Z := seedFrom word_count 0 (u64 value).

Definition twist (x0 x1 xm : Z) : Z :=
  let y := Z.lor (Z.land x0 upper_mask) (Z.land x1 lower_mask) in
  Z.lxor (Z.lxor xm (Z.shiftr y 1)) (if Z.odd y then xor_mask else 0).

Definition temper (z : Z) : Z :=
  let z := Z.lxor z (Z.land (Z.shiftr z 29) 0x5555555555555555) in
  let z := Z.lxor z (Z.land (u64 (Z.shiftl z 17)) 0x71d67fffeda60000) in
  let z := Z.lxor z (Z.land (u64 (Z.shiftl z 37)) 0xfff7eee000000000) in
  Z.lxor z (Z.shiftr z 43).

(** The last [word_count] words, oldest first, make the next one. *)
Definition next (state : list Z) : list Z * Z :=
  match state with
  | x0 :: (x1 :: _) as rest =>
      let x := twist x0 x1 (nth shift_size state 0) in (rest ++ [x], temper x)
  | _ => (state, 0)
  end.

Fixpoint nth_output (k : nat) (state : list Z) : Z :=
  let '(state', z) := next state in
  match k with O => z | S k' => nth_output k' state' end.

(** The number by which the standard identifies the engine: the 10000th one of the
    default seed. *)
Example required_output : nth_output (Z.to_nat 9999) (seed 5489) = 9981545732273789042.
Proof. vm_compute. reflexivity. Qed.

End mt19937_64.

Module bench.

(** ** benchmark.h *)

(** [secondsSince], for two readings of the clock in nanoseconds. *)
Definition secondsSince (start now : Z) : Double.t := Double.div (Double.ofZ (now - start)) (Double.ofZ 1000000000).

Record Latency := mkLatency { mean : Double.t; p50 : Double.t; p95 : Double.t; p99 : Double.t; max : Double.t }.
Definition zeroLatency : Latency :=
  let z := Double.ofZ 0 in mkLatency z z z z z.

(** The index of a quantile among so many samples. *)
Definition quantileIndex (quantile : Double.t) (count : Z) : option Z :=
  Double.toSize (Double.mul quantile (Double.ofZ (count - 1))).

(** The element at a quantile of sorted samples; an index out of range is undefined. *)
Definition sampleAt (samples : list Double.t) (quantile : Double.t) : option Double.t :=
  index ← quantileIndex quantile (len samples); samples !! Z.to_nat index.

Definition summarise (samplesMicros : list Double.t) : option Latency :=
  match samplesMicros with
  | [] => Some zeroLatency
  | _ =>
      let sorted := Double.sort samplesMicros in
      let total := foldl Double.add (Double.ofZ 0) sorted in
      p50 ← sampleAt sorted (Double.literal 50 100);
      p95 ← sampleAt sorted (Double.literal 95 100);
      p99 ← sampleAt sorted (Double.literal 99 100);
      back ← last sorted;
      Some (mkLatency (Double.div total (Double.ofZ (len sorted))) p50 p95 p99 back)
  end.

(** The timed runs of a body that acts on a state; a pair of readings for each. *)
Fixpoint timedRuns {St} (body : St -> option St) (clocks : list (Z * Z)) (st : St) : option (St * list Double.t) :=
  match clocks with
  | [] => Some (st, [])
  | (start, finish) :: rest =>
      st ← body st;
      '(st, timings) ← timedRuns body rest st;
      Some (st, secondsSince start finish :: timings)
  end.

(** [timeMedian], with as many pairs of readings as repetitions. *)
Definition timeMedian {St} (body : St -> option St) (clocks : list (Z * Z)) (st : St) : option (St * Double.t) :=
  st ← body st;
  '(st, timings) ← timedRuns body clocks st;
  median ← Double.sort timings !! (length timings / 2)%nat;
  Some (st, median).

Definition kSeed : Z := 0x5643414348450001.

Fixpoint generate (count : nat) (rng : list Z) (prefix : bytes) : list bytes :=
  match count with
  | O => []
  | S count' =>
      let '(rng, number) := mt19937_64.next rng in
      (prefix ++ to_string number) :: generate count' rng prefix
  end.
Definition makeKeys (count : nat) (prefix : bytes) : list bytes := generate count (mt19937_64.seed kSeed) prefix.

End bench.

(** ** bench_hashtable.cpp *)

Module BenchHashTable.
Section Workloads.
Context `{Platform}.

(** [std::string(64, 'v')]. *)
Definition payload (size : nat) : bytes := replicate size x76.

Definition fillTable (table : HashTable.t) (keys : list bytes) (value : bytes) : option HashTable.t :=
  foldM (fun table key => r ← HashTable.put table key value; Some (fst r)) table keys.

(** The timed bodies: tables are built from nothing in every run. *)
Definition insertion (keys : list bytes) : option HashTable.t :=
  fillTable (HashTable.new HashTable.kDefaultBucketCount) keys (payload 64).

Definition lookups (table : HashTable.t) (keys : list bytes) : option (list (option bytes)) :=
  mapM (HashTable.get table) keys.

Definition lookupHit (count : nat) : option (list (option bytes)) :=
  let keys := bench.makeKeys count (bs "key:") in
  table ← fillTable (HashTable.new HashTable.kDefaultBucketCount) keys (payload 64);
  lookups table keys.

Definition lookupMiss (count : nat) : option (list (option bytes)) :=
  let present := bench.makeKeys count (bs "key:") in
  let absent := bench.makeKeys count (bs "absent:") in
  table ← fillTable (HashTable.new HashTable.kDefaultBucketCount) present (payload 64);
  lookups table absent.

Definition removeAll (table : HashTable.t) (keys : list bytes) : option HashTable.t :=
  foldM (fun table key => r ← HashTable.remove table key; Some (fst r)) table keys.

Definition deletion (keys : list bytes) : option HashTable.t :=
  table ← fillTable (HashTable.new HashTable.kDefaultBucketCount) keys (payload 64);
  removeAll table keys.

Definition preSized (count : nat) (keys : list bytes) : option HashTable.t :=
  fillTable (HashTable.new (u64 (Z.of_nat count * 2))) keys (payload 64).

End Workloads.
End BenchHashTable.

(** ** bench_database.cpp *)

Module BenchDatabase.
Section Workloads.
Context `{Platform}.

Definition kKeyCount : Z := 100000.
Definition kReadPercent : Z := 90.
Definition kDefaultShardCount : Z := 64.
Definition roomyLimit : Z := 4 * 1024 * 1024 * 1024.

Definition fillDatabase (db : Database.t) (keys : list bytes) (value : bytes) : option Database.t :=
  foldM (fun db key => r ← Database.set db key value; Some (fst r)) db keys.

(** The database of [benchmarkEvictionOverhead] before its threads start. *)
Definition measured (maxMemory : Z) (keys : list bytes) : option Database.t :=
  db ← Database.new HashTable.kDefaultBucketCount kDefaultShardCount;
  db ← Database.setMaxMemory db maxMemory;
  fillDatabase db keys (BenchHashTable.payload 64).

(** What a worker of the mixed workloads does: reads and writes of keys at a stride. *)
Inductive Op := Read (key : bytes) | Write (key : bytes).

Fixpoint operationsFrom (count : nat) (i cursor : Z) (keys : list bytes) : option (list Op) :=
  match count with
  | O => Some []
  | S count' =>
      if len keys =? 0 then None
      else
        key ← keys !! Z.to_nat (cursor mod len keys);
        rest ← operationsFrom count' (i + 1) (u64 (cursor + 31)) keys;
        Some ((if i mod 100 <? kReadPercent then Read key else Write key) :: rest)
  end.
Definition worker (threadIndex : Z) (count : nat) (keys : list bytes) : option (list Op) :=
  operationsFrom count 0 (u64 (threadIndex * 7919)) keys.

End Workloads.
End BenchDatabase.
