(* ===== verification/BenchSpec.v ===== *)
(** * Lemmas about the benchmarks

    The indices of the quantiles, the generated keys, and what filling a table or a
    database with them does. *)
From Stdlib Require Import SpecFloat.
From stdpp Require Import sorting.
From S2P Require Import Prelude.
From S2P Require Import Hash.
From S2P Require Import Text.
From S2P Require Import Table.
From S2P Require Import TableInv.
From S2P Require Import TableSpec.
From S2P Require Import Store.
From S2P Require Import StoreSpec.
From S2P Require Import StoreBulk.
From S2P Require Import TableSweep.
From S2P Require Import Snapshot.
From S2P Require Import SaveLoad.
From S2P Require Import Executor.
From S2P Require Import ExecutorSpec.
From S2P Require Import Doubles.
From S2P Require Import Bench.
Import bench.

#[local] Open Scope Z_scope.

(** ** Statistics *)

(** [x] is among the samples, at most the fraction [num/den] of the others is below it
    (rounded up) and at least that fraction is not above it. *)
Definition ranked (samples : list Double.t) (num den : Z) (x : Double.t) : Prop :=
  x ∈ samples /\
  den * len (filter (fun y => Double.ltb y x = true) samples) < num * (len samples - 1) + den /\
  num * (len samples - 1) <= den * len (filter (fun y => Double.le y x) samples).

(** A double that is [num/den] to the last place. *)
Definition nearly (q : Double.t) (num den : Z) : Prop :=
  exists mq, q = S754_finite false mq (-53) /\ 0 <= num * 2 ^ 53 - den * Zpos mq <= 8 /\
    0 < den /\ 0 <= num < den /\ Zpos mq < 2 ^ 53.

Lemma index_bounds q num den k : nearly q num den -> 0 <= k <= 2 ^ 50 ->
  exists z, quantileIndex q (k + 1) = Some z /\ 0 <= z <= k /\
    den * z < num * k + den /\ num * k <= den * (z + 1).
Proof.
  intros (mq & -> & Hq & Hden & Hnum & Hmq) Hk. unfold quantileIndex. replace (k + 1 - 1) with k by lia.
  destruct k as [|p|]; [exists 0; split; [done|lia]| |lia].
  destruct (Double.fraction_between mq 53 p ltac:(lia) Hmq ltac:(lia)) as (z & Hz & Hb).
  change (- (53)) with (-53) in Hz. exists z. split; [exact Hz|].
  set (x := Zpos mq * Zpos p) in *. pose proof (Z.div_mod x (2 ^ 53) ltac:(lia)) as Hdm.
  pose proof (Z.mod_pos_bound x (2 ^ 53) ltac:(lia)) as Hmod.
  assert (x / 2 ^ 53 <= z <= (x + (2 ^ 53 - 1)) / 2 ^ 53) as [Hlo Hhi].
  { apply Hb. pose proof (Z.div_mod (x + (2 ^ 53 - 1)) (2 ^ 53) ltac:(lia)).
    pose proof (Z.mod_pos_bound (x + (2 ^ 53 - 1)) (2 ^ 53) ltac:(lia)). lia. }
  assert ((x + (2 ^ 53 - 1)) / 2 ^ 53 * 2 ^ 53 < x + 2 ^ 53) as Hup.
  { pose proof (Z.div_mod (x + (2 ^ 53 - 1)) (2 ^ 53) ltac:(lia)).
    pose proof (Z.mod_pos_bound (x + (2 ^ 53 - 1)) (2 ^ 53) ltac:(lia)). lia. }
  assert (den * x <= num * Zpos p * 2 ^ 53 <= den * x + 8 * Zpos p) as Hx by (unfold x; nia).
  assert (z * 2 ^ 53 < x + 2 ^ 53 /\ x < (z + 1) * 2 ^ 53) as [Hz1 Hz2] by nia.
  assert (0 <= x / 2 ^ 53) by (apply Z.div_pos; lia).
  split_and!; [lia| | |].
  - assert (z - 1 < Zpos p); [|lia]. assert (x < 2 ^ 53 * Zpos p) by (unfold x; nia). nia.
  - assert (den * (z * 2 ^ 53) < den * x + den * 2 ^ 53) by nia. nia.
  - assert (den * x < den * ((z + 1) * 2 ^ 53)) by nia. nia.
Qed.

Lemma sorted_lookup_le l i j x y : Double.numbers l -> StronglySorted Double.le l ->
  l !! i = Some x -> l !! j = Some y -> (i <= j)%nat -> Double.le x y.
Proof.
  intros Hn Hs Hi Hj Hle. destruct (decide (i = j)) as [->|Hne].
  { simplify_eq. apply Double.le_refl. by eapply Forall_lookup_1 in Hn. }
  rewrite <- (take_drop_middle l i x Hi) in Hs, Hj.
  apply StronglySorted_app_1_r, StronglySorted_inv in Hs as [_ Hall].
  rewrite List.Forall_forall in Hall. apply Hall, list_elem_of_In.
  assert (i < length l)%nat by (by eapply lookup_lt_Some).
  rewrite lookup_app_r in Hj by (rewrite length_take; lia). rewrite length_take, Nat.min_l in Hj by lia.
  destruct (j - i)%nat eqn:E; [lia|]. by eapply list_elem_of_lookup_2.
Qed.

Lemma filter_len_perm (P : Double.t -> Prop) `{!forall x, Decision (P x)} l k :
  l ≡ₚ k -> len (filter P l) = len (filter P k).
Proof. intros Hp. unfold len. by rewrite Hp. Qed.

(** The sample at a quantile. *)
Lemma at_ranked samples q num den : nearly q num den -> samples <> [] -> Double.numbers samples ->
  len samples <= 2 ^ 50 ->
  exists z x, quantileIndex q (len samples) = Some z /\ 0 <= z < len samples /\
    Double.sort samples !! Z.to_nat z = Some x /\ sampleAt (Double.sort samples) q = Some x /\
    ranked samples num den x.
Proof.
  intros Hq Hne Hn Hlen. assert (1 <= len samples) as Hpos.
  { destruct samples; [done|]. rewrite len_cons. pose proof (len_nonneg samples). lia. }
  pose proof (Double.sort_perm samples) as Hp.
  assert (len (Double.sort samples) = len samples) as El by (unfold len; by rewrite Hp).
  destruct (index_bounds q num den (len samples - 1) Hq ltac:(lia)) as (z & Hz & Hzk & Hup & Hlo).
  replace (len samples - 1 + 1) with (len samples) in Hz by lia.
  destruct (lookup_lt_is_Some_2 (Double.sort samples) (Z.to_nat z)) as [x Hx]; [unfold len in *; lia|].
  assert (Double.numbers (Double.sort samples)) as Hn' by (unfold Double.numbers; by rewrite Hp).
  destruct (Double.sorted_rank _ _ _ Hn' (Double.sort_sorted _ Hn) Hx) as [Hb Ha].
  exists z, x. split_and!; try done; [lia|lia|unfold sampleAt; by rewrite El, Hz|].
  split_and!.
  - rewrite <- Hp. by eapply list_elem_of_lookup_2.
  - rewrite <- (filter_len_perm _ _ _ Hp). unfold len at 1. nia.
  - rewrite <- (filter_len_perm _ _ _ Hp). unfold len at 2. nia.
Qed.

(** The quantiles of the source. *)
Lemma nearly_50 : nearly (Double.literal 50 100) 1 2.
Proof. exists 4503599627370496%positive. split; [vm_compute; reflexivity|]. lia. Qed.
Lemma nearly_95 : nearly (Double.literal 95 100) 19 20.
Proof. exists 8556839292003942%positive. split; [vm_compute; reflexivity|]. lia. Qed.
Lemma nearly_99 : nearly (Double.literal 99 100) 99 100.
Proof. exists 8917127262193582%positive. split; [vm_compute; reflexivity|]. lia. Qed.

(** For few samples the indices are computed. *)
Lemma indices_few : forallb (fun k =>
  match quantileIndex (Double.literal 50 100) (Z.of_nat k), quantileIndex (Double.literal 95 100) (Z.of_nat k),
        quantileIndex (Double.literal 99 100) (Z.of_nat k) with
  | Some a, Some b, Some c => (a <=? b) && (b <=? c)
  | _, _, _ => false
  end) (seq 1 100) = true.
Proof. vm_compute. reflexivity. Qed.

Lemma indices_ordered n a b c : 1 <= n <= 2 ^ 50 ->
  quantileIndex (Double.literal 50 100) n = Some a -> quantileIndex (Double.literal 95 100) n = Some b ->
  quantileIndex (Double.literal 99 100) n = Some c -> a <= b <= c.
Proof.
  intros Hn Ha Hb Hc. destruct (decide (n <= 100)).
  - pose proof indices_few as Hf. rewrite forallb_forall in Hf.
    specialize (Hf (Z.to_nat n) ltac:(apply in_seq; lia)). rewrite Z2Nat.id, Ha, Hb, Hc in Hf by lia.
    apply andb_prop in Hf as [?%Z.leb_le ?%Z.leb_le]. lia.
  - destruct (index_bounds _ _ _ (n - 1) nearly_50 ltac:(lia)) as (z1 & H1 & _ & U1 & L1).
    destruct (index_bounds _ _ _ (n - 1) nearly_95 ltac:(lia)) as (z2 & H2 & _ & U2 & L2).
    destruct (index_bounds _ _ _ (n - 1) nearly_99 ltac:(lia)) as (z3 & H3 & _ & U3 & L3).
    replace (n - 1 + 1) with n in * by lia. rewrite Ha in H1. rewrite Hb in H2. rewrite Hc in H3.
    injection H1 as <-. injection H2 as <-. injection H3 as <-. lia.
Qed.

(** ** Workloads on the table *)

Section Tables.
Context `{Platform}.

(** What a table holds after it has been filled. *)
Definition filled (m : gmap bytes Entry) (keys : list bytes) (value : bytes) (m' : gmap bytes Entry) : Prop :=
  forall k, m' !! k = if decide (k ∈ keys) then Some (mkEntry k value None) else m !! k.

Lemma filled_cons m key keys value m' :
  filled (<[key := mkEntry key value None]> m) keys value m' -> filled m (key :: keys) value m'.
Proof.
  intros Hf k. rewrite Hf. destruct (decide (k ∈ keys)) as [Hin|Hout].
  - by rewrite decide_True by (by constructor).
  - destruct (decide (k = key)) as [->|Hne].
    + by rewrite lookup_insert_eq, decide_True by constructor.
    + rewrite lookup_insert_ne by done. rewrite decide_False; [done|]. by intros [?|?]%elem_of_cons.
Qed.

Lemma len_nil {A} : len (@nil A) = 0.
Proof. done. Qed.

Lemma toFront_len k r : len (toFront k r) <= len r + 1.
Proof. unfold toFront, dropKey. rewrite len_cons. unfold len. pose proof (length_filter (fun x => x <> k) r). lia. Qed.

Lemma fill_rep keys ht m r value : Rep ht m r -> len r + len keys <= maxEntries ->
  exists ht' m' r', BenchHashTable.fillTable ht keys value = Some ht' /\ Rep ht' m' r' /\ filled m keys value m' /\
    (0 < HashTable.bucketCount ht -> 4 * (len r + len keys) <= 3 * HashTable.bucketCount ht ->
      HashTable.bucketCount ht' = HashTable.bucketCount ht).
Proof.
  revert ht m r. induction keys as [|key keys IH]; intros ht m r HR Hlen.
  { exists ht, m, r. by split_and!. }
  rewrite len_cons in *. pose proof (len_nonneg keys). pose proof (toFront_len key r).
  destruct (put_rep ht m r key value HR) as (ht1 & Hput & HR1 & Hb & Hpos & Hsame); [lia|].
  destruct (IH _ _ _ HR1) as (ht' & m' & r' & Hf & HR' & Hm' & Hb'); [lia|].
  exists ht', m', r'. split_and!; [|done|by apply filled_cons|].
  - unfold BenchHashTable.fillTable in *. simpl. rewrite Hput. simpl. exact Hf.
  - intros Hn0 Hn4. destruct (Z.eqb_spec (HashTable.bucketCount ht) 0); [lia|]. cbn zeta in Hsame.
    destruct Hsame as [E|[? _]]; [|lia]. rewrite Hb'; lia.
Qed.

Lemma removeAll_rep keys ht m r : Rep ht m r ->
  exists ht' m' r', BenchHashTable.removeAll ht keys = Some ht' /\ Rep ht' m' r' /\
    forall k, m' !! k = if decide (k ∈ keys) then None else m !! k.
Proof.
  revert ht m r. induction keys as [|key keys IH]; intros ht m r HR.
  { exists ht, m, r. by split_and!. }
  destruct (remove_rep ht m r key HR) as (ht1 & Hrm & HR1 & _).
  destruct (IH _ _ _ HR1) as (ht' & m' & r' & Hf & HR' & Hm'). exists ht', m', r'. split_and!; [|done|].
  - unfold BenchHashTable.removeAll in *. simpl. rewrite Hrm. simpl. exact Hf.
  - intros k. rewrite Hm'. destruct (decide (k ∈ keys)) as [Hin|Hout]; [by rewrite decide_True by (by constructor)|].
    destruct (decide (k = key)) as [->|Hne].
    + by rewrite lookup_delete_eq, decide_True by constructor.
    + rewrite lookup_delete_ne by done. rewrite decide_False; [done|]. by intros [?|?]%elem_of_cons.
Qed.

Lemma lookups_filled ht m r keys keys' value : Rep ht m r -> filled ∅ keys value m ->
  BenchHashTable.lookups ht keys' = Some ((fun k => if decide (k ∈ keys) then Some value else None) <$> keys').
Proof.
  intros HR Hf. unfold BenchHashTable.lookups. apply mapM_total. intros k _.
  unfold HashTable.get. rewrite (find_rep _ _ _ k HR), Hf, lookup_empty. by case_decide.
Qed.

Lemma fmap_all {A B} (f : A -> B) y l : (forall x, x ∈ l -> f x = y) -> f <$> l = replicate (length l) y.
Proof.
  induction l as [|x l IH]; intros Hf; simpl; [done|]. f_equal; [apply Hf; by left|].
  apply IH. intros z Hz. apply Hf. by right.
Qed.

(** Keys made with different prefixes are different. *)
Lemma makeKeys_prefix count prefix k : k ∈ makeKeys count prefix -> exists number, k = prefix ++ to_string number.
Proof.
  unfold makeKeys. generalize (mt19937_64.seed kSeed) as rng. induction count as [|count IH]; intros rng; simpl.
  - by intros ?%not_elem_of_nil.
  - destruct (mt19937_64.next rng) as [rng' number]. intros [->|Hin]%elem_of_cons; [by eexists|by eapply IH].
Qed.

Lemma makeKeys_len count prefix : len (makeKeys count prefix) = Z.of_nat count.
Proof.
  unfold makeKeys, len. generalize (mt19937_64.seed kSeed) as rng. induction count as [|count IH]; intros rng; simpl; [done|].
  destruct (mt19937_64.next rng) as [rng' number]. simpl. specialize (IH rng'). lia.
Qed.

End Tables.

(** ** Workloads on the database *)

(** *** How long a generated key is *)

Definition word (x : Z) : Prop := 0 <= x < 2 ^ 64.

Lemma word_land a b : word a -> 0 <= b -> word (Z.land a b).
Proof.
  intros Ha Hb. assert (0 <= Z.land a b) as Hp by (apply Z.land_nonneg; by left; apply Ha).
  split; [done|]. apply range_of_bits; [lia|done|]. intros i Hi.
  rewrite Z.land_spec, (bits_above a 64) by (unfold word in Ha; lia). done.
Qed.

Lemma word_lor a b : word a -> word b -> word (Z.lor a b).
Proof.
  intros Ha Hb. assert (0 <= Z.lor a b) as Hp by (apply Z.lor_nonneg; split; [apply Ha|apply Hb]).
  split; [done|]. apply range_of_bits; [lia|done|]. intros i Hi.
  by rewrite Z.lor_spec, (bits_above a 64), (bits_above b 64) by (unfold word in Ha, Hb; lia).
Qed.

Lemma word_lxor a b : word a -> word b -> word (Z.lxor a b).
Proof. apply lxor_range. lia. Qed.

Lemma word_shiftr a k : 0 <= k -> word a -> word (Z.shiftr a k).
Proof. intros Hk Ha. by apply shiftr_range. Qed.

Lemma word_u64 z : word (u64 z).
Proof. apply u64_range. Qed.

Create HintDb words.
#[local] Hint Resolve word_land word_lor word_lxor word_shiftr word_u64 : words.
#[local] Hint Extern 1 (_ <= _) => vm_compute; congruence : words.

Lemma word_temper x : word x -> word (mt19937_64.temper x).
Proof. intros Hx. unfold mt19937_64.temper. cbv zeta. auto 20 with words. Qed.

Lemma word_twist a b c : word a -> word b -> word c -> word (mt19937_64.twist a b c).
Proof.
  intros Ha Hb Hc. unfold mt19937_64.twist. apply word_lxor; [auto 20 with words|]. by destruct (Z.odd _).
Qed.

Lemma seed_words value : Forall word (mt19937_64.seed value).
Proof.
  unfold mt19937_64.seed. generalize mt19937_64.word_count as k. intros k. generalize 0 as i.
  assert (word (u64 value)) as Hx by apply u64_range. revert Hx. generalize (u64 value) as x.
  induction k as [|k IH]; intros x Hx i; simpl; constructor; [done|]. apply IH, u64_range.
Qed.

Lemma next_words st : Forall word st -> Forall word (mt19937_64.next st).1 /\ word (mt19937_64.next st).2.
Proof.
  intros Hst. destruct st as [|x0 [|x1 rest]]; [done|done|]. cbn [mt19937_64.next].
  set (x := mt19937_64.twist x0 x1 _). assert (word x) as Hx.
  { pose proof Hst as Hst'. apply Forall_cons in Hst' as [H0 Hst']. apply Forall_cons in Hst' as [H1 _].
    apply word_twist; [done|done|]. rewrite List.Forall_forall in Hst.
    destruct (nth_in_or_default mt19937_64.shift_size (x0 :: x1 :: rest) 0) as [Hin| ->]; [by apply Hst|done]. }
  apply Forall_cons in Hst as [_ Hst]. split; [|by apply word_temper].
  simpl. change (x1 :: rest ++ [x]) with ((x1 :: rest) ++ [x]). apply Forall_app. by rewrite Forall_singleton.
Qed.

Lemma decimalDigits_len fuel n acc : len (decimalDigits fuel n acc) <= Z.of_nat fuel + 1 + len acc.
Proof.
  revert n acc. induction fuel as [|fuel IH]; intros n acc; simpl decimalDigits; [rewrite len_cons; lia|].
  destruct (n <? 10); [rewrite len_cons; lia|]. etransitivity; [apply IH|]. rewrite len_cons. lia.
Qed.

Lemma makeKeys_short count prefix k : k ∈ makeKeys count prefix -> len k <= len prefix + 65.
Proof.
  unfold makeKeys. assert (Forall word (mt19937_64.seed kSeed)) as Hw by apply seed_words.
  revert Hw. generalize (mt19937_64.seed kSeed) as rng. induction count as [|count IH]; intros rng Hw; simpl.
  - by intros ?%not_elem_of_nil.
  - destruct (next_words rng Hw) as [Hw' Hn]. destruct (mt19937_64.next rng) as [rng' number].
    intros [->|Hin]%elem_of_cons; [|by eapply IH]. rewrite len_app. unfold to_string.
    unfold word in Hn. simpl in Hn. destruct (Z.ltb_spec number 0); [lia|].
    pose proof (decimalDigits_len (Z.to_nat (Z.log2 number)) number []) as Hd. rewrite len_nil in Hd.
    assert (Z.log2 number < 64) by (destruct (decide (number = 0)) as [->|]; [done|apply Z.log2_lt_pow2; lia]).
    lia.
Qed.

(** *** A limit that is never reached *)

Section Databases.
Context `{Platform}.
Import Database.

Lemma u64_le z : 0 <= z -> u64 z <= z.
Proof. intros Hz. unfold u64. apply Z.mod_le; lia. Qed.

Lemma sumZ_le {A} (f : A -> Z) b l : (forall x, x ∈ l -> f x <= b) -> sumZ f l <= b * len l.
Proof.
  induction l as [|x l IH]; intros Hf; [unfold len; simpl; lia|]. rewrite len_cons. simpl.
  specialize (IH ltac:(intros y Hy; apply Hf; by right)). pose proof (Hf x ltac:(by left)). lia.
Qed.

Variables F B N : Z.

(** Entries of at most [F] bytes, at most [N] of them, and at most [B] buckets in each
    shard are within the slice of a shard. *)
Record roomy (db : t) (m : gmap bytes Entry) (rs : list (list bytes)) : Prop := {
  ro_rep : dbRep db m rs;
  ro_entry : forall k e, m !! k = Some e -> HashTable.footprintEstimate (ekey e) (evalue e) <= F;
  ro_buckets : forall sh, sh ∈ shards_ db -> HashTable.bucketCount (table sh) <= B;
  ro_slice : F * N + B * sizeofUniquePtr <= sliceOf (maxMemoryBytes_ db) (len (shards_ db));
  ro_limit : F <= maxMemoryBytes_ db
}.

Lemma usage_roomy (m : gmap bytes Entry) l n : 0 <= F -> 0 <= n <= B -> len l <= N ->
  (forall k e, m !! k = Some e -> 0 <= HashTable.footprintEstimate (ekey e) (evalue e) <= F) ->
  usage m l n <= F * N + B * sizeofUniquePtr.
Proof.
  intros HF Hn Hl Hm. pose proof sizeofUniquePtr_range. pose proof (len_nonneg l).
  assert (forall k, 0 <= entryFootprint m k <= F) as Hf.
  { intros k. unfold entryFootprint. destruct (m !! k) eqn:E; [by eapply Hm|lia]. }
  assert (sumZ (entryFootprint m) l <= F * len l) as Hs1 by (apply sumZ_le; intros; apply Hf).
  assert (0 <= sumZ (entryFootprint m) l) as Hs0 by (apply sumZ_nonneg; intros; apply Hf).
  unfold usage. set (x := sumZ (entryFootprint m) l) in *. clearbody x. set (y := n * sizeofUniquePtr).
  assert (0 <= y <= B * sizeofUniquePtr) as Hy by (unfold y; nia). clearbody y.
  pose proof (u64_le x Hs0). pose proof (u64_le y ltac:(lia)). pose proof (u64_range x). pose proof (u64_range y).
  pose proof (u64_le (u64 x + u64 y) ltac:(lia)). nia.
Qed.

Lemma set_roomy db m rs key value :
  roomy db m rs -> HashTable.footprintEstimate key value <= F -> 16 <= B -> 8 * N <= 3 * B ->
  Z.of_nat (base.size m) < N <= maxEntries ->
  exists db' rs' o, Database.set db key value = Some (db', o) /\
    roomy db' (<[key := mkEntry key value None]> m) rs'.
Proof.
  intros [HD Hent Hbk Hsl Hli] Hf HB HN Hsz.
  assert (0 <= HashTable.footprintEstimate key value) by (unfold HashTable.footprintEstimate; apply u64_range).
  destruct (shardFor_rep db m rs key HD) as (sh & r & Hsh & Hr & HR & Hslice).
  assert (len r + 1 <= N) as Hr1.
  { pose proof (Rep_map_size _ _ _ HR) as Hs. destruct (Rep_size _ _ _ HR) as [Hz _].
    unfold HashTable.size in Hs. pose proof (shardMap_size db m (shardIndexFor db key)). lia. }
  assert (sh ∈ shards_ db) as Hin by (by eapply list_elem_of_lookup_2).
  destruct (put_rep (table sh) _ r key value HR) as (ht & Hput & HR1 & Hb1 & Hb2 & Hb3); [lia|]. cbn zeta in Hb3.
  assert (HashTable.bucketCount ht <= B) as HbB
    by (specialize (Hbk _ Hin); destruct (Z.eqb_spec (HashTable.bucketCount (table sh)) 0); lia).
  destruct (write_and_evict db m rs key sh ht _ r HD Hsh HR1) as (sh' & r' & vs & Hev & HE & HD' & _ & _ & _ & Hb').
  set (m' := <[key := mkEntry key value None]> m) in *.
  assert (forall k e, m' !! k = Some e -> HashTable.footprintEstimate (ekey e) (evalue e) <= F) as Hent'.
  { intros k e. unfold m'. destruct (decide (k = key)) as [->|Hne].
    - rewrite lookup_insert_eq. by intros [= <-].
    - rewrite lookup_insert_ne by done. apply Hent. }
  assert (vs = []) as ->.
  { destruct vs as [|v vs]; [done|]. exfalso. pose proof (ev_split _ _ _ _ _ _ HE) as Es. 
    pose proof (ev_needed _ _ _ _ _ _ HE (length (toFront key r))) as Hn. rewrite firstn_all, Hslice in Hn.
    assert (usage m' (toFront key r) (HashTable.bucketCount ht) <= F * N + B * sizeofUniquePtr).
    { apply usage_roomy; [lia|lia|pose proof (toFront_len key r); lia|]. intros k e He.
      split; [unfold HashTable.footprintEstimate; apply u64_range|by eapply Hent']. }
    apply (f_equal length) in Es. rewrite length_app in Es. cbn [length] in Es. specialize (Hn ltac:(lia)). lia. }
  exists (storeShard db key sh'), (<[shardIndexFor db key := r']> rs). eexists. split.
  { unfold Database.set. rewrite Hsh. simpl. assert (fitsWithinLimit db key value = true) as ->.
    { unfold fitsWithinLimit. cbv zeta. destruct (maxMemoryBytes_ db =? 0); [done|]. apply Z.leb_le. lia. }
    simpl. rewrite Hput. simpl. rewrite Hev. simpl. reflexivity. }
  rewrite dropKeys_nil in HD'.
  split; [exact HD'|done| |..]; simpl; unfold len in *; rewrite ?length_insert; try done.
  intros sh0 Hin0. apply list_elem_of_lookup in Hin0 as [i Hi]. apply list_lookup_insert_Some in Hi as [(_ & <- & _)|(_ & Hi)].
  - by rewrite Hb'.
  - apply Hbk. by eapply list_elem_of_lookup_2.
Qed.

Lemma fill_roomy keys db m rs value : roomy db m rs ->
  (forall k, k ∈ keys -> HashTable.footprintEstimate k value <= F) -> 16 <= B -> 8 * N <= 3 * B ->
  Z.of_nat (base.size m) + len keys < N <= maxEntries ->
  exists db' m' rs', BenchDatabase.fillDatabase db keys value = Some db' /\ roomy db' m' rs' /\ filled m keys value m'.
Proof.
  intros Hro Hf HB HN. revert db m rs Hro. induction keys as [|key keys IH]; intros db m rs Hro Hlen.
  { exists db, m, rs. by split_and!. }
  rewrite len_cons in Hlen. pose proof (len_nonneg keys).
  destruct (set_roomy db m rs key value Hro) as (db1 & rs1 & o & Hset & Hro1); [apply Hf; by left|done|done|lia|].
  destruct (IH ltac:(intros k Hk; apply Hf; by right) _ _ _ Hro1) as (db' & m' & rs' & Hfill & Hro' & Hm').
  { assert (Z.of_nat (base.size (<[key := mkEntry key value None]> m)) <= Z.of_nat (base.size m) + 1); [|lia].
    rewrite map_size_insert. destruct (m !! key); simpl; lia. }
  exists db', m', rs'. split_and!; [|done|by apply filled_cons].
  unfold BenchDatabase.fillDatabase in *. simpl. rewrite Hset. simpl. exact Hfill.
Qed.
End Databases.

(** The database of the benchmark, still empty. *)
Definition emptyMeasured : option Database.t :=
  db ← Database.new HashTable.kDefaultBucketCount BenchDatabase.kDefaultShardCount;
  Database.setMaxMemory (H := lp64) db BenchDatabase.roomyLimit.

Lemma emptyMeasured_roomy : exists db rs, emptyMeasured = Some db /\ roomy (H := lp64) 300 266670 100001 db ∅ rs.
Proof.
  assert (match emptyMeasured with
    | Some db => forallb (fun sh => HashTable.bucketCount (Database.table sh) <=? 16) (Database.shards_ db) &&
        (len (Database.shards_ db) =? 64)
    | None => false end = true) as Hb by (vm_compute; reflexivity).
  unfold emptyMeasured in *.
  destruct (new_db_rep (H := lp64) HashTable.kDefaultBucketCount BenchDatabase.kDefaultShardCount)
    as (db & Hdb & HD & _); [vm_compute; split; congruence..|]. rewrite Hdb in *. simpl in *.
  destruct (setMaxMemory_rep (H := lp64) db ∅ _ BenchDatabase.roomyLimit HD ltac:(vm_compute; congruence))
    as (db' & rs' & vss & Hset & HD' & Hlim & _). rewrite Hset in *. apply andb_prop in Hb as [Hb Hlen%Z.eqb_eq].
  exists db', rs'. split; [done|]. split.
  - assert (dropKeys (concat vss) ∅ = ∅) as E; [|by rewrite E in HD'].
    apply map_eq. intros k. rewrite dropKeys_lookup, lookup_empty. by case_decide.
  - intros k e He. by rewrite lookup_empty in He.
  - intros sh Hin. rewrite forallb_forall in Hb. apply list_elem_of_In, Hb, Z.leb_le in Hin. lia.
  - rewrite Hlim, Hlen. vm_compute. congruence.
  - rewrite Hlim. vm_compute. congruence.
Qed.

(** *** The mix of reads and writes *)

Definition isRead (op : BenchDatabase.Op) : bool := match op with BenchDatabase.Read _ => true | _ => false end.
Definition keyOf (op : BenchDatabase.Op) : bytes := match op with BenchDatabase.Read k | BenchDatabase.Write k => k end.

(** How many of the rounds from [i] on read. *)
Fixpoint readsFrom (count : nat) (i : Z) : Z :=
  match count with O => 0 | S count' => (if i mod 100 <? 90 then 1 else 0) + readsFrom count' (i + 1) end.

Lemma operationsFrom_reads count i cursor keys : keys <> [] -> word cursor ->
  exists ops, BenchDatabase.operationsFrom count i cursor keys = Some ops /\ length ops = count /\
    Forall (fun op => keyOf op ∈ keys) ops /\ len (List.filter isRead ops) = readsFrom count i.
Proof.
  intros Hne. revert i cursor. induction count as [|count IH]; intros i cursor Hc; simpl; [by exists []|].
  assert (0 < len keys) as Hlen by (destruct keys as [|k ks]; [done|]; rewrite len_cons; pose proof (len_nonneg ks); lia).
  destruct (Z.eqb_spec (len keys) 0); [lia|]. pose proof (Z.mod_pos_bound cursor (len keys) Hlen).
  destruct (lookup_lt_is_Some_2 keys (Z.to_nat (cursor mod len keys))) as [key Hk]; [unfold len in *; lia|].
  rewrite Hk. simpl. destruct (IH (i + 1) (u64 (cursor + 31)) (word_u64 _)) as (ops & -> & Hl & Hks & Hrd). simpl.
  eexists. split; [done|]. unfold BenchDatabase.kReadPercent. split_and!.
  - simpl. by rewrite Hl.
  - constructor; [|done]. destruct (i mod 100 <? 90); by eapply list_elem_of_lookup_2.
  - destruct (i mod 100 <? 90); cbn [List.filter isRead]; [rewrite len_cons|]; lia.
Qed.

Lemma readsFrom_app a b i : readsFrom (a + b) i = readsFrom a i + readsFrom b (i + Z.of_nat a).
Proof.
  revert i. induction a as [|a IH]; intros i; simpl readsFrom; [by rewrite Z.add_0_r|]. rewrite IH.
  replace (i + 1 + Z.of_nat a) with (i + Z.of_nat (S a)) by lia. lia.
Qed.

Lemma readsFrom_period count i : readsFrom count (i + 100) = readsFrom count i.
Proof.
  revert i. induction count as [|count IH]; intros i; simpl; [done|].
  replace (i + 100) with (i + 1 * 100) at 1 by lia. rewrite Z.mod_add by lia. f_equal.
  replace (i + 100 + 1) with (i + 1 + 100) by lia. apply IH.
Qed.

Lemma readsFrom_blocks n : readsFrom (100 * n) 0 = 90 * Z.of_nat n.
Proof.
  induction n as [|n IH]; [done|]. replace (100 * S n)%nat with (100 + 100 * n)%nat by lia.
  rewrite readsFrom_app. change (0 + Z.of_nat 100) with (0 + 100). rewrite readsFrom_period, IH.
  change (readsFrom 100 0) with 90. lia.
Qed.
