(* ===== verification/BenchClaims.v ===== *)
(** * Theorems about the benchmarks *)
From Stdlib Require Import SpecFloat.
From stdpp Require Import sorting.
From S2P Require Import Prelude.
From S2P Require Import Hash.
From S2P Require Import Text.
From S2P Require Import Table.
From S2P Require Import TableInv.
From S2P Require Import TableSpec.
From S2P Require Import Store.
From S2P Require Import StoreSpec.
From S2P Require Import StoreBulk.
From S2P Require Import TableSweep.
From S2P Require Import Snapshot.
From S2P Require Import SaveLoad.
From S2P Require Import Executor.
From S2P Require Import ExecutorSpec.
From S2P Require Import Doubles.
From S2P Require Import Bench.
From S2P Require Import BenchSpec.
Import bench.

#[local] Open Scope Z_scope.

(** C39: the percentiles a benchmark reports are percentiles.  For any samples without a
    NaN, [summarise] is defined, in spite of an index computed in floating point: what
    it reports are samples, at least 50, 95 and 99 percent of the samples are not above
    them, no more than that (up to one sample) are below, they are in order, and the
    last one is the greatest sample. *)
Theorem summarise_ranks samples :
  samples <> [] -> Double.numbers samples -> len samples <= 2 ^ 50 ->
  exists l, summarise samples = Some l /\
    ranked samples 1 2 (p50 l) /\ ranked samples 19 20 (p95 l) /\ ranked samples 99 100 (p99 l) /\
    max l ∈ samples /\ (forall x, x ∈ samples -> Double.le x (max l)) /\
    Double.le (p50 l) (p95 l) /\ Double.le (p95 l) (p99 l) /\ Double.le (p99 l) (max l).
Proof.
  intros Hne Hn Hlen.
  destruct (at_ranked _ _ _ _ nearly_50 Hne Hn Hlen) as (a & x & Ha & Hra & Hxa & Hx & Hx').
  destruct (at_ranked _ _ _ _ nearly_95 Hne Hn Hlen) as (b & y & Hb & Hrb & Hyb & Hy & Hy').
  destruct (at_ranked _ _ _ _ nearly_99 Hne Hn Hlen) as (c & z & Hc & Hrc & Hzc & Hz & Hz').
  pose proof (Double.sort_perm samples) as Hp.
  assert (Double.numbers (Double.sort samples)) as Hn' by (unfold Double.numbers; by rewrite Hp).
  pose proof (Double.sort_sorted _ Hn) as Hs.
  assert (length (Double.sort samples) = length samples) as El by (by rewrite Hp).
  destruct (lookup_lt_is_Some_2 (Double.sort samples) (length samples - 1)) as [w Hw]; [unfold len in *; lia|].
  pose proof (indices_ordered (len samples) a b c ltac:(lia) Ha Hb Hc) as Hord.
  assert (last (Double.sort samples) = Some w) as Hlast.
  { rewrite last_lookup, El. by rewrite <- Nat.sub_1_r. }
  eexists. split.
  { unfold summarise. destruct samples; [by destruct Hne|]. cbv zeta. rewrite Hx, Hy, Hz, Hlast. reflexivity. }
  cbn [p50 p95 p99 max]. do 3 (split; [assumption|]). repeat apply conj.
  - rewrite <- Hp. by eapply list_elem_of_lookup_2.
  - intros v Hv. rewrite <- Hp in Hv. apply list_elem_of_lookup in Hv as [i Hi].
    assert (i < length samples)%nat by (rewrite <- El; by eapply lookup_lt_Some).
    eapply sorted_lookup_le; [done|done|exact Hi|exact Hw|lia].
  - eapply sorted_lookup_le; [done|done|exact Hxa|exact Hyb|lia].
  - eapply sorted_lookup_le; [done|done|exact Hyb|exact Hzc|lia].
  - eapply sorted_lookup_le; [done|done|exact Hzc|exact Hw|unfold len in *; lia].
Qed.

(** The median a benchmark reports is the time of one of its runs, no more than half of
    the others were faster and at least half were not slower; the body runs once
    before the clock is read.  With no repetitions the result is undefined. *)
Theorem timeMedian_median {St} (body : St -> option St) clocks st st1 st2 timings :
  body st = Some st1 -> timedRuns body clocks st1 = Some (st2, timings) ->
  Double.numbers timings -> clocks <> [] ->
  exists t, timeMedian body clocks st = Some (st2, t) /\ t ∈ timings /\
    len (filter (fun y => Double.ltb y t = true) timings) <= len clocks / 2 /\
    len clocks / 2 + 1 <= len (filter (fun y => Double.le y t) timings).
Proof.
  intros Hb Hr Hn Hne.
  assert (length timings = length clocks) as El.
  { clear -Hr. revert st1 timings Hr. induction clocks as [|[a b] clocks IH]; intros st timings Hr; simpl in Hr; [by simplify_eq|].
    destruct (body st) as [st'|]; [|done]. simpl in Hr.
    destruct (timedRuns body clocks st') as [[st'' ts]|] eqn:E; simplify_eq/=. by erewrite IH. }
  pose proof (Double.sort_perm timings) as Hp.
  assert (Double.numbers (Double.sort timings)) as Hn' by (unfold Double.numbers; by rewrite Hp).
  assert (length (Double.sort timings) = length timings) as El' by (by rewrite Hp).
  assert (0 < length clocks)%nat by (destruct clocks; simpl; [done|lia]).
  pose proof (Nat.div_lt (length timings) 2 ltac:(lia) ltac:(lia)) as Hlt.
  destruct (lookup_lt_is_Some_2 (Double.sort timings) (length timings / 2)) as [t Ht]; [by rewrite El'|].
  destruct (Double.sorted_rank _ _ _ Hn' (Double.sort_sorted _ Hn) Ht) as [H1 H2].
  exists t. split; [unfold timeMedian; rewrite Hb; cbn [mbind option_bind]; rewrite Hr; cbn [mbind option_bind]; by rewrite Ht|].
  rewrite <- !(filter_len_perm _ _ _ Hp). unfold len. rewrite <- El.
  assert (Z.of_nat (length timings) / 2 = Z.of_nat (length timings / 2)) as -> by (by rewrite Nat2Z.inj_div).
  split_and!; [|lia|lia]. rewrite <- Hp. by eapply list_elem_of_lookup_2.
Qed.

Section Tables.
Context `{Platform}.

(** The lookup benchmarks measure what their titles say: every timed lookup of the one
    finds its value, none of the other finds anything. *)
Theorem lookup_benchmarks count : Z.of_nat count <= maxEntries ->
  BenchHashTable.lookupHit count = Some (replicate count (Some (BenchHashTable.payload 64))) /\
  BenchHashTable.lookupMiss count = Some (replicate count None).
Proof.
  intros Hc. unfold BenchHashTable.lookupHit, BenchHashTable.lookupMiss. cbv zeta.
  set (present := makeKeys count (bs "key:")). set (missing := makeKeys count (bs "absent:")).
  destruct (fill_rep present (HashTable.new HashTable.kDefaultBucketCount) ∅ [] (BenchHashTable.payload 64))
    as (ht & m & r & -> & HR & Hf & _); [apply new_rep; vm_compute; split; congruence|unfold present; by rewrite makeKeys_len|].
  cbn [mbind option_bind]. rewrite !(lookups_filled _ _ _ _ _ _ HR Hf).
  assert (length present = count /\ length missing = count) as [E1 E2]
    by (pose proof (makeKeys_len count (bs "key:")); pose proof (makeKeys_len count (bs "absent:")); unfold len, present, missing in *; split; lia).
  split; f_equal; [rewrite <- E1|rewrite <- E2]; apply fmap_all; intros k Hk.
  - by rewrite decide_True.
  - rewrite decide_False; [done|]. intros Hk'. apply makeKeys_prefix in Hk as [a ->], Hk' as [b Hb]. discriminate Hb.
Qed.

(** The insertion benchmark ends with every key in the table, the deletion benchmark
    with an empty one, whatever the keys, repetitions included. *)
Theorem insertion_deletion keys : len keys <= maxEntries ->
  (exists ht, BenchHashTable.insertion keys = Some ht /\
    forall k, k ∈ keys -> HashTable.get ht k = Some (Some (BenchHashTable.payload 64))) /\
  (exists ht, BenchHashTable.deletion keys = Some ht /\ HashTable.isEmpty ht = true).
Proof.
  intros Hlen. unfold BenchHashTable.insertion, BenchHashTable.deletion.
  destruct (fill_rep keys (HashTable.new HashTable.kDefaultBucketCount) ∅ [] (BenchHashTable.payload 64))
    as (ht & m & r & Hf & HR & Hm & _); [apply new_rep; vm_compute; split; congruence|by rewrite len_nil|].
  rewrite Hf. split.
  - exists ht. split; [done|]. intros k Hk. unfold HashTable.get. by rewrite (find_rep _ _ _ k HR), Hm, decide_True.
  - cbn [mbind option_bind]. destruct (removeAll_rep keys ht m r HR) as (ht' & m' & r' & Hr & HR' & Hm').
    exists ht'. split; [exact Hr|]. rewrite (Rep_empty _ _ _ HR'). apply map_eq. intros k.
    rewrite Hm', Hm, lookup_empty. by destruct (decide (k ∈ keys)).
Qed.

(** Telling the table how many keys are coming removes rehashing from the measurement:
    the number of buckets never changes while the pre-sized table is filled. *)
Theorem preSized_no_rehash count k : (k <= count)%nat -> Z.of_nat count <= maxEntries ->
  exists ht, BenchHashTable.preSized count (take k (makeKeys count (bs "key:"))) = Some ht /\
    HashTable.bucketCount ht = HashTable.bucketCount (HashTable.new (u64 (Z.of_nat count * 2))).
Proof.
  intros Hk Hc. unfold BenchHashTable.preSized. unfold maxEntries in Hc. rewrite u64_small by lia.
  assert (len (take k (makeKeys count (bs "key:"))) <= Z.of_nat count) as Hlen.
  { rewrite <- (makeKeys_len count (bs "key:")). unfold len. rewrite length_take. lia. }
  destruct (fill_rep (take k (makeKeys count (bs "key:"))) (HashTable.new (Z.of_nat count * 2)) ∅ []
    (BenchHashTable.payload 64)) as (ht & m & r & Hf & _ & _ & Hb); [apply new_rep; lia|unfold maxEntries; rewrite len_nil; lia|].
  exists ht. split; [exact Hf|].
  assert (Z.of_nat count * 2 <= HashTable.bucketCount (HashTable.new (Z.of_nat count * 2)) /\
    0 < HashTable.bucketCount (HashTable.new (Z.of_nat count * 2))) as [Hlo Hpos].
  { unfold HashTable.bucketCount, HashTable.new, len. simpl. rewrite length_replicate.
    destruct (Z.le_gt_cases (Z.of_nat count * 2) 1) as [H1|H1].
    - unfold roundUpToPowerOfTwo. rewrite (proj2 (Z.leb_le _ _)) by lia. lia.
    - rewrite roundUpToPowerOfTwo_value by lia. pose proof (Z.log2_up_spec (Z.of_nat count * 2) ltac:(lia)) as [_ Hs].
      assert (2 ^ Z.log2_up (Z.of_nat count * 2) <= 2 ^ 63) by (apply Z.pow_le_mono_r; [lia|apply log2_up_le_63; lia]).
      rewrite u64_small by lia. lia. }
  apply Hb; [done|]. rewrite len_nil. lia.
Qed.
End Tables.

(** The limit of the benchmark on the cost of recency tracking is large enough that
    nothing is ever evicted, so that it measures the tracking and not eviction: with
    any number of its keys in the database all of them are there, and every GET of one
    finds its value. *)
Theorem roomy_limit_evicts_nothing count : Z.of_nat count <= BenchDatabase.kKeyCount ->
  exists db m rs, BenchDatabase.measured (H := lp64) BenchDatabase.roomyLimit (makeKeys count (bs "key:")) = Some db /\
    dbRep (H := lp64) db m rs /\ filled ∅ (makeKeys count (bs "key:")) (BenchHashTable.payload 64) m /\
    forall k now, k ∈ makeKeys count (bs "key:") ->
      exists db', Database.get db k now = Some (db', Some (BenchHashTable.payload 64)).
Proof.
  intros Hc. unfold BenchDatabase.kKeyCount in Hc. destruct emptyMeasured_roomy as (db0 & rs0 & Hdb0 & Hro).
  destruct (fill_roomy (H := lp64) 300 266670 100001 (makeKeys count (bs "key:")) db0 ∅ rs0 (BenchHashTable.payload 64) Hro)
    as (db & m & rs & Hfill & Hro' & Hm); [|lia|lia|rewrite makeKeys_len, map_size_empty; unfold maxEntries; lia|].
  { intros k Hk. apply makeKeys_short in Hk. change (len (bs "key:")) with 4 in Hk. unfold HashTable.footprintEstimate.
    pose proof (len_nonneg k). etransitivity; [apply u64_le|].
    - change (len (BenchHashTable.payload 64)) with 64. unfold sizeofNode, lp64, HashTable.kAllocationSlack. lia.
    - change (len (BenchHashTable.payload 64)) with 64. unfold sizeofNode, lp64, HashTable.kAllocationSlack. lia. }
  exists db, m, rs. split_and!.
  - unfold BenchDatabase.measured. unfold emptyMeasured in Hdb0.
    destruct (Database.new _ _) as [d|]; [|done]. simpl in *. by rewrite Hdb0.
  - apply Hro'.
  - done.
  - intros k now Hk. specialize (Hm k). rewrite decide_True in Hm by done.
    destruct (get_rep (H := lp64) db m rs k now (ro_rep _ _ _ _ _ _ Hro')) as (db' & rs' & Hg & _).
    exists db'. rewrite Hg, visible_lookup, Hm. done.
Qed.

(** The mixed workloads are what the report says they are: 90 percent of the
    operations of a worker read, the others write, and all of them on the given
    keys. *)
Theorem worker_mix threadIndex n keys : keys <> [] ->
  exists ops, BenchDatabase.worker threadIndex (100 * n) keys = Some ops /\ length ops = (100 * n)%nat /\
    Forall (fun op => keyOf op ∈ keys) ops /\ len (List.filter isRead ops) = 90 * Z.of_nat n.
Proof.
  intros Hne. destruct (operationsFrom_reads (100 * n) 0 (u64 (threadIndex * 7919)) keys Hne (word_u64 _))
    as (ops & Hops & Hl & Hk & Hr). exists ops. rewrite readsFrom_blocks in Hr. split_and!; [exact Hops|done|done|done].
Qed.

(** ** Witnesses *)

Definition sampleTimes : list Double.t := Double.ofZ <$> [30; 10; 20; 10; 500; 40].

Lemma summarise_witness : exists l, summarise sampleTimes = Some l /\ ranked sampleTimes 19 20 (p95 l).
Proof.
  destruct (summarise_ranks sampleTimes) as (l & Hl & _ & Hr & _).
  - done.
  - repeat constructor.
  - vm_compute. congruence.
  - exists l. split; [exact Hl|exact Hr].
Defined.

Lemma roomy_limit_witness : exists db m rs,
  BenchDatabase.measured (H := lp64) BenchDatabase.roomyLimit (makeKeys 3 (bs "key:")) = Some db /\
  dbRep (H := lp64) db m rs.
Proof.
  destruct (roomy_limit_evicts_nothing 3 ltac:(vm_compute; congruence)) as (db & m & rs & Hdb & HD & _).
  exists db, m, rs. split; [exact Hdb|exact HD].
Defined.
